(* ===== verification/_CoqProject ===== *)
-Q . S2P
Prelude.v
HProp.v
Mem.v
Chain.v
Ordered.v
OrderedSet.v
History.v
Carry.v
AvlModel.v
AvlFacts.v
AvlReach.v
AvlCode.v
AvlRefine.v
AvlOps.v
AvlStale.v
AvlDelete.v
AvlDisplay.v
Fifo.v
AvlTraverse.v
AvlLevels.v
AvlSet.v
AvlProps.v
AvlConc.v
AvlConcInv.v
AvlConcProps.v
AvlRace.v
LListCode.v
LListOps.v
LListSession.v
LListMisuse.v
LListConc.v
LListConcInv.v
LListConcProps.v
LListProps.v
ThreadPool.v
ThreadPoolInv.v
ThreadPoolLive.v
ThreadPoolRun.v
ThreadPoolProps.v
PoolHeap.v
PoolHeapProps.v
PoolConc.v
PoolConcRel.v
PoolConcSim.v
PoolConcProps.v
SigHandlers.v
SigProps.v
SigTypes.v
ServerLib.v
ServerProps.v
FileUtils.v
FileProps.v
Print128.v
Bomb.v
BombProps.v
Print128Props.v
Process.v
ProcessFacts.v
ProcessPair.v
Programs.v
OrphanProps.v
ForkcmdProps.v
ProcessSolo.v
SingleProps.v
Demos.v
DemoProps.v
Stage5.v
