(* ===== verification/Prelude.v ===== *)
(** * A verification of the C programs of KyleSpicer/unix

    The repository holds six C libraries (src/libraries) and a number of small
    programs of an assembly course (src/assembly).  This development models every
    function of the libraries and every C program of the course whose source is there,
    and proves what they guarantee, and what they do not.

    ** Common ground

    - [Prelude] (this file): pointers, integer ranges and wrap-around, characters and
      decimal numerals, the tactics [zbool] and [case_test].
    - [HProp], [Mem]: the two pointer libraries run in a monad over an explicit store
      of typed cells and a [world] (the answers of [calloc] and [fopen], [errno], and
      the trace of what is printed and which user functions are called).
      A use of NULL, of a freed cell or of a cell of another type, an overflow of
      [int], a relock by the owner and an exhausted bound are errors.  [wp] is a total
      correctness precondition: a proved program returns.  [fails] is its counterpart for
      programs that end in an error.  [triple] is the form in
      which the properties are stated; [triple_run] reads it as a statement about [run].
      The logic is linear, so that a postcondition that owns nothing states
      that nothing is leaked.
    - [Chain]: singly linked chains.  [Ordered], [OrderedSet]: the contract of an ordered
      container.  [Fifo]: the contract of a queue, kept by two implementations.
      [History]: the sequential histories that explain concurrent calls.  [Carry]: programs
      that do the same whatever else is in the heap.

    ** Components

    - avl_tree/avl_tree_lib.c: [AvlCode] translates every function; [AvlModel] has the
      tree functions that they implement ([ins_tree], [del_tree], [search_tree],
      rotations on trees with their stored heights); [AvlRefine], [AvlDelete], [AvlOps],
      [AvlTraverse] and [AvlDisplay] prove the refinement; [AvlFacts] the order and the
      balance of the trees; [AvlReach] what every reachable tree supports although
      deletion does not keep the balance; [AvlStale] what an insertion does on a tree that
      is not balanced; [AvlLevels] the level order; [AvlSet] the
      contract of an ordered set; [AvlProps] the properties.  [AvlConc] cuts the calls of
      several threads on one tree at the mutex (and [avl_level_order], which takes
      none, at its loop), [AvlConcInv] has the invariant of their interleavings and
      [AvlConcProps] the properties; [AvlRace] shows what every deletion can do to a
      level-order walk.
    - llist/linked_list_lib.c: [LListCode], [LListOps] (one rule per function),
      [LListSession] (sequences of calls against a list), [LListMisuse] (sequences outside the
      supported use, which fail), [LListProps]; [LListConc] cuts
      the calls of several threads inside their critical sections, between the pointers
      and the count, so that what is read without the mutex is seen as it is;
      [LListConcInv] has the invariant of the interleavings and [LListConcProps] the
      properties.
    - thread_pool/thread_pool_lib.c: [ThreadPool] is the transition system of the
      workers, of the producers that submit tasks and of the client that creates the pool
      and shuts it down, cut at the calls of the pthread library, with the
      spurious wakeups and the failures of [pthread_create] as moves; [ThreadPoolInv] has the
      invariants, [ThreadPoolLive] progress and termination, [ThreadPoolRun] the run in which
      a shutdown overtakes all tasks, [ThreadPoolProps] the properties.  [PoolHeap] has the
      parts of the same functions between two calls of the pthread library on the
      memory of the pool, node by node, with the array of its threads, and
      [PoolHeapProps] one rule per part.  [PoolConc] lets the
      threads of [ThreadPool] run them in any interleaving, [PoolConcRel] says how their states
      correspond, [PoolConcSim] that each move on the memory is the move on
      lists, and [PoolConcProps] has the properties.
    - sig_handlers/sig_handler_lib.c: [SigHandlers], [SigProps]; [SigTypes] the typing of
      the signal state.
    - server_lib/server_lib.c: [ServerLib], [ServerProps].
    - file_utils/file_utils_lib.c: [FileUtils], [FileProps].
    - assembly/170d/int128printf.c and fibo128.c: [Print128], [Print128Props].
    - assembly/bomb-assessment/bomb.c: [Bomb], [BombProps].
    - assembly/170d/forkcmd.c, forkpid.c, OrphanZombie.c, OrphanZombie2.c, execve.c, myprog.c,
      getpid.c, getuid.c and system.c: [Process] is a machine of POSIX processes that run
      trees of system calls, with a clock; [Programs] has the programs.  [ProcessFacts],
      [ProcessPair] and [ProcessSolo] say what one process, a parent with its child and a
      process alone do in every run; [ForkcmdProps], [OrphanProps] and [SingleProps] have the
      properties.
    - assembly/170d/cibo.c, nonlocaljmp.c and assembly/4loop/forloop.c: [Demos], [DemoProps].
    - assembly/bomb-assessment/tester/test.c: [Stage5].

    ** Bounds and fuel

    Recursive functions and loops over pointers take a bound on their depth.
    The exported functions take one more than the number of allocated cells
    ([heap_fuel]), and the rules of the operations show that this is enough on every
    well-formed structure, so [OutOfFuel] is never the outcome of a proved operation.
    [print128] takes 14 levels, since 1000^13 exceeds 2^128 and the sign costs one
    level; the numerals of [printf] take more digits than their type can have.
    The moves of the thread pool need no fuel: a measure bounds their number.  The machine of
    processes is a step relation; a process spends less than a second outside of its
    sleeps and waits, which is the only assumption on the speed of processes.

    ** What the theorems show

    The AVL library behaves as a sorted list on every history of insertions of new
    elements, deletions, searches, counts and walks in order, and leaks nothing; insertion keeps the AVL
    invariant, deletion keeps it when the unlinked node is next to the search path,
    or that node leaves an even parent behind, and exactly then; on the other trees an insertion
    of an element that is there, or one whose [calloc] fails, can follow NULL, and
    no other can.  Threads that share a tree and insert distinct elements, delete,
    search, count and walk get the replies of a sequential history; against a level-order walk
    every deletion can be scheduled so that the walk reads the node that it frees, and an
    insertion can make it miss elements or visit them twice.  The linked list behaves as a sequence in two disciplined uses and is
    unsafe outside them; shared by several threads that insert, read the size and test for
    emptiness it is linearisable as long as one of them removes elements, and never blocks for
    ever; two that remove can crash, and so can a thread that looks at the first
    element.  The thread pool of 1 to 255
    threads, fed by any number of producers, keeps its critical sections apart, loses no
    wakeup, cannot deadlock, never uses the pool after it was freed when the client has
    waited for the producers, runs each started task once and drops what is queued at its
    shutdown, which can be every task; the only crash that is left is joining a thread that could not
    be created.  On its memory the threads of a pool of any size do the same in every interleaving, call
    the tasks in their order and leave no cell; with more than 255 threads the pool can be freed under
    some of them.  The signal state stays well typed
    under any sequence of calls.  The programs that fork do what their comments say in every
    interleaving of the two processes and at every speed, and forkcmd.c for every command,
    except where a finding says otherwise.  The other
    components have functional theorems on every branch, and the round trip
    between [print128] and [Mk128].

    ** Not modelled

    The pre- and post-order traversals, the display, the file writer and the destruction of
    a tree, and [llist_peek_tail], the display and the destruction of a list, while other
    threads use it (for one thread they are all modelled); [avl_level_order] among other
    threads is cut between two rounds of its loop only, which is enough for the races
    that are shown, and nothing is claimed of the other runs; the
    stages of the bomb, which are not in the repository: they are parameters, and what is said of
    the whole game is said of stages that only judge their line; the commands that the
    demonstrations start, which are parameters of the machine of processes. *)

From stdpp Require Import base tactics numbers list strings.
From Stdlib Require Import ZArith Lia.

(** ** C scalars *)

(** A C pointer is its address; every pointer type is the same type here. *)
Abbreviation ptr := Z.
Definition NULL : ptr := 0%Z.

Definition INT_MIN : Z := -2147483648.
Definition INT_MAX : Z := 2147483647.

(** A value that a C [int] can hold. *)
Definition int_range (z : Z) : bool := ((INT_MIN <=? z) && (z <=? INT_MAX))%Z.

(** The wrap-around of the unsigned types. *)
Definition u8 (z : Z) : Z := (z mod 2 ^ 8)%Z.
Definition u64 (z : Z) : Z := (z mod 2 ^ 64)%Z.

Lemma int_range_spec z : int_range z = true ↔ (INT_MIN ≤ z ≤ INT_MAX)%Z.
Proof. unfold int_range. rewrite andb_true_iff, !Z.leb_le. done. Qed.

Lemma int_range_true z : (INT_MIN ≤ z ≤ INT_MAX)%Z → int_range z = true.
Proof. apply int_range_spec. Qed.

Lemma u64_small z : (0 ≤ z < 2 ^ 64)%Z → u64 z = z.
Proof. apply Z.mod_small. Qed.

Lemma u8_small z : (0 ≤ z < 2 ^ 8)%Z → u8 z = z.
Proof. apply Z.mod_small. Qed.

Definition newline : string := String (Ascii.ascii_of_nat 10) EmptyString.

(** The characters of a string. *)
Definition codes (s : string) : list Z :=
  (λ c, Z.of_N (Ascii.N_of_ascii c)) <$> String.list_ascii_of_string s.

(** The decimal numeral of a number that is not negative: [printf] with ["%d"] and
    ["%lu"]; ten digits are enough for an [int]. *)
Fixpoint dec (fuel : nat) (n : Z) : list Z :=
  match fuel with
  | O => []
  | S fuel => if (n <? 10)%Z then [(48 + n)%Z] else dec fuel (n / 10)%Z ++ [(48 + n mod 10)%Z]
  end.
Definition fmt_d (n : Z) : list Z := dec 10 n.

(** Replacing an element of a list changes a sum over it by the difference. *)
Lemma sum_list_with_insert {A} (f : A → nat) l i x y : l !! i = Some x →
  sum_list_with f (<[i := y]> l) + f x = sum_list_with f l + f y.
Proof.
  revert i. induction l as [|z l IH]; intros [|i] H; simplify_eq/=; [lia|].
  specialize (IH i H). lia.
Qed.

Lemma sum_list_with_lookup {A} (f : A → nat) l i x : l !! i = Some x → f x ≤ sum_list_with f l.
Proof.
  revert i. induction l as [|z l IH]; intros [|i] H; simplify_eq/=; [lia|].
  specialize (IH i H). lia.
Qed.

(** ** Automation *)

#[global] Arguments Z.eqb : simpl never.
#[global] Arguments Z.ltb : simpl never.
#[global] Arguments Z.leb : simpl never.
#[global] Arguments Z.max : simpl never.

Create HintDb clib discriminated.
#[export] Hint Resolve int_range_true : clib.

(** Turn the boolean comparisons of the code into the propositions they decide. *)
Ltac zbool :=
  repeat match goal with
  | H : (_ =? _)%Z = true |- _ => apply Z.eqb_eq in H
  | H : (_ =? _)%Z = false |- _ => apply Z.eqb_neq in H
  | H : (_ <? _)%Z = true |- _ => apply Z.ltb_lt in H
  | H : (_ <? _)%Z = false |- _ => apply Z.ltb_ge in H
  | H : (_ <=? _)%Z = true |- _ => apply Z.leb_le in H
  | H : (_ <=? _)%Z = false |- _ => apply Z.leb_gt in H
  | H : (_ || _)%bool = true |- _ => apply orb_true_iff in H
  | H : (_ || _)%bool = false |- _ => apply orb_false_iff in H as [??]
  | H : (_ && _)%bool = true |- _ => apply andb_true_iff in H as [??]
  | H : bool_decide _ = true |- _ => apply bool_decide_eq_true in H
  | H : bool_decide _ = false |- _ => apply bool_decide_eq_false in H
  | H : negb _ = true |- _ => apply negb_true_iff in H
  | H : negb _ = false |- _ => apply negb_false_iff in H
  end.

(** Case analysis on the innermost boolean test of the goal. *)
Ltac case_test :=
  match goal with
  | |- context [if ?b then _ else _] =>
      lazymatch b with
      | context [if _ then _ else _] => fail
      | _ => lazymatch type of b with
             | bool => let E := fresh "E" in destruct b eqn:E; zbool
             end
      end
  end.

(** ** The Fibonacci numbers *)

(** The pair of F(n) and F(n+1). *)
Definition fib_pair (n : nat) : Z * Z := (Nat.iter n (λ '(a, b), (b, a + b)) (0, 1))%Z.
Definition fib (n : nat) : Z := (fib_pair n).1.

Lemma fib_S n : fib (S n) = (fib_pair n).2.
Proof. unfold fib, fib_pair. rewrite Nat.iter_succ. by destruct (Nat.iter n _ _). Qed.

Lemma fib_SS n : (fib (S (S n)) = fib (S n) + fib n)%Z.
Proof.
  rewrite (fib_S (S n)), fib_S. unfold fib, fib_pair. rewrite Nat.iter_succ.
  destruct (Nat.iter n _ _) as [a b]. simpl. lia.
Qed.

Lemma fib_nonneg n : (0 ≤ fib n ∧ 0 ≤ fib (S n))%Z.
Proof. induction n as [|n [IH1 IH2]]; [by split|]. split; [done|]. rewrite fib_SS. lia. Qed.

Lemma fib_mono m n : m ≤ n → (fib m ≤ fib n)%Z.
Proof.
  induction 1 as [|n _ IH]; [done|]. destruct n as [|n].
  { change (fib 1) with 1%Z. change (fib 0) with 0%Z in IH. lia. }
  rewrite fib_SS. pose proof (fib_nonneg n). lia.
Qed.
