(* ===== verification/HProp.v ===== *)
(** * HProp: linear assertions over an explicit store

    Assertions about a C heap are predicates over finite maps from addresses
    to cells.  The file shows that they form a bunched logic in the sense of
    Iris ([hPropI]), which gives the proof mode for the heap-manipulating
    components.  The logic is linear: [emp] holds of the empty heap only, so
    an assertion accounts for every cell and a postcondition [emp] states the
    absence of leaks. *)

From iris.proofmode Require Import proofmode.
From stdpp Require Import gmap.

Section assertions.
Context {V : Type}.
Abbreviation mem := (gmap Z V).

Record hProp := HProp { holds : mem → Prop }.

Record hequiv (P Q : hProp) : Prop := Hequiv { hequiv_at m : holds P m ↔ holds Q m }.
#[global] Instance hProp_equiv : Equiv hProp := hequiv.
#[global] Instance hProp_equivalence : Equivalence (≡@{hProp}).
Proof.
  split.
  - done.
  - intros P Q [H]; split; intros m; by rw (H m).
  - intros P Q R [H1] [H2]; split; intros m; by rw (H1 m) (H2 m).
Qed.
#[warnings="-redundant-canonical-projection"]
Canonical Structure hPropO := discreteO hProp.

Record hentails (P Q : hProp) : Prop := Entails { entails_at m : holds P m → holds Q m }.
Definition hemp : hProp := HProp (λ m, m = ∅).
Definition hpure (φ : Prop) : hProp := HProp (λ _, φ).
Definition hand (P Q : hProp) : hProp := HProp (λ m, holds P m ∧ holds Q m).
Definition hor (P Q : hProp) : hProp := HProp (λ m, holds P m ∨ holds Q m).
Definition himpl (P Q : hProp) : hProp := HProp (λ m, holds P m → holds Q m).
Definition hforall (A : Type) (Φ : A → hProp) : hProp :=
  HProp (λ m, ∀ a, holds (Φ a) m).
Definition hexist (A : Type) (Φ : A → hProp) : hProp :=
  HProp (λ m, ∃ a, holds (Φ a) m).
Definition hsep (P Q : hProp) : hProp :=
  HProp (λ m, ∃ m1 m2, m = m1 ∪ m2 ∧ m1 ##ₘ m2 ∧ holds P m1 ∧ holds Q m2).
Definition hwand (P Q : hProp) : hProp :=
  HProp (λ m, ∀ m', m ##ₘ m' → holds P m' → holds Q (m ∪ m')).
Definition hpers (P : hProp) : hProp := hpure (hentails hemp P).
Definition hlater (P : hProp) : hProp := P.

(** The cell at address [l] holds [v]; [NULL] is never allocated. *)
Definition hpointsto (l : Z) (v : V) : hProp :=
  HProp (λ m, m = {[l := v]} ∧ l ≠ 0%Z).

Lemma hprop_bi_mixin :
  BiMixin hentails hemp hpure hand hor himpl hforall hexist hsep hwand.
Proof.
  split.
  - split; [by constructor|]. intros P Q R H1 H2; split; intros m HP.
    by apply H2, H1.
  - intros P Q; split; [intros [H]; split; split; intros m; apply H|].
    intros [[H1] [H2]]; split; intros m; split; [apply H1|apply H2].
  - intros n φ ψ H; split; intros m; exact H.
  - intros n P P' [HP] Q Q' [HQ]; split; intros m; simpl; by rw (HP m) (HQ m).
  - intros n P P' [HP] Q Q' [HQ]; split; intros m; simpl; by rw (HP m) (HQ m).
  - intros n P P' [HP] Q Q' [HQ]; split; intros m; simpl; by rw (HP m) (HQ m).
  - intros A n Φ Ψ H; split; intros m; split; intros HΦ a; by apply (H a).
  - intros A n Φ Ψ H; split; intros m; split; intros [a HΦ]; exists a; by apply (H a).
  - intros n P P' [HP] Q Q' [HQ]; split; intros m; simpl; split;
      intros (m1 & m2 & ? & ? & ? & ?); exists m1, m2;
      repeat split; auto; by (apply HP || apply HQ).
  - intros n P P' [HP] Q Q' [HQ]; split; intros m; split; intros H m' Hd HP';
      apply HQ, H; auto; by apply HP.
  - intros φ P Hφ; split; intros m _; exact Hφ.
  - intros φ P H; split; intros m Hφ; by apply (H Hφ).
  - intros P Q; split; intros m [H _]; exact H.
  - intros P Q; split; intros m [_ H]; exact H.
  - intros P Q R [H1] [H2]; split; intros m HP; split; auto.
  - intros P Q; split; intros m H; by left.
  - intros P Q; split; intros m H; by right.
  - intros P Q R [H1] [H2]; split; intros m [H|H]; auto.
  - intros P Q R [H]; split; intros m HP HQ; by apply H.
  - intros P Q R [H]; split; intros m [HP HQ]; by apply H.
  - intros A P Ψ H; split; intros m HP a; by apply H.
  - intros A Ψ a; split; intros m H; apply H.
  - intros A Ψ a; split; intros m H; by exists a.
  - intros A Φ Q H; split; intros m [a Ha]; by apply (H a).
  - intros P P' Q Q' [HP] [HQ]; split; intros m (m1 & m2 & ? & ? & ? & ?).
    exists m1, m2; repeat split; auto.
  - intros P; split; intros m HP; exists ∅, m; rw left_id_L; repeat split; auto.
    apply map_disjoint_empty_l.
  - intros P; split; intros m (m1 & m2 & -> & ? & -> & ?); by rw left_id_L.
  - intros P Q; split; intros m (m1 & m2 & -> & ? & ? & ?); exists m2, m1.
    repeat split; auto. by apply map_union_comm.
  - intros P Q R; split; intros m (m12 & m3 & -> & Hd & (m1 & m2 & -> & ? & ? & ?) & ?).
    apply map_disjoint_union_l in Hd as [??].
    exists m1, (m2 ∪ m3); rw assoc_L; repeat split; auto.
    + by apply map_disjoint_union_r_2.
    + exists m2, m3; auto.
  - intros P Q R [H]; split; intros m HP m' Hd HQ; apply H; exists m, m'; auto.
  - intros P Q R [H]; split; intros m (m1 & m2 & -> & ? & ? & ?); by apply H.
Qed.

Lemma hprop_pers_mixin :
  BiPersistentlyMixin hentails hemp hand hexist hsep hpers.
Proof.
  eapply bi_persistently_mixin_discrete; last exact hprop_bi_mixin.
  - done.
  - intros A Φ [H]. destruct (H ∅ eq_refl) as [a Ha].
    exists a. split; intros m ->. exact Ha.
  - done.
Qed.

Lemma hprop_later_mixin :
  BiLaterMixin hentails hpure hor himpl hforall hexist hsep hpers hlater.
Proof. eapply bi_later_mixin_id; [done | exact hprop_bi_mixin]. Qed.

#[warnings="-redundant-canonical-projection"]
Canonical Structure hPropI : bi :=
  {| bi_ofe_mixin := ofe_mixin_of hProp;
     bi_bi_mixin := hprop_bi_mixin;
     bi_bi_persistently_mixin := hprop_pers_mixin;
     bi_bi_later_mixin := hprop_later_mixin |}.

#[global] Instance hprop_pure_forall : BiPureForall hPropI.
Proof. intros A φ; split; intros m H; exact H. Qed.
End assertions.
Global Arguments hProp : clear implicits.
Global Arguments hPropI : clear implicits.
Global Arguments hPropO : clear implicits.

Notation "l ↦ v" := (hpointsto l v) (at level 20, format "l  ↦  v") : bi_scope.

(** The affine embedding of a pure fact: it holds of the empty heap only. *)
Notation "⟪ φ ⟫" := (bi_affinely (bi_pure φ%type%stdpp)) (format "⟪ φ ⟫") : bi_scope.

(** ** What the connectives mean in the model

    The program logic of the file Mem is proved against these lemmas, so that
    no other file unfolds the model. *)
Section model.
Context {V : Type}.
Implicit Types (P Q : hProp V) (m : gmap Z V).

Lemma holds_entails P Q m : (P ⊢ Q) → holds P m → holds Q m.
Proof. intros H; apply H. Qed.

Lemma holds_sep P Q m :
  holds (P ∗ Q)%I m ↔ ∃ m1 m2, m = m1 ∪ m2 ∧ m1 ##ₘ m2 ∧ holds P m1 ∧ holds Q m2.
Proof. done. Qed.

Lemma holds_wand P Q m :
  holds (P -∗ Q)%I m ↔ ∀ m', m ##ₘ m' → holds P m' → holds Q (m ∪ m').
Proof. done. Qed.

Lemma holds_forall {A} (Φ : A → hProp V) m : holds (∀ a, Φ a)%I m ↔ ∀ a, holds (Φ a) m.
Proof. done. Qed.

Lemma holds_exist {A} (Φ : A → hProp V) m : holds (∃ a, Φ a)%I m ↔ ∃ a, holds (Φ a) m.
Proof. done. Qed.

Lemma holds_emp m : holds (V:=V) emp%I m ↔ m = ∅.
Proof. done. Qed.

Lemma holds_affine φ m : holds (V:=V) ⟪ φ ⟫%I m ↔ m = ∅ ∧ φ.
Proof. done. Qed.

Lemma holds_and P Q m : holds (P ∧ Q)%I m ↔ holds P m ∧ holds Q m.
Proof. done. Qed.

Lemma holds_pointsto l v m : holds (V:=V) (l ↦ v)%I m ↔ m = {[l := v]} ∧ l ≠ 0%Z.
Proof. done. Qed.

Lemma pointsto_not_null l (v : V) : l ↦ v ⊢ ⌜ l ≠ 0%Z ⌝.
Proof. split; intros m [_ H]; exact H. Qed.

Lemma pointsto_exclusive l (v w : V) : l ↦ v -∗ l ↦ w -∗ False.
Proof.
  apply bi.entails_wand, bi.wand_intro_r.
  split; intros m (m1 & m2 & -> & Hd & [-> _] & [-> _]).
  apply map_disjoint_singleton_l in Hd. by rw lookup_singleton_eq in Hd.
Qed.

(** A heap given by the list of its cells. *)
Definition cells (ls : list (Z * V)) : hPropI V := ([∗ list] x ∈ ls, x.1 ↦ x.2)%I.

Lemma holds_cells ls :
  NoDup ls.*1 → Forall (λ l, l ≠ 0%Z) ls.*1 → holds (cells ls) (list_to_map ls).
Proof.
  induction ls as [|[l v] ls IH]; simpl; [done|].
  intros [Hl Hnd]%NoDup_cons [Hn Hns]%Forall_cons.
  rw insert_union_singleton_l.
  exists {[l := v]}, (list_to_map ls). split; [done|]. split.
  - apply map_disjoint_singleton_l_2. by apply not_elem_of_list_to_map_1.
  - split; [by split|by apply IH].
Qed.
End model.
