(* ===== verification/Mem.v ===== *)
(** * Mem: C programs over an explicit store

    A C function is a state transformer over a heap and a [world] (what the
    environment will answer, and what the program has shown to it).  Undefined
    behaviour, a call through a null function pointer, a lock taken twice by
    its owner and an exhausted recursion bound are values of type [error].
    The file gives the monad, the primitive operations, a total-correctness
    weakest precondition in the logic of the file HProp and one rule per
    primitive. *)

From iris.proofmode Require Import environments proofmode.
From stdpp Require Import gmap strings.
From S2P Require Import Prelude HProp.

(** ** Outcomes and the environment *)

Inductive error :=
  | NullDeref              (* read or write through NULL *)
  | BadAccess (l : ptr)    (* read, write or free of memory that is not allocated *)
  | NullCall               (* call through a NULL function pointer *)
  | IntOverflow            (* signed overflow *)
  | Deadlock               (* the owner of a default mutex locks it again *)
  | BadMutex               (* unlock of a free mutex, use of an uninitialised one *)
  | BadThread              (* join of a thread that was never created *)
  | OutOfFuel.             (* the recursion bound of the model was too small *)

Inductive event :=
  | EvCall (f : ptr) (args : list ptr)       (* a call of a function supplied by the user *)
  | EvPrint (s : string)                     (* printf, puts *)
  | EvPerror (s : string)                    (* perror *)
  | EvOpen (name : ptr) (mode : string) (h : ptr)
  | EvClose (h : ptr).

Definition is_call (e : event) : bool := match e with EvCall _ _ => true | _ => false end.

(** [calloc_plan] and [fopen_plan] hold the answers of the next calls of
    [calloc] (does it succeed) and [fopen] (the handle); an exhausted plan
    means that [calloc] succeeds and [fopen] returns NULL. *)
Record world := World {
  calloc_plan : list bool;
  fopen_plan : list ptr;
  errno : Z;
  trace : list event
}.

Definition ENOMEM : Z := 12.

Definition calloc_ok (w : world) : bool :=
  match calloc_plan w with [] => true | b :: _ => b end.
Definition calloc_world (w : world) : world :=
  World (tail (calloc_plan w)) (fopen_plan w)
        (if calloc_ok w then errno w else ENOMEM) (trace w).
Definition emit_world (e : event) (w : world) : world :=
  World (calloc_plan w) (fopen_plan w) (errno w) (trace w ++ [e]).
Definition errno_world (z : Z) (w : world) : world :=
  World (calloc_plan w) (fopen_plan w) z (trace w).
Definition fopen_handle (w : world) : ptr :=
  match fopen_plan w with [] => NULL | h :: _ => h end.
Definition fopen_world (w : world) : world :=
  World (calloc_plan w) (tail (fopen_plan w)) (errno w) (trace w).
(** The world after a sequence of events. *)
Definition emits (es : list event) (w : world) : world :=
  World (calloc_plan w) (fopen_plan w) (errno w) (trace w ++ es).

Section monad.
Context {V : Type}.

Record state := State { memory : gmap Z V; wld : world }.

Inductive result (A : Type) :=
  | Ok (a : A) (s : state)
  | Err (e : error).
Global Arguments Ok {A}.
Global Arguments Err {A}.

Definition M (A : Type) : Type := state → result A.

#[global] Instance M_ret : MRet M := λ A a s, Ok a s.
#[global] Instance M_bind : MBind M := λ A B k c s,
  match c s with Ok a s' => k a s' | Err e => Err e end.

Definition fail {A} (e : error) : M A := λ _, Err e.

(** *** The store *)

Definition load (l : ptr) : M V := λ s,
  if (l =? NULL)%Z then Err NullDeref
  else match memory s !! l with Some v => Ok v s | None => Err (BadAccess l) end.

Definition store (l : ptr) (v : V) : M () := λ s,
  if (l =? NULL)%Z then Err NullDeref
  else match memory s !! l with
       | Some _ => Ok () (State (<[l := v]> (memory s)) (wld s))
       | None => Err (BadAccess l)
       end.

(** [free(NULL)] does nothing. *)
Definition free (l : ptr) : M () := λ s,
  if (l =? NULL)%Z then Ok () s
  else match memory s !! l with
       | Some _ => Ok () (State (delete l (memory s)) (wld s))
       | None => Err (BadAccess l)
       end.

(** The address above every allocated one. *)
Definition next_addr (m : gmap Z V) : ptr :=
  map_fold (λ l _ acc, Z.max (l + 1) acc) 1%Z m.

(** [calloc(1, sizeof v)] where [v] is the object of all-zero bytes. *)
Definition calloc (v : V) : M ptr := λ s,
  if calloc_ok (wld s)
  then let l := next_addr (memory s) in
       Ok l (State (<[l := v]> (memory s)) (calloc_world (wld s)))
  else Ok NULL (State (memory s) (calloc_world (wld s))).

(** *** The environment *)

Definition emit (e : event) : M () := λ s,
  Ok () (State (memory s) (emit_world e (wld s))).
Definition perror (msg : string) : M () := emit (EvPerror msg).
Definition set_errno (z : Z) : M () := λ s,
  Ok () (State (memory s) (errno_world z (wld s))).
Definition call_user (f : ptr) (args : list ptr) : M () :=
  if (f =? NULL)%Z then fail NullCall else emit (EvCall f args).

(** *** Checked [int] arithmetic *)

Definition int_op (z : Z) : M Z := if int_range z then mret z else fail IntOverflow.

(** A bound for recursions that visit each cell at most once. *)
Definition heap_fuel : M nat := λ s, Ok (S (size (memory s))) s.
End monad.
Arguments state : clear implicits.
Arguments result : clear implicits.
Arguments M : clear implicits.

(** Run a program from a heap and a world. *)
Definition run {V A} (c : M V A) (m : gmap Z V) (w : world) : result V A := c (State m w).

(** What a run shows to its caller. *)
Definition outcome {V A} (r : result V A) : A + error :=
  match r with Ok a _ => inl a | Err e => inr e end.

(** ** Structs

    A component declares the C structs that its cells can hold; reading a
    cell as the wrong struct is an error. *)
Class Struct (V T : Type) := {
  as_cell : T → V;
  of_cell : V → option T;
  of_as_cell x : of_cell (as_cell x) = Some x
}.

#[global] Arguments as_cell : simpl never.
#[global] Arguments of_cell : simpl never.

Section structs.
Context {V T : Type} `{!Struct V T}.

Definition load_struct (l : ptr) : M V T :=
  v ← load l;
  match of_cell v with Some x => mret x | None => fail (BadAccess l) end.

(** [l->f] *)
Definition get {A} (f : T → A) (l : ptr) : M V A :=
  x ← load_struct l; mret (f x).

(** [l->f = v], where [upd] sets the field [f] to [v] *)
Definition set (upd : T → T) (l : ptr) : M V () :=
  x ← load_struct l; store l (as_cell (upd x)).

Definition calloc_struct (zero : T) : M V ptr := calloc (as_cell zero).
End structs.

(** ** Mutexes (default type: not recursive, no error checking) *)

Inductive mutex := MutexNone | MutexFree | MutexHeld.
#[global] Instance mutex_eq_dec : EqDecision mutex.
Proof. solve_decision. Defined.

Section mutexes.
Context {V T : Type} `{!Struct V T}.
Context (fld : T → mutex) (upd : mutex → T → T).

Definition mutex_init (l : ptr) : M V () := set (upd MutexFree) l.
Definition mutex_lock (l : ptr) : M V () :=
  m ← get fld l;
  match m with
  | MutexFree => set (upd MutexHeld) l
  | MutexHeld => fail Deadlock
  | MutexNone => fail BadMutex
  end.
Definition mutex_unlock (l : ptr) : M V () :=
  m ← get fld l;
  match m with MutexHeld => set (upd MutexFree) l | _ => fail BadMutex end.
Definition mutex_destroy (l : ptr) : M V () :=
  m ← get fld l;
  match m with MutexFree => set (upd MutexNone) l | _ => fail BadMutex end.
End mutexes.

(** ** Weakest preconditions *)

Section wp.
Context {V : Type}.
Implicit Types (m : gmap Z V) (P : hPropI V).

(** [wp c w Q] holds of the heaps from which [c], started in the world [w]
    and in any larger heap, returns without error, leaves the rest of the
    heap alone and satisfies [Q]. *)
Definition wp {A} (c : M V A) (w : world) (Q : A → world → hPropI V) : hPropI V :=
  HProp (λ m, ∀ mf, m ##ₘ mf → ∃ a m' w',
    c (State (m ∪ mf) w) = Ok a (State (m' ∪ mf) w') ∧ m' ##ₘ mf ∧ holds (Q a w') m').

(** What a reader can check by running [c]: from any heap that contains a part
    satisfying [P], [c] returns without error, the rest of the heap is as it
    was and the part satisfies [Q]. *)
Definition triple {A} P (c : M V A) (w : world) (Q : A → world → hPropI V) : Prop :=
  ∀ m mf, holds P m → m ##ₘ mf → ∃ a m' w',
    run c (m ∪ mf) w = Ok a (State (m' ∪ mf) w') ∧ m' ##ₘ mf ∧ holds (Q a w') m'.

Lemma wp_triple {A} (c : M V A) w Q P : (P ⊢ wp c w Q) → triple P c w Q.
Proof. intros [H] m mf HP Hd. exact (H m HP mf Hd). Qed.

Lemma triple_run {A} (c : M V A) w Q P m :
  triple P c w Q → holds P m →
  ∃ a m' w', run c m w = Ok a (State m' w') ∧ holds (Q a w') m'.
Proof.
  intros H HP. destruct (H m ∅ HP) as (a & m' & w' & Hc & _ & HQ).
  { apply map_disjoint_empty_r. }
  rw !right_id_L in Hc. eauto.
Qed.

(** A program runs from any state that has what it needs. *)
Lemma wp_runs {A} (c : M V A) P s Q :
  holds P (memory s) → (P ⊢ wp c (wld s) Q) →
  ∃ a m' w', c s = Ok a (State m' w') ∧ holds (Q a w') m'.
Proof.
  intros HP Hwp. destruct (triple_run c (wld s) Q P (memory s)) as (a & m' & w' & H & HQ);
    [by apply wp_triple|done|].
  exists a, m', w'. split; [|done]. unfold run in H. by destruct s.
Qed.

(** The postcondition: the result is [a], the world is [w'], the heap satisfies [R]. *)
Definition gives {A} (a : A) (w' : world) (R : hPropI V) : A → world → hPropI V :=
  λ a1 w1, (⟪a1 = a ∧ w1 = w'⟫ ∗ R)%I.

Lemma gives_intro {A} (a : A) w' R : R ⊢ gives a w' R a w'.
Proof. iIntros "HR". by iFrame. Qed.

Lemma triple_gives {A} (c : M V A) a w w' P (R : hPropI V) m :
  triple P c w (gives a w' R) → holds P m →
  ∃ m', run c m w = Ok a (State m' w') ∧ holds R m'.
Proof.
  intros H HP. destruct (triple_run c w _ P m H HP) as (a' & m' & w'' & Hc & HR).
  apply holds_sep in HR as (m1 & m2 & -> & _ & [-> [-> ->]]%holds_affine & HR).
  rw left_id_L in Hc. eauto.
Qed.

Lemma wp_ret {A} (a : A) w Q : Q a w ⊢ wp (mret a) w Q.
Proof. split; intros m HQ mf Hd. by exists a, m, w. Qed.

Lemma wp_bind {A B} (c : M V A) (k : A → M V B) w Q :
  wp c w (λ a w', wp (k a) w' Q) ⊢ wp (c ≫= k) w Q.
Proof.
  split; intros m H mf Hd. destruct (H mf Hd) as (a & m1 & w1 & Hc & Hd1 & Hk).
  destruct (Hk mf Hd1) as (b & m2 & w2 & Hk2 & Hd2 & HQ).
  exists b, m2, w2. split; [|done].
  rw /mbind /M_bind Hc. done.
Qed.

Lemma wp_wand {A} (c : M V A) w Φ Ψ :
  wp c w Φ -∗ (∀ a w', Φ a w' -∗ Ψ a w') -∗ wp c w Ψ.
Proof.
  apply bi.entails_wand, bi.wand_intro_r.
  split; intros m (m1 & m2 & -> & Hd & Hc & Hk) mf Hdf.
  apply map_disjoint_union_l in Hdf as [Hd1 Hd2].
  destruct (Hc (m2 ∪ mf)) as (a & m1' & w' & Hrun & Hd' & HΦ).
  { by apply map_disjoint_union_r_2. }
  apply map_disjoint_union_r in Hd' as [Hd1' Hd2'].
  exists a, (m1' ∪ m2), w'. split_and!.
  - by rw -!assoc_L.
  - by apply map_disjoint_union_l_2.
  - rw map_union_comm; [|done]. apply (Hk a w'); [|done]. by symmetry.
Qed.

Lemma wp_mono {A} (c : M V A) w Φ Ψ :
  (∀ a w', Φ a w' ⊢ Ψ a w') → wp c w Φ ⊢ wp c w Ψ.
Proof.
  intros H. iIntros "Hc". iApply (wp_wand with "Hc").
  iIntros (a w') "HΦ". by iApply H.
Qed.

Lemma wp_load l v w Q : l ↦ v -∗ (l ↦ v -∗ Q v w) -∗ wp (load l) w Q.
Proof.
  apply bi.entails_wand, bi.wand_intro_r.
  split; intros m (m1 & m2 & -> & Hd & [-> Hl] & Hk) mf Hdf.
  exists v, ({[l := v]} ∪ m2), w. split_and!; [|done|].
  - rw /load /NULL (proj2 (Z.eqb_neq _ _) Hl) /=.
    by rw -assoc_L lookup_union_l' ?lookup_singleton_eq; eauto.
  - rw map_union_comm; [|done]. by apply Hk.
Qed.

Lemma wp_store l v v' w Q : l ↦ v -∗ (l ↦ v' -∗ Q () w) -∗ wp (store l v') w Q.
Proof.
  apply bi.entails_wand, bi.wand_intro_r.
  split; intros m (m1 & m2 & -> & Hd & [-> Hl] & Hk) mf Hdf.
  apply map_disjoint_union_l in Hdf as [Hd1 Hd2].
  apply map_disjoint_singleton_l in Hd as Hn, Hd1 as Hn1.
  exists (), ({[l := v']} ∪ m2), w. split_and!.
  - rw /store /NULL (proj2 (Z.eqb_neq _ _) Hl) /=.
    rw -assoc_L lookup_union_l' ?lookup_singleton_eq; [|by eauto].
    by rw -!insert_union_singleton_l insert_insert_eq insert_union_l.
  - apply map_disjoint_union_l_2; [|done]. by apply map_disjoint_singleton_l.
  - rw map_union_comm; [|by apply map_disjoint_singleton_l].
    apply Hk; [by apply map_disjoint_singleton_r|done].
Qed.

Lemma wp_free l v w Q : l ↦ v -∗ Q () w -∗ wp (free l) w Q.
Proof.
  apply bi.entails_wand, bi.wand_intro_r.
  split; intros m (m1 & m2 & -> & Hd & [-> Hl] & Hk) mf Hdf.
  apply map_disjoint_union_l in Hdf as [Hd1 Hd2].
  apply map_disjoint_singleton_l in Hd as Hn, Hd1 as Hn1.
  exists (), m2, w. split_and!; [|done|done].
  rw /free /NULL (proj2 (Z.eqb_neq _ _) Hl) /=.
  rw -assoc_L lookup_union_l' ?lookup_singleton_eq; [|by eauto].
  rw -insert_union_singleton_l delete_insert_id //.
  by apply lookup_union_None.
Qed.

Lemma wp_free_null w Q : Q () w ⊢ wp (free NULL) w Q.
Proof. split; intros m HQ mf Hd. by exists (), m, w. Qed.

Lemma next_addr_spec m : (∀ l v, m !! l = Some v → (l < next_addr m)%Z) ∧ (1 ≤ next_addr m)%Z.
Proof.
  unfold next_addr.
  apply (map_fold_weak_ind (λ r m, (∀ l v, m !! l = Some v → (l < r)%Z) ∧ (1 ≤ r)%Z)).
  - split; [|done]. by intros l v ?%lookup_empty_Some.
  - intros l v m' r Hm [IH1 IH2]. split; [|lia].
    intros l' v' [[-> ->]|[Hne Hl']]%lookup_insert_Some; [lia|].
    apply IH1 in Hl'. lia.
Qed.

Lemma next_addr_fresh m : m !! next_addr m = None.
Proof.
  destruct (m !! next_addr m) eqn:E; [|done].
  apply (proj1 (next_addr_spec m)) in E. lia.
Qed.

Lemma next_addr_not_null m : next_addr m ≠ NULL.
Proof. pose proof (proj2 (next_addr_spec m)). unfold NULL. lia. Qed.

Lemma wp_calloc v w Q :
  (if calloc_ok w then ∀ l, l ↦ v -∗ Q l (calloc_world w)
   else Q NULL (calloc_world w)) ⊢ wp (calloc v) w Q.
Proof.
  split; intros m HQ mf Hd. rw /calloc /=.
  destruct (calloc_ok w) eqn:E; [|by exists NULL, m, (calloc_world w)].
  set (l := next_addr (m ∪ mf)).
  assert (m !! l = None ∧ mf !! l = None) as [Hm Hmf].
  { apply lookup_union_None. apply next_addr_fresh. }
  exists l, (m ∪ {[l := v]}), (calloc_world w). split_and!.
  - rw -(map_union_comm {[l := v]}); [|by apply map_disjoint_singleton_l].
    by rw -insert_union_singleton_l insert_union_l.
  - apply map_disjoint_union_l_2; [done|]. by apply map_disjoint_singleton_l.
  - apply (HQ l); [by apply map_disjoint_singleton_r|].
    split; [done|]. apply next_addr_not_null.
Qed.

Lemma wp_emit e w Q : Q () (emit_world e w) ⊢ wp (emit e) w Q.
Proof. split; intros m HQ mf Hd. by exists (), m, (emit_world e w). Qed.

Lemma wp_set_errno z w Q : Q () (errno_world z w) ⊢ wp (set_errno z) w Q.
Proof. split; intros m HQ mf Hd. by exists (), m, (errno_world z w). Qed.

Lemma wp_call_user f args w Q :
  f ≠ NULL → Q () (emit_world (EvCall f args) w) ⊢ wp (call_user f args) w Q.
Proof.
  intros Hf. rw /call_user (proj2 (Z.eqb_neq _ _) Hf). apply wp_emit.
Qed.

Lemma wp_int_op z w Q : int_range z = true → Q z w ⊢ wp (int_op z) w Q.
Proof. intros Hz. rw /int_op Hz. apply wp_ret. Qed.

(** The bound exceeds the number of cells that the precondition owns. *)
Lemma wp_heap_fuel (k : nat) P w Q :
  (∀ m, holds P m → k ≤ size m) →
  P -∗ (∀ n, ⌜k < n⌝ → P -∗ Q n w) -∗ wp heap_fuel w Q.
Proof.
  intros Hk. apply bi.entails_wand, bi.wand_intro_r.
  split; intros m (m1 & m2 & -> & Hd & HP & HQ) mf Hdf.
  assert (k < S (size (m1 ∪ m2 ∪ mf))) as Hn.
  { pose proof (Hk _ HP). rw -assoc_L map_size_disj_union; [simpl; lia|].
    apply map_disjoint_union_r_2; [done|]. by apply map_disjoint_union_l in Hdf as [? _]. }
  exists (S (size (m1 ∪ m2 ∪ mf))), (m1 ∪ m2), w. split_and!; [done|done|].
  generalize dependent (S (size (m1 ∪ m2 ∪ mf))). intros n Hn.
  rw map_union_comm; [|done]. by apply (HQ n Hn m1).
Qed.
End wp.

(** ** Rules for structs and mutexes *)

Section struct_rules.
Context {V T : Type} `{!Struct V T}.
Implicit Types (x : T) (Q : () → world → hPropI V).

Lemma wp_load_struct l x w (Q : T → world → hPropI V) :
  l ↦ as_cell x -∗ (l ↦ as_cell x -∗ Q x w) -∗ wp (load_struct l) w Q.
Proof.
  iIntros "Hl HQ". iApply wp_bind. iApply (wp_load with "Hl"). iIntros "Hl".
  rw of_as_cell. iApply wp_ret. by iApply "HQ".
Qed.

Lemma wp_get {A} (f : T → A) l x w (Q : A → world → hPropI V) :
  l ↦ as_cell x -∗ (l ↦ as_cell x -∗ Q (f x) w) -∗ wp (get f l) w Q.
Proof.
  iIntros "Hl HQ". iApply wp_bind. iApply (wp_load_struct with "Hl"). iIntros "Hl".
  iApply wp_ret. by iApply "HQ".
Qed.

Lemma wp_set (upd : T → T) l x w Q :
  l ↦ as_cell x -∗ (l ↦ as_cell (upd x) -∗ Q () w) -∗ wp (set upd l) w Q.
Proof.
  iIntros "Hl HQ". iApply wp_bind. iApply (wp_load_struct with "Hl"). iIntros "Hl".
  iApply (wp_store with "Hl"). done.
Qed.

Lemma wp_calloc_struct (zero : T) w (Q : ptr → world → hPropI V) :
  (if calloc_ok w then ∀ l, l ↦ as_cell zero -∗ Q l (calloc_world w)
   else Q NULL (calloc_world w)) ⊢ wp (calloc_struct zero) w Q.
Proof. apply wp_calloc. Qed.

Context (fld : T → mutex) (upd : mutex → T → T).

Lemma wp_mutex_init l x w Q :
  l ↦ as_cell x -∗ (l ↦ as_cell (upd MutexFree x) -∗ Q () w) -∗ wp (mutex_init upd l) w Q.
Proof. apply wp_set. Qed.

Lemma wp_mutex_lock l x w Q :
  fld x = MutexFree →
  l ↦ as_cell x -∗ (l ↦ as_cell (upd MutexHeld x) -∗ Q () w) -∗ wp (mutex_lock fld upd l) w Q.
Proof.
  iIntros (Hx) "Hl HQ". iApply wp_bind. iApply (wp_get with "Hl"). iIntros "Hl".
  rw Hx. by iApply (wp_set with "Hl").
Qed.

Lemma wp_mutex_unlock l x w Q :
  fld x = MutexHeld →
  l ↦ as_cell x -∗ (l ↦ as_cell (upd MutexFree x) -∗ Q () w) -∗ wp (mutex_unlock fld upd l) w Q.
Proof.
  iIntros (Hx) "Hl HQ". iApply wp_bind. iApply (wp_get with "Hl"). iIntros "Hl".
  rw Hx. by iApply (wp_set with "Hl").
Qed.

Lemma wp_mutex_destroy l x w Q :
  fld x = MutexFree →
  l ↦ as_cell x -∗ (l ↦ as_cell (upd MutexNone x) -∗ Q () w) -∗ wp (mutex_destroy fld upd l) w Q.
Proof.
  iIntros (Hx) "Hl HQ". iApply wp_bind. iApply (wp_get with "Hl"). iIntros "Hl".
  rw Hx. by iApply (wp_set with "Hl").
Qed.
End struct_rules.

(** ** Runs that fail

    [fails c w E] holds of the heaps from which [c] ends in an error of [E].  The heap is
    the whole heap: what is not there is not allocated. *)
Section fails.
Context {V : Type}.
Implicit Types (E : error → Prop) (P : hPropI V).

Definition fails {A} (c : M V A) (w : world) E : hPropI V :=
  HProp (λ m, ∃ e, c (State m w) = Err e ∧ E e).

Lemma fails_runs {A} (c : M V A) E P m w :
  holds P m → (P ⊢ fails c w E) → ∃ e, run c m w = Err e ∧ E e.
Proof. intros HP [H]. exact (H m HP). Qed.

(** The error stops what follows. *)
Lemma fails_bind {A B} (c : M V A) (k : A → M V B) w E : fails c w E ⊢ fails (c ≫= k) w E.
Proof. split; intros m (e & He & HE). exists e. by rw /mbind /M_bind He. Qed.

Lemma fails_after {A B} (c : M V A) (k : A → M V B) w E :
  wp c w (λ a w', fails (k a) w' E) ⊢ fails (c ≫= k) w E.
Proof.
  split; intros m H. destruct (H ∅) as (a & m' & w' & Hc & _ & e & He & HE);
    [apply map_disjoint_empty_r|]. rw !right_id_L in Hc. exists e. by rw /mbind /M_bind Hc.
Qed.

Lemma fails_ext {A} (c c' : M V A) w E : (∀ s, c s = c' s) → fails c w E ⊢ fails c' w E.
Proof. intros Hc. split; intros m (e & He & HE). exists e. by rw -Hc. Qed.

Lemma fails_set_null {T} `{!Struct V T} (upd : T → T) w E P :
  E NullDeref → P ⊢ fails (set upd NULL) w E.
Proof. intros HE. split; intros m _. by exists NullDeref. Qed.

(** A read of an address that is neither of the two allocated ones. *)
Lemma fails_get {A T} `{!Struct V T} (f : T → A) l l1 l2 v1 v2 w E :
  l ≠ NULL → l ≠ l1 → l ≠ l2 → E (BadAccess l) →
  l1 ↦ v1 -∗ l2 ↦ v2 -∗ fails (get f l) w E.
Proof.
  intros Hl H1 H2 HE. apply bi.entails_wand, bi.wand_intro_r.
  split; intros m (m1 & m2 & -> & _ & [-> _] & [-> _]). exists (BadAccess l). split; [|done].
  unfold get, load_struct, load, mbind, M_bind. rw (proj2 (Z.eqb_neq _ _) Hl) /=.
  rw lookup_union_None_2 //; by apply lookup_singleton_ne.
Qed.
End fails.

(** [emit_world] is [emits] of one event, and successive outputs concatenate. *)
Lemma emit_world_emits e w : emit_world e w = emits [e] w.
Proof. done. Qed.
Lemma emits_app es es' w : emits es' (emits es w) = emits (es ++ es') w.
Proof. unfold emits; simpl. by rw -app_assoc. Qed.
Lemma emits_nil w : emits [] w = w.
Proof. unfold emits. rw app_nil_r. by destruct w. Qed.

(** When no failure is planned, [calloc] succeeds and changes nothing. *)
Lemma calloc_plan_nil w : calloc_plan w = [] → calloc_ok w = true ∧ calloc_world w = w.
Proof. destruct w as [plan ? ? ?]. by intros [= ->]. Qed.

(** ** Tactics: one primitive of the program at the head of the goal

    The points-to assertion that a step uses is named by the caller; it comes
    back under the same name. *)
Ltac wp_focus :=
  match goal with |- envs_entails _ (wp (mbind _ _) _ _) => iApply wp_bind | _ => idtac end.
Tactic Notation "wp_read" constr(H) := wp_focus; iApply (wp_get with H); iIntros H; simpl.
Tactic Notation "wp_write" constr(H) := wp_focus; iApply (wp_set with H); iIntros H; simpl.
Tactic Notation "wp_dealloc" constr(H) := wp_focus; iApply (wp_free with H); simpl.
Tactic Notation "wp_lock" constr(H) :=
  wp_focus; iApply (wp_mutex_lock with H); [done|]; iIntros H; simpl.
Tactic Notation "wp_unlock" constr(H) :=
  wp_focus; iApply (wp_mutex_unlock with H); [done|]; iIntros H; simpl.
Ltac wp_return := wp_focus; iApply wp_ret; simpl.

(** A test of a pointer against NULL whose outcome the context determines. *)
Lemma eqb_null_false l : l ≠ 0%Z → (l =? NULL)%Z = false.
Proof. apply Z.eqb_neq. Qed.
#[export] Hint Resolve eqb_null_false : clib.

(** Discharge the test of an allocated pointer against NULL. *)
Ltac not_null H :=
  let E := fresh "Hnn" in
  iDestruct (pointsto_not_null with H) as %E;
  rw ?(eqb_null_false _ E) /=.
