(* ===== verification/Chain.v ===== *)
(** * Chain: singly linked chains of nodes

    The node lists of the libraries (the level-order queue, the linked list,
    the task list) have the same shape: a payload and a [next] pointer.  A
    component instantiates [mk] with the constructor of its node. *)

From iris.proofmode Require Import environments proofmode.
From stdpp Require Import gmap.
From S2P Require Import Prelude HProp Mem.

Section chain.
Context {V N D : Type} `{!Struct V N} (mk : D → ptr → N).

(** Nodes holding [xs], the first at [hd], the last pointing to [tl]. *)
Fixpoint chain (hd tl : ptr) (xs : list D) : hPropI V :=
  match xs with
  | [] => ⟪ hd = tl ⟫
  | x :: xs => ∃ nx, hd ↦ as_cell (mk x nx) ∗ chain nx tl xs
  end%I.

Lemma chain_nil hd tl : chain hd tl [] ⊣⊢ ⟪ hd = tl ⟫.
Proof. done. Qed.

Lemma chain_cons hd tl x xs :
  chain hd tl (x :: xs) ⊣⊢ ∃ nx, hd ↦ as_cell (mk x nx) ∗ chain nx tl xs.
Proof. done. Qed.

Lemma chain_app hd tl xs ys :
  chain hd tl (xs ++ ys) ⊣⊢ ∃ mid, chain hd mid xs ∗ chain mid tl ys.
Proof.
  revert hd. induction xs as [|x xs IH]; intros hd; simpl.
  - iSplit; [iIntros "H"; iExists hd; by iFrame|]. by iIntros "(%mid & -> & H)".
  - iSplit.
    + iIntros "(%nx & H & Hc)". iDestruct (IH with "Hc") as (mid) "[H1 H2]".
      iExists mid. iFrame.
    + iIntros "(%mid & (%nx & H & H1) & H2)". iExists nx. iFrame.
      iApply IH. iExists mid. iFrame.
Qed.

(** A chain whose last node is at [last]. *)
Lemma chain_snoc hd tl xs x :
  chain hd tl (xs ++ [x]) ⊣⊢ ∃ last, chain hd last xs ∗ last ↦ as_cell (mk x tl).
Proof.
  rw chain_app. iSplit; iIntros "(%last & H1 & H2)"; iExists last; iFrame.
  - simpl. iDestruct "H2" as (nx) "[H ->]". done.
  - done.
Qed.

(** The head of a NULL-terminated chain tells whether it is empty. *)
Lemma chain_head hd xs : chain hd NULL xs ⊢ ⌜ hd = NULL ↔ xs = [] ⌝.
Proof.
  destruct xs as [|x xs]; simpl; [by iIntros "->"|].
  iIntros "(%nx & H & _)". iDestruct (pointsto_not_null with "H") as %Hn.
  iPureIntro. split; [done|discriminate].
Qed.

Lemma chain_size hd tl xs m : holds (chain hd tl xs) m → (length xs ≤ size m)%nat.
Proof.
  revert hd m. induction xs as [|x xs IH]; intros hd m H; simpl; [lia|].
  apply holds_exist in H as (nx & H). apply holds_sep in H as (m1 & m2 & -> & Hd & H1 & H2).
  apply holds_pointsto in H1 as [-> _]. apply IH in H2.
  rw (map_size_disj_union _ _ Hd) map_size_singleton. lia.
Qed.
(** The recursion bound exceeds the length of a chain. *)
Lemma wp_chain_fuel hd tl xs w (Q : nat → world → hPropI V) :
  chain hd tl xs -∗ (∀ n, ⌜(length xs < n)%nat⌝ → chain hd tl xs -∗ Q n w) -∗ wp heap_fuel w Q.
Proof. apply wp_heap_fuel, chain_size. Qed.

(** ** Queues: a chain with a pointer to its last node

    The tail pointer of an empty queue is not constrained: the libraries leave
    it as it was. *)
Definition qchain (hd tl : ptr) (xs : list D) : hPropI V :=
  (⟪xs = [] ∧ hd = NULL⟫ ∨
   ∃ ys y, ⟪xs = ys ++ [y]⟫ ∗ chain hd tl ys ∗ tl ↦ as_cell (mk y NULL))%I.

Lemma qchain_nil tl : ⊢ qchain NULL tl [].
Proof. by iLeft. Qed.

Lemma qchain_one n x : n ↦ as_cell (mk x NULL) ⊢ qchain n n [x].
Proof. iIntros "H". iRight. iExists [], x. by iFrame. Qed.

Lemma qchain_chain hd tl xs : qchain hd tl xs ⊢ chain hd NULL xs.
Proof.
  iIntros "[%H|(%ys & %y & -> & Hc & Hl)]"; [by destruct H as [-> ->]|].
  iApply chain_snoc. iExists tl. iFrame.
Qed.

(** The first node. *)
Lemma qchain_cons hd tl x xs :
  qchain hd tl (x :: xs) ⊢ ∃ nx, hd ↦ as_cell (mk x nx) ∗ qchain nx tl xs.
Proof.
  iIntros "[%H|(%ys & %y & %H & Hc & Hl)]"; [by destruct H|].
  destruct ys as [|y' ys]; injection H as -> ->; simpl.
  - iDestruct "Hc" as %->. iExists NULL. iFrame. by iLeft.
  - iDestruct "Hc" as (nx) "[Hh Hc]". iExists nx. iFrame. iRight. iExists ys, y. by iFrame.
Qed.

Lemma qchain_cons_intro hd nx tl x y xs :
  hd ↦ as_cell (mk x nx) -∗ qchain nx tl (y :: xs) -∗ qchain hd tl (x :: y :: xs).
Proof.
  iIntros "Hh [%H|(%ys & %z & %H & Hc & Hl)]"; [by destruct H|].
  iRight. iExists (x :: ys), z. simpl. iFrame. by rw H.
Qed.

(** The last node, and what appending after it makes. *)
Lemma qchain_last hd tl x xs :
  qchain hd tl (x :: xs) ⊢ ∃ y, tl ↦ as_cell (mk y NULL) ∗
    ∀ n z, tl ↦ as_cell (mk y n) -∗ n ↦ as_cell (mk z NULL) -∗ qchain hd n (x :: xs ++ [z]).
Proof.
  iIntros "[%H|(%ys & %y & %H & Hc & Hl)]"; [by destruct H|].
  iExists y. iFrame. iIntros (n z) "Hl Hn". iRight. iExists (x :: xs), z.
  iSplit; [done|]. iFrame. rw H. iApply chain_snoc. iExists tl. iFrame.
Qed.

Lemma qchain_head hd tl xs : qchain hd tl xs ⊢ ⌜ hd = NULL ↔ xs = [] ⌝.
Proof. rw qchain_chain. apply chain_head. Qed.
(** ** The walk to the last node *)

Context (nxt : N → ptr).

(** [while (NULL != current->next) current = current->next;] *)
Fixpoint walk_last (fuel : nat) (current : ptr) : M V ptr :=
  match fuel with
  | O => fail OutOfFuel
  | S fuel =>
    nx ← get nxt current;
    if (nx =? NULL)%Z then mret current else
    nx ← get nxt current; walk_last fuel nx
  end.

(** It returns the last node, where another node can be linked. *)
Lemma wp_walk_last fuel hd x xs w (Q : ptr → world → hPropI V) :
  (∀ y n, nxt (mk y n) = n) → (length xs < fuel)%nat →
  chain hd NULL (x :: xs) -∗
  (∀ lst y, lst ↦ as_cell (mk y NULL) -∗
     (∀ n z, lst ↦ as_cell (mk y n) -∗ n ↦ as_cell (mk z NULL) -∗
             chain hd NULL (x :: xs ++ [z])) -∗
     Q lst w) -∗
  wp (walk_last fuel hd) w Q.
Proof.
  intros Hnxt. revert fuel hd x Q. induction xs as [|x' xs IH]; intros fuel hd x Q Hfuel;
    (destruct fuel as [|fuel]; [simpl in *; lia|]); iIntros "(%nx & Hh & Hc) HQ"; cbn [walk_last].
  - iDestruct "Hc" as %->. wp_read "Hh". rw Hnxt /=. wp_return. iApply ("HQ" with "Hh").
    iIntros (n z) "Hh Hn". simpl. iExists n. by iFrame.
  - wp_read "Hh". rw Hnxt. iAssert ⌜nx ≠ 0%Z⌝%I as %Hnx.
    { iDestruct "Hc" as (nx') "[Hc _]". iApply (pointsto_not_null with "Hc"). }
    rw (eqb_null_false _ Hnx). wp_read "Hh". rw Hnxt.
    iApply (IH with "Hc"); [simpl in *; lia|]. iIntros (lst y) "Hl Hk".
    iApply ("HQ" with "Hl"). iIntros (n z) "Hl Hn". iExists nx. iFrame.
    iApply ("Hk" with "Hl Hn").
Qed.
End chain.
