(* ===== verification/Ordered.v ===== *)
(** * Ordered: the specification of a search structure

    What a container ordered by a C comparison function promises, as functions
    on the sorted list of its elements: insertion that keeps an equal element
    that is already there, deletion and search.  The laws of the comparison
    function are those that qsort and bsearch ask of theirs. *)

From stdpp Require Import list sorting sets.
From S2P Require Import Prelude.

Open Scope Z_scope.

Class CmpLaws (cmp : ptr → ptr → Z) : Prop := {
  cmp_antisym x y : Z.sgn (cmp x y) = - Z.sgn (cmp y x);
  cmp_trans x y z : cmp x y < 0 → cmp y z < 0 → cmp x z < 0;
  cmp_zero x y z : cmp x y = 0 → Z.sgn (cmp x z) = Z.sgn (cmp y z)
}.

Section ordered.
Context (cmp : ptr → ptr → Z).

Definition cmp_lt (x y : ptr) : Prop := cmp x y < 0.
Definition sorted : list ptr → Prop := StronglySorted cmp_lt.

Fixpoint list_insert (d : ptr) (xs : list ptr) : list ptr :=
  match xs with
  | [] => [d]
  | y :: ys => if cmp d y <? 0 then d :: y :: ys
               else if 0 <? cmp d y then y :: list_insert d ys
               else y :: ys
  end.

Fixpoint list_delete (d : ptr) (xs : list ptr) : list ptr :=
  match xs with
  | [] => []
  | y :: ys => if cmp d y <? 0 then y :: ys
               else if 0 <? cmp d y then y :: list_delete d ys
               else ys
  end.

Fixpoint list_search (d : ptr) (xs : list ptr) : option ptr :=
  match xs with
  | [] => None
  | y :: ys => if cmp d y <? 0 then None
               else if 0 <? cmp d y then list_search d ys
               else Some y
  end.

Lemma sorted_app xs y ys :
  sorted (xs ++ y :: ys) ↔
  sorted xs ∧ sorted ys ∧ Forall (λ x, cmp x y < 0) xs ∧ Forall (cmp_lt y) ys ∧
  Forall (λ x, Forall (cmp_lt x) ys) xs.
Proof.
  unfold sorted. induction xs as [|x xs IH]; simpl.
  - split; [intros [??]%StronglySorted_inv; split_and!; auto; constructor|].
    intros (?&?&?&?&?). by constructor.
  - split.
    + intros [Hs Hx]%StronglySorted_inv. apply IH in Hs as (?&?&?&?&?).
      apply Forall_app in Hx as [Hx1 Hx2]. apply Forall_cons in Hx2 as [Hx2 Hx3].
      split_and!; auto; by constructor.
    + intros (Hs&?&Hy&?&Hys). apply StronglySorted_inv in Hs as [??].
      apply Forall_cons in Hy as [??]. apply Forall_cons in Hys as [??].
      constructor; [apply IH; auto|].
      apply Forall_app; split; [done|]. by constructor.
Qed.

Lemma list_insert_elem d xs z :
  z ∈ list_insert d xs → z = d ∨ z ∈ xs.
Proof.
  induction xs as [|x xs IH]; simpl; [set_solver|]. repeat case_test; set_solver.
Qed.

Lemma list_insert_fresh d xs : list_search d xs = None → d ∈ list_insert d xs.
Proof.
  induction xs as [|x xs IH]; simpl; [set_solver|]. repeat case_test; set_solver.
Qed.

Lemma list_delete_elem d xs z : z ∈ list_delete d xs → z ∈ xs.
Proof.
  induction xs as [|x xs IH]; simpl; [set_solver|]. repeat case_test; set_solver.
Qed.

Lemma list_insert_perm d xs : list_search d xs = None → list_insert d xs ≡ₚ d :: xs.
Proof.
  induction xs as [|x xs IH]; simpl; [done|]. repeat case_test; [done| |done].
  intros H. rewrite (IH H). apply perm_swap.
Qed.

(** Nothing is lost: what is not deleted stays. *)
Lemma list_delete_perm d xs :
  option_list (list_search d xs) ++ list_delete d xs ≡ₚ xs.
Proof.
  induction xs as [|x xs IH]; simpl; [done|]. repeat case_test; simpl; [done| |done].
  by rewrite <-Permutation_middle, IH.
Qed.

(** Elements that are pairwise different for the comparison. *)
Definition distinct : list ptr → Prop := ForallOrdPairs (λ x y, cmp x y ≠ 0).

Lemma list_search_new d xs : Forall (λ x, cmp d x ≠ 0) xs → list_search d xs = None.
Proof. induction 1 as [|x xs Hx _ IH]; [done|]. simpl. repeat case_test; [done|done|lia]. Qed.

Lemma distinct_new d xs ys : distinct (d :: xs ++ ys) → list_search d xs = None.
Proof.
  intros H. inversion H as [|x l Hd _]; subst. apply list_search_new.
  by apply Forall_app in Hd as [? _].
Qed.

Section laws.
Context `{!CmpLaws cmp}.

Lemma cmp_refl x : cmp x x = 0.
Proof. pose proof (cmp_antisym x x). lia. Qed.

Lemma cmp_flip_neg x y : cmp x y < 0 ↔ 0 < cmp y x.
Proof. pose proof (cmp_antisym x y). lia. Qed.

Lemma cmp_flip_zero x y : cmp x y = 0 ↔ cmp y x = 0.
Proof. pose proof (cmp_antisym x y). lia. Qed.

Lemma distinct_permutation xs ys : xs ≡ₚ ys → distinct xs → distinct ys.
Proof.
  unfold distinct. induction 1 as [|x xs ys Hp IH|x y xs|xs ys zs _ IH1 _ IH2]; auto.
  - inversion 1 as [|? ? Hx Hr]; subst. constructor; [by rewrite <-Hp|auto].
  - inversion 1 as [|? ? Hy Hr]; subst. inversion Hr as [|? ? Hx Hr']; subst.
    apply Forall_cons in Hy as [Hyx Hy]. constructor; [|by constructor].
    constructor; [by rewrite cmp_flip_zero|done].
Qed.

Lemma distinct_app_r xs ys : distinct (xs ++ ys) → distinct ys.
Proof. unfold distinct. induction xs as [|x xs IH]; [done|]. inversion 1; auto. Qed.

Lemma cmp_zero_r x y z : cmp x y = 0 → Z.sgn (cmp z x) = Z.sgn (cmp z y).
Proof.
  intros H. pose proof (cmp_zero x y z H). pose proof (cmp_antisym z x).
  pose proof (cmp_antisym z y). lia.
Qed.

(** Below the pivot [y], only the left part matters. *)
Lemma below_pivot d y ys :
  cmp d y < 0 → Forall (cmp_lt y) ys → Forall (cmp_lt d) (y :: ys).
Proof.
  intros Hd Hys. constructor; [done|].
  eapply Forall_impl; [exact Hys|]. intros z Hz. by eapply cmp_trans.
Qed.

(** Above the pivot [y], every element of the left part is below [d]. *)
Lemma above_pivot d y xs :
  0 ≤ cmp d y → Forall (λ x, cmp x y < 0) xs → Forall (λ x, 0 < cmp d x) xs.
Proof.
  intros Hd Hxs. eapply Forall_impl; [exact Hxs|]. intros x Hx; simpl in *.
  apply cmp_flip_neg. destruct (Z.eq_dec (cmp d y) 0) as [E|].
  - pose proof (cmp_zero_r d y x E). lia.
  - eapply cmp_trans; [exact Hx|]. apply cmp_flip_neg. lia.
Qed.

Ltac skip_left IH :=
  simpl; repeat match goal with
  | H : 0 < cmp ?d ?x |- context [cmp ?d ?x <? 0] =>
      rewrite (proj2 (Z.ltb_ge (cmp d x) 0)), (proj2 (Z.ltb_lt 0 (cmp d x))) by lia
  end; by rewrite IH.

Lemma list_insert_skip d xs ys :
  Forall (λ x, 0 < cmp d x) xs → list_insert d (xs ++ ys) = xs ++ list_insert d ys.
Proof. induction 1 as [|x xs Hx _ IH]; [done|]. skip_left IH. Qed.

Lemma list_delete_skip d xs ys :
  Forall (λ x, 0 < cmp d x) xs → list_delete d (xs ++ ys) = xs ++ list_delete d ys.
Proof. induction 1 as [|x xs Hx _ IH]; [done|]. skip_left IH. Qed.

Lemma list_search_skip d xs ys :
  Forall (λ x, 0 < cmp d x) xs → list_search d (xs ++ ys) = list_search d ys.
Proof. induction 1 as [|x xs Hx _ IH]; [done|]. skip_left IH. Qed.

Ltac stop_below H :=
  destruct H as [|? ? Hlt ?]; simpl; [by rewrite ?app_nil_r|];
  by rewrite (proj2 (Z.ltb_lt _ _) Hlt), ?app_nil_r.

Lemma list_insert_left d xs ys :
  Forall (cmp_lt d) ys → list_insert d (xs ++ ys) = list_insert d xs ++ ys.
Proof.
  intros Hys. induction xs as [|x xs IH]; simpl; [stop_below Hys|].
  rewrite IH. by repeat case_test.
Qed.

Lemma list_delete_left d xs ys :
  Forall (cmp_lt d) ys → list_delete d (xs ++ ys) = list_delete d xs ++ ys.
Proof.
  intros Hys. induction xs as [|x xs IH]; simpl; [stop_below Hys|].
  rewrite IH. by repeat case_test.
Qed.

Lemma list_search_left d xs ys :
  Forall (cmp_lt d) ys → list_search d (xs ++ ys) = list_search d xs.
Proof.
  intros Hys. induction xs as [|x xs IH]; simpl; [stop_below Hys|].
  rewrite IH. by repeat case_test.
Qed.

Lemma sorted_list_insert d xs : sorted xs → sorted (list_insert d xs).
Proof.
  unfold sorted. induction 1 as [|x xs Hs IH Hx]; simpl; [repeat constructor|].
  repeat case_test; [| |by constructor].
  - constructor; [by constructor|]. by apply below_pivot.
  - constructor; [done|]. apply Forall_forall. intros z [->|Hz]%list_insert_elem.
    + by apply cmp_flip_neg.
    + by eapply Forall_forall in Hx.
Qed.

Lemma sorted_list_delete d xs : sorted xs → sorted (list_delete d xs).
Proof.
  unfold sorted. induction 1 as [|x xs Hs IH Hx]; simpl; [constructor|].
  repeat case_test; [by constructor| |done].
  constructor; [done|]. apply Forall_forall. intros z Hz%list_delete_elem.
  by eapply Forall_forall in Hx.
Qed.
End laws.
End ordered.

(** Numbers in their order. *)
Definition zcmp (a b : ptr) : Z := a - b.
#[export] Instance zcmp_laws : CmpLaws zcmp.
Proof. unfold zcmp. split; intros; lia. Qed.
