(* ===== verification/OrderedSet.v ===== *)
(** * OrderedSet: what an ordered container promises to its clients

    The contract is against the sorted list of the elements (file Ordered);
    a client proved against it does not know that the container is a tree. *)

From iris.proofmode Require Import environments proofmode.
From stdpp Require Import gmap.
From S2P Require Import Prelude HProp Mem Ordered.

(** The call of a user's function for an element. *)
Definition visited (g d : ptr) : event := EvCall g [d].

(** [rep p k xs]: the object at [p] holds [xs] in order, and has room for [k]
    more insertions.  [freed x] is the call that releases a deleted element. *)
Class OrderedSet {V} (cmp : ptr → ptr → Z)
    (insert : ptr → ptr → M V ()) (delete : ptr → ptr → M V bool) (find : ptr → ptr → M V ptr)
    (walk : ptr → ptr → M V ()) (count : ptr → M V Z)
    (freed : ptr → event) (rep : ptr → nat → list ptr → hPropI V) : Prop := {
  set_insert p k xs d w (Q : () → world → hPropI V) :
    d ≠ NULL → calloc_plan w = [] → list_search cmp d xs = None →
    rep p (S k) xs -∗ (rep p k (list_insert cmp d xs) -∗ Q () w) -∗ wp (insert p d) w Q;
  set_delete p k xs d w (Q : bool → world → hPropI V) :
    d ≠ NULL →
    rep p k xs -∗
    (rep p k (list_delete cmp d xs) -∗
     Q (bool_decide (is_Some (list_search cmp d xs)))
       (emits (map freed (option_list (list_search cmp d xs))) w)) -∗
    wp (delete p d) w Q;
  set_find p k xs d w (Q : ptr → world → hPropI V) :
    d ≠ NULL →
    rep p k xs -∗ (rep p k xs -∗ Q (default NULL (list_search cmp d xs)) w) -∗
    wp (find p d) w Q;
  set_walk p k xs g w (Q : () → world → hPropI V) :
    g ≠ NULL →
    rep p k xs -∗ (rep p k xs -∗ Q () (emits (map (visited g) xs) w)) -∗ wp (walk p g) w Q;
  set_total p k xs w (Q : Z → world → hPropI V) :
    rep p k xs -∗ (rep p k xs -∗ Q (Z.of_nat (length xs)) w) -∗ wp (count p) w Q
}.

(** ** Clients: sequences of calls *)

Inductive op :=
  OpInsert (d : ptr) | OpDelete (d : ptr) | OpFind (d : ptr) | OpWalk (g : ptr) | OpCount.
Inductive reply :=
  RInserted | RDeleted (b : bool) | RFound (x : ptr) | RWalked | RCount (n : Z).

(** The argument, if there is one, is NULL. *)
Definition null_arg (o : op) : bool :=
  match o with OpInsert d | OpDelete d | OpFind d | OpWalk d => d =? NULL | OpCount => false end%Z.

Section client.
Context {V : Type} (cmp : ptr → ptr → Z) (freed : ptr → event).

(** The reference: the contents, the reply and the calls after an operation. *)
Definition spec_op (o : op) (xs : list ptr) : list ptr * reply * list event :=
  match o with
  | OpInsert d => (list_insert cmp d xs, RInserted, [])
  | OpDelete d => (list_delete cmp d xs, RDeleted (bool_decide (is_Some (list_search cmp d xs))),
                   map freed (option_list (list_search cmp d xs)))
  | OpFind d => (xs, RFound (default NULL (list_search cmp d xs)), [])
  | OpWalk g => (xs, RWalked, map (visited g) xs)
  | OpCount => (xs, RCount (Z.of_nat (length xs)), [])
  end.

Fixpoint spec_ops (os : list op) (xs : list ptr) : list ptr * list reply * list event :=
  match os with
  | [] => (xs, [], [])
  | o :: os => let '(xs, r, es) := spec_op o xs in
               let '(xs, rs, es') := spec_ops os xs in (xs, r :: rs, es ++ es')
  end.

(** Arguments are not NULL, and only new elements are inserted. *)
Definition admissible (o : op) (xs : list ptr) : bool :=
  negb (null_arg o) &&
  match o with OpInsert d => bool_decide (list_search cmp d xs = None) | _ => true end.

Fixpoint admissible_all (os : list op) (xs : list ptr) : bool :=
  match os with
  | [] => true
  | o :: os => admissible o xs && admissible_all os (spec_op o xs).1.1
  end.

Fixpoint insertions (os : list op) : nat :=
  match os with [] => O | OpInsert _ :: os => S (insertions os) | _ :: os => insertions os end.

Context (insert : ptr → ptr → M V ()) (delete : ptr → ptr → M V bool) (find : ptr → ptr → M V ptr).
Context (walk : ptr → ptr → M V ()) (count : ptr → M V Z).

Definition do_op (p : ptr) (o : op) : M V reply :=
  match o with
  | OpInsert d => insert p d;; mret RInserted
  | OpDelete d => b ← delete p d; mret (RDeleted b)
  | OpFind d => x ← find p d; mret (RFound x)
  | OpWalk g => walk p g;; mret RWalked
  | OpCount => n ← count p; mret (RCount n)
  end.

Fixpoint do_ops (p : ptr) (os : list op) : M V (list reply) :=
  match os with
  | [] => mret []
  | o :: os => r ← do_op p o; rs ← do_ops p os; mret (r :: rs)
  end.

Context {rep : ptr → nat → list ptr → hPropI V}.
Context `{!OrderedSet cmp insert delete find walk count freed rep}.

Lemma wp_do_op p k o xs w (Q : reply → world → hPropI V) :
  calloc_plan w = [] → admissible o xs = true →
  rep p (insertions [o] + k) xs -∗
  (rep p k (spec_op o xs).1.1 -∗ Q (spec_op o xs).1.2 (emits (spec_op o xs).2 w)) -∗
  wp (do_op p o) w Q.
Proof.
  intros Hw Ho. apply andb_true_iff in Ho as [Hd Hf]. zbool. iIntros "Hp HQ".
  destruct o as [d|d|d|g|]; simpl in *; zbool.
  - wp_focus. iApply (set_insert with "Hp"); [done..|].
    iIntros "Hp". wp_return. rw emits_nil. by iApply "HQ".
  - wp_focus. iApply (set_delete with "Hp"); [done..|]. iIntros "Hp". wp_return. by iApply "HQ".
  - wp_focus. iApply (set_find with "Hp"); [done..|]. iIntros "Hp". wp_return.
    rw emits_nil. by iApply "HQ".
  - wp_focus. iApply (set_walk with "Hp"); [done..|]. iIntros "Hp". wp_return. by iApply "HQ".
  - wp_focus. iApply (set_total with "Hp"). iIntros "Hp". wp_return.
    rw emits_nil. by iApply "HQ".
Qed.

Lemma insertions_cons o os : insertions (o :: os) = (insertions [o] + insertions os)%nat.
Proof. by destruct o. Qed.

Lemma wp_do_ops p k os xs w (Q : list reply → world → hPropI V) :
  calloc_plan w = [] → admissible_all os xs = true →
  rep p (insertions os + k) xs -∗
  (let '(xs', rs, es) := spec_ops os xs in rep p k xs' -∗ Q rs (emits es w)) -∗
  wp (do_ops p os) w Q.
Proof.
  revert xs w Q. induction os as [|o os IH]; intros xs w Q Hw Ha.
  { simpl. iIntros "Hp HQ". wp_return. rw emits_nil. by iApply "HQ". }
  simpl in Ha. apply andb_true_iff in Ha as [Ho Ha]. rw insertions_cons -Nat.add_assoc /=.
  iIntros "Hp HQ". wp_focus. specialize (IH (spec_op o xs).1.1).
  iApply (wp_do_op p (insertions os + k) with "Hp"); [done..|].
  iIntros "Hp". destruct (spec_op o xs) as [[xs1 r] es1]. cbn [fst snd] in *.
  wp_focus. iApply (IH with "Hp"); [done|done|]. destruct (spec_ops os xs1) as [[xs2 rs] es2].
  iIntros "Hp". wp_return. rw emits_app. by iApply "HQ".
Qed.
End client.

(** The reference on a sequence that grows at its end. *)
Lemma spec_ops_snoc cmp freed os o xs :
  spec_ops cmp freed (os ++ [o]) xs =
  let '(ys, rs, es) := spec_ops cmp freed os xs in
  let '(zs, r, es') := spec_op cmp freed o ys in (zs, rs ++ [r], es ++ es').
Proof.
  revert xs. induction os as [|o' os IH]; intros xs; simpl.
  - destruct (spec_op cmp freed o xs) as [[ys r] es]. by rw app_nil_r.
  - destruct (spec_op cmp freed o' xs) as [[xs1 r1] es1]. rw IH.
    destruct (spec_ops cmp freed os xs1) as [[ys rs] es].
    destruct (spec_op cmp freed o ys) as [[zs r] es']. by rw app_assoc.
Qed.
