(* ===== verification/History.v ===== *)
(** * History: what several threads have done, in one order

    A history lists pairs of a thread (or process) and what it did.  The concurrent
    models of the list and of the tree explain the calls of their threads by such a
    sequential history, which restricted to a thread ([calls_of]) is the order
    of its own calls; the machine of processes records what each process shows. *)

From stdpp Require Import list.
From S2P Require Import Prelude.

Section history.
Context {K A : Type} `{EqDecision K}.
Implicit Types (i j : K) (h : list (K * A)) (a : A).

(** What thread [i] did. *)
Fixpoint calls_of i h : list A :=
  match h with
  | [] => []
  | (j, a) :: h => if bool_decide (j = i) then a :: calls_of i h else calls_of i h
  end.

Lemma calls_of_app i h h' : calls_of i (h ++ h') = calls_of i h ++ calls_of i h'.
Proof.
  induction h as [|[j a] h IH]; [done|]. simpl. case_bool_decide; by rewrite IH.
Qed.

Lemma calls_of_one i a : calls_of i [(i, a)] = [a].
Proof. simpl. by rewrite bool_decide_eq_true_2. Qed.

Lemma calls_of_other i j a : j ≠ i → calls_of j [(i, a)] = [].
Proof. intros H. simpl. by rewrite bool_decide_eq_false_2. Qed.

Lemma calls_of_in i a h : (i, a) ∈ h → a ∈ calls_of i h.
Proof.
  induction h as [|[j b] h IH]; [by intros ?%elem_of_nil|].
  intros [[= <- <-]|Hin]%elem_of_cons; simpl.
  - rewrite bool_decide_eq_true_2 by done. by left.
  - case_bool_decide; [right|]; auto.
Qed.

(** Conversely the history has nothing but the calls of its threads. *)
Lemma in_calls_of i a h : a ∈ calls_of i h → (i, a) ∈ h.
Proof.
  induction h as [|[j b] h IH]; [by intros ?%elem_of_nil|]. simpl.
  case_bool_decide as E; [|intros Hin; right; auto].
  subst. intros [<-|Hin]%elem_of_cons; [by left|right; auto].
Qed.
End history.
