(* ===== verification/Carry.v ===== *)
(** * Carry: programs that do the same in a larger heap

    A program that allocates nothing and does not look at its environment does the same
    whatever else is in the heap and whatever the environment is: [carries c c'] says that
    of [c], with [c'] in the larger heap; the two differ only in the fuel, which grows with
    the heap. *)

From Stdlib Require Import ssreflect.
From stdpp Require Import gmap.
From S2P Require Import Prelude Mem.

Section carries.
Context {V : Type}.

Definition carries {A} (c c' : M V A) : Prop :=
  ∀ m w a m' w' mf w1, c (State m w) = Ok a (State m' w') → m ##ₘ mf →
    m' ##ₘ mf ∧ ∃ w1', c' (State (m ∪ mf) w1) = Ok a (State (m' ∪ mf) w1').

Lemma carries_ret {A} (a : A) : carries (mret a) (mret a).
Proof. intros m w b m' w' mf w1 [= <- <- <-] Hd. split; [done|by exists w1]. Qed.

Lemma carries_fail {A} e (c : M V A) : carries (fail e) c.
Proof. by intros m w b m' w' mf w1 H. Qed.

Lemma carries_bind {A B} (c c' : M V A) (k k' : A → M V B) :
  carries c c' → (∀ a, carries (k a) (k' a)) → carries (c ≫= k) (c' ≫= k').
Proof.
  intros Hc Hk m w b m' w' mf w1 H Hd. unfold mbind, M_bind in *.
  destruct (c (State m w)) as [a [m2 w2]|] eqn:E; [|done].
  destruct (Hc _ _ _ _ _ _ w1 E Hd) as (Hd2 & w2' & ->). by eapply Hk.
Qed.

Lemma carries_load l : carries (load l) (load l).
Proof.
  intros m w v m' w' mf w1 H Hd. unfold load in *. simpl in *. case_match; [done|].
  destruct (m !! l) as [x|] eqn:E; [|done]. injection H as <- <- <-.
  split; [done|]. exists w1. by rw (lookup_union_Some_l _ _ _ _ E).
Qed.

Lemma carries_store l v : carries (store l v) (store l v).
Proof.
  intros m w a m' w' mf w1 H Hd. unfold store in *. simpl in *. case_match; [done|].
  destruct (m !! l) as [x|] eqn:E; [|done]. injection H as <- <- <-.
  assert (mf !! l = None) as Hl by by eapply map_disjoint_Some_l.
  split; [by apply map_disjoint_insert_l_2|]. exists w1. rw (lookup_union_Some_l _ _ _ _ E).
  by rw insert_union_l.
Qed.

Lemma carries_free l : carries (free l) (free l).
Proof.
  intros m w a m' w' mf w1 H Hd. unfold free in *. simpl in *. case_match.
  { injection H as <- <- <-. split; [done|by exists w1]. }
  destruct (m !! l) as [x|] eqn:E; [|done]. injection H as <- <- <-.
  assert (mf !! l = None) as Hl by by eapply map_disjoint_Some_l.
  split; [by apply map_disjoint_delete_l|]. exists w1. rw (lookup_union_Some_l _ _ _ _ E).
  by rw delete_union (delete_id mf).
Qed.

Lemma carries_emit e : carries (emit (V:=V) e) (emit e).
Proof. intros m w a m' w' mf w1 [= <- <- <-] Hd. split; [done|by eexists]. Qed.

Lemma carries_call_user f args : carries (call_user (V:=V) f args) (call_user f args).
Proof. unfold call_user. case_match; [apply carries_fail|apply carries_emit]. Qed.

Lemma carries_int_op z : carries (int_op (V:=V) z) (int_op z).
Proof. unfold int_op. case_match; [apply carries_ret|apply carries_fail]. Qed.

(** The fuel is taken from the size of the heap. *)
Lemma carries_heap_fuel {A} (k k' : nat → M V A) :
  (∀ n n', n ≤ n' → carries (k n) (k' n'))%nat →
  carries (n ← heap_fuel; k n) (n ← heap_fuel; k' n).
Proof.
  intros Hk m w a m' w' mf w1 H Hd. unfold mbind, M_bind, heap_fuel in *. simpl in *.
  eapply Hk; [|exact H|exact Hd]. rw map_size_disj_union //. lia.
Qed.
End carries.

Section structs.
Context {V T : Type} `{!Struct V T}.

Lemma carries_get {A} (f : T → A) l : carries (get (V:=V) f l) (get f l).
Proof.
  unfold get, load_struct. apply carries_bind; [|intros; apply carries_ret].
  apply carries_bind; [apply carries_load|]. intros v. case_match; [apply carries_ret|apply carries_fail].
Qed.

Lemma carries_set upd l : carries (set (V:=V) upd l) (set upd l).
Proof.
  unfold set, load_struct. apply carries_bind; [|intros; apply carries_store].
  apply carries_bind; [apply carries_load|]. intros v. case_match; [apply carries_ret|apply carries_fail].
Qed.
End structs.

Create HintDb carry discriminated.
#[export] Hint Resolve carries_ret carries_fail carries_load carries_store carries_free carries_emit
  carries_call_user carries_int_op carries_get carries_set : carry.

(** Follow a program statement by statement. *)
Ltac carry :=
  repeat match goal with
  | |- ∀ _, _ => intro
  | |- carries (if ?b then _ else _) _ => destruct b
  | |- carries (match ?x with _ => _ end) _ => destruct x
  | |- carries (_ ← heap_fuel; _) _ => apply carries_heap_fuel
  | |- carries (_ ≫= _) _ => apply carries_bind
  | |- carries _ _ => solve [auto with carry]
  end.
