(* ===== verification/AvlModel.v ===== *)
(** * AvlModel: the tree operations of avl_tree_lib.c as functions

    The trees that the pointer structures of the file AvlCode represent, with
    the heights that the nodes store, and each tree operation as a function
    on them.  A result [None] means that the C code leaves the domain of
    defined behaviour (it follows a NULL pointer or overflows an [int]).
    The file AvlRefine proves that AvlCode implements these functions. *)

From stdpp Require Import list option sorting.
From S2P Require Import Prelude Ordered.

Open Scope Z_scope.

(** ** Trees *)

Inductive tree := Leaf | Node (l : tree) (d : ptr) (h : Z) (r : tree).

(** The stored height; [height(NULL)] is -1. *)
Definition ht (t : tree) : Z := match t with Leaf => -1 | Node _ _ h _ => h end.

Fixpoint inorder (t : tree) : list ptr :=
  match t with Leaf => [] | Node l d _ r => inorder l ++ d :: inorder r end.
Fixpoint preorder (t : tree) : list ptr :=
  match t with Leaf => [] | Node l d _ r => d :: preorder l ++ preorder r end.
Fixpoint postorder (t : tree) : list ptr :=
  match t with Leaf => [] | Node l d _ r => postorder l ++ postorder r ++ [d] end.
Fixpoint node_count (t : tree) : Z :=
  match t with Leaf => 0 | Node l _ _ r => node_count l + node_count r + 1 end.
Fixpoint depth (t : tree) : nat :=
  match t with Leaf => O | Node l _ _ r => S (Nat.max (depth l) (depth r)) end.
Definition is_leaf (t : tree) : bool := match t with Leaf => true | _ => false end.

(** A checked [int] operation. *)
Definition chk (z : Z) : option Z := if int_range z then Some z else None.

(** ** Rotations *)

Definition rot_right (t : tree) : option tree :=
  match t with
  | Node (Node ll ld _ lr) d _ r =>
      h ← chk (Z.max (ht lr) (ht r) + 1);
      h' ← chk (Z.max (ht ll) h + 1);
      Some (Node ll ld h' (Node lr d h r))
  | _ => None
  end.

Definition rot_left (t : tree) : option tree :=
  match t with
  | Node l d _ (Node rl rd _ rr) =>
      h ← chk (Z.max (ht l) (ht rl) + 1);
      h' ← chk (Z.max (ht rr) h + 1);
      Some (Node (Node l d h rl) rd h' rr)
  | _ => None
  end.

Definition rot_left_right (t : tree) : option tree :=
  match t with
  | Node l d h r => l' ← rot_left l; rot_right (Node l' d h r)
  | Leaf => None
  end.

Definition rot_right_left (t : tree) : option tree :=
  match t with
  | Node l d h r => r' ← rot_right r; rot_left (Node l d h r')
  | Leaf => None
  end.

(** [node->height = max(height(left), height(right)) + 1] *)
Definition fix_height (t : tree) : option tree :=
  match t with
  | Node l d _ r => h ← chk (Z.max (ht l) (ht r) + 1); Some (Node l d h r)
  | Leaf => None
  end.

Section ops.
Context (cmp : ptr → ptr → Z).

(** ** Insertion; [ok] is the answer of [calloc] *)

Definition balance_left (d : ptr) (t : tree) : option tree :=
  match t with
  | Node l _ _ r =>
      diff ← chk (ht l - ht r);
      if diff =? 2 then
        match l with
        | Node _ ld _ _ => if cmp d ld <? 0 then rot_right t else rot_left_right t
        | Leaf => None
        end
      else Some t
  | Leaf => None
  end.

Definition balance_right (d : ptr) (t : tree) : option tree :=
  match t with
  | Node l _ _ r =>
      diff ← chk (ht r - ht l);
      if 2 =? diff then
        match r with
        | Node _ rd _ _ => if 0 <? cmp d rd then rot_left t else rot_right_left t
        | Leaf => None
        end
      else Some t
  | Leaf => None
  end.

Fixpoint ins_tree (ok : bool) (d : ptr) (t : tree) : option tree :=
  match t with
  | Leaf => Some (if ok then Node Leaf d 0 Leaf else Leaf)
  | Node l x h r =>
      t' ← (if cmp d x <? 0 then
              l' ← ins_tree ok d l; balance_left d (Node l' x h r)
            else if 0 <? cmp d x then
              r' ← ins_tree ok d r; balance_right d (Node l x h r')
            else Some t);
      fix_height t'
  end.

(** Does the search path of [d] end at a node. *)
Fixpoint path_finds (d : ptr) (t : tree) : bool :=
  match t with
  | Leaf => false
  | Node l x _ r => if cmp d x <? 0 then path_finds d l
                    else if 0 <? cmp d x then path_finds d r else true
  end.

(** ** Search *)

Fixpoint search_tree (d : ptr) (t : tree) : option ptr :=
  match t with
  | Leaf => None
  | Node l x _ r => if cmp x d =? 0 then Some x
                    else if cmp x d <? 0 then search_tree d r else search_tree d l
  end.

(** ** Deletion *)

(** Unlink the leftmost node, without touching any height. *)
Fixpoint del_min (l : tree) (d : ptr) (h : Z) (r : tree) : ptr * tree :=
  match l with
  | Leaf => (d, r)
  | Node ll ld lh lr => let '(m, l') := del_min ll ld lh lr in (m, Node l' d h r)
  end.

(** The tree that replaces a deleted node with subtrees [l] and [r]. *)
Definition del_root (l : tree) (h : Z) (r : tree) : tree :=
  match l, r with
  | Leaf, _ => r
  | _, Leaf => l
  | _, Node rl rd rh rr => let '(m, r') := del_min rl rd rh rr in Node l m h r'
  end.

Definition rebalance (t : tree) : option tree :=
  match t with
  | Leaf => Some Leaf
  | Node l d _ r =>
      h ← chk (1 + Z.max (ht l) (ht r));
      bal ← chk (ht l - ht r);
      if 1 <? bal then
        match l with
        | Node ll _ _ lr => if ht lr <=? ht ll then rot_right (Node l d h r)
                            else rot_left_right (Node l d h r)
        | Leaf => None
        end
      else if bal <? -1 then
        match r with
        | Node rl _ _ rr => if ht rl <=? ht rr then rot_left (Node l d h r)
                            else rot_right_left (Node l d h r)
        | Leaf => None
        end
      else Some (Node l d h r)
  end.

(** The resulting tree and the deleted element. *)
Fixpoint del_tree (d : ptr) (t : tree) : option (tree * option ptr) :=
  match t with
  | Leaf => Some (Leaf, None)
  | Node l x h r =>
      '(t', res) ← (if cmp d x <? 0 then
                      '(l', res) ← del_tree d l; Some (Node l' x h r, res)
                    else if 0 <? cmp d x then
                      '(r', res) ← del_tree d r; Some (Node l x h r', res)
                    else Some (del_root l h r, Some x));
      t'' ← rebalance t'; Some (t'', res)
  end.

(** Is the node that [del_tree d] unlinks adjacent to the path: it has a NULL
    child, or its successor is its right child. *)
Fixpoint shallow_delete (d : ptr) (t : tree) : bool :=
  match t with
  | Leaf => true
  | Node l x _ r =>
      if cmp d x <? 0 then shallow_delete d l
      else if 0 <? cmp d x then shallow_delete d r
      else match l, r with
           | Leaf, _ | _, Leaf => true
           | _, Node rl _ _ _ => is_leaf rl
           end
  end.

(** The parent of the leftmost node has a right subtree that is as high as that node. *)
Fixpoint min_even (t : tree) : bool :=
  match t with
  | Leaf => true
  | Node l _ _ r => match l with
                    | Leaf => true
                    | Node Leaf _ mh _ => ht r =? mh
                    | Node _ _ _ _ => min_even l
                    end
  end.

(** Does it not matter that [del_min] touches no height: it is not used on the way to [d],
    or the parent of the node that it unlinks keeps its height and its balance. *)
Fixpoint even_delete (d : ptr) (t : tree) : bool :=
  match t with
  | Leaf => true
  | Node l x _ r =>
      if cmp d x <? 0 then even_delete d l
      else if 0 <? cmp d x then even_delete d r
      else match l with Leaf => true | _ => min_even r end
  end.
End ops.

(** ** Well-formedness *)

(** The AVL invariant: stored heights are exact and siblings differ by at most 1. *)
Fixpoint avl (t : tree) : Prop :=
  match t with
  | Leaf => True
  | Node l _ h r => avl l ∧ avl r ∧ h = Z.max (ht l) (ht r) + 1 ∧ -1 ≤ ht l - ht r ≤ 1
  end.

(** What every reachable tree satisfies: a stored height exceeds those of the
    children.  A deletion can leave it too large, never too small. *)
Fixpoint wf (t : tree) : Prop :=
  match t with
  | Leaf => True
  | Node l _ h r => wf l ∧ wf r ∧ Z.max (ht l) (ht r) + 1 ≤ h
  end.

(** Steps that the proofs take one at a time. *)
#[global] Arguments rot_right : simpl never.
#[global] Arguments rot_left : simpl never.
#[global] Arguments rot_left_right : simpl never.
#[global] Arguments rot_right_left : simpl never.
#[global] Arguments fix_height : simpl never.
#[global] Arguments balance_left : simpl never.
#[global] Arguments balance_right : simpl never.
#[global] Arguments rebalance : simpl never.
#[global] Arguments del_root : simpl never.
