(* ===== verification/AvlFacts.v ===== *)
(** * AvlFacts: what the tree functions of AvlModel compute

    Contents: insertion, deletion and search agree with the ordered-list
    specification of the file Ordered.  Shape: insertion and shallow deletion
    keep the AVL invariant and stay within [int]; every deletion, and the
    insertion of a new element, is defined on every reachable tree. *)

From stdpp Require Import list option sorting sets.
From S2P Require Import Prelude Ordered AvlModel.

Open Scope Z_scope.

(** ** Inversion of checked steps *)

Lemma chk_Some z z' : chk z = Some z' ↔ z' = z ∧ int_range z = true.
Proof.
  unfold chk. destruct (int_range z); [|naive_solver].
  split; [by intros [= ->]|by intros [-> _]].
Qed.

Lemma chk_ok z : INT_MIN ≤ z ≤ INT_MAX → chk z = Some z.
Proof. intros H. unfold chk. by rewrite int_range_true. Qed.

(** Break a defined computation into its steps. *)
Ltac opt_inv :=
  repeat match goal with
  | H : Some _ = Some _ |- _ => injection H as H; subst
  | H : None = Some _ |- _ => discriminate H
  | H : (_, _) = (_, _) |- _ => injection H as H; subst
  | H : mbind _ _ = Some _ |- _ => apply bind_Some in H as (? & ? & ?)
  | H : chk _ = Some _ |- _ => apply chk_Some in H as [-> ?]
  | H : (if ?b then _ else _) = Some _ |- _ => let E := fresh "E" in destruct b eqn:E; zbool
  | H : match ?x with _ => _ end = Some _ |- _ => destruct x eqn:?; simpl in H
  end.

(** Rewrite with an equation about the tree that a defined step returned. *)
Ltac use_IH IH :=
  match goal with
  | H : _ = Some ?t' |- context [inorder ?t'] => rewrite (IH t') by eauto; done
  end.

(** ** Contents *)

Lemma rot_right_inorder t t' : rot_right t = Some t' → inorder t' = inorder t.
Proof.
  destruct t as [|[|ll ld lh lr] d h r]; try done; unfold rot_right; intros H; opt_inv; simpl.
  by rewrite <-app_assoc.
Qed.

Lemma rot_left_inorder t t' : rot_left t = Some t' → inorder t' = inorder t.
Proof.
  destruct t as [|l d h [|rl rd rh rr]]; try done; unfold rot_left; intros H; opt_inv; simpl.
  by rewrite <-app_assoc.
Qed.


Lemma rot_left_right_inorder t t' : rot_left_right t = Some t' → inorder t' = inorder t.
Proof.
  destruct t as [|l d h r]; [done|]; unfold rot_left_right; intros H; opt_inv.
  apply rot_right_inorder in H0 as ->. apply rot_left_inorder in H as E. simpl. by rewrite E.
Qed.

Lemma rot_right_left_inorder t t' : rot_right_left t = Some t' → inorder t' = inorder t.
Proof.
  destruct t as [|l d h r]; [done|]; unfold rot_right_left; intros H; opt_inv.
  apply rot_left_inorder in H0 as ->. apply rot_right_inorder in H as E. simpl. by rewrite E.
Qed.

Create HintDb avl discriminated.
#[export] Hint Resolve rot_right_inorder rot_left_inorder rot_left_right_inorder
  rot_right_left_inorder : avl.

Lemma fix_height_inorder t t' : fix_height t = Some t' → inorder t' = inorder t.
Proof. destruct t; unfold fix_height; intros H; opt_inv; done. Qed.

Lemma rebalance_inorder t t' : rebalance t = Some t' → inorder t' = inorder t.
Proof.
  destruct t as [|l d h r]; unfold rebalance; [naive_solver|].
  intros H; opt_inv; try done.
  - by rewrite (rot_right_inorder _ _ H1).
  - by rewrite (rot_left_right_inorder _ _ H1).
  - by rewrite (rot_left_inorder _ _ H1).
  - by rewrite (rot_right_left_inorder _ _ H1).
Qed.

Lemma del_min_inorder l d h r m t' :
  del_min l d h r = (m, t') → inorder (Node l d h r) = m :: inorder t'.
Proof.
  revert d h r m t'. induction l as [|ll IH ld lh lr _]; simpl; intros d h r m t' H.
  - by injection H as <- <-.
  - destruct (del_min ll ld lh lr) as [m' l'] eqn:E. injection H as <- <-.
    specialize (IH _ _ _ _ _ E). simpl in *. by rewrite IH.
Qed.

Lemma del_root_inorder l h r : inorder (del_root l h r) = inorder l ++ inorder r.
Proof.
  unfold del_root. destruct l as [|ll ld lh lr]; [done|].
  destruct r as [|rl rd rh rr]; [by rewrite app_nil_r|].
  destruct (del_min rl rd rh rr) as [m r'] eqn:E.
  apply del_min_inorder in E. by rewrite E.
Qed.

Section contents.
Context (cmp : ptr → ptr → Z).

Lemma balance_left_inorder d t t' : balance_left cmp d t = Some t' → inorder t' = inorder t.
Proof.
  destruct t as [|l x h r]; [done|]. unfold balance_left. intros H; opt_inv; eauto with avl.
Qed.

Lemma balance_right_inorder d t t' : balance_right cmp d t = Some t' → inorder t' = inorder t.
Proof.
  destruct t as [|l x h r]; [done|]. unfold balance_right. intros H; opt_inv; eauto with avl.
Qed.

Lemma ins_tree_failed_inorder d t t' :
  ins_tree cmp false d t = Some t' → inorder t' = inorder t.
Proof.
  revert t'. induction t as [|l IHl x h r IHr]; simpl; intros t' H; opt_inv; [done|..];
    match goal with H : fix_height _ = _ |- _ => apply fix_height_inorder in H as -> end.
  - erewrite balance_left_inorder by eassumption. simpl. use_IH IHl.
  - erewrite balance_right_inorder by eassumption. simpl. use_IH IHr.
  - done.
Qed.

Context `{!CmpLaws cmp}.

(** The three cases of a descent at a node, on the in-order list. *)
Lemma node_left d l x r :
  sorted cmp (l ++ x :: r) → cmp d x < 0 → Forall (cmp_lt cmp d) (x :: r).
Proof. intros (_&_&_&?&_)%sorted_app ?. by apply below_pivot. Qed.

Lemma node_right d l x r :
  sorted cmp (l ++ x :: r) → 0 ≤ cmp d x → Forall (λ y, 0 < cmp d y) l.
Proof. intros (_&_&?&_&_)%sorted_app ?. by eapply above_pivot. Qed.

Lemma ins_tree_inorder d t t' :
  sorted cmp (inorder t) → ins_tree cmp true d t = Some t' →
  inorder t' = list_insert cmp d (inorder t).
Proof.
  revert t'. induction t as [|l IHl x h r IHr]; simpl; intros t' Hs H; opt_inv; [done|..];
    match goal with H : fix_height _ = _ |- _ => apply fix_height_inorder in H as -> end;
    pose proof Hs as (?&?&_)%sorted_app.
  - erewrite balance_left_inorder by eassumption. simpl.
    rewrite list_insert_left by by eapply node_left. use_IH IHl.
  - erewrite balance_right_inorder by eassumption. simpl.
    rewrite list_insert_skip by (eapply node_right; [done|lia]). simpl.
    rewrite (proj2 (Z.ltb_ge _ _)), (proj2 (Z.ltb_lt _ _)) by lia. use_IH IHr.
  - rewrite list_insert_skip by (eapply node_right; [done|lia]). simpl.
    by rewrite !(proj2 (Z.ltb_ge _ _)) by lia.
Qed.

Lemma del_tree_inorder d t t' res :
  sorted cmp (inorder t) → del_tree cmp d t = Some (t', res) →
  inorder t' = list_delete cmp d (inorder t) ∧ res = list_search cmp d (inorder t).
Proof.
  revert t' res. induction t as [|l IHl x h r IHr]; simpl; intros t' res Hs H; opt_inv; [done|..];
    match goal with H : rebalance _ = _ |- _ => apply rebalance_inorder in H as -> end;
    pose proof Hs as (?&?&_)%sorted_app; simpl.
  - rewrite list_delete_left, list_search_left by by eapply node_left.
    match goal with H : del_tree _ _ _ = _ |- _ => by destruct (IHl _ _ ltac:(done) H) as [-> ->] end.
  - rewrite list_delete_skip, list_search_skip by (eapply node_right; [done|lia]). simpl.
    rewrite (proj2 (Z.ltb_ge _ _)), (proj2 (Z.ltb_lt _ _)) by lia.
    match goal with H : del_tree _ _ _ = _ |- _ => by destruct (IHr _ _ ltac:(done) H) as [-> ->] end.
  - rewrite list_delete_skip, list_search_skip by (eapply node_right; [done|lia]). simpl.
    rewrite !(proj2 (Z.ltb_ge _ _)) by lia. by rewrite del_root_inorder.
Qed.

Lemma search_tree_inorder d t :
  sorted cmp (inorder t) → search_tree cmp d t = list_search cmp d (inorder t).
Proof.
  induction t as [|l IHl x h r IHr]; simpl; intros Hs; [done|].
  pose proof Hs as (?&?&_)%sorted_app. pose proof (cmp_antisym x d).
  repeat case_test.
  - rewrite list_search_skip by (eapply node_right; [done|lia]). simpl.
    by rewrite !(proj2 (Z.ltb_ge _ _)) by lia.
  - rewrite list_search_skip by (eapply node_right; [done|lia]). simpl.
    rewrite (proj2 (Z.ltb_ge _ _)), (proj2 (Z.ltb_lt _ _)) by lia. by apply IHr.
  - rewrite list_search_left by (eapply node_left; [done|lia]). by apply IHl.
Qed.

Lemma path_finds_inorder d t :
  sorted cmp (inorder t) →
  path_finds cmp d t = bool_decide (is_Some (list_search cmp d (inorder t))).
Proof.
  induction t as [|l IHl x h r IHr]; simpl; intros Hs; [done|].
  pose proof Hs as (?&?&_)%sorted_app. repeat case_test.
  - rewrite list_search_left by (eapply node_left; [done|lia]). by apply IHl.
  - rewrite list_search_skip by (eapply node_right; [done|lia]). simpl.
    rewrite (proj2 (Z.ltb_ge _ _)), (proj2 (Z.ltb_lt _ _)) by lia. by apply IHr.
  - rewrite list_search_skip by (eapply node_right; [done|lia]). simpl.
    by rewrite !(proj2 (Z.ltb_ge _ _)) by lia.
Qed.
End contents.

(** Every traversal visits each element once. *)
Lemma preorder_inorder t : preorder t ≡ₚ inorder t.
Proof.
  induction t as [|l IHl d h r IHr]; simpl; [done|].
  by rewrite IHl, IHr, <-Permutation_middle.
Qed.

Lemma postorder_inorder t : postorder t ≡ₚ inorder t.
Proof.
  induction t as [|l IHl d h r IHr]; simpl; [done|].
  by rewrite IHl, IHr, <-Permutation_cons_append, <-Permutation_middle.
Qed.

(** ** Shape *)

Lemma avl_ht t : avl t → -1 ≤ ht t.
Proof. induction t; simpl; [lia|]. intros (?&?&?&?). intuition lia. Qed.

Lemma ht_nonneg t : avl t → t ≠ Leaf → 0 ≤ ht t.
Proof.
  destruct t; [done|]. simpl. intros (?%avl_ht&?%avl_ht&?&?) _. lia.
Qed.

(** Solve the checks of a computation whose values stay within [int]. *)
Ltac chk_solve := repeat (rewrite chk_ok by (unfold INT_MIN, INT_MAX in *; lia); simpl).

(** Collect what the invariant says of the heights in the context. *)
Ltac avl_pose :=
  repeat match goal with
  | H : avl ?t |- _ =>
      lazymatch goal with
      | _ : -1 ≤ ht t |- _ => fail
      | _ => pose proof (avl_ht t H)
      end
  end.

(** A rotation repairs a node whose taller side leans outwards. *)
Lemma rot_right_avl ll ld lh lr d h r :
  avl (Node ll ld lh lr) → avl r → ht ll < INT_MAX - 2 →
  lh = ht r + 2 → ht lr ≤ ht ll →
  ∃ t', rot_right (Node (Node ll ld lh lr) d h r) = Some t' ∧ avl t' ∧
        lh ≤ ht t' ≤ lh + 1 ∧ (ht lr < ht ll → ht t' = lh).
Proof.
  intros (?&?&?&?) ????. avl_pose. unfold rot_right. chk_solve.
  eexists. split; [done|]. simpl. split_and!; first [lia | assumption].
Qed.

Lemma rot_left_avl l d h rl rd rh rr :
  avl l → avl (Node rl rd rh rr) → ht rr < INT_MAX - 2 →
  rh = ht l + 2 → ht rl ≤ ht rr →
  ∃ t', rot_left (Node l d h (Node rl rd rh rr)) = Some t' ∧ avl t' ∧
        rh ≤ ht t' ≤ rh + 1 ∧ (ht rl < ht rr → ht t' = rh).
Proof.
  intros ? (?&?&?&?) ???. avl_pose. unfold rot_left. chk_solve.
  eexists. split; [done|]. simpl. split_and!; first [lia | assumption].
Qed.

(** A double rotation repairs one that leans inwards. *)
Lemma rot_left_right_avl ll ld lh lr d h r :
  avl (Node ll ld lh lr) → avl r → ht lr < INT_MAX - 2 →
  lh = ht r + 2 → ht ll < ht lr →
  ∃ t', rot_left_right (Node (Node ll ld lh lr) d h r) = Some t' ∧ avl t' ∧ ht t' = lh.
Proof.
  intros (?&?&?&?) ????. avl_pose.
  destruct lr as [|l1 d1 h1 r1]; [simpl in *; lia|]. simpl in *; destruct_and!. avl_pose.
  unfold rot_left_right, rot_left. chk_solve. unfold rot_right. simpl. chk_solve.
  eexists. split; [done|]. simpl. split_and!; auto; lia.
Qed.

Lemma rot_right_left_avl l d h rl rd rh rr :
  avl l → avl (Node rl rd rh rr) → ht rl < INT_MAX - 2 →
  rh = ht l + 2 → ht rr < ht rl →
  ∃ t', rot_right_left (Node l d h (Node rl rd rh rr)) = Some t' ∧ avl t' ∧ ht t' = rh.
Proof.
  intros ? (?&?&?&?) ???. avl_pose.
  destruct rl as [|l1 d1 h1 r1]; [simpl in *; lia|]. simpl in *; destruct_and!. avl_pose.
  unfold rot_right_left, rot_right. chk_solve. unfold rot_left. simpl. chk_solve.
  eexists. split; [done|]. simpl. split_and!; auto; lia.
Qed.

Lemma fix_height_node l d h r :
  avl l → avl r → ht l < INT_MAX → ht r < INT_MAX →
  fix_height (Node l d h r) = Some (Node l d (Z.max (ht l) (ht r) + 1) r).
Proof. intros ????. avl_pose. unfold fix_height. by chk_solve. Qed.

Lemma fix_height_avl t : avl t → t ≠ Leaf → ht t < INT_MAX → fix_height t = Some t.
Proof.
  destruct t as [|l d h r]; [done|]. simpl. intros (?&?&->&?) _ ?. avl_pose.
  by rewrite fix_height_node by first [lia | assumption].
Qed.

Lemma avl_not_leaf t : 0 ≤ ht t → t ≠ Leaf.
Proof. by intros ? ->. Qed.

Section shape.
Context (cmp : ptr → ptr → Z).

(** How an insertion changes the height: it grows by one only on the side
    that [d] went to, and without moving the root. *)
Definition grown (d : ptr) (t t' : tree) : Prop :=
  ht t' = ht t ∨
  ht t' = ht t + 1 ∧
  match t with
  | Leaf => True
  | Node _ x _ _ => ∃ l' h' r', t' = Node l' x h' r' ∧
      (cmp d x < 0 ∧ ht l' = ht r' + 1 ∨ 0 < cmp d x ∧ ht r' = ht l' + 1)
  end.

Lemma balance_left_avl d l l' x h r :
  avl l' → avl r → grown d l l' → -1 ≤ ht l - ht r ≤ 1 → -1 ≤ ht l →
  ht l < INT_MAX - 4 → ht r < INT_MAX - 4 →
  cmp d x < 0 → h = Z.max (ht l) (ht r) + 1 →
  ∃ t', (t ← balance_left cmp d (Node l' x h r); fix_height t) = Some t' ∧
        avl t' ∧ grown d (Node l x h r) t'.
Proof.
  intros Hl' Hr Hg Hb Hl ?? Hx ->. avl_pose.
  assert (ht l ≤ ht l' ≤ ht l + 1) by (destruct Hg as [|[? _]]; lia).
  unfold balance_left. chk_solve. case_test; simpl.
  - destruct Hg as [|[Hg Hshape]]; [lia|].
    destruct l as [|l0 lx lh r0]; [simpl in *; lia|].
    destruct Hshape as (l1 & h1 & r1 & -> & [[Hc ?]|[Hc ?]]);
      pose proof Hl' as (?&?&?&?); avl_pose; simpl in *.
    + rewrite (proj2 (Z.ltb_lt _ _)) by lia.
      destruct (rot_right_avl l1 lx h1 r1 x (Z.max lh (ht r) + 1) r) as (t' & -> & Ht' & Hh);
        [done..|lia|lia|lia|]. simpl.
      rewrite fix_height_avl by first [lia | apply avl_not_leaf; lia | assumption].
      eexists; split_and!; [done..|]. left; simpl; lia.
    + rewrite (proj2 (Z.ltb_ge _ _)) by lia.
      destruct (rot_left_right_avl l1 lx h1 r1 x (Z.max lh (ht r) + 1) r) as (t' & -> & Ht' & Hh);
        [done..|lia|lia|lia|]. simpl.
      rewrite fix_height_avl by first [lia | apply avl_not_leaf; lia | assumption].
      eexists; split_and!; [done..|]. left; simpl; lia.
  - rewrite fix_height_node by first [lia | assumption].
    eexists; split_and!; [done|simpl; split_and!; first [lia | assumption]|].
    destruct (decide (Z.max (ht l') (ht r) = Z.max (ht l) (ht r))); [left; simpl; lia|].
    right. split; [simpl; lia|]. eexists _, _, _. split; [done|]. left. split; lia.
Qed.

Lemma balance_right_avl d l r r' x h :
  avl l → avl r' → grown d r r' → -1 ≤ ht l - ht r ≤ 1 → -1 ≤ ht r →
  ht l < INT_MAX - 4 → ht r < INT_MAX - 4 →
  0 < cmp d x → h = Z.max (ht l) (ht r) + 1 →
  ∃ t', (t ← balance_right cmp d (Node l x h r'); fix_height t) = Some t' ∧
        avl t' ∧ grown d (Node l x h r) t'.
Proof.
  intros Hl Hr' Hg Hb Hr ?? Hx ->. avl_pose.
  assert (ht r ≤ ht r' ≤ ht r + 1) by (destruct Hg as [|[? _]]; lia).
  unfold balance_right. chk_solve. case_test; simpl.
  - destruct Hg as [|[Hg Hshape]]; [lia|].
    destruct r as [|l0 rx rh r0]; [simpl in *; lia|].
    destruct Hshape as (l1 & h1 & r1 & -> & [[Hc ?]|[Hc ?]]);
      pose proof Hr' as (?&?&?&?); avl_pose; simpl in *.
    + rewrite (proj2 (Z.ltb_ge _ _)) by lia.
      destruct (rot_right_left_avl l x (Z.max (ht l) rh + 1) l1 rx h1 r1) as (t' & -> & Ht' & Hh);
        [done..|lia|lia|lia|]. simpl.
      rewrite fix_height_avl by first [lia | apply avl_not_leaf; lia | assumption].
      eexists; split_and!; [done..|]. left; simpl; lia.
    + rewrite (proj2 (Z.ltb_lt _ _)) by lia.
      destruct (rot_left_avl l x (Z.max (ht l) rh + 1) l1 rx h1 r1) as (t' & -> & Ht' & Hh);
        [done..|lia|lia|lia|]. simpl.
      rewrite fix_height_avl by first [lia | apply avl_not_leaf; lia | assumption].
      eexists; split_and!; [done..|]. left; simpl; lia.
  - rewrite fix_height_node by first [lia | assumption].
    eexists; split_and!; [done|simpl; split_and!; first [lia | assumption]|].
    destruct (decide (Z.max (ht l) (ht r') = Z.max (ht l) (ht r))); [left; simpl; lia|].
    right. split; [simpl; lia|]. eexists _, _, _. split; [done|]. right. split; lia.
Qed.

Lemma ins_tree_avl ok d t :
  avl t → ht t < INT_MAX - 3 →
  ∃ t', ins_tree cmp ok d t = Some t' ∧ avl t' ∧ grown d t t'.
Proof.
  induction t as [|l IHl x h r IHr]; simpl; intros Ht Hh.
  - destruct ok; eexists; split_and!; try done; [|by left]. by right.
  - destruct Ht as (Hl & Hr & -> & Hb). avl_pose. repeat case_test.
    + destruct IHl as (l' & -> & Hl' & Hg); [done|lia|]. simpl.
      apply (balance_left_avl d l); first [lia | assumption].
    + destruct IHr as (r' & -> & Hr' & Hg); [done|lia|]. simpl.
      apply (balance_right_avl d l r); first [lia | assumption].
    + simpl. rewrite fix_height_node by first [lia | assumption].
      eexists; split_and!; [done|simpl; split_and!; first [lia | assumption]|]. by left.
Qed.
End shape.

(** ** Deletion and the AVL invariant *)

Lemma rebalance_avl l d h r :
  avl l → avl r → -2 ≤ ht l - ht r ≤ 2 → ht l < INT_MAX - 4 → ht r < INT_MAX - 4 →
  ∃ t', rebalance (Node l d h r) = Some t' ∧ avl t' ∧
        (if (-1 <=? ht l - ht r) && (ht l - ht r <=? 1)
         then t' = Node l d (1 + Z.max (ht l) (ht r)) r
         else Z.max (ht l) (ht r) ≤ ht t' ≤ Z.max (ht l) (ht r) + 1).
Proof.
  intros Hl Hr ???. avl_pose. unfold rebalance. chk_solve. case_test; [|case_test].
  - destruct l as [|l1 ld lh l2]; [simpl in *; lia|]. pose proof Hl as (?&?&?&?). avl_pose.
    simpl in *. rewrite andb_comm, (proj2 (Z.leb_gt (lh - ht r) 1)) by lia. simpl. case_test.
    + destruct (rot_right_avl l1 ld lh l2 d (1 + Z.max lh (ht r)) r) as (t' & -> & ? & Hh);
        [done..|lia|lia|lia|].
      eexists; split_and!; [done..| |]; lia.
    + destruct (rot_left_right_avl l1 ld lh l2 d (1 + Z.max lh (ht r)) r) as (t' & -> & ? & Hh);
        [done..|lia|lia|lia|].
      eexists; split_and!; [done..| |]; lia.
  - destruct r as [|r1 rd rh r2]; [simpl in *; lia|]. pose proof Hr as (?&?&?&?). avl_pose.
    simpl in *. rewrite (proj2 (Z.leb_gt (-1) (ht l - rh))) by lia. simpl. case_test.
    + destruct (rot_left_avl l d (1 + Z.max (ht l) rh) r1 rd rh r2) as (t' & -> & ? & Hh);
        [done..|lia|lia|lia|].
      eexists; split_and!; [done..| |]; lia.
    + destruct (rot_right_left_avl l d (1 + Z.max (ht l) rh) r1 rd rh r2) as (t' & -> & ? & Hh);
        [done..|lia|lia|lia|].
      eexists; split_and!; [done..| |]; lia.
  - rewrite !(proj2 (Z.leb_le _ _)) by lia. simpl.
    eexists; split_and!; try done; simpl; split_and!; first [lia | assumption].
Qed.

(** An AVL tree is left alone. *)
Lemma rebalance_id t : avl t → ht t < INT_MAX - 3 → rebalance t = Some t.
Proof.
  destruct t as [|l d h r]; [done|]. simpl. intros (Hl&Hr&->&?) ?. avl_pose.
  destruct (rebalance_avl l d (Z.max (ht l) (ht r) + 1) r) as (t' & -> & _ & Hd);
    [first [lia | assumption]..|].
  rewrite !(proj2 (Z.leb_le _ _)) in Hd by lia. simpl in Hd. subst t'. by rewrite Z.add_comm.
Qed.

(** A subtree that lost at most one level is repaired. *)
Lemma rebalance_shrunk l d h r h0 :
  avl l → avl r → -2 ≤ ht l - ht r ≤ 2 →
  h0 - 1 ≤ Z.max (ht l) (ht r) + 1 ≤ h0 → h0 < INT_MAX - 3 →
  (Z.max (ht l) (ht r) + 1 < h0 → -1 ≤ ht l - ht r ≤ 1) →
  ∃ t', rebalance (Node l d h r) = Some t' ∧ avl t' ∧ h0 - 1 ≤ ht t' ≤ h0.
Proof.
  intros Hl Hr ????. avl_pose.
  destruct (rebalance_avl l d h r) as (t' & -> & Ht & Hh); [first [lia | assumption]..|].
  exists t'. split_and!; [done..| |]; revert Hh; case_test; intros Hh; subst; simpl; try lia.
  all: destruct (Z.eq_dec (Z.max (ht l) (ht r) + 1) h0); [lia|].
  all: rewrite !(proj2 (Z.leb_le _ _)) in E by lia; done.
Qed.

Section deletion.
Context (cmp : ptr → ptr → Z).

Lemma del_tree_avl d t :
  avl t → ht t < INT_MAX - 4 → shallow_delete cmp d t = true →
  ∃ t' res, del_tree cmp d t = Some (t', res) ∧ avl t' ∧ ht t - 1 ≤ ht t' ≤ ht t.
Proof.
  induction t as [|l IHl x h r IHr]; simpl; intros Ht Hh Hs; [by eexists _, _|].
  destruct Ht as (Hl & Hr & -> & Hb). avl_pose. revert Hs. repeat case_test; intros Hs.
  - destruct IHl as (l' & res & -> & Hl' & ?); [first [lia | assumption]..|]. simpl. avl_pose.
    edestruct (rebalance_shrunk l' x (Z.max (ht l) (ht r) + 1) r (Z.max (ht l) (ht r) + 1))
      as (t' & -> & ? & ?); [first [lia | assumption]..|]. by eexists _, _.
  - destruct IHr as (r' & res & -> & Hr' & ?); [first [lia | assumption]..|]. simpl. avl_pose.
    edestruct (rebalance_shrunk l x (Z.max (ht l) (ht r) + 1) r' (Z.max (ht l) (ht r) + 1))
      as (t' & -> & ? & ?); [first [lia | assumption]..|]. by eexists _, _.
  - simpl. unfold del_root. destruct l as [|l1 ld lh l2].
    { rewrite rebalance_id by first [assumption | simpl in *; lia]. eexists _, _.
      split_and!; [done..| |]; simpl in *; lia. }
    destruct r as [|[|] rd rh r2]; [|simpl|done].
    { rewrite rebalance_id by first [assumption | simpl in *; lia]. eexists _, _.
      split_and!; [done..| |]; simpl in *; lia. }
    destruct Hr as (_ & Hr2 & -> & ?). avl_pose. simpl in *.
    match goal with |- context [rebalance (Node ?l ?d ?h ?r)] =>
      edestruct (rebalance_shrunk l d h r (Z.max lh (Z.max (-1) (ht r2) + 1) + 1))
        as (t' & -> & ? & ?); [simpl; first [lia | assumption]..|] end.
    by eexists _, _.
Qed.

(** *** A successor that lies deep *)

(** Unlinking the leftmost node does not change the stored height of the root; the
    tree stays balanced exactly when the parent of that node had an even right side. *)
Lemma del_min_even l d h r :
  avl (Node l d h r) → l ≠ Leaf →
  let t' := (del_min l d h r).2 in ht t' = h ∧ (avl t' ↔ min_even (Node l d h r) = true).
Proof.
  revert d h r. induction l as [|ll IH ld lh lr _]; intros d h r Ht Hl; [done|].
  destruct Ht as (Htl & Hr & Hh & Hb). pose proof Htl as (Hll & Hlr & Hlh & Hlb). avl_pose.
  destruct ll as [|l1 d1 h1 r1].
  - simpl in *. split; [done|]. rewrite Z.eqb_eq. split; [intros (_ & _ & ? & ?); lia|].
    intros E. split_and!; first [assumption | lia].
  - specialize (IH ld lh lr Htl ltac:(done)).
    change (min_even (Node (Node (Node l1 d1 h1 r1) ld lh lr) d h r))
      with (min_even (Node (Node l1 d1 h1 r1) ld lh lr)).
    change (del_min (Node (Node l1 d1 h1 r1) ld lh lr) d h r)
      with (let '(m, l') := del_min (Node l1 d1 h1 r1) ld lh lr in (m, Node l' d h r)).
    destruct (del_min (Node l1 d1 h1 r1) ld lh lr) as [m l'].
    cbn [snd] in IH |- *. destruct IH as [Hl' <-]. cbn [avl ht]. rewrite Hl'. simpl in Hh, Hb.
    split; [done|]. tauto.
Qed.

Lemma shallow_even d t : shallow_delete cmp d t = true → even_delete cmp d t = true.
Proof.
  induction t as [|l IHl x h r IHr]; simpl; [done|]. intros H. repeat case_test; auto.
  destruct l; [done|]. by destruct r as [|[]].
Qed.

Lemma del_tree_deep d t :
  avl t → ht t < INT_MAX - 4 → shallow_delete cmp d t = false →
  ∃ t' res, del_tree cmp d t = Some (t', res) ∧ ht t' = ht t ∧
    (avl t' ↔ even_delete cmp d t = true).
Proof.
  induction t as [|l IHl x h r IHr]; simpl; intros Ht Hh Hs; [done|].
  pose proof Ht as (Hl & Hr & -> & Hb). avl_pose. revert Hs. repeat case_test; intros Hs.
  - destruct IHl as (l' & res & -> & Hh' & He); [first [lia | assumption]..|]. simpl.
    unfold rebalance. rewrite Hh'. chk_solve. rewrite !(proj2 (Z.ltb_ge _ _)) by lia.
    eexists _, _. split; [done|]. simpl. rewrite Hh', <-He. split; [lia|]. intuition lia.
  - destruct IHr as (r' & res & -> & Hh' & He); [first [lia | assumption]..|]. simpl.
    unfold rebalance. rewrite Hh'. chk_solve. rewrite !(proj2 (Z.ltb_ge _ _)) by lia.
    eexists _, _. split; [done|]. simpl. rewrite Hh', <-He. split; [lia|]. intuition lia.
  - simpl. unfold del_root. destruct l as [|l1 ld lh l2]; [done|].
    destruct r as [|rl rd rh rr]; [done|].
    destruct (del_min_even rl rd rh rr Hr) as [Hm He]; [by intros ->|].
    destruct (del_min rl rd rh rr) as [m r']. cbn [snd] in Hm, He. simpl.
    unfold rebalance. rewrite Hm. simpl in *. chk_solve. rewrite !(proj2 (Z.ltb_ge _ _)) by lia.
    eexists _, _. split; [done|]. cbn [avl ht]. rewrite Hm, <-He. split; [lia|]. simpl in *. intuition lia.
Qed.

Lemma del_tree_balance d t :
  avl t → ht t < INT_MAX - 4 →
  ∃ t' res, del_tree cmp d t = Some (t', res) ∧ ht t - 1 ≤ ht t' ≤ ht t ∧
    (avl t' ↔ even_delete cmp d t = true).
Proof.
  intros Ht Hh. destruct (shallow_delete cmp d t) eqn:Hs.
  - destruct (del_tree_avl d t) as (t' & res & H & Ha & Hb); [done..|]. eexists _, _.
    split_and!; [done|lia..|]. split; [by intros _; apply shallow_even|done].
  - destruct (del_tree_deep d t) as (t' & res & H & Hb & He); [done..|]. eexists _, _.
    split_and!; [done|lia..|done].
Qed.
End deletion.

(** ** The height is logarithmic *)

Lemma node_count_nonneg t : 0 ≤ node_count t.
Proof. induction t; simpl; lia. Qed.

Lemma node_count_length t : node_count t = Z.of_nat (length (inorder t)).
Proof. induction t as [|l IHl d h r IHr]; simpl; [done|]. rewrite length_app. simpl. lia. Qed.

Lemma avl_height_log t : avl t → 2 ^ (ht t + 1) ≤ (node_count t + 1) * (node_count t + 1).
Proof.
  induction t as [|l IHl x h r IHr]; simpl; [done|]. intros (Hl & Hr & -> & Hb). avl_pose.
  specialize (IHl Hl). specialize (IHr Hr).
  pose proof (node_count_nonneg l). pose proof (node_count_nonneg r).
  set (a := node_count l + 1) in *. set (b := node_count r + 1) in *.
  set (k := Z.max (ht l) (ht r)).
  assert (node_count l + node_count r + 1 + 1 = a + b) as -> by lia.
  destruct (Z.eq_dec k (-1)) as [->|]; [simpl; nia|].
  assert (0 < 2 ^ k) as Hk by (apply Z.pow_pos_nonneg; lia).
  assert (2 ^ (k + 1 + 1) = 4 * 2 ^ k) as -> by (rewrite <-Z.add_assoc, Z.pow_add_r by lia; lia).
  assert (2 ^ (k + 1) = 2 * 2 ^ k) as E by (rewrite Z.pow_add_r by lia; lia).
  assert (2 ^ k ≤ 2 ^ (ht l + 1) ∧ 2 ^ k ≤ 2 ^ (ht r + 1)) as [??]
    by (split; apply Z.pow_le_mono_r; lia).
  assert (2 ^ k ≤ a * b) by (destruct (Z.le_ge_cases a b); nia).
  assert (2 * 2 ^ k ≤ 2 ^ (ht l + 1) ∨ 2 * 2 ^ k ≤ 2 ^ (ht r + 1)) as [?|?].
  { rewrite <-E. destruct (Z.max_spec (ht l) (ht r)) as [[_ Em]|[_ Em]];
      [right|left]; apply Z.pow_le_mono_r; unfold k; lia. }
  all: lia.
Qed.

Lemma avl_height_small t : avl t → node_count t ≤ INT_MAX → ht t < 62.
Proof.
  intros Ht Hn. apply avl_height_log in Ht as Hh. pose proof (node_count_nonneg t).
  destruct (Z.lt_ge_cases (ht t) 62) as [|Hge]; [done|].
  assert (2 ^ 63 ≤ 2 ^ (ht t + 1)) by (apply Z.pow_le_mono_r; lia).
  unfold INT_MAX in Hn. assert ((node_count t + 1) * (node_count t + 1) ≤ 2 ^ 31 * 2 ^ 31) by nia.
  lia.
Qed.

Lemma avl_depth t : avl t → Z.of_nat (depth t) = ht t + 1.
Proof.
  induction t as [|l IHl d h r IHr]; [done|]. simpl. intros (Hl & Hr & -> & _).
  specialize (IHl Hl). specialize (IHr Hr). lia.
Qed.

(** The smallest balanced tree of depth [k] has [fib (k + 2) - 1] nodes, so that the depth of
    a tree of [n] nodes is below 1.45 times the binary logarithm of [n + 2]. *)
Lemma avl_fib t : avl t → fib (depth t + 2) ≤ node_count t + 1.
Proof.
  rewrite Nat.add_comm. induction t as [|l IHl d h r IHr]; [done|].
  intros (Hl & Hr & _ & Hb). specialize (IHl Hl). specialize (IHr Hr).
  apply avl_depth in Hl, Hr. cbn [depth node_count]. cbn [Nat.add] in *.
  rewrite (fib_SS (S (Nat.max _ _))).
  assert (∀ a b n m, a = b ∨ a = S b → fib (S (S a)) ≤ n + 1 → fib (S (S b)) ≤ m + 1 →
    fib (S (S a)) + fib (S a) ≤ n + m + 1 + 1) as Hfib.
  { intros a b n m [-> | ->]; [|intros; lia]. rewrite (fib_SS b).
    pose proof (fib_nonneg b). lia. }
  destruct (Nat.max_spec (depth l) (depth r)) as [[? ->]|[? ->]].
  - pose proof (Hfib (depth r) (depth l) (node_count r) (node_count l)). lia.
  - pose proof (Hfib (depth l) (depth r) (node_count l) (node_count r)). lia.
Qed.
