(* ===== verification/AvlReach.v ===== *)
(** * AvlReach: what every tree supports, balanced or not

    Deleting a node whose successor lies deep in its right subtree leaves
    stored heights that are too large ([delete_node] rebalances the path to the
    deleted node only), so the AVL invariant is not an invariant of the
    library.  What remains invariant is [wf]; the file shows that it is enough:
    a deletion, and the insertion of a new element, follow no NULL pointer,
    overflow no height and keep [wf]. *)

From stdpp Require Import list option sorting sets.
From S2P Require Import Prelude Ordered AvlModel AvlFacts.

Open Scope Z_scope.

Lemma wf_ht t : wf t → -1 ≤ ht t.
Proof. induction t; simpl; [lia|]. intros (?&?&?). intuition lia. Qed.

Lemma avl_wf t : avl t → wf t.
Proof. induction t; simpl; [done|]. intros (?&?&->&?). intuition lia. Qed.

Lemma wf_depth t : wf t → Z.of_nat (depth t) ≤ ht t + 1.
Proof.
  induction t as [|l IHl d h r IHr]; simpl; [lia|].
  intros (Hl & Hr & ?). specialize (IHl Hl). specialize (IHr Hr). lia.
Qed.

Ltac wf_pose :=
  repeat match goal with
  | H : wf ?t |- _ =>
      lazymatch goal with
      | _ : -1 ≤ ht t |- _ => fail
      | _ => pose proof (wf_ht t H)
      end
  end.

(** Close [wf] goals on constructed trees. *)
Ltac wf_solve := simpl in *; destruct_and?; split_and?; wf_pose; first [lia | assumption].

Lemma rot_right_eq ll ld lh lr d h r :
  let h' := Z.max (ht lr) (ht r) + 1 in let h'' := Z.max (ht ll) h' + 1 in
  wf ll → wf lr → wf r → h'' ≤ INT_MAX →
  rot_right (Node (Node ll ld lh lr) d h r) = Some (Node ll ld h'' (Node lr d h' r)).
Proof. intros h' h'' ????. subst h' h''. wf_pose. unfold rot_right. by chk_solve. Qed.

Lemma rot_left_eq l d h rl rd rh rr :
  let h' := Z.max (ht l) (ht rl) + 1 in let h'' := Z.max (ht rr) h' + 1 in
  wf l → wf rl → wf rr → h'' ≤ INT_MAX →
  rot_left (Node l d h (Node rl rd rh rr)) = Some (Node (Node l d h' rl) rd h'' rr).
Proof. intros h' h'' ????. subst h' h''. wf_pose. unfold rot_left. by chk_solve. Qed.

(** A rotation of a node whose left side is too tall by [n] (1 < n). *)
Lemma rot_right_wf ll ld lh lr d h r :
  wf (Node ll ld lh lr) → wf r → ht r + 2 ≤ lh → lh < INT_MAX →
  ∃ h' h'', rot_right (Node (Node ll ld lh lr) d h r) = Some (Node ll ld h'' (Node lr d h' r)) ∧
    wf (Node ll ld h'' (Node lr d h' r)) ∧ h'' ≤ lh + 1.
Proof.
  intros (?&?&?) ???. wf_pose. rewrite rot_right_eq by first [lia | assumption].
  eexists _, _. split; [done|]. wf_solve.
Qed.

Lemma rot_left_wf l d h rl rd rh rr :
  wf l → wf (Node rl rd rh rr) → ht l + 2 ≤ rh → rh < INT_MAX →
  ∃ h' h'', rot_left (Node l d h (Node rl rd rh rr)) = Some (Node (Node l d h' rl) rd h'' rr) ∧
    wf (Node (Node l d h' rl) rd h'' rr) ∧ h'' ≤ rh + 1.
Proof.
  intros ? (?&?&?) ??. wf_pose. rewrite rot_left_eq by first [lia | assumption].
  eexists _, _. split; [done|]. wf_solve.
Qed.

Lemma rot_left_right_wf l1 ld lh l2 d2 h2 r2 d h r :
  wf (Node l1 ld lh (Node l2 d2 h2 r2)) → wf r → ht r + 2 ≤ lh → lh < INT_MAX - 1 →
  ∃ h1 h' h'',
    rot_left_right (Node (Node l1 ld lh (Node l2 d2 h2 r2)) d h r)
      = Some (Node (Node l1 ld h1 l2) d2 h'' (Node r2 d h' r)) ∧
    wf (Node (Node l1 ld h1 l2) d2 h'' (Node r2 d h' r)) ∧ h'' ≤ lh + 1.
Proof.
  intros (?&(?&?&?)&?) ???. simpl in *. wf_pose. unfold rot_left_right.
  rewrite rot_left_eq by first [lia | assumption]. simpl.
  rewrite rot_right_eq by (simpl; wf_solve).
  eexists _, _, _. split; [done|]. wf_solve.
Qed.

Lemma rot_right_left_wf l d h l2 d2 h2 r2 rd rh r1 :
  wf l → wf (Node (Node l2 d2 h2 r2) rd rh r1) → ht l + 2 ≤ rh → rh < INT_MAX - 1 →
  ∃ h1 h' h'',
    rot_right_left (Node l d h (Node (Node l2 d2 h2 r2) rd rh r1))
      = Some (Node (Node l d h' l2) d2 h'' (Node r2 rd h1 r1)) ∧
    wf (Node (Node l d h' l2) d2 h'' (Node r2 rd h1 r1)) ∧ h'' ≤ rh + 1.
Proof.
  intros ? ((?&?&?)&?&?) ??. simpl in *. wf_pose. unfold rot_right_left.
  rewrite rot_right_eq by first [lia | assumption]. simpl.
  rewrite rot_left_eq by (simpl; wf_solve).
  eexists _, _, _. split; [done|]. wf_solve.
Qed.

(** ** Deletion *)

Lemma rebalance_wf t :
  wf t → ht t < INT_MAX - 1 → ∃ t', rebalance t = Some t' ∧ wf t' ∧ ht t' ≤ ht t.
Proof.
  intros Ht Hh. destruct t as [|l d h r]; [by exists Leaf|].
  destruct Ht as (Hl & Hr & ?). simpl in Hh. wf_pose. unfold rebalance. chk_solve.
  repeat case_test.
  - destruct l as [|l1 ld lh l2]; [simpl in *; lia|]. case_test.
    + edestruct (rot_right_wf l1 ld lh l2 d) as (? & ? & -> & ? & ?);
        [exact Hl|exact Hr|simpl in *; lia..|]. eexists. split; [done|]. wf_solve.
    + destruct l2 as [|l2 d2 h2 r2]; [simpl in *; wf_solve|].
      edestruct (rot_left_right_wf l1 ld lh l2 d2 h2 r2 d) as (? & ? & ? & -> & ? & ?);
        [exact Hl|exact Hr|simpl in *; lia..|]. eexists. split; [done|]. wf_solve.
  - destruct r as [|r1 rd rh r2]; [simpl in *; lia|]. case_test.
    + edestruct (rot_left_wf l d (1 + Z.max (ht l) (ht (Node r1 rd rh r2))) r1 rd rh r2)
        as (? & ? & -> & ? & ?); [exact Hl|exact Hr|simpl in *; lia..|].
      eexists. split; [done|]. wf_solve.
    + destruct r1 as [|l2 d2 h2 r1]; [simpl in *; wf_solve|].
      edestruct (rot_right_left_wf l d) as (? & ? & ? & -> & ? & ?);
        [exact Hl|exact Hr|simpl in *; lia..|]. eexists. split; [done|]. wf_solve.
  - eexists. split; [done|]. wf_solve.
Qed.

Lemma del_min_wf l d h r :
  wf (Node l d h r) → wf (del_min l d h r).2 ∧ ht (del_min l d h r).2 ≤ h.
Proof.
  revert d h r. induction l as [|ll IH ld lh lr _]; intros d h r Ht.
  - simpl in *. destruct Ht as (_ & ? & ?). split; [done|lia].
  - destruct Ht as (Hl & Hr & ?). specialize (IH ld lh lr Hl). simpl in *.
    destruct (del_min ll ld lh lr) as [m l']. destruct IH. wf_solve.
Qed.

Lemma del_root_wf l x h r :
  wf (Node l x h r) → wf (del_root l h r) ∧ ht (del_root l h r) ≤ h.
Proof.
  intros (Hl & Hr & ?). unfold del_root. destruct l as [|ll ld lh lr]; [wf_solve|].
  destruct r as [|rl rd rh rr]; [wf_solve|].
  apply del_min_wf in Hr as [Hr' ?]. destruct (del_min rl rd rh rr) as [m r'].
  simpl in *. wf_solve.
Qed.

Section total.
Context (cmp : ptr → ptr → Z).

Lemma del_tree_wf d t :
  wf t → ht t < INT_MAX - 1 →
  ∃ t' res, del_tree cmp d t = Some (t', res) ∧ wf t' ∧ ht t' ≤ ht t.
Proof.
  induction t as [|l IHl x h r IHr]; intros Ht Hh; [by eexists _, _|].
  pose proof (del_root_wf l x h r Ht) as [Hroot ?]. destruct Ht as (Hl & Hr & ?).
  simpl in *. wf_pose. repeat case_test.
  - destruct IHl as (l' & res & -> & Hl' & ?); [done|lia|]. simpl.
    destruct (rebalance_wf (Node l' x h r)) as (t' & -> & ? & ?); [wf_solve|simpl; lia|].
    by eexists _, _.
  - destruct IHr as (r' & res & -> & Hr' & ?); [done|lia|]. simpl.
    destruct (rebalance_wf (Node l x h r')) as (t' & -> & ? & ?); [wf_solve|simpl; lia|].
    by eexists _, _.
  - simpl. destruct (rebalance_wf (del_root l h r)) as (t' & -> & ? & ?); [done|lia|].
    eexists _, _. split; [done|]. split; [done|lia].
Qed.

(** ** Insertion of a new element *)

Context `{!CmpLaws cmp}.

(** An element that was not there becomes a leaf, or has two subtrees once
    a double rotation has moved it up. *)
Definition placed (d : ptr) (t : tree) : Prop :=
  match t with
  | Leaf => False
  | Node l x _ r => x = d → l = Leaf ∧ r = Leaf ∧ ht t = 0 ∨ l ≠ Leaf ∧ r ≠ Leaf
  end.

(** The inner grandchild exists when [d] was inserted on its side. *)
Lemma inner_right d ll ld lh lr :
  placed d (Node ll ld lh lr) → lh ≠ 0 →
  sorted cmp (inorder ll ++ ld :: inorder lr) → d ∈ inorder ll ++ ld :: inorder lr →
  0 ≤ cmp d ld → lr ≠ Leaf.
Proof.
  simpl. intros Hp Hh (_&_&Hlt&_)%sorted_app Hd Hc ->.
  destruct (decide (ld = d)) as [->|Hne]; [by destruct Hp as [(_&_&?)|[_ ?]]|].
  assert (d ∈ inorder ll) as Hin by set_solver.
  rewrite Forall_forall in Hlt. apply Hlt in Hin. lia.
Qed.

Lemma inner_left d rl rd rh rr :
  placed d (Node rl rd rh rr) → rh ≠ 0 →
  sorted cmp (inorder rl ++ rd :: inorder rr) → d ∈ inorder rl ++ rd :: inorder rr →
  cmp d rd ≤ 0 → rl ≠ Leaf.
Proof.
  simpl. intros Hp Hh (_&_&_&Hlt&_)%sorted_app Hd Hc ->.
  destruct (decide (rd = d)) as [->|Hne]; [by destruct Hp as [(_&_&?)|[? _]]|].
  assert (d ∈ inorder rr) as Hin by set_solver.
  rewrite Forall_forall in Hlt. apply Hlt in Hin. unfold cmp_lt in Hin.
  apply cmp_flip_neg in Hin; [|done]. lia.
Qed.

Lemma cmp_neq d x : cmp d x ≠ 0 → x ≠ d.
Proof. intros H ->. by apply H, cmp_refl. Qed.

(** Recomputing the height of a node that is not the new leaf. *)
Lemma fix_height_placed d l x h r :
  wf l → wf r → Z.max (ht l) (ht r) < INT_MAX → (x = d → l ≠ Leaf ∧ r ≠ Leaf) →
  ∃ t', fix_height (Node l x h r) = Some t' ∧ wf t' ∧ placed d t' ∧
        ht t' = Z.max (ht l) (ht r) + 1.
Proof.
  intros ??? Hp. wf_pose. unfold fix_height. chk_solve. eexists. split; [done|].
  simpl. split_and!; auto; lia.
Qed.

Lemma balance_left_wf d l x h r :
  wf l → wf r → Z.max (ht l) (ht r) < INT_MAX - 2 → cmp d x < 0 →
  placed d l → sorted cmp (inorder l) → d ∈ inorder l →
  ∃ t', (t ← balance_left cmp d (Node l x h r); fix_height t) = Some t' ∧
        wf t' ∧ placed d t' ∧ ht t' ≤ Z.max (ht l) (ht r) + 1.
Proof.
  intros Hl Hr ? Hx Hp Hs Hd. wf_pose. unfold balance_left. chk_solve. case_test; simpl.
  - destruct l as [|ll ld lh lr]; [done|]. case_test.
    + destruct (rot_right_wf ll ld lh lr x h r) as (h1 & h2 & -> & (?&?&?) & ?);
        [done|done|simpl in *; lia..|].
      destruct (fix_height_placed d ll ld h2 (Node lr x h1 r)) as (t' & Ht' & ? & ? & ?);
        [done|done|simpl in *; lia|intros ->; by rewrite cmp_refl in *|].
      exists t'. split; [exact Ht'|]. split_and!; [done..|simpl in *; lia].
    + destruct lr as [|l2 d2 h2 r2]; [by eapply inner_right in Hp; [|simpl in *; lia|..]|].
      destruct (rot_left_right_wf ll ld lh l2 d2 h2 r2 x h r)
        as (h3 & h4 & h5 & -> & (?&?&?) & ?); [done|done|simpl in *; lia..|].
      destruct (fix_height_placed d (Node ll ld h3 l2) d2 h5 (Node r2 x h4 r))
        as (t' & Ht' & ? & ? & ?); [done|done|simpl in *; lia|done|].
      exists t'. split; [exact Ht'|]. split_and!; [done..|simpl in *; lia].
  - destruct (fix_height_placed d l x h r) as (t' & Ht' & ? & ? & ?);
      [done|done|lia|intros E'; by apply cmp_neq in E'; [|lia]|].
    exists t'. split; [exact Ht'|]. split_and!; [done..|lia].
Qed.

Lemma balance_right_wf d l x h r :
  wf l → wf r → Z.max (ht l) (ht r) < INT_MAX - 2 → 0 < cmp d x →
  placed d r → sorted cmp (inorder r) → d ∈ inorder r →
  ∃ t', (t ← balance_right cmp d (Node l x h r); fix_height t) = Some t' ∧
        wf t' ∧ placed d t' ∧ ht t' ≤ Z.max (ht l) (ht r) + 1.
Proof.
  intros Hl Hr ? Hx Hp Hs Hd. wf_pose. unfold balance_right. chk_solve. case_test; simpl.
  - destruct r as [|rl rd rh rr]; [done|]. case_test.
    + destruct (rot_left_wf l x h rl rd rh rr) as (h1 & h2 & -> & (?&?&?) & ?);
        [done|done|simpl in *; lia..|].
      destruct (fix_height_placed d (Node l x h1 rl) rd h2 rr) as (t' & Ht' & ? & ? & ?);
        [done|done|simpl in *; lia|intros ->; by rewrite cmp_refl in *|].
      exists t'. split; [exact Ht'|]. split_and!; [done..|simpl in *; lia].
    + destruct rl as [|l2 d2 h2 r2]; [by eapply inner_left in Hp; [|simpl in *; lia|..]|].
      destruct (rot_right_left_wf l x h l2 d2 h2 r2 rd rh rr)
        as (h3 & h4 & h5 & -> & (?&?&?) & ?); [done|done|simpl in *; lia..|].
      destruct (fix_height_placed d (Node l x h4 l2) d2 h5 (Node r2 rd h3 rr))
        as (t' & Ht' & ? & ? & ?); [done|done|simpl in *; lia|done|].
      exists t'. split; [exact Ht'|]. split_and!; [done..|simpl in *; lia].
  - destruct (fix_height_placed d l x h r) as (t' & Ht' & ? & ? & ?);
      [done|done|lia|intros E'; by apply cmp_neq in E'; [|lia]|].
    exists t'. split; [exact Ht'|]. split_and!; [done..|lia].
Qed.

Lemma ins_tree_wf d t :
  wf t → ht t < INT_MAX - 3 → sorted cmp (inorder t) → path_finds cmp d t = false →
  ∃ t', ins_tree cmp true d t = Some t' ∧ placed d t' ∧ wf t' ∧ ht t' ≤ ht t + 1.
Proof.
  induction t as [|l IHl x h r IHr]; simpl; intros Ht Hh Hs Hf.
  { eexists. split; [done|]. split; [by left|]. wf_solve. }
  destruct Ht as (Hl & Hr & ?). pose proof Hs as (Hsl & Hsr & _)%sorted_app. wf_pose.
  revert Hf. repeat case_test; intros Hf; [| |done].
  - destruct IHl as (l' & E' & Hp & Hl' & ?); [done|lia|done..|]. rewrite E'. simpl.
    pose proof (ins_tree_inorder cmp d l l' Hsl E') as Hin.
    rewrite path_finds_inorder, bool_decide_eq_false in Hf by done.
    destruct (balance_left_wf d l' x h r) as (t' & Ht' & ? & ? & ?);
      [done|done|lia|done|done|..].
    + rewrite Hin. by apply sorted_list_insert.
    + rewrite Hin. apply list_insert_fresh. by apply eq_None_not_Some.
    + exists t'. split; [exact Ht'|]. split_and!; [done..|lia].
  - destruct IHr as (r' & E' & Hp & Hr' & ?); [done|lia|done..|]. rewrite E'. simpl.
    pose proof (ins_tree_inorder cmp d r r' Hsr E') as Hin.
    rewrite path_finds_inorder, bool_decide_eq_false in Hf by done.
    destruct (balance_right_wf d l x h r') as (t' & Ht' & ? & ? & ?);
      [done|done|lia|done|done|..].
    + rewrite Hin. by apply sorted_list_insert.
    + rewrite Hin. apply list_insert_fresh. by apply eq_None_not_Some.
    + exists t'. split; [exact Ht'|]. split_and!; [done..|lia].
Qed.
End total.
