(* ===== verification/AvlCode.v ===== *)
(** * AvlCode: avl_tree/avl_tree_lib.c over the store

    Every function of src/libraries/avl_tree/avl_tree_lib.c, statement by
    statement, as a program of the monad of the file Mem.  Recursive functions
    take a bound on the depth of the recursion; the exported functions obtain
    it from the number of allocated cells, which exceeds the height of every
    tree in the heap. *)

From stdpp Require Import gmap strings.
From S2P Require Import Prelude Mem.

Open Scope Z_scope.

(** ** Structs *)

Record avl_node := AvlNode {
  data : ptr; node_height : Z; p_left : ptr; p_right : ptr
}.

Record avl_tree := AvlTree {
  p_root : ptr; count : Z; cmp : ptr; user_display : ptr; user_free : ptr;
  p_tree_lock : mutex
}.

Record q_node := QNode { p_data : ptr; p_next : ptr }.
Record queue := Queue { p_head : ptr; p_tail : ptr }.

(** The cells of this heap; [CPtr] is a variable of type [avl_tree_t *]. *)
Inductive cell :=
  | CNode (n : avl_node)
  | CTree (t : avl_tree)
  | CQNode (q : q_node)
  | CQueue (q : queue)
  | CPtr (p : ptr).

#[export] Instance node_struct : Struct cell avl_node.
Proof. refine {| as_cell := CNode; of_cell c := match c with CNode n => Some n | _ => None end |}. done. Defined.
#[export] Instance tree_struct : Struct cell avl_tree.
Proof. refine {| as_cell := CTree; of_cell c := match c with CTree n => Some n | _ => None end |}. done. Defined.
#[export] Instance qnode_struct : Struct cell q_node.
Proof. refine {| as_cell := CQNode; of_cell c := match c with CQNode n => Some n | _ => None end |}. done. Defined.
#[export] Instance queue_struct : Struct cell queue.
Proof. refine {| as_cell := CQueue; of_cell c := match c with CQueue n => Some n | _ => None end |}. done. Defined.
#[export] Instance ptr_struct : Struct cell ptr.
Proof. refine {| as_cell := CPtr; of_cell c := match c with CPtr n => Some n | _ => None end |}. done. Defined.

(** Objects as [calloc] leaves them. *)
Definition zero_node : avl_node := AvlNode NULL 0 NULL NULL.
Definition zero_tree : avl_tree := AvlTree NULL 0 NULL NULL NULL MutexNone.
Definition zero_qnode : q_node := QNode NULL NULL.
Definition zero_queue : queue := Queue NULL NULL.

Definition set_data v n := AvlNode v (node_height n) (p_left n) (p_right n).
Definition set_height v n := AvlNode (data n) v (p_left n) (p_right n).
Definition set_left v n := AvlNode (data n) (node_height n) v (p_right n).
Definition set_right v n := AvlNode (data n) (node_height n) (p_left n) v.

Definition set_root v t := AvlTree v (count t) (cmp t) (user_display t) (user_free t) (p_tree_lock t).
Definition set_count v t := AvlTree (p_root t) v (cmp t) (user_display t) (user_free t) (p_tree_lock t).
Definition set_cmp v t := AvlTree (p_root t) (count t) v (user_display t) (user_free t) (p_tree_lock t).
Definition set_user_free v t := AvlTree (p_root t) (count t) (cmp t) (user_display t) v (p_tree_lock t).
Definition set_lock v t := AvlTree (p_root t) (count t) (cmp t) (user_display t) (user_free t) v.

Definition set_p_data v q := QNode v (p_next q).
Definition set_p_next v q := QNode (p_data q) v.
Definition set_p_head v q := Queue v (p_tail q).
Definition set_p_tail v q := Queue (p_head q) v.

(** Setters of constructed objects compute by [simpl]. *)
#[global] Arguments set_data _ !_ /.
#[global] Arguments set_height _ !_ /.
#[global] Arguments set_left _ !_ /.
#[global] Arguments set_right _ !_ /.
#[global] Arguments set_root _ !_ /.
#[global] Arguments set_count _ !_ /.
#[global] Arguments set_cmp _ !_ /.
#[global] Arguments set_user_free _ !_ /.
#[global] Arguments set_lock _ !_ /.
#[global] Arguments set_p_data _ !_ /.
#[global] Arguments set_p_next _ !_ /.
#[global] Arguments set_p_head _ !_ /.
#[global] Arguments set_p_tail _ !_ /.

Abbreviation prog := (M cell).

Definition lock_tree : ptr → prog () := mutex_lock p_tree_lock set_lock.
Definition unlock_tree : ptr → prog () := mutex_unlock p_tree_lock set_lock.

(** The address of a pointer variable: the root of a tree object or a child
    field of a node ([&tree->p_root], [&node->p_left], [&node->p_right]). *)
Inductive ref := RRoot (t : ptr) | RLeft (n : ptr) | RRight (n : ptr) | RNull.

Definition ref_get (r : ref) : prog ptr :=
  match r with
  | RRoot t => get p_root t
  | RLeft n => get p_left n
  | RRight n => get p_right n
  | RNull => fail NullDeref
  end.
Definition ref_set (r : ref) (v : ptr) : prog () :=
  match r with
  | RRoot t => set (set_root v) t
  | RLeft n => set (set_left v) n
  | RRight n => set (set_right v) n
  | RNull => fail NullDeref
  end.
Definition ref_is_null (r : ref) : bool := match r with RNull => true | _ => false end.

Section code.
(** What each comparison function pointer computes. *)
Context (cmp_env : ptr → ptr → ptr → Z).

Definition call_cmp (f a b : ptr) : prog Z :=
  if f =? NULL then fail NullCall else mret (cmp_env f a b).

(** ** Node helpers *)

Definition max (a b : Z) : Z := if b <? a then a else b.

Definition height (p_node : ptr) : prog Z :=
  if p_node =? NULL then mret (-1) else get node_height p_node.

(** [p->height = max(height(a), height(b)) + 1] *)
Definition rotate_p_right (p_node : ptr) : prog ptr :=
  if p_node =? NULL then mret NULL else
  l ← get p_left p_node;
  if l =? NULL then mret NULL else
  left ← get p_left p_node;
  lr ← get p_right left;
  set (set_left lr) p_node;;
  set (set_right p_node) left;;
  nl ← get p_left p_node; hl ← height nl;
  nr ← get p_right p_node; hr ← height nr;
  h ← int_op (max hl hr + 1);
  set (set_height h) p_node;;
  ll ← get p_left left; hll ← height ll;
  hn ← get node_height p_node;
  h' ← int_op (max hll hn + 1);
  set (set_height h') left;;
  mret left.

Definition rotate_p_left (p_node : ptr) : prog ptr :=
  if p_node =? NULL then mret NULL else
  r ← get p_right p_node;
  if r =? NULL then mret NULL else
  right ← get p_right p_node;
  rl ← get p_left right;
  set (set_right rl) p_node;;
  set (set_left p_node) right;;
  nl ← get p_left p_node; hl ← height nl;
  nr ← get p_right p_node; hr ← height nr;
  h ← int_op (max hl hr + 1);
  set (set_height h) p_node;;
  rr ← get p_right right; hrr ← height rr;
  hn ← get node_height p_node;
  h' ← int_op (max hrr hn + 1);
  set (set_height h') right;;
  mret right.

Definition rotate_p_left_p_right (p_node : ptr) : prog ptr :=
  l ← get p_left p_node;
  l' ← rotate_p_left l;
  set (set_left l') p_node;;
  rotate_p_right p_node.

Definition rotate_p_right_p_left (p_node : ptr) : prog ptr :=
  if p_node =? NULL then mret NULL else
  r ← get p_right p_node;
  r' ← rotate_p_right r;
  set (set_right r') p_node;;
  rotate_p_left p_node.

(** ** Insertion *)

(** The rotations after an insertion on the left. *)
Definition insert_fix_left (p_node d cmp_func : ptr) : prog ptr :=
  l ← get p_left p_node; hl ← height l;
  r ← get p_right p_node; hr ← height r;
  diff ← int_op (hl - hr);
  if diff =? 2 then
    l ← get p_left p_node; ld ← get data l;
    c ← call_cmp cmp_func d ld;
    if c <? 0 then rotate_p_right p_node else rotate_p_left_p_right p_node
  else mret p_node.

(** The rotations after an insertion on the right. *)
Definition insert_fix_right (p_node d cmp_func : ptr) : prog ptr :=
  r ← get p_right p_node; hr ← height r;
  l ← get p_left p_node; hl ← height l;
  diff ← int_op (hr - hl);
  if 2 =? diff then
    r ← get p_right p_node; rd ← get data r;
    c ← call_cmp cmp_func d rd;
    if 0 <? c then rotate_p_left p_node else rotate_p_right_p_left p_node
  else mret p_node.

(** [p->height = max(height(p->left), height(p->right)) + 1] *)
Definition update_height (p_node : ptr) : prog () :=
  l ← get p_left p_node; hl ← height l;
  r ← get p_right p_node; hr ← height r;
  h ← int_op (max hl hr + 1);
  set (set_height h) p_node.

Fixpoint insert_node (fuel : nat) (p_node d cmp_func : ptr) : prog ptr :=
  match fuel with
  | O => fail OutOfFuel
  | S fuel =>
    if (p_node =? NULL) || (d =? NULL) || (cmp_func =? NULL) then
      p_new_node ← calloc_struct zero_node;
      if p_new_node =? NULL then
        perror "avl insert node calloc";; set_errno 0;; mret NULL
      else set (set_data d) p_new_node;; mret p_new_node
    else
      nd ← get data p_node;
      result ← call_cmp cmp_func d nd;
      p_node' ←
        (if result <? 0 then
           l ← get p_left p_node;
           l' ← insert_node fuel l d cmp_func;
           set (set_left l') p_node;;
           insert_fix_left p_node d cmp_func
         else if 0 <? result then
           r ← get p_right p_node;
           r' ← insert_node fuel r d cmp_func;
           set (set_right r') p_node;;
           insert_fix_right p_node d cmp_func
         else mret p_node);
      update_height p_node';;
      mret p_node'
  end.

(** What [avl_insert] does with the mutex held. *)
Definition insert_section (p_tree d : ptr) : prog () :=
  fuel ← heap_fuel;
  root ← get p_root p_tree; f ← get cmp p_tree;
  root' ← insert_node fuel root d f;
  set (set_root root') p_tree;;
  c ← get count p_tree; c' ← int_op (c + 1);
  set (set_count c') p_tree.

Definition avl_insert (p_tree d : ptr) : prog () :=
  if (p_tree =? NULL) || (d =? NULL) then mret () else
  lock_tree p_tree;;
  insert_section p_tree d;;
  unlock_tree p_tree.

(** ** Creation and destruction *)

Definition avl_create (cmp_func user_destory : ptr) : prog ptr :=
  if (cmp_func =? NULL) || (user_destory =? NULL) then mret NULL else
  p_new_tree ← calloc_struct zero_tree;
  if p_new_tree =? NULL then perror "avl tree create calloc";; mret p_new_tree else
  set (set_cmp cmp_func) p_new_tree;;
  set (set_user_free user_destory) p_new_tree;;
  mutex_init set_lock p_new_tree;;
  mret p_new_tree.

Fixpoint destroy_avl_node (fuel : nat) (p_node user_destroy : ptr) : prog () :=
  match fuel with
  | O => fail OutOfFuel
  | S fuel =>
    if (p_node =? NULL) || (user_destroy =? NULL) then mret () else
    l ← get p_left p_node;
    destroy_avl_node fuel l user_destroy;;
    r ← get p_right p_node;
    destroy_avl_node fuel r user_destroy;;
    d ← get data p_node;
    call_user user_destroy [d];;
    free p_node
  end.

Definition destroy_avl_tree (pp_root : ptr) : prog () :=
  if pp_root =? NULL then mret () else
  tree ← get (λ p : ptr, p) pp_root;
  if tree =? NULL then mret () else
  lock_tree tree;;
  fuel ← heap_fuel;
  root ← get p_root tree; f ← get user_free tree;
  destroy_avl_node fuel root f;;
  unlock_tree tree;;
  mutex_destroy p_tree_lock set_lock tree;;
  free tree;;
  set (λ _ : ptr, NULL) pp_root.

(** ** Search and counting *)

Fixpoint search_helper (fuel : nat) (root d cmp_func : ptr) : prog ptr :=
  match fuel with
  | O => fail OutOfFuel
  | S fuel =>
    if (root =? NULL) || (d =? NULL) || (cmp_func =? NULL) then mret NULL else
    rd ← get data root;
    result ← call_cmp cmp_func rd d;
    if result =? 0 then get data root
    else if result <? 0 then r ← get p_right root; search_helper fuel r d cmp_func
    else l ← get p_left root; search_helper fuel l d cmp_func
  end.

(** What [avl_search] does with the mutex held. *)
Definition search_section (p_tree d : ptr) : prog ptr :=
  fuel ← heap_fuel;
  root ← get p_root p_tree; f ← get cmp p_tree;
  search_helper fuel root d f.

Definition avl_search (p_tree d : ptr) : prog ptr :=
  if (p_tree =? NULL) || (d =? NULL) then mret NULL else
  lock_tree p_tree;;
  result ← search_section p_tree d;
  unlock_tree p_tree;;
  mret result.

Fixpoint avl_node_count (fuel : nat) (p_node : ptr) : prog Z :=
  match fuel with
  | O => fail OutOfFuel
  | S fuel =>
    if p_node =? NULL then mret 0 else
    l ← get p_left p_node; nl ← avl_node_count fuel l;
    r ← get p_right p_node; nr ← avl_node_count fuel r;
    n ← int_op (nl + nr);
    int_op (n + 1)
  end.

Definition count_section (p_tree : ptr) : prog Z :=
  fuel ← heap_fuel;
  root ← get p_root p_tree;
  avl_node_count fuel root.

Definition avl_total_elements (p_tree : ptr) : prog Z :=
  if p_tree =? NULL then mret 0 else
  lock_tree p_tree;;
  ret_count ← count_section p_tree;
  unlock_tree p_tree;;
  mret ret_count.

(** ** Depth-first traversals *)

Fixpoint avl_inorder_action (fuel : nat) (root user_func : ptr) : prog () :=
  match fuel with
  | O => fail OutOfFuel
  | S fuel =>
    if (root =? NULL) || (user_func =? NULL) then mret () else
    l ← get p_left root; avl_inorder_action fuel l user_func;;
    d ← get data root; call_user user_func [d];;
    r ← get p_right root; avl_inorder_action fuel r user_func
  end.

Fixpoint avl_pre_order_action (fuel : nat) (root user_func : ptr) : prog () :=
  match fuel with
  | O => fail OutOfFuel
  | S fuel =>
    if (root =? NULL) || (user_func =? NULL) then mret () else
    d ← get data root; call_user user_func [d];;
    l ← get p_left root; avl_pre_order_action fuel l user_func;;
    r ← get p_right root; avl_pre_order_action fuel r user_func
  end.

Fixpoint avl_post_order_action (fuel : nat) (root user_func : ptr) : prog () :=
  match fuel with
  | O => fail OutOfFuel
  | S fuel =>
    if (root =? NULL) || (user_func =? NULL) then mret () else
    l ← get p_left root; avl_post_order_action fuel l user_func;;
    r ← get p_right root; avl_post_order_action fuel r user_func;;
    d ← get data root; call_user user_func [d]
  end.

Definition printf (s : string) : prog () := emit (EvPrint s).

Definition inorder_section (p_tree user_func : ptr) : prog () :=
  fuel ← heap_fuel;
  root ← get p_root p_tree;
  avl_inorder_action fuel root user_func.

Definition avl_inorder (p_tree user_func : ptr) : prog () :=
  if (p_tree =? NULL) || (user_func =? NULL) then mret () else
  lock_tree p_tree;;
  inorder_section p_tree user_func;;
  unlock_tree p_tree.

Definition avl_pre_order (p_tree user_func : ptr) : prog () :=
  if (p_tree =? NULL) || (user_func =? NULL) then mret () else
  lock_tree p_tree;;
  fuel ← heap_fuel;
  root ← get p_root p_tree;
  avl_pre_order_action fuel root user_func;;
  printf newline;;
  unlock_tree p_tree.

Definition avl_post_order (p_tree user_func : ptr) : prog () :=
  if (p_tree =? NULL) || (user_func =? NULL) then mret () else
  lock_tree p_tree;;
  fuel ← heap_fuel;
  root ← get p_root p_tree;
  avl_post_order_action fuel root user_func;;
  printf newline;;
  unlock_tree p_tree.

(** ** The queue of the level-order traversals *)

Definition queue_create : prog ptr :=
  p_queue ← calloc_struct zero_queue;
  if p_queue =? NULL then
    perror "avl level order queue create calloc";; set_errno 0;; mret NULL
  else mret p_queue.

Definition enqueue (p_queue d : ptr) : prog () :=
  if (p_queue =? NULL) || (d =? NULL) then mret () else
  p_new_node ← calloc_struct zero_qnode;
  if p_new_node =? NULL then
    perror "avl new node level order enqueue";; set_errno 0
  else
    set (set_p_data d) p_new_node;;
    tl ← get p_tail p_queue;
    if tl =? NULL then
      set (set_p_head p_new_node) p_queue;;
      set (set_p_tail p_new_node) p_queue
    else
      tl ← get p_tail p_queue;
      set (set_p_next p_new_node) tl;;
      set (set_p_tail p_new_node) p_queue.

Definition dequeue (p_queue : ptr) : prog ptr :=
  if p_queue =? NULL then mret NULL else
  hd ← get p_head p_queue;
  if hd =? NULL then mret NULL else
  p_temp ← get p_head p_queue;
  d ← get p_data p_temp;
  hd ← get p_head p_queue; tl ← get p_tail p_queue;
  (if hd =? tl then
     set (set_p_head NULL) p_queue;; set (set_p_tail NULL) p_queue
   else
     hd ← get p_head p_queue; nx ← get p_next hd; set (set_p_head nx) p_queue);;
  free p_temp;;
  mret d.

Definition queue_is_empty (p_queue : ptr) : prog bool :=
  hd ← get p_head p_queue; mret (hd =? NULL).

(** [while (!queue_is_empty(p_queue)) dequeue(p_queue);] *)
Fixpoint queue_drain (fuel : nat) (p_queue : ptr) : prog () :=
  match fuel with
  | O => fail OutOfFuel
  | S fuel =>
    b ← queue_is_empty p_queue;
    if (b : bool) then mret () else dequeue p_queue;; queue_drain fuel p_queue
  end.

Definition queue_destroy (p_queue : ptr) : prog () :=
  if p_queue =? NULL then mret () else
  fuel ← heap_fuel;
  queue_drain fuel p_queue;;
  free p_queue.

(** ** Level-order traversals *)

(** One round of the loop of both traversals; [visit] is the call made on each node's data. *)
Definition level_visit (visit : ptr → prog ()) (p_queue : ptr) : prog () :=
  p_node ← dequeue p_queue;
  d ← get data p_node;
  visit d;;
  l ← get p_left p_node;
  (if l =? NULL then mret () else l ← get p_left p_node; enqueue p_queue l);;
  r ← get p_right p_node;
  (if r =? NULL then mret () else r ← get p_right p_node; enqueue p_queue r).

Fixpoint level_loop (visit : ptr → prog ()) (fuel : nat) (p_queue : ptr) : prog () :=
  match fuel with
  | O => fail OutOfFuel
  | S fuel =>
    b ← queue_is_empty p_queue;
    if (b : bool) then mret () else
    level_visit visit p_queue;;
    level_loop visit fuel p_queue
  end.

Definition avl_level_order (p_tree func : ptr) : prog () :=
  if p_tree =? NULL then mret () else
  root ← get p_root p_tree;
  if (root =? NULL) || (func =? NULL) then mret () else
  p_queue ← queue_create;
  if p_queue =? NULL then mret () else
  root ← get p_root p_tree;
  enqueue p_queue root;;
  fuel ← heap_fuel;
  level_loop (λ d, call_user func [d]) fuel p_queue;;
  queue_destroy p_queue.

Definition fopen (filename : ptr) (mode : string) : prog ptr := λ s,
  let h := fopen_handle (wld s) in
  Ok h (State (memory s) (emit_world (EvOpen filename mode h) (fopen_world (wld s)))).
Definition fclose (h : ptr) : prog () := emit (EvClose h).

Definition write_avl_tree_to_file (p_tree filename write_func : ptr) : prog () :=
  if p_tree =? NULL then mret () else
  root ← get p_root p_tree;
  if (root =? NULL) || (filename =? NULL) then mret () else
  h_out_file ← fopen filename "wb";
  if h_out_file =? NULL then perror "fopen out file";; set_errno 0 else
  lock_tree p_tree;;
  p_queue ← queue_create;
  if p_queue =? NULL then fclose h_out_file;; unlock_tree p_tree else
  root ← get p_root p_tree;
  enqueue p_queue root;;
  fuel ← heap_fuel;
  level_loop (λ d, call_user write_func [d; h_out_file]) fuel p_queue;;
  unlock_tree p_tree;;
  queue_destroy p_queue;;
  fclose h_out_file.

(** ** Deletion *)

(** The loop that walks to the leftmost node: [(p_parent_of_successor, p_successor)]. *)
Fixpoint find_successor (fuel : nat) (parent succ : ptr) : prog (ptr * ptr) :=
  match fuel with
  | O => fail OutOfFuel
  | S fuel =>
    l ← get p_left succ;
    if l =? NULL then mret (parent, succ)
    else l ← get p_left succ; find_successor fuel succ l
  end.

(** The branch of [delete_node] for the node that compares equal. *)
Definition delete_found (fuel : nat) (pp_root : ref) (destroy : ptr) : prog bool :=
  p_to_delete ← ref_get pp_root;
  l ← get p_left p_to_delete;
  if l =? NULL then
    r ← get p_right p_to_delete; ref_set pp_root r;;
    d ← get data p_to_delete; call_user destroy [d];;
    free p_to_delete;; mret true
  else
  r ← get p_right p_to_delete;
  if r =? NULL then
    l ← get p_left p_to_delete; ref_set pp_root l;;
    d ← get data p_to_delete; call_user destroy [d];;
    free p_to_delete;; mret true
  else
    succ ← get p_right p_to_delete;
    '(p_parent_of_successor, p_successor) ← find_successor fuel p_to_delete succ;
    tmp_data ← get data p_to_delete;
    sd ← get data p_successor; set (set_data sd) p_to_delete;;
    pr ← get p_right p_parent_of_successor;
    sr ← get p_right p_successor;
    (if pr =? p_successor then set (set_right sr) p_parent_of_successor
     else set (set_left sr) p_parent_of_successor);;
    call_user destroy [tmp_data];;
    free p_successor;; mret true.

(** The end of [delete_node]: update the height of [*pp_root] and rotate. *)
Definition delete_rebalance (pp_root : ref) : prog () :=
  p ← ref_get pp_root;
  if p =? NULL then mret () else
  l ← get p_left p; hl ← height l;
  r ← get p_right p; hr ← height r;
  h ← int_op (1 + max hl hr); set (set_height h) p;;
  l ← get p_left p; hl ← height l;
  r ← get p_right p; hr ← height r;
  balance ← int_op (hl - hr);
  if 1 <? balance then
    l ← get p_left p; ll ← get p_left l; hll ← height ll;
    lr ← get p_right l; hlr ← height lr;
    if hlr <=? hll then p' ← rotate_p_right p; ref_set pp_root p'
    else
      l ← get p_left p; l' ← rotate_p_left l; set (set_left l') p;;
      p' ← rotate_p_right p; ref_set pp_root p'
  else if balance <? -1 then
    r ← get p_right p; rr ← get p_right r; hrr ← height rr;
    rl ← get p_left r; hrl ← height rl;
    if hrl <=? hrr then p' ← rotate_p_left p; ref_set pp_root p'
    else
      r ← get p_right p; r' ← rotate_p_right r; set (set_right r') p;;
      p' ← rotate_p_left p; ref_set pp_root p'
  else mret ().

Fixpoint delete_node (fuel : nat) (pp_root : ref) (d cmp_func destroy : ptr) : prog bool :=
  match fuel with
  | O => fail OutOfFuel
  | S fuel =>
    if ref_is_null pp_root || (d =? NULL) || (cmp_func =? NULL) then mret false else
    p ← ref_get pp_root;
    if p =? NULL then mret false else
    p ← ref_get pp_root; nd ← get data p;
    result ← call_cmp cmp_func d nd;
    b_node_deleted ←
      (if result <? 0 then
         p ← ref_get pp_root; delete_node fuel (RLeft p) d cmp_func destroy
       else if 0 <? result then
         p ← ref_get pp_root; delete_node fuel (RRight p) d cmp_func destroy
       else delete_found fuel pp_root destroy);
    delete_rebalance pp_root;;
    mret b_node_deleted
  end.

(** What [avl_delete_node] does with the mutex held. *)
Definition delete_section (p_tree d : ptr) : prog bool :=
  fuel ← heap_fuel;
  f ← get cmp p_tree; fr ← get user_free p_tree;
  b ← delete_node fuel (RRoot p_tree) d f fr;
  (if b : bool then c ← get count p_tree; c' ← int_op (c - 1); set (set_count c') p_tree
   else mret ());;
  mret b.

Definition avl_delete_node (p_tree d : ptr) : prog bool :=
  if (p_tree =? NULL) || (d =? NULL) then mret false else
  lock_tree p_tree;;
  b ← delete_section p_tree d;
  unlock_tree p_tree;;
  mret b.

(** ** Display *)

(** The chain of [struct trunk]s on the stack, innermost first. *)
Fixpoint print_trunks (p : list string) : prog () :=
  match p with
  | [] => mret ()
  | str :: p_prev => print_trunks p_prev;; printf str
  end.

(** [p_prev->str = s] *)
Definition set_str (s : string) (chain : list string) : list string :=
  match chain with [] => [] | _ :: rest => s :: rest end.

(** Returns the caller's chain, whose head the call may have changed. *)
Fixpoint print_recursive (fuel : nat) (root : ptr) (p_prev : list string)
    (is_p_left : bool) (user_print : ptr) : prog (list string) :=
  match fuel with
  | O => fail OutOfFuel
  | S fuel =>
    if root =? NULL then mret p_prev else
    let p_prev_str := "     "%string in
    r ← get p_right root;
    chain ← print_recursive fuel r (p_prev_str :: p_prev) true user_print;
    let '(this_str, p_prev, p_prev_str) :=
      match tail chain with
      | [] => ("---"%string, [], p_prev_str)
      | p_prev => if is_p_left then (".--"%string, p_prev, "    |"%string)
                  else ("`--"%string, set_str p_prev_str p_prev, p_prev_str)
      end in
    print_trunks (this_str :: p_prev);;
    d ← get data root; call_user user_print [d];;
    let p_prev := set_str p_prev_str p_prev in
    l ← get p_left root;
    chain ← print_recursive fuel l ("    |"%string :: p_prev) false user_print;
    (if bool_decide (tail chain = []) then printf newline else mret ());;
    mret (tail chain)
  end.

Definition avl_display_full (p_tree print : ptr) : prog () :=
  root ← get p_root p_tree;
  if (root =? NULL) || (print =? NULL) then mret () else
  lock_tree p_tree;;
  fuel ← heap_fuel;
  root ← get p_root p_tree;
  print_recursive fuel root [] false print;;
  unlock_tree p_tree.
End code.
