(* ===== verification/AvlRefine.v ===== *)
(** * AvlRefine: AvlCode implements AvlModel

    [tree_at p t] says that the pointer [p] is the root of a structure of
    nodes, owned exclusively, that represents the tree [t].  One lemma per
    function of AvlCode shows that from such a state it runs without error and
    leaves the representation of what the corresponding function of AvlModel
    returns, with no cell lost or left behind. *)

From iris.proofmode Require Import environments proofmode.
From stdpp Require Import gmap strings.
From S2P Require Import Prelude HProp Mem Ordered AvlModel AvlFacts AvlCode.

Open Scope Z_scope.

Fixpoint tree_at (p : ptr) (t : tree) : hPropI cell :=
  match t with
  | Leaf => ⟪ p = NULL ⟫
  | Node l d h r =>
      ∃ pl pr, p ↦ as_cell (AvlNode d h pl pr) ∗ tree_at pl l ∗ tree_at pr r
  end%I.

(** The C [max] is the maximum. *)
Lemma max_Zmax a b : max a b = Z.max a b.
Proof. unfold max. case_test; lia. Qed.

(** An [int] operation whose range check is in the context. *)
Ltac wp_int := wp_focus; rw ?max_Zmax; iApply wp_int_op; [done|]; simpl.

Section heights.
Implicit Types (Q : ptr → world → hPropI cell).

Lemma wp_height p t w (Q : Z → world → hPropI cell) :
  tree_at p t -∗ (tree_at p t -∗ Q (ht t) w) -∗ wp (height p) w Q.
Proof.
  iIntros "Ht HQ". unfold height. destruct t as [|l d h r]; simpl.
  - iDestruct "Ht" as %->. iApply wp_ret. by iApply "HQ".
  - iDestruct "Ht" as (pl pr) "(Hp & Hl & Hr)". not_null "Hp".
    iApply (wp_get with "Hp"). iIntros "Hp". iApply "HQ". iFrame.
Qed.
End heights.

Tactic Notation "wp_ht" constr(H) := wp_focus; iApply (wp_height with H); iIntros H; simpl.

Section rotations.
Implicit Types (Q : ptr → world → hPropI cell).

Lemma wp_rotate_p_right p t t' w Q :
  rot_right t = Some t' →
  tree_at p t -∗ (∀ p', tree_at p' t' -∗ Q p' w) -∗ wp (rotate_p_right p) w Q.
Proof.
  intros H. destruct t as [|[|ll ld lh lr] d h r]; [done..|]. unfold rot_right in H; opt_inv.
  iIntros "Ht HQ". simpl.
  iDestruct "Ht" as (pl pr) "(Hp & (%pll & %plr & Hl & Hll & Hlr) & Hr)".
  unfold rotate_p_right. not_null "Hp". wp_read "Hp". not_null "Hl".
  wp_read "Hp". wp_read "Hl". wp_write "Hp". wp_write "Hl".
  wp_read "Hp". wp_ht "Hlr". wp_read "Hp". wp_ht "Hr". wp_int. wp_write "Hp".
  wp_read "Hl". wp_ht "Hll". wp_read "Hp". wp_int. wp_write "Hl".
  wp_return. iApply "HQ". iFrame.
Qed.

Lemma wp_rotate_p_left p t t' w Q :
  rot_left t = Some t' →
  tree_at p t -∗ (∀ p', tree_at p' t' -∗ Q p' w) -∗ wp (rotate_p_left p) w Q.
Proof.
  intros H. destruct t as [|l d h [|rl rd rh rr]]; [done..|]. unfold rot_left in H; opt_inv.
  iIntros "Ht HQ". simpl.
  iDestruct "Ht" as (pl pr) "(Hp & Hl & (%prl & %prr & Hr & Hrl & Hrr))".
  unfold rotate_p_left. not_null "Hp". wp_read "Hp". not_null "Hr".
  wp_read "Hp". wp_read "Hr". wp_write "Hp". wp_write "Hr".
  wp_read "Hp". wp_ht "Hl". wp_read "Hp". wp_ht "Hrl". wp_int. wp_write "Hp".
  wp_read "Hr". wp_ht "Hrr". wp_read "Hp". wp_int. wp_write "Hr".
  wp_return. iApply "HQ". iFrame.
Qed.

Lemma wp_rotate_p_left_p_right p t t' w Q :
  rot_left_right t = Some t' →
  tree_at p t -∗ (∀ p', tree_at p' t' -∗ Q p' w) -∗ wp (rotate_p_left_p_right p) w Q.
Proof.
  intros H. destruct t as [|l d h r]; [done|]. unfold rot_left_right in H; opt_inv.
  iIntros "Ht HQ". simpl. iDestruct "Ht" as (pl pr) "(Hp & Hl & Hr)".
  unfold rotate_p_left_p_right. wp_read "Hp".
  wp_focus. iApply (wp_rotate_p_left with "Hl"); [done|]. iIntros (pl') "Hl".
  wp_write "Hp". iApply (wp_rotate_p_right with "[Hp Hl Hr]"); [done| |done]. iFrame.
Qed.

Lemma wp_rotate_p_right_p_left p t t' w Q :
  rot_right_left t = Some t' →
  tree_at p t -∗ (∀ p', tree_at p' t' -∗ Q p' w) -∗ wp (rotate_p_right_p_left p) w Q.
Proof.
  intros H. destruct t as [|l d h r]; [done|]. unfold rot_right_left in H; opt_inv.
  iIntros "Ht HQ". simpl. iDestruct "Ht" as (pl pr) "(Hp & Hl & Hr)".
  unfold rotate_p_right_p_left. not_null "Hp". wp_read "Hp".
  wp_focus. iApply (wp_rotate_p_right with "Hr"); [done|]. iIntros (pr') "Hr".
  wp_write "Hp". iApply (wp_rotate_p_left with "[Hp Hl Hr]"); [done| |done]. iFrame.
Qed.
End rotations.

(** The environment after the creation of a node, and after an insertion. *)
Definition new_node_world (w : world) : world :=
  if calloc_ok w then calloc_world w
  else errno_world 0 (emit_world (EvPerror "avl insert node calloc") (calloc_world w)).
Definition insert_world (found : bool) (w : world) : world :=
  if found then w else new_node_world w.

Section insertion.
Context (cmp_env : ptr → ptr → ptr → Z).
Implicit Types (Q : ptr → world → hPropI cell).

Lemma wp_call_cmp f a b w (Q : Z → world → hPropI cell) :
  f ≠ NULL → Q (cmp_env f a b) w ⊢ wp (call_cmp cmp_env f a b) w Q.
Proof. intros Hf. unfold call_cmp. rw (eqb_null_false _ Hf). apply wp_ret. Qed.

Lemma wp_update_height p t t' w (Q : () → world → hPropI cell) :
  fix_height t = Some t' →
  tree_at p t -∗ (tree_at p t' -∗ Q () w) -∗ wp (update_height p) w Q.
Proof.
  intros H. destruct t as [|l d h r]; [done|]. unfold fix_height in H; opt_inv.
  iIntros "Ht HQ". simpl. iDestruct "Ht" as (pl pr) "(Hp & Hl & Hr)".
  unfold update_height. wp_read "Hp". wp_ht "Hl". wp_read "Hp". wp_ht "Hr". wp_int.
  wp_write "Hp". iApply "HQ". iFrame.
Qed.

Lemma wp_insert_fix_left p d f t t' w Q :
  f ≠ NULL → balance_left (cmp_env f) d t = Some t' →
  tree_at p t -∗ (∀ p', tree_at p' t' -∗ Q p' w) -∗ wp (insert_fix_left cmp_env p d f) w Q.
Proof.
  intros Hf H. destruct t as [|l x h r]; [done|]. unfold balance_left in H.
  apply bind_Some in H as (? & [-> Hdiff]%chk_Some & Hb).
  iIntros "Ht HQ". simpl. iDestruct "Ht" as (pl pr) "(Hp & Hl & Hr)".
  unfold insert_fix_left. wp_read "Hp". wp_ht "Hl". wp_read "Hp". wp_ht "Hr". wp_int.
  destruct (ht l - ht r =? 2) eqn:E; [|injection Hb as <-; wp_return; iApply "HQ"; iFrame].
  destruct l as [|ll ld lh lr]; [done|]. wp_read "Hp".
  iDestruct "Hl" as (pll plr) "(Hl & Hll & Hlr)". wp_read "Hl".
  wp_focus. iApply wp_call_cmp; [done|]. destruct (cmp_env f d ld <? 0).
  - iApply (wp_rotate_p_right with "[-HQ]"); [done| |done]. simpl. iFrame.
  - iApply (wp_rotate_p_left_p_right with "[-HQ]"); [done| |done]. simpl. iFrame.
Qed.

Lemma wp_insert_fix_right p d f t t' w Q :
  f ≠ NULL → balance_right (cmp_env f) d t = Some t' →
  tree_at p t -∗ (∀ p', tree_at p' t' -∗ Q p' w) -∗ wp (insert_fix_right cmp_env p d f) w Q.
Proof.
  intros Hf H. destruct t as [|l x h r]; [done|]. unfold balance_right in H.
  apply bind_Some in H as (? & [-> Hdiff]%chk_Some & Hb).
  iIntros "Ht HQ". simpl. iDestruct "Ht" as (pl pr) "(Hp & Hl & Hr)".
  unfold insert_fix_right. wp_read "Hp". wp_ht "Hr". wp_read "Hp". wp_ht "Hl". wp_int.
  destruct (2 =? ht r - ht l) eqn:E; [|injection Hb as <-; wp_return; iApply "HQ"; iFrame].
  destruct r as [|rl rd rh rr]; [done|]. wp_read "Hp".
  iDestruct "Hr" as (prl prr) "(Hr & Hrl & Hrr)". wp_read "Hr".
  wp_focus. iApply wp_call_cmp; [done|]. destruct (0 <? cmp_env f d rd).
  - iApply (wp_rotate_p_left with "[-HQ]"); [done| |done]. simpl. iFrame.
  - iApply (wp_rotate_p_right_p_left with "[-HQ]"); [done| |done]. simpl. iFrame.
Qed.

Lemma wp_new_node p d f w Q :
  (p =? NULL) || (d =? NULL) || (f =? NULL) = true →
  (∀ p', tree_at p' (if calloc_ok w then Node Leaf d 0 Leaf else Leaf) -∗
         Q p' (new_node_world w)) -∗
  wp (insert_node cmp_env 1 p d f) w Q.
Proof.
  iIntros (H) "HQ". simpl. rw H. wp_focus. iApply wp_calloc_struct.
  unfold new_node_world. destruct (calloc_ok w).
  - iIntros (l) "Hl". not_null "Hl". wp_write "Hl". wp_return. iApply "HQ".
    iExists NULL, NULL. by iFrame.
  - simpl. wp_focus. iApply wp_emit. wp_focus. iApply wp_set_errno. wp_return.
    by iApply "HQ".
Qed.

Lemma wp_insert_node fuel p t t' d f w Q :
  d ≠ NULL → f ≠ NULL → (depth t < fuel)%nat →
  ins_tree (cmp_env f) (calloc_ok w) d t = Some t' →
  tree_at p t -∗
  (∀ p', tree_at p' t' -∗ Q p' (insert_world (path_finds (cmp_env f) d t) w)) -∗
  wp (insert_node cmp_env fuel p d f) w Q.
Proof.
  intros Hd Hf. revert fuel p t' Q.
  induction t as [|l IHl x h r IHr]; intros fuel p t' Q Hfuel H;
    (destruct fuel as [|fuel]; [lia|]); iIntros "Ht HQ".
  - iDestruct "Ht" as %->. injection H as <-.
    iApply (wp_new_node NULL d f with "HQ"). done.
  - iDestruct "Ht" as (pl pr) "(Hp & Hl & Hr)". simpl in *.
    apply bind_Some in H as (t1 & Hsub & Hfix).
    not_null "Hp". rw (eqb_null_false _ Hd) (eqb_null_false _ Hf) /=.
    wp_read "Hp". wp_focus. iApply wp_call_cmp; [done|]. wp_focus.
    iApply (wp_wand _ _ (λ p' w', tree_at p' t1 ∗
      ⟪w' = insert_world (path_finds (cmp_env f) d (Node l x h r)) w⟫)%I with "[-HQ]").
    + simpl. destruct (cmp_env f d x <? 0); [|destruct (0 <? cmp_env f d x)].
      * apply bind_Some in Hsub as (l' & Hl' & Hsub). wp_read "Hp". wp_focus.
        iApply (IHl with "Hl"); [lia|done|]. iIntros (pl') "Hl". wp_write "Hp".
        iApply (wp_insert_fix_left with "[-]"); [done..|iFrame|]. iIntros (p') "?". by iFrame.
      * apply bind_Some in Hsub as (r' & Hr' & Hsub). wp_read "Hp". wp_focus.
        iApply (IHr with "Hr"); [lia|done|]. iIntros (pr') "Hr". wp_write "Hp".
        iApply (wp_insert_fix_right with "[-]"); [done..|iFrame|]. iIntros (p') "?". by iFrame.
      * injection Hsub as <-. iApply wp_ret. iSplitL; [|done]. simpl. iFrame.
    + iIntros (p' w') "[Ht ->]". wp_focus. iApply (wp_update_height with "Ht"); [done|].
      iIntros "Ht". wp_return. by iApply "HQ".
Qed.
End insertion.
