(* ===== verification/AvlOps.v ===== *)
(** * AvlOps: the exported operations on a tree object

    [avl_at p t c f fr mx] is a [struct avl_tree] at [p] whose nodes represent
    [t], whose [count] field is [c] and whose callbacks are [f] (comparison)
    and [fr] (destruction); [mx] is the state of its mutex, [MutexFree] between
    two calls.  Each exported function of avl_tree_lib.c gets the rule that
    describes its effect on such an object and on the environment. *)

From iris.proofmode Require Import environments proofmode.
From stdpp Require Import gmap strings.
From S2P Require Import Prelude HProp Mem Chain Ordered AvlModel AvlFacts AvlCode AvlRefine.

Open Scope Z_scope.

Definition avl_at (p : ptr) (t : tree) (c f fr : Z) (mx : mutex) : hPropI cell :=
  (∃ root disp, p ↦ as_cell (AvlTree root c f disp fr mx) ∗ tree_at root t)%I.

(** The calls that a traversal makes. *)
Definition calls (f : ptr) (ds : list ptr) : list event := map (λ d, EvCall f [d]) ds.

Lemma calls_app f ds ds' : calls f (ds ++ ds') = calls f ds ++ calls f ds'.
Proof. apply map_app. Qed.

(** ** Sizes: the recursion bound is sufficient *)

Fixpoint tree_size (t : tree) : nat :=
  match t with Leaf => O | Node l _ _ r => S (tree_size l + tree_size r) end.

Lemma depth_tree_size t : (depth t ≤ tree_size t)%nat.
Proof. induction t; simpl; lia. Qed.

Lemma tree_at_size p t m : holds (tree_at p t) m → (tree_size t ≤ size m)%nat.
Proof.
  revert p m. induction t as [|l IHl d h r IHr]; intros p m H; simpl; [lia|].
  apply holds_exist in H as (pl & H). apply holds_exist in H as (pr & H).
  apply holds_sep in H as (m1 & m23 & -> & Hd & H1 & H).
  apply holds_sep in H as (m2 & m3 & -> & Hd' & H2 & H3).
  apply holds_pointsto in H1 as [-> _]. apply IHl in H2. apply IHr in H3.
  rw (map_size_disj_union _ _ Hd) (map_size_disj_union _ _ Hd') map_size_singleton. lia.
Qed.

Lemma wp_tree_fuel p t w (Q : nat → world → hPropI cell) :
  tree_at p t -∗ (∀ n, ⌜(tree_size t < n)%nat⌝ → tree_at p t -∗ Q n w) -∗ wp heap_fuel w Q.
Proof. apply wp_heap_fuel, tree_at_size. Qed.

(** Read the recursion bound; [Hn] says that it exceeds the depth and the size. *)
Tactic Notation "wp_fuel" constr(H) "as" simple_intropattern(n) ident(Hn) :=
  wp_focus; iApply (wp_tree_fuel with H); iIntros (n Hn) H; simpl.

Section ops.
Context (cmp_env : ptr → ptr → ptr → Z).

(** ** Creation and insertion *)

Lemma wp_avl_create f fr w (Q : ptr → world → hPropI cell) :
  f ≠ NULL → fr ≠ NULL →
  (if calloc_ok w
   then ∀ p, ⌜p ≠ NULL⌝ → avl_at p Leaf 0 f fr MutexFree -∗ Q p (calloc_world w)
   else Q NULL (emit_world (EvPerror "avl tree create calloc") (calloc_world w))) ⊢
  wp (avl_create f fr) w Q.
Proof.
  iIntros (Hf Hfr) "HQ". unfold avl_create.
  rw (eqb_null_false _ Hf) (eqb_null_false _ Hfr) /=.
  wp_focus. iApply wp_calloc_struct. destruct (calloc_ok w).
  - iIntros (p) "Hp". not_null "Hp". wp_write "Hp". wp_write "Hp".
    wp_focus. iApply (wp_mutex_init with "Hp"). iIntros "Hp". wp_return.
    iApply "HQ"; [done|]. iExists NULL, NULL. by iFrame.
  - simpl. wp_focus. iApply wp_emit. by wp_return.
Qed.

Lemma wp_lock_tree p t c f fr w (Q : () → world → hPropI cell) :
  avl_at p t c f fr MutexFree -∗ (avl_at p t c f fr MutexHeld -∗ Q () w) -∗
  wp (lock_tree p) w Q.
Proof.
  iIntros "(%root & %disp & Hp & Ht) HQ". iApply (wp_mutex_lock with "Hp"); [done|].
  iIntros "Hp". iApply "HQ". iFrame.
Qed.

Lemma wp_unlock_tree p t c f fr w (Q : () → world → hPropI cell) :
  avl_at p t c f fr MutexHeld -∗ (avl_at p t c f fr MutexFree -∗ Q () w) -∗
  wp (unlock_tree p) w Q.
Proof.
  iIntros "(%root & %disp & Hp & Ht) HQ". iApply (wp_mutex_unlock with "Hp"); [done|].
  iIntros "Hp". iApply "HQ". iFrame.
Qed.

Lemma wp_insert_section p t t' c f fr mx d w (Q : () → world → hPropI cell) :
  d ≠ NULL → f ≠ NULL → int_range (c + 1) = true →
  ins_tree (cmp_env f) (calloc_ok w) d t = Some t' →
  avl_at p t c f fr mx -∗
  (avl_at p t' (c + 1) f fr mx -∗ Q () (insert_world (path_finds (cmp_env f) d t) w)) -∗
  wp (insert_section cmp_env p d) w Q.
Proof.
  iIntros (Hd Hf Hc Ht') "Ht HQ". iDestruct "Ht" as (root disp) "[Hp Ht]".
  unfold insert_section. wp_fuel "Ht" as n Hn. wp_read "Hp". wp_read "Hp".
  pose proof (depth_tree_size t). wp_focus.
  iApply (wp_insert_node with "Ht"); [done|done|lia|done|]. iIntros (root') "Ht".
  wp_write "Hp". wp_read "Hp". wp_int. wp_write "Hp". iApply "HQ". iFrame.
Qed.

Lemma wp_avl_insert p t t' c f fr d w (Q : () → world → hPropI cell) :
  p ≠ NULL → d ≠ NULL → f ≠ NULL → int_range (c + 1) = true →
  ins_tree (cmp_env f) (calloc_ok w) d t = Some t' →
  avl_at p t c f fr MutexFree -∗
  (avl_at p t' (c + 1) f fr MutexFree -∗
   Q () (insert_world (path_finds (cmp_env f) d t) w)) -∗
  wp (avl_insert cmp_env p d) w Q.
Proof.
  iIntros (Hp Hd Hf Hc Ht') "Ht HQ".
  unfold avl_insert. rw (eqb_null_false _ Hp) (eqb_null_false _ Hd) /=.
  wp_focus. iApply (wp_lock_tree with "Ht"). iIntros "Ht".
  wp_focus. iApply (wp_insert_section with "Ht"); [done..|]. iIntros "Ht".
  by iApply (wp_unlock_tree with "Ht").
Qed.

(** ** Search and counting *)

Lemma wp_search_helper fuel p t d f w (Q : ptr → world → hPropI cell) :
  d ≠ NULL → f ≠ NULL → (depth t < fuel)%nat →
  tree_at p t -∗
  (tree_at p t -∗ Q (default NULL (search_tree (cmp_env f) d t)) w) -∗
  wp (search_helper cmp_env fuel p d f) w Q.
Proof.
  intros Hd Hf. revert fuel p Q.
  induction t as [|l IHl x h r IHr]; intros fuel p Q Hfuel;
    (destruct fuel as [|fuel]; [lia|]); iIntros "Ht HQ"; simpl in *.
  - iDestruct "Ht" as %->. rw /=. iApply wp_ret. by iApply "HQ".
  - iDestruct "Ht" as (pl pr) "(Hp & Hl & Hr)".
    not_null "Hp". rw (eqb_null_false _ Hd) (eqb_null_false _ Hf) /=.
    wp_read "Hp". wp_focus. iApply wp_call_cmp; [done|]. repeat case_test.
    + wp_read "Hp". iApply "HQ". iFrame.
    + wp_read "Hp". iApply (IHr with "Hr"); [lia|]. iIntros "Hr". iApply "HQ". iFrame.
    + wp_read "Hp". iApply (IHl with "Hl"); [lia|]. iIntros "Hl". iApply "HQ". iFrame.
Qed.

Lemma wp_search_section p t c f fr mx d w (Q : ptr → world → hPropI cell) :
  d ≠ NULL → f ≠ NULL →
  avl_at p t c f fr mx -∗
  (avl_at p t c f fr mx -∗ Q (default NULL (search_tree (cmp_env f) d t)) w) -∗
  wp (search_section cmp_env p d) w Q.
Proof.
  iIntros (Hd Hf) "Ht HQ". iDestruct "Ht" as (root disp) "[Hp Ht]".
  unfold search_section. wp_fuel "Ht" as n Hn. wp_read "Hp". wp_read "Hp".
  pose proof (depth_tree_size t).
  iApply (wp_search_helper with "Ht"); [done|done|lia|]. iIntros "Ht". iApply "HQ". iFrame.
Qed.

Lemma wp_avl_search p t c f fr d w (Q : ptr → world → hPropI cell) :
  p ≠ NULL → d ≠ NULL → f ≠ NULL →
  avl_at p t c f fr MutexFree -∗
  (avl_at p t c f fr MutexFree -∗ Q (default NULL (search_tree (cmp_env f) d t)) w) -∗
  wp (avl_search cmp_env p d) w Q.
Proof.
  iIntros (Hp Hd Hf) "Ht HQ".
  unfold avl_search. rw (eqb_null_false _ Hp) (eqb_null_false _ Hd) /=.
  wp_focus. iApply (wp_lock_tree with "Ht"). iIntros "Ht".
  wp_focus. iApply (wp_search_section with "Ht"); [done..|]. iIntros "Ht".
  wp_focus. iApply (wp_unlock_tree with "Ht"). iIntros "Ht". wp_return. by iApply "HQ".
Qed.

Lemma wp_avl_node_count fuel p t w (Q : Z → world → hPropI cell) :
  (depth t < fuel)%nat → node_count t ≤ INT_MAX →
  tree_at p t -∗ (tree_at p t -∗ Q (node_count t) w) -∗ wp (avl_node_count fuel p) w Q.
Proof.
  revert fuel p Q.
  induction t as [|l IHl x h r IHr]; intros fuel p Q Hfuel Hc;
    (destruct fuel as [|fuel]; [lia|]); iIntros "Ht HQ"; simpl in *.
  - iDestruct "Ht" as %->. rw /=. iApply wp_ret. by iApply "HQ".
  - iDestruct "Ht" as (pl pr) "(Hp & Hl & Hr)". not_null "Hp".
    pose proof (node_count_nonneg l). pose proof (node_count_nonneg r).
    wp_read "Hp". wp_focus. iApply (IHl with "Hl"); [lia|lia|]. iIntros "Hl".
    wp_read "Hp". wp_focus. iApply (IHr with "Hr"); [lia|lia|]. iIntros "Hr".
    wp_focus. iApply wp_int_op; [apply int_range_true; unfold INT_MIN; lia|].
    iApply wp_int_op; [apply int_range_true; unfold INT_MIN; lia|].
    iApply "HQ". iFrame.
Qed.

Lemma wp_count_section p t c f fr mx w (Q : Z → world → hPropI cell) :
  node_count t ≤ INT_MAX →
  avl_at p t c f fr mx -∗ (avl_at p t c f fr mx -∗ Q (node_count t) w) -∗
  wp (count_section p) w Q.
Proof.
  iIntros (Hc) "Ht HQ". iDestruct "Ht" as (root disp) "[Hp Ht]".
  unfold count_section. wp_fuel "Ht" as n Hn. wp_read "Hp". pose proof (depth_tree_size t).
  iApply (wp_avl_node_count with "Ht"); [lia|done|]. iIntros "Ht". iApply "HQ". iFrame.
Qed.

Lemma wp_avl_total_elements p t c f fr w (Q : Z → world → hPropI cell) :
  p ≠ NULL → node_count t ≤ INT_MAX →
  avl_at p t c f fr MutexFree -∗
  (avl_at p t c f fr MutexFree -∗ Q (node_count t) w) -∗
  wp (avl_total_elements p) w Q.
Proof.
  iIntros (Hp Hc) "Ht HQ". unfold avl_total_elements. rw (eqb_null_false _ Hp).
  wp_focus. iApply (wp_lock_tree with "Ht"). iIntros "Ht".
  wp_focus. iApply (wp_count_section with "Ht"); [done|]. iIntros "Ht".
  wp_focus. iApply (wp_unlock_tree with "Ht"). iIntros "Ht". wp_return. by iApply "HQ".
Qed.

(** ** Depth-first traversals *)

Section traversals.
Context (g : ptr) (Hg : g ≠ NULL).
Implicit Types (Q : () → world → hPropI cell).

Ltac visit_call :=
  wp_focus; iApply wp_call_user; [done|]; rw ?emit_world_emits ?emits_app.
Ltac leaf_case :=
  iDestruct "Ht" as %->; rw /=; iApply wp_ret; rw emits_nil; by iApply "HQ".
Ltac node_case :=
  iDestruct "Ht" as (pl pr) "(Hp & Hl & Hr)"; not_null "Hp"; rw (eqb_null_false _ Hg) /=.
Ltac sub IH H :=
  wp_read "Hp"; wp_focus; iApply (IH with H); [lia|]; iIntros H; rw ?emits_app.

Lemma wp_avl_inorder_action fuel p t w Q :
  (depth t < fuel)%nat →
  tree_at p t -∗ (tree_at p t -∗ Q () (emits (calls g (inorder t)) w)) -∗
  wp (avl_inorder_action fuel p g) w Q.
Proof.
  revert fuel p w Q; induction t as [|l IHl x h r IHr]; intros fuel p w Q Hfuel;
    (destruct fuel as [|fuel]; [lia|]); iIntros "Ht HQ"; simpl in *; [leaf_case|node_case].
  sub IHl "Hl". wp_read "Hp". visit_call. sub IHr "Hr".
  rw calls_app -app_assoc. iApply "HQ". iFrame.
Qed.

Lemma wp_avl_pre_order_action fuel p t w Q :
  (depth t < fuel)%nat →
  tree_at p t -∗ (tree_at p t -∗ Q () (emits (calls g (preorder t)) w)) -∗
  wp (avl_pre_order_action fuel p g) w Q.
Proof.
  revert fuel p w Q; induction t as [|l IHl x h r IHr]; intros fuel p w Q Hfuel;
    (destruct fuel as [|fuel]; [lia|]); iIntros "Ht HQ"; simpl in *; [leaf_case|node_case].
  wp_read "Hp". visit_call. sub IHl "Hl". sub IHr "Hr".
  rw calls_app. iApply "HQ". iFrame.
Qed.

Lemma wp_avl_post_order_action fuel p t w Q :
  (depth t < fuel)%nat →
  tree_at p t -∗ (tree_at p t -∗ Q () (emits (calls g (postorder t)) w)) -∗
  wp (avl_post_order_action fuel p g) w Q.
Proof.
  revert fuel p w Q; induction t as [|l IHl x h r IHr]; intros fuel p w Q Hfuel;
    (destruct fuel as [|fuel]; [lia|]); iIntros "Ht HQ"; simpl in *; [leaf_case|node_case].
  sub IHl "Hl". sub IHr "Hr". wp_read "Hp". visit_call.
  rw !calls_app app_assoc. iApply "HQ". iFrame.
Qed.

Lemma wp_destroy_avl_node fuel p t w Q :
  (depth t < fuel)%nat →
  tree_at p t -∗ Q () (emits (calls g (postorder t)) w) -∗
  wp (destroy_avl_node fuel p g) w Q.
Proof.
  revert fuel p w Q; induction t as [|l IHl x h r IHr]; intros fuel p w Q Hfuel;
  (destruct fuel as [|fuel]; [lia|]); iIntros "Ht HQ"; simpl in *.
  { iDestruct "Ht" as %->. rw /=. iApply wp_ret. by rw emits_nil. }
  iDestruct "Ht" as (pl pr) "(Hp & Hl & Hr)". not_null "Hp". rw (eqb_null_false _ Hg) /=.
  wp_read "Hp". wp_focus. iApply (IHl with "Hl"); [lia|].
  wp_read "Hp". wp_focus. iApply (IHr with "Hr"); [lia|]. rw ?emits_app.
  wp_read "Hp". visit_call. iApply (wp_free with "Hp").
  by rw !calls_app app_assoc.
Qed.
End traversals.
End ops.
