(* ===== verification/AvlStale.v ===== *)
(** * AvlStale: insertion into a tree whose heights are stale

    After a deletion the stored heights can be too large (file AvlReach).  An insertion
    then may find a node that leans by two towards the element although the child on that
    side has no inner subtree: the double rotation returns NULL, and [insert_node] reads
    the height fields through it.  The file shows that this is all that can go wrong, and that
    it does go wrong on the heap. *)

From iris.proofmode Require Import environments proofmode.
From stdpp Require Import gmap strings.
From S2P Require Import Prelude HProp Mem Ordered AvlModel AvlFacts AvlReach AvlCode AvlRefine AvlOps.

Open Scope Z_scope.

(** ** On trees *)

Section stuck.
Context (cmp : ptr → ptr → Z).

(** The node leans to the left by two, and its left child, which is not above [d], has no
    right subtree; and the other way round. *)
Definition stuck_left (d : ptr) (l r : tree) : Prop :=
  ht l - ht r = 2 ∧ ∃ ll ld lh, l = Node ll ld lh Leaf ∧ 0 ≤ cmp d ld.
Definition stuck_right (d : ptr) (l r : tree) : Prop :=
  ht r - ht l = 2 ∧ ∃ rd rh rr, r = Node Leaf rd rh rr ∧ cmp d rd ≤ 0.

Lemma fix_height_wf l x h r :
  wf l → wf r → Z.max (ht l) (ht r) < INT_MAX →
  ∃ t', fix_height (Node l x h r) = Some t' ∧ wf t' ∧ ht t' = Z.max (ht l) (ht r) + 1.
Proof.
  intros. wf_pose. unfold fix_height. chk_solve. eexists. split; [done|]. simpl. split_and!; auto; lia.
Qed.

Lemma balance_left_cases d l x h r :
  wf l → wf r → Z.max (ht l) (ht r) < INT_MAX - 2 →
  match balance_left cmp d (Node l x h r) with
  | Some t => ∃ t', fix_height t = Some t' ∧ wf t' ∧ ht t' ≤ Z.max (ht l) (ht r) + 1
  | None => stuck_left d l r
  end.
Proof.
  intros Hl Hr ?. wf_pose. unfold balance_left. chk_solve. case_test.
  2: { destruct (fix_height_wf l x h r) as (t' & ? & ? & ?); [done|done|lia|].
       exists t'. split_and!; [done..|lia]. }
  destruct l as [|ll ld lh lr]; [simpl in *; lia|]. case_test.
  - destruct (rot_right_wf ll ld lh lr x h r) as (h1 & h2 & -> & (?&?&?) & ?);
      [done|done|simpl in *; lia..|].
    destruct (fix_height_wf ll ld h2 (Node lr x h1 r)) as (t' & ? & ? & ?); [done|done|simpl in *; lia|].
    exists t'. split_and!; [done..|simpl in *; lia].
  - destruct lr as [|l2 d2 h2 r2].
    { unfold rot_left_right, rot_left. simpl. split; [done|]. by eexists _, _, _. }
    destruct (rot_left_right_wf ll ld lh l2 d2 h2 r2 x h r) as (h3 & h4 & h5 & -> & (?&?&?) & ?);
      [done|done|simpl in *; lia..|].
    destruct (fix_height_wf (Node ll ld h3 l2) d2 h5 (Node r2 x h4 r)) as (t' & ? & ? & ?);
      [done|done|simpl in *; lia|].
    exists t'. split_and!; [done..|simpl in *; lia].
Qed.

Lemma balance_right_cases d l x h r :
  wf l → wf r → Z.max (ht l) (ht r) < INT_MAX - 2 →
  match balance_right cmp d (Node l x h r) with
  | Some t => ∃ t', fix_height t = Some t' ∧ wf t' ∧ ht t' ≤ Z.max (ht l) (ht r) + 1
  | None => stuck_right d l r
  end.
Proof.
  intros Hl Hr ?. wf_pose. unfold balance_right. chk_solve. case_test.
  2: { destruct (fix_height_wf l x h r) as (t' & ? & ? & ?); [done|done|lia|].
       exists t'. split_and!; [done..|lia]. }
  destruct r as [|rl rd rh rr]; [simpl in *; lia|]. case_test.
  - destruct (rot_left_wf l x h rl rd rh rr) as (h1 & h2 & -> & (?&?&?) & ?);
      [done|done|simpl in *; lia..|].
    destruct (fix_height_wf (Node l x h1 rl) rd h2 rr) as (t' & ? & ? & ?); [done|done|simpl in *; lia|].
    exists t'. split_and!; [done..|simpl in *; lia].
  - destruct rl as [|l2 d2 h2 r2].
    { unfold rot_right_left, rot_right. simpl. split; [done|]. by eexists _, _, _. }
    destruct (rot_right_left_wf l x h l2 d2 h2 r2 rd rh rr) as (h3 & h4 & h5 & -> & (?&?&?) & ?);
      [done|done|simpl in *; lia..|].
    destruct (fix_height_wf (Node l x h4 l2) d2 h5 (Node r2 rd h3 rr)) as (t' & ? & ? & ?);
      [done|done|simpl in *; lia|].
    exists t'. split_and!; [done..|simpl in *; lia].
Qed.

(** An insertion that is defined keeps the heights sound. *)
Lemma ins_tree_some_wf ok d t t' :
  wf t → ht t < INT_MAX - 3 → ins_tree cmp ok d t = Some t' → wf t' ∧ ht t' ≤ ht t + 1.
Proof.
  revert t'. induction t as [|l IHl x h r IHr]; simpl; intros t' Ht Hh H.
  { destruct ok; simplify_eq/=; wf_solve. }
  destruct Ht as (Hl & Hr & ?). wf_pose. apply bind_Some in H as (t1 & H & Hfix). revert H.
  repeat case_test; intros H.
  - apply bind_Some in H as (l' & Hl' & H). apply IHl in Hl' as [? ?]; [|done|lia].
    pose proof (balance_left_cases d l' x h r) as Hc. rw H in Hc.
    destruct Hc as (t2 & ? & ? & ?); [done|done|lia|]. simplify_eq. split; [done|lia].
  - apply bind_Some in H as (r' & Hr' & H). apply IHr in Hr' as [? ?]; [|done|lia].
    pose proof (balance_right_cases d l x h r') as Hc. rw H in Hc.
    destruct Hc as (t2 & ? & ? & ?); [done|done|lia|]. simplify_eq. split; [done|lia].
  - injection H as <-. destruct (fix_height_wf l x h r) as (t2 & ? & ? & ?); [done|done|lia|].
    simplify_eq. split; [done|lia].
Qed.
End stuck.

(** ** On the heap *)

Section heap.
Context (cmp_env : ptr → ptr → ptr → Z).
Implicit Types (P : hPropI cell).

Lemma fails_get_null {T A} `{!Struct cell T} (f : T → A) w (E : error → Prop) P :
  E NullDeref → P ⊢ fails (get f NULL) w E.
Proof. intros HE. split; intros m _. by exists NullDeref. Qed.

(** The rotations of a stuck node lose it and return NULL. *)
Lemma wp_insert_fix_left_stuck p d f l x h r w (Q : ptr → world → hPropI cell) :
  f ≠ NULL → stuck_left (cmp_env f) d l r →
  tree_at p (Node l x h r) -∗ (∀ P, P -∗ Q NULL w) -∗ wp (insert_fix_left cmp_env p d f) w Q.
Proof.
  iIntros (Hf (Hd & ll & ld & lh & -> & Hc)) "(%pl & %pr & Hp & (%pll & %plr & Hl & Hll & ->) & Hr) HQ".
  simpl in Hd. unfold insert_fix_left. wp_read "Hp". wp_focus.
  iApply (wp_height pl (Node ll ld lh Leaf) with "[Hl Hll]"); [iFrame; done|].
  iIntros "(%pll' & %plr' & Hl & Hll & ->)". wp_read "Hp". wp_ht "Hr".
  wp_focus. simpl ht. iApply wp_int_op; [by rw Hd|]. rw Hd /=. wp_read "Hp". wp_read "Hl".
  wp_focus. iApply wp_call_cmp; [done|]. rw (proj2 (Z.ltb_ge _ _) Hc).
  unfold rotate_p_left_p_right. wp_read "Hp".
  iAssert ⌜pl ≠ NULL⌝%I as %Hpl; [by iApply (pointsto_not_null with "Hl")|].
  wp_focus. unfold rotate_p_left. rw (eqb_null_false _ Hpl). wp_read "Hl". wp_return.
  wp_write "Hp". not_null "Hp". unfold rotate_p_right. rw (eqb_null_false _ Hnn). wp_read "Hp". wp_return.
  iApply "HQ". iCombine "Hp Hl Hll Hr" as "H". iExact "H".
Qed.

Lemma wp_insert_fix_right_stuck p d f l x h r w (Q : ptr → world → hPropI cell) :
  f ≠ NULL → stuck_right (cmp_env f) d l r →
  tree_at p (Node l x h r) -∗ (∀ P, P -∗ Q NULL w) -∗ wp (insert_fix_right cmp_env p d f) w Q.
Proof.
  iIntros (Hf (Hd & rd & rh & rr & -> & Hc)) "(%pl & %pr & Hp & Hl & (%prl & %prr & Hr & -> & Hrr)) HQ".
  simpl in Hd. unfold insert_fix_right. wp_read "Hp". wp_focus.
  iApply (wp_height pr (Node Leaf rd rh rr) with "[Hr Hrr]"); [iFrame; done|].
  iIntros "(%prl' & %prr' & Hr & -> & Hrr)". wp_read "Hp". wp_ht "Hl".
  wp_focus. simpl ht. iApply wp_int_op; [by rw Hd|]. rw Hd /=. wp_read "Hp". wp_read "Hr".
  wp_focus. iApply wp_call_cmp; [done|]. rw (proj2 (Z.ltb_ge _ _) Hc).
  unfold rotate_p_right_p_left. not_null "Hp". wp_read "Hp".
  iAssert ⌜pr ≠ NULL⌝%I as %Hpr; [by iApply (pointsto_not_null with "Hr")|].
  wp_focus. unfold rotate_p_right. rw (eqb_null_false _ Hpr). wp_read "Hr". wp_return.
  wp_write "Hp". unfold rotate_p_left. rw (eqb_null_false _ Hnn). wp_read "Hp". wp_return.
  iApply "HQ". iCombine "Hp Hl Hr Hrr" as "H". iExact "H".
Qed.

(** Where an insertion on trees is undefined, the one on the heap follows NULL. *)
Lemma fails_insert_node fuel p t d f w P :
  d ≠ NULL → f ≠ NULL → (depth t < fuel)%nat → wf t → ht t < INT_MAX - 3 →
  ins_tree (cmp_env f) (calloc_ok w) d t = None →
  tree_at p t -∗ P -∗ fails (insert_node cmp_env fuel p d f) w (eq NullDeref).
Proof.
  intros Hd Hf. revert fuel p P. induction t as [|l IHl x h r IHr]; intros fuel p P Hfuel Ht Hh H; [done|].
  destruct fuel as [|fuel]; [lia|]. destruct Ht as (Hl & Hr & ?). wf_pose. simpl in H, Hh, Hfuel.
  iIntros "(%pl & %pr & Hp & Hl & Hr) HP". cbn [insert_node]. not_null "Hp".
  rw (eqb_null_false _ Hd) (eqb_null_false _ Hf) /=.
  iApply fails_after. iApply (wp_get with "Hp"). iIntros "Hp". simpl.
  iApply fails_after. iApply wp_call_cmp; [done|]. revert H. repeat case_test; intros H.
  - destruct (ins_tree (cmp_env f) (calloc_ok w) d l) as [l'|] eqn:El; simpl in H.
    + apply ins_tree_some_wf in El as Hl'; [|done|lia]. destruct Hl' as [??].
      pose proof (balance_left_cases (cmp_env f) d l' x h r) as Hc.
      destruct (balance_left (cmp_env f) d (Node l' x h r)) as [t1|].
      { destruct Hc as (t2 & Ht2 & _); [done|done|lia|]. simpl in H. by rw Ht2 in H. }
      iApply fails_after. wp_read "Hp". wp_focus.
      iApply (wp_insert_node with "Hl"); [done|done|lia|done|]. iIntros (pl') "Hl". wp_write "Hp".
      iApply (wp_insert_fix_left_stuck with "[Hp Hl Hr]"); [done|by apply Hc; [..|lia]|iFrame|].
      iIntros (P') "HP'". iApply fails_bind. iApply fails_bind. iStopProof. by apply fails_get_null.
    + iApply fails_bind. iApply fails_after. iApply (wp_get with "Hp"). iIntros "Hp". simpl.
      iApply fails_bind. iCombine "Hp Hr HP" as "HP". iApply (IHl with "Hl HP"); [lia|done|lia|done].
  - destruct (ins_tree (cmp_env f) (calloc_ok w) d r) as [r'|] eqn:Er; simpl in H.
    + apply ins_tree_some_wf in Er as Hr'; [|done|lia]. destruct Hr' as [??].
      pose proof (balance_right_cases (cmp_env f) d l x h r') as Hc.
      destruct (balance_right (cmp_env f) d (Node l x h r')) as [t1|].
      { destruct Hc as (t2 & Ht2 & _); [done|done|lia|]. simpl in H. by rw Ht2 in H. }
      iApply fails_after. wp_read "Hp". wp_focus.
      iApply (wp_insert_node with "Hr"); [done|done|lia|done|]. iIntros (pr') "Hr". wp_write "Hp".
      iApply (wp_insert_fix_right_stuck with "[Hp Hl Hr]"); [done|by apply Hc; [..|lia]|iFrame|].
      iIntros (P') "HP'". iApply fails_bind. iApply fails_bind. iStopProof. by apply fails_get_null.
    + iApply fails_bind. iApply fails_after. iApply (wp_get with "Hp"). iIntros "Hp". simpl.
      iApply fails_bind. iCombine "Hp Hl HP" as "HP". iApply (IHr with "Hr HP"); [lia|done|lia|done].
  - destruct (fix_height_wf l x h r) as (t2 & Ht2 & _); [done|done|lia|]. simpl in H. by rw Ht2 in H.
Qed.

Lemma fails_avl_insert p t c f fr d w P :
  p ≠ NULL → d ≠ NULL → f ≠ NULL → wf t → ht t < INT_MAX - 3 →
  ins_tree (cmp_env f) (calloc_ok w) d t = None →
  avl_at p t c f fr MutexFree -∗ P -∗ fails (avl_insert cmp_env p d) w (eq NullDeref).
Proof.
  iIntros (Hp Hd Hf Ht Hh H) "Ht HP". unfold avl_insert.
  rw (eqb_null_false _ Hp) (eqb_null_false _ Hd) /=.
  iApply fails_after. iApply (wp_lock_tree with "Ht"). iIntros "(%root & %disp & Hp & Ht)".
  iApply fails_bind. unfold insert_section.
  iApply fails_after. iApply (wp_tree_fuel with "Ht"). iIntros (n Hn) "Ht". simpl.
  iApply fails_after. iApply (wp_get with "Hp"). iIntros "Hp". simpl.
  iApply fails_after. iApply (wp_get with "Hp"). iIntros "Hp". simpl.
  pose proof (depth_tree_size t). iApply fails_bind. iCombine "Hp HP" as "HP".
  iApply (fails_insert_node with "Ht HP"); [done|done|lia|done..].
Qed.
End heap.
