(* ===== verification/AvlDelete.v ===== *)
(** * AvlDelete: deletion implements its tree function

    [delete_node] receives the address of the pointer to the subtree; [ref_at]
    owns that pointer, whether it is the root of a tree object or a child field
    of a node. *)

From iris.proofmode Require Import environments proofmode.
From stdpp Require Import gmap strings.
From S2P Require Import Prelude HProp Mem Chain Ordered AvlModel AvlFacts AvlCode AvlRefine.
From S2P Require Import AvlOps.

Open Scope Z_scope.

(** The object that holds the pointer, but for the pointer itself. *)
Inductive holder := HTree (t : avl_tree) | HNode (n : avl_node).

Definition ref_at (r : ref) (x : holder) (p : ptr) : hPropI cell :=
  match r, x with
  | RRoot q, HTree t => q ↦ as_cell (set_root p t)
  | RLeft q, HNode n => q ↦ as_cell (set_left p n)
  | RRight q, HNode n => q ↦ as_cell (set_right p n)
  | _, _ => False
  end%I.

Lemma wp_ref_get r x p w (Q : ptr → world → hPropI cell) :
  ref_at r x p -∗ (ref_at r x p -∗ Q p w) -∗ wp (ref_get r) w Q.
Proof.
  iIntros "Hr HQ". destruct r, x; simpl; try iDestruct "Hr" as %[].
  all: by iApply (wp_get with "Hr").
Qed.

Lemma wp_ref_set r x p p' w (Q : () → world → hPropI cell) :
  ref_at r x p -∗ (ref_at r x p' -∗ Q () w) -∗ wp (ref_set r p') w Q.
Proof.
  iIntros "Hr HQ". destruct r, x; simpl; try iDestruct "Hr" as %[].
  all: by iApply (wp_set with "Hr").
Qed.

Lemma ref_at_not_null r x p : ref_at r x p ⊢ ⌜ref_is_null r = false⌝.
Proof. destruct r, x; simpl; auto. Qed.

Tactic Notation "wp_deref" constr(H) := wp_focus; iApply (wp_ref_get with H); iIntros H; simpl.
Tactic Notation "wp_assign" constr(H) := wp_focus; iApply (wp_ref_set with H); iIntros H; simpl.

(** A tree does not start at a cell owned separately. *)
Lemma tree_at_ne p t q (v : cell) : tree_at p t -∗ q ↦ v -∗ ⌜p ≠ q⌝.
Proof.
  iIntros "Ht Hq". destruct t as [|l d h r]; simpl.
  - iDestruct "Ht" as %->. iDestruct (pointsto_not_null with "Hq") as %H. by iPureIntro.
  - iDestruct "Ht" as (pl pr) "(Hp & _)". destruct (decide (p = q)) as [->|Hne]; [|by iPureIntro].
    by iDestruct (pointsto_exclusive with "Hp Hq") as %[].
Qed.

Lemma wp_delete_rebalance rf x p t t' w (Q : () → world → hPropI cell) :
  rebalance t = Some t' →
  ref_at rf x p -∗ tree_at p t -∗
  (∀ p', ref_at rf x p' -∗ tree_at p' t' -∗ Q () w) -∗
  wp (delete_rebalance rf) w Q.
Proof.
  iIntros (H) "Hrf Ht HQ". unfold delete_rebalance. wp_deref "Hrf".
  destruct t as [|l d h r]; simpl.
  { injection H as <-. iDestruct "Ht" as %->. wp_return. by iApply ("HQ" with "Hrf"). }
  unfold rebalance in H. apply bind_Some in H as (? & [-> Hh]%chk_Some & H).
  apply bind_Some in H as (? & [-> Hb]%chk_Some & H).
  iDestruct "Ht" as (pl pr) "(Hp & Hl & Hr)". not_null "Hp".
  wp_read "Hp". wp_ht "Hl". wp_read "Hp". wp_ht "Hr". wp_int. wp_write "Hp".
  wp_read "Hp". wp_ht "Hl". wp_read "Hp". wp_ht "Hr". wp_int.
  destruct (1 <? ht l - ht r); [|destruct (ht l - ht r <? -1)].
  - destruct l as [|ll ld lh lr]; [done|]. wp_read "Hp".
    iDestruct "Hl" as (pll plr) "(Hl & Hll & Hlr)". wp_read "Hl". wp_ht "Hll".
    wp_read "Hl". wp_ht "Hlr". destruct (ht lr <=? ht ll).
    + wp_focus. iApply (wp_rotate_p_right with "[Hp Hl Hll Hlr Hr]"); [done|simpl; iFrame|].
      iIntros (p') "Ht". wp_assign "Hrf". iApply ("HQ" with "Hrf Ht").
    + unfold rot_left_right in H. apply bind_Some in H as (l' & Hl' & H).
      wp_read "Hp". wp_focus. iApply (wp_rotate_p_left with "[Hl Hll Hlr]"); [done|simpl; iFrame|].
      iIntros (pl') "Hl". wp_write "Hp". wp_focus.
      iApply (wp_rotate_p_right with "[Hp Hl Hr]"); [done|simpl; iFrame|].
      iIntros (p') "Ht". wp_assign "Hrf". iApply ("HQ" with "Hrf Ht").
  - destruct r as [|rl rd rh rr]; [done|]. wp_read "Hp".
    iDestruct "Hr" as (prl prr) "(Hr & Hrl & Hrr)". wp_read "Hr". wp_ht "Hrr".
    wp_read "Hr". wp_ht "Hrl". destruct (ht rl <=? ht rr).
    + wp_focus. iApply (wp_rotate_p_left with "[Hp Hl Hr Hrl Hrr]"); [done|simpl; iFrame|].
      iIntros (p') "Ht". wp_assign "Hrf". iApply ("HQ" with "Hrf Ht").
    + unfold rot_right_left in H. apply bind_Some in H as (r' & Hr' & H).
      wp_read "Hp". wp_focus. iApply (wp_rotate_p_right with "[Hr Hrl Hrr]"); [done|simpl; iFrame|].
      iIntros (pr') "Hr". wp_write "Hp". wp_focus.
      iApply (wp_rotate_p_left with "[Hp Hl Hr]"); [done|simpl; iFrame|].
      iIntros (p') "Ht". wp_assign "Hrf". iApply ("HQ" with "Hrf Ht").
  - injection H as <-. wp_return. iApply ("HQ" with "Hrf"). iFrame.
Qed.

(** Where the walk to the leftmost node of the tree at [s] ends: [s'] holds the
    minimum [m]; it is [s] itself, or the left child of [par'], and then putting
    its right subtree in its place leaves [t'] at [s]. *)
Definition successor_at (par s par' s' : ptr) (m : ptr) (t' : tree) : hPropI cell :=
  (∃ hm prs rs, s' ↦ as_cell (AvlNode m hm NULL prs) ∗ tree_at prs rs ∗
    (⟪par' = par ∧ s' = s ∧ t' = rs⟫ ∨
     ∃ dp hp rp, ⟪rp ≠ s'⟫ ∗ par' ↦ as_cell (AvlNode dp hp s' rp) ∗
       (∀ q, par' ↦ as_cell (AvlNode dp hp q rp) -∗ tree_at q rs -∗ tree_at s t')))%I.

Lemma wp_find_successor fuel par s l d h r m t' w (Q : ptr * ptr → world → hPropI cell) :
  (depth (Node l d h r) ≤ fuel)%nat → del_min l d h r = (m, t') →
  tree_at s (Node l d h r) -∗
  (∀ par' s', successor_at par s par' s' m t' -∗ Q (par', s') w) -∗
  wp (find_successor fuel par s) w Q.
Proof.
  revert fuel par s d h r m t' Q.
  induction l as [|ll IH ld lh lr _]; intros fuel par s d h r m t' Q Hfuel Hm;
    (destruct fuel as [|fuel]; [simpl in *; lia|]); iIntros "Ht HQ";
    iDestruct "Ht" as (pl pr) "(Hs & Hl & Hr)"; simpl; wp_read "Hs".
  - injection Hm as <- <-. iDestruct "Hl" as %->. rw /=. wp_return. iApply "HQ".
    iExists h, pr, r. iFrame. by iLeft.
  - simpl in Hm. destruct (del_min ll ld lh lr) as [m' l'] eqn:E. injection Hm as <- <-.
    iAssert ⌜pl ≠ 0⌝%I as %Hpl.
    { iDestruct "Hl" as (??) "(Hl & _)". iApply (pointsto_not_null with "Hl"). }
    rw (eqb_null_false _ Hpl). wp_read "Hs".
    iApply (IH with "Hl"); [simpl in *; lia|done|]. iIntros (par' s') "Hsucc". iApply "HQ".
    iDestruct "Hsucc" as (hm prs rs) "(Hs' & Hrs & [%Heq|Hcase])"; iExists hm, prs, rs.
    + destruct Heq as (-> & -> & ->). iAssert ⌜pr ≠ pl⌝%I as %Hne.
      { iApply (tree_at_ne with "Hr Hs'"). }
      iFrame. iRight. iExists d, h, pr. iFrame. iSplit; [done|].
      iIntros (q) "Hs Hq". simpl. iFrame.
    + iDestruct "Hcase" as (dp hp rp) "(% & Hpar & Hclose)". iFrame. iRight.
      iExists dp, hp, rp. iFrame. iSplit; [done|]. iIntros (q) "Hpar Hq".
      iDestruct ("Hclose" with "Hpar Hq") as "Hl". iFrame.
Qed.

Section deletion.
Context (cmp_env : ptr → ptr → ptr → Z) (fr : ptr) (Hfr : fr ≠ NULL).
Implicit Types (Q : bool → world → hPropI cell).

Lemma wp_delete_found fuel rf x p l d h r w Q :
  (depth (Node l d h r) ≤ fuel)%nat →
  ref_at rf x p -∗ tree_at p (Node l d h r) -∗
  (∀ p', ref_at rf x p' -∗ tree_at p' (del_root l h r) -∗ Q true (emits (calls fr [d]) w)) -∗
  wp (delete_found fuel rf fr) w Q.
Proof.
  iIntros (Hfuel) "Hrf Ht HQ". iDestruct "Ht" as (pl pr) "(Hp & Hl & Hr)".
  unfold delete_found. wp_deref "Hrf". wp_read "Hp".
  destruct l as [|ll ld lh lr].
  { iDestruct "Hl" as %->. rw /=. wp_read "Hp". wp_assign "Hrf". wp_read "Hp".
    wp_focus. iApply wp_call_user; [done|]. wp_dealloc "Hp". wp_return.
    iApply ("HQ" with "Hrf"). done. }
  iAssert ⌜pl ≠ 0⌝%I as %Hpl.
  { iDestruct "Hl" as (??) "(Hl & _)". iApply (pointsto_not_null with "Hl"). }
  rw (eqb_null_false _ Hpl). wp_read "Hp".
  destruct r as [|rl rd rh rr].
  { iDestruct "Hr" as %->. rw /=. wp_read "Hp". wp_assign "Hrf". wp_read "Hp".
    wp_focus. iApply wp_call_user; [done|]. wp_dealloc "Hp". wp_return.
    iApply ("HQ" with "Hrf"). done. }
  iAssert ⌜pr ≠ 0⌝%I as %Hpr.
  { iDestruct "Hr" as (??) "(Hr & _)". iApply (pointsto_not_null with "Hr"). }
  rw (eqb_null_false _ Hpr). wp_read "Hp". unfold del_root.
  destruct (del_min rl rd rh rr) as [m r'] eqn:E. wp_focus.
  iApply (wp_find_successor with "Hr"); [simpl in *; lia|done|]. iIntros (par' s') "Hsucc".
  wp_read "Hp".
  iDestruct "Hsucc" as (hm prs rs) "(Hs' & Hrs & [%Heq|Hcase])".
  - destruct Heq as (-> & -> & ->).
    wp_read "Hs'". wp_write "Hp". wp_read "Hp". wp_read "Hs'". rw Z.eqb_refl. wp_write "Hp".
    wp_focus. iApply wp_call_user; [done|]. wp_dealloc "Hs'". wp_return.
    iApply ("HQ" with "Hrf"). iFrame.
  - iDestruct "Hcase" as (dp hp rp) "(%Hne & Hpar & Hclose)".
    wp_read "Hs'". wp_write "Hp". wp_read "Hpar". wp_read "Hs'".
    rw (proj2 (Z.eqb_neq _ _) Hne). wp_write "Hpar".
    wp_focus. iApply wp_call_user; [done|]. wp_dealloc "Hs'". wp_return.
    iDestruct ("Hclose" with "Hpar Hrs") as "Hr".
    iApply ("HQ" with "Hrf"). iFrame.
Qed.

(** What the deletion reports and shows. *)
Definition deleted_calls (res : option ptr) : list event :=
  match res with Some x => calls fr [x] | None => [] end.
Definition deleted (res : option ptr) : bool :=
  match res with Some _ => true | None => false end.

Lemma wp_delete_node fuel rf x p t t' res d f w Q :
  d ≠ NULL → f ≠ NULL → (depth t < fuel)%nat →
  del_tree (cmp_env f) d t = Some (t', res) →
  ref_at rf x p -∗ tree_at p t -∗
  (∀ p', ref_at rf x p' -∗ tree_at p' t' -∗ Q (deleted res) (emits (deleted_calls res) w)) -∗
  wp (delete_node cmp_env fuel rf d f fr) w Q.
Proof.
  intros Hd Hf. revert fuel rf x p t' res Q.
  induction t as [|l IHl y h r IHr]; intros fuel rf x p t' res Q Hfuel H;
    (destruct fuel as [|fuel]; [lia|]); iIntros "Hrf Ht HQ";
    iDestruct (ref_at_not_null with "Hrf") as %Hrf; simpl;
    rw Hrf (eqb_null_false _ Hd) (eqb_null_false _ Hf) /=; wp_deref "Hrf".
  { injection H as <- <-. iDestruct "Ht" as %->. rw /=. wp_return.
    rw emits_nil. by iApply ("HQ" with "Hrf"). }
  simpl in H. apply bind_Some in H as ([t1 res1] & Hsub & H).
  apply bind_Some in H as (t2 & Hreb & H). injection H as <- <-.
  iDestruct "Ht" as (pl pr) "(Hp & Hl & Hr)". not_null "Hp".
  wp_deref "Hrf". wp_read "Hp". wp_focus. iApply wp_call_cmp; [done|]. wp_focus.
  iApply (wp_wand _ _ (λ b w', ∃ p', ref_at rf x p' ∗ tree_at p' t1 ∗
    ⟪b = deleted res1 ∧ w' = emits (deleted_calls res1) w⟫)%I with "[-HQ]").
  - simpl in Hfuel. destruct (cmp_env f d y <? 0); [|destruct (0 <? cmp_env f d y)].
    + apply bind_Some in Hsub as ([l' resl] & Hl' & Hsub). injection Hsub as <- <-.
      wp_deref "Hrf".
      iApply (IHl _ (RLeft p) (HNode (AvlNode y h pl pr)) with "[Hp] Hl"); [lia|done|by simpl|].
      iIntros (pl') "Hp Hl". iExists p. iFrame. done.
    + apply bind_Some in Hsub as ([r' resr] & Hr' & Hsub). injection Hsub as <- <-.
      wp_deref "Hrf".
      iApply (IHr _ (RRight p) (HNode (AvlNode y h pl pr)) with "[Hp] Hr"); [lia|done|by simpl|].
      iIntros (pr') "Hp Hr". iExists p. iFrame. done.
    + injection Hsub as <- <-.
      iApply (wp_delete_found fuel rf x p l y h r with "Hrf [Hp Hl Hr]"); [simpl; lia|simpl; iFrame|].
      iIntros (p') "Hrf Ht". iExists p'. iFrame. done.
  - iIntros (b w') "(%p' & Hrf & Ht & %Heq)". destruct Heq as [-> ->]. wp_focus.
    iApply (wp_delete_rebalance with "Hrf Ht"); [done|]. iIntros (p'') "Hrf Ht".
    wp_return. iApply ("HQ" with "Hrf Ht").
Qed.

Lemma wp_delete_section p t t' res c f mx d w Q :
  d ≠ NULL → f ≠ NULL → int_range (c - 1) = true →
  del_tree (cmp_env f) d t = Some (t', res) →
  avl_at p t c f fr mx -∗
  (avl_at p t' (if deleted res then c - 1 else c) f fr mx -∗
   Q (deleted res) (emits (deleted_calls res) w)) -∗
  wp (delete_section cmp_env p d) w Q.
Proof.
  iIntros (Hd Hf Hc Ht') "Ht HQ". iDestruct "Ht" as (root disp) "[Hp Ht]".
  unfold delete_section. wp_fuel "Ht" as n Hn. wp_read "Hp". wp_read "Hp".
  pose proof (depth_tree_size t). wp_focus.
  iApply (wp_delete_node _ (RRoot p) (HTree (AvlTree root c f disp fr mx)) with "[Hp] Ht");
    [done|done|lia|done|by simpl|]. iIntros (root') "Hp Ht". simpl.
  wp_focus. destruct (deleted res) eqn:E.
  - wp_read "Hp". wp_int. wp_write "Hp". wp_return. iApply "HQ". iFrame.
  - wp_return. wp_return. iApply "HQ". iFrame.
Qed.

Lemma wp_avl_delete_node p t t' res c f d w Q :
  p ≠ NULL → d ≠ NULL → f ≠ NULL → int_range (c - 1) = true →
  del_tree (cmp_env f) d t = Some (t', res) →
  avl_at p t c f fr MutexFree -∗
  (avl_at p t' (if deleted res then c - 1 else c) f fr MutexFree -∗
   Q (deleted res) (emits (deleted_calls res) w)) -∗
  wp (avl_delete_node cmp_env p d) w Q.
Proof.
  iIntros (Hp Hd Hf Hc Ht') "Ht HQ".
  unfold avl_delete_node. rw (eqb_null_false _ Hp) (eqb_null_false _ Hd) /=.
  wp_focus. iApply (wp_lock_tree with "Ht"). iIntros "Ht".
  wp_focus. iApply (wp_delete_section with "Ht"); [done..|]. iIntros "Ht".
  wp_focus. iApply (wp_unlock_tree with "Ht"). iIntros "Ht". wp_return. by iApply "HQ".
Qed.
End deletion.
