(* ===== verification/AvlDisplay.v ===== *)
(** * AvlDisplay: the drawing of a tree

    [print_recursive] draws the tree on its side, the largest element first.
    Each stack frame holds a [struct trunk]; the callee overwrites the strings
    of its caller's trunk, so [drawing] returns the chain along with the output. *)

From iris.proofmode Require Import environments proofmode.
From stdpp Require Import gmap strings.
From S2P Require Import Prelude HProp Mem AvlModel AvlCode AvlRefine AvlOps.

Open Scope Z_scope.

Section drawing.
Context (g : ptr).

Fixpoint trunks (p : list string) : list event :=
  match p with [] => [] | str :: p_prev => trunks p_prev ++ [EvPrint str] end.

(** The output of [print_recursive] and the chain it leaves to its caller. *)
Fixpoint drawing (t : tree) (p_prev : list string) (is_left : bool) : list event * list string :=
  match t with
  | Leaf => ([], p_prev)
  | Node l d _ r =>
      let blank := "     "%string in
      let bar := "    |"%string in
      let '(es_r, chain) := drawing r (blank :: p_prev) true in
      let '(this_str, p_prev, p_prev_str) :=
        match tail chain with
        | [] => ("---"%string, [], blank)
        | p_prev => if is_left then (".--"%string, p_prev, bar)
                    else ("`--"%string, set_str blank p_prev, blank)
        end in
      let '(es_l, chain) := drawing l (bar :: set_str p_prev_str p_prev) false in
      (es_r ++ trunks (this_str :: p_prev) ++ [EvCall g [d]] ++ es_l ++
       (if bool_decide (tail chain = []) then [EvPrint newline] else []),
       tail chain)
  end.

Lemma set_str_length s chain : length (set_str s chain) = length chain.
Proof. by destruct chain. Qed.

(** The chain keeps its length: each call pops what it pushes. *)
Lemma drawing_chain t p_prev b : length (drawing t p_prev b).2 = length p_prev.
Proof.
  revert p_prev b. induction t as [|l IHl d h r IHr]; intros p_prev b; simpl; [done|].
  pose proof (IHr ("     "%string :: p_prev) true) as Hr.
  destruct (drawing r _ true) as [es_r chain]. simpl in Hr.
  destruct chain as [|s [|s' chain]]; simpl in *; [done| |].
  - destruct p_prev; [|done]. pose proof (IHl ["    |"%string] false) as Hl.
    destruct (drawing l _ false) as [es_l [|? chain]]; simpl in *; [done|lia].
  - destruct p_prev as [|s0 p_prev]; [done|]. simpl in Hr.
    destruct b; simpl;
      [pose proof (IHl ("    |"%string :: set_str "    |"%string (s' :: chain)) false) as Hl
      |pose proof (IHl ("    |"%string :: set_str "     "%string (s' :: chain)) false) as Hl];
      simpl in Hl;
      destruct (drawing l _ false) as [es_l [|? chain']]; simpl in *; lia.
Qed.


Lemma trunks_calls p : List.filter is_call (trunks p) = [].
Proof. induction p as [|s p IH]; simpl; [done|]. by rw List.filter_app IH. Qed.

(** Each element is shown once, in descending order. *)
Lemma drawing_calls t p_prev b :
  List.filter is_call (drawing t p_prev b).1 = calls g (rev (inorder t)).
Proof.
  revert p_prev b. induction t as [|l IHl d h r IHr]; intros p_prev b; simpl; [done|].
  pose proof (IHr ("     "%string :: p_prev) true) as Hr.
  destruct (drawing r _ true) as [es_r chain]. simpl in Hr.
  destruct (match tail chain with [] => _ | _ => _ end) as [[this_str p1] str].
  pose proof (IHl ("    |"%string :: set_str str p1) false) as Hl.
  destruct (drawing l _ false) as [es_l chain']. simpl in *.
  rw !List.filter_app Hr trunks_calls /= List.filter_app Hl rev_app_distr /= !calls_app.
  case_bool_decide; by rw /= ?app_nil_r -?app_assoc.
Qed.
End drawing.

Section display.
Context (g : ptr) (Hg : g ≠ NULL).

Lemma wp_print_trunks p w (Q : () → world → hPropI cell) :
  Q () (emits (trunks p) w) ⊢ wp (print_trunks p) w Q.
Proof.
  revert w Q. induction p as [|s p IH]; intros w Q; simpl; iIntros "HQ".
  - wp_return. by rw emits_nil.
  - wp_focus. iApply IH. iApply wp_emit. by rw emit_world_emits emits_app.
Qed.

Lemma wp_print_recursive fuel p t p_prev b w (Q : list string → world → hPropI cell) :
  (depth t < fuel)%nat →
  tree_at p t -∗
  (tree_at p t -∗ Q (drawing g t p_prev b).2 (emits (drawing g t p_prev b).1 w)) -∗
  wp (print_recursive fuel p p_prev b g) w Q.
Proof.
  revert fuel p p_prev b w Q; induction t as [|l IHl d h r IHr];
    intros fuel p p_prev b w Q Hfuel;
    (destruct fuel as [|fuel]; [lia|]); iIntros "Ht HQ"; simpl in *.
  { iDestruct "Ht" as %->. rw /=. iApply wp_ret. rw emits_nil. by iApply "HQ". }
  iDestruct "Ht" as (pl pr) "(Hp & Hl & Hr)". not_null "Hp". wp_read "Hp".
  wp_focus. iApply (IHr with "Hr"); [lia|]. iIntros "Hr".
  destruct (drawing g r ("     "%string :: p_prev) true) as [es_r chain]; cbn [fst snd].
  destruct (match tail chain with [] => _ | _ => _ end) as [[this_str p1] str].
  wp_focus. iApply (wp_print_trunks (this_str :: p1)). wp_read "Hp".
  wp_focus. iApply wp_call_user; [done|]. wp_read "Hp".
  wp_focus. iApply (IHl with "Hl"); [lia|]. iIntros "Hl".
  destruct (drawing g l ("    |"%string :: set_str str p1) false) as [es_l chain']; cbn [fst snd].
  wp_focus. rw ?emit_world_emits ?emits_app. case_bool_decide.
  - iApply wp_emit. wp_return. rw ?emit_world_emits ?emits_app -!app_assoc /=.
    iApply "HQ". iFrame.
  - wp_return. wp_return. rw app_nil_r -!app_assoc /=. iApply "HQ". iFrame.
Qed.

(** The events of a call of [avl_display_full]. *)
Definition display_events (t : tree) : list event := (drawing g t [] false).1.

Lemma wp_avl_display_full p t c f fr w (Q : () → world → hPropI cell) :
  t ≠ Leaf →
  avl_at p t c f fr MutexFree -∗
  (avl_at p t c f fr MutexFree -∗ Q () (emits (display_events t) w)) -∗
  wp (avl_display_full p g) w Q.
Proof.
  iIntros (Hleaf) "Ht HQ". iDestruct "Ht" as (root disp) "[Hp Ht]".
  unfold avl_display_full. wp_read "Hp".
  iAssert ⌜root ≠ 0⌝%I as %Hroot.
  { destruct t; [done|]. iDestruct "Ht" as (??) "(Hl & _)". iApply (pointsto_not_null with "Hl"). }
  rw (eqb_null_false _ Hroot) (eqb_null_false _ Hg) /=.
  wp_lock "Hp". wp_fuel "Ht" as n Hn. wp_read "Hp". pose proof (depth_tree_size t). wp_focus.
  iApply (wp_print_recursive with "Ht"); [lia|]. iIntros "Ht".
  wp_unlock "Hp". iApply "HQ". iFrame.
Qed.
End display.
