(* ===== verification/Fifo.v ===== *)
(** * Fifo: what a queue promises to its clients

    The libraries hold two pointer queues, the one of the level-order
    traversal of avl_tree_lib.c and linked_list_lib.c used as a queue.  The
    class states their common contract; a client proved against it works with
    either. *)

From iris.proofmode Require Import environments proofmode.
From stdpp Require Import gmap.
From S2P Require Import Prelude HProp Mem.

(** [rep q k xs]: the object at [q] holds [xs], oldest first, and has room for
    [k] more elements. *)
Class Fifo {V} (enq : ptr → ptr → M V ()) (deq : ptr → M V ptr)
    (rep : ptr → nat → list ptr → hPropI V) : Prop := {
  fifo_enq q k xs x w (Q : () → world → hPropI V) :
    x ≠ NULL → calloc_plan w = [] →
    rep q (S k) xs -∗ (rep q k (xs ++ [x]) -∗ Q () w) -∗ wp (enq q x) w Q;
  fifo_deq q k xs x w (Q : ptr → world → hPropI V) :
    rep q k (x :: xs) -∗ (rep q k xs -∗ Q x w) -∗ wp (deq q) w Q;
  fifo_deq_empty q k w (Q : ptr → world → hPropI V) :
    rep q k [] -∗ (rep q k [] -∗ Q NULL w) -∗ wp (deq q) w Q
}.

(** ** A client: fill the queue, then empty it *)

Section client.
Context {V} (enq : ptr → ptr → M V ()) (deq : ptr → M V ptr).

Fixpoint enq_all (q : ptr) (xs : list ptr) : M V () :=
  match xs with [] => mret () | x :: xs => enq q x;; enq_all q xs end.

Fixpoint deq_all (q : ptr) (n : nat) : M V (list ptr) :=
  match n with
  | O => mret []
  | S n => x ← deq q; xs ← deq_all q n; mret (x :: xs)
  end.

Context {rep : ptr → nat → list ptr → hPropI V} `{!Fifo enq deq rep}.

Lemma wp_enq_all q k xs ys w (Q : () → world → hPropI V) :
  Forall (λ x, x ≠ NULL) xs → calloc_plan w = [] →
  rep q (length xs + k) ys -∗ (rep q k (ys ++ xs) -∗ Q () w) -∗
  wp (enq_all q xs) w Q.
Proof.
  revert ys w. induction xs as [|x xs IH]; intros ys w Hxs Hw; iIntros "Hq HQ"; simpl.
  - wp_return. rw app_nil_r. by iApply "HQ".
  - apply Forall_cons in Hxs as [Hx Hxs].
    wp_focus. iApply (fifo_enq with "Hq"); [done..|]. iIntros "Hq".
    iApply (IH with "Hq"); [done..|]. by rw -app_assoc.
Qed.

Lemma wp_deq_all q k xs w (Q : list ptr → world → hPropI V) :
  rep q k xs -∗ (rep q k [] -∗ Q xs w) -∗ wp (deq_all q (length xs)) w Q.
Proof.
  revert Q. induction xs as [|x xs IH]; intros Q; iIntros "Hq HQ"; simpl.
  - wp_return. by iApply "HQ".
  - wp_focus. iApply (fifo_deq with "Hq"). iIntros "Hq".
    wp_focus. iApply (IH with "Hq"). iIntros "Hq". wp_return. by iApply "HQ".
Qed.

(** The elements come out in the order in which they went in. *)
Lemma wp_fifo_round_trip q k xs w (Q : list ptr → world → hPropI V) :
  Forall (λ x, x ≠ NULL) xs → calloc_plan w = [] →
  rep q (length xs + k) [] -∗ (rep q k [] -∗ Q xs w) -∗
  wp (enq_all q xs;; deq_all q (length xs)) w Q.
Proof.
  iIntros (Hxs Hw) "Hq HQ". wp_focus. iApply (wp_enq_all with "Hq"); [done..|].
  iIntros "Hq". by iApply (wp_deq_all with "Hq").
Qed.
End client.
