(* ===== verification/AvlTraverse.v ===== *)
(** * AvlTraverse: traversals, destruction and display of a tree object

    The depth-first traversals and the destruction call the user's function
    on the data in in-order, pre-order or post-order.  The level-order
    traversals run on a queue of nodes; [bfs] is that algorithm on a list of
    trees, with the answers of [calloc], and AvlLevels shows that it visits
    the levels in turn. *)

From iris.proofmode Require Import environments proofmode.
From stdpp Require Import gmap strings.
From S2P Require Import Prelude HProp Mem Chain Fifo Ordered AvlModel AvlFacts AvlCode.
From S2P Require Import AvlRefine AvlOps.

Open Scope Z_scope.

(** ** The queue of nodes *)

Definition queue_at (pq : ptr) (ds : list ptr) : hPropI cell :=
  (∃ hd tl, pq ↦ as_cell (Queue hd tl) ∗
    (⟪ds = [] ∧ hd = NULL ∧ tl = NULL⟫ ∨
     ∃ ds' d, ⟪ds = ds' ++ [d]⟫ ∗ chain QNode hd tl ds' ∗ tl ↦ as_cell (QNode d NULL)))%I.

(** The environment after an attempt to allocate a queue node. *)
Definition enqueue_world (w : world) : world :=
  if calloc_ok w then calloc_world w
  else errno_world 0 (emit_world (EvPerror "avl new node level order enqueue") (calloc_world w)).

Definition queue_create_world (w : world) : world :=
  if calloc_ok w then calloc_world w
  else errno_world 0 (emit_world (EvPerror "avl level order queue create calloc") (calloc_world w)).

Section queue.
Lemma wp_queue_create w (Q : ptr → world → hPropI cell) :
  (if calloc_ok w then ∀ pq, ⌜pq ≠ NULL⌝ → queue_at pq [] -∗ Q pq (calloc_world w)
   else Q NULL (queue_create_world w)) ⊢
  wp queue_create w Q.
Proof.
  iIntros "HQ". unfold queue_create, queue_create_world. wp_focus. iApply wp_calloc_struct.
  destruct (calloc_ok w).
  - iIntros (pq) "Hq". not_null "Hq". wp_return. iApply "HQ"; [done|].
    iExists NULL, NULL. iFrame. by iLeft.
  - simpl. wp_focus. iApply wp_emit. wp_focus. iApply wp_set_errno. by wp_return.
Qed.

Lemma wp_enqueue pq ds d w (Q : () → world → hPropI cell) :
  d ≠ NULL →
  queue_at pq ds -∗
  (queue_at pq (if calloc_ok w then ds ++ [d] else ds) -∗ Q () (enqueue_world w)) -∗
  wp (enqueue pq d) w Q.
Proof.
  iIntros (Hd) "Hq HQ". iDestruct "Hq" as (hd tl) "[Hq Hds]".
  unfold enqueue, enqueue_world. not_null "Hq". rw (eqb_null_false _ Hd).
  wp_focus. iApply wp_calloc_struct. destruct (calloc_ok w).
  - iIntros (n) "Hn". not_null "Hn". wp_write "Hn". wp_read "Hq".
    iDestruct "Hds" as "[%Heq|(%ds' & %x & %Heq & Hc & Hl)]".
    + destruct Heq as (-> & -> & ->). rw /=. wp_write "Hq". wp_write "Hq".
      iApply "HQ". iExists n, n. iFrame. iRight. iExists [], d. by iFrame.
    + not_null "Hl". wp_read "Hq". wp_write "Hl". wp_write "Hq".
      iApply "HQ". iExists hd, n. iFrame. iRight. iExists ds, d.
      iSplit; [done|]. iFrame. subst ds. iApply chain_snoc. iExists tl. iFrame.
  - simpl. wp_focus. iApply wp_emit. iApply wp_set_errno. iApply "HQ". iExists hd, tl. iFrame.
Qed.

Lemma wp_dequeue_empty pq w (Q : ptr → world → hPropI cell) :
  queue_at pq [] -∗ (queue_at pq [] -∗ Q NULL w) -∗ wp (dequeue pq) w Q.
Proof.
  iIntros "Hq HQ". iDestruct "Hq" as (hd tl) "[Hq Hds]". unfold dequeue. not_null "Hq".
  iDestruct "Hds" as "[%Heq|(%ds' & %x & %Heq & Hc)]"; [|by destruct ds'].
  destruct Heq as (_ & -> & ->). wp_read "Hq". rw /=. wp_return.
  iApply "HQ". iExists NULL, NULL. iFrame. by iLeft.
Qed.

Lemma wp_dequeue pq d ds w (Q : ptr → world → hPropI cell) :
  queue_at pq (d :: ds) -∗ (queue_at pq ds -∗ Q d w) -∗ wp (dequeue pq) w Q.
Proof.
  iIntros "Hq HQ". iDestruct "Hq" as (hd tl) "[Hq Hds]". unfold dequeue. not_null "Hq".
  iDestruct "Hds" as "[%Heq|(%ds' & %x & %Heq & Hc & Hl)]"; [by destruct Heq|].
  destruct ds' as [|d' ds']; injection Heq as -> ->; simpl.
  - iDestruct "Hc" as %->. wp_read "Hq". not_null "Hl". wp_read "Hq". wp_read "Hl".
    wp_read "Hq". wp_read "Hq". rw Z.eqb_refl. wp_focus. wp_write "Hq". wp_write "Hq".
    wp_dealloc "Hl". wp_return. iApply "HQ". iExists NULL, NULL. iFrame. by iLeft.
  - iDestruct "Hc" as (nx) "[Hh Hc]". wp_read "Hq". not_null "Hh". wp_read "Hq". wp_read "Hh".
    wp_read "Hq". wp_read "Hq". destruct (hd =? tl) eqn:E; zbool.
    { subst. by iDestruct (pointsto_exclusive with "Hh Hl") as %[]. }
    wp_focus. wp_read "Hq". wp_read "Hh". wp_write "Hq". wp_dealloc "Hh". wp_return.
    iApply "HQ". iExists nx, tl. iFrame. iRight. iExists ds', x. by iFrame.
Qed.

Lemma wp_queue_is_empty pq ds w (Q : bool → world → hPropI cell) :
  queue_at pq ds -∗ (queue_at pq ds -∗ Q (bool_decide (ds = [])) w) -∗
  wp (queue_is_empty pq) w Q.
Proof.
  iIntros "Hq HQ". iDestruct "Hq" as (hd tl) "[Hq Hds]". unfold queue_is_empty. wp_read "Hq".
  wp_return. iDestruct "Hds" as "[%Heq|(%ds' & %x & %Heq & Hc & Hl)]".
  - destruct Heq as (-> & -> & ->). iApply "HQ". iExists NULL, NULL. iFrame. by iLeft.
  - iAssert ⌜hd ≠ 0⌝%I as %Hhd.
    { destruct ds' as [|d' ds']; simpl.
      - iDestruct "Hc" as %->. iApply (pointsto_not_null with "Hl").
      - iDestruct "Hc" as (nx) "[Hh _]". iApply (pointsto_not_null with "Hh"). }
    rw (eqb_null_false _ Hhd) (bool_decide_eq_false_2 (ds = [])); [|by subst; destruct ds'].
    iApply "HQ". iExists hd, tl. iFrame. iRight. iExists ds', x. by iFrame.
Qed.

Lemma wp_queue_drain fuel pq ds w (Q : () → world → hPropI cell) :
  (length ds < fuel)%nat →
  queue_at pq ds -∗ (queue_at pq [] -∗ Q () w) -∗ wp (queue_drain fuel pq) w Q.
Proof.
  revert fuel. induction ds as [|d ds IH]; intros fuel Hfuel;
    (destruct fuel as [|fuel]; [simpl in *; lia|]); iIntros "Hq HQ"; simpl.
  - wp_focus. iApply (wp_queue_is_empty with "Hq"). iIntros "Hq". wp_return. by iApply "HQ".
  - wp_focus. iApply (wp_queue_is_empty with "Hq"). iIntros "Hq".
    rw bool_decide_eq_false_2 //. wp_focus. iApply (wp_dequeue with "Hq"). iIntros "Hq".
    iApply (IH with "Hq HQ"). simpl in *; lia.
Qed.

Lemma wp_queue_destroy pq w (Q : () → world → hPropI cell) :
  queue_at pq [] -∗ Q () w -∗ wp (queue_destroy pq) w Q.
Proof.
  iIntros "Hq HQ". iDestruct "Hq" as (hd tl) "[Hq Hds]". unfold queue_destroy. not_null "Hq".
  wp_focus. iApply (wp_heap_fuel 0 emp%I w with "[//]"); [by intros; lia|].
  iIntros (n Hn) "_".
  wp_focus. iApply (wp_queue_drain n pq [] with "[Hq Hds]"); [simpl; lia|iExists hd, tl; iFrame|].
  iIntros "Hq". iDestruct "Hq" as (hd' tl') "[Hq Hds]".
  iDestruct "Hds" as "[%|(%ds' & %x & %Heq & Hc)]"; [|by destruct ds'].
  by iApply (wp_free with "Hq").
Qed.
End queue.

(** The level-order queue keeps the contract of the file Fifo. *)
#[export] Instance queue_fifo : Fifo enqueue dequeue (λ q _ ds, queue_at q ds).
Proof.
  split.
  - iIntros (q k xs x w Q Hx Hw) "Hq HQ". iApply (wp_enqueue with "Hq"); [done|].
    apply calloc_plan_nil in Hw as [Hok Hw]. unfold enqueue_world. by rw Hok Hw.
  - intros. apply wp_dequeue.
  - intros. apply wp_dequeue_empty.
Qed.

(** ** The level-order loop *)

Definition trees_at (ds : list ptr) (ts : list tree) : hPropI cell :=
  ([∗ list] d;t ∈ ds;ts, tree_at d t)%I.

Lemma trees_at_nil : trees_at [] [] ⊣⊢ emp.
Proof. done. Qed.
Lemma trees_at_one d t : trees_at [d] [t] ⊣⊢ tree_at d t.
Proof. unfold trees_at. by rw big_sepL2_singleton. Qed.

(** Enqueue a child, if there is one and its queue node can be allocated. *)
Definition enq_tree (t : tree) (s : list tree * world) : list tree * world :=
  match t with
  | Leaf => s
  | Node _ _ _ _ => (if calloc_ok s.2 then s.1 ++ [t] else s.1, enqueue_world s.2)
  end.

(** The environment after the loop on a queue of trees; [ev d] is the call
    made for the data [d]. *)
Fixpoint bfs (ev : ptr → event) (fuel : nat) (q : list tree) (w : world) : world :=
  match fuel with
  | O => w
  | S fuel =>
    match q with
    | [] => w
    | Leaf :: q => bfs ev fuel q w
    | Node l d _ r :: q =>
        let '(q', w') := enq_tree r (enq_tree l (q, emit_world (ev d) w)) in bfs ev fuel q' w'
    end
  end.

Fixpoint queue_size (q : list tree) : nat :=
  match q with [] => O | t :: q => (tree_size t + queue_size q)%nat end.

Lemma queue_size_app q q' : queue_size (q ++ q') = (queue_size q + queue_size q')%nat.
Proof. induction q as [|t q IH]; simpl; lia. Qed.

Lemma enq_tree_size t q w :
  (queue_size (enq_tree t (q, w)).1 ≤ queue_size q + tree_size t)%nat.
Proof.
  destruct t as [|l d h r]; simpl; [lia|].
  destruct (calloc_ok w); simpl; [|lia]. rw queue_size_app /=. lia.
Qed.

Lemma enq_tree_nodes t q w :
  Forall (λ t, t ≠ Leaf) q → Forall (λ t, t ≠ Leaf) (enq_tree t (q, w)).1.
Proof.
  intros Hq. destruct t as [|l d h r]; simpl; [done|]. destruct (calloc_ok w); simpl; [|done].
  apply Forall_app; split; [done|]. by repeat constructor.
Qed.

Section level.
Context (visit : ptr → prog ()) (ev : ptr → event).
Context (Hvisit : ∀ d w (Q : () → world → hPropI cell),
  Q () (emit_world (ev d) w) ⊢ wp (visit d) w Q).

Lemma wp_enq_child pq n nd (fld : avl_node → ptr) t ds ts (R : hPropI cell) w
    (Q : () → world → hPropI cell) :
  n ↦ as_cell nd -∗ tree_at (fld nd) t -∗ queue_at pq ds -∗ trees_at ds ts -∗
  (trees_at ds ts -∗ R) -∗
  (∀ ds', n ↦ as_cell nd -∗ queue_at pq ds' -∗ trees_at ds' (enq_tree t (ts, w)).1 -∗
     (trees_at ds' (enq_tree t (ts, w)).1 -∗ R ∗ tree_at (fld nd) t) -∗
     Q () (enq_tree t (ts, w)).2) -∗
  wp (if fld nd =? NULL then mret () else c ← get fld n; enqueue pq c) w Q.
Proof.
  iIntros "Hn Ht Hq Hts HR HQ". destruct t as [|l d h r].
  - iDestruct "Ht" as %E. rw E /=. wp_return.
    iApply ("HQ" with "Hn Hq Hts"). iIntros "Hts". iSplitL; [by iApply "HR"|done].
  - iAssert ⌜fld nd ≠ 0⌝%I as %Hne.
    { iDestruct "Ht" as (??) "(Hl & _)". iApply (pointsto_not_null with "Hl"). }
    rw (eqb_null_false _ Hne). wp_read "Hn". iApply (wp_enqueue with "Hq"); [done|].
    iIntros "Hq". cbn [enq_tree fst snd]. destruct (calloc_ok w).
    + iApply ("HQ" with "Hn Hq [Hts Ht]").
      * iApply (big_sepL2_app with "Hts"). iApply big_sepL2_singleton. iFrame.
      * iIntros "Hts". iDestruct (big_sepL2_snoc with "Hts") as "[Hts $]". by iApply "HR".
    + iApply ("HQ" with "Hn Hq Hts"). iIntros "Hts". iFrame "Ht". by iApply "HR".
Qed.

Lemma wp_level_loop fuel pq ds ts (R : hPropI cell) w (Q : () → world → hPropI cell) :
  Forall (λ t, t ≠ Leaf) ts → (queue_size ts < fuel)%nat →
  queue_at pq ds -∗ trees_at ds ts -∗ (trees_at ds ts -∗ R) -∗
  (queue_at pq [] -∗ R -∗ Q () (bfs ev fuel ts w)) -∗
  wp (level_loop visit fuel pq) w Q.
Proof.
  revert ds ts R w Q. induction fuel as [|fuel IH]; intros ds ts R w Q Hts Hfuel; [lia|].
  iIntros "Hq Hts HR HQ". simpl. wp_focus. iApply (wp_queue_is_empty with "Hq"). iIntros "Hq".
  destruct ds as [|p ds].
  { iDestruct (big_sepL2_nil_inv_l with "Hts") as %->. wp_return.
    iApply ("HQ" with "Hq"). by iApply "HR". }
  iDestruct (big_sepL2_cons_inv_l with "Hts") as (t ts' ->) "[Ht Hts]".
  apply Forall_cons in Hts as [Hleaf Hts]. destruct t as [|l d h r]; [done|].
  rw bool_decide_eq_false_2 //. unfold level_visit.
  wp_focus. wp_focus. iApply (wp_dequeue with "Hq"). iIntros "Hq".
  iDestruct "Ht" as (pl pr) "(Hp & Hl & Hr)". wp_read "Hp". wp_focus. iApply Hvisit.
  wp_read "Hp". wp_focus.
  iApply (wp_enq_child pq p _ p_left l ds ts' (trees_at ds ts')%I with "Hp Hl Hq Hts []").
  { by iIntros "$". }
  iIntros (ds1) "Hp Hq Hts Hc". wp_read "Hp". wp_focus.
  iApply (wp_enq_child pq p _ p_right r ds1 _ _ with "Hp Hr Hq Hts Hc").
  iIntros (ds2) "Hp Hq Hts Hc". simpl in Hfuel.
  destruct (enq_tree l (ts', emit_world (ev d) w)) as [ts1 w1] eqn:E1. cbn [fst snd].
  destruct (enq_tree r (ts1, w1)) as [ts2 w2] eqn:E2. cbn [fst snd].
  pose proof (enq_tree_size l ts' (emit_world (ev d) w)) as S1. rw E1 in S1.
  pose proof (enq_tree_size r ts1 w1) as S2. rw E2 in S2.
  pose proof (enq_tree_nodes l ts' (emit_world (ev d) w) Hts) as N1. rw E1 in N1.
  pose proof (enq_tree_nodes r ts1 w1 N1) as N2. rw E2 in N2.
  simpl in *.
  iApply (IH with "Hq Hts [HR Hc Hp] HQ"); [done|lia|].
  iIntros "Hts". iDestruct ("Hc" with "Hts") as "[[Hts Hl] Hr]". iApply "HR". iFrame.
Qed.
End level.

(** More fuel than nodes changes nothing. *)
Lemma bfs_fuel ev n n' q w :
  Forall (λ t, t ≠ Leaf) q → (queue_size q < n)%nat → (queue_size q < n')%nat →
  bfs ev n q w = bfs ev n' q w.
Proof.
  revert n' q w. induction n as [|n IH]; intros n' q w Hq Hn Hn'; [lia|].
  destruct n' as [|n']; [lia|]. destruct q as [|[|l d h r] q]; simpl; [done|..];
    apply Forall_cons in Hq as [Hleaf Hq]; [done|].
  destruct (enq_tree l (q, emit_world (ev d) w)) as [q1 w1] eqn:E1.
  destruct (enq_tree r (q1, w1)) as [q2 w2] eqn:E2.
  pose proof (enq_tree_size l q (emit_world (ev d) w)) as S1. rw E1 in S1.
  pose proof (enq_tree_size r q1 w1) as S2. rw E2 in S2.
  pose proof (enq_tree_nodes l q (emit_world (ev d) w) Hq) as N1. rw E1 in N1.
  pose proof (enq_tree_nodes r q1 w1 N1) as N2. rw E2 in N2.
  simpl in *. apply IH; [done|lia|lia].
Qed.

(** The environment after the loop from the root of [t], the queue object
    being allocated. *)
Definition level_world (ev : ptr → event) (t : tree) (w : world) : world :=
  let '(q, w') := enq_tree t ([], calloc_world w) in bfs ev (S (tree_size t)) q w'.

Section objects.
Context (p : ptr) (Hp : p ≠ NULL) (c f fr : Z).
Implicit Types (Q : () → world → hPropI cell).

Ltac start :=
  iIntros "Ht HQ"; iDestruct "Ht" as (root disp) "[Hp Ht]".
Ltac locked :=
  wp_lock "Hp"; let n := fresh "n" in let Hn := fresh "Hn" in
  wp_fuel "Ht" as n Hn; wp_read "Hp".
Ltac bound t := pose proof (depth_tree_size t).

Lemma wp_inorder_section t mx g w Q :
  g ≠ NULL →
  avl_at p t c f fr mx -∗
  (avl_at p t c f fr mx -∗ Q () (emits (calls g (inorder t)) w)) -∗
  wp (inorder_section p g) w Q.
Proof.
  intros Hg. start. unfold inorder_section. wp_fuel "Ht" as n Hn. wp_read "Hp". bound t.
  iApply (wp_avl_inorder_action with "Ht"); [done|lia|]. iIntros "Ht". iApply "HQ". iFrame.
Qed.

Lemma wp_avl_inorder t g w Q :
  g ≠ NULL →
  avl_at p t c f fr MutexFree -∗
  (avl_at p t c f fr MutexFree -∗ Q () (emits (calls g (inorder t)) w)) -∗
  wp (avl_inorder p g) w Q.
Proof.
  iIntros (Hg) "Ht HQ". unfold avl_inorder.
  rw (eqb_null_false _ Hp) (eqb_null_false _ Hg) /=.
  wp_focus. iApply (wp_lock_tree with "Ht"). iIntros "Ht".
  wp_focus. iApply (wp_inorder_section with "Ht"); [done|]. iIntros "Ht".
  iApply (wp_unlock_tree with "Ht"). iIntros "Ht". by iApply "HQ".
Qed.

Lemma wp_avl_pre_order t g w Q :
  g ≠ NULL →
  avl_at p t c f fr MutexFree -∗
  (avl_at p t c f fr MutexFree -∗ Q () (emits (calls g (preorder t) ++ [EvPrint newline]) w)) -∗
  wp (avl_pre_order p g) w Q.
Proof.
  intros Hg. start. unfold avl_pre_order.
  rw (eqb_null_false _ Hp) (eqb_null_false _ Hg) /=. locked. bound t. wp_focus.
  iApply (wp_avl_pre_order_action with "Ht"); [done|lia|]. iIntros "Ht".
  wp_focus. iApply wp_emit. rw emit_world_emits emits_app.
  wp_unlock "Hp". iApply "HQ". iFrame.
Qed.

Lemma wp_avl_post_order t g w Q :
  g ≠ NULL →
  avl_at p t c f fr MutexFree -∗
  (avl_at p t c f fr MutexFree -∗ Q () (emits (calls g (postorder t) ++ [EvPrint newline]) w)) -∗
  wp (avl_post_order p g) w Q.
Proof.
  intros Hg. start. unfold avl_post_order.
  rw (eqb_null_false _ Hp) (eqb_null_false _ Hg) /=. locked. bound t. wp_focus.
  iApply (wp_avl_post_order_action with "Ht"); [done|lia|]. iIntros "Ht".
  wp_focus. iApply wp_emit. rw emit_world_emits emits_app.
  wp_unlock "Hp". iApply "HQ". iFrame.
Qed.

(** Destruction frees every node and the object, and clears the caller's pointer. *)
Lemma wp_destroy_avl_tree pp t w Q :
  fr ≠ NULL →
  avl_at p t c f fr MutexFree -∗ pp ↦ as_cell (p : ptr) -∗
  (pp ↦ as_cell (NULL : ptr) -∗ Q () (emits (calls fr (postorder t)) w)) -∗
  wp (destroy_avl_tree pp) w Q.
Proof.
  iIntros (Hfr) "Ht Hpp HQ". iDestruct "Ht" as (root disp) "[Hp Ht]".
  unfold destroy_avl_tree. not_null "Hpp". wp_read "Hpp". rw (eqb_null_false _ Hp).
  locked. wp_read "Hp". bound t. wp_focus.
  iApply (wp_destroy_avl_node with "Ht"); [done|lia|].
  wp_unlock "Hp". wp_focus. iApply (wp_mutex_destroy with "Hp"); [done|]. iIntros "Hp".
  wp_dealloc "Hp". by iApply (wp_set with "Hpp").
Qed.

(** The queue is created, filled with the root, run and destroyed. *)
Lemma wp_level_body visit ev root t (k : prog ()) w Q :
  (∀ d w (Q : () → world → hPropI cell), Q () (emit_world (ev d) w) ⊢ wp (visit d) w Q) →
  t ≠ Leaf → calloc_ok w = true → ∀ pq, pq ≠ NULL →
  tree_at root t -∗ queue_at pq [] -∗
  (tree_at root t -∗ queue_at pq [] -∗ wp k (level_world ev t w) Q) -∗
  wp (enqueue pq root;; fuel ← heap_fuel; level_loop visit fuel pq;; k) (calloc_world w) Q.
Proof.
  iIntros (Hv Hleaf Hok pq Hpq) "Ht Hq HQ".
  iAssert ⌜root ≠ 0⌝%I as %Hroot.
  { destruct t; [done|]. iDestruct "Ht" as (??) "(Hl & _)". iApply (pointsto_not_null with "Hl"). }
  wp_focus. iApply (wp_enqueue with "Hq"); [done|]. iIntros "Hq". wp_fuel "Ht" as n Hn.
  assert (level_world ev t w = bfs ev n (if calloc_ok (calloc_world w) then [t] else [])
    (enqueue_world (calloc_world w))) as E.
  { unfold level_world. destruct t as [|l d h r]; [done|]. cbn [enq_tree fst snd].
    destruct (calloc_ok (calloc_world w)); (apply bfs_fuel; [by repeat constructor|..]); simpl in *; lia. }
  rw E. destruct (calloc_ok (calloc_world w)); wp_focus.
  - iApply (wp_level_loop visit ev Hv n pq [root] [t] (tree_at root t) with "Hq [Ht]");
      [by repeat constructor|simpl; lia|by iApply trees_at_one| |].
    { iIntros "Hts". by iApply trees_at_one. }
    iIntros "Hq Ht". iApply ("HQ" with "Ht Hq").
  - iApply (wp_level_loop visit ev Hv n pq [] [] (tree_at root t) with "Hq [] [Ht]");
      [done|simpl; lia|by iApply trees_at_nil| |].
    { iIntros "Hts". by iDestruct (trees_at_nil with "Hts") as "_". }
    iIntros "Hq Ht". iApply ("HQ" with "Ht Hq").
Qed.

(** The mutex may be in any state: [avl_level_order] does not look at it. *)
Lemma wp_avl_level_order mx t g w Q :
  g ≠ NULL → t ≠ Leaf →
  avl_at p t c f fr mx -∗
  (avl_at p t c f fr mx -∗
   Q () (if calloc_ok w then level_world (λ d, EvCall g [d]) t w else queue_create_world w)) -∗
  wp (avl_level_order p g) w Q.
Proof.
  intros Hg Hleaf. start. unfold avl_level_order. rw (eqb_null_false _ Hp). wp_read "Hp".
  iAssert ⌜root ≠ 0⌝%I as %Hroot.
  { destruct t; [done|]. iDestruct "Ht" as (??) "(Hl & _)". iApply (pointsto_not_null with "Hl"). }
  rw (eqb_null_false _ Hroot) (eqb_null_false _ Hg) /=.
  wp_focus. iApply wp_queue_create. destruct (calloc_ok w) eqn:Hok.
  - iIntros (pq Hpq) "Hq". rw (eqb_null_false _ Hpq). wp_read "Hp".
    iApply (wp_level_body _ (λ d, EvCall g [d]) with "Ht Hq"); try done.
    { intros. by apply wp_call_user. }
    iIntros "Ht Hq". iApply (wp_queue_destroy with "Hq"). iApply "HQ". iFrame.
  - rw /=. wp_return. iApply "HQ". iFrame.
Qed.

Definition fopen_event (name h : ptr) (w : world) : world :=
  emit_world (EvOpen name "wb" h) (fopen_world w).

Lemma wp_fopen name mode w (R : ptr → world → hPropI cell) :
  R (fopen_handle w) (emit_world (EvOpen name mode (fopen_handle w)) (fopen_world w)) ⊢
  wp (fopen name mode) w R.
Proof. split; intros m HQ mf Hd. by eexists _, m, _. Qed.

(** What [write_avl_tree_to_file] does to the environment. *)
Definition write_world (name g : ptr) (t : tree) (w : world) : world :=
  let h := fopen_handle w in
  let w1 := fopen_event name h w in
  if h =? NULL then errno_world 0 (emit_world (EvPerror "fopen out file") w1)
  else if calloc_ok w1
  then emit_world (EvClose h) (level_world (λ d, EvCall g [d; h]) t w1)
  else emit_world (EvClose h) (queue_create_world w1).

Lemma wp_write_avl_tree_to_file t name g w Q :
  g ≠ NULL → name ≠ NULL → t ≠ Leaf →
  avl_at p t c f fr MutexFree -∗
  (avl_at p t c f fr MutexFree -∗ Q () (write_world name g t w)) -∗
  wp (write_avl_tree_to_file p name g) w Q.
Proof.
  intros Hg Hname Hleaf. start. unfold write_avl_tree_to_file, write_world.
  rw (eqb_null_false _ Hp). wp_read "Hp".
  iAssert ⌜root ≠ 0⌝%I as %Hroot.
  { destruct t; [done|]. iDestruct "Ht" as (??) "(Hl & _)". iApply (pointsto_not_null with "Hl"). }
  rw (eqb_null_false _ Hroot) (eqb_null_false _ Hname) /=.
  wp_focus. iApply wp_fopen. fold (fopen_event name (fopen_handle w) w).
  destruct (fopen_handle w =? NULL) eqn:Hh.
  { wp_focus. iApply wp_emit. iApply wp_set_errno. iApply "HQ". iFrame. }
  wp_lock "Hp". wp_focus. iApply wp_queue_create.
  destruct (calloc_ok (fopen_event name (fopen_handle w) w)) eqn:Hok.
  - iIntros (pq Hpq) "Hq". rw (eqb_null_false _ Hpq). wp_read "Hp".
    iApply (wp_level_body _ (λ d, EvCall g [d; fopen_handle w]) with "Ht Hq"); try done.
    { intros. by apply wp_call_user. }
    iIntros "Ht Hq". wp_unlock "Hp". wp_focus. iApply (wp_queue_destroy with "Hq").
    iApply wp_emit. iApply "HQ". iFrame.
  - rw /=. wp_focus. iApply wp_emit. wp_unlock "Hp". iApply "HQ". iFrame.
Qed.
End objects.
