(* ===== verification/AvlLevels.v ===== *)
(** * AvlLevels: the queue algorithm visits the levels of the tree in turn *)

From stdpp Require Import list.
From S2P Require Import Prelude Mem AvlModel AvlTraverse.
Local Open Scope nat_scope.

(** The data at depth [n], from left to right. *)
Fixpoint level (n : nat) (t : tree) : list ptr :=
  match t, n with
  | Leaf, _ => []
  | Node _ d _ _, O => [d]
  | Node l _ _ r, S n => level n l ++ level n r
  end.

(** The reference: level after level. *)
Definition level_order (t : tree) : list ptr := concat (map (λ n, level n t) (seq 0 (depth t))).

(** ** The queue algorithm on lists, every allocation succeeding *)

Definition node_of (t : tree) : list tree := match t with Leaf => [] | _ => [t] end.
Definition kids_of (t : tree) : list tree :=
  match t with Leaf => [] | Node l _ _ r => node_of l ++ node_of r end.
Definition root_of (t : tree) : list ptr := match t with Leaf => [] | Node _ d _ _ => [d] end.

Fixpoint bfs_list (fuel : nat) (q : list tree) : list ptr :=
  match fuel, q with
  | S fuel, Node l d _ r :: q => d :: bfs_list fuel (q ++ node_of l ++ node_of r)
  | S fuel, Leaf :: q => bfs_list fuel q
  | _, _ => []
  end.

Abbreviation nodes q := (Forall (λ t, t ≠ Leaf) q).

Lemma enq_tree_ok t q w : calloc_plan w = [] → enq_tree t (q, w) = (q ++ node_of t, w).
Proof.
  intros [Hok Hw]%calloc_plan_nil. destruct t; simpl; [by rewrite app_nil_r|].
  unfold enqueue_world. by rewrite Hok, Hw.
Qed.

Lemma bfs_bfs_list ev fuel q w :
  calloc_plan w = [] → bfs ev fuel q w = emits (map ev (bfs_list fuel q)) w.
Proof.
  revert q w. induction fuel as [|fuel IH]; intros q w Hw; [by rewrite emits_nil|].
  destruct q as [|[|l d h r] q]; cbn [bfs bfs_list]; [by rewrite emits_nil|by apply IH|].
  rewrite !enq_tree_ok by done. rewrite IH by done.
  rewrite emit_world_emits, emits_app. simpl. by rewrite app_assoc.
Qed.

(** One whole level at a time. *)
Lemma bfs_list_level q1 q2 n :
  nodes q1 → length q1 ≤ n →
  bfs_list n (q1 ++ q2) =
    concat (map root_of q1) ++ bfs_list (n - length q1) (q2 ++ concat (map kids_of q1)).
Proof.
  revert q2 n. induction q1 as [|[|l d h r] q1 IH]; intros q2 n Hq Hn; simpl.
  - by rewrite app_nil_r, Nat.sub_0_r.
  - by apply Forall_cons in Hq as [? _].
  - apply Forall_cons in Hq as [_ Hq]. simpl in Hn. destruct n as [|n]; [lia|]. simpl.
    rewrite <-!app_assoc, IH by (done || lia). by rewrite <-!app_assoc.
Qed.

Lemma level_root q : concat (map root_of q) = concat (map (level 0) q).
Proof. induction q as [|[] q IH]; simpl; [done..|]. by rewrite IH. Qed.

Lemma level_node_of n t : concat (map (level n) (node_of t)) = level n t.
Proof. destruct t; simpl; [by destruct n|by rewrite app_nil_r]. Qed.

Lemma level_kids_of n t : concat (map (level n) (kids_of t)) = level (S n) t.
Proof.
  destruct t as [|l d h r]; [done|]. cbn [kids_of level].
  by rewrite map_app, concat_app, !level_node_of.
Qed.

Lemma level_kids n q :
  concat (map (level (S n)) q) = concat (map (level n) (concat (map kids_of q))).
Proof.
  induction q as [|t q IH]; [done|]. cbn [map concat].
  by rewrite IH, map_app, concat_app, level_kids_of.
Qed.

Lemma kids_nodes q : nodes (concat (map kids_of q)).
Proof.
  induction q as [|[|l d h r] q IH]; simpl; [constructor|done|].
  rewrite !Forall_app. split; [|done]. split; [destruct l|destruct r]; by repeat constructor.
Qed.

Lemma kids_size q :
  nodes q → (length q + queue_size (concat (map kids_of q)) = queue_size q)%nat.
Proof.
  induction q as [|[|l d h r] q IH]; simpl; [done|by intros [? _]%Forall_cons|].
  intros [_ Hq]%Forall_cons. specialize (IH Hq). rewrite !queue_size_app.
  destruct l, r; simpl; lia.
Qed.

Lemma kids_depth q k :
  Forall (λ t, depth t ≤ S k) q → Forall (λ t, depth t ≤ k) (concat (map kids_of q)).
Proof.
  induction q as [|[|l d h r] q IH]; simpl; [constructor|by intros [_ ?]%Forall_cons; auto|].
  intros [Hd Hq]%Forall_cons. rewrite !Forall_app. simpl in Hd.
  split; [|by apply IH]. split; [destruct l|destruct r]; repeat constructor; simpl in *; lia.
Qed.

Lemma bfs_list_levels k q n :
  nodes q → Forall (λ t, depth t ≤ k) q → (queue_size q < n)%nat →
  bfs_list n q = concat (map (λ i, concat (map (level i) q)) (seq 0 k)).
Proof.
  revert q n. induction k as [|k IH]; intros q n Hq Hd Hn; simpl.
  - destruct q as [|t q]; [by destruct n|]. apply Forall_cons in Hq as [Ht _].
    apply Forall_cons in Hd as [Hd _]. destruct t; [done|]. simpl in Hd. lia.
  - pose proof (kids_size q Hq) as Hs.
    rewrite <-(app_nil_r q) at 1. rewrite bfs_list_level by (done || lia). simpl.
    rewrite (IH _ (n - length q)) by (apply kids_nodes || by apply kids_depth || lia).
    rewrite level_root, <-seq_shift, map_map. f_equal. f_equal. apply map_ext. intros i.
    by rewrite level_kids.
Qed.

(** The level-order traversal, when no allocation fails. *)
Lemma level_world_levels ev t w :
  t ≠ Leaf → calloc_plan w = [] → level_world ev t w = emits (map ev (level_order t)) w.
Proof.
  intros Ht Hw. unfold level_world. destruct (calloc_plan_nil w Hw) as [_ Hid].
  rewrite enq_tree_ok by (by rewrite Hid). rewrite Hid, bfs_bfs_list by done. f_equal. f_equal.
  rewrite (bfs_list_levels (depth t)).
  - unfold level_order. f_equal. apply map_ext. intros i. destruct t; [done|]. simpl node_of.
    cbn [app map concat]. by rewrite app_nil_r.
  - destruct t; by repeat constructor.
  - destruct t; [done|]. by repeat constructor.
  - destruct t; [done|]. simpl. lia.
Qed.

(** Every element is visited exactly once. *)
Lemma level_deep n t : depth t ≤ n → level n t = [].
Proof.
  revert n. induction t as [|l IHl d h r IHr]; intros n Hn; [by destruct n|].
  simpl in Hn. destruct n as [|n]; [lia|]. simpl. by rewrite IHl, IHr by lia.
Qed.

Lemma levels_inorder k t :
  depth t ≤ k → concat (map (λ n, level n t) (seq 0 k)) ≡ₚ inorder t.
Proof.
  revert k. induction t as [|l IHl d h r IHr]; intros k Hk.
  - simpl. clear Hk. induction (seq 0 k) as [|i js IH]; simpl; [done|]. by destruct i.
  - simpl in Hk. destruct k as [|k]; [lia|]. simpl.
    rewrite <-seq_shift, map_map, <-Permutation_middle. f_equiv.
    rewrite <-(IHl k), <-(IHr k) by lia.
    generalize (seq 0 k). intros js. induction js as [|i js IH]; simpl; [done|].
    rewrite IH. solve_Permutation.
Qed.

Lemma level_order_inorder t : level_order t ≡ₚ inorder t.
Proof. by apply levels_inorder. Qed.
