(* ===== verification/AvlSet.v ===== *)
(** * AvlSet: the tree object is an ordered set

    The operations of avl_tree_lib.c keep the contract of the file OrderedSet,
    for clients that insert only new elements, in any order of insertions,
    deletions, searches, counts and in-order walks.  [avl_session] is the whole life of a tree. *)

From iris.proofmode Require Import environments proofmode.
From stdpp Require Import gmap strings.
From S2P Require Import Prelude HProp Mem Ordered OrderedSet AvlModel AvlFacts AvlReach.
From S2P Require Import AvlCode AvlRefine AvlOps AvlDelete AvlTraverse.

Open Scope Z_scope.

Definition in_range (t : tree) (k : nat) (xs : list ptr) : Prop :=
  wf t ∧ ht t + Z.of_nat k < INT_MAX - 3 ∧ Z.of_nat (length xs) + Z.of_nat k < INT_MAX.

Section set.
Context (cmp_env : ptr → ptr → ptr → Z) (f fr : ptr) (Hf : f ≠ NULL) (Hfr : fr ≠ NULL).
Context `{Hcmp : !CmpLaws (cmp_env f)}.

(** The call that releases an element. *)
Definition freed (d : ptr) : event := EvCall fr [d].

(** A tree object that holds [xs]; its [count] is the number of elements. *)
Definition avl_set (mx : mutex) (p : ptr) (k : nat) (xs : list ptr) : hPropI cell :=
  (∃ t, ⟪p ≠ NULL ∧ inorder t = xs ∧ sorted (cmp_env f) xs ∧ in_range t k xs⟫ ∗
        avl_at p t (Z.of_nat (length xs)) f fr mx)%I.

(** The critical sections keep the contract, whatever the state of the mutex. *)
#[export] Instance sections_ordered_set mx :
  OrderedSet (cmp_env f) (insert_section cmp_env) (delete_section cmp_env) (search_section cmp_env)
    inorder_section count_section freed (avl_set mx).
Proof.
  split.
  - iIntros (p k xs d w Q Hd Hw Hnew) "(%t & %Heq & Ht) HQ".
    destruct Heq as (Hp & <- & Hs & Hwf & Hht & Hlen).
    apply calloc_plan_nil in Hw as [Hok Hw].
    assert (path_finds (cmp_env f) d t = false) as Hpath.
    { rw path_finds_inorder //. apply bool_decide_eq_false. by apply eq_None_not_Some. }
    destruct (ins_tree_wf (cmp_env f) d t) as (t' & Ht' & _ & Hwf' & Hht'); [done|lia|done..|].
    pose proof (ins_tree_inorder _ _ _ _ Hs Ht') as Hin.
    pose proof (Permutation_length (list_insert_perm _ _ _ Hnew)) as Hlen'. simpl in Hlen'.
    iApply (wp_insert_section with "Ht"); try done.
    { apply int_range_true. unfold INT_MIN in *. lia. }
    { by rw Hok. }
    rw Hpath /insert_world /new_node_world Hok Hw. iIntros "Ht". iApply "HQ".
    iExists t'. rw Hlen' Hin Nat2Z.inj_succ. iFrame. iPureIntro. unfold in_range.
    rw Hlen'. split_and!; [done|done|by apply sorted_list_insert|done|lia|lia].
  - iIntros (p k xs d w Q Hd) "(%t & %Heq & Ht) HQ".
    destruct Heq as (Hp & <- & Hs & Hwf & Hht & Hlen).
    destruct (del_tree_wf (cmp_env f) d t) as (t' & res & Ht' & Hwf' & Hht'); [done|lia|].
    pose proof (del_tree_inorder _ _ _ _ _ Hs Ht') as [Hin ->].
    pose proof (Permutation_length (list_delete_perm (cmp_env f) d (inorder t))) as Hlen'.
    rw length_app in Hlen'.
    iApply (wp_delete_section with "Ht"); try done.
    { apply int_range_true. unfold INT_MIN in *. lia. }
    iIntros "Ht".
    assert (sorted (cmp_env f) (list_delete (cmp_env f) d (inorder t))) as Hs'
      by by apply sorted_list_delete.
    destruct (list_search (cmp_env f) d (inorder t)); simpl in *; iApply "HQ"; iExists t'.
    + replace (Z.of_nat (length (list_delete _ _ _))) with (Z.of_nat (length (inorder t)) - 1) by lia.
      iFrame. iPureIntro. split_and!; try done. unfold in_range. split_and!; [done|lia|lia].
    + rw Hlen'. iFrame. iPureIntro. split_and!; try done. unfold in_range. split_and!; [done|lia|lia].
  - iIntros (p k xs d w Q Hd) "(%t & %Heq & Ht) HQ".
    destruct Heq as (Hp & <- & Hs & Hr).
    iApply (wp_search_section with "Ht"); [done..|]. rw search_tree_inorder //. iIntros "Ht".
    iApply "HQ". iExists t. by iFrame.
  - iIntros (p k xs g w Q Hg) "(%t & %Heq & Ht) HQ". destruct Heq as (Hp & <- & Hs & Hr).
    iApply (wp_inorder_section with "Ht"); [done..|]. iIntros "Ht". iApply "HQ". iExists t. by iFrame.
  - iIntros (p k xs w Q) "(%t & %Heq & Ht) HQ". destruct Heq as (Hp & <- & Hs & Hr).
    iApply (wp_count_section with "Ht").
    { rw node_count_length. destruct Hr as (_ & _ & Hlen). lia. }
    rw node_count_length. iIntros "Ht". iApply "HQ". iExists t. by iFrame.
Qed.

Lemma wp_set_lock p k xs w (Q : () → world → hPropI cell) :
  avl_set MutexFree p k xs -∗ (avl_set MutexHeld p k xs -∗ Q () w) -∗ wp (lock_tree p) w Q.
Proof.
  iIntros "(%t & %Ht & H) HQ". iApply (wp_lock_tree with "H"). iIntros "H". iApply "HQ".
  iExists t. by iFrame.
Qed.

Lemma wp_set_unlock p k xs w (Q : () → world → hPropI cell) :
  avl_set MutexHeld p k xs -∗ (avl_set MutexFree p k xs -∗ Q () w) -∗ wp (unlock_tree p) w Q.
Proof.
  iIntros "(%t & %Ht & H) HQ". iApply (wp_unlock_tree with "H"). iIntros "H". iApply "HQ".
  iExists t. by iFrame.
Qed.

(** So do the functions, between two calls of which the mutex is free. *)
#[export] Instance avl_ordered_set :
  OrderedSet (cmp_env f) (avl_insert cmp_env) (avl_delete_node cmp_env) (avl_search cmp_env)
    avl_inorder avl_total_elements freed (avl_set MutexFree).
Proof.
  split; [iIntros (p k xs d w Q Hd)..|iIntros (p k xs w Q)].
  - iIntros (Hw Hnew) "Hs HQ". iAssert ⌜p ≠ NULL⌝%I as %Hp; [by iDestruct "Hs" as "(% & (% & _) & _)"|].
    unfold avl_insert. rw (eqb_null_false _ Hp) (eqb_null_false _ Hd) /=.
    wp_focus. iApply (wp_set_lock with "Hs"). iIntros "Hs".
    wp_focus. iApply (set_insert with "Hs"); [done..|]. iIntros "Hs".
    by iApply (wp_set_unlock with "Hs").
  - iIntros "Hs HQ". iAssert ⌜p ≠ NULL⌝%I as %Hp; [by iDestruct "Hs" as "(% & (% & _) & _)"|].
    unfold avl_delete_node. rw (eqb_null_false _ Hp) (eqb_null_false _ Hd) /=.
    wp_focus. iApply (wp_set_lock with "Hs"). iIntros "Hs".
    wp_focus. iApply (set_delete with "Hs"); [done..|]. iIntros "Hs".
    wp_focus. iApply (wp_set_unlock with "Hs"). iIntros "Hs". wp_return. by iApply "HQ".
  - iIntros "Hs HQ". iAssert ⌜p ≠ NULL⌝%I as %Hp; [by iDestruct "Hs" as "(% & (% & _) & _)"|].
    unfold avl_search. rw (eqb_null_false _ Hp) (eqb_null_false _ Hd) /=.
    wp_focus. iApply (wp_set_lock with "Hs"). iIntros "Hs".
    wp_focus. iApply (set_find with "Hs"); [done..|]. iIntros "Hs".
    wp_focus. iApply (wp_set_unlock with "Hs"). iIntros "Hs". wp_return. by iApply "HQ".
  - iIntros "Hs HQ". iAssert ⌜p ≠ NULL⌝%I as %Hp; [by iDestruct "Hs" as "(% & (% & _) & _)"|].
    unfold avl_inorder. rw (eqb_null_false _ Hp) (eqb_null_false _ Hd) /=.
    wp_focus. iApply (wp_set_lock with "Hs"). iIntros "Hs".
    wp_focus. iApply (set_walk with "Hs"); [done..|]. iIntros "Hs".
    by iApply (wp_set_unlock with "Hs").
  - iIntros "Hs HQ". iAssert ⌜p ≠ NULL⌝%I as %Hp; [by iDestruct "Hs" as "(% & (% & _) & _)"|].
    unfold avl_total_elements. rw (eqb_null_false _ Hp) /=.
    wp_focus. iApply (wp_set_lock with "Hs"). iIntros "Hs".
    wp_focus. iApply (set_total with "Hs"). iIntros "Hs".
    wp_focus. iApply (wp_set_unlock with "Hs"). iIntros "Hs". wp_return. by iApply "HQ".
Qed.

(** ** A whole session: create, run the operations, destroy *)

Definition avl_session (pp : ptr) (os : list op) : prog (option (list reply)) :=
  p ← avl_create f fr;
  if p =? NULL then mret None else
  set (λ _ : ptr, p) pp;;
  rs ← do_ops (avl_insert cmp_env) (avl_delete_node cmp_env) (avl_search cmp_env)
          avl_inorder avl_total_elements p os;
  destroy_avl_tree pp;;
  mret (Some rs).

Lemma wp_avl_session pp q os w (Q : option (list reply) → world → hPropI cell) :
  calloc_plan w = [] → admissible_all (cmp_env f) freed os [] = true →
  Z.of_nat (insertions os) < INT_MAX - 3 →
  pp ↦ as_cell (q : ptr) -∗
  (let '(xs, rs, es) := spec_ops (cmp_env f) freed os [] in
   ∀ ds, ⟪ds ≡ₚ xs⟫ -∗ pp ↦ as_cell (NULL : ptr) -∗ Q (Some rs) (emits (es ++ calls fr ds) w)) -∗
  wp (avl_session pp os) w Q.
Proof.
  iIntros (Hw Ha Hn) "Hpp HQ". unfold avl_session.
  pose proof (calloc_plan_nil w Hw) as [Hok Hid].
  wp_focus. iApply wp_avl_create; [done..|]. rw Hok Hid. iIntros (p Hp) "Ht".
  rw (eqb_null_false _ Hp). wp_write "Hpp". wp_focus.
  iApply (wp_do_ops (cmp_env f) freed _ _ _ _ _ (rep := avl_set MutexFree) p 0 os [] with "[Ht]").
  { done. }
  { done. }
  { rw Nat.add_0_r. iExists Leaf. iFrame. iPureIntro. unfold in_range. simpl.
    split_and!; [exact Hp|reflexivity|constructor|exact I|lia|lia]. }
  destruct (spec_ops _ _ os []) as [[xs rs] es].
  iIntros "(%t & %Heq & Ht)". destruct Heq as (_ & <- & _).
  wp_focus. iApply (wp_destroy_avl_tree with "Ht Hpp"); [done..|]. iIntros "Hpp". wp_return.
  rw emits_app. iApply ("HQ" with "[] Hpp"). iPureIntro. apply postorder_inorder.
Qed.
End set.
