(* ===== verification/AvlProps.v ===== *)
(** * AvlProps: what avl_tree_lib.c guarantees to its callers

    The properties of the exported functions, as statements about running the
    programs of the file AvlCode. *)

From iris.proofmode Require Import environments proofmode.
From stdpp Require Import gmap strings.
From S2P Require Import Prelude HProp Mem Ordered OrderedSet AvlModel AvlFacts AvlReach.
From S2P Require Import AvlCode AvlRefine AvlOps AvlStale AvlDelete AvlDisplay Fifo AvlTraverse.
From S2P Require Import AvlLevels AvlSet.

Open Scope Z_scope.

(** ** Concrete objects, for the instances *)

(** Comparison function 2 orders numbers; 3 is a destructor. *)
Definition cmp_ex (f a b : ptr) : Z := zcmp a b.
Definition world_ex : world := World [] [] 0 [].
Definition leaf_node (d : ptr) : tree := Node Leaf d 0 Leaf.

(** The object at 1 with a single node at 10 that holds 20. *)
Definition cells_ex : list (Z * cell) :=
  [(1, CTree (AvlTree 10 1 2 0 3 MutexFree)); (10, CNode (AvlNode 20 0 0 0))].
Definition heap_ex : gmap Z cell := list_to_map cells_ex.

Lemma heap_ex_tree : holds (avl_at 1 (leaf_node 20) 1 2 3 MutexFree) heap_ex.
Proof.
  assert (cells cells_ex ⊢ avl_at 1 (leaf_node 20) 1 2 3 MutexFree) as [H].
  { iIntros "(H1 & H2 & _)". iExists 10, 0. iFrame. by iSplit. }
  apply H, holds_cells; [|by repeat constructor].
  apply NoDup_cons. split; [set_solver|]. apply NoDup_cons. split; [set_solver|constructor].
Qed.

Lemma triple_weaken {A} (P : hPropI cell) (c : prog A) w Q :
  (P -∗ wp c w Q) → triple P c w Q.
Proof. intros H. apply wp_triple. by iApply H. Qed.

(** ** Properties *)

(** C2: [avl_insert] on a balanced search tree returns, leaves the tree balanced
    and ordered with the new element in place (an equal element that is already
    there is kept, and a failing [calloc] changes nothing), releases the mutex,
    allocates nothing but the node, and adds 1 to [count] in every case.  The number of nodes
    on the longest path of a balanced tree is logarithmic in the size, by the bound of the
    Fibonacci trees. *)
Theorem avl_insert_correct cmp_env p t c f fr d w :
  CmpLaws (cmp_env f) → p ≠ NULL → d ≠ NULL → f ≠ NULL → INT_MIN ≤ c < INT_MAX →
  avl t → node_count t ≤ INT_MAX → sorted (cmp_env f) (inorder t) →
  ∃ t', avl t' ∧ ht t ≤ ht t' ≤ ht t + 1 ∧ fib (depth t' + 2) ≤ node_count t' + 1 ∧
    inorder t' = (if calloc_ok w then list_insert (cmp_env f) d (inorder t) else inorder t) ∧
    sorted (cmp_env f) (inorder t') ∧
    triple (avl_at p t c f fr MutexFree) (avl_insert cmp_env p d) w
      (gives () (insert_world (bool_decide (is_Some (list_search (cmp_env f) d (inorder t)))) w)
         (avl_at p t' (c + 1) f fr MutexFree)).
Proof.
  intros Hcmp Hp Hd Hf Hc Ht Hn Hs. pose proof (avl_height_small t Ht Hn) as Hh.
  destruct (ins_tree_avl (cmp_env f) (calloc_ok w) d t Ht) as (t' & Ht' & Havl & Hg).
  { unfold INT_MAX. lia. }
  assert (inorder t' = (if calloc_ok w then list_insert (cmp_env f) d (inorder t) else inorder t)) as Hin.
  { destruct (calloc_ok w); [by eapply ins_tree_inorder|by eapply ins_tree_failed_inorder]. }
  exists t'. split_and!; [done|destruct Hg as [->|[-> _]]; lia..|by apply avl_fib|done| |].
  - rw Hin. destruct (calloc_ok w); [by apply sorted_list_insert|done].
  - apply triple_weaken. iIntros "Ht".
    iApply (wp_avl_insert with "Ht"); [done..|apply int_range_true; lia|done|].
    rw path_finds_inorder //. iApply gives_intro.
Qed.

Lemma avl_insert_correct_witness :
  ∃ t' m', avl t' ∧ inorder t' = [7; 20] ∧
    run (avl_insert cmp_ex 1 7) heap_ex world_ex = Ok () (State m' world_ex) ∧
    holds (avl_at 1 t' 2 2 3 MutexFree) m'.
Proof.
  destruct (avl_insert_correct cmp_ex 1 (leaf_node 20) 1 2 3 7 world_ex)
    as (t' & Ht & _ & _ & Hin & _ & Hrun).
  - apply zcmp_laws.
  - discriminate.
  - discriminate.
  - discriminate.
  - split; [discriminate|reflexivity].
  - repeat split; discriminate.
  - discriminate.
  - repeat constructor.
  - destruct (triple_gives _ _ _ _ _ _ _ Hrun heap_ex_tree) as (m' & Hm & HR).
    exists t', m'. split; [exact Ht|]. split; [exact Hin|]. split; [exact Hm|exact HR].
Defined.

(** C1: when every call of [calloc] succeeds, a client that creates a tree, inserts new elements, deletes, searches, counts and
    walks in order, in any order of calls (fewer than INT_MAX - 3 insertions), and destroys
    the tree gets the replies of a sorted list; a walk calls the client's function on
    the elements that are there, in ascending order; every deleted element is handed to the
    destructor once, in order, the remaining ones once at the end; nothing is
    left allocated and the caller's pointer is NULL. *)
Theorem avl_session_refines cmp_env f fr pp q os w :
  CmpLaws (cmp_env f) → f ≠ NULL → fr ≠ NULL → calloc_plan w = [] →
  admissible_all (cmp_env f) (freed fr) os [] = true →
  Z.of_nat (insertions os) < INT_MAX - 3 →
  let '(xs, rs, es) := spec_ops (cmp_env f) (freed fr) os [] in
  triple (pp ↦ as_cell (q : ptr)) (avl_session cmp_env f fr pp os) w
    (λ r w', ∃ ds, ⟪r = Some rs ∧ ds ≡ₚ xs ∧ w' = emits (es ++ calls fr ds) w⟫ ∗
                   pp ↦ as_cell (NULL : ptr))%I.
Proof.
  intros Hcmp Hf Hfr Hw Ha Hn.
  destruct (spec_ops (cmp_env f) (freed fr) os []) as [[xs rs] es] eqn:E.
  apply triple_weaken. iIntros "Hpp". iApply (wp_avl_session with "Hpp"); [done..|].
  rw E. iIntros (ds) "%Hds Hpp". iExists ds. by iFrame.
Qed.

Definition session_ex : list op :=
  [OpInsert 20; OpInsert 10; OpFind 10; OpWalk 4; OpDelete 20; OpFind 20; OpDelete 30; OpCount].

Lemma avl_session_refines_witness :
  ∃ m' w', run (avl_session cmp_ex 2 3 5 session_ex) {[5 := CPtr 1]} world_ex =
      Ok (Some [RInserted; RInserted; RFound 10; RWalked; RDeleted true; RFound 0; RDeleted false; RCount 1])
         (State m' w') ∧ m' = {[5 := CPtr 0]} ∧
    Permutation (trace w') [EvCall 4 [10]; EvCall 4 [20]; EvCall 3 [20]; EvCall 3 [10]].
Proof.
  pose proof (avl_session_refines cmp_ex 2 3 5 1 session_ex world_ex zcmp_laws
    ltac:(discriminate) ltac:(discriminate) eq_refl eq_refl eq_refl) as H.
  destruct (triple_run _ _ _ _ {[5 := CPtr 1]} H) as (r & m' & w' & Hm & ds & HR).
  - apply holds_pointsto. split; [reflexivity|discriminate].
  - destruct HR as (m1 & m2 & -> & _ & [-> (-> & Hds & ->)]%holds_affine & [-> _]).
    exists (∅ ∪ {[5 := CPtr 0]}),
      (emits ([EvCall 4 [10]; EvCall 4 [20]; EvCall 3 [20]] ++ calls 3 ds) world_ex).
    split; [exact Hm|]. split; [apply (left_id_L ∅ (∪))|].
    apply (Permutation_app_head [EvCall 4 [10]; EvCall 4 [20]; EvCall 3 [20]]), (Permutation_map (λ d, EvCall 3 [d]) Hds).
Defined.

(** C3: on every search tree with sound heights ([wf], which all operations keep),
    balanced or not, [avl_delete_node] returns, removes exactly the element that compares equal to its argument (if
    there is one), hands it to the destructor, frees one node and decrements
    [count]; the stored heights stay sound and do not grow. *)
Theorem avl_delete_correct cmp_env p t c f fr d w :
  CmpLaws (cmp_env f) → p ≠ NULL → d ≠ NULL → f ≠ NULL → fr ≠ NULL → INT_MIN < c ≤ INT_MAX →
  wf t → ht t < INT_MAX - 1 → sorted (cmp_env f) (inorder t) →
  let res := list_search (cmp_env f) d (inorder t) in
  ∃ t', wf t' ∧ ht t' ≤ ht t ∧ inorder t' = list_delete (cmp_env f) d (inorder t) ∧
    triple (avl_at p t c f fr MutexFree) (avl_delete_node cmp_env p d) w
      (gives (deleted res) (emits (deleted_calls fr res) w)
         (avl_at p t' (if deleted res then c - 1 else c) f fr MutexFree)).
Proof.
  intros Hcmp Hp Hd Hf Hfr Hc Ht Hh Hs res.
  destruct (del_tree_wf (cmp_env f) d t Ht Hh) as (t' & res' & Ht' & Hwf & Hh').
  pose proof (del_tree_inorder _ _ _ _ _ Hs Ht') as [Hin ->].
  exists t'. split_and!; [done..|]. apply triple_weaken. iIntros "Ht".
  iApply (wp_avl_delete_node with "Ht"); [done..|apply int_range_true; lia|done|].
  iApply gives_intro.
Qed.

Lemma avl_delete_correct_witness :
  ∃ t' m', inorder t' = [] ∧
    run (avl_delete_node cmp_ex 1 20) heap_ex world_ex =
      Ok true (State m' (World [] [] 0 [EvCall 3 [20]])) ∧
    holds (avl_at 1 t' 0 2 3 MutexFree) m'.
Proof.
  destruct (avl_delete_correct cmp_ex 1 (leaf_node 20) 1 2 3 20 world_ex)
    as (t' & _ & _ & Hin & Hrun).
  - apply zcmp_laws.
  - discriminate.
  - discriminate.
  - discriminate.
  - discriminate.
  - split; [reflexivity|discriminate].
  - repeat split; discriminate.
  - reflexivity.
  - repeat constructor.
  - destruct (triple_gives _ _ _ _ _ _ _ Hrun heap_ex_tree) as (m' & Hm & HR).
    exists t', m'. split; [exact Hin|]. split; [exact Hm|exact HR].
Defined.

(** C4: a deletion that unlinks a node next to the search path (the deleted node
    has a NULL child, or its successor is its right child) keeps the tree
    balanced, and its height shrinks by at most 1. *)
Theorem avl_delete_shallow_balanced cmp_env p t c f fr d w :
  p ≠ NULL → d ≠ NULL → f ≠ NULL → fr ≠ NULL → INT_MIN < c ≤ INT_MAX →
  avl t → node_count t ≤ INT_MAX → shallow_delete (cmp_env f) d t = true →
  ∃ t' res, avl t' ∧ ht t - 1 ≤ ht t' ≤ ht t ∧
    triple (avl_at p t c f fr MutexFree) (avl_delete_node cmp_env p d) w
      (gives (deleted res) (emits (deleted_calls fr res) w)
         (avl_at p t' (if deleted res then c - 1 else c) f fr MutexFree)).
Proof.
  intros Hp Hd Hf Hfr Hc Ht Hn Hs. pose proof (avl_height_small t Ht Hn) as Hh.
  destruct (del_tree_avl (cmp_env f) d t Ht) as (t' & res & Ht' & Havl & Hh'); [|done|].
  { unfold INT_MAX. lia. }
  exists t', res. split_and!; [done|lia..|]. apply triple_weaken. iIntros "Ht".
  iApply (wp_avl_delete_node with "Ht"); [done..|apply int_range_true; lia|done|].
  iApply gives_intro.
Qed.

Lemma avl_delete_shallow_balanced_witness :
  ∃ t' res m' w', avl t' ∧ run (avl_delete_node cmp_ex 1 20) heap_ex world_ex =
      Ok (deleted res) (State m' w').
Proof.
  destruct (avl_delete_shallow_balanced cmp_ex 1 (leaf_node 20) 1 2 3 20 world_ex)
    as (t' & res & Ht' & _ & Hrun).
  - discriminate.
  - discriminate.
  - discriminate.
  - discriminate.
  - split; [reflexivity|discriminate].
  - repeat split; discriminate.
  - discriminate.
  - reflexivity.
  - destruct (triple_gives _ _ _ _ _ _ _ Hrun heap_ex_tree) as (m' & Hm & _).
    exists t', res, m', (emits (deleted_calls 3 res) world_ex). split; [exact Ht'|exact Hm].
Defined.

(** C5: [avl_insert] on every search tree with sound heights, balanced or not.  Where the
    insertion on trees is defined the function returns with its result: the heights stay
    sound and grow by at most 1, the new element is in its place (a failing [calloc] adds
    none), and [count] is increased.  Otherwise the function follows NULL, whatever else the heap
    holds; then the tree is not balanced, and either an equal element is there
    already or [calloc] has failed.  So a new element that can be allocated is always
    inserted. *)
Theorem avl_insert_unbalanced cmp_env p t c f fr d w :
  CmpLaws (cmp_env f) → p ≠ NULL → d ≠ NULL → f ≠ NULL → INT_MIN ≤ c < INT_MAX →
  wf t → ht t < INT_MAX - 3 → sorted (cmp_env f) (inorder t) →
  let found := bool_decide (is_Some (list_search (cmp_env f) d (inorder t))) in
  match ins_tree (cmp_env f) (calloc_ok w) d t with
  | Some t' =>
      wf t' ∧ ht t' ≤ ht t + 1 ∧
      inorder t' = (if calloc_ok w then list_insert (cmp_env f) d (inorder t) else inorder t) ∧
      triple (avl_at p t c f fr MutexFree) (avl_insert cmp_env p d) w
        (gives () (insert_world found w) (avl_at p t' (c + 1) f fr MutexFree))
  | None =>
      ¬ avl t ∧ (found = true ∨ calloc_ok w = false) ∧
      ∀ m, holds (avl_at p t c f fr MutexFree ∗ True)%I m →
        run (avl_insert cmp_env p d) m w = Err NullDeref
  end.
Proof.
  intros Hcmp Hp Hd Hf Hc Ht Hh Hs found.
  assert (path_finds (cmp_env f) d t = found) as Hpath by by rw path_finds_inorder.
  destruct (ins_tree (cmp_env f) (calloc_ok w) d t) as [t'|] eqn:E.
  - destruct (ins_tree_some_wf _ _ _ _ _ Ht Hh E) as [Ht' Hh']. split_and!; [done..| |].
    + destruct (calloc_ok w); [by eapply ins_tree_inorder|by eapply ins_tree_failed_inorder].
    + apply triple_weaken. iIntros "Ht".
      iApply (wp_avl_insert with "Ht"); [done..|apply int_range_true; lia|done|].
      rw Hpath. iApply gives_intro.
  - split_and!.
    + intros Ha. destruct (ins_tree_avl (cmp_env f) (calloc_ok w) d t Ha Hh) as (t' & E' & _). congruence.
    + destruct found; [by left|]. destruct (calloc_ok w); [|by right].
      destruct (ins_tree_wf (cmp_env f) d t Ht Hh Hs Hpath) as (t' & E' & _). congruence.
    + intros m Hm. destruct (fails_runs (avl_insert cmp_env p d) (eq NullDeref) _ m w Hm) as (e & He & <-); [|done].
      iIntros "[Ht HP]". by iApply (fails_avl_insert with "Ht HP").
Qed.

(** A tree that deletions have left unbalanced, on the heap. *)
Definition stale_tree : tree := Node Leaf 20 2 (Node Leaf 30 1 (leaf_node 40)).
Definition stale_cells : list (Z * cell) :=
  [(1, CTree (AvlTree 10 3 2 0 3 MutexFree)); (10, CNode (AvlNode 20 2 0 11));
   (11, CNode (AvlNode 30 1 0 12)); (12, CNode (AvlNode 40 0 0 0))].
Definition stale_heap : gmap Z cell := list_to_map stale_cells.

Lemma stale_heap_tree : holds (avl_at 1 stale_tree 3 2 3 MutexFree ∗ True)%I stale_heap.
Proof.
  assert (cells stale_cells ⊢ avl_at 1 stale_tree 3 2 3 MutexFree ∗ True) as [H].
  { iIntros "(H1 & H2 & H3 & H4 & _)". iSplitL; [|done]. iExists 10, 0. iFrame.
    by repeat iSplit. }
  apply H, holds_cells; [|by repeat constructor].
  repeat (apply NoDup_cons; split; [set_solver|]). constructor.
Qed.

(** An element that is there, and a new one that cannot be allocated. *)
Lemma avl_insert_unbalanced_witness :
  run (avl_insert cmp_ex 1 30) stale_heap world_ex = Err NullDeref ∧
  run (avl_insert cmp_ex 1 25) stale_heap (World [false] [] 0 []) = Err NullDeref.
Proof.
  split.
  - pose proof (avl_insert_unbalanced cmp_ex 1 stale_tree 3 2 3 30 world_ex zcmp_laws
      ltac:(discriminate) ltac:(discriminate) ltac:(discriminate) ltac:(split; [discriminate|reflexivity])
      ltac:(repeat split; discriminate) ltac:(reflexivity) ltac:(repeat constructor)) as (_ & _ & H).
    exact (H stale_heap stale_heap_tree).
  - pose proof (avl_insert_unbalanced cmp_ex 1 stale_tree 3 2 3 25 (World [false] [] 0 []) zcmp_laws
      ltac:(discriminate) ltac:(discriminate) ltac:(discriminate) ltac:(split; [discriminate|reflexivity])
      ltac:(repeat split; discriminate) ltac:(reflexivity) ltac:(repeat constructor)) as (_ & _ & H).
    exact (H stale_heap stale_heap_tree).
Defined.

(** [avl_search] returns the element that compares equal to its argument, or
    NULL when there is none, and changes nothing. *)
Theorem avl_search_correct cmp_env p t c f fr d w :
  CmpLaws (cmp_env f) → p ≠ NULL → d ≠ NULL → f ≠ NULL → sorted (cmp_env f) (inorder t) →
  triple (avl_at p t c f fr MutexFree) (avl_search cmp_env p d) w
    (gives (default NULL (list_search (cmp_env f) d (inorder t))) w
       (avl_at p t c f fr MutexFree)).
Proof.
  intros Hcmp Hp Hd Hf Hs. apply triple_weaken. iIntros "Ht".
  iApply (wp_avl_search with "Ht"); [done..|]. rw search_tree_inorder //. iApply gives_intro.
Qed.

Lemma avl_search_correct_witness :
  ∃ m', run (avl_search cmp_ex 1 20) heap_ex world_ex = Ok 20 (State m' world_ex) ∧
    holds (avl_at 1 (leaf_node 20) 1 2 3 MutexFree) m'.
Proof.
  assert (triple (avl_at 1 (leaf_node 20) 1 2 3 MutexFree) (avl_search cmp_ex 1 20) world_ex
    (gives 20 world_ex (avl_at 1 (leaf_node 20) 1 2 3 MutexFree))) as H.
  { apply (avl_search_correct cmp_ex 1 (leaf_node 20) 1 2 3 20 world_ex zcmp_laws);
      [discriminate..|repeat constructor]. }
  exact (triple_gives _ _ _ _ _ _ _ H heap_ex_tree).
Defined.

(** [avl_total_elements] counts the elements, whatever [count] says: [count]
    also counts the insertions that added nothing. *)
Theorem avl_total_elements_correct p t c f fr w :
  p ≠ NULL → Z.of_nat (length (inorder t)) ≤ INT_MAX →
  triple (avl_at p t c f fr MutexFree) (avl_total_elements p) w
    (gives (Z.of_nat (length (inorder t))) w (avl_at p t c f fr MutexFree)).
Proof.
  intros Hp Hn. apply triple_weaken. iIntros "Ht". rw -node_count_length in Hn.
  iApply (wp_avl_total_elements with "Ht"); [done..|]. rw node_count_length. iApply gives_intro.
Qed.

Lemma avl_total_elements_correct_witness :
  ∃ m', run (avl_total_elements 1) heap_ex world_ex = Ok 1 (State m' world_ex) ∧
    holds (avl_at 1 (leaf_node 20) 1 2 3 MutexFree) m'.
Proof.
  assert (triple (avl_at 1 (leaf_node 20) 1 2 3 MutexFree) (avl_total_elements 1) world_ex
    (gives 1 world_ex (avl_at 1 (leaf_node 20) 1 2 3 MutexFree))) as H.
  { apply (avl_total_elements_correct 1 (leaf_node 20)); discriminate. }
  exact (triple_gives _ _ _ _ _ _ _ H heap_ex_tree).
Defined.

(** [destroy_avl_tree] hands every element to the destructor exactly once,
    frees every node and the object (no cell but the caller's pointer remains)
    and sets the caller's pointer to NULL. *)
Theorem destroy_avl_tree_correct pp p t c f fr w :
  p ≠ NULL → fr ≠ NULL →
  ∃ ds, ds ≡ₚ inorder t ∧
    triple (avl_at p t c f fr MutexFree ∗ pp ↦ as_cell (p : ptr)) (destroy_avl_tree pp) w
      (gives () (emits (calls fr ds) w) (pp ↦ as_cell (NULL : ptr))).
Proof.
  intros Hp Hfr. exists (postorder t). split; [apply postorder_inorder|].
  apply triple_weaken. iIntros "[Ht Hpp]".
  iApply (wp_destroy_avl_tree with "Ht Hpp"); [done..|]. iApply gives_intro.
Qed.

Lemma heap_pp_ex_tree :
  holds (avl_at 1 (leaf_node 20) 1 2 3 MutexFree ∗ 5 ↦ as_cell (1 : ptr))%I (<[5 := CPtr 1]> heap_ex).
Proof.
  apply holds_sep. exists heap_ex, {[5 := CPtr 1]}.
  split; [by vm_compute|]. split; [by apply map_disjoint_singleton_r|].
  split; [apply heap_ex_tree|by split].
Qed.

Lemma destroy_avl_tree_correct_witness :
  ∃ ds m', Permutation ds [20] ∧
    run (destroy_avl_tree 5) (<[5 := CPtr 1]> heap_ex) world_ex =
      Ok () (State m' (emits (calls 3 ds) world_ex)) ∧ m' = {[5 := CPtr 0]}.
Proof.
  destruct (destroy_avl_tree_correct 5 1 (leaf_node 20) 1 2 3 world_ex) as (ds & Hds & H).
  - discriminate.
  - discriminate.
  - destruct (triple_gives _ _ _ _ _ _ _ H heap_pp_ex_tree) as (m' & Hm & [HR _]).
    exists ds, m'. split; [exact Hds|]. split; [exact Hm|exact HR].
Defined.

(** C6: [avl_inorder] calls the user's function once per element, in ascending
    order, and changes nothing; [avl_pre_order] and [avl_post_order] call it once
    per element, a parent before (after) its descendants. *)
Theorem avl_traversals_correct cmp_env p t c f fr g w :
  p ≠ NULL → g ≠ NULL → sorted (cmp_env f) (inorder t) →
  let obj := avl_at p t c f fr MutexFree in
  (∃ ds, sorted (cmp_env f) ds ∧ ds ≡ₚ inorder t ∧
    triple obj (avl_inorder p g) w (gives () (emits (calls g ds) w) obj)) ∧
  (preorder t ≡ₚ inorder t ∧
    triple obj (avl_pre_order p g) w
      (gives () (emits (calls g (preorder t) ++ [EvPrint newline]) w) obj)) ∧
  (postorder t ≡ₚ inorder t ∧
    triple obj (avl_post_order p g) w
      (gives () (emits (calls g (postorder t) ++ [EvPrint newline]) w) obj)).
Proof.
  intros Hp Hg Hs obj. split; [exists (inorder t); split_and!; [done|done|]|split; (split;
    [apply preorder_inorder || apply postorder_inorder|])];
    apply triple_weaken; iIntros "Ht".
  - iApply (wp_avl_inorder with "Ht"); [done..|]. iApply gives_intro.
  - iApply (wp_avl_pre_order with "Ht"); [done..|]. iApply gives_intro.
  - iApply (wp_avl_post_order with "Ht"); [done..|]. iApply gives_intro.
Qed.

Lemma avl_traversals_correct_witness :
  ∃ ds m', sorted zcmp ds ∧ run (avl_inorder 1 4) heap_ex world_ex =
    Ok () (State m' (emits (calls 4 ds) world_ex)).
Proof.
  destruct (avl_traversals_correct cmp_ex 1 (leaf_node 20) 1 2 3 4 world_ex)
    as ((ds & Hs & _ & H) & _ & _).
  - discriminate.
  - discriminate.
  - repeat constructor.
  - destruct (triple_gives _ _ _ _ _ _ _ H heap_ex_tree) as (m' & Hm & _).
    exists ds, m'. split; [exact Hs|exact Hm].
Defined.

(** C7: [avl_level_order] visits the tree level by level, from left to right, each
    element once, when no allocation fails; it frees its queue.  It does not take
    the mutex: it runs whatever the state [mx] of the mutex. *)
Theorem avl_level_order_correct p t c f fr mx g w :
  p ≠ NULL → g ≠ NULL → t ≠ Leaf → calloc_plan w = [] →
  level_order t ≡ₚ inorder t ∧
  triple (avl_at p t c f fr mx) (avl_level_order p g) w
    (gives () (emits (calls g (level_order t)) w) (avl_at p t c f fr mx)).
Proof.
  intros Hp Hg Ht Hw. split; [apply level_order_inorder|]. apply triple_weaken. iIntros "Ht".
  iApply (wp_avl_level_order with "Ht"); [done..|].
  pose proof (calloc_plan_nil w Hw) as [-> _]. rw level_world_levels //. iApply gives_intro.
Qed.

Lemma avl_level_order_correct_witness :
  ∃ m', run (avl_level_order 1 4) heap_ex world_ex =
      Ok () (State m' (World [] [] 0 [EvCall 4 [20]])) ∧
    holds (avl_at 1 (leaf_node 20) 1 2 3 MutexFree) m'.
Proof.
  destruct (avl_level_order_correct 1 (leaf_node 20) 1 2 3 MutexFree 4 world_ex) as [_ H];
    [discriminate..|reflexivity|].
  exact (triple_gives _ _ _ _ _ _ _ H heap_ex_tree).
Defined.

(** C10: when every call of [calloc] succeeds, [write_avl_tree_to_file] opens the file, hands each element and the file
    handle to the user's function in level order, closes the file and releases the
    mutex; when [fopen] fails it reports the error, clears [errno] and does
    nothing else. *)
Theorem write_avl_tree_to_file_correct p t c f fr name g w :
  p ≠ NULL → g ≠ NULL → name ≠ NULL → t ≠ Leaf → calloc_plan w = [] →
  let h := fopen_handle w in
  let w1 := emit_world (EvOpen name "wb" h) (fopen_world w) in
  triple (avl_at p t c f fr MutexFree) (write_avl_tree_to_file p name g) w
    (gives ()
       (if h =? NULL then errno_world 0 (emits [EvPerror "fopen out file"] w1)
        else emits (map (λ d, EvCall g [d; h]) (level_order t) ++ [EvClose h]) w1)
       (avl_at p t c f fr MutexFree)).
Proof.
  intros Hp Hg Hname Ht Hw h w1. apply triple_weaken. iIntros "Ht".
  iApply (wp_write_avl_tree_to_file with "Ht"); [done..|].
  unfold write_world, fopen_event. fold h. fold w1. destruct (h =? NULL); [iApply gives_intro|].
  assert (calloc_plan w1 = []) as Hw1 by done.
  pose proof (calloc_plan_nil w1 Hw1) as [-> _]. rw level_world_levels //.
  rw emit_world_emits emits_app. iApply gives_intro.
Qed.

Lemma write_avl_tree_to_file_correct_witness :
  ∃ m', run (write_avl_tree_to_file 1 6 4) heap_ex (World [] [9] 0 []) =
      Ok () (State m' (World [] [] 0 [EvOpen 6 "wb" 9; EvCall 4 [20; 9]; EvClose 9])) ∧
    holds (avl_at 1 (leaf_node 20) 1 2 3 MutexFree) m'.
Proof.
  pose proof (write_avl_tree_to_file_correct 1 (leaf_node 20) 1 2 3 6 4 (World [] [9] 0 [])
    ltac:(discriminate) ltac:(discriminate) ltac:(discriminate) ltac:(discriminate) eq_refl) as H.
  exact (triple_gives _ _ _ _ _ _ _ H heap_ex_tree).
Defined.

(** C11: [avl_display_full] prints a drawing in which each element is shown by one
    call of the user's function, in descending order, and leaves the tree as it
    was. *)
Theorem avl_display_full_correct p t c f fr g w :
  p ≠ NULL → g ≠ NULL → t ≠ Leaf →
  List.filter is_call (display_events g t) = calls g (rev (inorder t)) ∧
  triple (avl_at p t c f fr MutexFree) (avl_display_full p g) w
    (gives () (emits (display_events g t) w) (avl_at p t c f fr MutexFree)).
Proof.
  intros Hp Hg Ht. split; [apply drawing_calls|]. apply triple_weaken. iIntros "Ht".
  iApply (wp_avl_display_full with "Ht"); [done..|]. iApply gives_intro.
Qed.

Lemma avl_display_full_correct_witness :
  ∃ m', run (avl_display_full 1 4) heap_ex world_ex =
      Ok () (State m' (World [] [] 0 [EvPrint "---"; EvCall 4 [20]; EvPrint newline])) ∧
    holds (avl_at 1 (leaf_node 20) 1 2 3 MutexFree) m'.
Proof.
  destruct (avl_display_full_correct 1 (leaf_node 20) 1 2 3 4 world_ex) as [_ H];
    [discriminate..|].
  exact (triple_gives _ _ _ _ _ _ _ H heap_ex_tree).
Defined.

(** The height of a balanced tree is logarithmic in the number of its
    elements: below 62 for every tree whose size fits an [int], so the recursion
    of the operations is shallow and no height overflows. *)
Lemma avl_height_bound t :
  avl t → 2 ^ (ht t + 1) ≤ (node_count t + 1) ^ 2 ∧
  (node_count t ≤ INT_MAX → ht t < 62 ∧ Z.of_nat (depth t) ≤ 62).
Proof.
  intros Ht. split; [rw Z.pow_2_r; by apply avl_height_log|]. intros Hn.
  pose proof (avl_height_small t Ht Hn). pose proof (wf_depth t (avl_wf t Ht)). lia.
Qed.

Lemma avl_height_bound_witness : ht (leaf_node 20) < 62.
Proof.
  apply (avl_height_bound (leaf_node 20)); [repeat split; discriminate|discriminate].
Defined.

(** C12: when a deletion keeps the balance, exactly.  [avl_delete_node] on a balanced
    tree returns; the tree that it leaves is balanced if and only if [even_delete] holds: the
    deleted node has an empty side, its successor is its right child, or the parent of the
    successor has a right subtree that is as high as the successor.  In all other cases
    the function leaves a node whose stored height or balance is wrong.  It matters: from
    one client that only inserts and deletes both an insertion of an element that is
    there and one whose [calloc] fails can follow NULL. *)
Theorem avl_delete_balance cmp_env p t c f fr d w :
  p ≠ NULL → d ≠ NULL → f ≠ NULL → fr ≠ NULL → INT_MIN < c ≤ INT_MAX →
  avl t → node_count t ≤ INT_MAX →
  (∃ t' res, ht t - 1 ≤ ht t' ≤ ht t ∧ (avl t' ↔ even_delete (cmp_env f) d t = true) ∧
    triple (avl_at p t c f fr MutexFree) (avl_delete_node cmp_env p d) w
      (gives (deleted res) (emits (deleted_calls fr res) w)
         (avl_at p t' (if deleted res then c - 1 else c) f fr MutexFree))) ∧
  (∃ os d' d'', let client := map OpInsert os ++ [OpDelete d'] in
    run (avl_session cmp_ex 2 3 5 (client ++ [OpInsert d''])) {[5 := CPtr 0]} world_ex = Err NullDeref ∧
    run (avl_session cmp_ex 2 3 5 (client ++ [OpInsert (d'' - 5)])) {[5 := CPtr 0]}
      (World (replicate (S (length os)) true ++ [false]) [] 0 []) = Err NullDeref).
Proof.
  intros Hp Hd Hf Hfr Hc Ht Hn. split; [|by exists [10; 5; 20; 3; 15; 30; 40], 10, 30; vm_compute].
  pose proof (avl_height_small t Ht Hn) as Hh.
  destruct (del_tree_balance (cmp_env f) d t Ht) as (t' & res & Ht' & Hh' & He); [unfold INT_MAX; lia|].
  exists t', res. split; [done|]. split; [done|]. apply triple_weaken. iIntros "Ht".
  iApply (wp_avl_delete_node with "Ht"); [done..|apply int_range_true; lia|done|].
  iApply gives_intro.
Qed.

(** The successor 15 of 10 is lower than the right subtree of its parent 20. *)
Definition uneven_tree : tree :=
  Node (Node (leaf_node 3) 5 1 Leaf) 10 3 (Node (leaf_node 15) 20 2 (Node Leaf 30 1 (leaf_node 40))).

Lemma avl_delete_balance_witness :
  ∃ t' res, ¬ avl t' ∧
    triple (avl_at 1 uneven_tree 7 2 3 MutexFree) (avl_delete_node cmp_ex 1 10) world_ex
      (gives (deleted res) (emits (deleted_calls 3 res) world_ex)
         (avl_at 1 t' (if deleted res then 7 - 1 else 7) 2 3 MutexFree)).
Proof.
  destruct (avl_delete_balance cmp_ex 1 uneven_tree 7 2 3 10 world_ex) as [(t' & res & _ & He & H) _].
  - discriminate.
  - discriminate.
  - discriminate.
  - discriminate.
  - split; [reflexivity|discriminate].
  - repeat split; discriminate.
  - discriminate.
  - exists t', res. split; [|exact H]. intros Ha. apply He in Ha. discriminate Ha.
Defined.

(** The NULL arguments that the exported functions test for make them return
    at once, with the heap and the environment as they were. *)
Theorem avl_null_arguments cmp_env (m : gmap Z cell) w p d :
  let same {A} (a : A) := Ok a (State m w) in
  run (avl_create NULL d) m w = same NULL ∧ run (avl_create d NULL) m w = same NULL ∧
  run (avl_insert cmp_env NULL d) m w = same () ∧ run (avl_insert cmp_env p NULL) m w = same () ∧
  run (avl_search cmp_env NULL d) m w = same NULL ∧
  run (avl_search cmp_env p NULL) m w = same NULL ∧
  run (avl_delete_node cmp_env NULL d) m w = same false ∧
  run (avl_delete_node cmp_env p NULL) m w = same false ∧
  run (avl_total_elements NULL) m w = same 0 ∧ run (destroy_avl_tree NULL) m w = same () ∧
  run (avl_inorder NULL d) m w = same () ∧ run (avl_inorder p NULL) m w = same () ∧
  run (avl_pre_order p NULL) m w = same () ∧ run (avl_post_order p NULL) m w = same () ∧
  run (avl_level_order NULL d) m w = same () ∧
  run (write_avl_tree_to_file NULL d p) m w = same ().
Proof.
  unfold avl_create, avl_insert, avl_search, avl_delete_node, avl_inorder, avl_pre_order,
    avl_post_order. by rw ?orb_true_r.
Qed.

(** A thread that holds the mutex of a tree, for instance in a callback of a
    traversal, and calls an operation that takes it deadlocks; the mutex is not
    recursive. *)
Theorem avl_reentry_deadlocks cmp_env (m : gmap Z cell) w p d x :
  p ≠ NULL → d ≠ NULL → m !! p = Some (CTree x) → p_tree_lock x = MutexHeld →
  run (avl_insert cmp_env p d) m w = Err Deadlock ∧
  run (avl_delete_node cmp_env p d) m w = Err Deadlock ∧
  run (avl_search cmp_env p d) m w = Err Deadlock ∧
  run (avl_total_elements p) m w = Err Deadlock ∧
  run (avl_inorder p d) m w = Err Deadlock ∧
  run (avl_pre_order p d) m w = Err Deadlock ∧
  run (avl_post_order p d) m w = Err Deadlock.
Proof.
  intros Hp Hd Hm Hx.
  assert (lock_tree p (State m w) = Err Deadlock) as Hlock.
  { unfold lock_tree, mutex_lock, get, load_struct, load, mbind, M_bind.
    rw (eqb_null_false _ Hp) /= Hm /=. by rw Hx. }
  unfold run, avl_insert, avl_delete_node, avl_search, avl_total_elements, avl_inorder,
    avl_pre_order, avl_post_order.
  rw (eqb_null_false _ Hp) (eqb_null_false _ Hd) /=.
  unfold mbind, M_bind. by rw !Hlock.
Qed.

Lemma avl_reentry_deadlocks_witness :
  run (avl_insert cmp_ex 1 7) {[1 := CTree (AvlTree 0 0 2 0 3 MutexHeld)]} world_ex = Err Deadlock.
Proof.
  apply (avl_reentry_deadlocks cmp_ex {[1 := CTree (AvlTree 0 0 2 0 3 MutexHeld)]} world_ex 1 7
    (AvlTree 0 0 2 0 3 MutexHeld)); [discriminate|discriminate|reflexivity|reflexivity].
Defined.

(** [avl_create] returns a fresh empty tree object with a free mutex, or NULL
    with a message when [calloc] fails. *)
Theorem avl_create_correct f fr w :
  f ≠ NULL → fr ≠ NULL →
  triple emp (avl_create f fr) w (λ p w',
    if calloc_ok w
    then ⟪p ≠ NULL ∧ w' = calloc_world w⟫ ∗ avl_at p Leaf 0 f fr MutexFree
    else ⟪p = NULL ∧ w' = emit_world (EvPerror "avl tree create calloc") (calloc_world w)⟫)%I.
Proof.
  intros Hf Hfr. apply triple_weaken. iIntros "_". iApply wp_avl_create; [done..|].
  destruct (calloc_ok w); [|done]. iIntros (p Hp) "Ht". by iFrame.
Qed.

Lemma avl_create_correct_witness :
  ∃ m' w', run (avl_create 2 3) ∅ (World [false] [] 0 []) = Ok 0 (State m' w') ∧ m' = ∅.
Proof.
  pose proof (avl_create_correct 2 3 (World [false] [] 0 [])
    ltac:(discriminate) ltac:(discriminate)) as H.
  destruct (triple_run _ _ _ _ ∅ H eq_refl) as (p & m' & w' & Hm & HR).
  exists m', w'. destruct HR as [-> [-> _]]. split; [exact Hm|reflexivity].
Defined.

(** The queue of the level-order traversals is first-in first-out: what is
    enqueued into an empty queue is dequeued in the same order, and the queue is
    empty again with no cell left behind. *)
Theorem level_queue_round_trip q xs w :
  Forall (λ x, x ≠ NULL) xs → calloc_plan w = [] →
  triple (queue_at q []) (enq_all enqueue q xs;; deq_all dequeue q (length xs)) w
    (gives xs w (queue_at q [])).
Proof.
  intros Hxs Hw. apply triple_weaken. iIntros "Hq".
  iApply (wp_fifo_round_trip _ _ _ 0 with "Hq"); [done..|]. iApply gives_intro.
Qed.

Lemma level_queue_round_trip_witness :
  ∃ m', run (enq_all enqueue 1 [7; 8] ;; deq_all dequeue 1 2) {[1 := CQueue (Queue 0 0)]} world_ex
    = Ok [7; 8] (State m' world_ex) ∧ holds (queue_at 1 []) m'.
Proof.
  assert (triple (queue_at 1 []) (enq_all enqueue 1 [7; 8] ;; deq_all dequeue 1 2) world_ex
    (gives [7; 8] world_ex (queue_at 1 []))) as H.
  { apply (level_queue_round_trip 1 [7; 8]); [repeat constructor; discriminate|reflexivity]. }
  apply (triple_gives _ _ _ _ _ _ _ H). exists 0, 0. exists {[1 := CQueue (Queue 0 0)]}, ∅.
  split; [reflexivity|]. split; [apply map_disjoint_empty_r|]. split; [by split|].
  by left; split.
Defined.
