(* ===== verification/AvlConc.v ===== *)
(** * AvlConc: one tree used by several threads

    Each thread makes a sequence of calls on a shared tree object.  A call is cut
    where avl_tree_lib.c takes and releases the mutex of the tree: a thread waits at
    the lock while another one holds it.  [avl_level_order] does not take the mutex;
    it is cut at the test of its loop, so that other threads move between two
    of its rounds. *)

From iris.proofmode Require Import environments proofmode.
From stdpp Require Import gmap strings.
From S2P Require Import Prelude HProp Mem Ordered OrderedSet History AvlModel AvlFacts AvlReach.
From S2P Require Import AvlCode AvlRefine AvlOps AvlDelete AvlTraverse AvlSet.

Open Scope Z_scope.

(** ** Calls and threads *)

Inductive tcall := KOp (o : op) | KLevel (func : ptr).

Inductive tpos :=
  | TIdle                        (* between two calls *)
  | TLock (o : op)               (* at pthread_mutex_lock *)
  | TBody (o : op)               (* holds the mutex, before its section *)
  | TUnlock (o : op) (r : reply) (* holds the mutex, after its section *)
  | TLevel (func p_queue : ptr). (* at the test of the loop of avl_level_order *)

Record tthread := TThread { tcalls : list tcall; tat : tpos; tlog : list (op * reply) }.

Record tst := TSt { tstore : state cell; tthreads : list tthread }.

Inductive toutcome := TBlocked | TCrash (e : error) | TNext (s : tst).

Section moves.
Context (cmp_env : ptr → ptr → ptr → Z) (p : ptr).

(** ** The sections of a call *)

Definition do_section : op → prog reply :=
  do_op (insert_section cmp_env) (delete_section cmp_env) (search_section cmp_env)
    inorder_section count_section p.

(** What a call with a NULL argument returns. *)
Definition null_reply (o : op) : reply :=
  match o with
  | OpInsert _ => RInserted
  | OpDelete _ => RDeleted false
  | OpFind _ => RFound NULL
  | OpWalk _ => RWalked
  | OpCount => RCount 0
  end.

(** [avl_level_order] up to its loop; NULL: it returns at once. *)
Definition level_start (func : ptr) : prog ptr :=
  root ← get p_root p;
  if (root =? NULL) || (func =? NULL) then mret NULL else
  p_queue ← queue_create;
  if p_queue =? NULL then mret NULL else
  root ← get p_root p;
  enqueue p_queue root;;
  mret p_queue.

(** Run in sequence the sections are the functions of avl_tree_lib.c. *)
Lemma sections_of_op o s : p ≠ NULL →
  do_op (avl_insert cmp_env) (avl_delete_node cmp_env) (avl_search cmp_env)
    avl_inorder avl_total_elements p o s =
  (if null_arg o then mret (null_reply o)
   else lock_tree p;; r ← do_section o; unlock_tree p;; mret r) s.
Proof.
  intros Hp. unfold do_op, do_section, avl_insert, avl_delete_node, avl_search, avl_inorder,
    avl_total_elements.
  destruct o as [d|d|d|g|]; simpl; rw (eqb_null_false _ Hp) /=;
    [destruct (d =? NULL)|destruct (d =? NULL)|destruct (d =? NULL)|destruct (g =? NULL)|]; try done;
    unfold mbind, M_bind, mret, M_ret; destruct (lock_tree p s) as [[] s1|]; try done.
  - destruct (insert_section cmp_env p d s1) as [[] s2|]; [|done].
    by destruct (unlock_tree p s2).
  - destruct (delete_section cmp_env p d s1) as [b s2|]; [|done].
    by destruct (unlock_tree p s2).
  - destruct (search_section cmp_env p d s1) as [x s2|]; [|done].
    by destruct (unlock_tree p s2).
  - destruct (inorder_section p g s1) as [[] s2|]; [|done]. by destruct (unlock_tree p s2).
  - destruct (count_section p s1) as [x s2|]; [|done]. by destruct (unlock_tree p s2).
Qed.

Lemma sections_of_level_order func s : p ≠ NULL →
  avl_level_order p func s =
  (p_queue ← level_start func;
   if p_queue =? NULL then mret () else
   fuel ← heap_fuel;
   level_loop (λ d, call_user func [d]) fuel p_queue;; queue_destroy p_queue) s.
Proof.
  intros Hp. unfold avl_level_order, level_start. rw (eqb_null_false _ Hp).
  unfold mbind, M_bind, mret, M_ret. destruct (get p_root p s) as [root s1|]; [|done].
  destruct ((root =? NULL) || (func =? NULL)); [done|].
  destruct (queue_create s1) as [q s2|]; [|done]. destruct (q =? NULL) eqn:E; [done|].
  destruct (get p_root p s2) as [root' s3|]; [|done].
  destruct (enqueue q root' s3) as [[] s4|]; [|done]. by rw E.
Qed.

(** ** Moves *)

Definition trun {A} (i : nat) (c : prog A) (k : A → tthread) (s : tst) : toutcome :=
  match c (tstore s) with
  | Ok a st => TNext (TSt st (<[i := k a]> (tthreads s)))
  | Err e => TCrash e
  end.

(** The mutex of the tree is taken. *)
Definition mutex_taken (s : state cell) : bool :=
  match get p_tree_lock p s with Ok MutexHeld _ => true | _ => false end.

Definition texec (i : nat) (s : tst) : toutcome :=
  match tthreads s !! i with
  | None => TBlocked
  | Some t =>
    let done_with o r := TThread (tcalls t) TIdle (tlog t ++ [(o, r)]) in
    let goto a := TThread (tcalls t) a (tlog t) in
    match tat t with
    | TIdle =>
      match tcalls t with
      | [] => TBlocked
      | KOp o :: cs =>
        trun i (mret ()) (λ _, if null_arg o then TThread cs TIdle (tlog t ++ [(o, null_reply o)])
                               else TThread cs (TLock o) (tlog t)) s
      | KLevel func :: cs =>
        trun i (level_start func) (λ q, TThread cs (if q =? NULL then TIdle else TLevel func q) (tlog t)) s
      end
    | TLock o =>
      if mutex_taken (tstore s) then TBlocked
      else trun i (lock_tree p) (λ _, goto (TBody o)) s
    | TBody o => trun i (do_section o) (λ r, goto (TUnlock o r)) s
    | TUnlock o r => trun i (unlock_tree p) (λ _, done_with o r) s
    | TLevel func q =>
      trun i (b ← queue_is_empty q;
              (if b : bool then queue_destroy q else level_visit (λ d, call_user func [d]) q);;
              mret b)
        (λ b, goto (if b : bool then TIdle else TLevel func q)) s
    end
  end.

(** A schedule; a thread that cannot move is skipped. *)
Fixpoint texec_all (sched : list nat) (s : tst) : toutcome :=
  match sched with
  | [] => TNext s
  | i :: sched => match texec i s with
                  | TNext s => texec_all sched s
                  | TBlocked => texec_all sched s
                  | TCrash e => TCrash e
                  end
  end.
End moves.

Definition tinit (m : gmap Z cell) (w : world) (progs : list (list tcall)) : tst :=
  TSt (State m w) ((λ cs, TThread cs TIdle []) <$> progs).
