(* ===== verification/AvlConcInv.v ===== *)
(** * AvlConcInv: the shared tree under insertions of new elements and the other calls

    However the threads interleave, at most one of them holds the mutex, and the
    tree represents what the sections that have run leave when the calls are made
    one after the other.  The elements that are still to be inserted are different
    from each other and from those of the tree. *)

From iris.proofmode Require Import environments proofmode.
From stdpp Require Import gmap strings.
From S2P Require Import Prelude HProp Mem Ordered OrderedSet History AvlModel AvlFacts AvlReach.
From S2P Require Import AvlCode AvlRefine AvlOps AvlDelete AvlTraverse AvlSet AvlConc.

Open Scope Z_scope.

(** The operations of a thread that have not had their effect. *)
Definition current (a : tpos) : list op :=
  match a with TLock o | TBody o => [o] | _ => [] end.
Definition ops_of_call (c : tcall) : list op := match c with KOp o => [o] | KLevel _ => [] end.
Definition unfinished (t : tthread) : list op := current (tat t) ++ (tcalls t ≫= ops_of_call).

(** The operation that has had its effect and has not returned. *)
Definition returning (a : tpos) : list (op * reply) :=
  match a with TUnlock o r => [(o, r)] | _ => [] end.

Definition holding (a : tpos) : bool := match a with TBody _ | TUnlock _ _ => true | _ => false end.

(** No thread is in, or will call, [avl_level_order]. *)
Definition only_ops (t : tthread) : bool :=
  forallb (λ c, match c with KOp _ => true | KLevel _ => false end) (tcalls t) &&
  match tat t with TLevel _ _ => false | _ => true end.

(** The elements that are still to be inserted. *)
Definition new_of (o : op) : list ptr := match o with OpInsert d => [d] | _ => [] end.
Definition news (t : tthread) : list ptr := unfinished t ≫= new_of.
Definition pending (ts : list tthread) : list ptr := ts ≫= news.

Lemma pending_moved ts i t t' : ts !! i = Some t →
  news t ++ pending (<[i := t']> ts) ≡ₚ news t' ++ pending ts.
Proof.
  intros H. unfold pending. rw insert_take_drop; [|by eapply lookup_lt_Some].
  rw -{3}(take_drop_middle ts i t H) !bind_app !bind_cons. solve_Permutation.
Qed.

Lemma pending_same ts i t t' : ts !! i = Some t → news t' = news t →
  pending (<[i := t']> ts) ≡ₚ pending ts.
Proof.
  intros H E. pose proof (pending_moved ts i t t' H) as Hp. rw E in Hp.
  by apply Permutation_app_inv_l in Hp.
Qed.

Lemma insertions_new o : insertions [o] = length (new_of o).
Proof. by destruct o. Qed.

(** Each operation takes four moves. *)
Definition trank (t : tthread) : nat :=
  4 * length (tcalls t) +
  match tat t with TIdle => 0 | TUnlock _ _ => 1 | TBody _ => 2 | TLock _ => 3 | TLevel _ _ => 0 end.
Definition tmeasure (s : tst) : nat := sum_list_with trank (tthreads s).

Lemma trun_decreases {A} i t (c : prog A) k s s' :
  tthreads s !! i = Some t → (∀ a, (trank (k a) < trank t)%nat) → trun i c k s = TNext s' →
  (tmeasure s' < tmeasure s)%nat.
Proof.
  unfold trun. intros Ht Hk H. destruct (c (tstore s)) as [a st|]; [|done]. injection H as <-.
  unfold tmeasure. simpl. pose proof (sum_list_with_insert trank (tthreads s) i t (k a) Ht). specialize (Hk a). lia.
Qed.

Definition history := list (nat * (op * reply)).
Definition hops (h : history) : list op := map (λ x, x.2.1) h.
Definition hreplies (h : history) : list reply := map (λ x, x.2.2) h.

Section inv.
Context (cmp_env : ptr → ptr → ptr → Z) (f fr p : ptr) (progs : list (list op)).
Context (w0 : world) (Hw0 : calloc_plan w0 = []) (Hf : f ≠ NULL) (Hfr : fr ≠ NULL).
Context `{Hcmp : !CmpLaws (cmp_env f)}.

Definition lock_state (holder : option nat) : mutex :=
  match holder with Some _ => MutexHeld | None => MutexFree end.

(** What concerns one thread. *)
Record thread_ok (h : history) (holder : option nat) (i : nat) (t : tthread) : Prop := {
  ok_program : progs !! i = Some (map fst (calls_of i h) ++ unfinished t);
  ok_history : calls_of i h = tlog t ++ returning (tat t);
  ok_holder : holding (tat t) = bool_decide (holder = Some i);
  ok_args : Forall (λ o, null_arg o = false) (unfinished t);
  ok_ops : only_ops t = true
}.

(** The history explains the contents [xs] and the calls [es] of the destructor. *)
Definition explains (h : history) (xs : list ptr) (es : list event) : Prop :=
  spec_ops (cmp_env f) (freed fr) (hops h) [] = (xs, hreplies h, es).

Record inv (s : tst) (h : history) (xs : list ptr) (es : list event) (holder : option nat) : Prop := {
  inv_spec : explains h xs es;
  inv_world : wld (tstore s) = emits es w0;
  inv_threads : ∀ i t, tthreads s !! i = Some t → thread_ok h holder i t;
  inv_foreign : ∀ i, tthreads s !! i = None → calls_of i h = [] ∧ holder ≠ Some i;
  inv_new : distinct (cmp_env f) (pending (tthreads s) ++ xs);
  inv_heap : holds (avl_set cmp_env f fr (lock_state holder) p (length (pending (tthreads s))) xs)
                   (memory (tstore s))
}.

(** What a move of thread [i] achieves. *)
Record move_ok (i : nat) (t t' : tthread) (ts : list tthread) (h h' : history) (xs xs' : list ptr)
    (es es' : list event) (holder holder' : option nat) : Prop := {
  move_spec : explains h' xs' es';
  move_others : ∀ j, j ≠ i →
    calls_of j h' = calls_of j h ∧ bool_decide (holder' = Some j) = bool_decide (holder = Some j);
  move_thread : thread_ok h' holder' i t';
  move_new : distinct (cmp_env f) (pending (<[i := t']> ts) ++ xs')
}.

Lemma tsection_keeps {A} i t (c : prog A) (k : A → tthread) s h xs es holder :
  inv s h xs es holder → tthreads s !! i = Some t →
  (avl_set cmp_env f fr (lock_state holder) p (length (pending (tthreads s))) xs ⊢
     wp c (emits es w0) (λ a w', ∃ h' xs' es' holder',
       ⟪move_ok i t (k a) (tthreads s) h h' xs xs' es es' holder holder' ∧ w' = emits es' w0⟫ ∗
       avl_set cmp_env f fr (lock_state holder') p
         (length (pending (<[i := k a]> (tthreads s)))) xs')) →
  ∃ s' h' xs' es' holder', trun i c k s = TNext s' ∧ inv s' h' xs' es' holder'.
Proof.
  intros [Hspec Hw Hth Hfor Hnew Hheap] Ht Hwp. rw -Hw in Hwp.
  destruct (wp_runs c _ (tstore s) _ Hheap Hwp) as (a & m' & w' & Hrun & HQ).
  apply holds_exist in HQ as (h' & HQ). apply holds_exist in HQ as (xs' & HQ).
  apply holds_exist in HQ as (es' & HQ). apply holds_exist in HQ as (holder' & HQ).
  apply holds_sep in HQ as (m1 & m2 & -> & _ & [-> [Hm ->]]%holds_affine & HQ).
  exists (TSt (State m2 (emits es' w0)) (<[i := k a]> (tthreads s))), h', xs', es', holder'. split.
  { unfold trun. rw Hrun. by rw left_id_L. }
  destruct Hm as [Hspec' Hoth Hok Hnew']. split; simpl; try done.
  - intros j u [(<- & <- & _)|[Hne Hu]]%list_lookup_insert_Some; [done|].
    destruct (Hoth j ltac:(congruence)) as [Hc Hh]. destruct (Hth j u Hu) as [H1 H2 H3 H4 H5].
    split; rw ?Hc ?Hh; done.
  - intros j Hj. destruct (decide (j = i)) as [->|Hne].
    + rw list_lookup_insert_eq in Hj; [done|by eapply lookup_lt_Some].
    + rw list_lookup_insert_ne in Hj; [|done]. destruct (Hoth j Hne) as [Hc Hh].
      destruct (Hfor j Hj) as [Hc' Hh']. rw (bool_decide_eq_false_2 (holder = Some j)) // in Hh.
      apply bool_decide_eq_false in Hh. by rw Hc.
Qed.
(** ** The kinds of moves *)

Abbreviation keeps o := (∃ s' h xs es holder, o = TNext s' ∧ inv s' h xs es holder).

Lemma thread_goto h holder i t t' :
  thread_ok h holder i t → unfinished t' = unfinished t → tlog t' = tlog t →
  returning (tat t) = [] → returning (tat t') = [] → holding (tat t') = holding (tat t) →
  only_ops t' = true → thread_ok h holder i t'.
Proof. intros [H1 H2 H3 H4 H5] Eu El Er Er' Eh Eo. split; rw ?Eu ?El ?Er' ?Eh; try done. by rw H2 Er. Qed.

Lemma unfinished_news t t' : unfinished t' = unfinished t → news t' = news t.
Proof. unfold news. by intros ->. Qed.

Lemma new_kept ts ts' xs : pending ts' ≡ₚ pending ts →
  distinct (cmp_env f) (pending ts ++ xs) → distinct (cmp_env f) (pending ts' ++ xs).
Proof. intros Hp. apply (distinct_permutation (cmp_env f)). by rw Hp. Qed.

(** A call begins. *)
Lemma start_keeps s h xs es holder i o cs lg :
  inv s h xs es holder → tthreads s !! i = Some (TThread (KOp o :: cs) TIdle lg) →
  keeps (texec cmp_env p i s).
Proof.
  intros I Ht. pose proof (inv_threads _ _ _ _ _ I _ _ Ht) as Hok.
  unfold texec. rw Ht /=. eapply (tsection_keeps i _ _ _ s); [done..|]. iIntros "H". wp_return.
  pose proof (Forall_inv (ok_args _ _ _ _ Hok)) as Harg. simpl in Harg.
  rw Harg. iExists h, xs, es, holder.
  pose proof (pending_same (tthreads s) i _ (TThread cs (TLock o) lg) Ht eq_refl) as Hp.
  rw (Permutation_length Hp). iFrame. iPureIntro. split; [|done]. split; try done.
  - apply I.
  - eapply thread_goto; [exact Hok|done..|]. by destruct Hok as [_ _ _ _ ?].
  - by apply (new_kept (tthreads s)), I.
Qed.

(** The mutex is taken by a thread that waits for it, when no other has it. *)
Lemma mutex_taken_holder s h xs es holder :
  inv s h xs es holder → mutex_taken p (tstore s) = bool_decide (is_Some holder).
Proof.
  intros I. pose proof (inv_heap _ _ _ _ _ I) as Hheap.
  destruct (wp_runs (get p_tree_lock p) _ (tstore s) (λ mx _, (⟪mx = lock_state holder⟫ ∗ True)%I) Hheap)
    as (mx & m' & w' & Hrun & HQ).
  { iIntros "(%t & _ & (%root & %disp & Hp & Ht))". iApply (wp_get with "Hp"). iIntros "_". by iSplit. }
  apply holds_sep in HQ as (m1 & m2 & _ & _ & [_ ->]%holds_affine & _).
  unfold mutex_taken. rw Hrun. by destruct holder.
Qed.

Lemma lock_keeps s h xs es i o cs lg :
  inv s h xs es None → tthreads s !! i = Some (TThread cs (TLock o) lg) →
  keeps (texec cmp_env p i s).
Proof.
  intros I Ht. pose proof (inv_threads _ _ _ _ _ I _ _ Ht) as Hok.
  unfold texec. rw Ht /= (mutex_taken_holder _ _ _ _ _ I) bool_decide_eq_false_2; [|by intros []].
  eapply (tsection_keeps i _ _ _ s); [done..|]. iIntros "H".
  iApply (wp_set_lock with "H"). iIntros "H". iExists h, xs, es, (Some i).
  pose proof (pending_same (tthreads s) i _ (TThread cs (TBody o) lg) Ht eq_refl) as Hp.
  rw (Permutation_length Hp). iFrame. iPureIntro. split; [|done]. split.
  - apply I.
  - intros j Hj. split; [done|]. rw !bool_decide_eq_false_2; congruence.
  - destruct Hok as [H1 H2 H3 H4 H5]. split; try done. simpl. by rw bool_decide_eq_true_2.
  - by apply (new_kept (tthreads s)), I.
Qed.
(** The section of an operation. *)
Lemma spec_op_contents cmp freed o xs : admissible cmp o xs = true →
  ∃ gone, gone ++ (spec_op cmp freed o xs).1.1 ≡ₚ new_of o ++ xs.
Proof.
  intros [_ Ho]%andb_true_iff. destruct o as [d|d|d|g|]; simpl.
  - exists []. apply bool_decide_eq_true in Ho. by apply list_insert_perm.
  - eexists. apply list_delete_perm.
  - by exists [].
  - by exists [].
  - by exists [].
Qed.

Lemma explains_snoc h xs es i o :
  explains h xs es →
  explains (h ++ [(i, (o, (spec_op (cmp_env f) (freed fr) o xs).1.2))])
    (spec_op (cmp_env f) (freed fr) o xs).1.1 (es ++ (spec_op (cmp_env f) (freed fr) o xs).2).
Proof.
  unfold explains, hops, hreplies. intros H. rw !map_app /= spec_ops_snoc H.
  by destruct (spec_op _ _ o xs) as [[ys r] es'].
Qed.

Lemma body_keeps s h xs es holder i o cs lg :
  inv s h xs es holder → tthreads s !! i = Some (TThread cs (TBody o) lg) →
  keeps (texec cmp_env p i s).
Proof.
  intros I Ht. pose proof (inv_threads _ _ _ _ _ I _ _ Ht) as [H1 H2 H3 H4 H5].
  symmetry in H3. apply bool_decide_eq_true in H3 as ->.
  pose proof (inv_new _ _ _ _ _ I) as Hnew.
  unfold texec. rw Ht /=. eapply (tsection_keeps i _ _ _ s); [done..|].
  assert (∀ r, pending (tthreads s) ≡ₚ new_of o ++ pending (<[i := TThread cs (TUnlock o r) lg]> (tthreads s))) as Hp.
  { intros r. pose proof (pending_moved (tthreads s) i _ (TThread cs (TUnlock o r) lg) Ht) as Hm.
    unfold news, unfinished in Hm. simpl in Hm. rw -app_assoc in Hm.
    apply (Permutation_app_inv_l (((cs ≫= ops_of_call) ≫= new_of))). rw -Hm. solve_Permutation. }
  assert (admissible (cmp_env f) o xs = true) as Hadm.
  { apply Forall_inv in H4. unfold admissible. rw H4 /=.
    destruct o as [d|d|d|g|]; try done. apply bool_decide_eq_true.
    specialize (Hp RInserted).
    eapply (distinct_new _ d xs), distinct_permutation; [done| |exact Hnew].
    rw Hp /=. constructor. apply Permutation_app_comm. }
  rw (Permutation_length (Hp (spec_op (cmp_env f) (freed fr) o xs).1.2)) length_app -insertions_new.
  pose proof (sections_ordered_set cmp_env f fr Hf Hfr MutexHeld) as Hset.
  iIntros "H". iApply (wp_do_op (cmp_env f) (freed fr) _ _ _ _ _ p with "H"); [done|done|].
  iIntros "H". iExists (h ++ [(i, (o, _))]), _, _, (Some i). iFrame "H". iPureIntro. rw emits_app. split; [|done]. split.
  - apply explains_snoc, I.
  - intros j Hj. by rw calls_of_app (calls_of_other i j) // app_nil_r.
  - unfold unfinished in *. split; simpl in *; rw ?calls_of_app ?calls_of_one; try done.
    + by rw map_app /= -app_assoc.
    + by rw H2 app_nil_r.
    + by rw bool_decide_eq_true_2.
    + by apply Forall_inv_tail in H4.
  - destruct (spec_op_contents _ (freed fr) _ _ Hadm) as [gone Hgone].
    apply (distinct_app_r (cmp_env f) gone). eapply distinct_permutation; [done| |exact Hnew].
    rw (Hp (spec_op (cmp_env f) (freed fr) o xs).1.2) -app_assoc.
    rw (Permutation_app_comm (pending _) xs) app_assoc -Hgone. solve_Permutation.
Qed.

(** The mutex is given back and the call returns. *)
Lemma unlock_keeps s h xs es holder i o r cs lg :
  inv s h xs es holder → tthreads s !! i = Some (TThread cs (TUnlock o r) lg) →
  keeps (texec cmp_env p i s).
Proof.
  intros I Ht. pose proof (inv_threads _ _ _ _ _ I _ _ Ht) as [H1 H2 H3 H4 H5].
  symmetry in H3. apply bool_decide_eq_true in H3 as ->.
  unfold texec. rw Ht /=. eapply (tsection_keeps i _ _ _ s); [done..|].
  iIntros "H". iApply (wp_set_unlock with "H"). iIntros "H". iExists h, xs, es, None.
  pose proof (pending_same (tthreads s) i _ (TThread cs TIdle (lg ++ [(o, r)])) Ht eq_refl) as Hp.
  rw (Permutation_length Hp). iFrame. iPureIntro. split; [|done]. split.
  - apply I.
  - intros j Hj. split; [done|]. rw !bool_decide_eq_false_2; congruence.
  - split; try done. by rw H2 /= app_nil_r.
  - by apply (new_kept (tthreads s)), I.
Qed.

Lemma texec_keeps s h xs es holder i :
  inv s h xs es holder → texec cmp_env p i s = TBlocked ∨ keeps (texec cmp_env p i s).
Proof.
  intros I. destruct (tthreads s !! i) as [[cs a lg]|] eqn:Ht; [|left; unfold texec; by rw Ht].
  pose proof (ok_ops _ _ _ _ (inv_threads _ _ _ _ _ I _ _ Ht)) as Hops.
  destruct a as [|o|o|o r|g q].
  - destruct cs as [|[o|g] cs]; [left; unfold texec; by rw Ht|right|done].
    by eapply start_keeps.
  - destruct holder as [j|].
    + left. unfold texec. by rw Ht /= (mutex_taken_holder _ _ _ _ _ I).
    + right. by eapply lock_keeps.
  - right. by eapply body_keeps.
  - right. by eapply unlock_keeps.
  - unfold only_ops in Hops. by apply andb_true_iff in Hops as [_ ?].
Qed.

Lemma texec_all_keeps sched s h xs es holder :
  inv s h xs es holder → keeps (texec_all cmp_env p sched s).
Proof.
  revert s h xs es holder. induction sched as [|i sched IH]; intros s h xs es holder I; simpl.
  - by exists s, h, xs, es, holder.
  - destruct (texec_keeps s h xs es holder i I) as [->|(s' & h' & xs' & es' & hd & -> & I')]; eauto.
Qed.

(** No deadlock: a thread that has something to do can move, or the owner of the mutex can. *)
Lemma some_thread_moves s h xs es holder i t :
  inv s h xs es holder → tthreads s !! i = Some t → tat t ≠ TIdle ∨ tcalls t ≠ [] →
  ∃ j s', texec cmp_env p j s = TNext s'.
Proof.
  intros I Ht Hbusy.
  assert (∀ j, texec cmp_env p j s ≠ TBlocked → ∃ j s', texec cmp_env p j s = TNext s') as Hgo.
  { intros j Hj. destruct (texec_keeps s h xs es holder j I) as [?|(s' & ? & ? & ? & ? & ? & _)]; [done|eauto]. }
  assert (∀ j u, tthreads s !! j = Some u → holding (tat u) = true → texec cmp_env p j s ≠ TBlocked) as Hown.
  { intros j u Hu Hh. unfold texec. rw Hu. destruct (tat u); try done; unfold trun; by case_match. }
  destruct holder as [j|].
  - destruct (tthreads s !! j) as [u|] eqn:Hu.
    + apply (Hgo j), (Hown j u Hu). rw (ok_holder _ _ _ _ (inv_threads _ _ _ _ _ I _ _ Hu)).
      by apply bool_decide_eq_true.
    + by destruct (inv_foreign _ _ _ _ _ I j Hu).
  - apply (Hgo i). unfold texec. rw Ht (mutex_taken_holder _ _ _ _ _ I).
    rw bool_decide_eq_false_2; [|by intros []].
    destruct t as [cs [|o|o|o r|g q] lg]; simpl in *; [|unfold trun; by case_match..].
    destruct cs as [|[o|g] cs]; [by destruct Hbusy|unfold trun; by case_match..].
Qed.
Definition tidle (t : tthread) : bool :=
  match tat t, tcalls t with TIdle, [] => true | _, _ => false end.

(** Until all threads have finished; then the tree is all there is. *)
Lemma moves_or_finished s h xs es holder :
  inv s h xs es holder →
  (∃ i s', texec cmp_env p i s = TNext s') ∨
  ((∀ i t, tthreads s !! i = Some t → unfinished t = [] ∧ returning (tat t) = []) ∧
   holds (avl_set cmp_env f fr MutexFree p 0 xs) (memory (tstore s))).
Proof.
  intros I.
  destruct (decide (Forall (λ t, tidle t = true) (tthreads s))) as [Hd|Hd].
  - right. rw Forall_lookup in Hd.
    assert (∀ i t, tthreads s !! i = Some t → tat t = TIdle ∧ tcalls t = []) as Hidle.
    { intros i [cs a lg] Ht. specialize (Hd i _ Ht). by destruct a, cs. }
    clear Hd. split.
    { intros i [cs a lg] Ht. destruct (Hidle i _ Ht) as [Ha Hc]. simpl in *. by subst. }
    pose proof (inv_heap _ _ _ _ _ I) as Hheap.
    replace (pending (tthreads s)) with (@nil ptr) in Hheap.
    { replace holder with (@None nat) in Hheap; [done|]. destruct holder as [i|]; [|done].
      destruct (tthreads s !! i) as [t|] eqn:Ht; [|by destruct (inv_foreign _ _ _ _ _ I i Ht)].
      pose proof (ok_holder _ _ _ _ (inv_threads _ _ _ _ _ I i t Ht)) as Hh.
      destruct (Hidle i t Ht) as [Ha _]. rw Ha bool_decide_eq_true_2 // in Hh. }
    clear -Hidle. unfold pending. induction (tthreads s) as [|t ts IH]; [done|]. rw bind_cons -IH.
    + destruct (Hidle 0%nat t eq_refl) as [Ha Hc]. unfold news, unfinished. by rw Ha Hc.
    + intros i u Hu. by apply (Hidle (S i)).
  - left. apply not_Forall_Exists, Exists_exists in Hd as (t & [i Ht]%list_elem_of_lookup & Hn);
      [|apply _]. eapply some_thread_moves; [done..|].
    destruct t as [[|c cs] [] lg]; simpl in *; (by left) || (by right) || by destruct Hn.
Qed.

(** Every move brings the threads closer to their end. *)
Lemma texec_decreases s h xs es holder i s' :
  inv s h xs es holder → texec cmp_env p i s = TNext s' → (tmeasure s' < tmeasure s)%nat.
Proof.
  clear Hw0 Hf Hfr Hcmp.
  intros I. unfold texec. destruct (tthreads s !! i) as [[cs a lg]|] eqn:Ht; [|done].
  pose proof (ok_ops _ _ _ _ (inv_threads _ _ _ _ _ I _ _ Ht)) as Hops.
  apply andb_true_iff in Hops as [Hcs Ha]. simpl.
  destruct a as [|o|o|o r|g q]; [destruct cs as [|[o|g] cs]| | | |]; try done.
  all: try (intros H; eapply trun_decreases; [exact Ht| |exact H]; intros b; unfold trank; simpl;
            try destruct (null_arg o); simpl; lia).
  destruct (mutex_taken p (tstore s)); [done|].
  intros H; eapply trun_decreases; [exact Ht| |exact H]; intros b; unfold trank; simpl; lia.
Qed.

(** ** The first state *)

Definition tprograms : list (list tcall) := map KOp <$> progs.
Definition all_new : list ptr := progs ≫= λ os, os ≫= new_of.

Lemma ops_of_calls os : map KOp os ≫= ops_of_call = os.
Proof. induction os as [|o os IH]; [done|]. simpl map. by rw bind_cons IH. Qed.

Lemma pending_init : pending ((λ cs, TThread cs TIdle []) <$> tprograms) = all_new.
Proof.
  unfold pending, all_new, tprograms. clear. induction progs as [|os pr IH]; [done|].
  rw !fmap_cons !bind_cons IH. f_equal. unfold news, unfinished. by rw /= ops_of_calls.
Qed.

Lemma tinv_init m :
  p ≠ NULL → Forall (Forall (λ o, null_arg o = false)) progs → distinct (cmp_env f) all_new →
  Z.of_nat (length all_new) < INT_MAX - 3 →
  holds (avl_at p Leaf 0 f fr MutexFree) m →
  inv (tinit m w0 tprograms) [] [] [] None.
Proof.
  intros Hp Hargs Hnew Hlen Hm. unfold tinit. split; cbn [tstore tthreads memory wld]; rw ?pending_init ?app_nil_r; try done.
  - by rw emits_nil.
  - intros i t Ht. rw !list_lookup_fmap in Ht. destruct (progs !! i) as [os|] eqn:E; [|done].
    injection Ht as <-. rw Forall_lookup in Hargs. specialize (Hargs i os E).
    split; unfold unfinished; simpl; rw ?ops_of_calls; try done. unfold only_ops. simpl.
    rw andb_true_r. apply forallb_forall. intros c (o & <- & _)%in_map_iff. done.
  - eapply holds_entails; [|exact Hm]. iIntros "Ht". iExists Leaf. iFrame. iPureIntro.
    unfold in_range. simpl. split_and!; [done|done|constructor|done|lia|lia].
Qed.
End inv.
