(* ===== verification/AvlConcProps.v ===== *)
(** * AvlConcProps: what several threads may and may not do with one tree

    Their calls are linearisable as long as none of them walks the levels; what a deletion
    does to such a walk is in the file AvlRace, what an insertion does to it is run here. *)

From iris.proofmode Require Import environments proofmode.
From stdpp Require Import gmap strings.
From S2P Require Import Prelude HProp Mem Ordered OrderedSet History AvlModel AvlFacts AvlReach.
From S2P Require Import AvlCode AvlRefine AvlOps AvlDelete AvlTraverse AvlSet AvlConc AvlConcInv.

Open Scope Z_scope.

(** The threads have returned from all their calls. *)
Definition tfinished (s : tst) : Prop :=
  ∀ i t, tthreads s !! i = Some t → unfinished t = [] ∧ returning (tat t) = [].

(** C8: when every call of [calloc] succeeds: one tree shared by any number of threads that insert elements different from
    each other, delete, search, count and walk in order, under any interleaving of their calls
    cut at the mutex:
    no call fails; two threads are never in their critical sections together; there is
    a sequential history, with the finished calls of every thread and their replies in the
    order of the thread, on which a sorted list gives the same replies and the same
    calls of the destructor and of the walking functions, in one order; some thread can move until all have finished, and then
    nothing but the tree with these contents is allocated. *)
Theorem avl_concurrent_linearisable cmp_env f fr p m w progs sched :
  CmpLaws (cmp_env f) → f ≠ NULL → fr ≠ NULL → p ≠ NULL → calloc_plan w = [] →
  Forall (Forall (λ o, null_arg o = false)) progs →
  distinct (cmp_env f) (all_new progs) → Z.of_nat (length (all_new progs)) < INT_MAX - 3 →
  holds (avl_at p Leaf 0 f fr MutexFree) m →
  ∃ s h xs es, texec_all cmp_env p sched (tinit m w (tprograms progs)) = TNext s ∧
    spec_ops (cmp_env f) (freed fr) (hops h) [] = (xs, hreplies h, es) ∧
    wld (tstore s) = emits es w ∧
    (∀ i t, tthreads s !! i = Some t →
       progs !! i = Some (map fst (calls_of i h) ++ unfinished t) ∧
       calls_of i h = tlog t ++ returning (tat t)) ∧
    (∀ i j t u, tthreads s !! i = Some t → tthreads s !! j = Some u →
       holding (tat t) = true → holding (tat u) = true → i = j) ∧
    ((∃ i s', texec cmp_env p i s = TNext s') ∨
     (tfinished s ∧ holds (avl_set cmp_env f fr MutexFree p 0 xs) (memory (tstore s)))) ∧
    (∀ i s', texec cmp_env p i s = TNext s' → (tmeasure s' < tmeasure s)%nat).
Proof.
  intros Hcmp Hf Hfr Hp Hw Hargs Hnew Hlen Hm.
  pose proof (tinv_init cmp_env f fr p progs w m Hp Hargs Hnew Hlen Hm) as I0.
  destruct (texec_all_keeps cmp_env f fr p progs w Hw Hf Hfr sched _ _ _ _ _ I0)
    as (s & h & xs & es & holder & Hrun & I).
  exists s, h, xs, es. split_and!; [done|by apply I|by apply I| | | |].
  - intros i t Ht. destruct (inv_threads _ _ _ _ _ _ _ _ _ _ _ I i t Ht) as [H1 H2 _ _ _]. done.
  - intros i j t u Ht Hu Hi Hj.
    rw (ok_holder _ _ _ _ _ (inv_threads _ _ _ _ _ _ _ _ _ _ _ I i t Ht)) in Hi.
    rw (ok_holder _ _ _ _ _ (inv_threads _ _ _ _ _ _ _ _ _ _ _ I j u Hu)) in Hj.
    apply bool_decide_eq_true in Hi. apply bool_decide_eq_true in Hj. congruence.
  - by eapply moves_or_finished.
  - intros i s' H. by eapply texec_decreases.
Qed.

(** Comparison function 2 orders numbers; the tree object is at 1. *)
Definition tcmp_ex (f a b : ptr) : Z := zcmp a b.
Definition theap_ex : gmap Z cell := {[1 := CTree (AvlTree 0 0 2 0 3 MutexFree)]}.
Definition tworld_ex : world := World [] [] 0 [].
Definition tprogs_ex : list (list op) :=
  [[OpInsert 20; OpWalk 4]; [OpInsert 10; OpCount; OpDelete 20]].

Lemma theap_ex_tree : holds (avl_at 1 Leaf 0 2 3 MutexFree) theap_ex.
Proof.
  assert (1 ↦ as_cell (AvlTree 0 0 2 0 3 MutexFree) ⊢ avl_at 1 Leaf 0 2 3 MutexFree) as [H].
  { iIntros "H". iExists 0, 0. iFrame. by iPureIntro. }
  apply H, holds_pointsto. split; [reflexivity|discriminate].
Qed.

(** The first thread waits while the second one inserts. *)
Lemma avl_concurrent_linearisable_witness :
  ∃ s h xs es,
    texec_all tcmp_ex 1 [1; 1; 0; 0; 1; 0; 1; 0; 0; 0]%nat (tinit theap_ex tworld_ex (tprograms tprogs_ex)) =
      TNext s ∧
    spec_ops (tcmp_ex 2) (freed 3) (hops h) [] = (xs, hreplies h, es).
Proof.
  destruct (avl_concurrent_linearisable tcmp_ex 2 3 1 theap_ex tworld_ex tprogs_ex
    [1; 1; 0; 0; 1; 0; 1; 0; 0; 0]%nat) as (s & h & xs & es & Hrun & Hspec & _).
  - apply zcmp_laws.
  - discriminate.
  - discriminate.
  - discriminate.
  - reflexivity.
  - repeat constructor; discriminate.
  - repeat constructor; discriminate.
  - reflexivity.
  - exact theap_ex_tree.
  - exists s, h, xs, es. split; [exact Hrun|exact Hspec].
Defined.

(** Two threads: the first inserts five elements and calls [avl_level_order], the second
    inserts [d] when the walk has visited the root. *)
Definition level_race_ex (d : ptr) : toutcome :=
  texec_all tcmp_ex 1 (replicate 22 0 ++ replicate 4 1 ++ replicate 12 0)%nat
    (tinit theap_ex tworld_ex
       [map (λ d, KOp (OpInsert d)) [30; 10; 40; 5; 20] ++ [KLevel 4]; [KOp (OpInsert d)]]).

(** The walk has returned and has called its function on the elements [ds]. *)
Definition walked (ds : list ptr) (o : toutcome) : Prop :=
  ∃ s, o = TNext s ∧ tat <$> tthreads s = [TIdle; TIdle] ∧ trace (wld (tstore s)) = calls 4 ds.

(** Without any deletion a walk that is not alone can be wrong too: an insertion that rotates the
    root makes it miss an element that is in the tree all along, or visit elements twice. *)
Lemma avl_level_order_misses :
  walked [30; 10; 40; 5] (level_race_ex 25) ∧
  walked [30; 10; 40; 5; 30; 3; 20; 40] (level_race_ex 3).
Proof. split; eexists; split; vm_compute; by try split. Qed.
