(* ===== verification/AvlRace.v ===== *)
(** * AvlRace: a level-order walk while another thread deletes

    [avl_level_order] keeps the addresses of nodes in its queue and takes no mutex.  In the file
    every tree is labelled with the addresses of its nodes; a walk that nobody disturbs comes to
    each of them, and every deletion frees one, which does not depend on how far the
    walk has come (file Carry). *)

From iris.proofmode Require Import environments proofmode.
From stdpp Require Import gmap strings.
From S2P Require Import Prelude HProp Mem Carry Ordered OrderedSet AvlModel AvlFacts AvlReach.
From S2P Require Import AvlCode AvlRefine AvlOps AvlDelete AvlTraverse AvlSet AvlConc.

Open Scope Z_scope.

(** ** Deletion does the same in every larger heap *)

Section deletion.
Context (cmp_env : ptr → ptr → ptr → Z).

Lemma carries_height a : carries (height a) (height a).
Proof. unfold height. carry. Qed.
#[local] Hint Resolve carries_height : carry.

Lemma carries_rotate_p_right a : carries (rotate_p_right a) (rotate_p_right a).
Proof. unfold rotate_p_right. carry. Qed.

Lemma carries_rotate_p_left a : carries (rotate_p_left a) (rotate_p_left a).
Proof. unfold rotate_p_left. carry. Qed.
#[local] Hint Resolve carries_rotate_p_right carries_rotate_p_left : carry.

Lemma carries_ref_get r : carries (ref_get r) (ref_get r).
Proof. destruct r; unfold ref_get; carry. Qed.

Lemma carries_ref_set r v : carries (ref_set r v) (ref_set r v).
Proof. destruct r; unfold ref_set; carry. Qed.

Lemma carries_call_cmp f a b : carries (call_cmp cmp_env f a b) (call_cmp cmp_env f a b).
Proof. unfold call_cmp. carry. Qed.
#[local] Hint Resolve carries_ref_get carries_ref_set carries_call_cmp : carry.

Lemma carries_find_successor n n' par succ :
  (n ≤ n')%nat → carries (find_successor n par succ) (find_successor n' par succ).
Proof.
  revert n' par succ. induction n as [|n IH]; intros n' par succ Hn; [apply carries_fail|].
  destruct n' as [|n']; [lia|]. simpl. carry. apply IH. lia.
Qed.

Lemma carries_delete_found n n' r fr :
  (n ≤ n')%nat → carries (delete_found n r fr) (delete_found n' r fr).
Proof. intros Hn. unfold delete_found. carry. by apply carries_find_successor. Qed.

Lemma carries_delete_rebalance r : carries (delete_rebalance r) (delete_rebalance r).
Proof. unfold delete_rebalance. carry. Qed.
#[local] Hint Resolve carries_delete_rebalance : carry.

Lemma carries_delete_node n n' r d f fr :
  (n ≤ n')%nat → carries (delete_node cmp_env n r d f fr) (delete_node cmp_env n' r d f fr).
Proof.
  revert n' r. induction n as [|n IH]; intros n' r Hn; [apply carries_fail|].
  destruct n' as [|n']; [lia|]. simpl. carry; try (apply IH; lia). apply carries_delete_found. lia.
Qed.

(** A call of [avl_delete_node] after the tests of its arguments. *)
Definition locked_delete (p d : ptr) : prog reply :=
  lock_tree p;; r ← do_section cmp_env p (OpDelete d); unlock_tree p;; mret r.

Lemma carries_locked_delete p d : carries (locked_delete p d) (locked_delete p d).
Proof.
  unfold locked_delete, lock_tree, mutex_lock, unlock_tree, mutex_unlock, do_section, do_op, delete_section.
  carry. by apply carries_delete_node.
Qed.

Lemma carries_queue_is_empty q : carries (queue_is_empty q) (queue_is_empty q).
Proof. unfold queue_is_empty. carry. Qed.

Lemma carries_dequeue q : carries (dequeue q) (dequeue q).
Proof. unfold dequeue. carry. Qed.
End deletion.

(** ** Trees labelled with addresses *)

Inductive atree := ALeaf | ANode (a : ptr) (l : atree) (d : ptr) (h : Z) (r : atree).

Definition addr (x : atree) : ptr := match x with ALeaf => NULL | ANode a _ _ _ _ => a end.
Fixpoint shape (x : atree) : tree :=
  match x with ALeaf => Leaf | ANode _ l d h r => Node (shape l) d h (shape r) end.
Fixpoint nodes_at (x : atree) : hPropI cell :=
  match x with
  | ALeaf => emp
  | ANode a l d h r => a ↦ as_cell (AvlNode d h (addr l) (addr r)) ∗ nodes_at l ∗ nodes_at r
  end%I.

Inductive sub : atree → atree → Prop :=
  | sub_refl x : sub x x
  | sub_left y a l d h r : sub y l → sub y (ANode a l d h r)
  | sub_right y a l d h r : sub y r → sub y (ANode a l d h r).

Lemma tree_at_labels a t : tree_at a t ⊢ ∃ x, ⟪shape x = t ∧ addr x = a⟫ ∗ nodes_at x.
Proof.
  revert a. induction t as [|l IHl d h r IHr]; iIntros (a) "Ht"; simpl.
  - iDestruct "Ht" as %->. by iExists ALeaf.
  - iDestruct "Ht" as (pl pr) "(Ha & Hl & Hr)".
    iDestruct (IHl with "Hl") as (x) "[%Hx Hl]". iDestruct (IHr with "Hr") as (y) "[%Hy Hr]".
    destruct Hx as [<- <-], Hy as [<- <-].
    iExists (ANode a x d h y). by iFrame.
Qed.

Lemma nodes_at_sub y x : sub y x → nodes_at x ⊢ nodes_at y ∗ (nodes_at y -∗ nodes_at x).
Proof.
  induction 1 as [x|y a l d h r _ IH|y a l d h r _ IH]; simpl.
  - iIntros "$ $".
  - iIntros "(Ha & Hl & Hr)". iDestruct (IH with "Hl") as "[$ Hl]". iIntros "Hy". iFrame. by iApply "Hl".
  - iIntros "(Ha & Hl & Hr)". iDestruct (IH with "Hr") as "[$ Hr]". iIntros "Hy". iFrame. by iApply "Hr".
Qed.

Lemma sub_addr y x : sub y x → nodes_at x ⊢ ⌜addr y = NULL ↔ y = ALeaf⌝.
Proof.
  iIntros (H) "Hx". iDestruct (nodes_at_sub _ _ H with "Hx") as "[Hy _]". destruct y; [done|].
  iDestruct "Hy" as "[Ha _]". iDestruct (pointsto_not_null with "Ha") as %Ha. done.
Qed.

Lemma sub_trans z y x : sub z y → sub y x → sub z x.
Proof. intros Hz. induction 1; [done|by apply sub_left; auto|by apply sub_right; auto]. Qed.

(** The cells of a labelled tree are its nodes, and nothing else. *)
Lemma nodes_at_unique x m1 m2 : holds (nodes_at x) m1 → holds (nodes_at x) m2 → m1 = m2.
Proof.
  revert m1 m2. induction x as [|a l IHl d h r IHr]; intros m1 m2; [by intros -> ->|].
  intros (c1 & n1 & -> & _ & [-> _] & l1 & r1 & -> & _ & Hl1 & Hr1).
  intros (c2 & n2 & -> & _ & [-> _] & l2 & r2 & -> & _ & Hl2 & Hr2).
  by rw (IHl l1 l2 Hl1 Hl2) (IHr r1 r2 Hr1 Hr2).
Qed.

Lemma nodes_at_lookup x m a c : holds (nodes_at x) m → m !! a = Some c →
  ∃ y n, sub y x ∧ y ≠ ALeaf ∧ addr y = a ∧ c = CNode n.
Proof.
  revert m. induction x as [|b l IHl d h r IHr]; intros m; [by intros -> ?|].
  intros (m1 & n & -> & _ & [-> _] & m2 & m3 & -> & _ & Hl & Hr) Hc.
  apply lookup_union_Some_raw in Hc as [Hc|[_ Hc]].
  - apply lookup_singleton_Some in Hc as [<- <-]. eexists _, _. by split; [apply sub_refl|].
  - apply lookup_union_Some_raw in Hc as [Hc|[_ Hc]].
    + destruct (IHl _ Hl Hc) as (y & n & H & ?). exists y, n. by split; [apply sub_left|].
    + destruct (IHr _ Hr Hc) as (y & n & H & ?). exists y, n. by split; [apply sub_right|].
Qed.

Lemma nodes_at_size x m : holds (nodes_at x) m → size m = tree_size (shape x).
Proof.
  revert m. induction x as [|b l IHl d h r IHr]; intros m; [by intros ->; apply map_size_empty|].
  intros (m1 & n & -> & Hd & [-> _] & m2 & m3 & -> & Hd' & Hl & Hr). simpl.
  by rw !map_size_disj_union // map_size_singleton (IHl _ Hl) (IHr _ Hr).
Qed.

(** ** The queue of an undisturbed walk *)

Definition anode (x : atree) : list atree := match x with ALeaf => [] | _ => [x] end.
Definition akids (x : atree) : list atree :=
  match x with ALeaf => [] | ANode _ l _ _ r => anode l ++ anode r end.
Definition next (q : list atree) : list atree := match q with [] => [] | x :: q => q ++ akids x end.

Lemma comes_to_front q1 y q2 : ∃ k q, Nat.iter k next (q1 ++ y :: q2) = y :: q.
Proof.
  revert q2. induction q1 as [|z q1 IH]; intros q2; [by exists O, q2|].
  destruct (IH (q2 ++ akids z)) as (k & q & H). exists (S k), q.
  rw Nat.iter_succ_r -H. simpl. by rw -app_assoc.
Qed.

(** Every node of a tree in the queue comes to the front. *)
Lemma sub_comes_to_front y x q : sub y x → y ≠ ALeaf → x ∈ q → ∃ k q', Nat.iter k next q = y :: q'.
Proof.
  intros Hs Hy. revert q.
  assert (∀ z, sub y z → anode z = [z]) as Hz by (intros []; [by inversion 1|done]).
  induction Hs as [x|y a l d h r Hs IH|y a l d h r Hs IH]; intros q Hq;
    apply list_elem_of_split in Hq as (q1 & q2 & ->);
    [apply comes_to_front|..].
  all: destruct (comes_to_front q1 (ANode a l d h r) q2) as (k & q & Hk).
  all: destruct (IH Hy Hz (next (ANode a l d h r :: q))) as (k' & q' & Hk');
    [simpl; rw (Hz _ Hs); set_solver|].
  all: exists (k' + S k)%nat, q'; by rw Nat.iter_add Nat.iter_succ Hk.
Qed.

Lemma iter_next_nil k : Nat.iter k next [] = [].
Proof. induction k as [|k IH]; [done|]. by rw Nat.iter_succ IH. Qed.

Definition walkable (x0 : atree) (q : list atree) : Prop := Forall (λ y, sub y x0 ∧ y ≠ ALeaf) q.

Lemma walkable_next x0 q : walkable x0 q → walkable x0 (next q).
Proof.
  destruct q as [|[|a l d h r] q]; [done|by intros [[_ ?] _]%Forall_cons|].
  intros [[Hs _] Hq]%Forall_cons. apply Forall_app; split; [done|]. simpl. apply Forall_app; split.
  - destruct l; constructor; [|constructor]. split; [|done]. eapply sub_trans, Hs. apply sub_left, sub_refl.
  - destruct r; constructor; [|constructor]. split; [|done]. eapply sub_trans, Hs. apply sub_right, sub_refl.
Qed.

(** ** The rounds of the walk *)

Section walk.
Context (cmp_env : ptr → ptr → ptr → Z) (p : ptr) (o : avl_tree) (x0 : atree) (R : hPropI cell).
Context (g : ptr) (Hg : g ≠ NULL).
Implicit Types (w : world).

(** The child that is enqueued is the one of the label. *)
Lemma wp_enqueue_child pq a nd (fld : avl_node → ptr) y ds w (Q : () → world → hPropI cell) :
  calloc_plan w = [] → fld nd = addr y → (addr y = NULL ↔ y = ALeaf) →
  a ↦ as_cell nd -∗ queue_at pq ds -∗
  (a ↦ as_cell nd -∗ queue_at pq (ds ++ (addr <$> anode y)) -∗ Q () w) -∗
  wp (if fld nd =? NULL then mret () else c ← get fld a; enqueue pq c) w Q.
Proof.
  iIntros (Hw Hf Hy) "Ha Hq HQ". apply calloc_plan_nil in Hw as [Hok Hw]. rw Hf.
  destruct (Z.eqb_spec (addr y) NULL) as [E|E].
  - apply Hy in E as ->. wp_return. rw app_nil_r. iApply ("HQ" with "Ha Hq").
  - wp_read "Ha". rw Hf. iApply (wp_enqueue with "Hq"); [done|]. unfold enqueue_world. rw Hok Hw.
    iIntros "Hq". iApply ("HQ" with "Ha"). by destruct y.
Qed.

(** One round: the queue is the next one, the tree is as it was. *)
Lemma wp_round pq y q w (Q : bool → world → hPropI cell) :
  calloc_plan w = [] → walkable x0 (y :: q) →
  nodes_at x0 -∗ queue_at pq (addr <$> y :: q) -∗
  (∀ w', ⌜calloc_plan w' = []⌝ → nodes_at x0 -∗ queue_at pq (addr <$> next (y :: q)) -∗ Q false w') -∗
  wp (b ← queue_is_empty pq;
      (if b : bool then queue_destroy pq else level_visit (λ d, call_user g [d]) pq);; mret b) w Q.
Proof.
  iIntros (Hw [[Hs Hy] Hq]%Forall_cons) "Hx Hq HQ". destruct y as [|a l d h r]; [done|].
  iDestruct (sub_addr l with "Hx") as %Hl; [eapply sub_trans, Hs; apply sub_left, sub_refl|].
  iDestruct (sub_addr r with "Hx") as %Hr; [eapply sub_trans, Hs; apply sub_right, sub_refl|].
  iDestruct (nodes_at_sub _ _ Hs with "Hx") as "[(Ha & Hl & Hr) Hx]".
  wp_focus. iApply (wp_queue_is_empty with "Hq"). iIntros "Hq". rw bool_decide_eq_false_2 //.
  unfold level_visit. wp_focus. wp_focus. iApply (wp_dequeue with "Hq"). iIntros "Hq".
  wp_read "Ha". wp_focus. iApply wp_call_user; [done|]. wp_read "Ha". wp_focus.
  iApply (wp_enqueue_child pq a _ p_left l with "Ha Hq"); [done..|]. iIntros "Ha Hq". wp_read "Ha".
  iApply (wp_enqueue_child pq a _ p_right r with "Ha Hq"); [done..|]. iIntros "Ha Hq". wp_return.
  iApply ("HQ" with "[] [-Hq]"); [done| |].
  - iApply "Hx". iFrame.
  - simpl. by rw !fmap_app app_assoc.
Qed.

(** Thread [i] is in its walk, [q] is its queue, and the others have not moved from [ts]. *)
Context (i : nat) (cs : list tcall) (lg : list (op * reply)) (ts : list tthread).

Definition walk_rel (pq : ptr) (q : list atree) : hPropI cell :=
  (p ↦ as_cell o ∗ nodes_at x0 ∗ queue_at pq (addr <$> q) ∗ R)%I.

Record walking (pq : ptr) (s : tst) (q : list atree) : Prop := {
  walk_threads : tthreads s = <[i := TThread cs (TLevel g pq) lg]> ts;
  walk_plan : calloc_plan (wld (tstore s)) = [];
  walk_queue : walkable x0 q;
  walk_heap : holds (walk_rel pq q) (memory (tstore s))
}.

Context (t : tthread) (Hi : ts !! i = Some t).

Lemma walk_round pq s y q :
  walking pq s (y :: q) → ∃ s', texec cmp_env p i s = TNext s' ∧ walking pq s' (next (y :: q)).
Proof.
  intros [Ht Hw Hq Hh].
  destruct (wp_runs (b ← queue_is_empty pq;
    (if b : bool then queue_destroy pq else level_visit (λ d, call_user g [d]) pq);; mret b) _ (tstore s)
    (λ b w', ⟪b = false ∧ calloc_plan w' = []⟫ ∗ walk_rel pq (next (y :: q)))%I Hh)
    as (b & m' & w' & Hrun & HQ).
  { iIntros "(Hp & Hx & Hq & HR)". iApply (wp_round with "Hx Hq"); [done..|].
    iIntros (w' Hw') "Hx Hq". iSplitR; [done|]. iFrame. }
  apply holds_sep in HQ as (m1 & m2 & -> & _ & [-> [-> Hw']]%holds_affine & HQ). rw left_id_L in Hrun.
  unfold texec. rw Ht list_lookup_insert_eq; [|by eapply lookup_lt_Some].
  cbn [tat tcalls tlog]. unfold trun. rw Hrun. eexists. split; [done|]. split; simpl.
  - by rw Ht list_insert_insert_eq.
  - done.
  - by apply (walkable_next x0 (y :: q)).
  - done.
Qed.

Lemma walk_rounds pq k s q :
  walking pq s q → Nat.iter k next q ≠ [] →
  ∃ s', texec_all cmp_env p (replicate k i) s = TNext s' ∧ walking pq s' (Nat.iter k next q).
Proof.
  revert s q. induction k as [|k IH]; intros s q W Hk; [by exists s|]. rw Nat.iter_succ_r in Hk |- *.
  destruct q as [|y q]; [by rw iter_next_nil in Hk|].
  destruct (walk_round pq s y q W) as (s1 & Hs1 & W1). simpl. rw Hs1. by apply IH.
Qed.

(** The walk begins. *)
Lemma walk_start s :
  x0 ≠ ALeaf → p_root o = addr x0 → tthreads s = ts → t = TThread (KLevel g :: cs) TIdle lg →
  calloc_plan (wld (tstore s)) = [] → holds (p ↦ as_cell o ∗ nodes_at x0 ∗ R)%I (memory (tstore s)) →
  ∃ pq s', texec cmp_env p i s = TNext s' ∧ walking pq s' [x0].
Proof.
  intros Hx Ho Hts -> Hw Hh. pose proof (calloc_plan_nil _ Hw) as [Hok Hid].
  destruct (wp_runs (level_start p g) _ (tstore s)
    (λ pq w', ⟪pq ≠ NULL ∧ calloc_plan w' = []⟫ ∗ walk_rel pq [x0])%I Hh) as (pq & m' & w' & Hrun & HQ).
  { iIntros "(Hp & Hx & HR)". iDestruct (sub_addr x0 x0 with "Hx") as %Hx0; [apply sub_refl|].
    assert (addr x0 ≠ NULL) as Hne by (intros E; by apply Hx0 in E).
    unfold level_start. wp_read "Hp". rw Ho (eqb_null_false _ Hne) (eqb_null_false _ Hg) /=.
    wp_focus. iApply wp_queue_create. rw Hok Hid. iIntros (pq Hpq) "Hq". rw (eqb_null_false _ Hpq).
    wp_read "Hp". wp_focus. rw Ho. iApply (wp_enqueue with "Hq"); [done|]. unfold enqueue_world. rw Hok Hid.
    iIntros "Hq". wp_return. iSplitR; [done|]. iFrame. }
  apply holds_sep in HQ as (m1 & m2 & -> & _ & [-> [Hpq Hw']]%holds_affine & HQ). rw left_id_L in Hrun.
  unfold texec. rw Hts Hi. cbn [tat tcalls tlog]. unfold trun. rw Hrun (eqb_null_false _ Hpq) Hts.
  eexists pq, _. split; [done|]. split; [done|done| |done]. repeat constructor. done.
Qed.
End walk.

(** ** The deletion frees a node of the tree *)

Lemma tree_size_inorder t : tree_size t = length (inorder t).
Proof. induction t as [|l IHl d h r IHr]; simpl; [done|]. rw length_app /= IHl IHr. lia. Qed.

(** The object and the labelled tree that hold [xs]. *)
Definition labelled (p : ptr) (o : avl_tree) (x0 : atree) : hPropI cell :=
  (p ↦ as_cell o ∗ nodes_at x0)%I.

Lemma avl_set_labels cmp_env f fr mx p k xs m :
  holds (avl_set cmp_env f fr mx p k xs) m →
  ∃ o x0, holds (labelled p o x0) m ∧ p_root o = addr x0 ∧ inorder (shape x0) = xs.
Proof.
  intros H. apply (holds_entails _ (∃ o x0, ⟪p_root o = addr x0 ∧ inorder (shape x0) = xs⟫ ∗
    labelled p o x0)%I) in H.
  - apply holds_exist in H as (o & H). apply holds_exist in H as (x0 & H).
    apply holds_sep in H as (m1 & m2 & -> & _ & [-> [H1 H2]]%holds_affine & H). rw left_id_L. by exists o, x0.
  - iIntros "(%t & %Ht & %root & %disp & Hp & Ht)". destruct Ht as (_ & <- & _).
    iDestruct (tree_at_labels with "Ht") as (x0) "[%Hx Hx]". destruct Hx as [<- <-].
    iExists _, x0. iSplitR; [|iFrame]. done.
Qed.

Lemma labelled_unique p o x0 m1 m2 : holds (labelled p o x0) m1 → holds (labelled p o x0) m2 → m1 = m2.
Proof.
  intros (c1 & n1 & -> & _ & [-> _] & H1) (c2 & n2 & -> & _ & [-> _] & H2).
  by rw (nodes_at_unique x0 n1 n2).
Qed.

Lemma labelled_size p o x0 m : holds (labelled p o x0) m → size m = S (length (inorder (shape x0))).
Proof.
  intros (m1 & m2 & -> & Hd & [-> _] & H).
  by rw map_size_disj_union // map_size_singleton (nodes_at_size _ _ H) tree_size_inorder.
Qed.

Lemma labelled_lookup p o x0 m a c : holds (labelled p o x0) m → m !! a = Some c → a ≠ p →
  ∃ y n, sub y x0 ∧ y ≠ ALeaf ∧ addr y = a ∧ c = CNode n.
Proof.
  intros (m1 & m2 & -> & Hd & [-> _] & H) Hc Ha.
  rw lookup_union_r in Hc; [by eapply nodes_at_lookup|by apply lookup_singleton_ne].
Qed.

(** A smaller heap lacks a cell. *)
Lemma smaller_heap (m m' : gmap Z cell) : (size m' < size m)%nat → ∃ a c, m !! a = Some c ∧ m' !! a = None.
Proof.
  intros H. destruct (set_choose_or_empty (dom m ∖ dom m')) as [[a Ha]|Ha].
  - apply elem_of_difference in Ha as [[c Hc]%elem_of_dom Ha]. exists a, c. split; [done|].
    by apply not_elem_of_dom.
  - assert (dom m ⊆ dom m') as Hsub%subseteq_size by set_solver. rw !size_dom in Hsub. lia.
Qed.

Section deletion_frees.
Context (cmp_env : ptr → ptr → ptr → Z) (f fr p d : ptr) `{Hcmp : !CmpLaws (cmp_env f)}.
Context (Hf : f ≠ NULL) (Hfr : fr ≠ NULL) (Hd : d ≠ NULL).

Lemma delete_frees m w xs x :
  holds (avl_set cmp_env f fr MutexFree p 0 xs) m → list_search (cmp_env f) d xs = Some x →
  ∃ m' w' a n, locked_delete cmp_env p d (State m w) = Ok (RDeleted true) (State m' w') ∧
    m !! a = Some (CNode n) ∧ m' !! a = None.
Proof.
  intros Hm Hx. pose proof (sections_ordered_set cmp_env f fr Hf Hfr MutexHeld) as Hset.
  destruct (wp_runs (locked_delete cmp_env p d) _ (State m w)
    (λ r w', ⟪r = RDeleted true⟫ ∗ avl_set cmp_env f fr MutexFree p 0 (list_delete (cmp_env f) d xs))%I Hm)
    as (r & m' & w' & Hrun & HQ).
  { iIntros "Hs". unfold locked_delete, do_section, do_op. wp_focus. iApply (wp_set_lock with "Hs"). iIntros "Hs".
    wp_focus. wp_focus. iApply (set_delete with "Hs"); [done|]. iIntros "Hs". wp_return.
    wp_focus. iApply (wp_set_unlock with "Hs"). iIntros "Hs". wp_return. iFrame. by rw Hx. }
  apply holds_sep in HQ as (m1 & m2 & -> & _ & [-> ->]%holds_affine & HQ). rw left_id_L in Hrun.
  destruct (avl_set_labels _ _ _ _ _ _ _ _ Hm) as (o & x0 & Hl & _ & Hin).
  destruct (avl_set_labels _ _ _ _ _ _ _ _ HQ) as (o' & x0' & Hl' & _ & Hin').
  pose proof (labelled_size _ _ _ _ Hl) as Hs. pose proof (labelled_size _ _ _ _ Hl') as Hs'.
  pose proof (Permutation_length (list_delete_perm (cmp_env f) d xs)) as Hlen. rw Hx /= in Hlen.
  destruct (smaller_heap m m2) as (a & c & Hc & Ha); [rw Hin in Hs; rw Hin' in Hs'; lia|].
  destruct (labelled_lookup _ _ _ _ _ _ Hl Hc) as (y & n & _ & _ & _ & ->).
  { intros ->. destruct Hl' as (c1 & c2 & -> & _ & [-> _] & _).
    by rw (lookup_union_Some_l _ _ p (as_cell o')) in Ha; [|apply lookup_singleton_eq]. }
  by exists m2, w', a, n.
Qed.
End deletion_frees.

(** The four moves of a thread that deletes. *)
Lemma thread_deletes cmp_env p d j s cs lg r st :
  d ≠ NULL → tthreads s !! j = Some (TThread (KOp (OpDelete d) :: cs) TIdle lg) →
  locked_delete cmp_env p d (tstore s) = Ok r st →
  texec_all cmp_env p (replicate 4 j) s =
    TNext (TSt st (<[j := TThread cs TIdle (lg ++ [(OpDelete d, r)])]> (tthreads s))).
Proof.
  intros Hd Hj H. destruct s as [s0 ts]. simpl in Hj, H.
  assert (∀ t, <[j := t]> ts !! j = Some t) as Hins
    by (intros t; apply list_lookup_insert_eq; by eapply lookup_lt_Some).
  unfold locked_delete, mbind, M_bind in H. destruct (lock_tree p s0) as [[] s1|] eqn:E1; [|done].
  destruct (do_section cmp_env p (OpDelete d) s1) as [r2 s2|] eqn:E2; [|done].
  destruct (unlock_tree p s2) as [[] s3|] eqn:E3; [|done]. injection H as <- <-.
  assert (mutex_taken p s0 = false) as Ht.
  { unfold mutex_taken, lock_tree, mutex_lock, mbind, M_bind in *.
    by destruct (get p_tree_lock p s0) as [[] ?|]. }
  assert (null_arg (OpDelete d) = false) as Hn by (by apply eqb_null_false).
  simpl replicate. cbn [texec_all]. unfold texec at 1. rw [tthreads _]/= Hj. cbn [tat tcalls tlog].
  unfold trun at 1, mret, M_ret. rw Hn. unfold texec at 1. rw [tthreads _]/= Hins.
  cbn [tat tcalls tlog tstore]. rw Ht. unfold trun at 1. cbn [tstore tthreads]. rw E1 list_insert_insert_eq.
  unfold texec at 1. rw [tthreads _]/= Hins. cbn [tat tcalls tlog tstore]. unfold trun at 1.
  cbn [tstore tthreads]. rw E2 list_insert_insert_eq.
  unfold texec at 1. rw [tthreads _]/= Hins. cbn [tat tcalls tlog tstore]. unfold trun at 1.
  cbn [tstore tthreads]. by rw E3 list_insert_insert_eq.
Qed.

(** ** The walk reads the freed node *)

(** A queue whose first node is [a]: taking it out reads and frees nothing outside the queue. *)
Definition first_node (pq : ptr) : prog ptr :=
  b ← queue_is_empty pq; if (b : bool) then mret NULL else dequeue pq.

Lemma first_node_runs pq a l mq mf w :
  holds (queue_at pq (a :: l)) mq → mq ##ₘ mf →
  ∃ mq' w', first_node pq (State (mq ∪ mf) w) = Ok a (State (mq' ∪ mf) w') ∧
    (∀ mf', mq ##ₘ mf' → mq' ##ₘ mf').
Proof.
  intros Hq Hd. destruct (wp_runs (first_node pq) _ (State mq w) (λ x _, ⟪x = a⟫ ∗ True)%I Hq)
    as (x & mq' & w' & Hrun & HQ).
  { iIntros "Hq". unfold first_node. wp_focus. iApply (wp_queue_is_empty with "Hq"). iIntros "Hq".
    rw bool_decide_eq_false_2 //. iApply (wp_dequeue with "Hq"). iIntros "_". by iSplitR. }
  apply holds_sep in HQ as (m1 & m2 & _ & _ & [_ ->]%holds_affine & _).
  assert (carries (first_node pq) (first_node pq)) as Hc.
  { unfold first_node. apply carries_bind; [apply carries_queue_is_empty|].
    intros []; [apply carries_ret|apply carries_dequeue]. }
  destruct (Hc _ _ _ _ _ mf w Hrun Hd) as (_ & w1 & Hw1). exists mq', w1. split; [done|].
  intros mf' Hd'. by destruct (Hc _ _ _ _ _ mf' w Hrun Hd').
Qed.

Lemma visit_freed visit pq a l mq m m' w k :
  holds (queue_at pq (a :: l)) mq → mq ##ₘ m → mq ##ₘ m' → is_Some (m !! a) → m' !! a = None → a ≠ NULL →
  (b ← queue_is_empty pq; (if b : bool then queue_destroy pq else level_visit visit pq);; k b)
    (State (mq ∪ m') w) = (Err (BadAccess a) : result cell bool).
Proof.
  intros Hq Hd Hd' [c Hc] Ha Hn. destruct (first_node_runs pq a l mq m' w Hq Hd') as (mq' & w' & Hrun & Hfr).
  unfold first_node, level_visit, mbind, M_bind in *.
  destruct (queue_is_empty pq (State (mq ∪ m') w)) as [b s1|] eqn:E; [|done]. cbn beta iota in *.
  destruct b; [by injection Hrun as H1; subst a|]. cbn beta iota in *. rw Hrun.  unfold get, load_struct, load, mbind, M_bind. rw (eqb_null_false _ Hn) /=.
  rw lookup_union_None_2 //. eapply (map_disjoint_Some_r mq' m); [by apply Hfr|exact Hc].
Qed.

Lemma texec_all_app cmp_env p l1 l2 s s1 :
  texec_all cmp_env p l1 s = TNext s1 → texec_all cmp_env p (l1 ++ l2) s = texec_all cmp_env p l2 s1.
Proof.
  revert s. induction l1 as [|i l1 IH]; intros s H; simpl in *; [by injection H as ->|].
  destruct (texec cmp_env p i s); [by apply IH|done|by apply IH].
Qed.

(** A node cell of the heap is a node of the labelled tree. *)
Lemma labelled_node p o x0 m a n :
  holds (labelled p o x0) m → m !! a = Some (CNode n) →
  ∃ y, sub y x0 ∧ y ≠ ALeaf ∧ addr y = a ∧ a ≠ NULL.
Proof.
  intros Hl Hma. assert (a ≠ p) as Hap.
  { intros ->. destruct Hl as (c1 & c2 & -> & _ & [-> _] & _).
    by rw (lookup_union_Some_l _ _ p (as_cell o)) in Hma; [|apply lookup_singleton_eq]. }
  destruct (labelled_lookup _ _ _ _ _ _ Hl Hma Hap) as (y & n' & Hsub & Hy & Haddr & _).
  exists y. split_and!; [done..|]. destruct Hl as (c1 & c2 & _ & _ & _ & Hc2).
  apply (holds_entails _ _ _ (sub_addr y x0 Hsub)) in Hc2. rewrite <-Haddr. intros E. by apply Hy, Hc2.
Qed.

(** A walk comes to every node [a] of the tree; nothing but its queue [mq] is added to the heap. *)
Lemma walk_to cmp_env p o x0 g i cs lg s m mr w a n :
  g ≠ NULL → calloc_plan w = [] → holds (labelled p o x0) m → p_root o = addr x0 →
  m ##ₘ mr → tstore s = State (m ∪ mr) w → m !! a = Some (CNode n) →
  tthreads s !! i = Some (TThread (KLevel g :: cs) TIdle lg) →
  ∃ k s2 pq l mq w2, texec_all cmp_env p (replicate k i) s = TNext s2 ∧
    tthreads s2 = <[i := TThread cs (TLevel g pq) lg]> (tthreads s) ∧
    tstore s2 = State (m ∪ (mq ∪ mr)) w2 ∧ m ##ₘ mq ∪ mr ∧ mq ##ₘ mr ∧
    holds (queue_at pq (a :: l)) mq ∧ a ≠ NULL.
Proof.
  intros Hg Hw Hl Ho Hdisj Hst Hma Hi.
  destruct (labelled_node _ _ _ _ _ _ Hl Hma) as (y & Hsub & Hy & Haddr & Hn).
  pose (R := HProp (λ h, h = mr)).
  destruct (walk_start cmp_env p o x0 R g Hg i cs lg (tthreads s) _ Hi s) as (pq & s1 & Hs1 & W1); try done.
  { by intros ->; inversion Hsub. }
  { by rw Hst. }
  { rw Hst. destruct Hl as (c1 & c2 & -> & Hd1 & Hc1 & Hc2).
    apply map_disjoint_union_l in Hdisj as [Hd2 Hd3].
    exists c1, (c2 ∪ mr). rw assoc_L. split_and!; [done|by apply map_disjoint_union_r|done|].
    by exists c2, mr. }
  destruct (sub_comes_to_front y x0 [x0] Hsub Hy) as (k & q & Hk); [by left|].
  destruct (walk_rounds cmp_env p o x0 R g Hg i cs lg (tthreads s) _ Hi pq k s1 [x0] W1) as (s2 & Hs2 & W2);
    [by rw Hk|]. rw Hk in W2. destruct W2 as [Ht2 _ _ Hh2].
  apply (holds_entails _ (labelled p o x0 ∗ (queue_at pq (addr <$> y :: q) ∗ R))%I) in Hh2;
    [|by iIntros "($ & $ & $ & $)"].
  destruct Hh2 as (c1 & c2 & Hmem & Hd1 & Hc1 & mq & c3 & -> & Hd2 & Hq & Hr).
  change (c3 = mr) in Hr. subst c3. assert (c1 = m) as -> by by eapply labelled_unique.
  exists (S k), s2, pq, (addr <$> q), mq, (wld (tstore s2)). rw -Haddr.
  split_and!; [by cbn [replicate texec_all]; rw Hs1|done| |done..|by rw Haddr].
  rw -Hmem. by destruct (tstore s2).
Qed.

(** The next round of a walk whose first node [a] has been freed. *)
Lemma reads_freed cmp_env p g i cs lg s pq a l mq mr m m' w :
  tthreads s !! i = Some (TThread cs (TLevel g pq) lg) → tstore s = State (m' ∪ (mq ∪ mr)) w →
  holds (queue_at pq (a :: l)) mq → m ##ₘ mq ∪ mr → m' ##ₘ mq ∪ mr → mq ##ₘ mr →
  is_Some (m !! a) → m' !! a = None → a ≠ NULL →
  texec cmp_env p i s = TCrash (BadAccess a).
Proof.
  intros Hi Hst Hq Hdm Hdm' Hdq [c Hma] Hm'a Hn. unfold texec. rw Hi. cbn [tat tcalls tlog]. unfold trun. rw Hst.
  pose proof (map_disjoint_Some_l _ _ _ _ Hdm Hma) as Hrest.
  apply lookup_union_None in Hrest as [_ Hmr]. apply map_disjoint_union_r in Hdm as [Hd1 _], Hdm' as [Hd3 Hd4].
  assert (m' ∪ (mq ∪ mr) = mq ∪ (m' ∪ mr)) as -> by rw !assoc_L (map_union_comm m' mq) //.
  rw (visit_freed (λ d, call_user g [d]) pq a l mq m (m' ∪ mr) w mret Hq) //.
  - by apply map_disjoint_union_r.
  - by apply lookup_union_None_2.
Qed.

(** C9: [avl_level_order] takes no mutex, and every deletion is a danger to it, even when every
    call of [calloc] succeeds.  Whatever tree an
    object holds, whatever element of it is deleted, and whatever the other threads are
    doing outside their critical sections ([mr] is the rest of the memory): a thread that is about to call
    [avl_level_order] and one that is about to call [avl_delete_node] can be
    scheduled so that the walk makes some number of rounds, the deletion then runs from its
    beginning to its end and frees a node [a] of the tree, and the walk, which has the
    address of this node in its queue, reads the freed node next. *)
Theorem avl_level_order_races cmp_env f fr p g d x xs m mr w s i j cs cs' lg lg' :
  CmpLaws (cmp_env f) → f ≠ NULL → fr ≠ NULL → g ≠ NULL → d ≠ NULL → calloc_plan w = [] →
  holds (avl_set cmp_env f fr MutexFree p 0 xs) m → m ##ₘ mr → tstore s = State (m ∪ mr) w →
  list_search (cmp_env f) d xs = Some x →
  tthreads s !! i = Some (TThread (KLevel g :: cs) TIdle lg) →
  tthreads s !! j = Some (TThread (KOp (OpDelete d) :: cs') TIdle lg') →
  ∃ k a n s', m !! a = Some (CNode n) ∧
    texec_all cmp_env p (replicate k i ++ replicate 4 j) s = TNext s' ∧
    tthreads s' !! j = Some (TThread cs' TIdle (lg' ++ [(OpDelete d, RDeleted true)])) ∧
    memory (tstore s') !! a = None ∧
    texec cmp_env p i s' = TCrash (BadAccess a).
Proof.
  intros Hcmp Hf Hfr Hg Hd Hw Hm Hdisj Hst Hx Hi Hj.
  destruct (delete_frees cmp_env f fr p d Hf Hfr Hd m w xs x Hm Hx) as (m' & w' & a & n & Hdel & Hma & Hm'a).
  destruct (avl_set_labels _ _ _ _ _ _ _ _ Hm) as (o & x0 & Hl & Ho & _).
  destruct (walk_to cmp_env p o x0 g i cs lg s m mr w a n Hg Hw Hl Ho Hdisj Hst Hma Hi)
    as (k & s2 & pq & l & mq & w2 & Hs2 & Ht2 & Hst2 & Hdm & Hdq & Hqueue & Hn).
  destruct (carries_locked_delete cmp_env p d _ _ _ _ _ (mq ∪ mr) w2 Hdel Hdm) as (Hdm' & w3 & Hdel').
  rewrite <-Hst2 in Hdel'. assert (i ≠ j) as Hij by (intros ->; by rw Hj in Hi).
  assert (tthreads s2 !! j = Some (TThread (KOp (OpDelete d) :: cs') TIdle lg')) as Hj2
    by rw Ht2 list_lookup_insert_ne //.
  exists k, a, n. eexists. split; [done|]. split_and!.
  - rw (texec_all_app _ _ (replicate k i) _ s s2) //.
    exact (thread_deletes cmp_env p d j s2 cs' lg' _ _ Hd Hj2 Hdel').
  - apply list_lookup_insert_eq. exact (lookup_lt_Some _ _ _ Hj2).
  - apply lookup_union_None_2; [done|]. by apply (map_disjoint_Some_l m _ a (CNode n)).
  - eapply (reads_freed cmp_env p g i cs lg _ pq a l mq mr m m' w3); try done.
    simpl. rw list_lookup_insert_ne // Ht2 list_lookup_insert_eq //. by eapply lookup_lt_Some.
Qed.

(** Comparison function 2 orders numbers; the tree object at 1 holds 10, in the node at 2. *)
Definition race_cmp_ex (f a b : ptr) : Z := zcmp a b.
Definition race_heap_ex : gmap Z cell :=
  list_to_map [(1, CTree (AvlTree 2 1 2 0 3 MutexFree)); (2, CNode (AvlNode 10 0 0 0))].
Definition race_ex : tst :=
  tinit race_heap_ex (World [] [] 0 []) [[KLevel 4]; [KOp (OpDelete 10)]].

Lemma race_heap_ex_set : holds (avl_set race_cmp_ex 2 3 MutexFree 1 0 [10]) race_heap_ex.
Proof.
  assert (cells [(1, CTree (AvlTree 2 1 2 0 3 MutexFree)); (2, CNode (AvlNode 10 0 0 0))] ⊢
    avl_set race_cmp_ex 2 3 MutexFree 1 0 [10]) as [H].
  { iIntros "(Hp & Hn & _)". iExists (Node Leaf 10 0 Leaf). iSplitR.
    - iPureIntro. split_and!; [done|done|repeat constructor|]. unfold in_range. split_and!; [|done|done].
      by repeat split.
    - iExists 2, 0. iFrame "Hp". iExists 0, 0. by iFrame "Hn". }
  apply H, holds_cells.
  - repeat constructor; set_solver.
  - repeat constructor; discriminate.
Qed.

(** The walk of thread 0 reads the node that thread 1 has freed. *)
Lemma avl_level_order_races_witness :
  ∃ k a s', texec_all race_cmp_ex 1 (replicate k 0%nat ++ replicate 4 1%nat) race_ex = TNext s' ∧
    texec race_cmp_ex 1 0 s' = TCrash (BadAccess a).
Proof.
  destruct (avl_level_order_races race_cmp_ex 2 3 1 4 10 10 [10] race_heap_ex ∅ (World [] [] 0 []) race_ex
    0 1 [] [] [] []) as (k & a & n & s' & _ & H1 & _ & _ & H2);
    [apply zcmp_laws|discriminate|discriminate|discriminate|discriminate|reflexivity
    |exact race_heap_ex_set|apply map_disjoint_empty_r|vm_compute; reflexivity
    |reflexivity|reflexivity|reflexivity|].
  exists k, a, s'. split; [exact H1|exact H2].
Defined.
