(* ===== verification/LListCode.v ===== *)
(** * LListCode: llist/linked_list_lib.c over the store

    Every function of src/libraries/llist/linked_list_lib.c as a program of the
    monad of the file Mem.  Loops take a bound that exceeds the number of
    allocated cells. *)

From stdpp Require Import gmap strings.
From S2P Require Import Prelude Mem Chain.

Open Scope Z_scope.

(** ** Structs *)

Record llist_node := LNode { data : ptr; next : ptr }.

Record llist := LList {
  count : Z; head : ptr; tail : ptr; print : ptr; user_free : ptr; mlock : mutex
}.

(** The cells of this heap; [LPtr] is a variable of type [llist_t *]. *)
Inductive lcell :=
  | LCNode (n : llist_node)
  | LCList (l : llist)
  | LCPtr (p : ptr).

#[export] Instance lnode_struct : Struct lcell llist_node.
Proof. refine {| as_cell := LCNode; of_cell c := match c with LCNode n => Some n | _ => None end |}. done. Defined.
#[export] Instance llist_struct : Struct lcell llist.
Proof. refine {| as_cell := LCList; of_cell c := match c with LCList l => Some l | _ => None end |}. done. Defined.
#[export] Instance lptr_struct : Struct lcell ptr.
Proof. refine {| as_cell := LCPtr; of_cell c := match c with LCPtr p => Some p | _ => None end |}. done. Defined.

Definition zero_lnode : llist_node := LNode NULL NULL.
Definition zero_llist : llist := LList 0 NULL NULL NULL NULL MutexNone.

Definition set_data v n := LNode v (next n).
Definition set_next v n := LNode (data n) v.
Definition set_count v l := LList v (head l) (tail l) (print l) (user_free l) (mlock l).
Definition set_head v l := LList (count l) v (tail l) (print l) (user_free l) (mlock l).
Definition set_tail v l := LList (count l) (head l) v (print l) (user_free l) (mlock l).
Definition set_print v l := LList (count l) (head l) (tail l) v (user_free l) (mlock l).
Definition set_user_free v l := LList (count l) (head l) (tail l) (print l) v (mlock l).
Definition set_mlock v l := LList (count l) (head l) (tail l) (print l) (user_free l) v.
#[global] Arguments set_data _ !_ /.
#[global] Arguments set_next _ !_ /.
#[global] Arguments set_count _ !_ /.
#[global] Arguments set_head _ !_ /.
#[global] Arguments set_tail _ !_ /.
#[global] Arguments set_print _ !_ /.
#[global] Arguments set_user_free _ !_ /.
#[global] Arguments set_mlock _ !_ /.

Abbreviation lprog := (M lcell).

Definition lock : ptr → lprog () := mutex_lock mlock set_mlock.
Definition unlock : ptr → lprog () := mutex_unlock mlock set_mlock.

(** [l->count++] and [l->count--] on a [uint64_t] *)
Definition count_incr (l : ptr) : lprog () :=
  c ← get count l; set (set_count (u64 (c + 1))) l.
Definition count_decr (l : ptr) : lprog () :=
  c ← get count l; set (set_count (u64 (c - 1))) l.

(** ** Operations *)

Definition create_node (d : ptr) : lprog ptr :=
  if d =? NULL then mret NULL else
  node ← calloc_struct zero_lnode;
  if node =? NULL then mret node else set (set_data d) node;; mret node.

Definition llist_create (print_func destroy : ptr) : lprog ptr :=
  if (print_func =? NULL) || (destroy =? NULL) then mret NULL else
  l ← calloc_struct zero_llist;
  if l =? NULL then mret l else
  set (set_print print_func) l;;
  set (set_user_free destroy) l;;
  mutex_init set_mlock l;;
  mret l.

Definition is_llist_empty (l : ptr) : lprog Z :=
  if l =? NULL then mret (-1) else
  c ← get count l;
  if 0 <? c then mret 0 else mret 1.

(** The critical section of [llist_insert_front] and [llist_push]: its pointers, and whole. *)
Definition attach_front (l new_node : ptr) : lprog () :=
  tl ← get tail l;
  (if tl =? NULL then set (set_tail new_node) l else mret ());;
  hd ← get head l; set (set_next hd) new_node;;
  set (set_head new_node) l.
Definition link_front (l new_node : ptr) : lprog () :=
  lock l;;
  attach_front l new_node;;
  count_incr l;;
  unlock l.

Definition llist_insert_front (l d : ptr) : lprog () :=
  if (l =? NULL) || (d =? NULL) then mret () else
  new_node ← calloc_struct zero_lnode;
  if new_node =? NULL then mret () else
  set (set_data d) new_node;;
  link_front l new_node.

Definition llist_push (l d : ptr) : lprog () :=
  if (l =? NULL) || (d =? NULL) then mret () else
  new_node ← create_node d;
  if new_node =? NULL then mret () else
  link_front l new_node.

(** [while (NULL != current->next) current = current->next;] *)
Definition last_node : nat → ptr → lprog ptr := walk_last next.

(** The critical section of [llist_insert_back]. *)
Definition attach_back (l new_node : ptr) : lprog () :=
  hd ← get head l;
  if hd =? NULL then set (set_head new_node) l
  else
    current ← get head l;
    fuel ← heap_fuel;
    current ← last_node fuel current;
    set (set_next new_node) current.
Definition link_back (l new_node : ptr) : lprog () :=
  lock l;;
  attach_back l new_node;;
  count_incr l;;
  unlock l.

Definition llist_insert_back (l d : ptr) : lprog () :=
  if (l =? NULL) || (d =? NULL) then mret () else
  new_node ← calloc_struct zero_lnode;
  if new_node =? NULL then mret () else
  set (set_data d) new_node;;
  link_back l new_node.

(** The critical section of [llist_remove_front]. *)
Definition detach_front (l : ptr) : lprog ptr :=
  temp ← get head l;
  nx ← get next temp; set (set_head nx) l;;
  mret temp.
Definition unlink_front (l : ptr) : lprog ptr :=
  lock l;;
  temp ← detach_front l;
  count_decr l;;
  unlock l;;
  mret temp.

Definition llist_remove_front (l : ptr) : lprog ptr :=
  if l =? NULL then mret NULL else
  e ← is_llist_empty l;
  if negb (e =? 0) then mret NULL else
  temp ← unlink_front l;
  d ← get data temp;
  free temp;;
  mret d.

Definition llist_pop (l : ptr) : lprog ptr := llist_remove_front l.
Definition llist_dequeue (l : ptr) : lprog ptr := llist_remove_front l.

(** The critical section of [llist_enqueue]. *)
Definition attach_tail (l new_node : ptr) : lprog () :=
  hd ← get head l;
  (if hd =? NULL then set (set_head new_node) l
   else tl ← get tail l; set (set_next new_node) tl);;
  set (set_tail new_node) l.
Definition link_tail (l new_node : ptr) : lprog () :=
  lock l;;
  attach_tail l new_node;;
  count_incr l;;
  unlock l.

Definition llist_enqueue (l d : ptr) : lprog () :=
  if (l =? NULL) || (d =? NULL) then mret () else
  new_node ← create_node d;
  if new_node =? NULL then mret () else
  link_tail l new_node.

Definition llist_size (l : ptr) : lprog Z :=
  if l =? NULL then mret (u64 (-1)) else get count l.

Definition llist_peek (l : ptr) : lprog ptr :=
  if l =? NULL then mret NULL else
  hd ← get head l;
  if hd =? NULL then mret NULL else
  hd ← get head l; get data hd.

Definition llist_peek_tail (l : ptr) : lprog ptr :=
  if l =? NULL then mret NULL else
  tl ← get tail l;
  if tl =? NULL then mret NULL else
  tl ← get tail l; get data tl.

Fixpoint display_loop (fuel : nat) (l current : ptr) : lprog () :=
  match fuel with
  | O => fail OutOfFuel
  | S fuel =>
    if current =? NULL then mret () else
    f ← get print l; d ← get data current; call_user f [d];;
    nx ← get next current; display_loop fuel l nx
  end.

Definition llist_display (l : ptr) : lprog () :=
  if l =? NULL then mret () else
  hd ← get head l;
  if hd =? NULL then mret () else
  current ← get head l;
  fuel ← heap_fuel;
  display_loop fuel l current.

Definition deref (pp : ptr) : lprog ptr := get (λ p : ptr, p) pp.

Fixpoint destroy_loop (fuel : nat) (pp temp : ptr) : lprog () :=
  match fuel with
  | O => fail OutOfFuel
  | S fuel =>
    if temp =? NULL then mret () else
    nx ← get next temp; l ← deref pp; set (set_head nx) l;;
    l ← deref pp; f ← get user_free l; d ← get data temp; call_user f [d];;
    free temp;;
    l ← deref pp; temp ← get head l; destroy_loop fuel pp temp
  end.

(** The last statement of the C function assigns its parameter, not the
    caller's pointer. *)
Definition llist_destroy (pp : ptr) : lprog () :=
  if pp =? NULL then mret () else
  l ← deref pp;
  if l =? NULL then mret () else
  l ← deref pp; temp ← get head l;
  fuel ← heap_fuel;
  destroy_loop fuel pp temp;;
  l ← deref pp; free l.
