(* ===== verification/LListOps.v ===== *)
(** * LListOps: the operations of the linked list on its representations

    [llist_at b p xs] is a list object at [p] that holds [xs].  Used as a list or
    a stack ([b = false]) the object promises nothing about its [tail] field.
    Used as a queue ([b = true]) its [tail] points to the last node, unless the
    list is empty: what [llist_enqueue] and [llist_peek_tail] need, and what
    every operation but [llist_insert_back] keeps (an insertion at the front
    only when the list is not empty).  Each function gets the rule of its effect
    on the weakest representation that it needs. *)

From iris.proofmode Require Import environments proofmode.
From stdpp Require Import gmap strings.
From S2P Require Import Prelude HProp Mem Chain Fifo LListCode.

Open Scope Z_scope.

Section ops.
Context (pr fr : ptr).
Implicit Types (xs : list ptr).

Definition len xs : Z := Z.of_nat (length xs).

Definition nodes (queue : bool) (hd tl : ptr) xs : hPropI lcell :=
  if queue then qchain LNode hd tl xs else chain LNode hd NULL xs.

Definition llist_at (queue : bool) (p : ptr) xs : hPropI lcell :=
  (∃ hd tl, p ↦ as_cell (LList (len xs) hd tl pr fr MutexFree) ∗ nodes queue hd tl xs)%I.

(** A list object in a critical section: the mutex, and a count that may be behind. *)
Definition list_mid (queue : bool) (p : ptr) (mx : mutex) (c : Z) xs : hPropI lcell :=
  (∃ hd tl, p ↦ as_cell (LList c hd tl pr fr mx) ∗ nodes queue hd tl xs)%I.

Lemma list_mid_free b p xs : list_mid b p MutexFree (len xs) xs = llist_at b p xs.
Proof. done. Qed.

Lemma nodes_chain b hd tl xs : nodes b hd tl xs ⊢ chain LNode hd NULL xs.
Proof. destruct b; [apply qchain_chain|done]. Qed.

Lemma nodes_nil b hd tl : nodes b hd tl [] ⊣⊢ ⟪hd = NULL⟫.
Proof.
  destruct b; [|done]. iSplit.
  - iIntros "[%H|(%ys & %y & %H & Hr)]"; [by destruct H|by destruct ys].
  - iIntros "->". iApply qchain_nil.
Qed.

Lemma nodes_cons b hd tl x xs :
  nodes b hd tl (x :: xs) ⊢ ∃ nx, hd ↦ as_cell (LNode x nx) ∗ nodes b nx tl xs.
Proof. destruct b; [apply qchain_cons|done]. Qed.

(** Look at the first node. *)
Lemma nodes_first b hd tl x xs :
  nodes b hd tl (x :: xs) ⊢ ∃ nx, hd ↦ as_cell (LNode x nx) ∗
    (hd ↦ as_cell (LNode x nx) -∗ nodes b hd tl (x :: xs)).
Proof.
  iIntros "Hn". destruct b.
  - iDestruct "Hn" as "[%H|(%ys & %y & %H & Hc & Hl)]"; [by destruct H|].
    destruct ys as [|y' ys]; injection H as -> ->; simpl.
    + iDestruct "Hc" as %->. iExists NULL. iFrame. iIntros "Hh". iRight. iExists [], y. by iFrame.
    + iDestruct "Hc" as (nx) "[Hh Hc]". iExists nx. iFrame. iIntros "Hh".
      iRight. iExists (y' :: ys), y. by iFrame.
  - iDestruct "Hn" as (nx) "[Hh Hc]". iExists nx. iFrame. iIntros "Hh". iExists nx. iFrame.
Qed.

Lemma nodes_head b hd tl xs : nodes b hd tl xs ⊢ ⌜ hd = NULL ↔ xs = [] ⌝.
Proof. rw nodes_chain. apply chain_head. Qed.

(** A new first node; the tail of an empty queue is not known to be the new node. *)
Definition keeps_front (queue : bool) xs : bool := negb queue || negb (bool_decide (xs = [])).

Lemma nodes_push b hd tl n d xs :
  keeps_front b xs = true →
  n ↦ as_cell (LNode d hd) -∗ nodes b hd tl xs -∗ nodes b n tl (d :: xs).
Proof.
  iIntros (Hb) "Hn Hc". destruct b; [|iExists hd; iFrame].
  destruct xs as [|x xs]; [done|]. iApply (qchain_cons_intro with "Hn Hc").
Qed.

Lemma llist_at_list b p xs : llist_at b p xs ⊢ llist_at false p xs.
Proof. iIntros "(%hd & %tl & Hp & Hc)". iExists hd, tl. iFrame. by iApply nodes_chain. Qed.

Lemma len_cons x xs : len (x :: xs) = len xs + 1.
Proof. unfold len. simpl. lia. Qed.
Lemma len_snoc xs x : len (xs ++ [x]) = len xs + 1.
Proof. unfold len. rw length_app /=. lia. Qed.
Lemma len_nonneg xs : 0 ≤ len xs.
Proof. unfold len. lia. Qed.

(** ** Fields *)

Lemma wp_count_incr p x w (Q : () → world → hPropI lcell) :
  0 ≤ count x → count x + 1 < 2 ^ 64 →
  p ↦ as_cell x -∗ (p ↦ as_cell (set_count (count x + 1) x) -∗ Q () w) -∗ wp (count_incr p) w Q.
Proof.
  iIntros (??) "Hp HQ". unfold count_incr. wp_read "Hp". wp_write "Hp".
  rw u64_small; [|lia]. by iApply "HQ".
Qed.

Lemma wp_count_decr p x w (Q : () → world → hPropI lcell) :
  0 < count x < 2 ^ 64 →
  p ↦ as_cell x -∗ (p ↦ as_cell (set_count (count x - 1) x) -∗ Q () w) -∗ wp (count_decr p) w Q.
Proof.
  iIntros (?) "Hp HQ". unfold count_decr. wp_read "Hp". wp_write "Hp".
  rw u64_small; [|lia]. by iApply "HQ".
Qed.

(** ** The ends of a critical section *)

Lemma wp_mid_lock b p c xs w (Q : () → world → hPropI lcell) :
  list_mid b p MutexFree c xs -∗ (list_mid b p MutexHeld c xs -∗ Q () w) -∗ wp (lock p) w Q.
Proof.
  iIntros "(%hd & %tl & Hp & Hc) HQ". wp_lock "Hp". iApply "HQ". iExists hd, tl. iFrame.
Qed.

Lemma wp_mid_unlock b p c xs w (Q : () → world → hPropI lcell) :
  list_mid b p MutexHeld c xs -∗ (list_mid b p MutexFree c xs -∗ Q () w) -∗ wp (unlock p) w Q.
Proof.
  iIntros "(%hd & %tl & Hp & Hc) HQ". wp_unlock "Hp". iApply "HQ". iExists hd, tl. iFrame.
Qed.

Lemma wp_mid_incr b p mx c xs w (Q : () → world → hPropI lcell) :
  0 ≤ c → c + 1 < 2 ^ 64 →
  list_mid b p mx c xs -∗ (list_mid b p mx (c + 1) xs -∗ Q () w) -∗ wp (count_incr p) w Q.
Proof.
  iIntros (??) "(%hd & %tl & Hp & Hc) HQ". iApply (wp_count_incr with "Hp"); [done..|].
  iIntros "Hp". iApply "HQ". iExists hd, tl. iFrame.
Qed.

Lemma wp_mid_decr b p mx c xs w (Q : () → world → hPropI lcell) :
  0 < c < 2 ^ 64 →
  list_mid b p mx c xs -∗ (list_mid b p mx (c - 1) xs -∗ Q () w) -∗ wp (count_decr p) w Q.
Proof.
  iIntros (?) "(%hd & %tl & Hp & Hc) HQ". iApply (wp_count_decr with "Hp"); [done|].
  iIntros "Hp". iApply "HQ". iExists hd, tl. iFrame.
Qed.

(** An insertion: the lock, the pointers and the end. *)
Lemma wp_link b p (R : hPropI lcell) xs xs' (attach : lprog ()) w (Q : () → world → hPropI lcell) :
  len xs + 1 < 2 ^ 64 → len xs' = len xs + 1 →
  (∀ mx c w (Q : () → world → hPropI lcell),
     list_mid b p mx c xs -∗ R -∗ (list_mid b p mx c xs' -∗ Q () w) -∗ wp attach w Q) →
  llist_at b p xs -∗ R -∗ (llist_at b p xs' -∗ Q () w) -∗
  wp (lock p;; attach;; count_incr p;; unlock p) w Q.
Proof.
  iIntros (Hlen Hxs Hattach) "Hl HR HQ". rw -!list_mid_free Hxs.
  wp_focus. iApply (wp_mid_lock with "Hl"). iIntros "Hl".
  wp_focus. iApply (Hattach with "Hl HR"). iIntros "Hl".
  wp_focus. iApply (wp_mid_incr with "Hl"); [apply len_nonneg|done|]. iIntros "Hl".
  by iApply (wp_mid_unlock with "Hl").
Qed.

(** ** Creation *)

Definition new_list : llist := LList 0 NULL NULL pr fr MutexFree.

Lemma wp_llist_create_fields w (Q : ptr → world → hPropI lcell) :
  pr ≠ NULL → fr ≠ NULL →
  (if calloc_ok w
   then ∀ p, ⌜p ≠ NULL⌝ → p ↦ as_cell new_list -∗ Q p (calloc_world w)
   else Q NULL (calloc_world w)) ⊢
  wp (llist_create pr fr) w Q.
Proof.
  iIntros (Hpr Hfr) "HQ". unfold llist_create. rw (eqb_null_false _ Hpr) (eqb_null_false _ Hfr) /=.
  wp_focus. iApply wp_calloc_struct. destruct (calloc_ok w).
  - iIntros (p) "Hp". not_null "Hp". wp_write "Hp". wp_write "Hp".
    wp_focus. iApply (wp_mutex_init with "Hp"). iIntros "Hp". wp_return.
    by iApply "HQ".
  - rw /=. by wp_return.
Qed.

Lemma wp_llist_create w (Q : ptr → world → hPropI lcell) :
  pr ≠ NULL → fr ≠ NULL →
  (if calloc_ok w
   then ∀ p, ⌜p ≠ NULL⌝ → llist_at true p [] -∗ Q p (calloc_world w)
   else Q NULL (calloc_world w)) ⊢
  wp (llist_create pr fr) w Q.
Proof.
  iIntros (Hpr Hfr) "HQ". iApply wp_llist_create_fields; [done..|]. destruct (calloc_ok w); [|done].
  iIntros (p Hp) "Hp". iApply "HQ"; [done|]. iExists NULL, NULL. iFrame. by iApply nodes_nil.
Qed.

Lemma wp_create_node d w (Q : ptr → world → hPropI lcell) :
  d ≠ NULL →
  (if calloc_ok w
   then ∀ n, ⌜n ≠ NULL⌝ → n ↦ as_cell (LNode d NULL) -∗ Q n (calloc_world w)
   else Q NULL (calloc_world w)) ⊢
  wp (create_node d) w Q.
Proof.
  iIntros (Hd) "HQ". unfold create_node. rw (eqb_null_false _ Hd).
  wp_focus. iApply wp_calloc_struct. destruct (calloc_ok w).
  - iIntros (n) "Hn". not_null "Hn". wp_write "Hn". wp_return. by iApply "HQ".
  - rw /=. by wp_return.
Qed.

(** ** Insertion at the front *)

Lemma wp_attach_front b p n d mx c xs w (Q : () → world → hPropI lcell) :
  keeps_front b xs = true →
  list_mid b p mx c xs -∗ n ↦ as_cell (LNode d NULL) -∗ (list_mid b p mx c (d :: xs) -∗ Q () w) -∗
  wp (attach_front p n) w Q.
Proof.
  iIntros (Hb) "(%hd & %tl & Hp & Hc) Hn HQ". unfold attach_front. wp_read "Hp". wp_focus.
  iApply (wp_wand _ _ (λ _ w', ⟪w' = w⟫ ∗ ∃ tl',
    p ↦ as_cell (LList c hd tl' pr fr mx) ∗ nodes b hd tl' xs)%I with "[Hp Hc]").
  { destruct (tl =? NULL) eqn:E; zbool; [|wp_return; by iFrame].
    destruct b; [|wp_write "Hp"; by iFrame]. destruct xs as [|x xs]; [done|].
    iDestruct (qchain_last with "Hc") as (y) "[Hl Hk]". subst tl.
    by iDestruct (pointsto_not_null with "Hl") as %[]. }
  iIntros ([] w') "(-> & %tl' & Hp & Hc)". wp_read "Hp". wp_write "Hn". wp_write "Hp".
  iApply "HQ". iExists n, tl'. iFrame. by iApply (nodes_push with "Hn Hc").
Qed.

Lemma wp_link_front b p n d xs w (Q : () → world → hPropI lcell) :
  len xs + 1 < 2 ^ 64 → keeps_front b xs = true →
  llist_at b p xs -∗ n ↦ as_cell (LNode d NULL) -∗ (llist_at b p (d :: xs) -∗ Q () w) -∗
  wp (link_front p n) w Q.
Proof.
  intros Hlen Hb. apply wp_link; [done|apply len_cons|]. intros. by apply wp_attach_front.
Qed.

Lemma wp_llist_push b p d xs w (Q : () → world → hPropI lcell) :
  p ≠ NULL → d ≠ NULL → len xs + 1 < 2 ^ 64 → keeps_front b xs = true →
  llist_at b p xs -∗
  (llist_at b p (if calloc_ok w then d :: xs else xs) -∗ Q () (calloc_world w)) -∗
  wp (llist_push p d) w Q.
Proof.
  iIntros (Hp Hd Hlen Hb) "Hl HQ". unfold llist_push.
  rw (eqb_null_false _ Hp) (eqb_null_false _ Hd) /=.
  wp_focus. iApply wp_create_node; [done|]. destruct (calloc_ok w).
  - iIntros (n Hn) "Hn". rw (eqb_null_false _ Hn). by iApply (wp_link_front with "Hl Hn").
  - rw /=. wp_return. by iApply "HQ".
Qed.

Lemma wp_llist_insert_front b p d xs w (Q : () → world → hPropI lcell) :
  p ≠ NULL → d ≠ NULL → len xs + 1 < 2 ^ 64 → keeps_front b xs = true →
  llist_at b p xs -∗
  (llist_at b p (if calloc_ok w then d :: xs else xs) -∗ Q () (calloc_world w)) -∗
  wp (llist_insert_front p d) w Q.
Proof.
  iIntros (Hp Hd Hlen Hb) "Hl HQ". unfold llist_insert_front.
  rw (eqb_null_false _ Hp) (eqb_null_false _ Hd) /=.
  wp_focus. iApply wp_calloc_struct. destruct (calloc_ok w).
  - iIntros (n) "Hn". not_null "Hn". wp_write "Hn". by iApply (wp_link_front with "Hl Hn").
  - rw /=. wp_return. by iApply "HQ".
Qed.

(** ** Insertion at the back by walking the list *)

(** Only the head can change. *)
Lemma wp_attach_back_fields p x n d xs w (Q : () → world → hPropI lcell) :
  p ↦ as_cell x -∗ chain LNode (head x) NULL xs -∗ n ↦ as_cell (LNode d NULL) -∗
  (∀ hd, p ↦ as_cell (set_head hd x) -∗ chain LNode hd NULL (xs ++ [d]) -∗ Q () w) -∗
  wp (attach_back p n) w Q.
Proof.
  iIntros "Hp Hc Hn HQ". destruct x as [c hd tl f1 f2 mx]. unfold attach_back. wp_read "Hp".
  iDestruct (chain_head with "Hc") as %Hhd. destruct xs as [|x xs].
  - iDestruct "Hc" as %->. rw /=. wp_write "Hp". iApply ("HQ" with "Hp"). iExists NULL. by iFrame.
  - destruct (hd =? NULL) eqn:E; zbool; [by apply Hhd in E|]. wp_read "Hp".
    wp_focus. iApply (wp_chain_fuel LNode hd NULL (x :: xs) with "Hc").
    iIntros (fuel Hfuel) "Hc". wp_focus.
    iApply (wp_walk_last with "Hc"); [done|simpl in *; lia|]. iIntros (lst y) "Hl Hk".
    wp_write "Hl". iApply ("HQ" with "Hp"). iApply ("Hk" with "Hl Hn").
Qed.

Lemma wp_attach_back p n d mx c xs w (Q : () → world → hPropI lcell) :
  list_mid false p mx c xs -∗ n ↦ as_cell (LNode d NULL) -∗
  (list_mid false p mx c (xs ++ [d]) -∗ Q () w) -∗ wp (attach_back p n) w Q.
Proof.
  iIntros "(%hd & %tl & Hp & Hc) Hn HQ". iApply (wp_attach_back_fields with "Hp Hc Hn").
  iIntros (hd') "Hp Hc". iApply "HQ". iExists hd', tl. iFrame.
Qed.

Lemma wp_link_back p n d xs w (Q : () → world → hPropI lcell) :
  len xs + 1 < 2 ^ 64 →
  llist_at false p xs -∗ n ↦ as_cell (LNode d NULL) -∗
  (llist_at false p (xs ++ [d]) -∗ Q () w) -∗ wp (link_back p n) w Q.
Proof.
  intros Hlen. apply wp_link; [done|apply len_snoc|]. intros. by apply wp_attach_back.
Qed.

Lemma wp_llist_insert_back p d xs w (Q : () → world → hPropI lcell) :
  p ≠ NULL → d ≠ NULL → len xs + 1 < 2 ^ 64 →
  llist_at false p xs -∗
  (llist_at false p (if calloc_ok w then xs ++ [d] else xs) -∗ Q () (calloc_world w)) -∗
  wp (llist_insert_back p d) w Q.
Proof.
  iIntros (Hp Hd Hlen) "Hl HQ". unfold llist_insert_back.
  rw (eqb_null_false _ Hp) (eqb_null_false _ Hd) /=.
  wp_focus. iApply wp_calloc_struct. destruct (calloc_ok w); [|rw /=; wp_return; by iApply "HQ"].
  iIntros (n) "Hn". not_null "Hn". wp_write "Hn". by iApply (wp_link_back with "Hl Hn").
Qed.

(** ** Removal at the front *)

Lemma wp_is_llist_empty p x w (Q : Z → world → hPropI lcell) :
  p ≠ NULL →
  p ↦ as_cell x -∗ (p ↦ as_cell x -∗ Q (if 0 <? count x then 0 else 1) w) -∗
  wp (is_llist_empty p) w Q.
Proof.
  iIntros (Hp) "Hp HQ". unfold is_llist_empty. rw (eqb_null_false _ Hp). wp_read "Hp".
  destruct (0 <? count x); wp_return; by iApply "HQ".
Qed.

(** The node stays allocated, in the hands of the caller. *)
Lemma wp_detach_front b p x mx c xs w (Q : ptr → world → hPropI lcell) :
  list_mid b p mx c (x :: xs) -∗
  (∀ temp nx, temp ↦ as_cell (LNode x nx) -∗ list_mid b p mx c xs -∗ Q temp w) -∗
  wp (detach_front p) w Q.
Proof.
  iIntros "(%hd & %tl & Hp & Hc) HQ". iDestruct (nodes_cons with "Hc") as (nx) "[Hh Hc]".
  unfold detach_front. wp_read "Hp". wp_read "Hh". wp_write "Hp". wp_return.
  iApply ("HQ" with "Hh"). iExists nx, tl. iFrame.
Qed.

Lemma wp_unlink_front b p x xs w (Q : ptr → world → hPropI lcell) :
  len (x :: xs) < 2 ^ 64 →
  llist_at b p (x :: xs) -∗
  (∀ temp nx, temp ↦ as_cell (LNode x nx) -∗ llist_at b p xs -∗ Q temp w) -∗
  wp (unlink_front p) w Q.
Proof.
  iIntros (Hlen) "Hl HQ". pose proof (len_nonneg xs). unfold unlink_front.
  rw len_cons in Hlen. rw -list_mid_free len_cons.
  wp_focus. iApply (wp_mid_lock with "Hl"). iIntros "Hl".
  wp_focus. iApply (wp_detach_front with "Hl"). iIntros (temp nx) "Hn Hl".
  wp_focus. iApply (wp_mid_decr with "Hl"); [lia|]. iIntros "Hl".
  wp_focus. iApply (wp_mid_unlock with "Hl"). iIntros "Hl". wp_return.
  replace (len xs + 1 - 1) with (len xs) by lia. iApply ("HQ" with "Hn Hl").
Qed.

Lemma wp_llist_is_empty b p xs w (Q : Z → world → hPropI lcell) :
  p ≠ NULL →
  llist_at b p xs -∗ (llist_at b p xs -∗ Q (if bool_decide (xs = []) then 1 else 0) w) -∗
  wp (is_llist_empty p) w Q.
Proof.
  iIntros (Hp) "(%hd & %tl & Hp & Hc) HQ". iApply (wp_is_llist_empty with "Hp"); [done|].
  iIntros "Hp". simpl. assert ((0 <? len xs) = negb (bool_decide (xs = []))) as ->.
  { unfold len. destruct xs; [done|]. simpl. by apply Z.ltb_lt. }
  iSpecialize ("HQ" with "[Hp Hc]"); [iExists hd, tl; iFrame|]. by case_bool_decide.
Qed.

Lemma wp_llist_remove_front b p xs w (Q : ptr → world → hPropI lcell) :
  p ≠ NULL → len xs < 2 ^ 64 →
  llist_at b p xs -∗
  (llist_at b p (List.tl xs) -∗ Q (default NULL (List.hd_error xs)) w) -∗
  wp (llist_remove_front p) w Q.
Proof.
  iIntros (Hp Hlen) "Hl HQ". unfold llist_remove_front. rw (eqb_null_false _ Hp).
  wp_focus. iApply (wp_llist_is_empty with "Hl"); [done|]. iIntros "Hl".
  destruct xs as [|x xs]; simpl.
  - wp_return. by iApply "HQ".
  - wp_focus. iApply (wp_unlink_front with "Hl"); [done|]. iIntros (temp nx) "Hh Hl".
    wp_read "Hh". wp_dealloc "Hh". wp_return. by iApply "HQ".
Qed.

(** ** Insertion at the tail *)

Lemma wp_attach_tail p n d mx c xs w (Q : () → world → hPropI lcell) :
  list_mid true p mx c xs -∗ n ↦ as_cell (LNode d NULL) -∗
  (list_mid true p mx c (xs ++ [d]) -∗ Q () w) -∗ wp (attach_tail p n) w Q.
Proof.
  iIntros "(%hd & %tl & Hp & Hc) Hn HQ". unfold attach_tail. wp_read "Hp".
  wp_focus. iApply (wp_wand _ _ (λ _ w', ⟪w' = w⟫ ∗ ∃ hd',
    p ↦ as_cell (LList c hd' tl pr fr mx) ∗ qchain LNode hd' n (xs ++ [d]))%I
    with "[Hp Hc Hn]").
  { iDestruct (qchain_head with "Hc") as %Hhd. destruct xs as [|x xs].
    - iDestruct "Hc" as "[%H|(%ys & %y & %H & Hr)]"; [|by destruct ys]. destruct H as [_ ->].
      rw /=. wp_write "Hp". iSplitR; [done|]. iExists n. iFrame. by iApply qchain_one.
    - destruct (hd =? NULL) eqn:E; zbool; [by apply Hhd in E|].
      iDestruct (qchain_last with "Hc") as (y) "[Hl Hk]". wp_read "Hp". wp_write "Hl".
      iSplitR; [done|]. iExists hd. iFrame. iApply ("Hk" with "Hl Hn"). }
  iIntros ([] w') "(-> & %hd' & Hp & Hc)". wp_write "Hp".
  iApply "HQ". iExists hd', n. iFrame.
Qed.

Lemma wp_link_tail p n d xs w (Q : () → world → hPropI lcell) :
  len xs + 1 < 2 ^ 64 →
  llist_at true p xs -∗ n ↦ as_cell (LNode d NULL) -∗
  (llist_at true p (xs ++ [d]) -∗ Q () w) -∗ wp (link_tail p n) w Q.
Proof.
  intros Hlen. apply wp_link; [done|apply len_snoc|]. intros. by apply wp_attach_tail.
Qed.

Lemma wp_llist_enqueue p d xs w (Q : () → world → hPropI lcell) :
  p ≠ NULL → d ≠ NULL → len xs + 1 < 2 ^ 64 →
  llist_at true p xs -∗
  (llist_at true p (if calloc_ok w then xs ++ [d] else xs) -∗ Q () (calloc_world w)) -∗
  wp (llist_enqueue p d) w Q.
Proof.
  iIntros (Hp Hd Hlen) "Hl HQ". unfold llist_enqueue.
  rw (eqb_null_false _ Hp) (eqb_null_false _ Hd) /=.
  wp_focus. iApply wp_create_node; [done|]. destruct (calloc_ok w).
  - iIntros (n Hn) "Hn". rw (eqb_null_false _ Hn). by iApply (wp_link_tail with "Hl Hn").
  - rw /=. wp_return. by iApply "HQ".
Qed.

(** ** Observers *)

Lemma wp_llist_size b p xs w (Q : Z → world → hPropI lcell) :
  p ≠ NULL → llist_at b p xs -∗ (llist_at b p xs -∗ Q (len xs) w) -∗ wp (llist_size p) w Q.
Proof.
  iIntros (Hp) "(%hd & %tl & Hp & Hc) HQ". unfold llist_size. rw (eqb_null_false _ Hp).
  iApply (wp_get with "Hp"). iIntros "Hp". iApply "HQ". iExists hd, tl. iFrame.
Qed.

Lemma wp_llist_peek b p xs w (Q : ptr → world → hPropI lcell) :
  p ≠ NULL →
  llist_at b p xs -∗ (llist_at b p xs -∗ Q (default NULL (List.hd_error xs)) w) -∗
  wp (llist_peek p) w Q.
Proof.
  iIntros (Hp) "(%hd & %tl & Hp & Hc) HQ". unfold llist_peek. rw (eqb_null_false _ Hp).
  wp_read "Hp". destruct xs as [|x xs].
  - iDestruct (nodes_nil with "Hc") as %->. rw /=. wp_return. iApply "HQ".
    iExists NULL, tl. iFrame.
  - iDestruct (nodes_first with "Hc") as (nx) "[Hh Hc]". not_null "Hh". wp_read "Hp".
    iApply (wp_get with "Hh"). iIntros "Hh". iApply "HQ". iExists hd, tl. iFrame.
    by iApply "Hc".
Qed.

Lemma wp_llist_peek_tail p xs x w (Q : ptr → world → hPropI lcell) :
  p ≠ NULL →
  llist_at true p (xs ++ [x]) -∗ (llist_at true p (xs ++ [x]) -∗ Q x w) -∗
  wp (llist_peek_tail p) w Q.
Proof.
  iIntros (Hp) "(%hd & %tl & Hp & Hc) HQ". unfold llist_peek_tail. rw (eqb_null_false _ Hp).
  iDestruct "Hc" as "[%H|(%ys & %y & %H & Hc & Hl)]"; [by destruct H, xs|].
  apply app_inj_tail in H as [<- <-].
  wp_read "Hp". not_null "Hl". wp_read "Hp". iApply (wp_get with "Hl"). iIntros "Hl".
  iApply "HQ". iExists hd, tl. iFrame. iRight. iExists xs, x. by iFrame.
Qed.

(** ** Display and destruction *)

Definition lcalls (f : ptr) xs : list event := map (λ d, EvCall f [d]) xs.

(** The loop passes a segment of the list. *)
Lemma wp_display_segment fuel p o hd mid xs w (Q : () → world → hPropI lcell) :
  pr ≠ NULL → print o = pr →
  p ↦ as_cell o -∗ chain LNode hd mid xs -∗
  (p ↦ as_cell o -∗ chain LNode hd mid xs -∗
   wp (display_loop fuel p mid) (emits (lcalls pr xs) w) Q) -∗
  wp (display_loop (length xs + fuel) p hd) w Q.
Proof.
  intros Hpr Ho. revert hd w Q. induction xs as [|x xs IH]; intros hd w Q;
    iIntros "Hp Hc HQ"; simpl.
  - iDestruct "Hc" as %->. rw emits_nil. by iApply ("HQ" with "Hp").
  - iDestruct "Hc" as (nx) "[Hh Hc]". not_null "Hh". wp_read "Hp". wp_read "Hh". rw Ho.
    wp_focus. iApply wp_call_user; [done|]. wp_read "Hh".
    iApply (IH with "Hp Hc"). iIntros "Hp Hc".
    rw emit_world_emits emits_app. iApply ("HQ" with "Hp"). iExists nx. iFrame.
Qed.

Lemma wp_display_nodes b fuel p o hd tl xs w (Q : () → world → hPropI lcell) :
  pr ≠ NULL → print o = pr → (length xs < fuel)%nat →
  p ↦ as_cell o -∗ nodes b hd tl xs -∗
  (p ↦ as_cell o -∗ nodes b hd tl xs -∗ Q () (emits (lcalls pr xs) w)) -∗
  wp (display_loop fuel p hd) w Q.
Proof.
  iIntros (Hpr Ho Hfuel) "Hp Hc HQ". destruct b.
  - iDestruct "Hc" as "[%H|(%ys & %y & %H & Hc & Hl)]".
    + destruct H as [-> ->]. destruct fuel as [|fuel]; [lia|]. rw /=. wp_return.
      rw emits_nil. iApply ("HQ" with "Hp"). by iApply qchain_nil.
    + subst xs. rw length_app /= in Hfuel.
      destruct (Nat.le_exists_sub (length ys) fuel) as (k & -> & _); [lia|].
      rw Nat.add_comm. iApply (wp_display_segment with "Hp Hc"); [done..|]. iIntros "Hp Hc".
      destruct k as [|[|k]]; [lia|lia|]. simpl. not_null "Hl". wp_read "Hp". wp_read "Hl". rw Ho.
      wp_focus. iApply wp_call_user; [done|]. wp_read "Hl". wp_return.
      rw emit_world_emits emits_app -(map_app _ _ [y]). iApply ("HQ" with "Hp").
      iRight. iExists ys, y. by iFrame.
  - destruct (Nat.le_exists_sub (length xs) fuel) as (k & -> & _); [lia|].
    rw Nat.add_comm. iApply (wp_display_segment with "Hp Hc"); [done..|]. iIntros "Hp Hc".
    destruct k as [|k]; [lia|]. rw /=. wp_return. iApply ("HQ" with "Hp Hc").
Qed.

Lemma wp_llist_display b p xs w (Q : () → world → hPropI lcell) :
  p ≠ NULL → pr ≠ NULL →
  llist_at b p xs -∗ (llist_at b p xs -∗ Q () (emits (lcalls pr xs) w)) -∗
  wp (llist_display p) w Q.
Proof.
  iIntros (Hp Hpr) "(%hd & %tl & Hp & Hc) HQ". unfold llist_display. rw (eqb_null_false _ Hp).
  wp_read "Hp". destruct (hd =? NULL) eqn:E; zbool.
  - iDestruct (nodes_head with "Hc") as %Hxs. rw (proj1 Hxs E). wp_return. rw emits_nil.
    iApply "HQ". iExists hd, tl. iFrame.
  - wp_read "Hp". wp_focus. iApply (wp_heap_fuel (length xs) (nodes b hd tl xs) with "Hc").
    { intros m Hm. eapply (chain_size LNode). eapply holds_entails; [apply nodes_chain|exact Hm]. }
    iIntros (n Hn) "Hc". iApply (wp_display_nodes with "Hp Hc"); [done|done|done|].
    iIntros "Hp Hc". iApply "HQ". iExists hd, tl. iFrame.
Qed.

Lemma wp_destroy_loop fuel pp p c hd tl xs w (Q : () → world → hPropI lcell) :
  fr ≠ NULL → (length xs < fuel)%nat →
  pp ↦ as_cell (p : ptr) -∗ p ↦ as_cell (LList c hd tl pr fr MutexFree) -∗
  chain LNode hd NULL xs -∗
  (pp ↦ as_cell (p : ptr) -∗ p ↦ as_cell (LList c NULL tl pr fr MutexFree) -∗
   Q () (emits (lcalls fr xs) w)) -∗
  wp (destroy_loop fuel pp hd) w Q.
Proof.
  intros Hfr. revert fuel hd w Q. induction xs as [|x xs IH]; intros fuel hd w Q Hfuel;
    (destruct fuel as [|fuel]; [simpl in *; lia|]); iIntros "Hpp Hp Hc HQ"; simpl; unfold deref.
  - iDestruct "Hc" as %->. rw /=. wp_return. rw emits_nil. by iApply ("HQ" with "Hpp").
  - iDestruct "Hc" as (nx) "[Hh Hc]". not_null "Hh". wp_read "Hh". wp_read "Hpp". wp_write "Hp".
    wp_read "Hpp". wp_read "Hp". wp_read "Hh". wp_focus. iApply wp_call_user; [done|].
    wp_dealloc "Hh". wp_read "Hpp". wp_read "Hp".
    iApply (IH with "Hpp Hp Hc"); [simpl in *; lia|]. iIntros "Hpp Hp".
    rw emit_world_emits emits_app. iApply ("HQ" with "Hpp Hp").
Qed.

(** The caller's pointer keeps the address of the freed object. *)
Lemma wp_llist_destroy b pp p xs w (Q : () → world → hPropI lcell) :
  p ≠ NULL → fr ≠ NULL →
  llist_at b p xs -∗ pp ↦ as_cell (p : ptr) -∗
  (pp ↦ as_cell (p : ptr) -∗ Q () (emits (lcalls fr xs) w)) -∗
  wp (llist_destroy pp) w Q.
Proof.
  iIntros (Hp Hfr) "(%hd & %tl & Hp & Hc) Hpp HQ". iDestruct (nodes_chain with "Hc") as "Hc".
  unfold llist_destroy, deref.
  not_null "Hpp". wp_read "Hpp". rw (eqb_null_false _ Hp). wp_read "Hpp". wp_read "Hp".
  wp_focus. iApply (wp_chain_fuel with "Hc").
  iIntros (n Hn) "Hc". wp_focus. iApply (wp_destroy_loop with "Hpp Hp Hc"); [done|done|].
  iIntros "Hpp Hp". wp_read "Hpp". iApply (wp_free with "Hp"). by iApply "HQ".
Qed.

(** ** Contracts *)

(** Used as a queue, the list keeps the contract of the file Fifo. *)
Definition llist_fifo_rep (p : ptr) (k : nat) xs : hPropI lcell :=
  (⟪p ≠ NULL ∧ len xs + Z.of_nat k < 2 ^ 64⟫ ∗ llist_at true p xs)%I.

#[export] Instance llist_fifo : Fifo llist_enqueue llist_dequeue llist_fifo_rep.
Proof.
  split.
  - iIntros (q k xs x w Q Hx Hw) "[%Hq Hl] HQ". destruct Hq as [Hq Hlen].
    pose proof (calloc_plan_nil w Hw) as [Hok Hid].
    iApply (wp_llist_enqueue with "Hl"); [done|done|lia|]. rw Hok Hid. iIntros "Hl".
    iApply "HQ". iFrame. iPureIntro. rw len_snoc. split; [done|lia].
  - iIntros (q k xs x w Q) "[%Hq Hl] HQ". destruct Hq as [Hq Hlen].
    pose proof (len_cons x xs).
    iApply (wp_llist_remove_front true with "Hl"); [done|lia|]. simpl. iIntros "Hl". iApply "HQ". iFrame.
    iPureIntro. split; [done|lia].
  - iIntros (q k w Q) "[%Hq Hl] HQ". destruct Hq as [Hq Hlen].
    iApply (wp_llist_remove_front true with "Hl"); [done|lia|]. simpl. iIntros "Hl". iApply "HQ". by iFrame.
Qed.
End ops.

(** An empty list, for examples. *)
Definition lworld_ex : world := World [] [] 0 [].
Definition empty_list_ex : gmap Z lcell := {[1 := LCList (LList 0 0 0 2 3 MutexFree)]}.

Lemma empty_list_ex_at : holds (llist_at 2 3 true 1 []) empty_list_ex.
Proof.
  exists 0, 0. exists empty_list_ex, ∅. split; [by vm_compute|].
  split; [apply map_disjoint_empty_r|]. split; [by split|]. by left.
Qed.
