(* ===== verification/LListSession.v ===== *)
(** * LListSession: sequences of calls on one linked list

    [lop] lists the operations of linked_list_lib.c on an existing list and
    [spec_lop] says what each should do to a sequence.  [allowed] is the use that
    the implementation supports: in list use every operation that does not read
    the tail field, in queue use every operation but [llist_insert_back], with
    an insertion at the front or a look at the tail only when the list is not
    empty. *)

From iris.proofmode Require Import environments proofmode.
From stdpp Require Import gmap strings.
From S2P Require Import Prelude HProp Mem Chain LListCode LListOps.

Open Scope Z_scope.

Inductive lop :=
  | OInsertFront (d : ptr) | OPush (d : ptr) | OInsertBack (d : ptr) | OEnqueue (d : ptr)
  | ORemoveFront | OPop | ODequeue
  | OPeek | OPeekTail | OSize | OIsEmpty | ODisplay.

(** ** The reference *)

Definition lop_arg (o : lop) : option ptr :=
  match o with
  | OInsertFront d | OPush d | OInsertBack d | OEnqueue d => Some d
  | _ => None
  end.

Section session.
Context (pr fr : ptr).
Implicit Types (xs : list ptr) (o : lop).

(** The contents, the result (0 for the [void] functions) and the output. *)
Definition spec_lop o xs : list ptr * Z * list event :=
  match o with
  | OInsertFront d | OPush d => (d :: xs, 0, [])
  | OInsertBack d | OEnqueue d => (xs ++ [d], 0, [])
  | ORemoveFront | OPop | ODequeue => (List.tl xs, default NULL (List.hd_error xs), [])
  | OPeek => (xs, default NULL (List.hd_error xs), [])
  | OPeekTail => (xs, List.last xs NULL, [])
  | OSize => (xs, len xs, [])
  | OIsEmpty => (xs, if bool_decide (xs = []) then 1 else 0, [])
  | ODisplay => (xs, 0, lcalls pr xs)
  end.

Fixpoint spec_lops (os : list lop) xs : list ptr * list Z * list event :=
  match os with
  | [] => (xs, [], [])
  | o :: os => let '(xs, r, es) := spec_lop o xs in
               let '(xs, rs, es') := spec_lops os xs in (xs, r :: rs, es ++ es')
  end.

(** ** The supported use *)

Definition allowed (queue : bool) o xs : bool :=
  match o with
  | OInsertFront _ | OPush _ => keeps_front queue xs
  | OInsertBack _ => negb queue
  | OEnqueue _ => queue
  | OPeekTail => queue && negb (bool_decide (xs = []))
  | _ => true
  end && match lop_arg o with Some d => negb (d =? NULL) | None => true end.

Fixpoint allowed_all (queue : bool) (os : list lop) xs : bool :=
  match os with
  | [] => true
  | o :: os => allowed queue o xs && allowed_all queue os (spec_lop o xs).1.1
  end.

(** ** The calls *)

Definition do_lop (p : ptr) o : lprog Z :=
  match o with
  | OInsertFront d => llist_insert_front p d;; mret 0
  | OPush d => llist_push p d;; mret 0
  | OInsertBack d => llist_insert_back p d;; mret 0
  | OEnqueue d => llist_enqueue p d;; mret 0
  | ORemoveFront => llist_remove_front p
  | OPop => llist_pop p
  | ODequeue => llist_dequeue p
  | OPeek => llist_peek p
  | OPeekTail => llist_peek_tail p
  | OSize => llist_size p
  | OIsEmpty => is_llist_empty p
  | ODisplay => llist_display p;; mret 0
  end.

Fixpoint do_lops (p : ptr) (os : list lop) : lprog (list Z) :=
  match os with
  | [] => mret []
  | o :: os => r ← do_lop p o; rs ← do_lops p os; mret (r :: rs)
  end.

(** Create a list, store its address at [pp], use it, destroy it. *)
Definition llist_session (pp : ptr) (os : list lop) : lprog (option (list Z)) :=
  p ← llist_create pr fr;
  if p =? NULL then mret None else
  set (λ _ : ptr, p) pp;;
  rs ← do_lops p os;
  llist_destroy pp;;
  mret (Some rs).

Context (Hpr : pr ≠ NULL) (Hfr : fr ≠ NULL).

Lemma wp_do_lop b p o xs w (Q : Z → world → hPropI lcell) :
  p ≠ NULL → calloc_plan w = [] → allowed b o xs = true → len xs + 1 < 2 ^ 64 →
  llist_at pr fr b p xs -∗
  (llist_at pr fr b p (spec_lop o xs).1.1 -∗ Q (spec_lop o xs).1.2 (emits (spec_lop o xs).2 w)) -∗
  wp (do_lop p o) w Q.
Proof.
  intros Hp Hw Ha Hlen. pose proof (calloc_plan_nil w Hw) as [Hok Hid].
  apply andb_true_iff in Ha as [Ha Hd].
  iIntros "Hl HQ". destruct o; simpl in *; zbool; rw ?emits_nil.
  - wp_focus. iApply (wp_llist_insert_front with "Hl"); [done..|]. rw Hok Hid.
    iIntros "Hl". wp_return. by iApply "HQ".
  - wp_focus. iApply (wp_llist_push with "Hl"); [done..|]. rw Hok Hid.
    iIntros "Hl". wp_return. by iApply "HQ".
  - destruct b; [done|]. wp_focus. iApply (wp_llist_insert_back with "Hl"); [done..|]. rw Hok Hid.
    iIntros "Hl". wp_return. by iApply "HQ".
  - destruct b; [|done]. wp_focus. iApply (wp_llist_enqueue with "Hl"); [done..|]. rw Hok Hid.
    iIntros "Hl". wp_return. by iApply "HQ".
  - iApply (wp_llist_remove_front with "Hl"); [done|lia|done].
  - iApply (wp_llist_remove_front with "Hl"); [done|lia|done].
  - iApply (wp_llist_remove_front with "Hl"); [done|lia|done].
  - by iApply (wp_llist_peek with "Hl").
  - destruct b; [|done]. destruct xs as [|xs x] using rev_ind; [done|].
    iApply (wp_llist_peek_tail with "Hl"); [done|]. by rw List.last_last.
  - by iApply (wp_llist_size with "Hl").
  - by iApply (wp_llist_is_empty with "Hl").
  - wp_focus. iApply (wp_llist_display with "Hl"); [done..|].
    iIntros "Hl". wp_return. by iApply "HQ".
Qed.

Lemma spec_lop_len o xs : len (spec_lop o xs).1.1 ≤ len xs + 1.
Proof.
  unfold len. destruct o, xs; simpl; rw ?length_app /=; lia.
Qed.

Lemma wp_do_lops b p os xs w (Q : list Z → world → hPropI lcell) :
  p ≠ NULL → calloc_plan w = [] → allowed_all b os xs = true →
  len xs + Z.of_nat (length os) < 2 ^ 64 →
  llist_at pr fr b p xs -∗
  (let '(xs', rs, es) := spec_lops os xs in llist_at pr fr b p xs' -∗ Q rs (emits es w)) -∗
  wp (do_lops p os) w Q.
Proof.
  intros Hp. revert xs w Q. induction os as [|o os IH]; intros xs w Q Hw Ha Hlen; simpl.
  { iIntros "Hl HQ". wp_return. rw emits_nil. by iApply "HQ". }
  simpl in Ha. apply andb_true_iff in Ha as [Ho Ha]. iIntros "Hl HQ". wp_focus.
  iApply (wp_do_lop with "Hl"); [done|done|done|simpl in Hlen; lia|]. iIntros "Hl".
  pose proof (spec_lop_len o xs) as Hs. specialize (IH (spec_lop o xs).1.1).
  destruct (spec_lop o xs) as [[xs1 r] es1]. simpl in *.
  wp_focus. iApply (IH with "Hl"); [done|done|lia|].
  destruct (spec_lops os xs1) as [[xs' rs] es]. iIntros "Hl". wp_return. rw emits_app.
  by iApply "HQ".
Qed.

Lemma wp_llist_session b pp q os w (Q : option (list Z) → world → hPropI lcell) :
  calloc_plan w = [] → allowed_all b os [] = true → Z.of_nat (length os) < 2 ^ 64 →
  pp ↦ as_cell (q : ptr) -∗
  (let '(xs, rs, es) := spec_lops os [] in
   ∀ p, ⌜p ≠ NULL⌝ → pp ↦ as_cell (p : ptr) -∗ Q (Some rs) (emits (es ++ lcalls fr xs) w)) -∗
  wp (llist_session pp os) w Q.
Proof.
  iIntros (Hw Ha Hlen) "Hpp HQ". unfold llist_session.
  pose proof (calloc_plan_nil w Hw) as [Hok Hid].
  wp_focus. iApply wp_llist_create; [done..|]. rw Hok Hid. iIntros (p Hp) "Hl".
  rw (eqb_null_false _ Hp). wp_write "Hpp". wp_focus.
  iApply (wp_do_lops b _ _ [] with "[Hl]"); [done|done|done|unfold len; simpl; lia| |].
  { destruct b; [done|]. by iApply (llist_at_list with "Hl"). }
  destruct (spec_lops os []) as [[xs rs] es]. iIntros "Hl".
  wp_focus. iApply (wp_llist_destroy with "Hl Hpp"); [done..|]. iIntros "Hpp". wp_return.
  rw emits_app. by iApply "HQ".
Qed.
End session.
