(* ===== verification/LListMisuse.v ===== *)
(** * LListMisuse: what goes wrong when the two uses of the list are mixed

    [llist_insert_back] leaves the tail of the list NULL, and a removal leaves it at the
    node that it frees.  The file follows the tail through any number of such calls. *)

From iris.proofmode Require Import environments proofmode.
From stdpp Require Import gmap strings.
From S2P Require Import Prelude HProp Mem Chain LListCode LListOps LListSession.

Open Scope Z_scope.

Definition bad_access (e : error) : Prop := ∃ l, e = BadAccess l.

Section misuse.
Context (pr fr : ptr) (Hpr : pr ≠ NULL) (Hfr : fr ≠ NULL).
Implicit Types (xs : list ptr).

(** ** Sequences of calls *)

Lemma do_lops_app p os os' s :
  do_lops p (os ++ os') s = (rs ← do_lops p os; rs' ← do_lops p os'; mret (rs ++ rs')) s.
Proof.
  revert s. induction os as [|o os IH]; intros s; simpl; unfold mbind, M_bind, mret, M_ret in *.
  - by destruct (do_lops p os' s).
  - destruct (do_lop p o s) as [r s1|]; [|done]. rw IH.
    destruct (do_lops p os s1) as [rs s2|]; [|done]. by destruct (do_lops p os' s2).
Qed.

(** The calls [os] succeed and then one fails. *)
Lemma fails_do_lops p os os' w (E : error → Prop) :
  wp (do_lops p os) w (λ _ w', fails (do_lops p os') w' E) ⊢ fails (do_lops p (os ++ os')) w E.
Proof.
  iIntros "H". iApply fails_ext; [intros s; symmetry; apply do_lops_app|].
  iApply fails_after. iApply (wp_wand with "H"). iIntros (rs w') "H". by iApply fails_bind.
Qed.

Lemma fails_session pp q os w (E : error → Prop) :
  calloc_plan w = [] → pp ↦ as_cell (q : ptr) -∗
  (∀ p, ⌜p ≠ NULL⌝ → p ↦ as_cell (new_list pr fr) -∗ pp ↦ as_cell (p : ptr) -∗
    fails (do_lops p os) w E) -∗
  fails (llist_session pr fr pp os) w E.
Proof.
  iIntros (Hw) "Hpp HE". pose proof (calloc_plan_nil w Hw) as [Hok Hid]. unfold llist_session.
  iApply fails_after. iApply wp_llist_create_fields; [done..|]. rw Hok Hid. iIntros (p Hp) "Hp".
  rw (eqb_null_false _ Hp). iApply fails_after. iApply (wp_set with "Hpp"). iIntros "Hpp".
  iApply fails_bind. by iApply ("HE" with "[//] Hp Hpp").
Qed.

(** ** Enqueue after insertions at the back *)

(** A list whose tail has never been set. *)
Definition no_tail p xs : hPropI lcell :=
  (∃ hd, p ↦ as_cell (LList (len xs) hd NULL pr fr MutexFree) ∗ chain LNode hd NULL xs)%I.

Lemma wp_insert_back_no_tail p d xs w (Q : () → world → hPropI lcell) :
  p ≠ NULL → d ≠ NULL → calloc_plan w = [] → len xs + 1 < 2 ^ 64 →
  no_tail p xs -∗ (no_tail p (xs ++ [d]) -∗ Q () w) -∗ wp (llist_insert_back p d) w Q.
Proof.
  iIntros (Hp Hd Hw Hlen) "(%hd & Hp & Hc) HQ". pose proof (calloc_plan_nil w Hw) as [Hok Hid].
  unfold llist_insert_back, link_back. rw (eqb_null_false _ Hp) (eqb_null_false _ Hd) /=.
  wp_focus. iApply wp_calloc_struct. rw Hok Hid. iIntros (n) "Hn". not_null "Hn". wp_write "Hn".
  wp_lock "Hp". wp_focus. iApply (wp_attach_back_fields with "Hp Hc Hn"). iIntros (hd') "Hp Hc".
  wp_focus. iApply (wp_count_incr with "Hp"); [apply len_nonneg|done|]. iIntros "Hp". simpl.
  wp_unlock "Hp". iApply "HQ". rw -(len_snoc xs d). iExists hd'. iFrame.
Qed.

Lemma wp_insert_all_back p ds xs w (Q : list Z → world → hPropI lcell) :
  p ≠ NULL → Forall (λ d, d ≠ NULL) ds → calloc_plan w = [] → len xs + len ds < 2 ^ 64 →
  no_tail p xs -∗ (∀ rs, no_tail p (xs ++ ds) -∗ Q rs w) -∗ wp (do_lops p (map OInsertBack ds)) w Q.
Proof.
  intros Hp. revert xs w Q. induction ds as [|d ds IH]; intros xs w Q Hds Hw Hlen; simpl.
  { iIntros "Hl HQ". wp_return. iApply "HQ". by rw app_nil_r. }
  apply Forall_cons in Hds as [Hd Hds]. rw len_cons in Hlen. pose proof (len_nonneg ds).
  iIntros "Hl HQ". wp_focus. wp_focus. iApply (wp_insert_back_no_tail with "Hl"); [done..|lia|].
  iIntros "Hl". wp_return. wp_focus. iApply (IH with "Hl"); [done|done|rw len_snoc; lia|].
  iIntros (rs) "Hl". wp_return. iApply "HQ". by rw -app_assoc.
Qed.

(** The new node is linked through the tail, which is NULL. *)
Lemma fails_enqueue_no_tail p d xs (R : hPropI lcell) w :
  p ≠ NULL → d ≠ NULL → calloc_plan w = [] → xs ≠ [] →
  no_tail p xs -∗ R -∗ fails (llist_enqueue p d) w (eq NullDeref).
Proof.
  iIntros (Hp Hd Hw Hxs) "(%hd & Hp & Hc) HR". pose proof (calloc_plan_nil w Hw) as [Hok Hid].
  iDestruct (chain_head with "Hc") as %Hhd. unfold llist_enqueue, link_tail, attach_tail.
  rw (eqb_null_false _ Hp) (eqb_null_false _ Hd) /=.
  iApply fails_after. iApply wp_create_node; [done|]. rw Hok Hid. iIntros (n Hn) "Hn".
  rw (eqb_null_false _ Hn). iApply fails_after. iApply (wp_mutex_lock with "Hp"); [done|]. iIntros "Hp".
  iApply fails_bind. iApply fails_after. iApply (wp_get with "Hp"). iIntros "Hp". simpl.
  destruct (hd =? NULL) eqn:E; zbool; [by apply Hhd in E|]. iApply fails_bind.
  iApply fails_after. iApply (wp_get with "Hp"). iIntros "Hp". iStopProof. by apply fails_set_null.
Qed.

Lemma fails_enqueue_after_insert_back pp q ds d os w :
  ds ≠ [] → Forall (λ d, d ≠ NULL) ds → d ≠ NULL → calloc_plan w = [] → len ds < 2 ^ 64 →
  pp ↦ as_cell (q : ptr) -∗
  fails (llist_session pr fr pp (map OInsertBack ds ++ OEnqueue d :: os)) w (eq NullDeref).
Proof.
  iIntros (Hne Hds Hd Hw Hlen) "Hpp". iApply (fails_session with "Hpp"); [done|].
  iIntros (p Hp) "Hp Hpp". iApply fails_do_lops.
  iApply (wp_insert_all_back p ds [] with "[Hp]"); [done..| |].
  { iExists NULL. iFrame. done. }
  iIntros (rs) "Hl". iApply fails_bind. iApply fails_bind.
  by iApply (fails_enqueue_no_tail with "Hl Hpp").
Qed.

(** ** Looking at the tail of a queue that has been drained *)

(** The removal of the last element leaves the tail at the freed node. *)
Lemma wp_dequeue_last p x pp (v : lcell) w (Q : ptr → world → hPropI lcell) :
  p ≠ NULL →
  llist_at pr fr true p [x] -∗ pp ↦ v -∗
  (∀ tl, ⌜tl ≠ NULL ∧ tl ≠ p ∧ tl ≠ pp⌝ →
     p ↦ as_cell (LList 0 NULL tl pr fr MutexFree) -∗ pp ↦ v -∗ Q x w) -∗
  wp (llist_dequeue p) w Q.
Proof.
  iIntros (Hp) "(%hd & %tl & Hp & Hc) Hpp HQ".
  iDestruct "Hc" as "[%H|(%ys & %y & %H & Hc & Hn)]"; [by destruct H|].
  destruct ys as [|? [|]]; [|done..]. injection H as ->. iDestruct "Hc" as %->.
  iAssert ⌜tl ≠ p⌝%I as %H1.
  { iIntros (->). by iDestruct (pointsto_exclusive with "Hn Hp") as %[]. }
  iAssert ⌜tl ≠ pp⌝%I as %H2.
  { iIntros (->). by iDestruct (pointsto_exclusive with "Hn Hpp") as %[]. }
  iDestruct (pointsto_not_null with "Hn") as %H3.
  unfold llist_dequeue, llist_remove_front, unlink_front, detach_front. rw (eqb_null_false _ Hp).
  wp_focus. iApply (wp_is_llist_empty with "Hp"); [done|]. iIntros "Hp". rw /=.
  wp_focus. wp_lock "Hp". wp_focus. wp_read "Hp". wp_read "Hn". wp_write "Hp". wp_return.
  wp_focus. iApply (wp_count_decr with "Hp"); [done|]. iIntros "Hp". wp_unlock "Hp". wp_return.
  wp_read "Hn". wp_dealloc "Hn". wp_return. by iApply ("HQ" with "[//] Hp").
Qed.

Lemma fails_peek_tail p c hd tl pp (v : lcell) w :
  p ≠ NULL → tl ≠ NULL → tl ≠ p → tl ≠ pp →
  p ↦ as_cell (LList c hd tl pr fr MutexFree) -∗ pp ↦ v -∗
  fails (llist_peek_tail p) w bad_access.
Proof.
  iIntros (Hp H1 H2 H3) "Hp Hpp". unfold llist_peek_tail. rw (eqb_null_false _ Hp).
  iApply fails_after. iApply (wp_get with "Hp"). iIntros "Hp". simpl. rw (eqb_null_false _ H1).
  iApply fails_after. iApply (wp_get with "Hp"). iIntros "Hp". simpl.
  iApply (fails_get with "Hp Hpp"); [done..|by eexists].
Qed.

Definition fill_and_drain xs : list lop :=
  map OEnqueue xs ++ replicate (length xs) ODequeue.

Lemma spec_enqueues xs ys os :
  (spec_lops pr (map OEnqueue xs ++ os) ys).1.1 = (spec_lops pr os (ys ++ xs)).1.1 ∧
  (Forall (λ d, d ≠ NULL) xs →
   allowed_all pr true (map OEnqueue xs ++ os) ys = allowed_all pr true os (ys ++ xs)).
Proof.
  revert ys. induction xs as [|x xs IH]; intros ys; simpl; [by rw app_nil_r|].
  destruct (IH (ys ++ [x])) as [H1 H2]. rw -app_assoc in H1 H2. split.
  - destruct (spec_lops pr (map OEnqueue xs ++ os) (ys ++ [x])) as [[zs rs] es]. done.
  - intros [Hx Hxs]%Forall_cons. rw H2; [|done]. unfold allowed. by rw /= (eqb_null_false _ Hx).
Qed.

Lemma spec_dequeues n xs :
  (spec_lops pr (replicate n ODequeue) xs).1.1 = drop n xs ∧
  allowed_all pr true (replicate n ODequeue) xs = true.
Proof.
  revert xs. induction n as [|n IH]; intros xs; simpl; [done|].
  destruct (IH (List.tl xs)) as [H1 H2]. split; [|done].
  destruct (spec_lops pr (replicate n ODequeue) (List.tl xs)) as [[zs rs] es]. simpl in *.
  rw H1. by destruct xs; [destruct n|].
Qed.

Lemma fails_peek_tail_drained pp q xs os w :
  xs ≠ [] → Forall (λ d, d ≠ NULL) xs → calloc_plan w = [] → 2 * len xs < 2 ^ 64 →
  pp ↦ as_cell (q : ptr) -∗
  fails (llist_session pr fr pp (fill_and_drain xs ++ OPeekTail :: os)) w
    bad_access.
Proof.
  iIntros (Hne Hxs Hw Hlen) "Hpp". iApply (fails_session with "Hpp"); [done|].
  iIntros (p Hp) "Hp Hpp". destruct xs as [|x xs _] using rev_ind; [done|].
  unfold fill_and_drain. rw length_app Nat.add_comm /=.
  replace (ODequeue :: replicate (length xs) ODequeue) with (replicate (length xs) ODequeue ++ [ODequeue])
    by by rw -replicate_cons_app.
  rw -!app_assoc (app_assoc (map _ _)). iApply fails_do_lops.
  destruct (spec_enqueues (xs ++ [x]) [] (replicate (length xs) ODequeue)) as [H1 H2].
  destruct (spec_dequeues (length xs) (xs ++ [x])) as [H3 H4]. specialize (H2 Hxs).
  rw drop_app_length in H3. rw H3 in H1. rw H4 in H2.
  unfold len in *. rw length_app /= in Hlen.
  iApply (wp_do_lops pr fr Hpr true p _ [] with "[Hp]"); [done|done|done| | |].
  { unfold len. rw length_app length_map length_replicate length_app /=. lia. }
  { iExists NULL, NULL. iFrame. by iApply nodes_nil. }
  destruct (spec_lops pr _ []) as [[zs rs] es] eqn:E. simpl in H1. subst zs. iIntros "Hl". simpl.
  iApply fails_after. iApply (wp_dequeue_last with "Hl Hpp"); [done|].
  iIntros (tl (Ht1 & Ht2 & Ht3)) "Hp Hpp". iApply fails_bind. iApply fails_bind.
  iApply (fails_peek_tail with "Hp Hpp"); done.
Qed.
End misuse.
