(* ===== verification/LListConc.v ===== *)
(** * LListConc: one linked list used by several threads

    Each thread makes a sequence of calls on a shared list.  The allocation of a new node
    is private.  A critical section is two moves: a thread that finds the mutex free takes it
    and sets the pointers, and later sets the count and gives the mutex back; the other
    threads move in between, unless they wait for the mutex.  [llist_peek],
    [llist_size], [is_llist_empty] and the test of [llist_remove_front] do not take it:
    they see the pointers of a section before its count.  Each of these moves writes
    at most one of the two fields that they read, and writes it once. *)

From iris.proofmode Require Import environments proofmode.
From stdpp Require Import gmap strings relations.
From S2P Require Import Prelude HProp Mem Chain History LListCode LListOps.

Open Scope Z_scope.

(** ** Calls and threads *)

(** [CRemove]: [llist_remove_front], [llist_pop] or [llist_dequeue]. *)
Inductive call :=
  | CInsertFront (d : ptr) | CPush (d : ptr) | CInsertBack (d : ptr) | CEnqueue (d : ptr)
  | CRemove | CSize | CIsEmpty | CPeek.

#[export] Instance call_eq_dec : EqDecision call.
Proof. solve_decision. Defined.

Definition call_arg (c : call) : option ptr :=
  match c with
  | CInsertFront d | CPush d | CInsertBack d | CEnqueue d => Some d
  | _ => None
  end.

(** What became of a call: [EDropped], an insertion without effect; [EResult], what an
    observer returned. *)
Inductive effect := EDropped | ELinked | ERemoved (d : ptr) | EEmpty | EResult (z : Z).

#[export] Instance effect_eq_dec : EqDecision effect.
Proof. solve_decision. Defined.

Inductive pc :=
  | Idle                         (* between two calls *)
  | Linking (c : call) (n : ptr) (* at the lock, with its new node *)
  | Counting (c : call)          (* holds the mutex, the node is linked *)
  | Unlinking                    (* at the lock of a removal *)
  | Discounting (temp : ptr)     (* holds the mutex, the node is unlinked *)
  | Freeing (temp : ptr)         (* after the unlock of a removal *)
  | Peeking                      (* in llist_peek, the list was not empty *)
  | Reading (hd : ptr).          (* in llist_peek, to read the data *)

Record lthread := LThread { todo : list call; at_ : pc; log : list (call * effect) }.

Record cst := CSt { store_ : state lcell; threads : list lthread }.

Inductive coutcome := CBlocked | CCrash (e : error) | CNext (s : cst).

(** ** The sections of a call *)

Definition new_node_of (c : call) (d : ptr) : lprog ptr :=
  match c with
  | CPush _ | CEnqueue _ => create_node d
  | _ => new_node ← calloc_struct zero_lnode;
         if new_node =? NULL then mret new_node else set (set_data d) new_node;; mret new_node
  end.

Definition attach_of (c : call) (l n : ptr) : lprog () :=
  match c with
  | CInsertFront _ | CPush _ => attach_front l n
  | CInsertBack _ => attach_back l n
  | CEnqueue _ => attach_tail l n
  | _ => mret ()
  end.

Definition free_node (temp : ptr) : lprog ptr := d ← get data temp; free temp;; mret d.

(** Run in sequence the sections are the functions of linked_list_lib.c. *)
Lemma sections_of_calls l d :
  l ≠ NULL → d ≠ NULL →
  let insertion (c : call) : lprog () :=
    n ← new_node_of c d;
    if n =? NULL then mret () else lock l;; attach_of c l n;; count_incr l;; unlock l in
  (∀ s, llist_push l d s = insertion (CPush d) s) ∧
  (∀ s, llist_enqueue l d s = insertion (CEnqueue d) s) ∧
  (∀ s, llist_insert_front l d s = insertion (CInsertFront d) s) ∧
  (∀ s, llist_insert_back l d s = insertion (CInsertBack d) s) ∧
  (∀ s, llist_remove_front l s =
        (e ← is_llist_empty l;
         if negb (e =? 0) then mret NULL else
         temp ← (lock l;; detach_front l); (count_decr l;; unlock l);; free_node temp) s) ∧
  (∀ s, llist_peek l s =
        (hd ← get head l;
         if hd =? NULL then mret NULL else hd ← get head l; get data hd) s).
Proof.
  intros Hl Hd insertion. unfold insertion, llist_push, llist_enqueue, llist_insert_front,
    llist_insert_back, llist_remove_front, llist_peek, new_node_of, attach_of, unlink_front.
  rw (eqb_null_false _ Hl) (eqb_null_false _ Hd) /=. split_and!; try done.
  1, 2: intros s; unfold mbind, M_bind; destruct (calloc_struct zero_lnode s) as [n s'|]; [|done].
  1, 2: destruct (n =? NULL) eqn:E; [by unfold mret, M_ret; rw E|].
  1, 2: destruct (set (set_data d) n s') as [[] s''|]; [|done]; unfold mret, M_ret; by rw E.
  intros s. unfold mbind, M_bind. destruct (is_llist_empty l s) as [e s1|]; [|done].
  destruct (negb (e =? 0)); [done|]. destruct (lock l s1) as [[] s2|]; [|done].
  destruct (detach_front l s2) as [temp s3|]; [|done]. destruct (count_decr l s3) as [[] s4|]; [|done].
  by destruct (unlock l s4) as [[] s5|].
Qed.

(** ** Moves *)

(** Thread [i] runs a section and goes on as [k] says. *)
Definition run_section {A} (i : nat) (c : lprog A) (k : A → lthread) (s : cst) : coutcome :=
  match c (store_ s) with
  | Ok a st => CNext (CSt st (<[i := k a]> (threads s)))
  | Err e => CCrash e
  end.

(** The mutex of the list is taken. *)
Definition mutex_taken (l : ptr) (s : state lcell) : bool :=
  match get mlock l s with Ok MutexHeld _ => true | _ => false end.

Definition run_locked {A} (l : ptr) (i : nat) (c : lprog A) (k : A → lthread) (s : cst) : coutcome :=
  if mutex_taken l (store_ s) then CBlocked else run_section i (lock l;; c) k s.

Definition finish (t : lthread) (c : call) (e : effect) : lthread :=
  LThread (todo t) Idle (log t ++ [(c, e)]).
Definition goto (t : lthread) (a : pc) : lthread := LThread (todo t) a (log t).

(** Thread [i] starts the call [c]; [t] has the calls that follow. *)
Definition start_call (l : ptr) (i : nat) (c : call) (t : lthread) (s : cst) : coutcome :=
  match c with
  | CInsertFront d | CPush d | CInsertBack d | CEnqueue d =>
      if d =? NULL then run_section i (mret ()) (λ _, finish t c EDropped) s
      else run_section i (new_node_of c d) (λ n,
             if n =? NULL then finish t c EDropped else goto t (Linking c n)) s
  | CRemove => run_section i (is_llist_empty l) (λ e,
                 if negb (e =? 0) then finish t c EEmpty else goto t Unlinking) s
  | CSize => run_section i (llist_size l) (λ n, finish t c (EResult n)) s
  | CIsEmpty => run_section i (is_llist_empty l) (λ e, finish t c (EResult e)) s
  | CPeek => run_section i (get head l) (λ hd,
               if hd =? NULL then finish t c (EResult NULL) else goto t Peeking) s
  end.

Definition exec_thread (l : ptr) (i : nat) (s : cst) : coutcome :=
  match threads s !! i with
  | None => CBlocked
  | Some t =>
    match at_ t with
    | Idle => match todo t with
              | [] => CBlocked
              | c :: cs => start_call l i c (LThread cs Idle (log t)) s
              end
    | Linking c n => run_locked l i (attach_of c l n) (λ _, goto t (Counting c)) s
    | Counting c => run_section i (count_incr l;; unlock l) (λ _, finish t c ELinked) s
    | Unlinking => run_locked l i (detach_front l) (λ temp, goto t (Discounting temp)) s
    | Discounting temp => run_section i (count_decr l;; unlock l) (λ _, goto t (Freeing temp)) s
    | Freeing temp => run_section i (free_node temp) (λ d, finish t CRemove (ERemoved d)) s
    | Peeking => run_section i (get head l) (λ hd, goto t (Reading hd)) s
    | Reading hd => run_section i (get data hd) (λ d, finish t CPeek (EResult d)) s
    end
  end.

(** A schedule; a thread that cannot move is skipped. *)
Fixpoint exec_schedule (l : ptr) (sched : list nat) (s : cst) : coutcome :=
  match sched with
  | [] => CNext s
  | i :: sched => match exec_thread l i s with
               | CNext s => exec_schedule l sched s
               | CBlocked => exec_schedule l sched s
               | CCrash e => CCrash e
               end
  end.

Definition cinit (m : gmap Z lcell) (w : world) (progs : list (list call)) : cst :=
  CSt (State m w) ((λ cs, LThread cs Idle []) <$> progs).

(** The thread is between its lock and its unlock. *)
Definition holding (a : pc) : bool :=
  match a with Counting _ | Discounting _ => true | _ => false end.

(** Each call takes at most four moves. *)
Definition lrank (t : lthread) : nat :=
  4 * length (todo t) +
  match at_ t with
  | Idle => 0
  | Counting _ | Freeing _ | Reading _ => 1
  | Linking _ _ | Discounting _ | Peeking => 2
  | Unlinking => 3
  end.
Definition lmeasure (s : cst) : nat := sum_list_with lrank (threads s).

(** ** The sequential reference *)

(** What an observer returns. *)
Definition observe (c : call) (xs : list ptr) : option Z :=
  match c with
  | CSize => Some (len xs)
  | CIsEmpty => Some (if bool_decide (xs = []) then 1 else 0)
  | CPeek => Some (default NULL (List.hd_error xs))
  | _ => None
  end.

(** The effect of one call on the contents; [None]: it cannot have this effect. *)
Definition replay1 (c : call) (e : effect) (xs : list ptr) : option (list ptr) :=
  match e with
  | EDropped => match call_arg c with Some _ => Some xs | None => None end
  | ELinked => match c with
               | CInsertFront d | CPush d => Some (d :: xs)
               | CInsertBack d | CEnqueue d => Some (xs ++ [d])
               | _ => None
               end
  | ERemoved d => match c, xs with
                  | CRemove, x :: xs => if x =? d then Some xs else None
                  | _, _ => None
                  end
  | EEmpty => match c, xs with CRemove, [] => Some [] | _, _ => None end
  | EResult z => if bool_decide (observe c xs = Some z) then Some xs else None
  end.

(** A history: who made which call with which effect. *)
Definition hist := list (nat * (call * effect)).

Fixpoint replay (h : hist) (xs : list ptr) : option (list ptr) :=
  match h with
  | [] => Some xs
  | (_, (c, e)) :: h => replay1 c e xs ≫= replay h
  end.

Lemma replay_app h h' xs : replay (h ++ h') xs = replay h xs ≫= replay h'.
Proof.
  revert xs. induction h as [|[j [c e]] h IH]; intros xs; [done|]. simpl.
  destruct (replay1 c e xs); [apply IH|done].
Qed.
