(* ===== verification/LListConcInv.v ===== *)
(** * LListConcInv: the shared list with one consumer

    However the threads interleave, at most one of them holds the mutex, the count is
    that of the contents which the calls leave when they are made one after the other, in
    the order in which they set the count, and the chain of nodes is ahead of it
    by the section that is under way.  Every thread owns the node it is about to link or
    to free.  One thread at most may remove elements: it tests the count before it takes the
    mutex, and only a removal could make the answer wrong in between. *)

From iris.proofmode Require Import environments proofmode.
From stdpp Require Import gmap strings relations.
From S2P Require Import Prelude HProp Mem Chain History LListCode LListOps LListConc.

Open Scope Z_scope.

Definition lock_state (holder : option nat) : mutex :=
  match holder with Some _ => MutexHeld | None => MutexFree end.

Section inv.
Context (pr fr l : ptr) (queue : bool) (consumer : nat) (progs : list (list call)).
Context (Hl : l ≠ NULL).

(** List use: insertions at both ends; queue use: at the tail.  A look at the first element is
    not supported. *)
Definition supported (c : call) : bool :=
  match c with
  | CInsertFront _ | CPush _ | CInsertBack _ => negb queue
  | CEnqueue _ => queue
  | CRemove | CSize | CIsEmpty => true
  | CPeek => false
  end.

Definition current (a : pc) : list call :=
  match a with
  | Idle => []
  | Linking c _ | Counting c => [c]
  | Unlinking | Discounting _ | Freeing _ => [CRemove]
  | Peeking | Reading _ => [CPeek]
  end.

(** The calls that thread [t] has not finished. *)
Definition unfinished (t : lthread) : list call := current (at_ t) ++ todo t.

(** What the invariant speaks of besides the state: the history, the contents that it
    leaves, the contents of the chain, the element of the consumer, the owner of the mutex. *)
Record ghost := Ghost {
  g_hist : hist; counted : list ptr; linked : list ptr; held : ptr; holder : option nat
}.
Implicit Types (g : ghost).

(** The call that has had its effect and has not returned. *)
Definition pending g (t : lthread) : list (call * effect) :=
  match at_ t with Freeing _ => [(CRemove, ERemoved (held g))] | _ => [] end.

(** The node in the hands of a thread. *)
Definition private g (t : lthread) : hPropI lcell :=
  (match at_ t with
   | Linking c n => match call_arg c with
                    | Some x => n ↦ as_cell (LNode x NULL)
                    | None => False
                    end
   | Discounting temp | Freeing temp => ∃ nx, temp ↦ as_cell (LNode (held g) nx)
   | _ => emp
   end)%I.

(** How far the chain is ahead of the count, when the thread holds the mutex. *)
Definition ahead g (a : pc) : Prop :=
  match a with
  | Counting c => replay1 c ELinked (counted g) = Some (linked g)
  | Discounting _ => counted g = held g :: linked g
  | _ => True
  end.

(** What concerns one thread. *)
Record thread_ok g (i : nat) (t : lthread) : Prop := {
  ok_program : progs !! i = Some (map fst (log t) ++ unfinished t);
  ok_supported : forallb supported (unfinished t) = true;
  ok_consumer : i ≠ consumer → CRemove ∉ unfinished t;
  ok_history : calls_of i (g_hist g) = log t ++ pending g t;
  ok_nonempty : at_ t = Unlinking → counted g ≠ [];
  ok_holder : holding (at_ t) = bool_decide (holder g = Some i);
  ok_ahead : ahead g (at_ t)
}.

Definition room (ts : list lthread) : Z :=
  Z.of_nat (sum_list_with (λ t, length (unfinished t)) ts).

Definition list_of g : hPropI lcell :=
  list_mid pr fr queue l (lock_state (holder g)) (len (counted g)) (linked g).

Record inv (s : cst) g : Prop := {
  inv_replay : replay (g_hist g) [] = Some (counted g);
  inv_still : holder g = None → linked g = counted g;
  inv_threads : ∀ i t, threads s !! i = Some t → thread_ok g i t;
  inv_foreign : ∀ i, threads s !! i = None → calls_of i (g_hist g) = [] ∧ holder g ≠ Some i;
  inv_room : len (counted g) + room (threads s) < 2 ^ 64;
  inv_heap : holds (list_of g ∗ [∗ list] t ∈ threads s, private g t)%I (memory (store_ s))
}.

(** ** Replacing one thread *)

Lemma room_insert ts i t t' : ts !! i = Some t →
  room (<[i := t']> ts) + Z.of_nat (length (unfinished t)) =
  room ts + Z.of_nat (length (unfinished t')).
Proof.
  intros H. pose proof (sum_list_with_insert (λ t, length (unfinished t)) ts i t t' H). unfold room. lia.
Qed.

(** The thread that moves takes its node and leaves a new one. *)
Lemma private_acc g ts i t : ts !! i = Some t →
  ([∗ list] u ∈ ts, private g u) ⊢
  private g t ∗ ∀ g' t',
    ⌜∀ j u, j ≠ i → ts !! j = Some u → private g' u = private g u⌝ →
    private g' t' -∗ [∗ list] u ∈ <[i := t']> ts, private g' u.
Proof.
  intros Ht. assert (i < length ts)%nat as Hi by by eapply lookup_lt_Some.
  rw -{1}(take_drop_middle ts i t Ht) big_sepL_app big_sepL_cons.
  iIntros "(H1 & $ & H2)". iIntros (g' t' Hsame) "Ht". rw insert_take_drop; [|done].
  rw big_sepL_app big_sepL_cons. iFrame "Ht". iSplitL "H1".
  - iApply (big_sepL_mono with "H1"). intros j u Hj%lookup_take_Some.
    rw (Hsame j u); [done|lia|by destruct Hj].
  - iApply (big_sepL_mono with "H2"). intros j u Hj. rw lookup_drop in Hj.
    rw (Hsame (S i + j)%nat u); [done|lia|done].
Qed.

(** Only the consumer removes. *)
Lemma remover g i t : thread_ok g i t → CRemove ∈ unfinished t → i = consumer.
Proof.
  intros Hok Hin. destruct (decide (i = consumer)); [done|]. by destruct (ok_consumer _ _ _ Hok).
Qed.

(** A thread that may not remove is never in a removal. *)
Lemma not_removing g i t : thread_ok g i t → i ≠ consumer → CRemove ∉ current (at_ t).
Proof.
  intros Hok Hi Hin. apply Hi, (remover g i t Hok). unfold unfinished. set_solver.
Qed.

(** What a section must achieve: what is known after it, and the thread that made it. *)
Record step_ok (i : nat) (t : lthread) g g' (t' : lthread) : Prop := {
  step_replay : replay (g_hist g') [] = Some (counted g');
  step_still : holder g' = None → linked g' = counted g';
  step_others : ∀ j, j ≠ i → calls_of j (g_hist g') = calls_of j (g_hist g) ∧
    bool_decide (holder g' = Some j) = bool_decide (holder g = Some j) ∧
    (holder g = Some j → counted g' = counted g ∧ linked g' = linked g);
  step_remove : i = consumer ∨ (held g' = held g ∧ (counted g ≠ [] → counted g' ≠ []));
  step_thread : thread_ok g' i t';
  step_room : len (counted g') + Z.of_nat (length (unfinished t')) ≤
              len (counted g) + Z.of_nat (length (unfinished t))
}.

(** The move keeps what concerns the other threads. *)
Lemma others_ok s i t g g' t' j u :
  (∀ j u, threads s !! j = Some u → thread_ok g j u) →
  step_ok i t g g' t' → j ≠ i → threads s !! j = Some u →
  thread_ok g' j u ∧ private g' u = private g u.
Proof.
  intros Hold Hs Hne Hu. pose proof (Hold j u Hu) as Hok.
  destruct (step_others _ _ _ _ _ Hs j Hne) as (Hh & Hm & Hq).
  assert (ahead g (at_ u) → holding (at_ u) = true → held g' = held g ∨ CRemove ∉ current (at_ u) →
    ahead g' (at_ u)) as Hah.
  { intros Ha Hb Hd. destruct Hq as [Hc Hk].
    { apply (bool_decide_eq_true_1 (holder g = Some j)). by rw -(ok_holder _ _ _ Hok). }
    destruct (at_ u); try done; simpl in *; rw Hc Hk; [done|].
    destruct Hd as [->|Hd]; [done|]. by destruct Hd; left. }
  assert (held g' = held g ∨ CRemove ∉ current (at_ u)) as Hd.
  { destruct (decide (j = consumer)) as [->|Hj]; [|right; by eapply not_removing].
    left. by destruct (step_remove _ _ _ _ _ Hs) as [->|[? _]]. }
  destruct Hok as [H1 H2 H3 H4 H5 H6 H7]. split; [split|].
  - done.
  - done.
  - done.
  - rw Hh H4. unfold pending. destruct (at_ u); try done.
    destruct Hd as [->|Hd]; [done|]. by destruct Hd; left.
  - intros Ha. destruct (step_remove _ _ _ _ _ Hs) as [->|[_ Hr]]; [|auto].
    destruct Hd as [_|Hd]; [|rw Ha in Hd; by destruct Hd; left].
    exfalso. apply Hne, (remover g j u); [by split|]. unfold unfinished. rw Ha. by left.
  - by rw Hm.
  - destruct (holding (at_ u)) eqn:E; [by apply Hah|]. by destruct (at_ u).
  - unfold private. destruct (at_ u); try done;
      (destruct Hd as [->|Hd]; [done|by destruct Hd; left]).
Qed.

Lemma section_keeps {A} i t (c : lprog A) (k : A → lthread) s g :
  inv s g → threads s !! i = Some t →
  (list_of g ∗ private g t ⊢
     wp c (wld (store_ s)) (λ a _, ∃ g', ⟪step_ok i t g g' (k a)⟫ ∗ list_of g' ∗ private g' (k a))) →
  ∃ s' g', run_section i c k s = CNext s' ∧ inv s' g'.
Proof.
  intros [Hrep Hst Hth Hfor Hroom Hheap] Ht Hwp.
  set (Q := λ (a : A) (_ : world), (∃ g', ⟪step_ok i t g g' (k a)⟫ ∗
    list_of g' ∗ [∗ list] u ∈ <[i := k a]> (threads s), private g' u)%I).
  destruct (wp_runs c _ (store_ s) Q Hheap) as (a & m' & w' & Hrun & HQ).
  { rw (private_acc g (threads s) i t Ht). iIntros "(Hl & Ht & Hts)".
    iDestruct (Hwp with "[$Hl $Ht]") as "Hc". iApply (wp_wand with "Hc").
    iIntros (a w') "(%g' & %Hs & Hl & Ht)". iExists g'. iFrame "Hl".
    iSplitR; [done|]. iApply ("Hts" with "[%] Ht"). intros j u Hj Hu.
    eapply (others_ok s i t g g'); eauto. }
  apply holds_exist in HQ as (g' & HQ).
  apply holds_sep in HQ as (m1 & m2 & -> & _ & [-> Hs]%holds_affine & HQ).
  exists (CSt (State m2 w') (<[i := k a]> (threads s))), g'. split.
  { unfold run_section. rw Hrun. by rw left_id_L. }
  pose proof Hs as [Hrep' Hst' Hoth _ Hnew Hsize]. split; simpl; [done..| | | |done].
  - intros j u [(<- & <- & _)|[Hne Hu]]%list_lookup_insert_Some; [done|].
    apply (others_ok s i t g g' (k a) j u Hth Hs); [congruence|done].
  - intros j Hj. destruct (decide (j = i)) as [->|Hne].
    + rw list_lookup_insert_eq in Hj; [done|by eapply lookup_lt_Some].
    + rw list_lookup_insert_ne in Hj; [|done]. destruct (Hoth j Hne) as (Hc & Hh & _).
      destruct (Hfor j Hj) as [Hc' Hh']. rw (bool_decide_eq_false_2 (holder g = Some j)) // in Hh.
      apply bool_decide_eq_false in Hh. by rw Hc.
  - pose proof (room_insert (threads s) i t (k a) Ht). lia.
Qed.

(** ** The kinds of moves *)

(** The history grows by a call with effect [e]. *)
Lemma history_grows i c e h xs xs' : replay h [] = Some xs → replay1 c e xs = Some xs' →
  replay (h ++ [(i, (c, e))]) [] = Some xs' ∧
  (∀ j, j ≠ i → calls_of j (h ++ [(i, (c, e))]) = calls_of j h).
Proof.
  intros Hr H1. split.
  - rw replay_app Hr /= H1. done.
  - intros j Hj. by rw calls_of_app (calls_of_other i j) // app_nil_r.
Qed.

(** The other threads see no change, or none of them holds the mutex. *)
Lemma others_quiet i g g' :
  (∀ j, j ≠ i → calls_of j (g_hist g') = calls_of j (g_hist g)) →
  (holder g' = holder g ∧ counted g' = counted g ∧ linked g' = linked g) ∨
  ((holder g = None ∨ holder g = Some i) ∧ (holder g' = None ∨ holder g' = Some i)) →
  ∀ j, j ≠ i → calls_of j (g_hist g') = calls_of j (g_hist g) ∧
    bool_decide (holder g' = Some j) = bool_decide (holder g = Some j) ∧
    (holder g = Some j → counted g' = counted g ∧ linked g' = linked g).
Proof.
  intros Hh Hq j Hj. split; [auto|]. destruct Hq as [(-> & -> & ->)|[Ho Ho']]; [done|].
  rw !bool_decide_eq_false_2; [split; [done|]|..]; destruct Ho, Ho'; congruence.
Qed.

(** The thread has its call done, with an effect that leaves the contents as they are. *)
Lemma step_finish i t cs c e g :
  thread_ok g i t → replay (g_hist g) [] = Some (counted g) →
  (holder g = None → linked g = counted g) →
  unfinished t = c :: cs → pending g t = [] → holding (at_ t) = false →
  replay1 c e (counted g) = Some (counted g) →
  step_ok i t g (Ghost (g_hist g ++ [(i, (c, e))]) (counted g) (linked g) (held g) (holder g))
    (finish (LThread cs Idle (log t)) c e).
Proof.
  intros [H1 H2 H3 H4 H5 H6 H7] Hr Hs Hu Hp Hh He. rw Hu in H1. rw Hu in H2. rw Hu in H3. rw Hp in H4.
  rw Hh in H6. destruct (history_grows i c e _ _ _ Hr He) as [Hr' Ho]. split; [done|done|apply others_quiet; [done|by left]|by right| |].
  - split; unfold unfinished, pending; simpl in *; try done.
    + by rw map_app /= -app_assoc.
    + by apply andb_true_iff in H2 as [_ ?].
    + intros Hi. specialize (H3 Hi). set_solver.
    + rw calls_of_app calls_of_one H4. by rw !app_nil_r.
  - rw Hu. unfold unfinished. simpl. lia.
Qed.

(** The thread goes on with its call. *)
Lemma step_goto i t cs c a g :
  thread_ok g i t → replay (g_hist g) [] = Some (counted g) →
  (holder g = None → linked g = counted g) →
  unfinished t = c :: cs → pending g t = [] → holding (at_ t) = false →
  current a = [c] → (∀ temp, a ≠ Freeing temp) → holding a = false →
  (a = Unlinking → counted g ≠ []) →
  step_ok i t g g (goto (LThread cs Idle (log t)) a).
Proof.
  intros [H1 H2 H3 H4 H5 H6 H7] Hr Hs Hu Hp Hh Hc Ha Hha Hxs.
  assert (unfinished (goto (LThread cs Idle (log t)) a) = unfinished t) as E.
  { rw Hu. unfold unfinished. simpl. by rw Hc. }
  split; [done|done|apply others_quiet; [done|by left]|by right| |rw E; lia].
  split; rw ?E; try done; simpl.
  - rw H4 Hp. unfold pending. simpl. destruct a; try done. by destruct (Ha temp).
  - by rw Hha -H6 Hh.
  - by destruct a.
Qed.

(** The new node is linked, and not counted yet. *)
Lemma step_attach i t c n xs g :
  thread_ok g i t → replay (g_hist g) [] = Some (counted g) → at_ t = Linking c n →
  holder g = None → replay1 c ELinked (counted g) = Some xs →
  step_ok i t g (Ghost (g_hist g) (counted g) xs (held g) (Some i)) (goto t (Counting c)).
Proof.
  intros [H1 H2 H3 H4 H5 H6 H7] Hr Ha Hn Hxs. unfold unfinished, pending in *. rw Ha in H1 H2 H3 H4.
  split; [done|done|apply others_quiet; [done|right; by auto]|by right| |].
  - split; unfold unfinished, pending; simpl in *; try done. by rw bool_decide_eq_true_2.
  - unfold unfinished. rw Ha /=. simpl. lia.
Qed.

Lemma linked_len c xs xs' : replay1 c ELinked xs = Some xs' → len xs' = len xs + 1 ∧ xs' ≠ [].
Proof.
  destruct c; simpl; intros [= <-]; rw ?len_cons ?len_snoc; (split; [done|]); by destruct xs.
Qed.

(** The insertion has its effect. *)
Lemma step_count i t c g :
  thread_ok g i t → replay (g_hist g) [] = Some (counted g) → at_ t = Counting c →
  step_ok i t g (Ghost (g_hist g ++ [(i, (c, ELinked))]) (linked g) (linked g) (held g) None)
    (finish t c ELinked).
Proof.
  intros [H1 H2 H3 H4 H5 H6 H7] Hr Ha. unfold unfinished, pending in *. rw Ha in H1 H2 H3 H4 H6 H7.
  symmetry in H6. apply bool_decide_eq_true in H6. simpl in H7.
  destruct (history_grows i c ELinked _ _ _ Hr H7) as [Hr' Ho].
  destruct (linked_len _ _ _ H7) as [Hlen Hne]. split; [done|done|apply others_quiet; [done|right; by auto]|by right| |].
  - split; unfold unfinished, pending; simpl in *; try done.
    + by rw map_app /= -app_assoc.
    + by apply andb_true_iff in H2 as [_ ?].
    + intros Hi. specialize (H3 Hi). set_solver.
    + rw calls_of_app calls_of_one H4. by rw !app_nil_r.
  - unfold unfinished. rw Ha /=. simpl. lia.
Qed.

(** The first node is unlinked, and still counted. *)
Lemma step_detach i t temp x xs g :
  thread_ok g i t → replay (g_hist g) [] = Some (counted g) → at_ t = Unlinking →
  holder g = None → counted g = x :: xs →
  step_ok i t g (Ghost (g_hist g) (counted g) xs x (Some i)) (goto t (Discounting temp)).
Proof.
  intros Hok Hr Ha Hn Hxs.
  assert (i = consumer) as Hi.
  { apply (remover g i t); [done|]. unfold unfinished. rw Ha. by left. }
  destruct Hok as [H1 H2 H3 H4 H5 H6 H7]. unfold unfinished, pending in *. rw Ha in H1 H2 H3 H4.
  split; [done|done|apply others_quiet; [done|right; by auto]|by left| |].
  - split; unfold unfinished, pending; simpl in *; try done. by rw bool_decide_eq_true_2.
  - unfold unfinished. rw Ha /=. simpl. lia.
Qed.

(** The removal has its effect, the node is not freed yet. *)
Lemma step_discount i t temp g :
  thread_ok g i t → replay (g_hist g) [] = Some (counted g) → at_ t = Discounting temp →
  step_ok i t g
    (Ghost (g_hist g ++ [(i, (CRemove, ERemoved (held g)))]) (linked g) (linked g) (held g) None)
    (goto t (Freeing temp)).
Proof.
  intros Hok Hr Ha.
  assert (i = consumer) as Hi.
  { apply (remover g i t); [done|]. unfold unfinished. rw Ha. by left. }
  destruct Hok as [H1 H2 H3 H4 H5 H6 H7]. unfold unfinished, pending in *. rw Ha in H1 H2 H3 H4 H6 H7.
  symmetry in H6. apply bool_decide_eq_true in H6. simpl in H7.
  destruct (history_grows i CRemove (ERemoved (held g)) _ _ (linked g) Hr) as [Hr' Ho].
  { rw H7 /=. by rw Z.eqb_refl. }
  split; [done|done|apply others_quiet; [done|right; by auto]|by left| |].
  - split; unfold unfinished, pending; simpl in *; try done.
    rw calls_of_app calls_of_one H4. by rw app_nil_r.
  - unfold unfinished. rw Ha H7 len_cons /=. simpl. lia.
Qed.

Lemma step_free i t temp g :
  thread_ok g i t → replay (g_hist g) [] = Some (counted g) →
  (holder g = None → linked g = counted g) → at_ t = Freeing temp →
  step_ok i t g g (finish t CRemove (ERemoved (held g))).
Proof.
  intros [H1 H2 H3 H4 H5 H6 H7] Hr Hs Ha. unfold unfinished, pending in *. rw Ha in H1 H2 H3 H4 H6.
  split; [done|done|apply others_quiet; [done|by left]|by right| |].
  - split; unfold unfinished, pending; simpl in *; try done.
    + by rw map_app /= -app_assoc.
    + intros Hi. specialize (H3 Hi). set_solver.
    + by rw app_nil_r.
  - unfold unfinished. rw Ha /=. simpl. lia.
Qed.

(** ** The sections *)

Lemma wp_new_node_of c d w (Q : ptr → world → hPropI lcell) :
  d ≠ NULL →
  (∀ n, ⌜n ≠ NULL⌝ → n ↦ as_cell (LNode d NULL) -∗ Q n (calloc_world w)) ∧ Q NULL (calloc_world w) ⊢
  wp (new_node_of c d) w Q.
Proof.
  iIntros (Hd) "HQ". unfold new_node_of.
  iAssert (if calloc_ok w
    then ∀ n, ⌜n ≠ NULL⌝ → n ↦ as_cell (LNode d NULL) -∗ Q n (calloc_world w)
    else Q NULL (calloc_world w))%I with "[HQ]" as "HQ".
  { destruct (calloc_ok w); [by iDestruct "HQ" as "[$ _]"|by iDestruct "HQ" as "[_ $]"]. }
  destruct c; try (by iApply wp_create_node).
  all: wp_focus; iApply wp_calloc_struct; destruct (calloc_ok w); [|rw /=; by wp_return].
  all: iIntros (n) "Hn"; not_null "Hn"; wp_write "Hn"; wp_return; by iApply "HQ".
Qed.

Lemma wp_attach_of c d n mx k xs w (Q : () → world → hPropI lcell) :
  supported c = true → call_arg c = Some d →
  list_mid pr fr queue l mx k xs -∗ n ↦ as_cell (LNode d NULL) -∗
  (∀ xs', ⌜replay1 c ELinked xs = Some xs'⌝ → list_mid pr fr queue l mx k xs' -∗ Q () w) -∗
  wp (attach_of c l n) w Q.
Proof.
  iIntros (Hs Ha) "Hl Hn HQ". unfold supported in Hs.
  destruct queue, c as [x|x|x|x| | | |]; try discriminate Hs; try discriminate Ha; injection Ha as ->.
  - iApply (wp_attach_tail with "Hl Hn"). by iApply "HQ".
  - iApply (wp_attach_front with "Hl Hn"); [done|]. by iApply "HQ".
  - iApply (wp_attach_front with "Hl Hn"); [done|]. by iApply "HQ".
  - iApply (wp_attach_back with "Hl Hn"). by iApply "HQ".
Qed.

(** The observers that take no mutex read the count. *)
Lemma wp_mid_is_empty b mx xs ys w (Q : Z → world → hPropI lcell) :
  list_mid pr fr b l mx (len xs) ys -∗
  (list_mid pr fr b l mx (len xs) ys -∗ Q (if bool_decide (xs = []) then 1 else 0) w) -∗
  wp (is_llist_empty l) w Q.
Proof.
  iIntros "(%hd & %tl & Hp & Hc) HQ". iApply (wp_is_llist_empty with "Hp"); [done|].
  iIntros "Hp". simpl. assert ((0 <? len xs) = negb (bool_decide (xs = []))) as ->.
  { unfold len. destruct xs; [done|]. simpl. by apply Z.ltb_lt. }
  iSpecialize ("HQ" with "[Hp Hc]"); [iExists hd, tl; iFrame|]. by case_bool_decide.
Qed.

Lemma wp_mid_size b mx xs ys w (Q : Z → world → hPropI lcell) :
  list_mid pr fr b l mx (len xs) ys -∗
  (list_mid pr fr b l mx (len xs) ys -∗ Q (len xs) w) -∗ wp (llist_size l) w Q.
Proof.
  iIntros "(%hd & %tl & Hp & Hc) HQ". unfold llist_size. rw (eqb_null_false _ Hl).
  iApply (wp_get with "Hp"). iIntros "Hp". iApply "HQ". iExists hd, tl. iFrame.
Qed.

Lemma inv_len s g i t : inv s g → threads s !! i = Some t →
  len (counted g) + Z.of_nat (length (unfinished t)) < 2 ^ 64.
Proof.
  intros I Ht. pose proof (inv_room _ _ I).
  pose proof (sum_list_with_lookup (λ t, length (unfinished t)) _ _ _ Ht). unfold room in *. lia.
Qed.

(** The mutex is taken exactly when a thread owns it. *)
Lemma mutex_taken_by s g :
  inv s g → mutex_taken l (store_ s) = bool_decide (is_Some (holder g)).
Proof.
  intros I. pose proof (inv_heap _ _ I) as Hheap.
  destruct (wp_runs (get mlock l) _ (store_ s) (λ mx _, (⟪mx = lock_state (holder g)⟫ ∗ True)%I) Hheap)
    as (mx & m' & w' & Hrun & HQ).
  { iIntros "[(%hd & %tl & Hp & Ht) Hts]". iApply (wp_get with "Hp"). iIntros "_". by iSplit. }
  apply holds_sep in HQ as (m1 & m2 & _ & _ & [_ ->]%holds_affine & _).
  unfold mutex_taken. rw Hrun. by destruct (holder g).
Qed.

(** ** Every move keeps the invariant *)

Definition keeps (o : coutcome) : Prop := ∃ s' g', o = CNext s' ∧ inv s' g'.

(** A call that is over at once. *)
Lemma immediate_keeps {A} (c0 : lprog A) (e : A → effect) s g i c cs lg :
  inv s g → threads s !! i = Some (LThread (c :: cs) Idle lg) →
  (∀ (w : world) (Q : A → world → hPropI lcell),
     list_of g -∗ (∀ a, ⌜replay1 c (e a) (counted g) = Some (counted g)⌝ → list_of g -∗ Q a w) -∗
     wp c0 w Q) →
  keeps (run_section i c0 (λ a, finish (LThread cs Idle lg) c (e a)) s).
Proof.
  intros I Ht Hwp. pose proof (inv_threads _ _ I _ _ Ht) as Hok.
  apply (section_keeps i _ _ _ s g I Ht). iIntros "[Hl _]". iApply (Hwp with "Hl").
  iIntros (a Ha) "Hl". iExists _. iSplitR.
  - iPureIntro. by apply (step_finish i _ cs c (e a) g Hok (inv_replay _ _ I) (inv_still _ _ I)).
  - iFrame.
Qed.

Lemma insertion_keeps s g i cs c x lg :
  inv s g → threads s !! i = Some (LThread (c :: cs) Idle lg) → call_arg c = Some x →
  keeps (if x =? NULL then run_section i (mret ()) (λ _, finish (LThread cs Idle lg) c EDropped) s
         else run_section i (new_node_of c x) (λ n,
           if n =? NULL then finish (LThread cs Idle lg) c EDropped
           else goto (LThread cs Idle lg) (Linking c n)) s).
Proof.
  intros I Ht Hc. pose proof (inv_threads _ _ I _ _ Ht) as Hok.
  assert (replay1 c EDropped (counted g) = Some (counted g)) as Hdrop by by rw /= Hc.
  destruct (x =? NULL) eqn:E; zbool.
  - apply (immediate_keeps _ (λ _, EDropped) s g i c cs lg I Ht).
    iIntros (w Q) "Hl HQ". wp_return. by iApply "HQ".
  - apply (section_keeps i _ _ _ s g I Ht). iIntros "[Hl _]".
    iApply wp_new_node_of; [done|]. iSplit.
    + iIntros (n Hn) "Hn". rw (eqb_null_false _ Hn). iExists g. iFrame "Hl".
      iSplitR; [|unfold private; simpl; by rw Hc]. iPureIntro.
      by apply (step_goto i _ cs c (Linking c n) g Hok (inv_replay _ _ I) (inv_still _ _ I)).
    + rw /=. iExists _. iSplitR; [iPureIntro; by apply (step_finish i _ cs c EDropped g Hok
        (inv_replay _ _ I) (inv_still _ _ I))|iFrame].
Qed.

Lemma removal_keeps s g i cs lg :
  inv s g → threads s !! i = Some (LThread (CRemove :: cs) Idle lg) →
  keeps (run_section i (is_llist_empty l) (λ e,
    if negb (e =? 0) then finish (LThread cs Idle lg) CRemove EEmpty
    else goto (LThread cs Idle lg) Unlinking) s).
Proof.
  intros I Ht. pose proof (inv_threads _ _ I _ _ Ht) as Hok.
  apply (section_keeps i _ _ _ s g I Ht). iIntros "[Hl _]".
  iApply (wp_mid_is_empty with "Hl"). iIntros "Hl". case_bool_decide as Hxs; simpl.
  - iExists _. iSplitR; [iPureIntro|].
    + apply (step_finish i _ cs CRemove EEmpty g Hok (inv_replay _ _ I) (inv_still _ _ I)); try done.
      by rw Hxs.
    + iFrame.
  - iExists g. iFrame. iPureIntro.
    by apply (step_goto i _ cs CRemove Unlinking g Hok (inv_replay _ _ I) (inv_still _ _ I)).
Qed.

Lemma start_call_keeps s g i c cs lg :
  inv s g → threads s !! i = Some (LThread (c :: cs) Idle lg) →
  keeps (start_call l i c (LThread cs Idle lg) s).
Proof.
  intros I Ht. pose proof (ok_supported _ _ _ (inv_threads _ _ I _ _ Ht)) as Hs.
  unfold unfinished in Hs. simpl in Hs. apply andb_true_iff in Hs as [Hs _].
  destruct c as [x|x|x|x| | | |]; simpl; try (by eapply insertion_keeps).
  - by eapply removal_keeps.
  - apply (immediate_keeps _ EResult s g i CSize cs lg I Ht). iIntros (w Q) "Hl HQ".
    iApply (wp_mid_size with "Hl"). iApply "HQ". iPureIntro. simpl. by rw bool_decide_eq_true_2.
  - apply (immediate_keeps _ EResult s g i CIsEmpty cs lg I Ht). iIntros (w Q) "Hl HQ".
    iApply (wp_mid_is_empty with "Hl"). iApply "HQ". iPureIntro. simpl. by rw bool_decide_eq_true_2.
  - done.
Qed.

(** The two halves of an insertion. *)
Lemma attach_keeps s g i cs c n lg :
  inv s g → threads s !! i = Some (LThread cs (Linking c n) lg) → holder g = None →
  keeps (run_section i (lock l;; attach_of c l n)
           (λ _, goto (LThread cs (Linking c n) lg) (Counting c)) s).
Proof.
  intros I Ht Hn. pose proof (inv_threads _ _ I _ _ Ht) as Hok.
  pose proof (ok_supported _ _ _ Hok) as Hs. apply andb_true_iff in Hs as [Hs _].
  apply (section_keeps i _ _ _ s g I Ht). iIntros "[Hl Hn]". unfold private, list_of. simpl.
  destruct (call_arg c) as [x|] eqn:Hc; [|done]. rw Hn (inv_still _ _ I Hn).
  wp_focus. iApply (wp_mid_lock with "Hl"). iIntros "Hl".
  iApply (wp_attach_of with "Hl Hn"); [done..|]. iIntros (xs' Hxs) "Hl".
  iExists _. iSplitR.
  { iPureIntro. by apply (step_attach i _ c n xs' g Hok (inv_replay _ _ I)). }
  iFrame.
Qed.

Lemma count_keeps s g i cs c lg :
  inv s g → threads s !! i = Some (LThread cs (Counting c) lg) →
  keeps (run_section i (count_incr l;; unlock l)
           (λ _, finish (LThread cs (Counting c) lg) c ELinked) s).
Proof.
  intros I Ht. pose proof (inv_threads _ _ I _ _ Ht) as Hok.
  pose proof (inv_len _ _ _ _ I Ht) as Hlen. unfold unfinished in Hlen. simpl in Hlen.
  destruct (linked_len _ _ _ (ok_ahead _ _ _ Hok)) as [Hlen' _].
  pose proof (ok_holder _ _ _ Hok) as Hh. symmetry in Hh. apply bool_decide_eq_true in Hh.
  apply (section_keeps i _ _ _ s g I Ht). iIntros "[Hl _]". unfold list_of. rw Hh.
  wp_focus. iApply (wp_mid_incr with "Hl"); [apply len_nonneg|lia|]. iIntros "Hl".
  iApply (wp_mid_unlock with "Hl"). rw -Hlen'. iIntros "Hl".
  iExists _. iSplitR.
  { iPureIntro. by apply (step_count i _ c g Hok (inv_replay _ _ I)). }
  iFrame.
Qed.

(** The three parts of a removal. *)
Lemma detach_keeps s g i cs lg :
  inv s g → threads s !! i = Some (LThread cs Unlinking lg) → holder g = None →
  keeps (run_section i (lock l;; detach_front l)
           (λ temp, goto (LThread cs Unlinking lg) (Discounting temp)) s).
Proof.
  intros I Ht Hn. pose proof (inv_threads _ _ I _ _ Ht) as Hok.
  destruct (counted g) as [|x xs] eqn:E; [by destruct (ok_nonempty _ _ _ Hok)|].
  apply (section_keeps i _ _ _ s g I Ht). iIntros "[Hl _]". unfold list_of.
  rw Hn (inv_still _ _ I Hn) E.
  wp_focus. iApply (wp_mid_lock with "Hl"). iIntros "Hl".
  iApply (wp_detach_front with "Hl"). iIntros (temp nx) "Hn Hl".
  iExists _. iSplitR.
  - iPureIntro. by apply (step_detach i _ temp x xs g Hok (inv_replay _ _ I)).
  - simpl. rw E. iFrame "Hl". iExists nx. iFrame.
Qed.

Lemma discount_keeps s g i cs temp lg :
  inv s g → threads s !! i = Some (LThread cs (Discounting temp) lg) →
  keeps (run_section i (count_decr l;; unlock l)
           (λ _, goto (LThread cs (Discounting temp) lg) (Freeing temp)) s).
Proof.
  intros I Ht. pose proof (inv_threads _ _ I _ _ Ht) as Hok.
  pose proof (inv_len _ _ _ _ I Ht) as Hlen.
  pose proof (ok_ahead _ _ _ Hok) as Ha. simpl in Ha. rw Ha len_cons in Hlen.
  pose proof (len_nonneg (linked g)).
  pose proof (ok_holder _ _ _ Hok) as Hh. symmetry in Hh. apply bool_decide_eq_true in Hh.
  apply (section_keeps i _ _ _ s g I Ht). iIntros "[Hl Hn]". unfold list_of. rw Hh Ha len_cons.
  wp_focus. iApply (wp_mid_decr with "Hl"); [lia|]. iIntros "Hl".
  iApply (wp_mid_unlock with "Hl"). iIntros "Hl".
  replace (len (linked g) + 1 - 1) with (len (linked g)) by lia.
  iExists _. iSplitR.
  { iPureIntro. by apply (step_discount i _ temp g Hok (inv_replay _ _ I)). }
  iFrame.
Qed.

Lemma free_keeps s g i cs temp lg :
  inv s g → threads s !! i = Some (LThread cs (Freeing temp) lg) →
  keeps (run_section i (free_node temp)
           (λ d, finish (LThread cs (Freeing temp) lg) CRemove (ERemoved d)) s).
Proof.
  intros I Ht. pose proof (inv_threads _ _ I _ _ Ht) as Hok.
  apply (section_keeps i _ _ _ s g I Ht). iIntros "[Hl (%nx & Hn)]". unfold free_node.
  wp_read "Hn". wp_dealloc "Hn". wp_return. iExists g. iFrame. iPureIntro.
  by apply (step_free i _ temp g Hok (inv_replay _ _ I) (inv_still _ _ I)).
Qed.

Lemma exec_thread_keeps s g i :
  inv s g → exec_thread l i s = CBlocked ∨ keeps (exec_thread l i s).
Proof.
  intros I. unfold exec_thread. destruct (threads s !! i) as [[cs a lg]|] eqn:Ht; [|by left].
  pose proof (ok_supported _ _ _ (inv_threads _ _ I _ _ Ht)) as Hs.
  simpl. destruct a as [|c n|c| |temp|temp| |hd]; try done.
  - destruct cs as [|c cs]; [by left|]. right. by eapply start_call_keeps.
  - unfold run_locked. rw (mutex_taken_by _ _ I). case_bool_decide as E; [by left|right].
    apply eq_None_not_Some in E. by eapply attach_keeps.
  - right. by eapply count_keeps.
  - unfold run_locked. rw (mutex_taken_by _ _ I). case_bool_decide as E; [by left|right].
    apply eq_None_not_Some in E. by eapply detach_keeps.
  - right. by eapply discount_keeps.
  - right. by eapply free_keeps.
Qed.

Lemma exec_schedule_keeps sched s g :
  inv s g → keeps (exec_schedule l sched s).
Proof.
  revert s g. induction sched as [|i sched IH]; intros s g I; simpl.
  - by exists s, g.
  - destruct (exec_thread_keeps s g i I) as [->|(s' & g' & -> & I')]; eauto.
Qed.

(** ** Progress *)

Definition lidle (t : lthread) : bool := match at_ t, todo t with Idle, [] => true | _, _ => false end.

(** No deadlock: a thread that has something to do can move, or the owner of the mutex can. *)
Lemma some_call_moves s g i t :
  inv s g → threads s !! i = Some t → lidle t = false → ∃ j s', exec_thread l j s = CNext s'.
Proof.
  intros I Ht Hbusy.
  assert (∀ j, exec_thread l j s ≠ CBlocked → ∃ j s', exec_thread l j s = CNext s') as Hgo.
  { intros j Hj. destruct (exec_thread_keeps s g j I) as [?|(s' & ? & ? & _)]; [done|eauto]. }
  destruct (holder g) as [j|] eqn:Ho.
  - destruct (threads s !! j) as [u|] eqn:Hu; [|by destruct (inv_foreign _ _ I j Hu)].
    apply (Hgo j). pose proof (ok_holder _ _ _ (inv_threads _ _ I _ _ Hu)) as Hh.
    rw Ho bool_decide_eq_true_2 // in Hh. unfold exec_thread, run_section. rw Hu.
    destruct (at_ u); try done; by case_match.
  - apply (Hgo i). unfold exec_thread, run_locked. rw Ht (mutex_taken_by _ _ I) Ho.
    rw bool_decide_eq_false_2; [|by intros []].
    destruct t as [cs [|c n|c| |temp|temp| |hd] lg]; simpl in *; [|unfold run_section; by case_match..].
    destruct cs as [|c cs]; [done|]. destruct c; simpl; unfold run_section; repeat case_match; done.
Qed.

(** Until all threads have finished; then the list is all there is. *)
Lemma threads_move_or_finished s g :
  inv s g →
  (∃ i s', exec_thread l i s = CNext s') ∨
  ((∀ i t, threads s !! i = Some t → unfinished t = [] ∧ calls_of i (g_hist g) = log t) ∧
   holds (llist_at pr fr queue l (counted g)) (memory (store_ s))).
Proof.
  intros I. destruct (decide (Forall (λ t, lidle t = true) (threads s))) as [Hd|Hd].
  - right. rw Forall_lookup in Hd.
    assert (∀ i t, threads s !! i = Some t → at_ t = Idle ∧ todo t = []) as Hidle.
    { intros i [cs a lg] Ht. specialize (Hd i _ Ht). by destruct a, cs. }
    split.
    + intros i t Ht. destruct (Hidle i t Ht) as [Ha Hc]. unfold unfinished. rw Ha Hc.
      split; [done|]. rw (ok_history _ _ _ (inv_threads _ _ I _ _ Ht)). unfold pending.
      by rw Ha app_nil_r.
    + assert (holder g = None) as Hn.
      { destruct (holder g) as [i|] eqn:Ho; [|done].
        destruct (threads s !! i) as [t|] eqn:Ht; [|by destruct (inv_foreign _ _ I i Ht)].
        pose proof (ok_holder _ _ _ (inv_threads _ _ I i t Ht)) as Hh.
        destruct (Hidle i t Ht) as [Ha _]. rw Ha Ho bool_decide_eq_true_2 // in Hh. }
      eapply holds_entails; [|apply (inv_heap _ _ I)]. unfold list_of. rw Hn (inv_still _ _ I Hn) list_mid_free.
      iIntros "[$ Hts]".
      iAssert ([∗ list] _ ∈ threads s, emp)%I with "[Hts]" as "Hts"; [|by rw big_sepL_emp].
      iApply (big_sepL_mono with "Hts"). intros i t Ht. unfold private. by destruct (Hidle i t Ht) as [-> _].
  - left. apply not_Forall_Exists, Exists_exists in Hd as (t & [i Ht]%list_elem_of_lookup & Hn);
      [|apply _]. apply (some_call_moves s g i t I Ht). by apply not_true_is_false.
Qed.
End inv.

(** Every move brings the threads closer to their end. *)
Lemma run_section_decreases {A} i t (c : lprog A) k s s' :
  threads s !! i = Some t → (∀ a, (lrank (k a) < lrank t)%nat) → run_section i c k s = CNext s' →
  (lmeasure s' < lmeasure s)%nat.
Proof.
  unfold run_section. intros Ht Hk H. destruct (c (store_ s)) as [a st|]; [|done]. injection H as <-.
  unfold lmeasure. simpl. pose proof (sum_list_with_insert lrank (threads s) i t (k a) Ht).
  specialize (Hk a). lia.
Qed.

Lemma exec_thread_decreases l i s s' :
  exec_thread l i s = CNext s' → (lmeasure s' < lmeasure s)%nat.
Proof.
  unfold exec_thread, run_locked. destruct (threads s !! i) as [[cs a lg]|] eqn:Ht; [|done]. simpl.
  destruct a as [|c n|c| |temp|temp| |hd]; [destruct cs as [|c cs]; [done|]; destruct c; simpl|..].
  all: repeat case_match; try done; intros Hmove.
  all: eapply run_section_decreases; [exact Ht| |exact Hmove]; intros b; unfold lrank; simpl;
       repeat case_match; simpl; lia.
Qed.
