(* ===== verification/LListConcProps.v ===== *)
(** * LListConcProps: what several threads may and may not do with one list *)

From iris.proofmode Require Import environments proofmode.
From stdpp Require Import gmap strings.
From S2P Require Import Prelude HProp Mem Chain History LListCode LListOps LListConc LListConcInv.

Open Scope Z_scope.

(** The elements that a history inserts and removes, in order. *)
Definition inserted (h : hist) : list ptr :=
  omap (λ '(_, (c, e)), match e with ELinked => call_arg c | _ => None end) h.
Definition removed (h : hist) : list ptr :=
  omap (λ '(_, (_, e)), match e with ERemoved d => Some d | _ => None end) h.

Definition only_enqueues (h : hist) : bool :=
  forallb (λ '(_, (c, _)), supported true c) h.

(** Used as a queue, what comes out is what went in, in the same order. *)
Lemma replay_fifo h xs ys : only_enqueues h = true → replay h xs = Some ys →
  xs ++ inserted h = removed h ++ ys.
Proof.
  revert xs. induction h as [|[i [c e]] h IH]; intros xs Hs H; simpl in *.
  { injection H as ->. by rw app_nil_r. }
  apply andb_true_iff in Hs as [Hc Hs]. unfold inserted, removed in *.
  destruct (replay1 c e xs) as [zs|] eqn:E; simpl in H; [|done]. specialize (IH zs Hs H).
  destruct e as [| |d| |z]; simpl in *.
  - destruct (call_arg c); [|done]. by injection E as ->.
  - destruct c as [x|x|x|x| | | |]; try done; injection E as <-; simpl. by rw -IH -app_assoc.
  - destruct c; try done. destruct xs as [|x xs]; [done|]. destruct (x =? d) eqn:Ex; [|done]. zbool.
    injection E as ->. subst x. simpl. by rw -IH.
  - destruct c; try done. by destruct xs; [injection E as <-|].
  - case_bool_decide; [|done]. by injection E as ->.
Qed.

Section runs.
Context (pr fr l : ptr) (queue : bool) (consumer : nat) (progs : list (list call)).
Context (Hl : l ≠ NULL).

(** The threads may run together: they use the list in one way, and at most one removes. *)
Definition may_share : Prop := ∀ i cs, progs !! i = Some cs →
  forallb (supported queue) cs = true ∧ (i ≠ consumer → CRemove ∉ cs).

Lemma room_init : room ((λ cs, LThread cs Idle []) <$> progs) = Z.of_nat (sum_list_with length progs).
Proof.
  unfold room. f_equal. clear. induction progs as [|cs ps IH]; [done|]. simpl. by rw IH.
Qed.

Lemma inv_init m w :
  may_share → holds (llist_at pr fr queue l []) m →
  Z.of_nat (sum_list_with length progs) < 2 ^ 64 →
  inv pr fr l queue consumer progs (cinit m w progs) (Ghost [] [] [] NULL None).
Proof.
  intros Hs Hm Hlen. split; [done|done| |done| |].
  - intros i t Ht. simpl in Ht. rw list_lookup_fmap in Ht. destruct (progs !! i) as [cs|] eqn:E; [|done].
    injection Ht as <-. destruct (Hs i cs E) as [H1 H2]. by split.
  - unfold cinit, len. cbn [threads]. rw room_init. simpl. lia.
  - eapply holds_entails; [|exact Hm]. unfold cinit, list_of. cbn [threads]. simpl.
    iIntros "$". rw big_sepL_fmap. by rw (big_sepL_emp progs).
Qed.

Lemma inv_only_enqueues s g :
  queue = true → may_share → inv pr fr l queue consumer progs s g → only_enqueues (g_hist g) = true.
Proof.
  intros Hq Hs [_ _ Hth Hfor _ _]. apply forallb_forall. intros [i [c e]] Hin%list_elem_of_In.
  apply calls_of_in in Hin. destruct (threads s !! i) as [t|] eqn:Ht.
  - destruct (Hth i t Ht) as [H1 _ _ H4 _ _ _]. rw H4 in Hin.
    destruct (Hs i _ H1) as [Hall _]. rw forallb_app Hq in Hall. apply andb_true_iff in Hall as [Hall Hun].
    apply elem_of_app in Hin as [Hin|Hin].
    + rw forallb_forall in Hall. apply Hall, list_elem_of_In.
      apply list_elem_of_fmap. by exists (c, e).
    + unfold pending in Hin. destruct (at_ t); try by apply elem_of_nil in Hin.
      apply list_elem_of_singleton in Hin. by injection Hin as -> ->.
  - destruct (Hfor i Ht) as [H _]. rw H in Hin. set_solver.
Qed.
End runs.


Definition shared_ex : list (list call) := [[CEnqueue 7; CRemove]; [CEnqueue 8; CEnqueue 9; CSize]].

Lemma may_share_ex : may_share true 0 shared_ex.
Proof.
  intros i cs H. destruct i as [|[|i]]; simpl in H; [injection H as <-..|discriminate H];
    (split; [reflexivity|]); intros Hi; [by destruct Hi|].
  by rw !not_elem_of_cons; split_and!; [..|apply not_elem_of_nil].
Qed.

(** The first thread waits while the second one is in its critical section. *)
Definition sched_ex : list nat := [1; 0; 1; 0; 1; 0; 0; 1; 0; 1; 0; 1; 0; 1; 0; 0]%nat.


(** ** What the threads may not do *)

(** Without removals a list that is not empty stays so. *)
Lemma never_empty h xs ys :
  replay h xs = Some ys → xs ≠ [] → (∀ i d, (i, (CRemove, ERemoved d)) ∉ h) →
  ∀ i, (i, (CRemove, EEmpty)) ∉ h.
Proof.
  revert xs. induction h as [|[j [c e]] h IH]; intros xs H Hne Hrm i; [set_solver|]. simpl in H.
  destruct (replay1 c e xs) as [zs|] eqn:E; [|done]. simpl in H.
  assert (zs ≠ [] ∧ (c, e) ≠ (CRemove, EEmpty)) as [Hz Hce].
  { destruct e as [| |d| |z]; simpl in E; split; try done.
    - destruct (call_arg c); [congruence|done].
    - destruct c; try done; injection E as <-; by destruct xs.
    - destruct c; try done. destruct (Hrm j d). by left.
    - by destruct c, xs.
    - by destruct c, xs.
    - case_bool_decide; congruence. }
  intros [Heq|Hin]%elem_of_cons; [congruence|].
  apply (IH zs H Hz) in Hin; [done|]. intros k d Hk. apply (Hrm k d). by right.
Qed.

(** No history has a thread find an element at the front, find the list empty
    in its next call, and nobody remove anything. *)
Lemma peek_then_empty h xs i d : d ≠ NULL →
  replay h [] = Some xs → calls_of i h = [(CPeek, EResult d); (CRemove, EEmpty)] →
  (∀ j e, (j, (CRemove, ERemoved e)) ∉ h) → False.
Proof.
  intros Hd. generalize (@nil ptr). induction h as [|[j [c e]] h IH]; intros ys H Hi Hrm; [done|].
  simpl in H, Hi. destruct (replay1 c e ys) as [zs|] eqn:E; [|done]. simpl in H.
  assert (∀ j e, (j, (CRemove, ERemoved e)) ∉ h) as Hrm' by (intros k x Hk; apply (Hrm k x); by right).
  case_bool_decide; [|by apply (IH zs)]. injection Hi as -> -> Hi. simpl in E.
  case_bool_decide as Hp; [|done]. injection E as <-.
  apply (never_empty h ys xs H) with (i := i); [|done|apply in_calls_of; rw Hi; by left].
  intros ->. injection Hp as <-. by apply Hd.
Qed.

Definition run_shared (sched : list nat) (progs : list (list call)) : coutcome :=
  exec_schedule 1 sched (cinit empty_list_ex lworld_ex progs).

(** C15: what [llist_remove_front] and [llist_peek] read without the mutex cannot be trusted.
    Two threads that remove can both find the list not empty before either takes
    the mutex, and the second one then follows the NULL that the first has left at the
    head; had it made its call after the first it would have found the list empty.  A thread that looks at the first element while another one removes it reads a
    freed node, or follows NULL.  And even the only thread that removes can see
    the first element and then be told that there is none, because the head is set before the
    count: no sequential history explains this, although nothing has been removed. *)
Theorem llist_unlocked_reads :
  run_shared [0; 0; 0; 0; 1; 0; 0; 1]%nat [[CEnqueue 7; CRemove]; [CRemove]] = CCrash NullDeref ∧
  (∃ s, run_shared [0; 0; 0; 0; 0; 0; 0; 1]%nat [[CEnqueue 7; CRemove]; [CRemove]] = CNext s ∧
     log <$> threads s =
       [[(CEnqueue 7, ELinked); (CRemove, ERemoved 7)]; [(CRemove, EEmpty)]]) ∧
  (∃ n, run_shared [0; 0; 0; 1; 1; 0; 0; 0; 0; 1]%nat [[CEnqueue 7; CRemove]; [CPeek]] =
        CCrash (BadAccess n)) ∧
  run_shared [0; 0; 0; 1; 0; 0; 0; 0; 1; 1]%nat [[CEnqueue 7; CRemove]; [CPeek]] = CCrash NullDeref ∧
  ∃ s, run_shared [1; 1; 0; 0; 0; 0; 1]%nat [[CPeek; CRemove]; [CEnqueue 7]] = CNext s ∧
    ¬ ∃ h xs, replay h [] = Some xs ∧
        (∀ i, calls_of i h = match threads s !! i with Some t => log t | None => [] end).
Proof.
  split; [vm_compute; reflexivity|]. split; [eexists; split; vm_compute; reflexivity|].
  split; [eexists; vm_compute; reflexivity|].
  split; [vm_compute; reflexivity|]. eexists. split; [vm_compute; reflexivity|].
  intros (h & xs & Hr & Hc). apply (peek_then_empty h xs 0%nat 7 ltac:(done) Hr (Hc 0%nat)).
  intros j e Hin%calls_of_in. rw Hc in Hin. destruct j as [|[|j]]; simpl in Hin;
    repeat (apply elem_of_cons in Hin as [Hin|Hin]; [done|]); by apply elem_of_nil in Hin.
Qed.
