(* ===== verification/LListProps.v ===== *)
(** * LListProps: what linked_list_lib.c guarantees to its callers *)

From iris.proofmode Require Import environments proofmode.
From stdpp Require Import gmap strings.
From S2P Require Import Prelude HProp Mem Chain Fifo LListCode LListOps LListSession LListMisuse.

Open Scope Z_scope.

(** Functions 2 and 3 print and release an element. *)
Definition run_lops (os : list lop) : result lcell (option (list Z)) :=
  run (llist_session 2 3 5 os) {[5 := LCPtr 0]} lworld_ex.


Definition queue_ops_ex : list lop :=
  [OEnqueue 7; OEnqueue 8; OPeekTail; OPush 6; ODequeue; OSize; ODisplay].


(** Used as a queue, the list is first-in first-out, by the contract that the
    queue of the tree library keeps too. *)
Theorem llist_queue_round_trip pr fr p xs w :
  p ≠ NULL → Forall (λ x, x ≠ NULL) xs → calloc_plan w = [] → len xs < 2 ^ 64 →
  triple (llist_at pr fr true p [])
    (enq_all llist_enqueue p xs;; deq_all llist_dequeue p (length xs)) w
    (gives xs w (llist_at pr fr true p [])).
Proof.
  intros Hp Hxs Hw Hlen. apply wp_triple. iIntros "Hl".
  iApply (wp_fifo_round_trip _ _ _ 0 (rep := llist_fifo_rep pr fr) with "[Hl]"); [done..| |].
  { iFrame. iPureIntro. split; [done|]. unfold len in *. simpl. lia. }
  iIntros "[%H Hl]". by iApply gives_intro.
Qed.

Lemma llist_queue_round_trip_witness :
  ∃ m', run (enq_all llist_enqueue 1 [7; 8] ;; deq_all llist_dequeue 1 2) empty_list_ex lworld_ex
      = Ok [7; 8] (State m' lworld_ex) ∧ holds (llist_at 2 3 true 1 []) m'.
Proof.
  assert (triple (llist_at 2 3 true 1 [])
    (enq_all llist_enqueue 1 [7; 8] ;; deq_all llist_dequeue 1 2) lworld_ex
    (gives [7; 8] lworld_ex (llist_at 2 3 true 1 []))) as H.
  { apply (llist_queue_round_trip 2 3 1 [7; 8]);
      [discriminate|repeat constructor; discriminate|reflexivity|reflexivity]. }
  exact (triple_gives _ _ _ _ _ _ _ H empty_list_ex_at).
Defined.

(** When [calloc] fails, an insertion of any kind returns without a message
    and leaves the list as it was, with its mutex free. *)
Theorem llist_insert_no_memory pr fr b p d xs w :
  p ≠ NULL → d ≠ NULL → calloc_ok w = false → len xs + 1 < 2 ^ 64 →
  keeps_front b xs = true →
  let unchanged (b' : bool) (c : lprog ()) :=
    triple (llist_at pr fr b' p xs) c w (gives () (calloc_world w) (llist_at pr fr b' p xs)) in
  unchanged b (llist_insert_front p d) ∧ unchanged b (llist_push p d) ∧
  unchanged false (llist_insert_back p d) ∧ unchanged true (llist_enqueue p d).
Proof.
  intros Hp Hd Hok Hlen Hb unchanged.
  split_and!; apply wp_triple; iIntros "Hl".
  - iApply (wp_llist_insert_front with "Hl"); [done..|]. rw Hok. iApply gives_intro.
  - iApply (wp_llist_push with "Hl"); [done..|]. rw Hok. iApply gives_intro.
  - iApply (wp_llist_insert_back with "Hl"); [done..|]. rw Hok. iApply gives_intro.
  - iApply (wp_llist_enqueue with "Hl"); [done..|]. rw Hok. iApply gives_intro.
Qed.

Lemma llist_insert_no_memory_witness :
  ∃ m' w', run (llist_enqueue 1 7) empty_list_ex (World [false] [] 0 []) = Ok () (State m' w') ∧
    holds (llist_at 2 3 true 1 []) m'.
Proof.
  destruct (llist_insert_no_memory 2 3 false 1 7 [] (World [false] [] 0 []))
    as (_ & _ & _ & H); [discriminate|discriminate|reflexivity|reflexivity|reflexivity|].
  destruct (triple_gives _ _ _ _ _ _ _ H empty_list_ex_at) as (m' & Hm & HR).
  exists m', (calloc_world (World [false] [] 0 [])). split; [exact Hm|exact HR].
Defined.

(** C16: mixing the two uses is unsafe, because [llist_insert_back] does not set
    the tail and a removal does not clear it.  After any number of insertions by
    [llist_insert_back] the first [llist_enqueue] follows the NULL tail; after a queue of any
    length has been drained [llist_peek_tail] reads the freed last node, whatever calls
    would come next.  An [llist_enqueue] between the two uses also loses the element that
    was inserted last, so that a later removal follows NULL although the list claims to
    hold one more; and after a push on a drained queue it accesses a freed node. *)
Theorem llist_mixed_use_unsafe pr fr pp q ds d os w :
  pr ≠ NULL → fr ≠ NULL → pp ≠ NULL → d ≠ NULL → ds ≠ [] → Forall (λ d, d ≠ NULL) ds →
  calloc_plan w = [] → 2 * len ds < 2 ^ 64 →
  let fails_with os E := ∃ e, run (llist_session pr fr pp os) {[pp := LCPtr q]} w = Err e ∧ E e in
  fails_with (map OInsertBack ds ++ OEnqueue d :: os) (eq NullDeref) ∧
  fails_with (fill_and_drain ds ++ OPeekTail :: os) bad_access ∧
  outcome (run_lops [OPush 7; OInsertBack 8; OEnqueue 9; ODequeue; OPeek; OSize])
    = inl (Some [0; 0; 0; 7; 9; 2]) ∧
  outcome (run_lops [OPush 7; OInsertBack 8; OEnqueue 9; ODequeue; ODequeue; ODequeue])
    = inr NullDeref ∧
  outcome (run_lops [OEnqueue 7; OEnqueue 8; OEnqueue 9; ODequeue; ODequeue; ODequeue; OPush 7;
                     OEnqueue 8]) = inr (BadAccess 9).
Proof.
  intros Hpr Hfr Hpp Hd Hne Hds Hw Hlen fails_with. pose proof (len_nonneg ds).
  assert (holds (pp ↦ as_cell (q : ptr))%I {[pp := LCPtr q]}) as Hm by by apply holds_pointsto.
  split; [|split; [|repeat split; vm_compute; reflexivity]]; apply (fails_runs _ _ _ _ w Hm).
  - apply bi.wand_entails, fails_enqueue_after_insert_back; try done. lia.
  - by apply bi.wand_entails, fails_peek_tail_drained.
Qed.

Lemma llist_mixed_use_unsafe_witness :
  outcome (run_lops [OInsertBack 7; OInsertBack 8; OEnqueue 9; OSize]) = inr NullDeref ∧
  ∃ l, outcome (run_lops [OEnqueue 7; OEnqueue 8; ODequeue; ODequeue; OPeekTail]) = inr (BadAccess l).
Proof.
  assert (∀ os, (∃ e, run_lops (map OInsertBack [7; 8] ++ OEnqueue 9 :: os) = Err e ∧ NullDeref = e) ∧
                ∃ e, run_lops (fill_and_drain [7; 8] ++ OPeekTail :: os) = Err e ∧ bad_access e) as H.
  { intros os. destruct (llist_mixed_use_unsafe 2 3 5 0 [7; 8] 9 os lworld_ex) as (H1 & H2 & _);
      [discriminate..|repeat constructor; discriminate|reflexivity|reflexivity|].
    exact (conj H1 H2). }
  split.
  - destruct (H [OSize]) as [(e & He & <-) _]. simpl in He. by rw He.
  - destruct (H []) as [_ (e & He & l & ->)]. simpl in He. exists l. by rw He.
Defined.

(** The NULL arguments that the functions test for make them return at once;
    [llist_size(NULL)] is the largest [uint64_t] and [is_llist_empty(NULL)] is -1,
    so that a removal from NULL returns NULL. *)
Theorem llist_null_arguments (m : gmap Z lcell) w p d :
  let same {A} (a : A) := Ok a (State m w) in
  run (llist_create NULL d) m w = same NULL ∧ run (llist_create d NULL) m w = same NULL ∧
  run (llist_insert_front NULL d) m w = same () ∧ run (llist_insert_front p NULL) m w = same () ∧
  run (llist_insert_back NULL d) m w = same () ∧ run (llist_insert_back p NULL) m w = same () ∧
  run (llist_push NULL d) m w = same () ∧ run (llist_push p NULL) m w = same () ∧
  run (llist_enqueue NULL d) m w = same () ∧ run (llist_enqueue p NULL) m w = same () ∧
  run (llist_remove_front NULL) m w = same NULL ∧ run (llist_peek NULL) m w = same NULL ∧
  run (llist_peek_tail NULL) m w = same NULL ∧ run (llist_display NULL) m w = same () ∧
  run (llist_destroy NULL) m w = same () ∧
  run (is_llist_empty NULL) m w = same (-1) ∧ run (llist_size NULL) m w = same (2 ^ 64 - 1).
Proof.
  unfold llist_create, llist_insert_front, llist_insert_back, llist_push, llist_enqueue.
  by rw ?orb_true_r.
Qed.
