(* ===== verification/ThreadPool.v ===== *)
(** * ThreadPool: thread_pool/thread_pool_lib.c as an interleaving of threads

    A state holds the pool object and the program counter of every thread: the
    workers, the producers that submit tasks to the pool, and the client that
    creates it and shuts it down, after it has waited for the producers or not ([waits]).
    A [choice] names the thread that moves, the answer of [calloc] and the waiter
    that a signal wakes; [exec] performs the move.  Shared fields are accessed
    with the mutex held only, so each critical section is cut at its calls of
    the pthread library.  Spurious wakeups of [pthread_cond_wait] and failures of
    [pthread_create] are moves too.  Using the pool object after it has been freed, and
    joining a thread that was never created, is a [Crash]. *)

From stdpp Require Import list relations.
From S2P Require Import Prelude.

Open Scope Z_scope.

(** ** State *)

(** A task is its function and its argument; the queue is the chain of tasks. *)
Record task := Task { p_function : ptr; argument : ptr }.
#[export] Instance task_eq_dec : EqDecision task.
Proof. solve_decision. Defined.

Inductive thread := Client | Worker (i : nat) | Producer (i : nat).

#[export] Instance thread_eq_dec : EqDecision thread.
Proof. solve_decision. Defined.

Record tpool := Pool {
  p_task_queue : list task;
  p_queue_mutex : option thread;     (* the owner *)
  num_workers : Z;                   (* a uint8_t *)
  b_shutdown : bool
}.

(** Where a worker is in [worker_thread]. *)
Inductive wpc :=
  | WLock               (* at pthread_mutex_lock *)
  | WCheck              (* holds the mutex, at the test of the while loop *)
  | WWait               (* blocked in pthread_cond_wait, the mutex released *)
  | WRelock             (* woken up, to take the mutex again *)
  | WPopped (t : task)  (* holds the mutex, t taken from the queue *)
  | WRun (t : task)     (* calls t *)
  | WFree (t : task)    (* t has returned, to be freed *)
  | WExit               (* holds the mutex, has seen b_shutdown *)
  | WSkip               (* holds the mutex, found no task *)
  | WDone               (* returned *)
  | WNone.              (* there is no such thread: pthread_create has failed *)

(** Where a producer is: between two calls, or in [tpool_enqueue]. *)
Inductive ppc := PNext | PLock (t : task) | PLink (t : task) | PSignal | PUnlock.

(** Where the client is: in [tpool_create] with [i] threads created, between its two
    calls, or in [tpool_shutdown] ([SJoin i]: to join thread [i]). *)
Inductive cpc :=
  | CCreate (i : nat)
  | CNext
  | SLock | SSet | SBroadcast | SUnlock | SJoin (i : nat) | SFree
  | CDone.

#[export] Instance wpc_eq_dec : EqDecision wpc.
Proof. solve_decision. Defined.
#[export] Instance ppc_eq_dec : EqDecision ppc.
Proof. solve_decision. Defined.
#[export] Instance cpc_eq_dec : EqDecision cpc.
Proof. solve_decision. Defined.

(** [todo]: the submissions that the producer has still to make. *)
Record producer := Prod { p_at : ppc; todo : list task }.

(** What has happened to the tasks, oldest first; an accepted task comes with the
    number of its producer. *)
Record history := History {
  accepted : list (nat * task); started : list task; finished : list task; dropped : list task
}.

Record st := St {
  pool : tpool;
  alive : bool;               (* false once the pool object is freed *)
  requested : nat;            (* the argument of tpool_create *)
  workers : list wpc;
  client : cpc;
  waits : bool;               (* does the client wait for the producers *)
  producers : list producer;
  hist : history
}.

(** ** Fields *)

Definition set_queue q p := Pool q (p_queue_mutex p) (num_workers p) (b_shutdown p).
Definition set_owner o p := Pool (p_task_queue p) o (num_workers p) (b_shutdown p).
Definition set_shutdown b p := Pool (p_task_queue p) (p_queue_mutex p) (num_workers p) b.
Definition set_pool p s := St p (alive s) (requested s) (workers s) (client s) (waits s) (producers s) (hist s).
Definition set_workers ws s := St (pool s) (alive s) (requested s) ws (client s) (waits s) (producers s) (hist s).
Definition set_client c s := St (pool s) (alive s) (requested s) (workers s) c (waits s) (producers s) (hist s).
Definition set_producers ps s := St (pool s) (alive s) (requested s) (workers s) (client s) (waits s) ps (hist s).
Definition set_hist h s := St (pool s) (alive s) (requested s) (workers s) (client s) (waits s) (producers s) h.
Definition set_worker i pc s := set_workers (<[i := pc]> (workers s)) s.
Definition set_producer i pc ts s := set_producers (<[i := Prod pc ts]> (producers s)) s.

Definition log_accepted i t h := History (accepted h ++ [(i, t)]) (started h) (finished h) (dropped h).
Definition log_started t h := History (accepted h) (started h ++ [t]) (finished h) (dropped h).
Definition log_finished t h := History (accepted h) (started h) (finished h ++ [t]) (dropped h).
Definition log_dropped ts h := History (accepted h) (started h) (finished h) (dropped h ++ ts).

(** ** Creation *)

(** [ok_pool] and [ok_workers] are the answers of the two calls of [calloc]; producer
    [i] will submit the tasks [progs !! i].  [num_workers] is stored in a [uint8_t]. *)
Definition tpool_create (n : Z) (ok_pool ok_workers waits : bool) (progs : list (list task))
    : option st :=
  if n <? 1 then None else
  if negb ok_pool then None else
  if negb ok_workers then None else
  Some (St (Pool [] None (u8 n) false) true (Z.to_nat n) [] (CCreate 0) waits
           (Prod PNext <$> progs) (History [] [] [] [])).

(** ** Moves *)

Inductive outcome := Blocked | Crash | Next (s : st).

Inductive choice :=
  | ChWorker (i : nat)
  | ChProducer (i : nat) (calloc_ok : bool) (wake : nat)
  | ChClient
  | ChSpurious (i : nat)
  | ChNoThread.        (* the client creates a thread, and pthread_create fails *)

(** Steps that use the pool object. *)
Definition with_pool (s : st) (k : tpool → outcome) : outcome :=
  if alive s then k (pool s) else Crash.

Definition lock (th : thread) (s : st) (k : st → st) : outcome :=
  with_pool s (λ p, match p_queue_mutex p with
                    | None => Next (k (set_pool (set_owner (Some th) p) s))
                    | Some _ => Blocked
                    end).
Definition unlock (s : st) (k : st → st) : outcome :=
  with_pool s (λ p, Next (k (set_pool (set_owner None p) s))).

Definition is_waiting (pc : wpc) : bool := match pc with WWait => true | _ => false end.
Definition wake (pc : wpc) : wpc := match pc with WWait => WRelock | pc => pc end.

(** [worker_thread], thread [i] *)
Definition worker_step (i : nat) (pc : wpc) (s : st) : outcome :=
  match pc with
  | WLock | WRelock => lock (Worker i) s (set_worker i WCheck)
  | WCheck =>
      with_pool s (λ p,
        if bool_decide (p_task_queue p = []) && negb (b_shutdown p)
        then unlock s (set_worker i WWait)
        else if b_shutdown p then Next (set_worker i WExit s)
        else match p_task_queue p with
             | [] => Next (set_worker i WSkip s)
             | t :: q => Next (set_worker i (WPopped t)
                                 (set_hist (log_started t (hist s)) (set_pool (set_queue q p) s)))
             end)
  | WWait => Blocked
  | WPopped t => unlock s (set_worker i (WRun t))
  | WRun t => Next (set_worker i (WFree t) (set_hist (log_finished t (hist s)) s))
  | WFree _ => Next (set_worker i WLock s)
  | WExit => unlock s (set_worker i WDone)
  | WSkip => unlock s (set_worker i WLock)
  | WDone | WNone => Blocked
  end.

(** The tests of the arguments in [tpool_enqueue]. *)
Definition task_ok (t : task) : bool :=
  negb ((p_function t =? NULL) || (argument t =? NULL)).

Definition creating (c : cpc) : bool := match c with CCreate _ => true | _ => false end.

(** [tpool_enqueue], producer [i]; producers start when the pool exists. *)
Definition producer_step (i : nat) (p : producer) (ok : bool) (j : nat) (s : st) : outcome :=
  let ts := todo p in
  match p_at p with
  | PNext =>
      if creating (client s) then Blocked else
      match ts with
      | [] => Blocked
      | t :: ts => if task_ok t && ok then Next (set_producer i (PLock t) ts s)
                      else Next (set_producer i PNext ts s)
      end
  | PLock t => lock (Producer i) s (set_producer i (PLink t) ts)
  | PLink t =>
      with_pool s (λ p, Next (set_producer i PSignal ts
        (set_hist (log_accepted i t (hist s)) (set_pool (set_queue (p_task_queue p ++ [t]) p) s))))
  | PSignal =>
      with_pool s (λ _,
        if existsb is_waiting (workers s)
        then match workers s !! j with
             | Some WWait => Next (set_producer i PUnlock ts (set_worker j WRelock s))
             | _ => Blocked
             end
        else Next (set_producer i PUnlock ts s))
  | PUnlock => unlock s (set_producer i PNext ts)
  end.

(** The producer has returned from its last call. *)
Definition resting (p : producer) : bool :=
  match p_at p, todo p with PNext, [] => true | _, _ => false end.

(** [pthread_create], whose result [tpool_create] does not look at. *)
Definition create_thread (i : nat) (pc : wpc) (s : st) : st :=
  set_client (CCreate (S i)) (set_workers (workers s ++ [pc]) s).

(** [tpool_create] and [tpool_shutdown] *)
Definition client_step (s : st) : outcome :=
  match client s with
  | CCreate i =>
      if bool_decide (i < requested s)%nat then Next (create_thread i WLock s)
      else Next (set_client CNext s)
  | CNext => if waits s && negb (forallb resting (producers s)) then Blocked
             else Next (set_client SLock s)
  | SLock => lock Client s (set_client SSet)
  | SSet => with_pool s (λ p, Next (set_client SBroadcast (set_pool (set_shutdown true p) s)))
  | SBroadcast =>
      with_pool s (λ _, Next (set_client SUnlock (set_workers (wake <$> workers s) s)))
  | SUnlock => unlock s (set_client (SJoin 0))
  | SJoin i =>
      with_pool s (λ p,
        if Z.of_nat i <? num_workers p
        then match workers s !! i with
             | Some WDone => Next (set_client (SJoin (S i)) s)
             | Some WNone => Crash
             | _ => Blocked
             end
        else Next (set_client SFree s))
  | SFree =>
      with_pool s (λ p, Next (St (set_queue [] p) false (requested s) (workers s) CDone (waits s)
                                (producers s) (log_dropped (p_task_queue p) (hist s))))
  | CDone => Blocked
  end.

Definition exec (c : choice) (s : st) : outcome :=
  match c with
  | ChWorker i => match workers s !! i with Some pc => worker_step i pc s | None => Blocked end
  | ChProducer i ok j =>
      match producers s !! i with Some p => producer_step i p ok j s | None => Blocked end
  | ChClient => client_step s
  | ChSpurious i =>
      match workers s !! i with
      | Some WWait => with_pool s (λ _, Next (set_worker i WRelock s))
      | _ => Blocked
      end
  | ChNoThread =>
      match client s with
      | CCreate i => if bool_decide (i < requested s)%nat then Next (create_thread i WNone s) else Blocked
      | _ => Blocked
      end
  end.

(** A schedule; a blocked move is skipped. *)
Fixpoint exec_all (cs : list choice) (s : st) : outcome :=
  match cs with
  | [] => Next s
  | c :: cs => match exec c s with
               | Next s => exec_all cs s
               | Blocked => exec_all cs s
               | Crash => Crash
               end
  end.

Inductive step (s s' : st) : Prop :=
  | Step c : exec c s = Next s' → step s s'.

(** The states of the runs with a pool of [n] threads and the producers [progs]. *)
Definition reachable (n : Z) (waits : bool) (progs : list (list task)) (s : st) : Prop :=
  ∃ s0, tpool_create n true true waits progs = Some s0 ∧ rtc step s0 s.

(** Everything is over. *)
Definition terminated (s : st) : Prop :=
  client s = CDone ∧ Forall (eq WDone) (workers s) ∧ forallb resting (producers s) = true.

(** Tasks that a worker has taken and not finished. *)
Definition in_hand (pc : wpc) : option task :=
  match pc with WPopped t | WRun t => Some t | _ => None end.

(** The thread is between its lock and its unlock. *)
Definition worker_critical (pc : wpc) : bool :=
  match pc with WCheck | WPopped _ | WExit | WSkip => true | _ => false end.
Definition producer_critical (pc : ppc) : bool :=
  match pc with PLink _ | PSignal | PUnlock => true | _ => false end.
Definition client_critical (c : cpc) : bool :=
  match c with SSet | SBroadcast | SUnlock => true | _ => false end.
Definition critical (s : st) (th : thread) : bool :=
  match th with
  | Client => client_critical (client s)
  | Worker i => match workers s !! i with Some pc => worker_critical pc | None => false end
  | Producer i => match producers s !! i with Some p => producer_critical (p_at p) | None => false end
  end.
