(* ===== verification/ThreadPoolInv.v ===== *)
(** * ThreadPoolInv: the invariants of the thread pool

    One invariant per aspect (ownership of the mutex, shutdown protocol, waiting
    workers, accounting of the tasks), each preserved by every move of every
    thread.  Together they are [inv], which holds in every reachable state of a
    pool of at most 255 threads. *)

From stdpp Require Import list relations.
From S2P Require Import Prelude ThreadPool.

Open Scope Z_scope.

(** Reading a thread after another one has moved. *)
Lemma lookup_moved {A} (ws : list A) i pc pc' k :
  ws !! i = Some pc → <[i := pc']> ws !! k = (if decide (k = i) then Some pc' else ws !! k).
Proof.
  intros H. case_decide as E.
  - subst. apply list_lookup_insert_eq. by eapply lookup_lt_Some.
  - by apply list_lookup_insert_ne.
Qed.

Lemma lookup_created (ws : list wpc) pc k :
  (ws ++ [pc]) !! k = (if decide (k = length ws) then Some pc else ws !! k).
Proof.
  case_decide as E.
  - subst. by apply list_lookup_middle.
  - destruct (decide (k < length ws)%nat).
    + by apply lookup_app_l.
    + rewrite lookup_app_r by lia. rewrite (lookup_ge_None_2 ws) by lia.
      apply lookup_ge_None_2. simpl. lia.
Qed.

(** Reduce a move to the cases of the code that perform it. *)
Ltac exec_cases H :=
  unfold exec, client_step, worker_step, producer_step, lock, unlock, with_pool,
    set_worker, set_producer, create_thread in H;
  simpl in H; repeat case_match; simplify_eq/=;
  repeat match goal with p : producer |- _ => destruct p; simpl in *; subst end.

(** Rewrite the reads of the moved worker and split on it. *)
Ltac moved :=
  repeat match goal with
  | H : ?ws !! ?i = Some _ |- context [<[?i := _]> ?ws !! ?k] => rewrite (lookup_moved ws i _ _ k H)
  | H : ?ws !! ?i = Some _, H' : context [<[?i := _]> ?ws !! ?k] |- _ =>
      rewrite (lookup_moved ws i _ _ k H) in H'
  | |- context [(_ ++ [_]) !! _] => rewrite lookup_created
  | H' : context [(_ ++ [_]) !! _] |- _ => rewrite lookup_created in H'
  | |- context [(wake <$> _) !! _] => rewrite list_lookup_fmap
  | H' : context [(wake <$> _) !! _] |- _ => rewrite list_lookup_fmap in H'
  | |- context [decide (?k = ?i)] => destruct (decide (k = i)); subst
  | H' : context [decide (?k = ?i)] |- _ => destruct (decide (k = i)); subst
  end; simpl in *.

(** ** Mutual exclusion *)

(** The owner of the mutex is the thread that is in its critical section. *)
Definition inv_mutex (s : st) : Prop :=
  ∀ th, critical s th = bool_decide (p_queue_mutex (pool s) = Some th).

Lemma wake_critical pc : worker_critical (wake pc) = worker_critical pc.
Proof. by destruct pc. Qed.

(** Use what is known about the reads in a hypothesis. *)
Ltac known H :=
  repeat match goal with
  | E : ?ws !! ?i = Some _ |- _ => rewrite E in H
  end; simpl in H.

Lemma inv_mutex_step s s' c : inv_mutex s → exec c s = Next s' → inv_mutex s'.
Proof.
  unfold inv_mutex. destruct s as [[q o nw sh] al rq ws cl wt ps h]. intros I H.
  pose proof (I Client) as IC.
  assert (p_queue_mutex (Pool q o nw sh) ≠ Some (Worker (length ws))) as IL.
  { intros E. specialize (I (Worker (length ws))). simpl in *.
    rewrite lookup_ge_None_2 in I by done. by rewrite bool_decide_eq_true_2 in I. }
  destruct c as [i|i ok j| |i|];
    [pose proof (I (Worker i)) as II|pose proof (I (Producer i)) as II; pose proof (I (Worker j)) as IJ
    |pose proof IC as II|pose proof (I (Worker i)) as II|pose proof IC as II];
    exec_cases H; intros th; specialize (I th); destruct th as [|k|k]; simpl in *; moved;
    try known II; try known IJ.
  all: try (destruct (ws !! k); simpl in *; rewrite ?wake_critical in *).
  all: repeat case_bool_decide; simplify_eq; try congruence.
Qed.

(** ** Creation and shutdown *)

Definition created (s : st) : nat := match client s with CCreate i => i | _ => requested s end.

Definition inv_shape (s : st) : Prop :=
  length (workers s) = created s ∧ (created s ≤ requested s)%nat.

Lemma inv_shape_step s s' c : inv_shape s → exec c s = Next s' → inv_shape s'.
Proof.
  destruct s as [[q o nw sh] al rq ws cl wt ps h]. intros I H.
  destruct c as [i|i ok j| |i|]; exec_cases H; unfold inv_shape, created in *; simpl in *; rewrite ?length_insert, ?length_fmap, ?length_app;
    zbool; simpl; try done; lia.
Qed.

(** Producers start after the creation of the threads; when the client waits for them, they
    are at rest before the shutdown begins. *)
Definition shutting_down (c : cpc) : bool :=
  match c with CCreate _ | CNext => false | _ => true end.

Definition inv_started (s : st) : Prop :=
  creating (client s) = true → ∀ k p, producers s !! k = Some p → p_at p = PNext.

Definition inv_rested (s : st) : Prop :=
  waits s = true → shutting_down (client s) = true → forallb resting (producers s) = true.

Lemma inv_started_step s s' c : inv_started s → exec c s = Next s' → inv_started s'.
Proof.
  unfold inv_started. destruct s as [[q o nw sh] al rq ws cl wt ps h]. intros I H.
  destruct c as [i|i ok j| |i|]; exec_cases H; intros Hc k p Hk; try done; moved; simplify_eq/=;
    try done; try congruence; try (by eapply I); by specialize (I Hc _ _ H0).
Qed.

Lemma resting_lookup ps i p :
  forallb resting ps = true → ps !! i = Some p → p = Prod PNext [].
Proof.
  intros H Hi. rewrite forallb_forall in H. specialize (H p).
  destruct p as [pc ts]. rewrite <-list_elem_of_In in H. specialize (H (list_elem_of_lookup_2 _ _ _ Hi)).
  by destruct pc, ts.
Qed.

Lemma inv_rested_step s s' c : inv_rested s → exec c s = Next s' → inv_rested s'.
Proof.
  unfold inv_rested. destruct s as [[q o nw sh] al rq ws cl wt ps h]. intros I H.
  destruct c as [i|i ok j| |i|]; exec_cases H; intros Hw Hc; try done; zbool; auto.
  all: try by (pose proof (resting_lookup _ _ _ (I Hw Hc) H0)).
  subst. simpl in *. by zbool.
Qed.

(** [b_shutdown] has been set, and the waiting threads have been woken. *)
Definition after_set (c : cpc) : bool :=
  match c with SBroadcast | SUnlock | SJoin _ | SFree | CDone => true | _ => false end.
Definition after_broadcast (c : cpc) : bool :=
  match c with SUnlock | SJoin _ | SFree | CDone => true | _ => false end.
Definition client_done (c : cpc) : bool := match c with CDone => true | _ => false end.

Definition inv_shutdown (s : st) : Prop :=
  b_shutdown (pool s) = after_set (client s) ∧ alive s = negb (client_done (client s)).

Lemma inv_shutdown_step s s' c : inv_shutdown s → exec c s = Next s' → inv_shutdown s'.
Proof.
  unfold inv_shutdown. destruct s as [[q o nw sh] al rq ws cl wt ps h]. intros [I1 I2] H.
  destruct c as [i|i ok j| |i|]; exec_cases H; auto.
Qed.

(** Threads leave after the shutdown only, none waits after the broadcast, and no
    thread finds the queue empty once it is out of its while loop. *)
Definition worker_fits (shutdown broadcast : bool) (pc : wpc) : bool :=
  match pc with
  | WExit | WDone => shutdown
  | WWait => negb broadcast
  | WSkip => false
  | _ => true
  end.

Definition inv_workers (s : st) : Prop :=
  ∀ i pc, workers s !! i = Some pc →
    worker_fits (b_shutdown (pool s)) (after_broadcast (client s)) pc = true.

Lemma inv_workers_step s s' c :
  inv_shutdown s → inv_workers s → exec c s = Next s' → inv_workers s'.
Proof.
  unfold inv_workers, inv_shutdown.
  destruct s as [[q o nw sh] al rq ws cl wt ps h]. intros [IS _] I H.
  destruct c as [i|i ok j| |i|]; exec_cases H; intros k pc Hk; moved; zbool; simplify_eq/=;
    try done; try (apply fmap_Some in Hk as (pc0 & Hk & ->)); try apply I in Hk;
    try done; try (by destruct pc0); try (by destruct pc).
  - by destruct cl.
  - by eapply I in H0.
Qed.

(** The threads that [tpool_shutdown] has joined are done. *)
Definition joined (s : st) : nat :=
  match client s with SJoin i => i | SFree | CDone => requested s | _ => O end.

Definition inv_joined (s : st) : Prop :=
  ∀ k, (k < joined s)%nat → workers s !! k = Some WDone.

Lemma inv_joined_step s s' c :
  num_workers (pool s) = Z.of_nat (requested s) →
  inv_joined s → exec c s = Next s' → inv_joined s'.
Proof.
  destruct s as [[q o nw sh] al rq ws cl wt ps h]. intros Hn I H.
  destruct c as [i|i ok j| |i|]; exec_cases H; unfold inv_joined, joined in *; simpl in *;
    intros k Hk; moved; zbool; try lia.
  all: try (specialize (I _ Hk); congruence).
  all: try (by apply I).
  all: try (apply I; lia).
  destruct (decide (k = i)) as [->|Hne]; [done|apply I; lia].
Qed.

(** ** No lost wakeup *)

(** Some producer is about to signal. *)
Definition signalling (ps : list producer) : Prop := ∃ k ts, ps !! k = Some (Prod PSignal ts).

(** A worker that exists, and one that does not wait. *)
Definition awake (pc : wpc) : bool := match pc with WWait | WNone => false | _ => true end.
Definition some_worker (ws : list wpc) : Prop := ∃ i pc, ws !! i = Some pc ∧ pc ≠ WNone.

(** While there is a task, a worker, if there is any, is on its way to the queue, or a
    producer is about to signal. *)
Definition inv_wakeup (s : st) : Prop :=
  p_task_queue (pool s) ≠ [] → b_shutdown (pool s) = false → ¬ signalling (producers s) →
  some_worker (workers s) → ∃ i pc, workers s !! i = Some pc ∧ awake pc = true.

(** A worker that has moved, to a place other than the wait. *)
Lemma awake_moved (ws : list wpc) i pc pc' :
  ws !! i = Some pc → awake pc' = true → ∃ k pk, <[i := pc']> ws !! k = Some pk ∧ awake pk = true.
Proof.
  intros H Hpc. exists i, pc'. split; [|done]. rewrite (lookup_moved ws i _ _ i H).
  by rewrite decide_True.
Qed.

(** When no worker waits, any worker will do. *)
Lemma awake_none_waiting (ws : list wpc) :
  existsb is_waiting ws = false → some_worker ws → ∃ k pk, ws !! k = Some pk ∧ awake pk = true.
Proof.
  intros H (i & pc & Hi & Hpc). exists i, pc. split; [done|].
  destruct (is_waiting pc) eqn:E; [|by destruct pc].
  assert (existsb is_waiting ws = true) as H'; [|congruence].
  apply existsb_exists. exists pc. split; [|done]. apply list_elem_of_In. by eapply list_elem_of_lookup_2.
Qed.

Lemma signalling_moved ps i p pc ts :
  ps !! i = Some p → p_at p ≠ PSignal →
  signalling ps → signalling (<[i := Prod pc ts]> ps).
Proof.
  intros Hi Hp (k & us & Hk). exists k, us. rewrite (lookup_moved ps i _ _ k Hi).
  case_decide; [|done]. subst. by simplify_eq.
Qed.

Lemma signalling_now (ps : list producer) i p ts :
  ps !! i = Some p → signalling (<[i := Prod PSignal ts]> ps).
Proof.
  intros H. exists i, ts. rewrite (lookup_moved ps i _ _ i H). by rewrite decide_True.
Qed.

Lemma inv_wakeup_step s s' c :
  inv_shutdown s → inv_wakeup s → exec c s = Next s' → inv_wakeup s'.
Proof.
  destruct s as [[q o nw sh] al rq ws cl wt ps h]. intros IH I H.
  destruct c as [i|i ok j| |i|]; exec_cases H; unfold inv_wakeup in *; simpl in *;
    intros Hq Hsh Hs Hw; try done; try congruence; try (by eapply awake_moved);
    try (by apply I);
    try (by apply I; [| |intros Hs'; apply Hs; eapply signalling_moved|]).
  - by zbool.
  - destruct Hs. by eapply signalling_now.
  - by apply awake_none_waiting.
  - exists (length ws), WLock. split; [by apply list_lookup_middle|done].
  - destruct IH as [IH _]. simpl in IH. congruence.
  - destruct I as (k & pk & Hk & Hpk); [done..| |].
    { destruct Hw as (k & pk & Hk & Hpk). rewrite lookup_created in Hk. case_decide; [by simplify_eq|].
      by exists k, pk. }
    exists k, pk. split; [by apply lookup_app_l_Some|done].
Qed.

(** ** Accounting *)

(** The task that a producer has allocated and not linked yet. *)
Definition pending (pc : ppc) : list task :=
  match pc with PLock t | PLink t => [t] | _ => [] end.

(** The tasks of producer [i]. *)
Definition accepted_by (i : nat) (l : list (nat * task)) : list task :=
  omap (λ x, if decide (x.1 = i) then Some x.2 else None) l.

Lemma accepted_by_snoc i l j t :
  accepted_by i (l ++ [(j, t)]) = accepted_by i l ++ (if decide (i = j) then [t] else []).
Proof.
  unfold accepted_by. rewrite omap_app. simpl.
  destruct (decide (j = i)), (decide (i = j)); congruence.
Qed.

(** Every accepted task is, in order of submission, started, dropped or queued;
    the started ones are in the hands of a worker or finished; nothing is dropped
    before the pool is freed; each producer submits a subsequence of its tasks. *)
Record inv_tasks (progs : list (list task)) (s : st) : Prop := {
  tasks_order :
    snd <$> accepted (hist s) = started (hist s) ++ dropped (hist s) ++ p_task_queue (pool s);
  tasks_hands : started (hist s) ≡ₚ omap in_hand (workers s) ++ finished (hist s);
  tasks_alive : alive s = true → dropped (hist s) = [];
  tasks_freed : alive s = false → p_task_queue (pool s) = [];
  tasks_submitted : ∀ i p, producers s !! i = Some p → ∃ ts, progs !! i = Some ts ∧
    accepted_by i (accepted (hist s)) ++ pending (p_at p) ++ todo p `sublist_of` ts;
  tasks_known : ∀ i t, (i, t) ∈ accepted (hist s) → is_Some (producers s !! i)
}.

Lemma accepted_by_none i (l : list (nat * task)) : (∀ t, (i, t) ∉ l) → accepted_by i l = [].
Proof.
  unfold accepted_by. induction l as [|[j t] l IH]; [done|]. intros H. csimpl.
  destruct (decide (j = i)) as [->|]; [by destruct (H t); left|].
  apply IH. intros t' Ht. apply (H t'). by right.
Qed.

Lemma accepted_by_sublist progs s i :
  inv_tasks progs s → accepted_by i (accepted (hist s)) `sublist_of` default [] (progs !! i).
Proof.
  intros [_ _ _ _ Hs Hk]. destruct (producers s !! i) as [p|] eqn:Ei.
  - destruct (Hs i p Ei) as (ts & -> & Hsub). etrans; [|exact Hsub]. by apply sublist_inserts_r.
  - rewrite accepted_by_none; [apply sublist_nil_l|]. intros t Ht.
    destruct (Hk i t Ht). congruence.
Qed.

(** What a worker's move changes in the hands of the workers. *)
Lemma hands_moved (ws : list wpc) i pc pc' :
  ws !! i = Some pc →
  option_list (in_hand pc) ++ omap in_hand (<[i := pc']> ws) ≡ₚ
  option_list (in_hand pc') ++ omap in_hand ws.
Proof.
  intros H. rewrite insert_take_drop by (by eapply lookup_lt_Some).
  rewrite <-(take_drop_middle ws i pc H) at 3. rewrite !omap_app. simpl.
  destruct (in_hand pc), (in_hand pc'); simpl; solve_Permutation.
Qed.

Lemma hands_same (ws : list wpc) i pc pc' :
  ws !! i = Some pc → in_hand pc = in_hand pc' →
  omap in_hand (<[i := pc']> ws) ≡ₚ omap in_hand ws.
Proof.
  intros H Hpc. pose proof (hands_moved ws i pc pc' H) as Hp. rewrite Hpc in Hp.
  by apply Permutation_app_inv_l in Hp.
Qed.

Lemma hands_wake (ws : list wpc) : omap in_hand (wake <$> ws) = omap in_hand ws.
Proof. induction ws as [|pc ws IH]; [done|]. destruct pc; csimpl; by rewrite IH. Qed.

Ltac hands :=
  match goal with
  | E : ?ws !! ?i = Some ?pc |- context [<[?i := ?pc']> ?ws] =>
      first [ by rewrite (hands_same ws i pc pc' E)
            | let Hp := fresh "Hp" in
              pose proof (hands_moved ws i pc pc' E) as Hp; simpl in Hp ]
  end.

(** A producer's move changes what concerns the producer only. *)
Lemma submitted_moved (progs : list (list task)) (ps : list producer) acc acc' i p p' :
  ps !! i = Some p →
  (∀ j, j ≠ i → accepted_by j acc' = accepted_by j acc) →
  accepted_by i acc' ++ pending (p_at p') ++ todo p' `sublist_of`
    accepted_by i acc ++ pending (p_at p) ++ todo p →
  (∀ j q, ps !! j = Some q → ∃ ts, progs !! j = Some ts ∧
     accepted_by j acc ++ pending (p_at q) ++ todo q `sublist_of` ts) →
  ∀ j q, <[i := p']> ps !! j = Some q → ∃ ts, progs !! j = Some ts ∧
     accepted_by j acc' ++ pending (p_at q) ++ todo q `sublist_of` ts.
Proof.
  intros Hi Hother Hsub H j q Hj. rewrite (lookup_moved ps i p p' j Hi) in Hj. case_decide.
  - subst. simplify_eq. destruct (H i p Hi) as (ts & Hts & Hs). exists ts. split; [done|]. by etrans.
  - destruct (H j q Hj) as (ts & Hts & Hs). exists ts. split; [done|]. by rewrite Hother.
Qed.

Lemma known_moved {A} (ps : list A) i p' (acc : list (nat * task)) :
  (∀ j t, (j, t) ∈ acc → is_Some (ps !! j)) →
  ∀ j t, (j, t) ∈ acc → is_Some (<[i := p']> ps !! j).
Proof.
  intros H j t Hin. apply lookup_lt_is_Some_2. rewrite length_insert.
  by eapply lookup_lt_is_Some_1, H.
Qed.

Lemma inv_tasks_step progs s s' c :
  inv_tasks progs s → exec c s = Next s' → inv_tasks progs s'.
Proof.
  destruct s as [[q o nw sh] al rq ws cl wt ps h]. intros I H.
  destruct c as [i|i ok j| |i|]; exec_cases H; destruct I as [I1 I2 I3 I4 I5 I6]; simpl in *;
    zbool; split; simpl; try done; try congruence; try hands; try (by apply known_moved);
    try (eapply submitted_moved; [done| | |exact I5]; simpl; [done|]).
  all: try reflexivity; try (apply sublist_app; [done|by apply sublist_cons]).
  - rewrite I1, I3 by done. by rewrite <-app_assoc.
  - by rewrite Hp, I2, <-Permutation_cons_append.
  - rewrite I2, <-Hp. simpl. by rewrite Permutation_middle, Permutation_cons_append.
  - rewrite fmap_app, I1. simpl. by rewrite <-!app_assoc.
  - eapply submitted_moved; [done| | |exact I5]; simpl.
    + intros k Hk. rewrite accepted_by_snoc, decide_False by done. apply app_nil_r.
    + by rewrite accepted_by_snoc, decide_True, <-app_assoc by done.
  - apply known_moved. intros k t' [Hin|Hin]%elem_of_app; [by eapply I6|].
    apply list_elem_of_singleton in Hin. by simplify_eq.
  - by rewrite omap_app, app_nil_r.
  - by rewrite hands_wake.
  - by rewrite I1, app_nil_r.
  - by rewrite omap_app, app_nil_r.
Qed.

(** ** All of it *)

Record inv (n : nat) (progs : list (list task)) (s : st) : Prop := {
  inv_requested : requested s = n;
  inv_num : num_workers (pool s) = Z.of_nat n;
  inv_has_mutex : inv_mutex s;
  inv_has_shape : inv_shape s;
  inv_has_started : inv_started s;
  inv_has_rested : inv_rested s;
  inv_has_shutdown : inv_shutdown s;
  inv_has_workers : inv_workers s;
  inv_has_joined : inv_joined s;
  inv_has_wakeup : inv_wakeup s;
  inv_has_tasks : inv_tasks progs s
}.

(** What no move changes. *)
Lemma exec_constant c s s' : exec c s = Next s' →
  requested s' = requested s ∧ num_workers (pool s') = num_workers (pool s) ∧
  waits s' = waits s ∧ length (producers s') = length (producers s).
Proof.
  destruct s as [[q o nw sh] al rq ws cl wt ps h], c as [i|i ok j| |i|]; intros H;
    exec_cases H; by rewrite ?length_insert.
Qed.

Lemma inv_step n progs s s' c : inv n progs s → exec c s = Next s' → inv n progs s'.
Proof.
  intros [<- Hnum ?????????] H. pose proof (exec_constant _ _ _ H) as (Hr & Hw & _). split.
  - done.
  - by rewrite Hw.
  - by eapply inv_mutex_step.
  - by eapply inv_shape_step.
  - by eapply inv_started_step.
  - by eapply inv_rested_step.
  - by eapply inv_shutdown_step.
  - by eapply inv_workers_step.
  - by eapply inv_joined_step.
  - by eapply inv_wakeup_step.
  - by eapply inv_tasks_step.
Qed.

Lemma inv_create n wt progs s :
  1 ≤ n ≤ 255 → tpool_create n true true wt progs = Some s → inv (Z.to_nat n) progs s.
Proof.
  intros Hn H. unfold tpool_create in H. rewrite (proj2 (Z.ltb_ge _ _)) in H by lia.
  simplify_eq/=. split; simpl.
  - done.
  - rewrite u8_small by lia. lia.
  - intros [|i|i]; simpl; [done|done|]. rewrite list_lookup_fmap. by destruct (progs !! i).
  - split; unfold created; simpl; lia.
  - intros _ k p Hk. simpl in Hk. rewrite list_lookup_fmap in Hk. by destruct (progs !! k); simplify_eq/=.
  - done.
  - done.
  - by intros i pc.
  - intros k Hk. unfold joined in Hk. simpl in Hk. lia.
  - by intros ?.
  - split; simpl; try done.
    + intros i p Hi. rewrite list_lookup_fmap in Hi.
      destruct (progs !! i) as [ts|]; [|done]. injection Hi as <-. by exists ts.
    + intros i t Hin. by apply elem_of_nil in Hin.
Qed.

(** ** What the invariants exclude *)

Lemma inv_all_done n progs s i pc :
  inv n progs s → client s = CDone → workers s !! i = Some pc → pc = WDone.
Proof.
  intros [_ _ _ [Is1 _] _ _ _ _ Ij _ _] Hc Hi. unfold inv_joined, joined, created in *.
  rewrite Hc in *. apply lookup_lt_Some in Hi as Hlt. rewrite Ij in Hi by lia. congruence.
Qed.

Lemma inv_alive n progs s : inv n progs s → client s ≠ CDone → alive s = true.
Proof. intros [_ _ _ _ _ _ [_ ->] _ _ _ _] Hc. by destruct (client s). Qed.

(** Once the pool is freed every worker is done, and the producers too if the client
    has waited for them: only a producer that it has not waited for uses the freed pool.
    The other crash is that the client joins a thread that could not be created. *)
Definition joins_none (s : st) : Prop := ∃ i, client s = SJoin i ∧ workers s !! i = Some WNone.

Lemma inv_crash n progs s c :
  inv n progs s → exec c s = Crash →
  (waits s = false ∧ ∃ i ok j, c = ChProducer i ok j) ∨ (c = ChClient ∧ joins_none s).
Proof.
  intros I H. destruct (decide (client s = CDone)) as [Ec|Ec].
  - pose proof (inv_has_rested _ _ _ I) as Hrest. unfold inv_rested in Hrest. rewrite Ec in Hrest.
    destruct c as [k|k ok j| |k|]; simpl in H; unfold client_step in H; rewrite ?Ec in H; try done.
    + destruct (workers s !! k) as [pc|] eqn:Ei; [|done].
      assert (pc = WDone) as -> by (by eapply inv_all_done). done.
    + left. split; [|by eauto]. destruct (waits s); [|done]. specialize (Hrest eq_refl eq_refl).
      destruct (producers s !! k) as [p|] eqn:Ei; [|done].
      apply (resting_lookup _ _ _ Hrest) in Ei as ->.
      unfold producer_step in H. simpl in H. by rewrite Ec in H.
    + destruct (workers s !! k) as [pc|] eqn:Ei; [|done].
      assert (pc = WDone) as -> by (by eapply inv_all_done). done.
  - assert (alive s = true) as Hal by (by eapply inv_alive).
    destruct s as [[q o nw sh] al rq ws cl wt ps h], c as [k|k ok j| |k|]; simpl in *; subst;
      exec_cases H; try done. right. split; [done|]. by eexists.
Qed.
