(* ===== verification/ThreadPoolLive.v ===== *)
(** * ThreadPoolLive: progress and termination of the thread pool

    When the client waits for the producers, in every reachable state that is not
    final some thread can move, and each move that is not a spurious wakeup decreases
    [measure]: the pool cannot deadlock, and every run comes to its end.  While the
    client and the producers do nothing, a queued task is never stuck behind sleeping
    workers. *)

From stdpp Require Import list relations.
From S2P Require Import Prelude ThreadPool ThreadPoolInv.

Open Scope Z_scope.

Definition spurious (c : choice) : bool := match c with ChSpurious _ => true | _ => false end.

(** ** Progress *)

(** A worker that exists, does not wait and has not returned moves, unless it needs the mutex
    and another thread has it. *)
Lemma worker_moves s i pc :
  alive s = true → workers s !! i = Some pc → awake pc = true → pc ≠ WDone →
  (p_queue_mutex (pool s) = None ∨ critical s (Worker i) = true) →
  ∃ s', exec (ChWorker i) s = Next s'.
Proof.
  destruct s as [[q o nw sh] al rq ws cl wt ps h]. simpl. intros -> Hi Hw Hd Ho.
  rewrite Hi in *. destruct pc; simpl in *; unfold lock, unlock, with_pool; simpl; try done;
    try (destruct Ho as [->|Ho]; [|done]); eauto.
  repeat case_match; eauto.
Qed.

(** The client moves, unless it needs the mutex, joins a thread or is done. *)
Definition client_free (c : cpc) : bool :=
  match c with CNext | SLock | SJoin _ | CDone => false | _ => true end.

Lemma client_moves s :
  alive s = true → client_free (client s) = true → ∃ s', exec ChClient s = Next s'.
Proof.
  destruct s as [[q o nw sh] al rq ws cl wt ps h]. simpl. intros -> Hc.
  unfold client_step, unlock, with_pool. simpl. destruct cl; try done; eauto.
  case_match; eauto.
Qed.

(** A producer that has something to do moves, unless it needs the mutex. *)
Lemma producer_moves s i p :
  alive s = true → creating (client s) = false → producers s !! i = Some p → resting p = false →
  (p_queue_mutex (pool s) = None ∨ critical s (Producer i) = true) →
  ∃ j s', exec (ChProducer i true j) s = Next s'.
Proof.
  destruct s as [[q o nw sh] al rq ws cl wt ps h], p as [pc ts]. simpl. intros -> Hc Hi Hr Ho.
  rewrite Hi in *. unfold producer_step, lock, unlock, with_pool. simpl in *.
  destruct pc; simpl in *; try (exists 0%nat; by eauto).
  - exists 0%nat. rewrite Hc. destruct ts; [done|]. case_match; eauto.
  - exists 0%nat. destruct Ho as [->|]; [eauto|done].
  - destruct (existsb is_waiting ws) eqn:Ew; [|by exists 0%nat; eauto].
    apply existsb_exists in Ew as (pc & Hpc & Hw).
    apply list_elem_of_In, list_elem_of_lookup in Hpc as [j Hj].
    exists j. rewrite Hj. destruct pc; try done. eauto.
Qed.

Lemma not_resting (ps : list producer) :
  forallb resting ps = false → ∃ i p, ps !! i = Some p ∧ resting p = false.
Proof.
  induction ps as [|p ps IH]; simpl; intros H; [done|].
  destruct (resting p) eqn:E; [|by exists 0%nat, p].
  destruct (IH H) as (i & q & Hi & Hq). by exists (S i), q.
Qed.

Definition can_move (s : st) : Prop := ∃ c s', exec c s = Next s' ∧ spurious c = false.

(** The owner of the mutex can always move. *)
Lemma owner_moves n progs s th :
  inv n progs s → waits s = true → p_queue_mutex (pool s) = Some th → can_move s.
Proof.
  intros I Hw Ho. pose proof (inv_has_mutex _ _ _ I th) as Hc.
  rewrite Ho, bool_decide_eq_true_2 in Hc by done.
  assert (client s ≠ CDone) as Hnd.
  { intros E. destruct th as [|i|i]; simpl in Hc.
    - by rewrite E in Hc.
    - destruct (workers s !! i) as [pc|] eqn:Ei; [|done].
      eapply inv_all_done in Ei; [|done..]. by subst.
    - destruct (producers s !! i) as [p|] eqn:Ei; [|done].
      eapply resting_lookup in Ei; [by subst|].
      apply (inv_has_rested _ _ _ I Hw). by rewrite E. }
  pose proof (inv_alive _ _ _ I Hnd) as Hal. destruct th as [|i|i].
  - destruct (client_moves s Hal) as [s' Hs]; [simpl in Hc; by destruct (client s)|].
    by exists ChClient, s'.
  - simpl in Hc. destruct (workers s !! i) as [pc|] eqn:Ei; [|done].
    destruct (worker_moves s i pc) as [s' Hs]; [done|done|by destruct pc|by intros ->| |].
    { right. simpl. by rewrite Ei. }
    by exists (ChWorker i), s'.
  - simpl in Hc. destruct (producers s !! i) as [p|] eqn:Ei; [|done].
    destruct (producer_moves s i p) as (j & s' & Hs); [done| |done|by destruct p as [[] []]| |].
    { destruct (creating (client s)) eqn:E; [|done].
      by rewrite (inv_has_started _ _ _ I E _ _ Ei) in Hc. }
    { right. simpl. by rewrite Ei. }
    by exists (ChProducer i true j), s'.
Qed.

(** The client gets past a worker that it joins. *)
Lemma join_moves n progs s i :
  inv n progs s → client s = SJoin i → p_queue_mutex (pool s) = None → can_move s ∨ joins_none s.
Proof.
  intros I Ecl Ho. assert (alive s = true) as Hal by (eapply inv_alive; [done|congruence]).
  destruct (decide (i < requested s)%nat) as [Hi|Hi].
  - destruct I as [<- Hn _ [Is1 _] _ _ _ Iw _ _ _]. unfold created in Is1. rewrite Ecl in Is1.
    destruct (lookup_lt_is_Some_2 (workers s) i) as [pc Hpc]; [lia|].
    apply Iw in Hpc as Hfit. rewrite Ecl in Hfit. simpl in Hfit.
    destruct (decide (pc = WNone)) as [->|Hnn]; [by right; exists i|left].
    destruct (decide (pc = WDone)) as [->|Hne].
    + exists ChClient. eexists. split; [|done].
      destruct s as [[q o nw sh] al rq ws cl wt ps h]. simpl in *. subst.
      unfold client_step, with_pool. simpl. rewrite Hpc, (proj2 (Z.ltb_lt _ _)) by lia. done.
    + destruct (worker_moves s i pc) as [s' Hs]; [done|done|by destruct pc|done|by left|].
      by exists (ChWorker i), s'.
  - left. exists ChClient. eexists. split; [|done]. destruct I as [<- Hn _ _ _ _ _ _ _ _ _].
    destruct s as [[q o nw sh] al rq ws cl wt ps h]. simpl in *. subst.
    unfold client_step, with_pool. simpl. rewrite (proj2 (Z.ltb_ge _ _)) by lia. done.
Qed.

Lemma progress n progs s :
  inv n progs s → waits s = true → terminated s ∨ can_move s ∨ joins_none s.
Proof.
  intros I Hw. destruct (p_queue_mutex (pool s)) as [th|] eqn:Ho; [right; left; by eapply owner_moves|].
  destruct (decide (client s = CDone)) as [Ec|Ec].
  { left. split; [done|]. split.
    - apply Forall_forall. intros pc Hpc.
      apply list_elem_of_lookup in Hpc as [i Hi]. symmetry. by eapply inv_all_done.
    - apply (inv_has_rested _ _ _ I Hw). by rewrite Ec. }
  right. pose proof (inv_alive _ _ _ I Ec) as Hal.
  destruct (client_free (client s)) eqn:Ef.
  { left. destruct (client_moves s Hal Ef) as [s' Hs]. by exists ChClient, s'. }
  destruct (client s) as [| | | | | |i| |] eqn:Ecl; try done.
  - left. destruct (forallb resting (producers s)) eqn:Er.
    + exists ChClient. eexists. split; [|done]. simpl. unfold client_step.
      rewrite Ecl, Er, andb_false_r. done.
    + apply not_resting in Er as (i & p & Hi & Hr).
      destruct (producer_moves s i p) as (j & s' & Hs); [done|by rewrite Ecl|done|done|by left|].
      by exists (ChProducer i true j), s'.
  - left. exists ChClient. eexists. split; [|done]. simpl. unfold client_step, lock, with_pool.
    by rewrite Ecl, Hal, Ho.
  - by eapply join_moves.
Qed.

(** While no producer or client is in its critical section and a task is queued, some
    worker moves. *)
Lemma workers_progress n progs s :
  inv n progs s → p_task_queue (pool s) ≠ [] → b_shutdown (pool s) = false →
  some_worker (workers s) →
  (∀ th, critical s th = true → ∃ i, th = Worker i) →
  ∃ i s', exec (ChWorker i) s = Next s'.
Proof.
  intros I Hq Hsh Hsome Hcr.
  assert (client s ≠ CDone) as Hnd.
  { intros E. destruct (inv_has_shutdown _ _ _ I) as [Ib _]. rewrite E in Ib. simpl in Ib. congruence. }
  pose proof (inv_alive _ _ _ I Hnd) as Hal. destruct (p_queue_mutex (pool s)) as [th|] eqn:Ho.
  - pose proof (inv_has_mutex _ _ _ I th) as Hc. rewrite Ho, bool_decide_eq_true_2 in Hc by done.
    destruct (Hcr th Hc) as [i ->]. exists i. pose proof Hc as Hc'. simpl in Hc'.
    destruct (workers s !! i) as [pc|] eqn:Ei; [|done].
    apply (worker_moves s i pc); [done|done|by destruct pc|by intros ->|by right].
  - destruct (inv_has_wakeup _ _ _ I) as (i & pc & Hi & Hpc); [done|done| |done|].
    { intros (k & ts & Hk). destruct (Hcr (Producer k)) as [i Hi]; [|done]. simpl. by rewrite Hk. }
    apply (inv_has_workers _ _ _ I) in Hi as Hfit. exists i.
    apply (worker_moves s i pc); [done|done|by destruct pc| |by left].
    intros ->. simpl in Hfit. congruence.
Qed.

(** ** Termination *)

Definition wrank (pc : wpc) : nat :=
  match pc with
  | WWait | WDone | WNone => 0 | WExit => 1 | WCheck => 2 | WLock | WRelock => 3
  | WFree _ | WSkip => 4 | WRun _ => 5 | WPopped _ => 6
  end.

(** The moves that the client still has to make, [n] being the number of threads. *)
Definition crank (n : nat) (c : cpc) : nat :=
  match c with
  | CDone => 0 | SFree => 1 | SJoin i => 2 + (n - i) | SUnlock => n + 3 | SBroadcast => n + 4
  | SSet => n + 5 | SLock => n + 6 | CNext => n + 7 | CCreate i => n + 8 + (n - i)
  end.

(** The moves of a producer. *)
Definition prank (p : producer) : nat :=
  5 * length (todo p) +
  match p_at p with PNext => 0 | PUnlock => 1 | PSignal => 2 | PLink _ => 3 | PLock _ => 4 end.

Definition wsum (ws : list wpc) : nat := sum_list_with wrank ws.
Definition psum (ps : list producer) : nat := sum_list_with prank ps.

(** A client move wakes at most every worker (3 each) or creates one; a producer move adds
    one task (8) or wakes one worker. *)
Definition measure (s : st) : nat :=
  (3 * requested s + 4) * crank (requested s) (client s) + 9 * psum (producers s) +
  8 * length (p_task_queue (pool s)) + wsum (workers s).

Lemma psum_moved (ps : list producer) i p p' :
  ps !! i = Some p → (prank p + psum (<[i := p']> ps) = prank p' + psum ps)%nat.
Proof.
  unfold psum. intros H. rewrite insert_take_drop by (by eapply lookup_lt_Some).
  rewrite <-(take_drop_middle ps i p H) at 3. rewrite !sum_list_with_app. simpl. lia.
Qed.

Lemma wsum_moved (ws : list wpc) i pc pc' :
  ws !! i = Some pc → (wrank pc + wsum (<[i := pc']> ws) = wrank pc' + wsum ws)%nat.
Proof.
  unfold wsum. intros H. rewrite insert_take_drop by (by eapply lookup_lt_Some).
  rewrite <-(take_drop_middle ws i pc H) at 3. rewrite !sum_list_with_app. simpl. lia.
Qed.

Lemma wsum_wake (ws : list wpc) : (wsum (wake <$> ws) ≤ wsum ws + 3 * length ws)%nat.
Proof.
  unfold wsum. induction ws as [|pc ws IH]; [done|]. csimpl. destruct pc; simpl in *; lia.
Qed.

Lemma wsum_created (ws : list wpc) pc : wsum (ws ++ [pc]) = (wsum ws + wrank pc)%nat.
Proof. unfold wsum. rewrite sum_list_with_app. simpl. lia. Qed.

(** The sums after the move of the goal's threads. *)
Ltac sums :=
  try match goal with
  | E : ?ws !! ?i = Some ?pc |- context [wsum (<[?i := ?pc']> ?ws)] =>
      let Hs := fresh "Hs" in pose proof (wsum_moved ws i pc pc' E) as Hs; simpl in Hs
  end;
  try match goal with
  | E : ?ps !! ?i = Some ?p |- context [psum (<[?i := ?p']> ?ps)] =>
      let Hs := fresh "Hs" in pose proof (psum_moved ps i p p' E) as Hs; unfold prank in Hs; simpl in Hs
  end.

(** A client move pays for the wakeups that it causes. *)
Lemma measure_client K c c' a a' :
  (c' < c)%nat → (a' < a + K)%nat → (K * c' + a' < K * c + a)%nat.
Proof. nia. Qed.

(** A move decreases the measure; a spurious wakeup adds at most 3. *)
Lemma measure_step n progs s s' c :
  inv n progs s → exec c s = Next s' →
  if spurious c then (measure s' ≤ measure s + 3)%nat else (measure s' < measure s)%nat.
Proof.
  intros I H. destruct s as [[q o nw sh] al rq ws cl wt ps h].
  destruct c as [i|i ok j| |i|]; exec_cases H; destruct I as [<- Hn _ [Hl1 Hl2] _ _ _ _ _ _ _];
    unfold created, measure in *; simpl in *; zbool; sums; rewrite ?length_app; simpl;
    try lia; rewrite <-!Nat.add_assoc; apply measure_client; simpl;
    rewrite ?wsum_created; simpl; pose proof (wsum_wake ws); try lia.
Qed.

(** The number of moves of a run is bounded: what the initial measure allows, and
    four for each spurious wakeup. *)
Inductive moves : nat → nat → st → st → Prop :=
  | moves_refl s : moves 0 0 s s
  | moves_real k j s s' s'' c :
      exec c s = Next s' → spurious c = false → moves k j s' s'' → moves (S k) j s s''
  | moves_spurious k j s s' s'' c :
      exec c s = Next s' → spurious c = true → moves k j s' s'' → moves k (S j) s s''.

Lemma moves_bound n progs k j s s' :
  inv n progs s → moves k j s s' → (k + measure s' ≤ measure s + 3 * j)%nat.
Proof.
  intros I H. revert I. induction H as [s|k j s s1 s2 c Hc Hs _ IH|k j s s1 s2 c Hc Hs _ IH];
    intros I; [lia|..]; specialize (IH (inv_step _ _ _ _ _ I Hc));
    pose proof (measure_step _ _ _ _ _ I Hc) as Hm; rewrite Hs in Hm; lia.
Qed.

(** The parameters of a run do not change. *)
Lemma waits_reachable n wt progs s : reachable n wt progs s → waits s = wt.
Proof.
  intros (s0 & H0 & Hr).
  assert (waits s0 = wt) as <- by (unfold tpool_create in H0; repeat case_match; by simplify_eq).
  clear H0. induction Hr as [|s0 s1 s2 [c Hc] _ IH]; [done|].
  pose proof (exec_constant _ _ _ Hc) as (_ & _ & E & _). congruence.
Qed.

Lemma inv_reachable n wt progs s :
  1 ≤ n ≤ 255 → reachable n wt progs s → inv (Z.to_nat n) progs s.
Proof.
  intros Hn (s0 & H0 & Hr). apply inv_create in H0; [|done].
  induction Hr as [|s0 s1 s2 [c Hc] _ IH]; [done|]. apply IH. by eapply inv_step.
Qed.
