(* ===== verification/ThreadPoolRun.v ===== *)
(** * ThreadPoolRun: a run of the pool in which the shutdown comes first

    For a pool of any size and any tasks: the threads are created, the producers make
    all their submissions, the client shuts the pool down, and only then do those
    workers that the client joins take the mutex for the first time.  These are the
    workers below the number of threads modulo 256. *)

From Stdlib Require Import ssreflect.
From stdpp Require Import list relations.
From S2P Require Import Prelude ThreadPool.

Open Scope Z_scope.

Lemma rtc_exec c s s' s'' : exec c s = Next s' → rtc step s' s'' → rtc step s s''.
Proof. intros H. apply rtc_l. by exists c. Qed.

(** Lists filled from the left. *)
Definition filled {A} (k n : nat) (x y : A) : list A := replicate k x ++ replicate n y.

Lemma filled_lookup {A} k n (x y : A) : filled k (S n) x y !! k = Some y.
Proof. unfold filled. rw lookup_app_r ?length_replicate //. by rw Nat.sub_diag. Qed.

Lemma filled_insert {A} k n (x y : A) : <[k := x]> (filled k (S n) x y) = filled (S k) n x y.
Proof.
  unfold filled. by rw (replicate_S_end k) -app_assoc insert_app_r_alt ?length_replicate // Nat.sub_diag.
Qed.

(** The thread that moves is the one that has just been replaced. *)
Ltac here := cbn; rw list_lookup_insert_eq //; cbn; unfold set_producer, set_worker; cbn.

Section run.
Context (n : Z) (wt : bool) (progs : list (list task)) (Hn : 1 ≤ n).
Let N : nat := Z.to_nat n.
Let K : nat := Z.to_nat (u8 n).

Lemma joined_bound : u8 n = Z.of_nat K ∧ (K ≤ N)%nat.
Proof.
  unfold K, N, u8. pose proof (Z.mod_pos_bound n (2 ^ 8) ltac:(done)).
  pose proof (Z.mod_le n (2 ^ 8) ltac:(lia) ltac:(done)). lia.
Qed.

Definition at_start : st :=
  St (Pool [] None (u8 n) false) true N [] (CCreate 0) wt (Prod PNext <$> progs) (History [] [] [] []).

(** The pool while the producers submit: [q] are the queued tasks, [acc] the log. *)
Definition submitting (q : list task) (acc : list (nat * task)) (ps : list producer) : st :=
  St (Pool q None (u8 n) false) true N (replicate N WLock) CNext wt ps (History acc [] [] []).

(** The pool during the shutdown. *)
Definition closing (q : list task) (acc : list (nat * task)) ps (o : option thread) b ws c : st :=
  St (Pool q o (u8 n) b) true N ws c wt ps (History acc [] [] []).

Lemma run_create k s : (k ≤ N)%nat →
  rtc step (submitting [] [] (Prod PNext <$> progs)) s →
  rtc step (set_workers (replicate k WLock) (set_client (CCreate k) at_start)) s.
Proof.
  intros Hk Hs. remember (N - k)%nat as j eqn:Hj. revert k Hk Hj.
  induction j as [|j IH]; intros k Hk Hj.
  - assert (k = N) as -> by lia.
    apply (rtc_exec ChClient _ (submitting [] [] (Prod PNext <$> progs))); [|done].
    cbn. rw bool_decide_eq_false_2 //. lia.
  - apply (rtc_exec ChClient _ (set_workers (replicate (S k) WLock) (set_client (CCreate (S k)) at_start)));
      [|apply IH; lia].
    rw (replicate_S_end k). cbn. rw bool_decide_eq_true_2 //. lia.
Qed.

Lemma none_waiting k : existsb is_waiting (replicate k WLock) = false.
Proof. by induction k. Qed.

Lemma run_submit ps i t ts q acc s :
  ps !! i = Some (Prod PNext (t :: ts)) → task_ok t = true →
  rtc step (submitting (q ++ [t]) (acc ++ [(i, t)]) (<[i := Prod PNext ts]> ps)) s →
  rtc step (submitting q acc ps) s.
Proof.
  intros Hi Ht Hs. assert (i < length ps)%nat as Hlt by by eapply lookup_lt_Some.
  pose (at_pc q acc o a := St (Pool q o (u8 n) false) true N (replicate N WLock) CNext wt
    (<[i := Prod a ts]> ps) (History acc [] [] [])).
  apply (rtc_exec (ChProducer i true 0) _ (at_pc q acc None (PLock t))); [by cbn; rw Hi; cbn; rw Ht|].
  apply (rtc_exec (ChProducer i true 0) _ (at_pc q acc (Some (Producer i)) (PLink t)));
    [by here; rw list_insert_insert_eq|].
  apply (rtc_exec (ChProducer i true 0) _ (at_pc (q ++ [t]) (acc ++ [(i, t)]) (Some (Producer i)) PSignal));
    [by here; rw list_insert_insert_eq|].
  apply (rtc_exec (ChProducer i true 0) _ (at_pc (q ++ [t]) (acc ++ [(i, t)]) (Some (Producer i)) PUnlock));
    [by here; rw none_waiting; cbn; rw list_insert_insert_eq|].
  apply (rtc_exec (ChProducer i true 0) _ (submitting (q ++ [t]) (acc ++ [(i, t)]) (<[i := Prod PNext ts]> ps)));
    [by here; rw list_insert_insert_eq|done].
Qed.

Lemma run_producer ps i ts q acc s :
  ps !! i = Some (Prod PNext ts) → forallb task_ok ts = true →
  rtc step (submitting (q ++ ts) (acc ++ map (pair i) ts) (<[i := Prod PNext []]> ps)) s →
  rtc step (submitting q acc ps) s.
Proof.
  revert ps q acc. induction ts as [|t ts IH]; intros ps q acc Hi Hts Hs; simpl in *.
  - by rw list_insert_id // !app_nil_r in Hs.
  - apply andb_true_iff in Hts as [Ht Hts]. apply (run_submit ps i t ts); [done..|].
    apply IH; [by apply list_lookup_insert_eq; eapply lookup_lt_Some|done|].
    by rw list_insert_insert_eq -!app_assoc.
Qed.

(** The producers before [done] have made all their submissions. *)
Definition rested (k : nat) (todo : list (list task)) : list producer :=
  replicate k (Prod PNext []) ++ (Prod PNext <$> todo).

(** The log: each producer's tasks, one producer after the other. *)
Fixpoint log_from (k : nat) (todo : list (list task)) : list (nat * task) :=
  match todo with [] => [] | ts :: todo => map (pair k) ts ++ log_from (S k) todo end.

Lemma log_from_tasks k todo : snd <$> log_from k todo = concat todo.
Proof.
  revert k. induction todo as [|ts todo IH]; intros k; [done|]. simpl.
  rw fmap_app IH. f_equal. rw -list_fmap_compose. apply list_fmap_id.
Qed.

Lemma run_producers k todo q acc s :
  forallb (forallb task_ok) todo = true →
  rtc step (submitting (q ++ concat todo) (acc ++ log_from k todo) (rested (k + length todo) [])) s →
  rtc step (submitting q acc (rested k todo)) s.
Proof.
  revert k q acc. induction todo as [|ts todo IH]; intros k q acc Hok Hs; simpl in *.
  { by rw !app_nil_r Nat.add_0_r in Hs. }
  apply andb_true_iff in Hok as [Hts Hok].
  apply (run_producer _ k ts); [|done|].
  { unfold rested. rw lookup_app_r ?length_replicate //. by rw Nat.sub_diag. }
  replace (<[k := Prod PNext []]> (rested k (ts :: todo))) with (rested (S k) todo).
  - apply IH; [done|]. by rw -!app_assoc Nat.add_succ_comm.
  - unfold rested. by rw (replicate_S_end k) -app_assoc insert_app_r_alt ?length_replicate // Nat.sub_diag.
Qed.

Lemma rested_resting k : forallb resting (rested k []) = true.
Proof. unfold rested. rw /= app_nil_r. by induction k. Qed.

Lemma wake_replicate k : wake <$> replicate k WLock = replicate k WLock.
Proof. by rw fmap_replicate. Qed.

Lemma run_shutdown k q acc s :
  rtc step (closing q acc (rested k []) None true (replicate N WLock) (SJoin 0)) s →
  rtc step (submitting q acc (rested k [])) s.
Proof.
  intros Hs. pose (st o b c := closing q acc (rested k []) o b (replicate N WLock) c).
  apply (rtc_exec ChClient _ (st None false SLock)).
  { cbn. rw rested_resting. by destruct wt. }
  apply (rtc_exec ChClient _ (st (Some Client) false SSet)); [done|].
  apply (rtc_exec ChClient _ (st (Some Client) true SBroadcast)); [done|].
  apply (rtc_exec ChClient _ (st (Some Client) true SUnlock)); [by cbn; rw wake_replicate|].
  by apply (rtc_exec ChClient _ (st None true (SJoin 0))).
Qed.

(** Every worker sees [b_shutdown] at once, whatever the queue holds. *)
Lemma run_workers k m j q acc ps s :
  rtc step (closing q acc ps None true (filled (k + m) j WDone WLock) (SJoin 0)) s →
  rtc step (closing q acc ps None true (filled k (m + j) WDone WLock) (SJoin 0)) s.
Proof.
  revert k. induction m as [|m IH]; intros k Hs; simpl in *.
  { by rw Nat.add_0_r in Hs. }
  assert (k < length (filled k (S (m + j)) WDone WLock))%nat as Hlt
    by (eapply lookup_lt_Some, filled_lookup).
  pose (st o pc := closing q acc ps o true (<[k := pc]> (filled k (S (m + j)) WDone WLock)) (SJoin 0)).
  apply (rtc_exec (ChWorker k) _ (st (Some (Worker k)) WCheck)); [by cbn; rw filled_lookup|].
  apply (rtc_exec (ChWorker k) _ (st (Some (Worker k)) WExit)).
  { here. rw andb_false_r. cbn. by rw list_insert_insert_eq. }
  apply (rtc_exec (ChWorker k) _ (st None WDone)).
  { here. by rw list_insert_insert_eq. }
  unfold st. rw filled_insert. apply IH. by rw Nat.add_succ_comm.
Qed.

(** The workers that are joined have returned; the others have not taken the mutex yet. *)
Definition left_alone : list wpc := filled K (N - K) WDone WLock.

Lemma run_joins k q acc ps s : (k ≤ K)%nat →
  rtc step (closing q acc ps None true left_alone SFree) s →
  rtc step (closing q acc ps None true left_alone (SJoin k)) s.
Proof.
  intros Hk Hs. pose proof joined_bound as [HK _].
  remember (K - k)%nat as j eqn:Hj. revert k Hk Hj. induction j as [|j IH]; intros k Hk Hj.
  - apply (rtc_exec ChClient _ (closing q acc ps None true left_alone SFree)); [|done].
    cbn. rw HK (proj2 (Z.ltb_ge _ _)) //. lia.
  - apply (rtc_exec ChClient _ (closing q acc ps None true left_alone (SJoin (S k)))).
    + cbn. rw HK (proj2 (Z.ltb_lt _ _)); [lia|]. unfold left_alone, filled.
      by rw lookup_app_l ?length_replicate; [lia|]; rw lookup_replicate_2; [lia|].
    + apply IH; lia.
Qed.

(** The state that the run ends in. *)
Definition all_dropped (acc : list (nat * task)) : st :=
  St (Pool [] None (u8 n) true) false N left_alone CDone wt (rested (length progs) [])
     (History acc [] [] (concat progs)).

Lemma run_all_dropped : forallb (forallb task_ok) progs = true →
  rtc step at_start (all_dropped (log_from 0 progs)).
Proof.
  intros Hok. apply (run_create 0); [lia|]. apply (run_producers 0 progs [] []); [done|].
  apply run_shutdown. pose proof joined_bound as [_ HK].
  replace (replicate N WLock) with (filled 0 (K + (N - K)) WDone WLock)
    by (unfold filled; simpl; f_equal; lia).
  apply run_workers, (run_joins 0); [lia|].
  apply (rtc_exec ChClient _ (all_dropped (log_from 0 progs))); [done|constructor].
Qed.

Lemma all_dropped_reachable :
  forallb (forallb task_ok) progs = true → reachable n wt progs (all_dropped (log_from 0 progs)).
Proof.
  intros Hok. exists at_start. split; [|by apply run_all_dropped].
  unfold tpool_create. by rw (proj2 (Z.ltb_ge n 1)); [lia|].
Qed.

Lemma left_alone_length : length left_alone = N.
Proof.
  unfold left_alone, filled. rw length_app !length_replicate. pose proof joined_bound as [_ HK]. lia.
Qed.

Lemma left_alone_joined k : Z.of_nat k < n mod 256 → left_alone !! k = Some WDone.
Proof.
  intros Hk. pose proof joined_bound as [HK _]. unfold u8 in HK. change (2 ^ 8) with 256 in HK.
  unfold left_alone, filled. rw lookup_app_l ?length_replicate; [lia|]. apply lookup_replicate_2. lia.
Qed.

Lemma left_alone_lookup k : n mod 256 ≤ Z.of_nat k < n → left_alone !! k = Some WLock.
Proof.
  intros Hk. pose proof joined_bound as [HK _]. unfold u8 in HK. change (2 ^ 8) with 256 in HK.
  unfold left_alone, filled. rw lookup_app_r ?length_replicate; [lia|].
  apply lookup_replicate_2. unfold N. lia.
Qed.
End run.
