(* ===== verification/ThreadPoolProps.v ===== *)
(** * ThreadPoolProps: what the thread pool guarantees *)

From stdpp Require Import list relations.
From S2P Require Import Prelude ThreadPool ThreadPoolInv ThreadPoolLive ThreadPoolRun.

Open Scope Z_scope.

(** A pool of one thread and two producers with one task each. *)
Definition progs_ex : list (list task) := [[Task 7 8]; [Task 9 10]].
Definition client_moves_ex (k : nat) : list choice := replicate k ChClient.
Definition worker_moves_ex (k : nat) : list choice := replicate k (ChWorker 0).
Definition producer_moves_ex (i k : nat) : list choice := replicate k (ChProducer i true 0).

Lemma exec_all_rtc cs s s' : exec_all cs s = Next s' → rtc step s s'.
Proof.
  revert s. induction cs as [|c cs IH]; simpl; intros s H; [injection H as ->; constructor|].
  destruct (exec c s) as [| |s1] eqn:E; [by apply IH|done|].
  eapply rtc_l; [|by apply IH]. by exists c.
Qed.

Definition state_of (o : outcome) (s : st) : st := match o with Next s' => s' | _ => s end.

(** The state after a schedule that does not crash. *)
Definition after (cs : list choice) (s : st) : st := state_of (exec_all cs s) s.

Lemma after_rtc cs s :
  match exec_all cs s with Next _ => true | _ => false end = true → rtc step s (after cs s).
Proof.
  unfold after. destruct (exec_all cs s) eqn:E; [done..|]. intros _. by apply (exec_all_rtc cs).
Qed.

(** The thread has been created, the first producer has submitted its task and the second
    one is in its critical section. *)
Definition submitted_ex : st :=
  after (client_moves_ex 2 ++ producer_moves_ex 0 5) (at_start 1 true progs_ex).
Definition linking_ex : st := after (producer_moves_ex 1 3) submitted_ex.

Lemma submitted_ex_reachable : reachable 1 true progs_ex submitted_ex.
Proof.
  exists (at_start 1 true progs_ex). split; [reflexivity|]. apply after_rtc. vm_compute. reflexivity.
Qed.

Lemma linking_ex_reachable : reachable 1 true progs_ex linking_ex.
Proof.
  destruct submitted_ex_reachable as (s & Hs & Hr). exists s. split; [done|].
  etrans; [exact Hr|]. apply after_rtc. vm_compute. reflexivity.
Qed.

(** C17: no schedule of a pool of 1 to 255 threads, with any number of producers, spurious
    wakeups and failures of [pthread_create], makes a thread use the pool after it has been
    freed, except a producer whose calls of [tpool_enqueue] the client has not
    waited for; the only other crash is that [tpool_shutdown] joins a thread that could not
    be created.  [tpool_shutdown] frees the pool when every worker has returned. *)
Theorem tpool_no_use_after_free n wt progs s :
  1 ≤ n ≤ 255 → reachable n wt progs s →
  (∀ c, exec c s = Crash →
     (wt = false ∧ ∃ i ok j, c = ChProducer i ok j) ∨ (c = ChClient ∧ joins_none s)) ∧
  (alive s = false → length (workers s) = Z.to_nat n ∧ Forall (eq WDone) (workers s)).
Proof.
  intros Hn Hr. pose proof (inv_reachable n wt progs s Hn Hr) as I.
  rewrite <-(waits_reachable n wt progs s Hr). split; [intros c; by eapply inv_crash|].
  intros Hal. destruct (decide (client s = CDone)) as [Ec|Ec].
  - split.
    + destruct I as [<- _ _ [Hl _] _ _ _ _ _ _ _]. unfold created in Hl. by rewrite Ec in Hl.
    + apply Forall_forall. intros pc Hpc. apply list_elem_of_lookup in Hpc as [i Hi].
      symmetry. by eapply inv_all_done.
  - apply (inv_alive _ _ _ I) in Ec. congruence.
Qed.

Lemma tpool_no_use_after_free_witness :
  match exec (ChProducer 1 true 0) submitted_ex with Crash => False | _ => True end.
Proof.
  destruct (exec (ChProducer 1 true 0) submitted_ex) eqn:H; [done| |done].
  destruct (tpool_no_use_after_free 1 true progs_ex submitted_ex) as [Hc _].
  - split; [discriminate|discriminate].
  - exact submitted_ex_reachable.
  - destruct (Hc _ H) as [[E _]|[E _]]; discriminate.
Defined.

(** C18: the threads exclude each other: at most one is between its lock and its
    unlock of the queue mutex, and it is the owner of the mutex. *)
Theorem tpool_mutual_exclusion n wt progs s th th' :
  1 ≤ n ≤ 255 → reachable n wt progs s →
  critical s th = true → critical s th' = true →
  th = th' ∧ p_queue_mutex (pool s) = Some th.
Proof.
  intros Hn Hr H H'. pose proof (inv_has_mutex _ _ _ (inv_reachable n wt progs s Hn Hr)) as I.
  rewrite I in H, H'. zbool. by simplify_eq.
Qed.

Lemma tpool_mutual_exclusion_witness : p_queue_mutex (pool linking_ex) = Some (Producer 1).
Proof.
  apply (tpool_mutual_exclusion 1 true progs_ex linking_ex (Producer 1) (Producer 1)).
  - split; [discriminate|discriminate].
  - exact linking_ex_reachable.
  - reflexivity.
  - reflexivity.
Defined.

(** C19: no task is lost or run twice.  The accepted tasks of each producer are a
    subsequence of what it submits; as long as the pool exists the accepted tasks are the
    started ones followed by the queue, in the order in which they were linked
    (first-in first-out); every started task is in the hands of exactly one
    worker or finished; at the end every started task is finished and the others
    were dropped. *)
Theorem tpool_accounting n wt progs s :
  1 ≤ n ≤ 255 → reachable n wt progs s →
  let h := hist s in
  (∀ i, accepted_by i (accepted h) `sublist_of` default [] (progs !! i)) ∧
  started h ≡ₚ omap in_hand (workers s) ++ finished h ∧
  (alive s = true → snd <$> accepted h = started h ++ p_task_queue (pool s)) ∧
  (terminated s → snd <$> accepted h = started h ++ dropped h ∧ finished h ≡ₚ started h).
Proof.
  intros Hn Hr h. pose proof (inv_reachable n wt progs s Hn Hr) as I.
  pose proof (inv_has_tasks _ _ _ I) as [I1 I2 I3 I4 I5 I6]. fold h in I1, I2, I3, I5, I6.
  split_and!.
  - intros i. by eapply accepted_by_sublist.
  - done.
  - intros Hal. by rewrite I1, I3.
  - intros (Hc & Hw & _). split.
    + rewrite I1, I4, app_nil_r; [done|]. destruct (inv_has_shutdown _ _ _ I) as [_ ->].
      by rewrite Hc.
    + rewrite I2. replace (omap in_hand (workers s)) with (@nil task); [done|].
      clear -Hw. induction Hw as [|pc ws <- _ IH]; [done|]. by csimpl.
Qed.

Lemma tpool_accounting_witness :
  snd <$> accepted (hist submitted_ex) =
  started (hist submitted_ex) ++ p_task_queue (pool submitted_ex).
Proof.
  apply (tpool_accounting 1 true progs_ex submitted_ex).
  - split; [discriminate|discriminate].
  - exact submitted_ex_reachable.
  - reflexivity.
Defined.

(** C20: the pool cannot deadlock and every run comes to its end: when the client
    waits for the producers, in a reachable state either the client, all workers
    and all producers have returned, or some thread can make a move other than a
    spurious wakeup, or the client is about to join a thread that could not be
    created; and in any case the number [k] of such moves in a run with [j]
    spurious wakeups is at most [measure s + 3 * j]. *)
Theorem tpool_terminates n wt progs s :
  1 ≤ n ≤ 255 → reachable n wt progs s →
  (wt = true →
     terminated s ∨ (∃ c s', exec c s = Next s' ∧ spurious c = false) ∨ joins_none s) ∧
  (∀ k j s', moves k j s s' → (k ≤ measure s + 3 * j)%nat).
Proof.
  intros Hn Hr. pose proof (inv_reachable n wt progs s Hn Hr) as I.
  rewrite <-(waits_reachable n wt progs s Hr). split.
  - by eapply progress.
  - intros k j s' Hm. pose proof (moves_bound _ _ _ _ _ _ I Hm). lia.
Qed.

Lemma tpool_terminates_witness :
  terminated submitted_ex ∨ (∃ c s', exec c submitted_ex = Next s' ∧ spurious c = false) ∨
  joins_none submitted_ex.
Proof.
  apply (tpool_terminates 1 true progs_ex submitted_ex).
  - split; [discriminate|discriminate].
  - exact submitted_ex_reachable.
  - reflexivity.
Defined.

(** C21: no wakeup is lost before the shutdown: in a pool of 1 to 255 threads, as long as a
    task is queued, the pool is not shutting down, at least one worker exists (not every
    [pthread_create] so far has failed) and no producer or client is in its critical section,
    some worker can move without any help of the others. *)
Theorem tpool_no_lost_wakeup n wt progs s :
  1 ≤ n ≤ 255 → reachable n wt progs s →
  p_task_queue (pool s) ≠ [] → b_shutdown (pool s) = false → some_worker (workers s) →
  (∀ th, critical s th = true → ∃ i, th = Worker i) →
  ∃ i s', exec (ChWorker i) s = Next s'.
Proof. intros Hn Hr. eapply workers_progress. by eapply inv_reachable. Qed.

Lemma tpool_no_lost_wakeup_witness : ∃ i s', exec (ChWorker i) submitted_ex = Next s'.
Proof.
  apply (tpool_no_lost_wakeup 1 true progs_ex submitted_ex).
  - split; [discriminate|discriminate].
  - exact submitted_ex_reachable.
  - discriminate.
  - reflexivity.
  - exists 0%nat, WLock. split; [reflexivity|discriminate].
  - intros [|i|[|[|i]]] H; [discriminate|by exists i|discriminate..].
Defined.

(** C24: [tpool_shutdown] does not wait for the queued tasks: whatever tasks the producers
    submit to a pool of 1 to 255 threads, and whether the client waits for the producers or
    not, there is a run in which every call of [tpool_enqueue] has accepted its task, and that
    ends with all of them dropped in the order of their submission and none started. *)
Theorem tpool_shutdown_drops_tasks n wt progs :
  1 ≤ n ≤ 255 → forallb (forallb task_ok) progs = true →
  ∃ s, reachable n wt progs s ∧ terminated s ∧
       snd <$> accepted (hist s) = concat progs ∧ started (hist s) = [] ∧
       finished (hist s) = [] ∧ dropped (hist s) = concat progs.
Proof.
  intros Hn Hok. exists (all_dropped n wt progs (log_from 0 progs)). split.
  - apply all_dropped_reachable; [lia|done].
  - split; [|split; [apply log_from_tasks|done]]. split_and!; [done| |apply rested_resting].
    assert (u8 n = n) as Hu by (apply u8_small; lia). unfold all_dropped, left_alone, filled.
    simpl. rewrite Hu, Nat.sub_diag, app_nil_r. by apply Forall_replicate.
Qed.

Lemma tpool_shutdown_drops_tasks_witness :
  ∃ s, reachable 1 true progs_ex s ∧ terminated s ∧ finished (hist s) = [] ∧
       dropped (hist s) = [Task 7 8; Task 9 10].
Proof.
  destruct (tpool_shutdown_drops_tasks 1 true progs_ex) as (s & Hr & Ht & _ & _ & Hf & Hd);
    [lia|reflexivity|]. exists s. split; [exact Hr|]. split; [exact Ht|]. split; [exact Hf|exact Hd].
Defined.

(** The client has to wait for the producers: a producer that is still in
    [tpool_enqueue] when [tpool_shutdown] returns locks a mutex of the freed pool. *)
Theorem tpool_late_enqueue_crashes :
  ∃ s, reachable 1 false progs_ex s ∧ client s = CDone ∧ exec (ChProducer 0 true 0) s = Crash.
Proof.
  set (cs := client_moves_ex 2 ++ producer_moves_ex 0 1 ++ client_moves_ex 5 ++
             worker_moves_ex 3 ++ client_moves_ex 4).
  exists (after cs (at_start 1 false progs_ex)).
  split; [|vm_compute; repeat constructor].
  exists (at_start 1 false progs_ex). split; [reflexivity|]. apply after_rtc. vm_compute. reflexivity.
Qed.

(** The number of threads is truncated to 8 bits in the pool but not in the
    loop that creates the threads: when there are more than 255, in a run without any failure
    [tpool_shutdown] joins the first ones only, as many as the remainder modulo 256, and frees
    the pool under the others, each of which then locks a mutex in the freed object. *)
Theorem tpool_many_threads n wt progs :
  255 < n → forallb (forallb task_ok) progs = true →
  ∃ s, reachable n wt progs s ∧ client s = CDone ∧ alive s = false ∧
       forallb resting (producers s) = true ∧
       ∀ k, n mod 256 ≤ Z.of_nat k < n → exec (ChWorker k) s = Crash.
Proof.
  intros Hn Hok. exists (all_dropped n wt progs (log_from 0 progs)).
  split; [apply all_dropped_reachable; [lia|done]|]. split; [done|]. split; [done|].
  split; [apply rested_resting|]. intros k Hk. simpl.
  rewrite (left_alone_lookup n ltac:(lia) k Hk). done.
Qed.

Lemma tpool_many_threads_witness :
  ∃ s, reachable 300 true progs_ex s ∧ alive s = false ∧ exec (ChWorker 44) s = Crash.
Proof.
  destruct (tpool_many_threads 300 true progs_ex) as (s & Hr & _ & Ha & _ & H); [lia|reflexivity|].
  exists s. split; [exact Hr|]. split; [exact Ha|]. apply H. split; [discriminate|reflexivity].
Defined.

(** [tpool_create] returns a pool exactly when at least one thread is asked for
    and both allocations succeed. *)
Theorem tpool_create_result n ok_pool ok_workers wt progs :
  (∃ s, tpool_create n ok_pool ok_workers wt progs = Some s) ↔
  1 ≤ n ∧ ok_pool = true ∧ ok_workers = true.
Proof.
  unfold tpool_create. split.
  - intros [s H]. repeat case_match; simplify_eq; zbool. auto with lia.
  - intros (Hn & -> & ->). rewrite (proj2 (Z.ltb_ge _ _)) by lia. eauto.
Qed.
