(* ===== verification/PoolHeap.v ===== *)
(** * PoolHeap: the memory of thread_pool/thread_pool_lib.c

    The file ThreadPool treats the queue of tasks as a list.  Here the parts of the
    functions of the library between two synchronisations run over the store, node by
    node: the allocation of a pool, the array of its threads, a new task and its link into the
    queue, what a worker does with the mutex held and without it, the release of a
    pool.  The file PoolConc lets the threads run them.  Condition variables have no
    effect on the memory. *)

From iris.proofmode Require Import environments proofmode.
From stdpp Require Import gmap strings.
From S2P Require Import Prelude HProp Mem Chain ThreadPool.

Open Scope Z_scope.

(** ** Structs *)

Record task_t := TaskT { t_function : ptr; t_next : ptr; t_argument : ptr }.
Record tpool_t := TPool {
  p_workers : ptr; p_tasks : ptr; p_mutex : mutex; p_num_workers : Z; p_shutdown : bool
}.
(** The array of [pthread_t]; None: no thread has been stored there. *)
Record threads_t := Threads { thread_ids : list (option nat) }.

(** The cells of this heap; [PPtr] is a variable of type [tpool_t *]. *)
Inductive pcell := PTask (t : task_t) | PPool (p : tpool_t) | PThreads (a : threads_t) | PPtr (p : ptr).

#[export] Instance task_struct : Struct pcell task_t.
Proof. refine {| as_cell := PTask; of_cell c := match c with PTask t => Some t | _ => None end |}. done. Defined.
#[export] Instance tpool_struct : Struct pcell tpool_t.
Proof. refine {| as_cell := PPool; of_cell c := match c with PPool p => Some p | _ => None end |}. done. Defined.
#[export] Instance threads_struct : Struct pcell threads_t.
Proof. refine {| as_cell := PThreads; of_cell c := match c with PThreads a => Some a | _ => None end |}. done. Defined.
#[export] Instance pptr_struct : Struct pcell ptr.
Proof. refine {| as_cell := PPtr; of_cell c := match c with PPtr p => Some p | _ => None end |}. done. Defined.

Definition zero_task : task_t := TaskT NULL NULL NULL.
Definition zero_pool : tpool_t := TPool NULL NULL MutexNone 0 false.

Definition set_t_function v t := TaskT v (t_next t) (t_argument t).
Definition set_t_next v t := TaskT (t_function t) v (t_argument t).
Definition set_t_argument v t := TaskT (t_function t) (t_next t) v.
Definition set_p_workers v p := TPool v (p_tasks p) (p_mutex p) (p_num_workers p) (p_shutdown p).
Definition set_p_tasks v p := TPool (p_workers p) v (p_mutex p) (p_num_workers p) (p_shutdown p).
Definition set_p_mutex v p := TPool (p_workers p) (p_tasks p) v (p_num_workers p) (p_shutdown p).
Definition set_p_num_workers v p := TPool (p_workers p) (p_tasks p) (p_mutex p) v (p_shutdown p).
Definition set_p_shutdown v p := TPool (p_workers p) (p_tasks p) (p_mutex p) (p_num_workers p) v.
#[global] Arguments set_t_function _ !_ /.
#[global] Arguments set_t_next _ !_ /.
#[global] Arguments set_t_argument _ !_ /.
#[global] Arguments set_p_workers _ !_ /.
#[global] Arguments set_p_tasks _ !_ /.
#[global] Arguments set_p_mutex _ !_ /.
#[global] Arguments set_p_num_workers _ !_ /.
#[global] Arguments set_p_shutdown _ !_ /.

Abbreviation pprog := (M pcell).

Definition lock_pool : ptr → pprog () := mutex_lock p_mutex set_p_mutex.
Definition unlock_pool : ptr → pprog () := mutex_unlock p_mutex set_p_mutex.
Definition report (msg : string) : pprog () := perror msg;; set_errno 0.

(** ** Creation *)

(** [tpool_create] up to the loop that creates the threads; NULL: it has failed. *)
Definition alloc_pool (n : Z) : pprog ptr :=
  if n <? 1 then mret NULL else
  p_tpool ← calloc_struct zero_pool;
  if p_tpool =? NULL then report "tpool create calloc";; mret p_tpool else
  set (set_p_num_workers (u8 n)) p_tpool;;
  workers ← calloc_struct (Threads (replicate (Z.to_nat n) None)); set (set_p_workers workers) p_tpool;;
  workers ← get p_workers p_tpool;
  if workers =? NULL then
    report "tpool create worker threads calloc";; free p_tpool;; mret NULL
  else mutex_init set_p_mutex p_tpool;; mret p_tpool.

(** [pthread_create(&p_tpool->p_workers[i], ..)] stores the thread that it creates. *)
Definition store_thread (p_tpool : ptr) (i : nat) : pprog () :=
  p_workers ← get p_workers p_tpool; ids ← get thread_ids p_workers;
  if (i <? length ids)%nat then set (λ a, Threads (<[i := Some i]> (thread_ids a))) p_workers
  else fail (BadAccess p_workers).

(** [p_tpool->p_workers[i]] *)
Definition read_thread (p_tpool : ptr) (i : nat) : pprog (option nat) :=
  p_workers ← get p_workers p_tpool; ids ← get thread_ids p_workers;
  match ids !! i with Some id => mret id | None => fail (BadAccess p_workers) end.

(** ** Tasks *)

(** [while (p_current_task->p_next) p_current_task = p_current_task->p_next;] *)
Definition last_task : nat → ptr → pprog ptr := walk_last t_next.

(** What [tpool_enqueue] does with the mutex held. *)
Definition link_task (p_tpool p_new_task : ptr) : pprog () :=
  q ← get p_tasks p_tpool;
  if q =? NULL then set (set_p_tasks p_new_task) p_tpool
  else
    p_current_task ← get p_tasks p_tpool;
    fuel ← heap_fuel;
    p_current_task ← last_task fuel p_current_task;
    set (set_t_next p_new_task) p_current_task.

(** [tpool_enqueue] up to the lock; NULL: it returns. *)
Definition new_task (p_task arg : ptr) : pprog ptr :=
  p_new_task ← calloc_struct zero_task;
  if p_new_task =? NULL then report "tpool enqueue new task calloc";; mret NULL else
  set (set_t_function p_task) p_new_task;;
  set (set_t_argument arg) p_new_task;;
  mret p_new_task.

(** [pthread_cond_wait], [pthread_cond_signal] and [pthread_cond_broadcast] on the pool's
    variable need the pool object. *)
Definition use_condition (p_tpool : ptr) : pprog () := _ ← get p_mutex p_tpool; mret ().

(** ** Workers *)

(** What a worker that holds the mutex finds: it waits, it returns, there is no task, or it
    takes one. *)
Inductive verdict := VWait | VExit | VSkip | VTake (p_task : ptr).

Definition worker_check (p_tpool : ptr) : pprog verdict :=
  q ← get p_tasks p_tpool; shutdown ← get p_shutdown p_tpool;
  if (q =? NULL) && negb shutdown then mret VWait else
  shutdown ← get p_shutdown p_tpool;
  if (shutdown : bool) then mret VExit else
  p_task ← get p_tasks p_tpool;
  if p_task =? NULL then mret VSkip else
  nx ← get t_next p_task; set (set_p_tasks nx) p_tpool;;
  mret (VTake p_task).

Definition call_task (p_task : ptr) : pprog () :=
  f ← get t_function p_task; a ← get t_argument p_task; call_user f [a].

(** ** Shutdown *)

Fixpoint free_tasks (fuel : nat) (p_current_task : ptr) : pprog () :=
  match fuel with
  | O => fail OutOfFuel
  | S fuel =>
    if p_current_task =? NULL then mret () else
    p_next_task ← get t_next p_current_task;
    free p_current_task;; free_tasks fuel p_next_task
  end.

Definition deref (pp : ptr) : pprog ptr := get (λ p : ptr, p) pp.

(** The tests of [tpool_shutdown] on its argument. *)
Definition given_pool (pp_tpool : ptr) : pprog bool :=
  if pp_tpool =? NULL then mret false else p ← deref pp_tpool; mret (negb (p =? NULL)).

(** The next thread to join, if there is one. *)
Definition next_join (pp_tpool : ptr) (i : nat) : pprog (option (option nat)) :=
  p ← deref pp_tpool; n ← get p_num_workers p;
  if Z.of_nat i <? n then p ← deref pp_tpool; id ← read_thread p i; mret (Some id)
  else mret None.

(** [tpool_shutdown] after it has joined the threads. *)
Definition release (pp_tpool : ptr) : pprog () :=
  p ← deref pp_tpool; workers ← get p_workers p; free workers;;
  p ← deref pp_tpool; p_current_task ← get p_tasks p;
  fuel ← heap_fuel; free_tasks fuel p_current_task;;
  p ← deref pp_tpool; free p;;
  set (λ _ : ptr, NULL) pp_tpool.

(** ** The same on lists *)

Definition report_world (msg : string) (w : world) : world :=
  errno_world 0 (emit_world (EvPerror msg) w).

Definition create_spec (n : Z) (w : world) : bool * world :=
  if n <? 1 then (false, w) else
  let w1 := calloc_world w in
  if negb (calloc_ok w) then (false, report_world "tpool create calloc" w1) else
  let w2 := calloc_world w1 in
  if negb (calloc_ok w1) then (false, report_world "tpool create worker threads calloc" w2)
  else (true, w2).

(** The calls of the tasks. *)
Definition task_calls (ts : list task) : list event :=
  (λ t, EvCall (p_function t) [argument t]) <$> ts.
