(* ===== verification/PoolHeapProps.v ===== *)
(** * PoolHeapProps: what the parts of the pool's functions do on its memory

    [pool_cell p ws n sd q mx] is a pool object at [p] with the queue [q], a list of
    tasks, whose array of threads is at [ws]: it holds [n] as the number of its threads, [sd]
    says whether it is shutting down, and [mx] is its mutex.  The file has one rule per
    part. *)

From iris.proofmode Require Import environments proofmode.
From stdpp Require Import gmap strings.
From S2P Require Import Prelude HProp Mem Chain ThreadPool PoolHeap.

Open Scope Z_scope.

Definition task_node (t : task) (nx : ptr) : task_t := TaskT (p_function t) nx (argument t).

Definition pool_cell (p ws n : Z) (sd : bool) (q : list task) (mx : mutex) : hPropI pcell :=
  (∃ hd, p ↦ as_cell (TPool ws hd mx n sd) ∗ chain task_node hd NULL q)%I.

Abbreviation pool_at p ws n q := (pool_cell p ws n false q MutexFree).

(** The tasks of a queue can be called. *)
Definition callable (q : list task) : Prop := Forall (λ t, p_function t ≠ NULL) q.

Lemma wp_report msg w (Q : () → world → hPropI pcell) :
  Q () (report_world msg w) ⊢ wp (report msg) w Q.
Proof.
  iIntros "HQ". unfold report, perror. wp_focus. iApply wp_emit. by iApply wp_set_errno.
Qed.

Lemma wp_alloc_pool n w (Q : ptr → world → hPropI pcell) :
  (∀ w', ⌜create_spec n w = (false, w')⌝ → Q NULL w') ∧
  (∀ w' p ws, ⌜create_spec n w = (true, w') ∧ p ≠ NULL⌝ →
     pool_at p ws (u8 n) [] -∗ ws ↦ as_cell (Threads (replicate (Z.to_nat n) None)) -∗ Q p w') ⊢
  wp (alloc_pool n) w Q.
Proof.
  iIntros "HQ". unfold alloc_pool, create_spec. destruct (n <? 1).
  { wp_return. iDestruct "HQ" as "[HQ _]". by iApply "HQ". }
  wp_focus. iApply wp_calloc_struct. destruct (calloc_ok w).
  2: { rw /=. wp_focus. iApply wp_report. wp_return. iDestruct "HQ" as "[HQ _]". by iApply "HQ". }
  iIntros (p) "Hp". not_null "Hp". wp_write "Hp".
  wp_focus. iApply wp_calloc_struct. destruct (calloc_ok (calloc_world w)).
  - iIntros (ws) "Hw". wp_write "Hp". wp_read "Hp". not_null "Hw".
    wp_focus. iApply (wp_mutex_init with "Hp"). iIntros "Hp". wp_return.
    iDestruct "HQ" as "[_ HQ]". iApply ("HQ" with "[] [Hp] Hw"); [done|].
    iExists NULL. iFrame. done.
  - wp_write "Hp". wp_read "Hp". rw /=. wp_focus. iApply wp_report. wp_dealloc "Hp". wp_return.
    iDestruct "HQ" as "[HQ _]". by iApply "HQ".
Qed.

Lemma wp_pool_lock p ws n sd q w (Q : () → world → hPropI pcell) :
  pool_cell p ws n sd q MutexFree -∗ (pool_cell p ws n sd q MutexHeld -∗ Q () w) -∗
  wp (lock_pool p) w Q.
Proof. iIntros "(%hd & Hp & Hc) HQ". wp_lock "Hp". iApply "HQ". iExists hd. iFrame. Qed.

Lemma wp_pool_unlock p ws n sd q w (Q : () → world → hPropI pcell) :
  pool_cell p ws n sd q MutexHeld -∗ (pool_cell p ws n sd q MutexFree -∗ Q () w) -∗
  wp (unlock_pool p) w Q.
Proof. iIntros "(%hd & Hp & Hc) HQ". wp_unlock "Hp". iApply "HQ". iExists hd. iFrame. Qed.

(** The new task becomes the last one. *)
Lemma wp_link_task p ws n sd q mx a t w (Q : () → world → hPropI pcell) :
  pool_cell p ws n sd q mx -∗ a ↦ as_cell (task_node t NULL) -∗
  (pool_cell p ws n sd (q ++ [t]) mx -∗ Q () w) -∗ wp (link_task p a) w Q.
Proof.
  iIntros "(%hd & Hp & Hc) Ha HQ". unfold link_task. wp_read "Hp".
  iDestruct (chain_head with "Hc") as %Hhd. destruct q as [|x q].
  - iDestruct "Hc" as %->. rw /=. wp_write "Hp". iApply "HQ". iExists a. iFrame. done.
  - destruct (hd =? NULL) eqn:E; zbool; [by apply Hhd in E|]. wp_read "Hp".
    wp_focus. iApply (wp_chain_fuel task_node hd NULL (x :: q) with "Hc").
    iIntros (fuel Hfuel) "Hc". wp_focus.
    iApply (wp_walk_last with "Hc"); [done|simpl in *; lia|]. iIntros (lst y) "Hl Hk".
    wp_write "Hl". iApply "HQ". iExists hd. iFrame. iApply ("Hk" with "Hl Ha").
Qed.

Lemma wp_new_task t w (Q : ptr → world → hPropI pcell) :
  (if calloc_ok w then ∀ a, ⌜a ≠ NULL⌝ → a ↦ as_cell (task_node t NULL) -∗ Q a (calloc_world w)
   else Q NULL (report_world "tpool enqueue new task calloc" (calloc_world w))) ⊢
  wp (new_task (p_function t) (argument t)) w Q.
Proof.
  iIntros "HQ". unfold new_task. wp_focus. iApply wp_calloc_struct. destruct (calloc_ok w).
  - iIntros (a) "Ha". not_null "Ha". wp_write "Ha". wp_write "Ha". wp_return. by iApply "HQ".
  - rw /=. wp_focus. iApply wp_report. by wp_return.
Qed.

(** What the worker finds is what the list says. *)
Lemma wp_worker_check p ws n sd q w (Q : verdict → world → hPropI pcell) :
  pool_cell p ws n sd q MutexHeld -∗
  (if bool_decide (q = []) && negb sd then pool_cell p ws n sd q MutexHeld -∗ Q VWait w
   else if sd then pool_cell p ws n sd q MutexHeld -∗ Q VExit w
   else match q with
        | [] => pool_cell p ws n sd q MutexHeld -∗ Q VSkip w
        | t :: q => ∀ a nx, a ↦ as_cell (task_node t nx) -∗ pool_cell p ws n sd q MutexHeld -∗
                    Q (VTake a) w
        end) -∗
  wp (worker_check p) w Q.
Proof.
  iIntros "(%hd & Hp & Hc) HQ". unfold worker_check. wp_read "Hp". wp_read "Hp".
  iDestruct (chain_head with "Hc") as %Hhd.
  assert ((hd =? NULL) = bool_decide (q = [])) as ->.
  { case_bool_decide as H; [apply Z.eqb_eq|apply Z.eqb_neq]; tauto. }
  destruct (bool_decide (q = []) && negb sd) eqn:E.
  { wp_return. iApply "HQ". iExists hd. iFrame. }
  wp_read "Hp". destruct sd.
  { wp_return. iApply "HQ". iExists hd. iFrame. }
  wp_read "Hp". destruct q as [|t q]; [done|]. iDestruct "Hc" as (nx) "[Hh Hc]". not_null "Hh".
  wp_read "Hh". wp_write "Hp". wp_return. iApply ("HQ" with "Hh"). iExists nx. iFrame.
Qed.

Lemma wp_call_task a t nx w (Q : () → world → hPropI pcell) :
  p_function t ≠ NULL → a ↦ as_cell (task_node t nx) -∗
  (a ↦ as_cell (task_node t nx) -∗ Q () (emits (task_calls [t]) w)) -∗ wp (call_task a) w Q.
Proof.
  iIntros (Ht) "Ha HQ". unfold call_task. wp_read "Ha". wp_read "Ha".
  iApply wp_call_user; [done|]. by iApply "HQ".
Qed.

Lemma wp_use_condition p ws n sd q mx w (Q : () → world → hPropI pcell) :
  pool_cell p ws n sd q mx -∗ (pool_cell p ws n sd q mx -∗ Q () w) -∗ wp (use_condition p) w Q.
Proof.
  iIntros "(%hd & Hp & Hc) HQ". unfold use_condition. wp_read "Hp". wp_return.
  iApply "HQ". iExists hd. iFrame.
Qed.

(** ** Threads *)

Lemma wp_store_thread p ws n sd q mx i ids w (Q : () → world → hPropI pcell) :
  (i < length ids)%nat →
  pool_cell p ws n sd q mx -∗ ws ↦ as_cell (Threads ids) -∗
  (pool_cell p ws n sd q mx -∗ ws ↦ as_cell (Threads (<[i := Some i]> ids)) -∗ Q () w) -∗
  wp (store_thread p i) w Q.
Proof.
  iIntros (Hi) "(%hd & Hp & Hc) Hw HQ". unfold store_thread. wp_read "Hp". wp_read "Hw".
  rw (proj2 (Nat.ltb_lt _ _) Hi). wp_write "Hw". iApply ("HQ" with "[Hp Hc] Hw"). iExists hd. iFrame.
Qed.

(** Joining: the number of threads is read, and the thread if there is one. *)
Lemma wp_next_join pp p ws n sd q mx i ids w (Q : option (option nat) → world → hPropI pcell) :
  n ≤ Z.of_nat (length ids) →
  pp ↦ as_cell (p : ptr) -∗ pool_cell p ws n sd q mx -∗ ws ↦ as_cell (Threads ids) -∗
  (pp ↦ as_cell (p : ptr) -∗ pool_cell p ws n sd q mx -∗ ws ↦ as_cell (Threads ids) -∗
     Q (if Z.of_nat i <? n then ids !! i else None) w) -∗
  wp (next_join pp i) w Q.
Proof.
  iIntros (Hn) "Hpp (%hd & Hp & Hc) Hw HQ". unfold next_join, deref. wp_read "Hpp". wp_read "Hp".
  case_test.
  - wp_read "Hpp". unfold read_thread. wp_focus. wp_read "Hp". wp_read "Hw".
    destruct (lookup_lt_is_Some_2 ids i) as [id Hid]; [lia|]. rw Hid. wp_return. wp_return.
    iApply ("HQ" with "Hpp [Hp Hc] Hw"). iExists hd. iFrame.
  - wp_return. iApply ("HQ" with "Hpp [Hp Hc] Hw"). iExists hd. iFrame.
Qed.

(** ** Release *)

Lemma wp_free_tasks fuel hd q w (Q : () → world → hPropI pcell) :
  (length q < fuel)%nat →
  chain task_node hd NULL q -∗ Q () w -∗ wp (free_tasks fuel hd) w Q.
Proof.
  revert fuel hd. induction q as [|t q IH]; intros [|fuel] hd Hfuel; [simpl in *; lia| |simpl in *; lia|];
    iIntros "Hc HQ"; simpl.
  - iDestruct "Hc" as %->. rw /=. by wp_return.
  - iDestruct "Hc" as (nx) "[Hh Hc]". not_null "Hh". wp_read "Hh". wp_dealloc "Hh".
    iApply (IH with "Hc HQ"). simpl in *. lia.
Qed.

(** Everything the pool owns is freed, and the caller's pointer cleared. *)
Lemma wp_release pp p ws n ids sd q mx w (Q : () → world → hPropI pcell) :
  pp ↦ as_cell (p : ptr) -∗ pool_cell p ws n sd q mx -∗ ws ↦ as_cell (Threads ids) -∗
  (pp ↦ as_cell (NULL : ptr) -∗ Q () w) -∗ wp (release pp) w Q.
Proof.
  iIntros "Hpp (%hd & Hp & Hc) Hw HQ". unfold release, deref.
  wp_read "Hpp". wp_read "Hp". wp_dealloc "Hw". wp_read "Hpp". wp_read "Hp".
  wp_focus. iApply (wp_chain_fuel with "Hc"). iIntros (fuel Hfuel) "Hc".
  wp_focus. iApply (wp_free_tasks with "Hc"); [done|]. wp_read "Hpp". wp_dealloc "Hp".
  by iApply (wp_set with "Hpp").
Qed.

(** ** Creation, as a property of its own *)

(** [tpool_create] up to the creation of the threads, for any number and any answers of [calloc]:
    NULL and nothing allocated when no thread is asked for or an allocation fails, with
    the message of that allocation; else a pool with an empty queue, a free
    mutex and room for the threads, which records their number modulo 256. *)
Theorem alloc_pool_correct n w :
  triple emp (alloc_pool n) w (λ p w',
    let '(ok, w1) := create_spec n w in
    if ok then ⟪p ≠ NULL ∧ w' = w1⟫ ∗ ∃ ws, pool_at p ws (u8 n) [] ∗
                 ws ↦ as_cell (Threads (replicate (Z.to_nat n) None))
    else ⟪p = NULL ∧ w' = w1⟫)%I.
Proof.
  apply wp_triple. iIntros "_". iApply wp_alloc_pool. iSplit.
  - iIntros (w' E). by rw E.
  - iIntros (w' p ws [E Hp]) "Hp Hw". rw E. iSplitR; [done|]. iExists ws. iFrame.
Qed.
