(* ===== verification/PoolConc.v ===== *)
(** * PoolConc: the threads of the pool on its memory

    The threads of the file ThreadPool, with the moves of that file, run here over the
    store by the parts of the file PoolHeap: every test is on a field that is read, a
    thread keeps the address of the task node it works on, the client finds the threads that it
    joins in the array of the pool, and a use of the pool object, of its array or of a node
    after it has been freed is an error of the store.  The condition variable is a
    field of the pool object, so that a signal or a broadcast needs the object; who waits is
    part of the state of the threads. *)

From stdpp Require Import gmap strings.
From S2P Require Import Prelude Mem ThreadPool PoolHeap.

Open Scope Z_scope.

(** ** State *)

Inductive hwpc :=
  | HLock | HCheck | HWait | HRelock
  | HPopped (a : ptr) | HRun (a : ptr) | HFree (a : ptr)
  | HExit | HSkip | HDone | HNone.

Inductive hppc := HNext | HPLock (a : ptr) | HPLink (a : ptr) | HPSignal | HPUnlock.

Record hproducer := HProd { hp_at : hppc; hp_todo : list task }.

Record hst := HSt {
  hstore : state pcell;
  hrequested : nat;
  hworkers : list hwpc;
  hclient : cpc;
  hwaits : bool;
  hproducers : list hproducer
}.

Definition set_hstore m s := HSt m (hrequested s) (hworkers s) (hclient s) (hwaits s) (hproducers s).
Definition set_hworkers ws s := HSt (hstore s) (hrequested s) ws (hclient s) (hwaits s) (hproducers s).
Definition set_hclient c s := HSt (hstore s) (hrequested s) (hworkers s) c (hwaits s) (hproducers s).
Definition set_hproducers ps s := HSt (hstore s) (hrequested s) (hworkers s) (hclient s) (hwaits s) ps.
Definition set_hworker i pc s := set_hworkers (<[i := pc]> (hworkers s)) s.
Definition set_hproducer i pc ts s := set_hproducers (<[i := HProd pc ts]> (hproducers s)) s.

Inductive houtcome := HBlocked | HCrash (e : error) | HGo (s : hst).

Section moves.
(** [p]: the pool; [pp]: the variable of the client that points to it. *)
Context (pp p : ptr).

(** Run a part and go on as [k] says. *)
Definition hrun {A} (c : pprog A) (k : A → hst → hst) (s : hst) : houtcome :=
  match c (hstore s) with
  | Ok a m => HGo (k a (set_hstore m s))
  | Err e => HCrash e
  end.

(** [e] computes the pointer to the pool. *)
Definition pool_locked (e : pprog ptr) (m : state pcell) : bool :=
  match (p ← e; get p_mutex p) m with Ok MutexHeld _ => true | _ => false end.

Definition hlock (e : pprog ptr) (k : hst → hst) (s : hst) : houtcome :=
  if pool_locked e (hstore s) then HBlocked else hrun (p ← e; lock_pool p) (λ _, k) s.
Definition hunlock (e : pprog ptr) (k : hst → hst) (s : hst) : houtcome :=
  hrun (p ← e; unlock_pool p) (λ _, k) s.

Definition hwake (pc : hwpc) : hwpc := match pc with HWait => HRelock | pc => pc end.
Definition his_waiting (pc : hwpc) : bool := match pc with HWait => true | _ => false end.

(** [worker_thread], thread [i] *)
Definition hworker_step (i : nat) (pc : hwpc) (s : hst) : houtcome :=
  match pc with
  | HLock | HRelock => hlock (mret p) (set_hworker i HCheck) s
  | HCheck =>
      hrun (v ← worker_check p;
            (match v with VWait => unlock_pool p | _ => mret () end);; mret v)
        (λ v, set_hworker i match v with
                            | VWait => HWait | VExit => HExit | VSkip => HSkip
                            | VTake a => HPopped a
                            end) s
  | HWait => HBlocked
  | HPopped a => hunlock (mret p) (set_hworker i (HRun a)) s
  | HRun a => hrun (call_task a) (λ _, set_hworker i (HFree a)) s
  | HFree a => hrun (free a) (λ _, set_hworker i HLock) s
  | HExit => hunlock (mret p) (set_hworker i HDone) s
  | HSkip => hunlock (mret p) (set_hworker i HLock) s
  | HDone | HNone => HBlocked
  end.

(** The answer of the next [calloc]. *)
Definition calloc_answer (ok : bool) (m : state pcell) : state pcell :=
  State (memory m) (World [ok] (fopen_plan (wld m)) (errno (wld m)) (trace (wld m))).

(** [tpool_enqueue], producer [i] *)
Definition hproducer_step (i : nat) (pr : hproducer) (ok : bool) (j : nat) (s : hst) : houtcome :=
  let ts := hp_todo pr in
  match hp_at pr with
  | HNext =>
      if creating (hclient s) then HBlocked else
      match ts with
      | [] => HBlocked
      | t :: ts =>
          if task_ok t then
            hrun (new_task (p_function t) (argument t))
              (λ a, set_hproducer i (if a =? NULL then HNext else HPLock a) ts)
              (set_hstore (calloc_answer ok (hstore s)) s)
          else HGo (set_hproducer i HNext ts s)
      end
  | HPLock a => hlock (mret p) (set_hproducer i (HPLink a) ts) s
  | HPLink a => hrun (link_task p a) (λ _, set_hproducer i HPSignal ts) s
  | HPSignal =>
      if existsb his_waiting (hworkers s)
      then match hworkers s !! j with
           | Some HWait =>
               hrun (use_condition p) (λ _ s, set_hproducer i HPUnlock ts (set_hworker j HRelock s)) s
           | _ => HBlocked
           end
      else hrun (use_condition p) (λ _, set_hproducer i HPUnlock ts) s
  | HPUnlock => hunlock (mret p) (set_hproducer i HNext ts) s
  end.

Definition hresting (pr : hproducer) : bool :=
  match hp_at pr, hp_todo pr with HNext, [] => true | _, _ => false end.

(** The loop of [tpool_create], whose next thread is [i]: it stores the thread in the array of
    the pool, unless [pthread_create] fails. *)
Definition hcreate (i : nat) (created : bool) (s : hst) : houtcome :=
  if created
  then hrun (store_thread p i)
         (λ _ s, set_hclient (CCreate (S i)) (set_hworkers (hworkers s ++ [HLock]) s)) s
  else hrun (use_condition p)
         (λ _ s, set_hclient (CCreate (S i)) (set_hworkers (hworkers s ++ [HNone]) s)) s.

(** [tpool_create], whose result the client stores in its variable, and [tpool_shutdown] *)
Definition hclient_step (s : hst) : houtcome :=
  match hclient s with
  | CCreate i =>
      if bool_decide (i < hrequested s)%nat then hcreate i true s
      else hrun (set (λ _ : ptr, p) pp) (λ _, set_hclient CNext) s
  | CNext => if hwaits s && negb (forallb hresting (hproducers s)) then HBlocked
             else hrun (given_pool pp) (λ b : bool, set_hclient (if b then SLock else CDone)) s
  | SLock => hlock (deref pp) (set_hclient SSet) s
  | SSet => hrun (p ← deref pp; set (set_p_shutdown true) p) (λ _, set_hclient SBroadcast) s
  | SBroadcast =>
      hrun (p ← deref pp; use_condition p)
        (λ _ s, set_hclient SUnlock (set_hworkers (hwake <$> hworkers s) s)) s
  | SUnlock => hunlock (deref pp) (set_hclient (SJoin 0)) s
  | SJoin i =>
      match next_join pp i (hstore s) with
      | Err e => HCrash e
      | Ok (Some (Some k)) m =>
          match hworkers s !! k with
          | Some HDone => HGo (set_hclient (SJoin (S i)) (set_hstore m s))
          | _ => HBlocked
          end
      | Ok (Some None) _ => HCrash BadThread
      | Ok None m => HGo (set_hclient SFree (set_hstore m s))
      end
  | SFree => hrun (release pp) (λ _, set_hclient CDone) s
  | CDone => HBlocked
  end.

Definition hexec (c : choice) (s : hst) : houtcome :=
  match c with
  | ChWorker i => match hworkers s !! i with Some pc => hworker_step i pc s | None => HBlocked end
  | ChProducer i ok j =>
      match hproducers s !! i with Some pr => hproducer_step i pr ok j s | None => HBlocked end
  | ChClient => hclient_step s
  | ChSpurious i =>
      match hworkers s !! i with
      | Some HWait => hrun (use_condition p) (λ _, set_hworker i HRelock) s
      | _ => HBlocked
      end
  | ChNoThread =>
      match hclient s with
      | CCreate i => if bool_decide (i < hrequested s)%nat then hcreate i false s else HBlocked
      | _ => HBlocked
      end
  end.

(** A schedule; a blocked move is skipped. *)
Fixpoint hexec_all (cs : list choice) (s : hst) : houtcome :=
  match cs with
  | [] => HGo s
  | c :: cs => match hexec c s with
               | HGo s => hexec_all cs s
               | HBlocked => hexec_all cs s
               | HCrash e => HCrash e
               end
  end.
End moves.

(** The threads of a pool of [n] threads that has been allocated. *)
Definition hinit (n : Z) (waits : bool) (progs : list (list task)) (m : state pcell) : hst :=
  HSt m (Z.to_nat n) [] (CCreate 0) waits (HProd HNext <$> progs).

(** The functions that have been called, in order. *)
Definition user_calls (tr : list event) : list event := List.filter is_call tr.
