(* ===== verification/PoolConcRel.v ===== *)
(** * PoolConcRel: how the threads on the memory represent those on lists

    The pool object represents the queue, the array of the pool names the threads that have been
    created, the variable of the client holds the pool from the end of [tpool_create] to the end of
    [tpool_shutdown], each thread owns the node that its program counter
    names, and the functions that have been called are the tasks that have been
    finished.  The file has what a simulation of one machine by the other needs. *)

From iris.proofmode Require Import environments proofmode.
From stdpp Require Import gmap strings relations.
From S2P Require Import Prelude HProp Mem Chain ThreadPool ThreadPoolInv PoolHeap PoolHeapProps PoolConc.

Open Scope Z_scope.

Lemma sepL2_Forall2 {A B} (Φ : A → B → hPropI pcell) l l' (R : A → B → Prop) :
  (∀ x y, Φ x y ⊢ ⌜R x y⌝) → ([∗ list] x;y ∈ l;l', Φ x y) ⊢ ⌜Forall2 R l l'⌝.
Proof.
  intros HR. revert l'. induction l as [|x l IH]; intros [|y l']; simpl; try by iIntros "[]".
  - iIntros "_". iPureIntro. constructor.
  - iIntros "[H Hl]". iDestruct (HR with "H") as %Hx. iDestruct (IH with "Hl") as %Hl.
    iPureIntro. by constructor.
Qed.

Lemma sepL2_emp {A B} (Φ : A → B → hPropI pcell) l l' (R : B → Prop) :
  (∀ x y, R y → Φ x y ⊢ emp) → Forall R l' → ([∗ list] x;y ∈ l;l', Φ x y) ⊢ emp.
Proof.
  intros HR Hl. revert l. induction Hl as [|y l' Hy _ IH]; intros [|x l]; simpl; try by iIntros "[]".
  - done.
  - by rw (HR x y Hy) IH left_id.
Qed.

(** ** The array of threads *)

Section array.
Context (n : Z).

Definition thread_at (l : list wpc) (i : nat) : option nat :=
  match l !! i with Some WNone | None => None | Some _ => Some i end.

(** What the array of a pool of [n] threads holds. *)
Definition ids (l : list wpc) : list (option nat) := thread_at l <$> seq 0 (Z.to_nat n).

Lemma ids_lookup l i : (i < Z.to_nat n)%nat → ids l !! i = Some (thread_at l i).
Proof. intros H. unfold ids. by rw list_lookup_fmap lookup_seq_lt. Qed.

Lemma ids_length l : length (ids l) = Z.to_nat n.
Proof. unfold ids. by rw length_fmap length_seq. Qed.

Lemma ids_nil : ids [] = replicate (Z.to_nat n) None.
Proof.
  apply list_eq_same_length with (Z.to_nat n); [by rw length_replicate|by rw ids_length|].
  intros i x y Hi. rw ids_lookup // lookup_replicate_2 //. by intros [= <-] [= <-].
Qed.

Lemma ids_ext l l' : (∀ i, thread_at l i = thread_at l' i) → ids l = ids l'.
Proof. intros H. by apply list_fmap_ext. Qed.

Lemma ids_moved l i pc pc' :
  l !! i = Some pc → pc ≠ WNone → pc' ≠ WNone → ids (<[i := pc']> l) = ids l.
Proof.
  intros Hi H H'. apply ids_ext. intros k. unfold thread_at. rw (lookup_moved l i pc pc' k Hi).
  case_decide as E; [|done]. subst k. rw Hi. by destruct pc, pc'.
Qed.

Lemma ids_wake l : ids (wake <$> l) = ids l.
Proof.
  apply ids_ext. intros k. unfold thread_at. rw list_lookup_fmap.
  by destruct (l !! k) as [[]|].
Qed.

Lemma ids_none l : ids (l ++ [WNone]) = ids l.
Proof.
  apply ids_ext. intros k. unfold thread_at. rw lookup_created. case_decide as E; [|done].
  subst k. by rw (lookup_ge_None_2 l (length l)).
Qed.

Lemma ids_created l : (length l < Z.to_nat n)%nat →
  ids (l ++ [WLock]) = <[length l := Some (length l)]> (ids l).
Proof.
  intros Hl. apply list_eq_same_length with (Z.to_nat n); [by rw length_insert ids_length|by rw ids_length|].
  intros i x y Hi. rw ids_lookup //. unfold thread_at. rw lookup_created.
  destruct (decide (i = length l)) as [->|Hne].
  - rw list_lookup_insert_eq ?ids_length //. by intros [= <-] [= <-].
  - rw list_lookup_insert_ne // ids_lookup //. unfold thread_at. by intros [= <-] [= <-].
Qed.
End array.

(** ** The representation *)

Section refinement.
(** [pp]: the variable of the client; it holds [q] until the pool [p], whose array is at [ws], has been created. *)
Context (n : Z) (pp q p ws : ptr).

(** A node that a thread works on; its task can be called. *)
Definition node_of (a : ptr) (t : task) (last : bool) : hPropI pcell :=
  (⟪p_function t ≠ NULL⟫ ∗ ∃ nx, ⟪last = true → nx = NULL⟫ ∗ a ↦ as_cell (task_node t nx))%I.

Definition worker_rel (h : hwpc) (pc : wpc) : hPropI pcell :=
  match h, pc with
  | HLock, WLock | HCheck, WCheck | HWait, WWait | HRelock, WRelock
  | HExit, WExit | HSkip, WSkip | HDone, WDone | HNone, WNone => emp
  | HPopped a, WPopped t | HRun a, WRun t | HFree a, WFree t => node_of a t false
  | _, _ => False
  end%I.

Definition producer_rel (h : hproducer) (pr : producer) : hPropI pcell :=
  (⟪hp_todo h = todo pr⟫ ∗
   match hp_at h, p_at pr with
   | HNext, PNext | HPSignal, PSignal | HPUnlock, PUnlock => emp
   | HPLock a, PLock t | HPLink a, PLink t => node_of a t true
   | _, _ => False
   end)%I.

Definition owner_state (o : option thread) : mutex :=
  match o with Some _ => MutexHeld | None => MutexFree end.

Definition caller (c : cpc) : ptr := match c with CCreate _ => q | CDone => NULL | _ => p end.

Definition object_rel (o : tpool) (l : list wpc) : hPropI pcell :=
  (pool_cell p ws (num_workers o) (b_shutdown o) (p_task_queue o) (owner_state (p_queue_mutex o)) ∗
   ws ↦ as_cell (Threads (ids n l)) ∗ ⟪callable (p_task_queue o)⟫)%I.

Definition pool_rel (s : st) : hPropI pcell :=
  ((if alive s then object_rel (pool s) (workers s) else emp) ∗ pp ↦ as_cell (caller (client s)))%I.

(** It depends on little of the state. *)
Lemma pool_rel_same s s' :
  alive s' = alive s → pool s' = pool s → ids n (workers s') = ids n (workers s) →
  caller (client s') = caller (client s) → pool_rel s' = pool_rel s.
Proof. unfold pool_rel, object_rel. by intros -> -> -> ->. Qed.

Definition threads_rel (hs : hst) (s : st) : hPropI pcell :=
  (([∗ list] h;pc ∈ hworkers hs;workers s, worker_rel h pc) ∗
   ([∗ list] h;pr ∈ hproducers hs;producers s, producer_rel h pr))%I.

(** [calls]: the functions that have been called before the pool was created. *)
Record same (calls : list event) (hs : hst) (w : world) (s : st) : Prop := {
  same_requested : hrequested hs = requested s;
  same_client : hclient hs = client s;
  same_waits : hwaits hs = waits s;
  same_calls : user_calls (trace w) = calls ++ task_calls (finished (hist s))
}.

Record refines (calls : list event) (hs : hst) (s : st) : Prop := {
  ref_same : same calls hs (wld (hstore hs)) s;
  ref_heap : holds (pool_rel s ∗ threads_rel hs s)%I (memory (hstore hs))
}.

(** A move of the concrete threads is the same move of the abstract ones, unless
    that would use a pool that has been freed. *)
Definition simulated (calls : list event) (ho : houtcome) (o : outcome) : Prop :=
  match ho, o with
  | _, Crash | HBlocked, Blocked => True
  | HGo hs, Next s => refines calls hs s
  | _, _ => False
  end.

Lemma simulated_crash calls ho : simulated calls ho Crash.
Proof. by destruct ho. Qed.

Lemma hrun_simulated {A} calls (c : pprog A) (k : A → hst → hst) hs s o :
  refines calls hs s →
  (∀ a m, k a (set_hstore m hs) = set_hstore m (k a hs)) →
  (pool_rel s ∗ threads_rel hs s ⊢ wp c (wld (hstore hs)) (λ a w', ∃ s',
     ⟪o = Next s' ∧ same calls (k a hs) w' s'⟫ ∗ pool_rel s' ∗ threads_rel (k a hs) s')) →
  simulated calls (hrun c k hs) o.
Proof.
  intros [Hs Hheap] Hk Hwp. destruct (wp_runs c _ (hstore hs) _ Hheap Hwp) as (a & m' & w' & Hrun & HQ).
  apply holds_exist in HQ as (s' & HQ).
  apply holds_sep in HQ as (m1 & m2 & -> & _ & [-> [-> Hsame]]%holds_affine & HQ).
  unfold hrun. rw Hrun left_id_L Hk. split; [|exact HQ]. by destruct Hsame; split.
Qed.

(** A step that touches no memory. *)
Lemma silent_simulated calls hs s hs' s' :
  refines calls hs s → same calls hs' (wld (hstore hs)) s' → hstore hs' = hstore hs →
  (pool_rel s ∗ threads_rel hs s ⊢ pool_rel s' ∗ threads_rel hs' s') →
  simulated calls (HGo hs') (Next s').
Proof.
  intros [Hs Hheap] Hs' Hst Hent. split; rw Hst; [done|]. by eapply holds_entails.
Qed.

(** [e] computes the pointer to the pool. *)
Definition gives_pool (e : pprog ptr) (s : st) : Prop :=
  ∀ A (f : ptr → pprog A) w (Q : A → world → hPropI pcell),
    pp ↦ as_cell (caller (client s)) -∗
    (pp ↦ as_cell (caller (client s)) -∗ wp (f p) w Q) -∗ wp (p ← e; f p) w Q.

Lemma thread_gives_pool s : gives_pool (mret p) s.
Proof. iIntros (A f w Q) "Hpp HQ". wp_return. by iApply "HQ". Qed.

Lemma client_gives_pool s : caller (client s) = p → gives_pool (deref pp) s.
Proof. intros H A f w Q. rw H. iIntros "Hpp HQ". unfold deref. wp_read "Hpp". by iApply "HQ". Qed.

Lemma pool_locked_owner calls e hs s : refines calls hs s → gives_pool e s → alive s = true →
  pool_locked e (hstore hs) = bool_decide (is_Some (p_queue_mutex (pool s))).
Proof.
  intros [_ Hheap] He Hal. unfold pool_rel in Hheap. rw Hal in Hheap.
  destruct (wp_runs (p ← e; get p_mutex p) _ (hstore hs)
    (λ mx _, (⟪mx = owner_state (p_queue_mutex (pool s))⟫ ∗ True)%I) Hheap)
    as (mx & m' & w' & Hrun & HQ).
  { iIntros "[[((%hd & Hp & Hc) & Hr) Hpp] Ht]". iApply (He with "Hpp"). iIntros "Hpp".
    iApply (wp_get with "Hp"). iIntros "_". by iSplit. }
  apply holds_sep in HQ as (m1 & m2 & _ & _ & [_ ->]%holds_affine & _).
  unfold pool_locked. rw Hrun. by destruct (p_queue_mutex (pool s)).
Qed.

(** The owner of the mutex changes and the threads move. *)
Lemma hlock_simulated calls e th kh k hs s :
  refines calls hs s → gives_pool e s → (∀ m, kh (set_hstore m hs) = set_hstore m (kh hs)) →
  let s' := k (set_pool (set_owner (Some th) (pool s)) s) in
  pool s' = set_owner (Some th) (pool s) → alive s' = alive s →
  ids n (workers s') = ids n (workers s) → caller (client s') = caller (client s) →
  (∀ w, same calls hs w s → same calls (kh hs) w s') →
  (threads_rel hs s ⊢ threads_rel (kh hs) s') →
  simulated calls (hlock e kh hs) (lock th s k).
Proof.
  intros R He Hk s' Hpool Hal Hids Hcall Hs Ht. unfold lock, hlock, with_pool.
  destruct (alive s) eqn:Ha; [|apply simulated_crash].
  rw (pool_locked_owner _ _ _ _ R He Ha). destruct (p_queue_mutex (pool s)) as [o|] eqn:Ho; [done|].
  rw bool_decide_eq_false_2; [|by intros []]. apply (hrun_simulated calls _ _ hs s); [done|done|].
  iIntros "[Hpool Ht]". unfold pool_rel at 1. rw Ha. unfold object_rel. rw Ho.
  iDestruct "Hpool" as "[(Hp & Hw & Hq) Hpp]". iApply (He with "Hpp"). iIntros "Hpp".
  iApply (wp_pool_lock with "Hp"). iIntros "Hp". iExists s'. iSplitR.
  - iPureIntro. split; [done|]. apply Hs. by destruct R.
  - iSplitR "Ht"; [|by iApply Ht]. unfold pool_rel, object_rel. rw Hal Hpool Hids Hcall. iFrame.
Qed.

Lemma hunlock_simulated calls e kh k hs s :
  refines calls hs s → gives_pool e s → (∀ m, kh (set_hstore m hs) = set_hstore m (kh hs)) →
  let s' := k (set_pool (set_owner None (pool s)) s) in
  is_Some (p_queue_mutex (pool s)) →
  pool s' = set_owner None (pool s) → alive s' = alive s →
  ids n (workers s') = ids n (workers s) → caller (client s') = caller (client s) →
  (∀ w, same calls hs w s → same calls (kh hs) w s') →
  (threads_rel hs s ⊢ threads_rel (kh hs) s') →
  simulated calls (hunlock e kh hs) (unlock s k).
Proof.
  intros R He Hk s' [o Ho] Hpool Hal Hids Hcall Hs Ht. unfold unlock, hunlock, with_pool.
  destruct (alive s) eqn:Ha; [|apply simulated_crash].
  apply (hrun_simulated calls _ _ hs s); [done|done|].
  iIntros "[Hpool Ht]". unfold pool_rel at 1. rw Ha. unfold object_rel. rw Ho.
  iDestruct "Hpool" as "[(Hp & Hw & Hq) Hpp]". iApply (He with "Hpp"). iIntros "Hpp".
  iApply (wp_pool_unlock with "Hp"). iIntros "Hp". iExists s'. iSplitR.
  - iPureIntro. split; [done|]. apply Hs. by destruct R.
  - iSplitR "Ht"; [|by iApply Ht]. unfold pool_rel, object_rel. rw Hal Hpool Hids Hcall. iFrame.
Qed.

(** ** The threads of one machine and of the other *)

(** The program counters have the same name. *)
Definition worker_shape (h : hwpc) (pc : wpc) : Prop :=
  match h, pc with
  | HLock, WLock | HCheck, WCheck | HWait, WWait | HRelock, WRelock
  | HPopped _, WPopped _ | HRun _, WRun _ | HFree _, WFree _
  | HExit, WExit | HSkip, WSkip | HDone, WDone | HNone, WNone => True
  | _, _ => False
  end.

Definition producer_shape (h : hproducer) (pr : producer) : Prop :=
  hp_todo h = todo pr ∧
  match hp_at h, p_at pr with
  | HNext, PNext | HPLock _, PLock _ | HPLink _, PLink _ | HPSignal, PSignal | HPUnlock, PUnlock => True
  | _, _ => False
  end.

Lemma worker_rel_shape h pc : worker_rel h pc ⊢ ⌜worker_shape h pc⌝.
Proof. destruct h, pc; simpl; first [by apply bi.pure_intro|by iIntros (?)]. Qed.

Lemma producer_rel_shape h pr : producer_rel h pr ⊢ ⌜producer_shape h pr⌝.
Proof.
  unfold producer_rel, producer_shape. iIntros "[-> H]".
  destruct (hp_at h), (p_at pr); first [by iPureIntro|by iDestruct "H" as %[]].
Qed.

Lemma threads_shape calls hs s : refines calls hs s →
  Forall2 worker_shape (hworkers hs) (workers s) ∧
  Forall2 producer_shape (hproducers hs) (producers s).
Proof.
  intros [_ H]. apply (holds_entails _ ⌜Forall2 worker_shape (hworkers hs) (workers s) ∧
    Forall2 producer_shape (hproducers hs) (producers s)⌝%I) in H; [exact H|].
  iIntros "(_ & H1 & H2)".
  iDestruct (sepL2_Forall2 _ _ _ _ worker_rel_shape with "H1") as %H1.
  iDestruct (sepL2_Forall2 _ _ _ _ producer_rel_shape with "H2") as %H2. done.
Qed.

Lemma waiting_same hws ws' : Forall2 worker_shape hws ws' →
  existsb his_waiting hws = existsb is_waiting ws'.
Proof. induction 1 as [|h pc hws ws' H _ IH]; [done|]. simpl. rw IH. by destruct h, pc. Qed.

Lemma resting_same hps ps : Forall2 producer_shape hps ps →
  forallb hresting hps = forallb resting ps.
Proof.
  induction 1 as [|[a ts] [b us] hps ps [Ht Hp] _ IH]; [done|]. simpl in *. rw IH. subst us.
  by destruct a, b.
Qed.

(** A thread gives up what it owns and goes on with something else. *)
Lemma worker_acc hs s i h pc :
  hworkers hs !! i = Some h → workers s !! i = Some pc →
  threads_rel hs s ⊢ worker_rel h pc ∗
    ∀ h' pc', worker_rel h' pc' -∗ threads_rel (set_hworker i h' hs) (set_worker i pc' s).
Proof.
  iIntros (Hh Hpc) "[H1 H2]". iDestruct (big_sepL2_insert_acc with "H1") as "[$ H1]"; [done..|].
  iIntros (h' pc') "H". iFrame "H2". by iApply "H1".
Qed.

Lemma producer_acc hs s i h pr :
  hproducers hs !! i = Some h → producers s !! i = Some pr →
  threads_rel hs s ⊢ producer_rel h pr ∗
    ∀ a ts a' ts', producer_rel (HProd a ts) (Prod a' ts') -∗
      threads_rel (set_hproducer i a ts hs) (set_producer i a' ts' s).
Proof.
  iIntros (Hh Hpr) "[H1 H2]". iDestruct (big_sepL2_insert_acc with "H2") as "[$ H2]"; [done..|].
  iIntros (a ts a' ts') "H". iFrame "H1". by iApply "H2".
Qed.
End refinement.
