(* ===== verification/PoolConcSim.v ===== *)
(** * PoolConcSim: every move on the memory is a move on lists

    Each move of the threads on the memory is the move of the same name of the file ThreadPool, unless
    that move uses a pool that has been freed or joins a thread that does not exist. *)

From iris.proofmode Require Import environments proofmode.
From stdpp Require Import gmap strings relations.
From S2P Require Import Prelude HProp Mem Chain ThreadPool ThreadPoolInv ThreadPoolRun.
From S2P Require Import PoolHeap PoolHeapProps PoolConc PoolConcRel.

Open Scope Z_scope.

Lemma user_calls_emit tr t :
  user_calls (tr ++ task_calls [t]) = user_calls tr ++ task_calls [t].
Proof. unfold user_calls. by rw List.filter_app. Qed.

(** What the simulation uses of a pool of [n] threads; it holds for every [n]. *)
Record tame (n : Z) (s : st) : Prop := {
  tame_mutex : inv_mutex s;
  tame_shape : inv_shape s;
  tame_shutdown : inv_shutdown s;
  tame_requested : requested s = Z.to_nat n;
  tame_num : num_workers (pool s) = u8 n
}.

Lemma tame_step n s s' c : tame n s → exec c s = Next s' → tame n s'.
Proof.
  intros [I1 I2 I3 I4 I5] H. pose proof (exec_constant _ _ _ H) as (Hr & Hn & _). split.
  - by eapply inv_mutex_step.
  - by eapply inv_shape_step.
  - by eapply inv_shutdown_step.
  - by rw Hr.
  - by rw Hn.
Qed.

Section simulation.
Context (n : Z) (pp q p ws : ptr) (calls : list event).
Abbreviation refines := (refines n pp q p ws calls).
Abbreviation pool_rel := (pool_rel n pp q p ws).
Abbreviation simulated := (simulated n pp q p ws calls).
Implicit Types (hs : hst) (s : st).

(** The next state of the abstract machine is the one that its move computes. *)
Ltac next R :=
  iExists _; iSplitR; [iPureIntro; split; [done|by destruct (ref_same _ _ _ _ _ _ _ _ R); split]|].
(** The part of the relation that the move does not concern. *)
Ltac unchanged := let S := fresh in intros ? S; by destruct S; split.
(** A part of a call is run. *)
Ltac part hs s := apply (hrun_simulated n pp q p ws calls _ _ hs s); [done|done|].
(** The pool object of a pool that is alive. *)
Ltac open_pool Ha :=
  unfold PoolConcRel.pool_rel; simpl; rw ?Ha; unfold object_rel; simpl.

Lemma owner_of s th : inv_mutex s → critical s th = true → p_queue_mutex (pool s) = Some th.
Proof. intros I H. rw I in H. by apply bool_decide_eq_true in H. Qed.

(** A thread that holds the mutex unlocks it. *)
Lemma owns s th : tame n s → critical s th = true → is_Some (p_queue_mutex (pool s)).
Proof. intros T H. rw (owner_of s th (tame_mutex _ _ T) H). by eexists. Qed.

(** *** Workers *)

(** A worker that goes on leaves the array as it is. *)
Lemma worker_pool s s' i pc pc' :
  workers s !! i = Some pc → pc ≠ WNone → pc' ≠ WNone →
  alive s' = alive s → pool s' = pool s → workers s' = workers s → client s' = client s →
  pool_rel (set_worker i pc' s') = pool_rel s.
Proof.
  intros Hi H H' Ha Hp Hw Hc. apply pool_rel_same; [done|done| |by simpl; rw Hc].
  simpl. rw Hw. by eapply ids_moved.
Qed.

(** A worker exchanges what it owns for the same, and its program counter moves. *)
Lemma worker_follows hs s s' i h pc h' pc' :
  hworkers hs !! i = Some h → workers s !! i = Some pc →
  (worker_rel h pc ⊢ worker_rel h' pc') →
  workers s' = workers s → producers s' = producers s →
  threads_rel hs s ⊢ threads_rel (set_hworker i h' hs) (set_worker i pc' s').
Proof.
  iIntros (Hh Hw Hr Hs1 Hs2) "Ht". iDestruct (worker_acc hs s i h pc Hh Hw with "Ht") as "[H Ht]".
  iDestruct (Hr with "H") as "H". iDestruct ("Ht" with "H") as "Ht".
  unfold threads_rel. simpl. by rw Hs1 Hs2.
Qed.

Lemma check_simulated hs s i :
  refines hs s → tame n s → hworkers hs !! i = Some HCheck → workers s !! i = Some WCheck →
  simulated (hworker_step p i HCheck hs) (worker_step i WCheck s).
Proof.
  intros R T Hh Hw. unfold hworker_step, worker_step, unlock, with_pool.
  destruct (alive s) eqn:Ha; [|apply simulated_crash].
  assert (p_queue_mutex (pool s) = Some (Worker i)) as Ho.
  { apply owner_of; [apply T|]. simpl. by rw Hw. }
  assert (∀ pc, pc ≠ WNone → ids n (<[i := pc]> (workers s)) = ids n (workers s)) as Hids.
  { intros pc Hpc. by eapply ids_moved. }
  part hs s. iIntros "[Hpool Ht]". open_pool Ha. rw Ho. iDestruct "Hpool" as "[(Hp & Hws & %Hq) Hpp]".
  iDestruct (worker_acc hs s i HCheck WCheck Hh Hw with "Ht") as "[_ Ht]".
  wp_focus. iApply (wp_worker_check with "Hp").
  destruct (bool_decide (p_task_queue (pool s) = []) && negb (b_shutdown (pool s))) eqn:E.
  { iIntros "Hp". wp_focus. iApply (wp_pool_unlock with "Hp"). iIntros "Hp". wp_return.
    next R. iSplitR "Ht"; [|by iApply "Ht"]. open_pool Ha. rw Hids //. by iFrame. }
  destruct (b_shutdown (pool s)) eqn:Hb.
  { iIntros "Hp". wp_focus. wp_return. wp_return.
    next R. iSplitR "Ht"; [|by iApply "Ht"]. open_pool Ha. rw Hb Ho Hids //. by iFrame. }
  destruct (p_task_queue (pool s)) as [|t ts] eqn:Hqq; [done|].
  iIntros (a nx) "Ha Hp". wp_focus. wp_return. wp_return. apply Forall_cons in Hq as [Ht Hq].
  next R. iSplitR "Ht Ha".
  - open_pool Ha. rw Hb Ho Hids //. by iFrame.
  - iApply "Ht". simpl. iSplitR; [done|]. iExists nx. iFrame. done.
Qed.

(** The task is called. *)
Lemma run_simulated hs s i a t :
  refines hs s → hworkers hs !! i = Some (HRun a) → workers s !! i = Some (WRun t) →
  simulated (hworker_step p i (HRun a) hs) (worker_step i (WRun t) s).
Proof.
  intros R Hh Hw. unfold hworker_step, worker_step. part hs s.
  iIntros "[Hpool Ht]". iDestruct (worker_acc hs s i _ _ Hh Hw with "Ht") as "[(%Hf & %nx & %Hnx & Ha) Ht]".
  iApply (wp_call_task with "Ha"); [done|]. iIntros "Ha". iExists _. iSplitR.
  - iPureIntro. split; [done|]. destruct (ref_same _ _ _ _ _ _ _ _ R) as [H1 H2 H3 H4]. split; [done..|].
    simpl in *. rw user_calls_emit H4. unfold task_calls. by rw fmap_app app_assoc.
  - rw (worker_pool s _ i (WRun t) _ Hw) //. iFrame "Hpool". iApply "Ht".
    simpl. iSplitR; [done|]. iExists nx. iFrame. done.
Qed.

Lemma free_simulated hs s i a t :
  refines hs s → hworkers hs !! i = Some (HFree a) → workers s !! i = Some (WFree t) →
  simulated (hworker_step p i (HFree a) hs) (worker_step i (WFree t) s).
Proof.
  intros R Hh Hw. unfold hworker_step, worker_step. part hs s.
  iIntros "[Hpool Ht]". iDestruct (worker_acc hs s i _ _ Hh Hw with "Ht") as "[(%Hf & %nx & %Hnx & Ha) Ht]".
  iApply (wp_free with "Ha"). next R. rw (worker_pool s _ i (WFree t) _ Hw) //. iFrame "Hpool". by iApply "Ht".
Qed.

Lemma worker_simulated hs s i h pc :
  refines hs s → tame n s → hworkers hs !! i = Some h → workers s !! i = Some pc →
  simulated (hworker_step p i h hs) (worker_step i pc s).
Proof.
  intros R T Hh Hw. pose proof (threads_shape _ _ _ _ _ _ _ _ R) as [Hs _].
  pose proof (Forall2_lookup_lr _ _ _ _ _ _ Hs Hh Hw) as Hshape.
  assert (∀ pc', pc ≠ WNone → pc' ≠ WNone → ids n (<[i := pc']> (workers s)) = ids n (workers s)) as Hids.
  { intros pc' Hpc Hpc'. by eapply ids_moved. }
  destruct h, pc; try (destruct Hshape); try done.
  1,3: apply hlock_simulated; try done; [apply thread_gives_pool|by apply Hids|unchanged|by eapply worker_follows].
  - by apply check_simulated.
  - apply hunlock_simulated; try done; [apply thread_gives_pool| |by apply Hids|unchanged|by eapply worker_follows].
    apply (owns s (Worker i) T). simpl. by rw Hw.
  - by apply run_simulated.
  - by apply free_simulated.
  - apply hunlock_simulated; try done; [apply thread_gives_pool| |by apply Hids|unchanged|by eapply worker_follows].
    apply (owns s (Worker i) T). simpl. by rw Hw.
  - apply hunlock_simulated; try done; [apply thread_gives_pool| |by apply Hids|unchanged|by eapply worker_follows].
    apply (owns s (Worker i) T). simpl. by rw Hw.
Qed.

(** *** Producers *)

Lemma producer_follows hs s s' i h pr a ts a' ts' :
  hproducers hs !! i = Some h → producers s !! i = Some pr →
  (producer_rel h pr ⊢ producer_rel (HProd a ts) (Prod a' ts')) →
  workers s' = workers s → producers s' = producers s →
  threads_rel hs s ⊢ threads_rel (set_hproducer i a ts hs) (set_producer i a' ts' s').
Proof.
  iIntros (Hh Hw Hr Hs1 Hs2) "Ht". iDestruct (producer_acc hs s i h pr Hh Hw with "Ht") as "[H Ht]".
  iDestruct (Hr with "H") as "H". iDestruct ("Ht" with "H") as "Ht".
  unfold threads_rel. simpl. by rw Hs1 Hs2.
Qed.

Lemma producer_pool s i a ts : pool_rel (set_producer i a ts s) = pool_rel s.
Proof. by apply pool_rel_same. Qed.

Lemma calloc_answer_refines ok hs s : refines hs s → refines (set_hstore (calloc_answer ok (hstore hs)) hs) s.
Proof. intros [[? ? ? ?] ?]. by split. Qed.

(** The new task belongs to the producer. *)
Lemma new_task_simulated hs s i t ts ok j :
  refines hs s →
  hproducers hs !! i = Some (HProd HNext (t :: ts)) → producers s !! i = Some (Prod PNext (t :: ts)) →
  simulated (hproducer_step p i (HProd HNext (t :: ts)) ok j hs)
    (producer_step i (Prod PNext (t :: ts)) ok j s).
Proof.
  intros R Hh Hp. unfold hproducer_step, producer_step. simpl.
  rw (same_client _ _ _ _ (ref_same _ _ _ _ _ _ _ _ R)). destruct (creating (client s)); [done|].
  destruct (task_ok t) eqn:Ht; simpl.
  2: { apply (silent_simulated n pp q p ws calls hs s); [done| |done|].
       - destruct (ref_same _ _ _ _ _ _ _ _ R). by split.
       - iIntros "[$ Ht]". iApply (producer_follows hs s s with "Ht"); try done. iIntros "_". by iSplitR. }
  apply (calloc_answer_refines ok) in R as Ra. part (set_hstore (calloc_answer ok (hstore hs)) hs) s.
  iIntros "[Hpool Ht]".
  iDestruct (producer_acc hs s i _ _ Hh Hp with "Ht") as "[_ Ht]".
  iApply wp_new_task. destruct ok; simpl.
  - iIntros (a Ha) "Ha". rw (eqb_null_false _ Ha). next R. rw producer_pool. iFrame "Hpool". iApply "Ht".
    iSplitR; [done|]. iSplitR; [iPureIntro; unfold task_ok in Ht; by zbool|].
    iExists NULL. by iFrame.
  - iExists _. iSplitR.
    { iPureIntro. split; [done|]. destruct (ref_same _ _ _ _ _ _ _ _ R) as [H1 H2 H3 H4]. split; [done..|].
      simpl in *. rewrite <-H4. unfold user_calls. by rw List.filter_app app_nil_r. }
    rw producer_pool. iFrame "Hpool". iApply "Ht". by iSplitR.
Qed.

Lemma link_simulated hs s i a t ts :
  refines hs s →
  hproducers hs !! i = Some (HProd (HPLink a) ts) → producers s !! i = Some (Prod (PLink t) ts) →
  ∀ ok j, simulated (hproducer_step p i (HProd (HPLink a) ts) ok j hs)
            (producer_step i (Prod (PLink t) ts) ok j s).
Proof.
  intros R Hh Hp ok j. unfold hproducer_step, producer_step, with_pool. simpl.
  destruct (alive s) eqn:Ha; [|apply simulated_crash].
  part hs s. iIntros "[Hpool Ht]". open_pool Ha. iDestruct "Hpool" as "[(Hp & Hws & %Hq) Hpp]".
  iDestruct (producer_acc hs s i _ _ Hh Hp with "Ht") as "[(_ & %Hf & %nx & %Hnx & Ha) Ht]".
  rw (Hnx eq_refl). iApply (wp_link_task with "Hp Ha"). iIntros "Hp". next R. iSplitR "Ht".
  - open_pool Ha. iFrame. iPureIntro. by apply Forall_app_2; [|apply Forall_singleton].
  - iApply "Ht". by iSplitR.
Qed.

(** A use of the condition variable only needs the pool. *)
Lemma wp_condition s w (Q : () → world → hPropI pcell) :
  alive s = true → pool_rel s -∗ (pool_rel s -∗ Q () w) -∗ wp (use_condition p) w Q.
Proof.
  intros Ha. open_pool Ha. iIntros "[(Hp & Hr) Hpp] HQ".
  iApply (wp_use_condition with "Hp"). iIntros "Hp". iApply "HQ". iFrame.
Qed.

Lemma signal_simulated hs s i ts j :
  refines hs s →
  hproducers hs !! i = Some (HProd HPSignal ts) → producers s !! i = Some (Prod PSignal ts) →
  ∀ ok, simulated (hproducer_step p i (HProd HPSignal ts) ok j hs)
          (producer_step i (Prod PSignal ts) ok j s).
Proof.
  intros R Hh Hp ok. pose proof (threads_shape _ _ _ _ _ _ _ _ R) as [Hs _].
  unfold hproducer_step, producer_step, with_pool. simpl.
  destruct (alive s) eqn:Ha; [|apply simulated_crash]. rw (waiting_same _ _ Hs).
  destruct (existsb is_waiting (workers s)).
  - pose proof (proj1 (Forall2_lookup _ _ _) Hs j) as Hj.
    destruct (hworkers hs !! j) as [h|] eqn:Hhj; destruct (workers s !! j) as [pc|] eqn:Hwj; try by inversion Hj.
    inversion_clear Hj as [? ? Hsh|]. destruct h, pc; try done.
    part hs s. iIntros "[Hpool Ht]".
    iApply (wp_condition s with "Hpool"); [done|]. iIntros "Hpool". next R.
    rw producer_pool (worker_pool s _ j WWait _ Hwj) //. iFrame "Hpool".
    iApply (producer_follows (set_hworker j HRelock hs) (set_worker j WRelock s)); [done..|].
    by iApply (worker_follows hs s s).
  - part hs s. iIntros "[Hpool Ht]".
    iApply (wp_condition s with "Hpool"); [done|]. iIntros "Hpool". next R. rw producer_pool. iFrame "Hpool".
    by iApply (producer_follows hs s s with "Ht").
Qed.

Lemma producer_simulated hs s i h pr ok j :
  refines hs s → tame n s → hproducers hs !! i = Some h → producers s !! i = Some pr →
  simulated (hproducer_step p i h ok j hs) (producer_step i pr ok j s).
Proof.
  intros R T Hh Hp. pose proof (threads_shape _ _ _ _ _ _ _ _ R) as [_ Hs].
  pose proof (Forall2_lookup_lr _ _ _ _ _ _ Hs Hh Hp) as [Hts Hshape].
  destruct h as [h hts], pr as [pc ts]. simpl in *. subst hts. destruct h, pc; try done.
  - destruct ts as [|t ts]; [|by apply new_task_simulated].
    unfold hproducer_step, producer_step. simpl. rw (same_client _ _ _ _ (ref_same _ _ _ _ _ _ _ _ R)).
    by destruct (creating (client s)).
  - apply hlock_simulated; try done; [apply thread_gives_pool|unchanged|]. by eapply producer_follows.
  - by apply link_simulated.
  - by apply signal_simulated.
  - apply hunlock_simulated; try done; [apply thread_gives_pool| |unchanged|by eapply producer_follows].
    apply (owns s (Producer i) T). simpl. by rw Hp.
Qed.

(** *** The client *)

Lemma create_follows hs s c c' h pc :
  worker_rel h pc = emp%I →
  threads_rel hs s ⊢ threads_rel (set_hclient c (set_hworkers (hworkers hs ++ [h]) hs))
                       (set_client c' (set_workers (workers s ++ [pc]) s)).
Proof. iIntros (H) "[H1 $]". simpl. rw big_sepL2_snoc H. by iFrame. Qed.

Lemma wake_rel h pc : worker_rel h pc ⊢ worker_rel (hwake h) (wake pc).
Proof. by destruct h, pc. Qed.

Lemma wake_follows hs s c c' :
  threads_rel hs s ⊢ threads_rel (set_hclient c (set_hworkers (hwake <$> hworkers hs) hs))
                       (set_client c' (set_workers (wake <$> workers s) s)).
Proof.
  iIntros "[H1 $]". simpl. rw big_sepL2_fmap_l big_sepL2_fmap_r.
  iApply (big_sepL2_mono with "H1"). intros k h pc _ _. apply wake_rel.
Qed.

(** The state of the client while there is a pool. *)
Lemma client_alive s c : tame n s → client s = c → c ≠ CDone → alive s = true.
Proof. intros T <- H. destruct (tame_shutdown _ _ T) as [_ ->]. by destruct (client s). Qed.

(** A thread is created and stored in the array, or it is not. *)
Lemma create_simulated hs s i ok :
  refines hs s → tame n s → client s = CCreate i → (i < requested s)%nat →
  simulated (hcreate p i ok hs) (Next (create_thread i (if ok then WLock else WNone) s)).
Proof.
  intros R T Hc Hi. pose proof (client_alive s _ T Hc ltac:(done)) as Ha.
  assert (length (workers s) = i) as Hlen.
  { destruct (tame_shape _ _ T) as [-> _]. unfold created. by rw Hc. }
  rw (tame_requested _ _ T) in Hi. unfold hcreate, create_thread. destruct ok; part hs s.
  - iIntros "[Hpool Ht]". open_pool Ha. rw Hc. iDestruct "Hpool" as "[(Hp & Hws & Hq) Hpp]".
    iApply (wp_store_thread with "Hp Hws"); [by rw ids_length|]. iIntros "Hp Hws". next R.
    iSplitR "Ht"; [|by iApply create_follows]. open_pool Ha.
    rw (ids_created n (workers s)) ?Hlen //. iFrame.
  - iIntros "[Hpool Ht]". iApply (wp_condition s with "Hpool"); [done|]. iIntros "Hpool". next R.
    iSplitR "Ht"; [|by iApply create_follows].
    rw (pool_rel_same _ _ _ _ _ s) //; [|by simpl; rw Hc]. apply ids_none.
Qed.

(** [tpool_create] returns: the client has the pool. *)
Lemma created_simulated hs s i :
  refines hs s → client s = CCreate i →
  simulated (hrun (set (λ _ : ptr, p) pp) (λ _, set_hclient CNext) hs) (Next (set_client CNext s)).
Proof.
  intros R Hc. part hs s. iIntros "[Hpool Ht]". unfold PoolConcRel.pool_rel. rw Hc.
  iDestruct "Hpool" as "[Hpool Hpp]". iApply (wp_set with "Hpp"). iIntros "Hpp". next R. iFrame.
Qed.

(** [tpool_shutdown] is given a pool. *)
Lemma given_simulated hs s :
  pp ≠ NULL → p ≠ NULL → refines hs s → client s = CNext →
  simulated (hrun (given_pool pp) (λ b : bool, set_hclient (if b then SLock else CDone)) hs)
    (Next (set_client SLock s)).
Proof.
  intros Hpp Hp R Hc. part hs s. iIntros "[Hpool Ht]". unfold PoolConcRel.pool_rel. rw Hc.
  iDestruct "Hpool" as "[Hpool Hpp]". unfold given_pool, deref. rw (eqb_null_false _ Hpp).
  wp_read "Hpp". rw (eqb_null_false _ Hp). wp_return. next R. iFrame.
Qed.

(** The next thread that is joined is the one in the array. *)
Lemma join_simulated hs s i :
  1 ≤ n → refines hs s → tame n s → client s = SJoin i →
  simulated (hclient_step pp p hs) (client_step s).
Proof.
  intros Hn R T Hc. pose proof (threads_shape _ _ _ _ _ _ _ _ R) as [Hws _].
  pose proof (client_alive s _ T Hc ltac:(done)) as Ha. pose proof (joined_bound n Hn) as [HK Hle].
  destruct (tame_shape _ _ T) as [Hlen _]. unfold created in Hlen. rw Hc (tame_requested _ _ T) in Hlen.
  unfold hclient_step, client_step, with_pool.
  rw (same_client _ _ _ _ (ref_same _ _ _ _ _ _ _ _ R)) Hc Ha (tame_num _ _ T).
  destruct R as [Hs Hheap].
  destruct (wp_runs (next_join pp i) _ (hstore hs) (λ r w',
    ⟪r = (if Z.of_nat i <? u8 n then ids n (workers s) !! i else None) ∧ w' = wld (hstore hs)⟫ ∗
    pool_rel s ∗ threads_rel hs s)%I Hheap) as (r & m & w' & Hrun & HQ).
  { iIntros "[Hpool Ht]". open_pool Ha. rw Hc (tame_num _ _ T). iDestruct "Hpool" as "[(Hp & Hws & Hq) Hpp]".
    iApply (wp_next_join with "Hpp Hp Hws"); [by rw ids_length; lia|]. iIntros "Hpp Hp Hws".
    iSplitR; [done|]. iFrame. }
  apply holds_sep in HQ as (m1 & m2 & -> & _ & [-> [-> ->]]%holds_affine & HQ). rw left_id_L in Hrun.
  rw Hrun. destruct (Z.ltb_spec (Z.of_nat i) (u8 n)).
  - assert (i < Z.to_nat n)%nat as Hi by lia. rw ids_lookup //. unfold thread_at.
    pose proof (proj1 (Forall2_lookup _ _ _) Hws i) as Hsh.
    destruct (lookup_lt_is_Some_2 (workers s) i) as [pc Hpc]; [by rw Hlen|]. rw Hpc in Hsh |- *.
    destruct (hworkers hs !! i) as [h|] eqn:Hh; [|by inversion Hsh]. inversion_clear Hsh as [? ? Hsame|].
    destruct pc; rw ?Hh; destruct h; try done.
    split; [by destruct Hs; split|]. rw (pool_rel_same _ _ _ _ _ s) //. simpl. by rw Hc.
  - split; [by destruct Hs; split|]. rw (pool_rel_same _ _ _ _ _ s) //. simpl. by rw Hc.
Qed.

(** The flag is set, the condition broadcast, and in the end the pool is freed. *)
Lemma set_simulated hs s :
  refines hs s → client s = SSet → simulated (hclient_step pp p hs) (client_step s).
Proof.
  intros R Hc. unfold hclient_step, client_step, with_pool.
  rw (same_client _ _ _ _ (ref_same _ _ _ _ _ _ _ _ R)) Hc. destruct (alive s) eqn:Ha; [|apply simulated_crash].
  part hs s. iIntros "[Hpool Ht]". open_pool Ha. rw Hc.
  iDestruct "Hpool" as "[((%hd & Hp & Hc) & Hws & Hq) Hpp]". unfold deref. wp_read "Hpp".
  iApply (wp_set with "Hp"). iIntros "Hp". next R. iFrame "Ht". open_pool Ha. iFrame.
Qed.

Lemma broadcast_simulated hs s :
  refines hs s → client s = SBroadcast → simulated (hclient_step pp p hs) (client_step s).
Proof.
  intros R Hc. unfold hclient_step, client_step, with_pool.
  rw (same_client _ _ _ _ (ref_same _ _ _ _ _ _ _ _ R)) Hc. destruct (alive s) eqn:Ha; [|apply simulated_crash].
  part hs s. iIntros "[Hpool Ht]". open_pool Ha. rw Hc.
  iDestruct "Hpool" as "[(Hp & Hws & Hq) Hpp]". unfold deref. wp_read "Hpp".
  iApply (wp_use_condition with "Hp"). iIntros "Hp". next R.
  iSplitR "Ht"; [|by iApply wake_follows]. open_pool Ha. rw ids_wake. iFrame.
Qed.

Lemma release_simulated hs s :
  refines hs s → client s = SFree → simulated (hclient_step pp p hs) (client_step s).
Proof.
  intros R Hc. unfold hclient_step, client_step, with_pool.
  rw (same_client _ _ _ _ (ref_same _ _ _ _ _ _ _ _ R)) Hc. destruct (alive s) eqn:Ha; [|apply simulated_crash].
  part hs s. iIntros "[Hpool Ht]". open_pool Ha. rw Hc.
  iDestruct "Hpool" as "[(Hp & Hws & _) Hpp]".
  iApply (wp_release with "Hpp Hp Hws"). iIntros "Hpp". next R. iFrame "Ht".
  unfold PoolConcRel.pool_rel. simpl. by iFrame.
Qed.

Lemma client_simulated hs s :
  1 ≤ n → pp ≠ NULL → p ≠ NULL → refines hs s → tame n s →
  simulated (hclient_step pp p hs) (client_step s).
Proof.
  intros Hn Hpp Hp R T. pose proof (threads_shape _ _ _ _ _ _ _ _ R) as [Hws Hps].
  destruct (ref_same _ _ _ _ _ _ _ _ R) as [H1 H2 H3 H4].
  destruct (client s) as [i| | | | | |i| |] eqn:Hc;
    [| | |by apply set_simulated|by apply broadcast_simulated| |by apply (join_simulated hs s i)
     |by apply release_simulated|].
  all: unfold hclient_step, client_step; rw H2 Hc ?H1 ?H3 ?(resting_same _ _ Hps).
  - case_bool_decide; [by apply (create_simulated hs s i true)|by apply (created_simulated hs s i)].
  - destruct (waits s && negb (forallb resting (producers s))); [done|]. by apply given_simulated.
  - apply hlock_simulated; try done; [by apply client_gives_pool; rw Hc|by simpl; rw Hc|unchanged].
  - apply hunlock_simulated; try done; [by apply client_gives_pool; rw Hc| |by simpl; rw Hc|unchanged].
    apply (owns s Client T). simpl. by rw Hc.
  - done.
Qed.

(** *** Every move *)

Lemma exec_simulated hs s c :
  1 ≤ n → pp ≠ NULL → p ≠ NULL → refines hs s → tame n s → simulated (hexec pp p c hs) (exec c s).
Proof.
  intros Hn Hpp Hp R T. pose proof (threads_shape _ _ _ _ _ _ _ _ R) as [Hws Hps].
  destruct c as [i|i ok j| |i|]; simpl; [| |by apply client_simulated| |].
  - pose proof (proj1 (Forall2_lookup _ _ _) Hws i) as Hi.
    destruct (hworkers hs !! i) as [h|] eqn:Hh, (workers s !! i) as [pc|] eqn:Hw; try by inversion Hi.
    by apply worker_simulated.
  - pose proof (proj1 (Forall2_lookup _ _ _) Hps i) as Hi.
    destruct (hproducers hs !! i) as [h|] eqn:Hh, (producers s !! i) as [pr|] eqn:Hw; try by inversion Hi.
    by apply producer_simulated.
  - pose proof (proj1 (Forall2_lookup _ _ _) Hws i) as Hi.
    destruct (hworkers hs !! i) as [h|] eqn:Hh, (workers s !! i) as [pc|] eqn:Hw; try by inversion Hi.
    inversion_clear Hi as [? ? Hsh|]. destruct h, pc; try done.
    unfold with_pool. destruct (alive s) eqn:Ha; [|apply simulated_crash].
    part hs s. iIntros "[Hpool Ht]".
    iApply (wp_condition s with "Hpool"); [done|]. iIntros "Hpool". next R.
    rw (worker_pool s _ i WWait _ Hw) //. iFrame "Hpool". by iApply (worker_follows hs s s with "Ht").
  - destruct (ref_same _ _ _ _ _ _ _ _ R) as [H1 H2 H3 H4]. rw H1 H2.
    destruct (client s) as [i| | | | | | | |] eqn:Hc; try done. case_bool_decide; [|done].
    by apply (create_simulated hs s i false).
Qed.
End simulation.
