(* ===== verification/PoolConcProps.v ===== *)
(** * PoolConcProps: the pool on its memory refines the pool of the file ThreadPool

    What the files ThreadPoolInv, ThreadPoolLive and ThreadPoolRun say of the threads on lists
    carries over to the memory, along every schedule. *)

From iris.proofmode Require Import environments proofmode.
From stdpp Require Import gmap strings relations.
From S2P Require Import Prelude HProp Mem Chain ThreadPool ThreadPoolInv ThreadPoolLive ThreadPoolRun ThreadPoolProps.
From S2P Require Import PoolHeap PoolHeapProps PoolConc PoolConcRel PoolConcSim.

Open Scope Z_scope.

(** ** Runs *)

(** The representation of a pool that has just been allocated. *)
Lemma created_refines n wt progs w q pp p m :
  pp ≠ NULL → run (alloc_pool n) {[pp := PPtr q]} w = Ok p m → p ≠ NULL →
  ∃ s0 ws, ThreadPool.tpool_create n true true wt progs = Some s0 ∧ 1 ≤ n ∧ pp ≠ p ∧
    refines n pp q p ws (user_calls (trace w)) (hinit n wt progs m) s0.
Proof.
  intros Hpp Hrun Hp.
  destruct (wp_runs (alloc_pool n) (pp ↦ as_cell (q : ptr))%I (State {[pp := PPtr q]} w)
    (λ a w', ⌜a = NULL⌝ ∨ ∃ ws, ⟪create_spec n w = (true, w') ∧ pp ≠ a⟫ ∗ pp ↦ as_cell (q : ptr) ∗
       pool_at a ws (u8 n) [] ∗ ws ↦ as_cell (Threads (replicate (Z.to_nat n) None)))%I)
    as (a & m' & w' & Hc & HQ); [done| |].
  { iIntros "Hpp". iApply wp_alloc_pool. iSplit; [iIntros (w' _); by iLeft|].
    iIntros (w' a ws [Hspec _]) "(%hd & Hp & Hc) Hw". iRight. iExists ws.
    destruct (decide (pp = a)) as [->|Hne]; [by iDestruct (pointsto_exclusive with "Hpp Hp") as %[]|].
    iSplitR; [done|]. iFrame "Hpp Hw". iExists hd. iFrame. }
  unfold run in Hrun. rw Hrun in Hc. injection Hc as <- ->.
  destruct HQ as [HQ|HQ]; [by destruct (Hp HQ)|].
  apply holds_exist in HQ as (ws & HQ).
  apply holds_sep in HQ as (m1 & m2 & -> & _ & [-> [Hspec Hne]]%holds_affine & HQ).
  unfold create_spec in Hspec. unfold ThreadPool.tpool_create.
  destruct (Z.ltb_spec n 1); [done|]. eexists _, ws. do 3 (split; [done|]).
  repeat case_match; simplify_eq/=. split; [split; [done..|]|].
  - simpl. by rw app_nil_r.
  - rw left_id_L. apply (holds_entails (pp ↦ as_cell (q : ptr) ∗ pool_at p ws (u8 n) [] ∗
      ws ↦ as_cell (Threads (replicate (Z.to_nat n) None)))%I); [|exact HQ]. iIntros "(Hpp & Hp & Hw)".
    unfold pool_rel, object_rel, threads_rel. simpl. rw ids_nil. iFrame. iSplitR; [iPureIntro; constructor|].
    rw big_sepL2_fmap_l big_sepL2_fmap_r. iSplitR; [done|].
    iApply big_sepL_sepL2_diag. iApply big_sepL_intro. iIntros "!>" (k ts _). by iSplitR.
Qed.

(** A pool of the file ThreadPool that has just been created, whatever its size. *)
Lemma tame_create n wt progs s :
  1 ≤ n → ThreadPool.tpool_create n true true wt progs = Some s → tame n s.
Proof.
  intros Hn H. unfold ThreadPool.tpool_create in H. destruct (Z.ltb_spec n 1); [lia|].
  injection H as <-. split; try done.
  - intros [|i|i]; simpl; [done|done|]. rw list_lookup_fmap. by destruct (progs !! i).
  - split; unfold created; simpl; lia.
Qed.

Section runs.
Context (n : Z) (pp q p ws : ptr) (calls : list event).
Context (Hn : 1 ≤ n) (Hpp : pp ≠ NULL) (Hp : p ≠ NULL).

(** A schedule that the threads on lists survive is survived on the memory, with related
    states after it. *)
Lemma exec_all_simulated sched hs s s' :
  tame n s → refines n pp q p ws calls hs s → exec_all sched s = Next s' →
  ∃ hs', hexec_all pp p sched hs = HGo hs' ∧ refines n pp q p ws calls hs' s' ∧ tame n s'.
Proof.
  revert hs s. induction sched as [|c sched IH]; intros hs s T R H; simpl in *.
  { injection H as <-. by exists hs. }
  pose proof (exec_simulated n pp q p ws calls hs s c Hn Hpp Hp R T) as Hc.
  destruct (exec c s) as [| |s1] eqn:E; [|done|]; destruct (hexec pp p c hs) as [|e|hs1]; try done.
  - by apply (IH hs s).
  - apply (IH hs1 s1); [by eapply tame_step|done..].
Qed.

(** The worker is at its first lock, or it has returned. *)
Definition idle (pc : wpc) : Prop := pc = WLock ∨ pc = WDone.

(** Once the client has returned and the other threads own nothing, its variable, which
    is NULL, is the only cell that is left. *)
Lemma all_freed hs s :
  refines n pp q p ws calls hs s → tame n s → client s = CDone → Forall idle (workers s) →
  forallb resting (producers s) = true → memory (hstore hs) = {[pp := PPtr NULL]}.
Proof.
  intros [_ H] T Hc Hw Hr. destruct (tame_shutdown _ _ T) as [_ Ha]. rw Hc in Ha.
  apply (holds_entails _ (pp ↦ as_cell (NULL : ptr))%I) in H; [by destruct H|].
  unfold pool_rel, threads_rel. rw Ha Hc.
  rw (sepL2_emp worker_rel (hworkers hs) (workers s) idle); [|by intros [] ? [-> | ->]; try iIntros "[]"|done].
  rw (sepL2_emp producer_rel (hproducers hs) (producers s) (λ pr, resting pr = true)).
  - by rw !left_id right_id.
  - intros [h ts] [pc us]. unfold producer_rel. destruct pc, us; try done. intros _.
    destruct h; try by iIntros "[_ %]". by iIntros "[_ _]".
  - apply Forall_forall. intros pr Hpr. rw forallb_forall in Hr. apply Hr. by apply list_elem_of_In.
Qed.

Lemma terminated_freed hs s :
  refines n pp q p ws calls hs s → tame n s → terminated s → memory (hstore hs) = {[pp := PPtr NULL]}.
Proof.
  intros R T (Hc & Hw & Hr). apply (all_freed hs s); try done.
  by eapply Forall_impl; [exact Hw|]; intros ? <-; right.
Qed.

(** A worker that is about to lock the mutex of a pool that has been freed. *)
Lemma lock_freed hs k :
  p ≠ pp → memory (hstore hs) = {[pp := PPtr NULL]} → hworkers hs !! k = Some HLock →
  hexec pp p (ChWorker k) hs = HCrash (BadAccess p).
Proof.
  intros Hne Hm Hk. simpl. rw Hk. unfold hworker_step, hlock, hrun, pool_locked.
  destruct hs as [[mem w] ? ? ? ? ?]. simpl in *. subst mem.
  assert (get p_mutex p (State {[pp := PPtr NULL]} w) = Err (BadAccess p)) as Hget.
  { unfold get, load_struct, load, mbind, M_bind. rw (proj2 (Z.eqb_neq _ _) Hp) /=.
    by rw lookup_singleton_ne. }
  by unfold lock_pool, mutex_lock, mret, M_ret, mbind, M_bind; rw Hget.
Qed.
End runs.

(** Every thread that has been asked for exists. *)
Definition all_threads (s : st) : Prop := ∀ k, workers s !! k ≠ Some WNone.

Lemma all_threads_step s s' c :
  all_threads s → c ≠ ChNoThread → exec c s = Next s' → all_threads s'.
Proof.
  unfold all_threads. destruct s as [[o ow nw sh] al rq ws cl wt ps h]. intros I Hc H.
  destruct c as [i|i ok j| |i|]; exec_cases H; try done; intros k Hk; moved; try done; try by eapply I.
  apply fmap_Some in Hk as (pc & Hk & E). destruct pc; try done. by eapply I.
Qed.

(** No schedule crashes when the client waits for the producers and no creation of a thread fails. *)
Lemma exec_all_safe k progs sched s :
  inv k progs s → waits s = true → all_threads s → ChNoThread ∉ sched →
  ∃ s', exec_all sched s = Next s'.
Proof.
  revert s. induction sched as [|c sched IH]; intros s I Hw Ht Hs; simpl; [by exists s|].
  apply not_elem_of_cons in Hs as [Hc Hs].
  destruct (exec c s) as [| |s1] eqn:E; [by apply IH| |].
  - destruct (inv_crash _ _ _ _ I E) as [[H _]|[_ (i & _ & H)]]; [by rw Hw in H|by destruct (Ht i)].
  - apply IH; [by eapply inv_step| |by eapply all_threads_step|done].
    by destruct (exec_constant _ _ _ E) as (_ & _ & -> & _).
Qed.

Lemma step_schedule s s' : rtc step s s' → ∃ cs, exec_all cs s = Next s'.
Proof.
  induction 1 as [s|s s1 s' [c Hc] _ [cs IH]]; [by exists []|]. exists (c :: cs). simpl. by rw Hc.
Qed.

(** C23: the pool on its memory, by any number of threads at once: a pool of any size is
    allocated in the store for the variable [pp] of a client, and threads that read and write its
    object, its nodes and its array move as the schedule says.  Under every schedule that
    the threads of the file ThreadPool survive (for 1 to 255 threads all schedules in which no
    creation of a thread fails, when the client waits for the producers) those on the
    memory make the same moves, follow no NULL or freed pointer, lock and unlock the mutex in
    turn, join threads that the array holds and never call a null function; the functions
    that have been called, and their arguments, are those of the finished tasks in their order; and
    when everything is over no cell is left but the variable, which is NULL. *)
Theorem tpool_memory_refines n wt progs sched w q pp p m :
  pp ≠ NULL → run (alloc_pool n) {[pp := PPtr q]} w = Ok p m → p ≠ NULL →
  ∃ s0, ThreadPool.tpool_create n true true wt progs = Some s0 ∧
    (n ≤ 255 → wt = true → ChNoThread ∉ sched → ∃ s, exec_all sched s0 = Next s) ∧
    (∀ s, exec_all sched s0 = Next s → ∃ hs,
       hexec_all pp p sched (hinit n wt progs m) = HGo hs ∧
       hclient hs = client s ∧
       user_calls (trace (wld (hstore hs))) =
         user_calls (trace w) ++ task_calls (finished (hist s)) ∧
       (terminated s → memory (hstore hs) = {[pp := PPtr NULL]})).
Proof.
  intros Hpp Hrun Hp.
  destruct (created_refines n wt progs w q pp p m Hpp Hrun Hp) as (s0 & ws & H0 & Hn & _ & R).
  exists s0. pose proof (tame_create _ _ _ _ Hn H0) as T. split; [done|]. split.
  - intros Hn' -> Hs. pose proof (inv_create _ _ _ _ (conj Hn Hn') H0) as I.
    apply (exec_all_safe (Z.to_nat n) progs); [done| | |done].
    + apply (waits_reachable n true progs). by exists s0.
    + unfold ThreadPool.tpool_create in H0. repeat case_match; simplify_eq/=. by intros k.
  - intros s Hs.
    destruct (exec_all_simulated n pp q p ws _ Hn Hpp Hp _ _ _ _ T R Hs) as (hs & Hhs & R' & T').
    exists hs. split; [done|]. destruct (ref_same _ _ _ _ _ _ _ _ R'). repeat split; [done..|].
    by eapply terminated_freed.
Qed.

(** One thread, two producers with one task each, and a run to the end. *)
Definition world_ex : world := World [] [] 0 [].
Definition tasks_ex : list (list task) := [[Task 7 8]; [Task 9 10]].
Definition sched_ex : list choice :=
  replicate 2 ChClient ++ replicate 5 (ChProducer 0 true 0) ++ replicate 5 (ChProducer 1 true 0) ++
  replicate 10 (ChWorker 0) ++ replicate 5 ChClient ++ replicate 3 (ChWorker 0) ++ replicate 3 ChClient.
(** A pool of [n] threads for a client whose variable is at the address 5 and not initialised. *)
Definition created_ex (n : Z) : ptr * state pcell :=
  match run (alloc_pool n) {[5 := PPtr 77]} world_ex with
  | Ok p m => (p, m)
  | Err _ => (NULL, State ∅ world_ex)
  end.

Lemma tpool_memory_refines_witness :
  ∃ hs, hexec_all 5 (created_ex 1).1 sched_ex (hinit 1 true tasks_ex (created_ex 1).2) = HGo hs ∧
    hclient hs = CDone ∧ memory (hstore hs) = {[5 := PPtr NULL]} ∧
    user_calls (trace (wld (hstore hs))) = [EvCall 7 [8]; EvCall 9 [10]].
Proof.
  destruct (tpool_memory_refines 1 true tasks_ex sched_ex world_ex 77 5 (created_ex 1).1 (created_ex 1).2)
    as (s0 & H0 & H1 & H2); [discriminate|vm_compute; reflexivity|vm_compute; discriminate|].
  injection H0 as <-. destruct (H2 (state_of (exec_all sched_ex (at_start 1 true tasks_ex)) (at_start 1 true tasks_ex)))
    as (hs & Hhs & Hc & Hu & He); [vm_compute; reflexivity|].
  exists hs. split; [exact Hhs|]. split; [rw Hc; reflexivity|]. split.
  - apply He. split; [reflexivity|]. split; [repeat constructor|reflexivity].
  - rw Hu. reflexivity.
Defined.

(** C22: more than 255 threads: the number of threads is truncated to 8 bits in the pool but
    not in the loop that creates them.  Whatever the producers submit, there is a run, in which every
    thread is created, after which the client has returned from [tpool_shutdown], its
    variable is NULL and everything the pool owned has been freed; those threads that
    were joined have returned, and each of the others, from number [n mod 256] on, is about to lock
    the mutex inside the freed pool object. *)
Theorem tpool_many_threads_memory n wt progs w q pp p m :
  255 < n → forallb (forallb task_ok) progs = true →
  pp ≠ NULL → run (alloc_pool n) {[pp := PPtr q]} w = Ok p m → p ≠ NULL →
  ∃ sched hs, hexec_all pp p sched (hinit n wt progs m) = HGo hs ∧
    hclient hs = CDone ∧ memory (hstore hs) = {[pp := PPtr NULL]} ∧
    length (hworkers hs) = Z.to_nat n ∧
    (∀ k, Z.of_nat k < n mod 256 → hworkers hs !! k = Some HDone) ∧
    (∀ k, n mod 256 ≤ Z.of_nat k < n → hexec pp p (ChWorker k) hs = HCrash (BadAccess p)).
Proof.
  intros H255 Hok Hpp Hrun Hp.
  destruct (created_refines n wt progs w q pp p m Hpp Hrun Hp) as (s0 & ws & H0 & Hn & Hne & R).
  pose proof (tame_create _ _ _ _ Hn H0) as T.
  destruct (all_dropped_reachable n wt progs Hn Hok) as (s1 & H1 & Hr).
  assert (s1 = s0) as -> by (rw H0 in H1; by injection H1).
  destruct (step_schedule _ _ Hr) as [sched Hs]. exists sched.
  destruct (exec_all_simulated n pp q p ws _ Hn Hpp Hp _ _ _ _ T R Hs) as (hs & Hhs & R' & T').
  exists hs. split; [done|]. pose proof (threads_shape _ _ _ _ _ _ _ _ R') as [Hw _].
  assert (memory (hstore hs) = {[pp := PPtr NULL]}) as Hm.
  { eapply all_freed; [exact R'|exact T'|done| |apply rested_resting].
    apply Forall_app_2; apply Forall_replicate; [by right|by left]. }
  destruct (ref_same _ _ _ _ _ _ _ _ R') as [_ Hc _ _]. rw Hc. split; [done|]. split; [done|].
  split; [rw (Forall2_length _ _ _ Hw); by apply left_alone_length|].
  pose proof (λ k, proj1 (Forall2_lookup _ _ _) Hw k) as Hk. simpl in Hk.
  split; intros k Hlt; specialize (Hk k).
  - rw (left_alone_joined n Hn k Hlt) in Hk. inversion Hk as [h ? Hsh|]. by destruct h.
  - apply lock_freed; [done|done|done|]. rw (left_alone_lookup n Hn k Hlt) in Hk.
    inversion Hk as [h ? Hsh|]. by destruct h.
Qed.

Lemma tpool_many_threads_memory_witness :
  ∃ sched hs,
    hexec_all 5 (created_ex 300).1 sched (hinit 300 true tasks_ex (created_ex 300).2) = HGo hs ∧
    hclient hs = CDone ∧
    hexec 5 (created_ex 300).1 (ChWorker 44) hs = HCrash (BadAccess (created_ex 300).1).
Proof.
  destruct (tpool_many_threads_memory 300 true tasks_ex world_ex 77 5 (created_ex 300).1 (created_ex 300).2)
    as (sched & hs & Hhs & Hc & _ & _ & _ & H);
    [reflexivity|reflexivity|discriminate|vm_compute; reflexivity|vm_compute; discriminate|].
  exists sched, hs. split; [exact Hhs|]. split; [exact Hc|]. apply H. split; [discriminate|reflexivity].
Defined.

(** A client that does not wait: the producer, whose task has been allocated before the
    shutdown, locks a mutex inside the pool object that has been freed. *)
Definition late_sched_ex : list choice :=
  replicate 2 ChClient ++ [ChProducer 0 true 0] ++ replicate 5 ChClient ++ replicate 3 (ChWorker 0) ++
  replicate 4 ChClient ++ [ChProducer 0 true 0].

Lemma late_enqueue_dangles :
  hexec_all 5 (created_ex 1).1 late_sched_ex (hinit 1 false tasks_ex (created_ex 1).2) =
  HCrash (BadAccess (created_ex 1).1).
Proof. vm_compute. reflexivity. Qed.

(** The second thread cannot be created, and the shutdown joins it: its place in the
    array has not been filled. *)
Definition failed_sched_ex : list choice :=
  [ChClient; ChNoThread; ChClient] ++ replicate 5 ChClient ++ replicate 3 (ChWorker 0) ++ replicate 2 ChClient.

Lemma failed_thread_is_joined :
  hexec_all 5 (created_ex 2).1 failed_sched_ex (hinit 2 true [] (created_ex 2).2) = HCrash BadThread.
Proof. vm_compute. reflexivity. Qed.
