(* ===== verification/SigHandlers.v ===== *)
(** * SigHandlers: sig_handlers/sig_handler_lib.c

    The state is the signal mask and the handlers of the process, the global flag
    [gb_is_running] with its mutex, [errno] and the messages printed.  The signal
    set functions and [sigprocmask], [sigaction] are those of Linux and glibc: the
    signals are 1 to 64 but for the two that glibc reserves, and SIGKILL and SIGSTOP
    can neither be blocked nor handled.  The sections of the code under the mutex
    are lists of atomic actions, so that a signal can arrive between any two. *)

From stdpp Require Import base gmap list strings.
From S2P Require Import Prelude.

Open Scope Z_scope.

Definition SIGINT : Z := 2.
Definition SIGQUIT : Z := 3.
Definition SIGKILL : Z := 9.
Definition SIGSTOP : Z := 19.
Definition SIGRTMAX : Z := 64.
Definition EINVAL : Z := 22.

(** ** State and outcomes *)

Inductive lock_state := LockFree | LockHeld.

Record sigst := SigSt {
  mask : gset Z;
  handlers : gmap Z ptr;
  gb_is_running : Z;
  gb_is_running_mutex : lock_state;
  errno : Z;
  messages : list string
}.

Inductive sigerr :=
  | SigDeadlock          (* lock of a mutex that the same thread holds *)
  | SigBadUnlock         (* unlock of a free mutex *)
  | SigBadVarargs.       (* va_arg past the last argument *)

Definition sm (A : Type) : Type := sigst → (A * sigst) + sigerr.
#[export] Instance sm_ret : MRet sm := λ A a s, inl (a, s).
#[export] Instance sm_bind : MBind sm := λ A B k c s,
  match c s with inl (a, s') => k a s' | inr e => inr e end.

Definition set_mask m s := SigSt m (handlers s) (gb_is_running s) (gb_is_running_mutex s) (errno s) (messages s).
Definition set_handlers h s := SigSt (mask s) h (gb_is_running s) (gb_is_running_mutex s) (errno s) (messages s).
Definition set_running v s := SigSt (mask s) (handlers s) v (gb_is_running_mutex s) (errno s) (messages s).
Definition set_mutex l s := SigSt (mask s) (handlers s) (gb_is_running s) l (errno s) (messages s).
Definition set_errno e s := SigSt (mask s) (handlers s) (gb_is_running s) (gb_is_running_mutex s) e (messages s).
Definition add_message x s :=
  SigSt (mask s) (handlers s) (gb_is_running s) (gb_is_running_mutex s) (errno s) (messages s ++ [x]).

Definition modify (f : sigst → sigst) : sm () := λ s, inl ((), f s).
Definition perror (msg : string) : sm () := modify (add_message msg).

(** ** The signal functions of the system *)

Definition valid_signal (s : Z) : bool :=
  (1 <=? s) && (s <=? SIGRTMAX) && negb ((s =? 32) || (s =? 33)).

Definition unblockable : gset Z := {[SIGKILL; SIGSTOP]}.

Definition all_signals : gset Z := list_to_set (filter valid_signal (seqZ 1 SIGRTMAX)).

(** 0, or -1 with the cause in [errno]. *)
Definition sigemptyset : sm (Z * gset Z) := mret (0, ∅).
Definition sigfillset : sm (Z * gset Z) := mret (0, all_signals).
Definition sigaddset (set : gset Z) (signum : Z) : sm (Z * gset Z) :=
  if valid_signal signum then mret (0, {[signum]} ∪ set)
  else modify (set_errno EINVAL);; mret (-1, set).

Definition SIG_BLOCK : Z := 0.
Definition SIG_UNBLOCK : Z := 1.

Definition sigprocmask (how : Z) (set : gset Z) : sm Z :=
  if how =? SIG_BLOCK then modify (λ s, set_mask (mask s ∪ (set ∖ unblockable)) s);; mret 0
  else if how =? SIG_UNBLOCK then modify (λ s, set_mask (mask s ∖ set) s);; mret 0
  else modify (set_errno EINVAL);; mret (-1).

Definition sigaction (signum : Z) (func : ptr) : sm Z :=
  if valid_signal signum && negb ((signum =? SIGKILL) || (signum =? SIGSTOP))
  then modify (λ s, set_handlers (<[signum := func]> (handlers s)) s);; mret 0
  else modify (set_errno EINVAL);; mret (-1).

(** ** Sections under the mutex *)

Inductive act := ALock | AUnlock | ASet (v : Z) | ATest.

(** [b] is the local variable [b_result]. *)
Definition run_act (a : act) (b : bool) : sm bool := λ s,
  match a with
  | ALock => match gb_is_running_mutex s with
             | LockFree => inl (b, set_mutex LockHeld s)
             | LockHeld => inr SigDeadlock
             end
  | AUnlock => match gb_is_running_mutex s with
               | LockHeld => inl (b, set_mutex LockFree s)
               | LockFree => inr SigBadUnlock
               end
  | ASet v => inl (b, set_running v s)
  | ATest => inl (negb (gb_is_running s =? 0), s)
  end.

Fixpoint run_acts (l : list act) (b : bool) : sm bool :=
  match l with [] => mret b | a :: l => b' ← run_act a b; run_acts l b' end.

Definition start_acts : list act := [ALock; ASet 1; AUnlock].
Definition is_program_running_acts : list act := [ALock; ATest; AUnlock].
Definition stop_program_acts : list act := [ALock; ASet 0; AUnlock].
Definition signal_handler_acts (sig : Z) : list act :=
  if (sig =? 0) || (sig <? 1) || (SIGRTMAX <? sig) then []
  else if (SIGINT =? sig) || (SIGQUIT =? sig) then [ALock; ASet 0; AUnlock] else [].

Definition is_program_running : sm bool := run_acts is_program_running_acts false.
Definition stop_program : sm () := run_acts stop_program_acts false;; mret ().
Definition signal_handler (sig : Z) : sm () := run_acts (signal_handler_acts sig) false;; mret ().

(** A signal that arrives in a section after its first [k] actions. *)
Definition interrupted (k : nat) (sig : Z) (l : list act) : list act :=
  take k l ++ signal_handler_acts sig ++ drop k l.

(** Can the signal reach its handler. *)
Definition deliverable (sig : Z) (s : sigst) : Prop :=
  is_Some (handlers s !! sig) ∧ sig ∉ mask s.

(** ** The exported functions *)

Definition establish_sig_handler (signum : Z) (func : ptr) : sm Z :=
  if (signum <? 1) || (SIGRTMAX <? signum) || (func =? NULL) then mret 1 else
  sig_act_value ← sigaction signum func;
  if sig_act_value =? -1 then
    perror "sigaction";; modify (set_errno 0);; mret 1
  else
    run_acts start_acts false;; mret 0.

(** The loop over the variable arguments: the last result of [sigaddset], and the set. *)
Fixpoint add_signals (n : nat) (args : list Z) (result : Z) (set : gset Z) : sm (Z * gset Z) :=
  match n with
  | O => mret (result, set)
  | S n =>
    match args with
    | [] => λ _, inr SigBadVarargs
    | signum :: args =>
      '(result, set) ← sigaddset set signum;
      if result =? -1 then
        perror "sigaddset";; modify (set_errno 0);; mret (result, set)
      else add_signals n args result set
    end
  end.

(** [block_signals] and [unblock_signals] differ in [how] and in a message. *)
Definition change_signals (how : Z) (msg : string) (num_signals : Z) (args : list Z) : sm Z :=
  '(result, set) ← sigemptyset;
  if result =? -1 then perror "sigemptyset";; modify (set_errno 0);; mret 1 else
  '(result, set) ← add_signals (Z.to_nat num_signals) args result set;
  if result =? -1 then mret result else
  result ← sigprocmask how set;
  if result =? -1 then perror msg;; modify (set_errno 0);; mret 1 else mret result.

Definition block_signals : Z → list Z → sm Z := change_signals SIG_BLOCK "sigpromask".
Definition unblock_signals : Z → list Z → sm Z := change_signals SIG_UNBLOCK "sigprocmask".

Definition block_all_signals : sm Z :=
  '(result, set) ← sigfillset;
  if result =? -1 then perror "sigfillset";; mret 1 else
  result ← sigprocmask SIG_BLOCK set;
  if result =? -1 then perror "sigprocmask";; mret 1 else mret result.

Definition unblock_all_signals : sm Z :=
  '(result, set) ← sigemptyset;
  if result =? -1 then perror "sigemptyset";; mret 1 else
  result ← sigprocmask SIG_UNBLOCK set;
  if result =? -1 then perror "sigprocmask";; mret 1 else mret result.

Definition block_signal (signum : Z) : sm () :=
  if (signum <? 1) || (SIGRTMAX <? signum) then mret () else
  '(_, set) ← sigemptyset;
  '(_, set) ← sigaddset set signum;
  result ← sigprocmask SIG_BLOCK set;
  if result =? -1 then perror "sigprocmask" else mret ().

(** ** Facts *)

Lemma add_signals_valid args extra r set s :
  Forall (λ x, valid_signal x = true) args → r ≠ -1 →
  ∃ r', r' ≠ -1 ∧
    add_signals (length args) (args ++ extra) r set s = inl ((r', list_to_set args ∪ set), s).
Proof.
  revert r set. induction args as [|x args IH]; intros r set Hv Hr; simpl.
  - exists r. by rewrite union_empty_l_L.
  - apply Forall_cons in Hv as [Hx Hv]. unfold sigaddset. rewrite Hx.
    destruct (IH 0 ({[x]} ∪ set) Hv) as (r' & Hr' & E); [done|].
    exists r'. split; [done|]. unfold mbind, sm_bind, mret, sm_ret in *. simpl. rewrite E.
    do 3 f_equal. set_solver.
Qed.

Lemma add_signals_invalid args x extra r set s :
  Forall (λ x, valid_signal x = true) args → valid_signal x = false →
  ∃ set', add_signals (S (length args)) (args ++ x :: extra) r set s =
    inl ((-1, set'), set_errno 0 (add_message "sigaddset" (set_errno EINVAL s))).
Proof.
  revert r set. induction args as [|y args IH]; intros r set Hv Hx; simpl.
  - unfold sigaddset, mbind, sm_bind, modify, perror. rewrite Hx. by eexists.
  - apply Forall_cons in Hv as [Hy Hv]. unfold sigaddset. rewrite Hy.
    destruct (IH 0 ({[y]} ∪ set) Hv Hx) as [set' E]. exists set'.
    unfold mbind, sm_bind, mret, sm_ret in *. simpl in *. exact E.
Qed.
