(* ===== verification/SigProps.v ===== *)
(** * SigProps: what sig_handler_lib.c guarantees *)

From stdpp Require Import base gmap list strings.
From S2P Require Import Prelude SigHandlers.

Open Scope Z_scope.

#[local] Arguments add_signals : simpl never.

Definition sig_ex : sigst := SigSt ∅ ∅ 0 LockFree 0 [].

Lemma block_valid args s :
  Forall (λ x, valid_signal x = true) args →
  block_signals (Z.of_nat (length args)) args s =
    inl (0, set_mask (mask s ∪ (list_to_set args ∖ unblockable)) s).
Proof.
  intros Hv. destruct (add_signals_valid args [] 0 ∅ s Hv) as (r & Hr & E); [done|].
  rewrite app_nil_r in E. unfold block_signals, change_signals, mbind, sm_bind in *. simpl.
  rewrite Nat2Z.id, E. rewrite (proj2 (Z.eqb_neq _ _) Hr). simpl. by rewrite union_empty_r_L.
Qed.

Lemma unblock_valid args s :
  Forall (λ x, valid_signal x = true) args →
  unblock_signals (Z.of_nat (length args)) args s =
    inl (0, set_mask (mask s ∖ list_to_set args) s).
Proof.
  intros Hv. destruct (add_signals_valid args [] 0 ∅ s Hv) as (r & Hr & E); [done|].
  rewrite app_nil_r in E. unfold unblock_signals, change_signals, mbind, sm_bind in *. simpl.
  rewrite Nat2Z.id, E. rewrite (proj2 (Z.eqb_neq _ _) Hr). simpl. by rewrite union_empty_r_L.
Qed.

Lemma block_signal_result x s :
  block_signal x s = inl ((),
    if valid_signal x then set_mask (mask s ∪ ({[x]} ∖ unblockable)) s
    else if (1 <=? x) && (x <=? SIGRTMAX) then set_errno EINVAL s else s).
Proof.
  unfold block_signal, sigaddset, mbind, sm_bind, mret, sm_ret.
  destruct (decide (1 ≤ x ≤ SIGRTMAX)) as [Hx|Hx].
  - rewrite !(proj2 (Z.ltb_ge _ _)), !(proj2 (Z.leb_le _ _)) by lia. simpl.
    destruct (valid_signal x); simpl.
    + by rewrite union_empty_r_L.
    + unfold set_mask. destruct s. simpl. by rewrite empty_difference_L, union_empty_r_L.
  - assert ((x <? 1) || (SIGRTMAX <? x) = true) as ->.
    { apply orb_true_iff. rewrite !Z.ltb_lt. lia. }
    assert ((1 <=? x) && (x <=? SIGRTMAX) = false) as E.
    { apply andb_false_iff. rewrite !Z.leb_gt. lia. }
    rewrite E. unfold valid_signal. by rewrite E.
Qed.

Lemma block_all_result s :
  block_all_signals s = inl (0, set_mask (mask s ∪ (all_signals ∖ unblockable)) s).
Proof. done. Qed.

(** The empty set is passed: nothing is unblocked. *)
Lemma unblock_all_result s : unblock_all_signals s = inl (0, s).
Proof.
  destruct s as [m h r l e o]. unfold unblock_all_signals, mbind, sm_bind. simpl.
  unfold set_mask. simpl. by rewrite difference_empty_L.
Qed.

(** C25: [block_signals] adds exactly the given signals to the mask, but for SIGKILL
    and SIGSTOP, and returns 0; [unblock_signals] removes them, and undoes a
    blocking of signals that were not blocked; a signal number that does not
    exist makes both return -1, with a message and the mask as it was.
    [block_signal] blocks one signal, and does nothing when it is out of range.
    [block_all_signals] blocks every signal but SIGKILL and SIGSTOP, but
    [unblock_all_signals], which also returns 0, unblocks nothing. *)
Theorem block_unblock_signals args s :
  Forall (λ x, valid_signal x = true) args →
  let n := Z.of_nat (length args) in
  (∃ s1, block_signals n args s = inl (0, s1) ∧
     mask s1 = mask s ∪ (list_to_set args ∖ unblockable) ∧
     (list_to_set args ## mask s → unblock_signals n args s1 = inl (0, s))) ∧
  (∀ x extra, valid_signal x = false →
     let s' := set_errno 0 (add_message "sigaddset" (set_errno EINVAL s)) in
     block_signals (n + 1) (args ++ x :: extra) s = inl (-1, s') ∧
     unblock_signals (n + 1) (args ++ x :: extra) s = inl (-1, s')) ∧
  (∀ x, block_signal x s = inl ((),
     if valid_signal x then set_mask (mask s ∪ ({[x]} ∖ unblockable)) s
     else if (1 <=? x) && (x <=? SIGRTMAX) then set_errno EINVAL s else s)) ∧
  (let s2 := set_mask (mask s ∪ (all_signals ∖ unblockable)) s in
   block_all_signals s = inl (0, s2) ∧ unblock_all_signals s2 = inl (0, s2)).
Proof.
  intros Hv n. split; [|split; [|split; [intros x; apply block_signal_result|]]].
  - exists (set_mask (mask s ∪ (list_to_set args ∖ unblockable)) s). split_and!.
    + by apply block_valid.
    + done.
    + intros Hd. unfold n. rewrite unblock_valid by done. simpl. do 2 f_equal.
      destruct s as [m h r l e o]. unfold set_mask. simpl in *. f_equal. set_solver.
  - intros x extra Hx s'.
    destruct (add_signals_invalid args x extra 0 ∅ s Hv Hx) as [set' E].
    unfold block_signals, unblock_signals, change_signals, mbind, sm_bind in *.
    replace (Z.to_nat (n + 1)) with (S (length args)) by (unfold n; lia).
    simpl. rewrite E. done.
  - intros s2. split; [apply block_all_result|apply unblock_all_result].
Qed.

Lemma block_unblock_signals_witness :
  ∃ s1, block_signals 2 [SIGINT; SIGQUIT] sig_ex = inl (0, s1) ∧
        unblock_signals 2 [SIGINT; SIGQUIT] s1 = inl (0, sig_ex).
Proof.
  destruct (block_unblock_signals [SIGINT; SIGQUIT] sig_ex) as ((s1 & H1 & _ & H2) & _).
  - repeat constructor.
  - exists s1. split; [exact H1|apply H2]. simpl. set_solver.
Defined.

(** C27: [establish_sig_handler] returns 0 exactly for the signals that can be
    handled and a handler that is not NULL, and then the handler is installed, the
    program is marked as running and the mutex is free again; otherwise it
    returns 1 and changes neither handlers nor flag. *)
Theorem establish_sig_handler_correct signum func s :
  gb_is_running_mutex s = LockFree →
  ∃ r s', establish_sig_handler signum func s = inl (r, s') ∧
    mask s' = mask s ∧ gb_is_running_mutex s' = LockFree ∧
    if valid_signal signum && negb ((signum =? SIGKILL) || (signum =? SIGSTOP)) &&
       negb (func =? NULL)
    then r = 0 ∧ handlers s' = <[signum := func]> (handlers s) ∧ gb_is_running s' = 1
    else r = 1 ∧ handlers s' = handlers s ∧ gb_is_running s' = gb_is_running s.
Proof.
  destruct s as [m h r l e o]. simpl. intros ->. unfold establish_sig_handler.
  destruct ((signum <? 1) || (SIGRTMAX <? signum) || (func =? NULL)) eqn:E.
  - assert (valid_signal signum && negb ((signum =? SIGKILL) || (signum =? SIGSTOP)) &&
       negb (func =? NULL) = false) as ->.
    { apply orb_true_iff in E as [E|E]; [|by rewrite E, andb_false_r].
      assert (valid_signal signum = false) as ->; [|done]. unfold valid_signal.
      apply orb_true_iff in E as [E|E]; zbool.
      - by rewrite (proj2 (Z.leb_gt _ _)).
      - by rewrite (proj2 (Z.leb_gt signum _)), andb_false_r. }
    by eexists _, _.
  - zbool. rewrite (proj2 (Z.eqb_neq func NULL)), andb_true_r by done.
    unfold sigaction, mbind, sm_bind.
    destruct (valid_signal signum && negb ((signum =? SIGKILL) || (signum =? SIGSTOP))); simpl;
      eexists _, _; split; [reflexivity|done|reflexivity|done].
Qed.

Lemma establish_sig_handler_correct_witness :
  ∃ r s', establish_sig_handler SIGINT 7 sig_ex = inl (r, s') ∧ r = 0 ∧ gb_is_running s' = 1.
Proof.
  destruct (establish_sig_handler_correct SIGINT 7 sig_ex) as (r & s' & E & _ & _ & Hr & _ & Hg).
  - reflexivity.
  - exists r, s'. split; [exact E|]. split; [exact Hr|exact Hg].
Defined.

(** C28: SIGINT and SIGQUIT stop the program when their handler does not interrupt a
    section that holds the mutex (a handler that runs before the program is marked
    as running is overridden by the mark); arriving between the lock and the unlock
    of [is_program_running], [stop_program] or [establish_sig_handler], the handler
    waits for ever for the thread that it has interrupted. *)
Theorem signal_handler_interrupts s k sig l b :
  gb_is_running_mutex s = LockFree → sig = SIGINT ∨ sig = SIGQUIT →
  l = is_program_running_acts ∨ l = stop_program_acts ∨ l = start_acts →
  if bool_decide (1 ≤ k ≤ 2)%nat then run_acts (interrupted k sig l) b s = inr SigDeadlock
  else ∃ b' s', run_acts (interrupted k sig l) b s = inl (b', s') ∧
    gb_is_running_mutex s' = LockFree ∧
    (k ≠ 0%nat ∨ l ≠ start_acts → gb_is_running s' = 0).
Proof.
  destruct s as [m h r lk e o]. simpl. intros -> Hsig Hl.
  assert (signal_handler_acts sig = [ALock; ASet 0; AUnlock]) as Hh by (destruct Hsig as [-> | ->]; done).
  unfold interrupted. rewrite Hh.
  destruct k as [|[|[|k]]]; (case_bool_decide; [|try lia]); try lia;
    destruct Hl as [-> |[-> | ->]]; simpl; rewrite ?take_nil, ?drop_nil; try reflexivity;
    (eexists _, _; split; [reflexivity|split; [reflexivity|]]); simpl; naive_solver.
Qed.

Lemma signal_handler_interrupts_witness :
  run_acts (interrupted 1 SIGINT is_program_running_acts) false sig_ex = inr SigDeadlock.
Proof.
  apply (signal_handler_interrupts sig_ex 1 SIGINT is_program_running_acts false);
    [reflexivity|left; reflexivity|left; reflexivity].
Defined.
