(* ===== verification/SigTypes.v ===== *)
(** * SigTypes: the signal state stays well formed

    [keeps] says of a computation that from a well-formed state it does not fail and ends
    in one; it is closed under sequences, so that each function is checked by following its
    text. *)

From stdpp Require Import base gmap list strings.
From S2P Require Import Prelude SigHandlers.

Open Scope Z_scope.

Definition catchable (sig : Z) : Prop :=
  valid_signal sig = true ∧ sig ≠ SIGKILL ∧ sig ≠ SIGSTOP.

Record well_formed (s : sigst) : Prop := {
  wf_mask : mask s ⊆ all_signals ∖ unblockable;
  wf_handlers : ∀ sig func, handlers s !! sig = Some func → catchable sig ∧ func ≠ NULL;
  wf_running : gb_is_running s = 0 ∨ gb_is_running s = 1;
  wf_mutex : gb_is_running_mutex s = LockFree
}.

(** The computation ends, with a result in [Φ]. *)
Definition keeps {A} (c : sm A) (Φ : A → Prop) : Prop :=
  ∀ s, well_formed s → ∃ a s', c s = inl (a, s') ∧ well_formed s' ∧ Φ a.

Create HintDb sig.

Section keeps.
Context {A B : Type}.

Lemma keeps_ret (a : A) (Φ : A → Prop) : Φ a → keeps (mret a) Φ.
Proof. intros H s Hs. by exists a, s. Qed.

Lemma keeps_bind (c : sm A) (k : A → sm B) Φ Ψ :
  keeps c Φ → (∀ a, Φ a → keeps (k a) Ψ) → keeps (c ≫= k) Ψ.
Proof.
  intros Hc Hk s Hs. destruct (Hc s Hs) as (a & s' & E & Hs' & Ha).
  unfold mbind, sm_bind. rewrite E. by apply Hk.
Qed.

Lemma keeps_weaken (c : sm A) (Φ Ψ : A → Prop) : (∀ a, Φ a → Ψ a) → keeps c Φ → keeps c Ψ.
Proof. intros HΦ H s Hs. destruct (H s Hs) as (a & s' & ? & ? & ?). exists a, s'. auto. Qed.

Lemma keeps_if (b : bool) (c d : sm A) Φ :
  (b = true → keeps c Φ) → (b = false → keeps d Φ) → keeps (if b then c else d) Φ.
Proof. destruct b; auto. Qed.
End keeps.

Lemma keeps_modify f (Φ : () → Prop) :
  (∀ s, well_formed s → well_formed (f s)) → Φ () → keeps (modify f) Φ.
Proof. intros H HΦ s Hs. exists (), (f s). split; [done|]. split; [by apply H|done]. Qed.

Definition any {A} (_ : A) : Prop := True.

Lemma keeps_errno e : keeps (modify (set_errno e)) any.
Proof. apply keeps_modify; [|done]. intros s [H1 H2 H3 H4]. by split. Qed.
Lemma keeps_perror msg : keeps (perror msg) any.
Proof. apply keeps_modify; [|done]. intros s [H1 H2 H3 H4]. by split. Qed.

(** ** The calls of the system *)

Lemma mask_grows (m set A U : gset Z) : m ⊆ A ∖ U → set ⊆ A → m ∪ (set ∖ U) ⊆ A ∖ U.
Proof. intros Hm Hs x. rewrite elem_of_union, !elem_of_difference. intros [Hx|[Hx Hu]]; [by apply elem_of_difference, Hm|auto]. Qed.
Lemma mask_shrinks (m set A : gset Z) : m ⊆ A → m ∖ set ⊆ A.
Proof. intros Hm x [Hx _]%elem_of_difference. auto. Qed.
Lemma set_grows x (set A : gset Z) : x ∈ A → set ⊆ A → {[x]} ∪ set ⊆ A.
Proof. intros Hx Hs y [->%elem_of_singleton|Hy]%elem_of_union; auto. Qed.

(** What [sigaddset] builds is a set of signals. *)
Definition signal_set (r : Z * gset Z) : Prop := r.2 ⊆ all_signals.

Lemma valid_signal_all sig : valid_signal sig = true → sig ∈ all_signals.
Proof.
  intros H. apply elem_of_list_to_set, list_elem_of_filter. split; [by apply Is_true_true|].
  apply elem_of_seqZ. unfold valid_signal in H. zbool. unfold SIGRTMAX in *. lia.
Qed.

Lemma keeps_sigemptyset : keeps sigemptyset signal_set.
Proof. apply keeps_ret. apply empty_subseteq. Qed.
Lemma keeps_sigfillset : keeps sigfillset signal_set.
Proof. apply keeps_ret. unfold signal_set. simpl. reflexivity. Qed.

Lemma keeps_sigaddset set sig : set ⊆ all_signals → keeps (sigaddset set sig) signal_set.
Proof.
  intros H. apply keeps_if; intros E.
  - apply keeps_ret. unfold signal_set. simpl. apply set_grows; [by apply valid_signal_all|done].
  - eapply keeps_bind; [apply keeps_errno|]. intros _ _. by apply keeps_ret.
Qed.

Lemma keeps_sigprocmask how set : set ⊆ all_signals → keeps (sigprocmask how set) any.
Proof.
  intros H. unfold sigprocmask. repeat (apply keeps_if; intros _).
  1,2: eapply keeps_bind; [apply keeps_modify with (Φ := any); [|done]|intros _ _; by apply keeps_ret].
  3: eapply keeps_bind; [apply keeps_errno|intros _ _; by apply keeps_ret].
  - intros s [Hm H2 H3 H4]. split; simpl; [by apply mask_grows|done..].
  - intros s [Hm H2 H3 H4]. split; simpl; [by apply mask_shrinks|done..].
Qed.

Lemma keeps_sigaction sig func : func ≠ NULL → keeps (sigaction sig func) any.
Proof.
  intros Hf. apply keeps_if; intros E.
  - eapply keeps_bind; [apply keeps_modify with (Φ := any); [|done]|intros _ _; by apply keeps_ret].
    apply andb_true_iff in E as [Ev Ek]. apply negb_true_iff, orb_false_iff in Ek as [Ek Es].
    apply Z.eqb_neq in Ek, Es.
    intros s [H1 H2 H3 H4]. split; simpl; [done| |done..].
    intros sig' f' [[<- <-]|[_ Hs]]%lookup_insert_Some; [by repeat split|by eapply H2].
  - eapply keeps_bind; [apply keeps_errno|intros _ _; by apply keeps_ret].
Qed.

#[export] Hint Resolve keeps_errno keeps_perror keeps_sigemptyset keeps_sigfillset
  keeps_sigaddset keeps_sigprocmask keeps_sigaction : sig.

(** ** The functions of the library *)

(** Follows the text of a function. *)
Ltac keeping :=
  repeat lazymatch goal with
  | |- keeps (mret _) any => by apply keeps_ret
  | |- keeps (if _ then _ else _) _ => apply keeps_if; intros ?
  | |- keeps (_ ≫= _) _ =>
      eapply keeps_bind; [solve [eauto with sig]|]; intros ? ?
  | |- keeps (let '(_, _) := ?a in _) _ => destruct a
  | |- _ => solve [eauto with sig]
  end.

(** The sections under the mutex. *)
Lemma keeps_run_acts l b :
  (∃ sig, l = signal_handler_acts sig) ∨ l = start_acts ∨ l = is_program_running_acts ∨ l = stop_program_acts →
  keeps (run_acts l b) any.
Proof.
  intros Hl [m h r lk e o] [H1 H2 H3 H4]. simpl in H4. subst lk.
  destruct Hl as [[sig ->]|[->|[->| ->]]]; [unfold signal_handler_acts; repeat case_match|..];
    (eexists _, _; split; [reflexivity|split; [split; simpl; auto|done]]).
Qed.

Lemma keeps_start b : keeps (run_acts start_acts b) any.
Proof. apply keeps_run_acts. auto. Qed.
#[export] Hint Resolve keeps_start : sig.

Lemma keeps_establish sig func : keeps (establish_sig_handler sig func) any.
Proof.
  unfold establish_sig_handler. apply keeps_if; intros E; [by apply keeps_ret|].
  assert (func ≠ NULL) by (by zbool). keeping.
Qed.

Lemma keeps_add_signals n : ∀ args r set, (n <= length args)%nat → set ⊆ all_signals →
  keeps (add_signals n args r set) signal_set.
Proof.
  induction n as [|n IH]; intros args r set Hn Hs; [by apply keeps_ret|].
  destruct args as [|x args]; simpl in *; [lia|].
  eapply keeps_bind; [by apply keeps_sigaddset|]. intros [r' set'] Hr.
  apply keeps_if; intros _; [|apply IH; [lia|done]].
  eapply keeps_bind; [apply keeps_perror|]. intros _ _.
  eapply keeps_bind; [apply keeps_errno|]. intros _ _. by apply keeps_ret.
Qed.

Lemma keeps_change_signals how msg num args :
  num ≤ Z.of_nat (length args) → keeps (change_signals how msg num args) any.
Proof.
  intros Hn. unfold change_signals.
  eapply keeps_bind; [apply keeps_sigemptyset|]. intros [r set] Hs.
  apply keeps_if; intros _; [keeping|].
  eapply keeps_bind; [apply keeps_add_signals; [lia|exact Hs]|]. intros [r' set'] Hs'.
  keeping.
Qed.

Lemma keeps_block_all : keeps block_all_signals any.
Proof.
  unfold block_all_signals. eapply keeps_bind; [apply keeps_sigfillset|]. intros [r set] Hs. keeping.
Qed.

Lemma keeps_unblock_all : keeps unblock_all_signals any.
Proof.
  unfold unblock_all_signals. eapply keeps_bind; [apply keeps_sigemptyset|]. intros [r set] Hs. keeping.
Qed.

Lemma keeps_block_signal sig : keeps (block_signal sig) any.
Proof.
  unfold block_signal. apply keeps_if; intros _; [by apply keeps_ret|].
  eapply keeps_bind; [apply keeps_sigemptyset|]. intros [r set] Hs.
  eapply keeps_bind; [by apply keeps_sigaddset|]. intros [r' set'] Hs'. keeping.
Qed.

(** ** Any sequence of calls *)

Inductive call :=
  | CEstablish (signum : Z) (func : ptr)
  | CBlock (num_signals : Z) (args : list Z)
  | CUnblock (num_signals : Z) (args : list Z)
  | CBlockAll | CUnblockAll
  | CBlockSignal (signum : Z)
  | CIsRunning | CStop
  | CSignal (sig : Z).              (* the signal handler is called *)

(** The counts do not exceed the number of arguments. *)
Definition call_ok (c : call) : bool :=
  match c with
  | CBlock n args | CUnblock n args => n <=? Z.of_nat (length args)
  | _ => true
  end.

(** The result, for the functions that return one. *)
Definition run_call (c : call) : sm (option Z) :=
  match c with
  | CEstablish signum func => r ← establish_sig_handler signum func; mret (Some r)
  | CBlock n args => r ← block_signals n args; mret (Some r)
  | CUnblock n args => r ← unblock_signals n args; mret (Some r)
  | CBlockAll => r ← block_all_signals; mret (Some r)
  | CUnblockAll => r ← unblock_all_signals; mret (Some r)
  | CBlockSignal signum => block_signal signum;; mret None
  | CIsRunning => b ← is_program_running; mret (Some (Z.b2z b))
  | CStop => stop_program;; mret None
  | CSignal sig => signal_handler sig;; mret None
  end.

Fixpoint run_calls (l : list call) : sm (list (option Z)) :=
  match l with
  | [] => mret []
  | c :: l => r ← run_call c; rs ← run_calls l; mret (r :: rs)
  end.

Lemma keeps_call c : call_ok c = true → keeps (run_call c) any.
Proof.
  intros Hc. destruct c; simpl in *; zbool;
    (apply keeps_bind with (Φ := any); [|intros ? _; by apply keeps_ret]).
  - apply keeps_establish.
  - by apply keeps_change_signals.
  - by apply keeps_change_signals.
  - apply keeps_block_all.
  - apply keeps_unblock_all.
  - apply keeps_block_signal.
  - apply keeps_run_acts. auto.
  - eapply keeps_bind; [apply keeps_run_acts; auto|]. intros ? _. by apply keeps_ret.
  - eapply keeps_bind; [apply keeps_run_acts; eauto|]. intros ? _. by apply keeps_ret.
Qed.

Lemma keeps_calls l : forallb call_ok l = true → keeps (run_calls l) (λ rs, length rs = length l).
Proof.
  induction l as [|c l IH]; simpl; intros H; [by apply keeps_ret|]. zbool.
  eapply keeps_bind; [by apply keeps_call|]. intros r _.
  eapply keeps_bind; [by apply IH|]. intros rs Hrs. apply keeps_ret. simpl. by rewrite Hrs.
Qed.

(** C26: the signal state is well typed: only signals that exist and can be blocked are
    blocked, only signals that can be caught have handlers, none of them NULL, the
    flag is 0 or 1 and the mutex is free between calls.  Any sequence of calls of the
    library, and of its handler, with no more signals announced than given, runs to its end
    from such a state and leaves such a state. *)
Theorem signal_state_typed l s :
  forallb call_ok l = true → well_formed s →
  ∃ rs s', run_calls l s = inl (rs, s') ∧ length rs = length l ∧ well_formed s'.
Proof.
  intros Hl Hs. destruct (keeps_calls l Hl s Hs) as (rs & s' & ? & ? & ?). by exists rs, s'.
Qed.

Definition calls_ex : list call :=
  [CEstablish SIGINT 7; CBlock 2 [SIGQUIT; SIGKILL]; CSignal SIGINT; CIsRunning; CBlock 1 [99]].

Lemma signal_state_typed_witness :
  ∃ rs s', run_calls calls_ex (SigSt ∅ ∅ 0 LockFree 0 []) = inl (rs, s') ∧
    rs = [Some 0; Some 0; None; Some 0; Some (-1)] ∧ well_formed s'.
Proof.
  destruct (signal_state_typed calls_ex (SigSt ∅ ∅ 0 LockFree 0 [])) as (rs & s' & E & _ & H).
  - reflexivity.
  - split; simpl; [set_solver|intros sig func H; by rewrite lookup_empty in H|left; reflexivity|reflexivity].
  - exists rs, s'. split; [exact E|]. split; [|exact H]. vm_compute in E.
    injection E as E1 E2. symmetry. exact E1.
Defined.
