(* ===== verification/ServerLib.v ===== *)
(** * ServerLib: server_lib/server_lib.c

    The state is the caller's [server_t], the sockets of the process, [errno] and
    the messages printed.  [answers] says for each coming system call whether
    the environment lets it succeed; beyond that the calls behave as documented:
    [listen] fails with EOPNOTSUPP on a datagram socket, and every other call
    succeeds or fails with an error of the environment's choice. *)

From stdpp Require Import base gmap list strings.
From S2P Require Import Prelude.

Open Scope Z_scope.

Definition FAILED : Z := -1.
Definition SUCCESS : Z := 0.
Definition TCP : Z := 0.
Definition UDP : Z := 1.
Definition EOPNOTSUPP : Z := 95.
Definition AF_INET6 : Z := 10.
Definition in6addr_any : Z := 0.

(** ** State *)

Inductive sock_type := SOCK_STREAM | SOCK_DGRAM.

(** An address: its port in network byte order, its 128-bit IPv6 address as a number. *)
Record sockaddr_in6 := SockAddr { sin6_family : Z; sin6_port : Z; sin6_addr : Z }.

(** What the kernel knows about a socket. *)
Record sock := Sock {
  s_type : sock_type;
  s_reuse : bool;
  s_timeout : option Z;
  s_bound : option sockaddr_in6;
  s_backlog : option Z
}.

Record server_t := Server {
  port_number : Z;      (* uint16_t *)
  server_type : Z;      (* uint8_t *)
  max_clients : Z;      (* uint8_t *)
  p_server_addr : sockaddr_in6;
  server_socket : Z;
  client_socket : Z;
  socket_timeout : Z
}.

Record srvst := SrvSt {
  info : server_t;
  sockets : gmap Z sock;
  answers : list (option Z);    (* None: success; Some e: failure with errno e *)
  srv_errno : Z;
  printed : list string
}.

Definition sv (A : Type) : Type := srvst → A * srvst.
#[export] Instance sv_ret : MRet sv := λ A a s, (a, s).
#[export] Instance sv_bind : MBind sv := λ A B k c s, let '(a, s') := c s in k a s'.

Definition set_info i s := SrvSt i (sockets s) (answers s) (srv_errno s) (printed s).
Definition set_sockets m s := SrvSt (info s) m (answers s) (srv_errno s) (printed s).
Definition set_srv_errno e s := SrvSt (info s) (sockets s) (answers s) e (printed s).
Definition next_answer s := SrvSt (info s) (sockets s) (tail (answers s)) (srv_errno s) (printed s).
Definition print s msg := SrvSt (info s) (sockets s) (answers s) (srv_errno s) (printed s ++ [msg]).

Definition set_socket v i :=
  Server (port_number i) (server_type i) (max_clients i) (p_server_addr i) v (client_socket i) (socket_timeout i).
Definition set_addr v i :=
  Server (port_number i) (server_type i) (max_clients i) v (server_socket i) (client_socket i) (socket_timeout i).
Definition set_sin6_family v a := SockAddr v (sin6_port a) (sin6_addr a).
Definition set_sin6_port v a := SockAddr (sin6_family a) v (sin6_addr a).
Definition set_sin6_addr v a := SockAddr (sin6_family a) (sin6_port a) v.

Definition get_info {A} (f : server_t → A) : sv A := λ s, (f (info s), s).
Definition update_info (f : server_t → server_t) : sv () := λ s, ((), set_info (f (info s)) s).
(** Assign to a field of [p_server_addr]. *)
Definition update_addr (f : sockaddr_in6 → sockaddr_in6) : sv () :=
  update_info (λ i, set_addr (f (p_server_addr i)) i).
Definition perror (msg : string) : sv () := λ s, ((), print s msg).
Definition clear_errno : sv () := λ s, ((), set_srv_errno 0 s).

(** ** System calls *)

(** The answer of the environment to the next call. *)
Definition answer (s : srvst) : option Z := match answers s with [] => None | a :: _ => a end.

(** [own]: the error that the call itself detects; [ok]: its effect. *)
Definition syscall (own : srvst → option Z) (ok : srvst → Z * srvst) : sv Z := λ s,
  let s' := next_answer s in
  match own s with
  | Some e => (FAILED, set_srv_errno e s')
  | None => match answer s with
            | Some e => (FAILED, set_srv_errno e s')
            | None => ok s'
            end
  end.

(** A descriptor that is not in use. *)
Definition new_fd (m : gmap Z sock) : Z := map_fold (λ fd _ acc, Z.max (fd + 1) acc) 3 m.

Definition socket (t : sock_type) : sv Z :=
  syscall (λ _, None) (λ s,
    let fd := new_fd (sockets s) in
    (fd, set_sockets (<[fd := Sock t false None None None]> (sockets s)) s)).

Definition change_socket (fd : Z) (f : sock → sock) (s : srvst) : Z * srvst :=
  (SUCCESS, set_sockets (alter f fd (sockets s)) s).

Definition setsockopt_reuseaddr (fd v : Z) : sv Z :=
  syscall (λ _, None) (change_socket fd (λ k,
    Sock (s_type k) (negb (v =? 0)) (s_timeout k) (s_bound k) (s_backlog k))).
Definition setsockopt_rcvtimeo (fd sec : Z) : sv Z :=
  syscall (λ _, None) (change_socket fd (λ k,
    Sock (s_type k) (s_reuse k) (Some sec) (s_bound k) (s_backlog k))).
Definition bind (fd : Z) (addr : sockaddr_in6) : sv Z :=
  syscall (λ _, None) (change_socket fd (λ k,
    Sock (s_type k) (s_reuse k) (s_timeout k) (Some addr) (s_backlog k))).
Definition listen (fd backlog : Z) : sv Z :=
  syscall (λ s, match sockets s !! fd with
                | Some k => match s_type k with SOCK_STREAM => None | SOCK_DGRAM => Some EOPNOTSUPP end
                | None => None
                end)
    (change_socket fd (λ k, Sock (s_type k) (s_reuse k) (s_timeout k) (s_bound k) (Some backlog))).

(** [htons] on a little-endian machine *)
Definition htons (p : Z) : Z := Z.lor (Z.shiftl (Z.land p 255) 8) (Z.shiftr p 8).

(** ** The functions of the library *)

Definition open_server_socket (t : sock_type) : sv bool :=
  server_sock ← socket t;
  if FAILED =? server_sock then perror "server socket";; clear_errno;; mret false
  else update_info (set_socket server_sock);; mret true.

Definition establish_server_socket : sv bool :=
  type ← get_info server_type;
  if TCP =? type then open_server_socket SOCK_STREAM
  else if UDP =? type then open_server_socket SOCK_DGRAM
  else mret false.

Definition set_socket_options : sv bool :=
  fd ← get_info server_socket;
  r ← setsockopt_reuseaddr fd 1;
  if r <? SUCCESS then perror ("setsockopt error" ++ newline);; clear_errno;; mret false else mret true.

Definition set_socket_timeout : sv bool :=
  sec ← get_info socket_timeout;
  fd ← get_info server_socket;
  r ← setsockopt_rcvtimeo fd sec;
  if r <? SUCCESS then perror "server etsockopt error";; clear_errno;; mret false else mret true.

Definition server_bind_and_listen : sv bool :=
  update_addr (set_sin6_family AF_INET6);;
  port ← get_info port_number;
  update_addr (set_sin6_port (htons port));;
  update_addr (set_sin6_addr in6addr_any);;
  fd ← get_info server_socket; addr ← get_info p_server_addr;
  r ← bind fd addr;
  if FAILED =? r then perror ("bind error" ++ newline);; clear_errno;; mret false else
  fd ← get_info server_socket; clients ← get_info max_clients;
  r ← listen fd clients;
  if FAILED =? r then perror "Listen TCP error";; clear_errno;; mret false else
  mret true.

(** [given]: the argument is not NULL. *)
Definition establish_server (given : bool) : sv bool :=
  if negb given then mret false else
  ok ← establish_server_socket;
  if negb (ok : bool) then mret false else
  ok ← set_socket_options;
  if negb (ok : bool) then mret false else
  ok ← set_socket_timeout;
  if negb (ok : bool) then mret false else
  ok ← server_bind_and_listen;
  if negb (ok : bool) then mret false else
  mret true.

(** ** Facts *)

Lemma new_fd_spec m : (∀ fd k, m !! fd = Some k → fd < new_fd m) ∧ 3 ≤ new_fd m.
Proof.
  unfold new_fd.
  apply (map_fold_weak_ind (λ r m, (∀ fd k, m !! fd = Some k → fd < r) ∧ 3 ≤ r)).
  - split; [|done]. by intros fd k ?%lookup_empty_Some.
  - intros fd k m' r Hm [IH1 IH2]. split; [|lia].
    intros fd' k' [[-> ->]|[Hne Hl]]%lookup_insert_Some; [lia|]. apply IH1 in Hl. lia.
Qed.

Lemma new_fd_fresh m : m !! new_fd m = None.
Proof.
  destruct (m !! new_fd m) eqn:E; [|done]. apply (proj1 (new_fd_spec m)) in E. lia.
Qed.

Lemma new_fd_not_failed m : (FAILED =? new_fd m) = false.
Proof. apply Z.eqb_neq. pose proof (proj2 (new_fd_spec m)). unfold FAILED. lia. Qed.

(** [htons] swaps the two bytes of its argument. *)
Lemma shiftl_lor a b : 0 ≤ b < 2 ^ 8 → Z.lor (Z.shiftl a 8) b = a * 2 ^ 8 + b.
Proof.
  intros Hb. rewrite <-Z.shiftl_mul_pow2 by lia.
  assert (Z.land (Z.shiftl a 8) b = 0) as Hd.
  { apply Z.bits_inj'. intros n Hn. rewrite Z.land_spec, Z.shiftl_spec, Z.bits_0 by done.
    destruct (Z.lt_ge_cases n 8); [by rewrite Z.testbit_neg_r by lia|].
    rewrite <-(Z.mod_small b (2 ^ 8)), Z.mod_pow2_bits_high by lia. apply andb_false_r. }
  by rewrite Z.add_nocarry_lxor, Z.lxor_lor.
Qed.

Lemma htons_bytes p : 0 ≤ p < 2 ^ 16 → htons p = p mod 2 ^ 8 * 2 ^ 8 + p / 2 ^ 8.
Proof.
  intros Hp. unfold htons. rewrite Z.shiftr_div_pow2 by lia.
  change 255 with (Z.ones 8). rewrite Z.land_ones, shiftl_lor; [done| |done].
  change (2 ^ 16) with (2 ^ 8 * 2 ^ 8) in Hp. split; [apply Z.div_pos; lia|].
  apply Z.div_lt_upper_bound; lia.
Qed.

Lemma htons_involutive p : 0 ≤ p < 2 ^ 16 → htons (htons p) = p ∧ 0 ≤ htons p < 2 ^ 16.
Proof.
  intros Hp. assert (0 ≤ htons p < 2 ^ 16).
  { rewrite htons_bytes by done. change (2 ^ 8) with 256. Z.div_mod_to_equations. lia. }
  split; [|done]. rewrite (htons_bytes (htons p)), htons_bytes by done.
  change (2 ^ 8) with 256. Z.div_mod_to_equations. lia.
Qed.
