(* ===== verification/ServerProps.v ===== *)
(** * ServerProps: what server_lib.c guarantees *)

From stdpp Require Import base gmap list strings.
From S2P Require Import Prelude ServerLib.

Open Scope Z_scope.

(** All the system calls that the environment decides succeed. *)
Definition all_succeed (n : nat) (s : srvst) : bool :=
  forallb (λ a, match a with None => true | Some _ => false end) (take n (answers s)).

Definition server_ex (type : Z) : srvst := SrvSt (Server 8080 type 10 (SockAddr 0 0 0) 0 0 5) ∅ [] 0 [].

(** The address of a port on all the interfaces. *)
Definition any_address (port : Z) : sockaddr_in6 := SockAddr AF_INET6 (htons port) in6addr_any.

#[local] Arguments htons : simpl never.

(** Run the calls on a concrete prefix of answers. *)
Ltac run_calls :=
  unfold establish_server, establish_server_socket, open_server_socket, set_socket_options,
    set_socket_timeout, server_bind_and_listen, socket, setsockopt_reuseaddr,
    setsockopt_rcvtimeo, bind, listen, syscall, change_socket, get_info, update_addr, update_info, perror,
    clear_errno, mbind, sv_bind, mret, sv_ret;
  simpl; rewrite ?new_fd_not_failed; simpl;
  repeat (rewrite ?alter_insert_eq, ?lookup_insert_eq; simpl).

(** C29: [establish_server] for a TCP server returns true exactly when [socket], both
    [setsockopt], [bind] and [listen] succeed; then it has opened one stream
    socket with the address reused, the receive timeout set, bound to the
    port in network byte order of every IPv6 address, and listening for [max_clients].  When a call fails the
    rest is skipped, one message is printed, [errno] is cleared, and the socket, if
    it was opened, stays open. *)
Theorem establish_server_tcp s :
  server_type (info s) = TCP →
  let fd := new_fd (sockets s) in
  let '(r, s') := establish_server true s in
  r = all_succeed 5 s ∧
  if r then
    sockets s' = <[fd := Sock SOCK_STREAM true (Some (socket_timeout (info s)))
                      (Some (any_address (port_number (info s)))) (Some (max_clients (info s)))]> (sockets s) ∧
    info s' = set_addr (any_address (port_number (info s))) (set_socket fd (info s)) ∧
    printed s' = printed s
  else
    srv_errno s' = 0 ∧ (∃ msg, printed s' = printed s ++ [msg]) ∧
    (answer s = None → is_Some (sockets s' !! fd) ∧ sockets s !! fd = None).
Proof.
  destruct s as [[port type clients sp fd0 cfd tmo] m ans e out]. simpl. intros ->.
  pose proof (new_fd_fresh m) as Hfresh.
  destruct ans as [|[e1|] [|[e2|] [|[e3|] [|[e4|] [|[e5|] ans]]]]]; run_calls;
    (split; [reflexivity|]); (split; [|split]); eauto; try done.
Qed.

Lemma establish_server_tcp_witness :
  ∃ s', establish_server true (server_ex TCP) = (true, s') ∧
    sockets s' = {[3 := Sock SOCK_STREAM true (Some 5) (Some (SockAddr 10 36895 0)) (Some 10)]}.
Proof.
  pose proof (establish_server_tcp (server_ex TCP) eq_refl) as H. simpl in H.
  destruct (establish_server true (server_ex TCP)) as [r s'] eqn:E.
  destruct H as [-> (H & _ & _)]. exists s'. split; [reflexivity|exact H].
Defined.

(** C30: [establish_server] never succeeds for a UDP server, because it calls [listen]
    on a datagram socket: even when every other call succeeds it prints the message
    of [listen], returns false and leaves the bound socket open.  An unknown server
    type and a NULL argument make it return false without a call or a message. *)
Theorem establish_server_not_tcp s :
  establish_server false s = (false, s) ∧
  (server_type (info s) ≠ TCP → server_type (info s) ≠ UDP →
   establish_server true s = (false, s)) ∧
  (server_type (info s) = UDP →
   let fd := new_fd (sockets s) in
   let '(r, s') := establish_server true s in
   r = false ∧
   (all_succeed 4 s = true →
    sockets s' = <[fd := Sock SOCK_DGRAM true (Some (socket_timeout (info s)))
                      (Some (any_address (port_number (info s)))) None]> (sockets s) ∧
    printed s' = printed s ++ ["Listen TCP error"%string])).
Proof.
  split; [done|]. split.
  - intros H1 H2. unfold establish_server, establish_server_socket, get_info, mbind, sv_bind. simpl.
    rewrite (proj2 (Z.eqb_neq _ _)), (proj2 (Z.eqb_neq _ _)) by congruence. done.
  - destruct s as [[port type clients sp fd0 cfd tmo] m ans e out]. simpl. intros ->.
    destruct ans as [|[e1|] [|[e2|] [|[e3|] [|[e4|] ans]]]]; run_calls;
      (split; [reflexivity|]); intros H; done.
Qed.

Lemma establish_server_not_tcp_witness :
  (establish_server true (server_ex 2)).1 = false ∧ (establish_server true (server_ex UDP)).1 = false.
Proof.
  destruct (establish_server_not_tcp (server_ex 2)) as (_ & H2 & _).
  destruct (establish_server_not_tcp (server_ex UDP)) as (_ & _ & H).
  specialize (H eq_refl). simpl in H.
  destruct (establish_server true (server_ex UDP)) as [r s'] eqn:E.
  destruct H as [-> _]. split; [|reflexivity]. rewrite H2; [reflexivity|discriminate|discriminate].
Defined.
