(* ===== verification/FileUtils.v ===== *)
(** * FileUtils: file_utils/file_utils_lib.c

    The file system is a parameter: what [realpath], [stat], [lstat], [fopen],
    [fileno] and [fstat] answer, and the bytes behind a stream.  A function returns
    its result, or the error of a use of the NULL stream, with what it has printed
    and done to streams. *)

From Stdlib Require Import Ascii.
From stdpp Require Import base list strings.
From S2P Require Import Prelude.

Open Scope Z_scope.

(** ** Outcomes *)

Inductive fevent :=
  | FPerror (s : string)      (* perror *)
  | FStderr (s : string)      (* fprintf(stderr, ...) *)
  | FOpen (path mode : string) (* fopen *)
  | FRewind (h : ptr)
  | FClose (h : ptr)
  | FErrno (e : Z).           (* errno = e *)

#[export] Instance fevent_eq_dec : EqDecision fevent.
Proof. solve_decision. Defined.

Inductive ferror := NullStream.

Definition fm (A : Type) : Type := list fevent → (A + ferror) * list fevent.
#[export] Instance fm_ret : MRet fm := λ A a out, (inl a, out).
#[export] Instance fm_bind : MBind fm := λ A B k c out,
  match c out with (inl a, out') => k a out' | (inr e, out') => (inr e, out') end.
Definition say (e : fevent) : fm () := λ out, (inl (), out ++ [e]).
Definition crash {A} : fm A := λ out, (inr NullStream, out).

(** What [stat] and [lstat] report of a path. *)
Record stat_t := Stat { st_size : Z; s_isreg : bool }.

(** ** The C library functions of the code, in the C locale *)

(** Is [needle] in [hay]. *)
Fixpoint strstr (hay needle : string) : bool :=
  String.prefix needle hay ||
  match hay with EmptyString => false | String _ hay => strstr hay needle end.

Definition isprint (c : Z) : bool := (32 <=? c) && (c <=? 126).
Definition isspace (c : Z) : bool := (c =? 32) || ((9 <=? c) && (c <=? 13)).

Definition RECORD_SEP : Z := 30.

Section file_utils.
Context (realpath : string → option string).
Context (stat lstat : string → option stat_t).
Context (fopen : string → string → ptr).
Context (fileno : ptr → Z) (fstat : Z → option stat_t).
Context (contents : ptr → list Z).

(** A [char *] argument; [None] is NULL. *)
Implicit Types (filename mode root_dir : option string).

Definition get_file_size_bytes (h_file_ptr : ptr) : fm Z :=
  if h_file_ptr =? NULL then mret 0 else
  let file_descriptor := fileno h_file_ptr in
  if file_descriptor <? 0 then mret 0 else
  match fstat file_descriptor with None => mret 0 | Some p_file_stats => mret (st_size p_file_stats) end.

(** The call of [fopen] is recorded. *)
Definition call_fopen (filename mode : string) : fm ptr :=
  say (FOpen filename mode);; mret (fopen filename mode).

Definition open_file filename mode : fm ptr :=
  match filename, mode with
  | Some filename, Some mode =>
      h_file_ptr ← call_fopen filename mode;
      if h_file_ptr =? NULL then say (FPerror "open file");; say (FErrno 0);; mret NULL
      else mret h_file_ptr
  | _, _ => mret NULL
  end.

(** The loop of [is_file_binary] on the bytes that [fgetc] has not returned yet. *)
Fixpoint binary_loop (h_file_ptr : ptr) (rest : list Z) : fm bool :=
  match rest with
  | [] => say (FRewind h_file_ptr);; mret false
  | character :: rest =>
      if negb (isprint character) && negb (isspace character) && (RECORD_SEP =? 0)
      then say (FRewind h_file_ptr);; mret true
      else binary_loop h_file_ptr rest
  end.

Definition is_file_binary (h_file_ptr : ptr) : fm bool :=
  if h_file_ptr =? NULL then crash else binary_loop h_file_ptr (contents h_file_ptr).

Definition validate_and_open_file filename mode root_dir : fm ptr :=
  match filename, mode, root_dir with
  | Some filename, Some mode, Some root_dir =>
      match realpath filename with
      | None => say (FPerror "Unable to find path");; say (FErrno 0);; mret NULL
      | Some resolved_path =>
      match stat resolved_path with
      | None => say (FPerror "Unable to access file");; say (FErrno 0);; mret NULL
      | Some _ =>
      if negb (strstr resolved_path root_dir)
      then say (FStderr ("Path not subdirectory of " ++ root_dir ++ newline));; mret NULL else
      match lstat filename with
      | None => say (FPerror "lstat error occured");; say (FErrno 0);; mret NULL
      | Some p_file_stats_t =>
      if negb (s_isreg p_file_stats_t)
      then say (FStderr ("'" ++ filename ++ "' is not a regular file." ++ newline));; mret NULL else
      h_file_ptr ← call_fopen filename mode;
      (if h_file_ptr =? NULL then say (FPerror "open file");; say (FErrno 0) else mret ());;
      b_is_binary ← is_file_binary h_file_ptr;
      if (b_is_binary : bool)
      then say (FStderr ("'" ++ filename ++ "' is a binary file." ++ newline));;
           say (FClose h_file_ptr);; mret NULL
      else mret h_file_ptr
      end end end
  | _, _, _ => mret NULL
  end.

(** ** Facts *)

Lemma binary_loop_false h rest out :
  binary_loop h rest out = (inl false, out ++ [FRewind h]).
Proof. induction rest as [|c rest IH]; simpl; [done|]. by rewrite andb_false_r. Qed.

(** The tests of [validate_and_open_file] before it opens the file. *)
Definition validated (filename root_dir : string) : bool :=
  match realpath filename with
  | None => false
  | Some resolved_path =>
      match stat resolved_path, lstat filename with
      | Some _, Some st => strstr resolved_path root_dir && s_isreg st
      | _, _ => false
      end
  end.
End file_utils.

(** The file was not opened, and something was reported. *)
Definition rejected (es : list fevent) : bool :=
  negb (bool_decide (es = [])) &&
  forallb (λ e, match e with FOpen _ _ => false | _ => true end) es.

Lemma strstr_prefix hay needle : String.prefix needle hay = true → strstr hay needle = true.
Proof. destruct hay; simpl; by intros ->. Qed.

Lemma strstr_spec hay needle :
  strstr hay needle = true ↔ ∃ before after, hay = (before ++ needle ++ after)%string.
Proof.
  assert (∀ a b, String.prefix a b = true ↔ ∃ after, b = (a ++ after)%string) as Hp.
  { induction a as [|x a IH]; intros b; simpl.
    { split; [intros _; by exists b|intros _; by destruct b]. }
    destruct b as [|y b]; [split; [intros H; discriminate H|intros [? H]; discriminate H]|].
    simpl. destruct (ascii_dec x y) as [->|Hne]; [|split; [intros H; discriminate H|intros [? H]; by injection H]]. rewrite IH.
    split; intros [c Hc]; exists c; [by rewrite Hc|by injection Hc]. }
  induction hay as [|c hay IH]; cbn [strstr]; rewrite orb_true_iff, Hp.
  - split.
    + intros [[after H]|H]; [|done]. by exists EmptyString, after.
    + intros (b & a & H). destruct b; [|done]. left. by exists a.
  - rewrite IH. split.
    + intros [[after H]|(b & a & H)]; [by exists EmptyString, after|].
      exists (String c b), a. by rewrite H.
    + intros (b & a & H). destruct b as [|x b]; [left; by exists a|].
      right. injection H as -> H. by exists b, a.
Qed.
