(* ===== verification/FileProps.v ===== *)
(** * FileProps: what file_utils_lib.c guarantees, and what it does not *)

From stdpp Require Import base list strings.
From S2P Require Import Prelude FileUtils.

Open Scope Z_scope.

(** C31: [validate_and_open_file] returns the stream that [fopen] opens when the path
    resolves, exists, contains the root directory and is itself a regular file; it
    returns NULL with a message and without opening anything when a check fails.
    Three things it does not do: [is_file_binary] rejects no file, when [fopen]
    fails after the checks the NULL stream is read, and the root check is a substring
    test, so that a file outside of the root passes if its path has the root's name
    anywhere. *)
Theorem validate_and_open_file_correct realpath stat lstat fopen contents f mode root :
  let validate := validate_and_open_file realpath stat lstat fopen contents
                    (Some f) (Some mode) (Some root) in
  let h := fopen f mode in
  (∀ h' out, h' ≠ NULL → is_file_binary contents h' out = (inl false, out ++ [FRewind h'])) ∧
  (if validated realpath stat lstat f root then
    if h =? NULL then validate [] = (inr NullStream, [FOpen f mode; FPerror "open file"; FErrno 0])
    else validate [] = (inl h, [FOpen f mode; FRewind h])
  else ∃ es, validate [] = (inl NULL, es) ∧ rejected es = true) ∧
  (∀ resolved dir, strstr resolved dir = true ↔
     ∃ before after, resolved = (before ++ dir ++ after)%string) ∧
  String.prefix "/srv/files" "/tmp/srv/files/x" = false ∧
  (let regular := λ _, Some (Stat 1 true) in
   validated (λ _, Some "/tmp/srv/files/x"%string) regular regular "../x" "/srv/files" = true).
Proof.
  intros validate h. split; [|split; [|split_and!; [apply strstr_spec|reflexivity..]]].
  - intros h' out Hh. unfold is_file_binary. rewrite (proj2 (Z.eqb_neq _ _) Hh).
    apply binary_loop_false.
  - subst validate. unfold validated, validate_and_open_file. subst h.
    destruct (realpath f) as [p|]; [|by eexists].
    destruct (stat p) as [s1|]; [|by eexists].
    destruct (strstr p root); simpl; [|by destruct (lstat f); eexists].
    destruct (lstat f) as [st|]; [|by eexists].
    destruct (s_isreg st); simpl; [|by eexists].
    unfold call_fopen, mbind, fm_bind, mret, fm_ret, say. simpl.
    destruct (fopen f mode =? NULL) eqn:E; simpl; unfold is_file_binary; rewrite E; [done|].
    by rewrite binary_loop_false.
Qed.

(** [get_file_size_bytes] returns the size that [fstat] reports and 0 on every
    failure; [open_file] returns the opened stream, or NULL with a message and
    [errno] cleared; NULL arguments give 0 and NULL without a message. *)
Theorem file_size_and_open fopen fileno fstat h f mode out :
  (h ≠ NULL → 0 ≤ fileno h → ∀ st, fstat (fileno h) = Some st →
   get_file_size_bytes fileno fstat h out = (inl (st_size st), out)) ∧
  (h = NULL ∨ fileno h < 0 ∨ fstat (fileno h) = None →
   get_file_size_bytes fileno fstat h out = (inl 0, out)) ∧
  (open_file fopen None mode out = (inl NULL, out) ∧ open_file fopen f None out = (inl NULL, out)) ∧
  (∀ f mode, open_file fopen (Some f) (Some mode) out =
     if fopen f mode =? NULL then (inl NULL, out ++ [FOpen f mode; FPerror "open file"; FErrno 0])
     else (inl (fopen f mode), out ++ [FOpen f mode])).
Proof.
  unfold get_file_size_bytes, open_file. split; [|split; [|split]].
  - intros Hh Hf st Hst. rewrite (proj2 (Z.eqb_neq _ _) Hh), (proj2 (Z.ltb_ge _ _) Hf). by rewrite Hst.
  - intros H. destruct (h =? NULL) eqn:E; [done|]. destruct (fileno h <? 0) eqn:E'; [done|]. zbool.
    destruct H as [H|[H|H]]; [done|lia|by rewrite H].
  - split; [done|by destruct f].
  - intros f' mode'. unfold call_fopen, mbind, fm_bind, mret, fm_ret, say.
    case_test; [|done]. by rewrite <-!app_assoc.
Qed.

Lemma file_size_and_open_witness :
  get_file_size_bytes (λ _, 4) (λ _, Some (Stat 17 true)) 9 [] = (inl 17, []).
Proof.
  destruct (file_size_and_open (λ _ _, 0) (λ _, 4) (λ _, Some (Stat 17 true)) 9 None None []) as [H _].
  exact (H ltac:(discriminate) ltac:(discriminate) _ eq_refl).
Defined.
