(* ===== verification/Print128.v ===== *)
(** * Print128: the 128-bit numbers of assembly/170d/int128printf.c and fibo128.c

    [Mk128] is in both files with the same text; [print128] takes a signed number in
    the first file and an unsigned one in the second.  A string is the list of its
    characters without the terminator, and a print function returns the
    characters that it prints. *)

From stdpp Require Import base list strings.
From S2P Require Import Prelude.

Open Scope Z_scope.

Definition u128 (z : Z) : Z := z mod 2 ^ 128.
Definition INT128_MIN : Z := - 2 ^ 127.

(** ** Parsing *)

Definition is_digit (c : Z) : bool := (48 <=? c) && (c <=? 57).
(** [','], [' '] and ['.'] *)
Definition is_grouping (c : Z) : bool := (c =? 44) || (c =? 32) || (c =? 46).

(** The loop of [Mk128]: whether the end is reached, and [*p128]. *)
Fixpoint collect_digits (str : list Z) (p128 : Z) : bool * Z :=
  match str with
  | [] => (true, p128)
  | c :: str =>
    if is_digit c then collect_digits str (u128 (u128 (u128 (p128 * 10) + c) - 48))
    else if negb (is_grouping c) then (false, p128)
    else collect_digits str p128
  end.

(** The result, and the value left in [*p128]. *)
Definition Mk128 (str : list Z) : Z * Z :=
  let '(mult, str) := match str with
                      | c :: str' => if c =? 45 then (-1, str') else (1, str)
                      | [] => (1, str)
                      end in
  match collect_digits str 0 with
  | (false, p128) => (0, p128)
  | (true, p128) => (1, u128 (p128 * u128 mult))
  end.

(** ** Printing *)

Inductive print_error := SignedOverflow | PrintFuel | Uninitialised.

Definition printed := (list Z + print_error)%type.
Definition then_print (p : printed) (rest : list Z) : printed :=
  match p with inl out => inl (out ++ rest) | inr e => inr e end.

Definition fmt_03d (n : Z) : list Z :=
  replicate (3 - length (fmt_d n)) 48 ++ fmt_d n.

Module Signed.

(** int128printf.c *)
Fixpoint print128 (fuel : nat) (x : Z) (sep : list Z) : printed :=
  match fuel with
  | O => inr PrintFuel
  | S fuel =>
    if x <? 0 then
      if x =? INT128_MIN then inr SignedOverflow else
      match print128 fuel (- x) sep with inl out => inl (45 :: out) | inr e => inr e end
    else if x <? 1000 then inl (fmt_d x)
    else then_print (print128 fuel (Z.quot x 1000) sep) (sep ++ fmt_03d (Z.rem x 1000))
  end.

End Signed.

Module Unsigned.

(** fibo128.c; its [Mk128] is the same text. *)
Definition Mk128 : list Z → Z * Z := Mk128.

Fixpoint print128 (fuel : nat) (x : Z) (sep : list Z) : printed :=
  match fuel with
  | O => inr PrintFuel
  | S fuel =>
    if x <? 1000 then inl (fmt_d x)
    else then_print (print128 fuel (x / 1000) sep) (sep ++ fmt_03d (x mod 1000))
  end.

End Unsigned.

(** 1000^13 exceeds 2^128; one more call handles the sign. *)
Definition print_fuel : nat := 14.

(** The loop of [main] in fibo128.c from [n] on. *)
Fixpoint fibo_loop (fuel : nat) (n num1 num2 next : Z) : printed :=
  match fuel with
  | O => inr PrintFuel
  | S fuel =>
    if n <=? 184 then
      match Unsigned.print128 print_fuel next [] with
      | inl number =>
          match fibo_loop fuel (n + 1) num2 next (u128 (num2 + next)) with
          | inl out => inl (codes "Fib(" ++ dec 20 n ++ codes ") is " ++ number ++ codes newline ++ out)
          | inr e => inr e
          end
      | inr e => inr e
      end
    else inl []
  end.

Definition fibo_main : printed :=
  let num1 := 0 in let num2 := 1 in fibo_loop 186 0 num1 num2 (u128 (num1 + num2)).

(** *** [main] of int128printf.c *)

Module Int128printf.

(** The function is unfinished: it returns a variable that has no value. *)
Definition fib (n : Z) : Z + print_error := inr Uninitialised.

(** A [__uint128_t] passed as an [__int128]. *)
Definition s128 (z : Z) : Z := if u128 z <? 2 ^ 127 then u128 z else u128 z - 2 ^ 128.

(** The loop of [main] from [n] on, for any [fib]. *)
Fixpoint loop (fib : Z → Z + print_error) (fuel : nat) (n : Z) : printed :=
  match fuel with
  | O => inr PrintFuel
  | S fuel =>
    if n <=? 185 then
      match fib n with
      | inl v =>
          match Signed.print128 print_fuel (s128 v) [], loop fib fuel (n + 1) with
          | inl number, inl out =>
              inl (codes "P(" ++ dec 20 n ++ codes ") is " ++ number ++ codes newline ++ out)
          | inr e, _ => inr e
          | _, inr e => inr e
          end
      | inr e => inr e
      end
    else inl []
  end.

Definition main : printed := loop fib 187 0.

End Int128printf.

(** ** Numerals *)

(** The number that the digits of a string denote, after a prefix of value [v]. *)
Fixpoint numeral (v : Z) (str : list Z) : Z :=
  match str with
  | [] => v
  | c :: str => numeral (if is_digit c then v * 10 + (c - 48) else v) str
  end.

Definition numeric (c : Z) : bool := is_digit c || is_grouping c.

Lemma numeral_app v a b : numeral v (a ++ b) = numeral (numeral v a) b.
Proof. revert v. induction a as [|c a IH]; intros v; simpl; [done|apply IH]. Qed.

Lemma numeral_grouping v sep : forallb is_grouping sep = true → numeral v sep = v.
Proof.
  revert v. induction sep as [|c sep IH]; simpl; intros v H; [done|]. zbool.
  destruct (is_digit c) eqn:E; [|by apply IH]. unfold is_grouping, is_digit in *. zbool.
  destruct_or!; zbool; destruct_or?; zbool; lia.
Qed.

Lemma u128_small z : 0 ≤ z < 2 ^ 128 → u128 z = z.
Proof. apply Z.mod_small. Qed.

Lemma u128_digit p c : u128 (u128 (u128 (u128 p * 10) + c) - 48) = u128 (p * 10 + (c - 48)).
Proof.
  unfold u128. rewrite Z.mul_mod_idemp_l, Z.add_mod_idemp_l, Zminus_mod_idemp_l by done.
  f_equal. lia.
Qed.

(** The loop reads the numeral modulo 2^128 up to the first other character. *)
Lemma collect_numeric a p : forallb numeric a = true →
  collect_digits a (u128 p) = (true, u128 (numeral p a)).
Proof.
  revert p. induction a as [|c a IH]; simpl; intros p H; [done|]. zbool. unfold numeric in *.
  destruct (is_digit c); [by rewrite u128_digit, IH|]. simpl in *.
  by destruct (is_grouping c); [apply IH|].
Qed.

Lemma collect_other a c b p : forallb numeric a = true → numeric c = false →
  collect_digits (a ++ c :: b) (u128 p) = (false, u128 (numeral p a)).
Proof.
  revert p. induction a as [|x a IH]; simpl; intros p H Hc.
  { unfold numeric in Hc. zbool. by destruct (is_digit c), (is_grouping c). }
  zbool. unfold numeric in *.
  destruct (is_digit x); [by rewrite u128_digit, IH|]. simpl in *.
  by destruct (is_grouping x); [apply IH|].
Qed.

(** ** Printed groups *)

Lemma below_1000 (P : Z → bool) :
  forallb P (seqZ 0 1000) = true → ∀ x, 0 ≤ x < 1000 → P x = true.
Proof.
  intros H x Hx. rewrite forallb_forall in H. apply H.
  apply list_elem_of_In, elem_of_seqZ. lia.
Qed.

Lemma fmt_03d_digits x : 0 ≤ x < 1000 →
  fmt_03d x = [48 + x / 100; 48 + x / 10 mod 10; 48 + x mod 10].
Proof.
  intros Hx. apply (bool_decide_eq_true (fmt_03d x = _)).
  revert x Hx. apply below_1000. vm_compute. reflexivity.
Qed.

(** One more group of three digits. *)
Lemma numeral_fmt_03d v x : 0 ≤ x < 1000 →
  numeral v (fmt_03d x) = v * 1000 + x ∧ forallb numeric (fmt_03d x) = true.
Proof.
  intros Hx. rewrite fmt_03d_digits by done.
  assert (0 ≤ x / 100 ≤ 9 ∧ 0 ≤ x / 10 mod 10 ≤ 9 ∧ 0 ≤ x mod 10 ≤ 9) as (H1 & H2 & H3)
    by (Z.div_mod_to_equations; lia).
  assert (∀ d, 0 ≤ d ≤ 9 → is_digit (48 + d) = true) as Hd.
  { intros d Hd. unfold is_digit. apply andb_true_iff. rewrite !Z.leb_le. lia. }
  simpl. unfold numeric. rewrite !Hd by done. split; [|done].
  Z.div_mod_to_equations; lia.
Qed.

Lemma numeral_fmt_d x : 0 ≤ x < 1000 →
  numeral 0 (fmt_d x) = x ∧ forallb numeric (fmt_d x) = true ∧
  match fmt_d x with [] => false | c :: _ => is_digit c end = true.
Proof.
  intros Hx. apply (bool_decide_eq_true (numeral 0 (fmt_d x) = x ∧ _)).
  revert x Hx. apply below_1000. vm_compute. reflexivity.
Qed.

(** ** Printed numbers *)

(** [out] starts with a digit, and reads as [x]. *)
Definition reads (x : Z) (out : list Z) : Prop :=
  numeral 0 out = x ∧ forallb numeric out = true ∧
  match out with [] => false | c :: _ => is_digit c end = true.

Lemma reads_group x out sep : 1000 ≤ x → forallb is_grouping sep = true →
  reads (x / 1000) out → reads x (out ++ sep ++ fmt_03d (x mod 1000)).
Proof.
  intros Hx Hsep (Hv & Hn & Hd).
  destruct (numeral_fmt_03d (x / 1000) (x mod 1000)) as [Hg Hg'].
  { apply Z.mod_pos_bound. lia. }
  unfold reads. rewrite !numeral_app, Hv, (numeral_grouping _ sep Hsep), Hg, !forallb_app, Hn, Hg'.
  split; [rewrite (Z.div_mod x 1000) at 3 by lia; lia|]. split; [|by destruct out].
  rewrite andb_true_r. simpl. clear -Hsep. induction sep as [|c sep IH]; simpl in *; [done|].
  zbool. unfold numeric at 1. rewrite IH by done. by rewrite H, orb_true_r.
Qed.

(** Numbers of at most [fuel] digits in base [b]. *)
Definition covers (b : Z) (fuel : nat) (x : Z) : Prop :=
  0 ≤ x < b ^ Z.of_nat fuel ∧ fuel ≠ 0%nat.

Lemma covers_div b fuel x : 0 < b ≤ x → covers b (S fuel) x → covers b fuel (x / b).
Proof.
  unfold covers. rewrite Nat2Z.inj_succ, Z.pow_succ_r by lia. intros Hx [Hb _].
  split; [split; [apply Z.div_pos; lia|apply Z.div_lt_upper_bound; lia]|].
  intros ->. rewrite Z.pow_0_r in Hb. lia.
Qed.

Lemma print_unsigned_reads sep : forallb is_grouping sep = true → ∀ fuel x, covers 1000 fuel x →
  ∃ out, Unsigned.print128 fuel x sep = inl out ∧ reads x out.
Proof.
  intros Hsep. induction fuel as [|fuel IH]; intros x Hx; [by destruct Hx|].
  cbn [Unsigned.print128]. case_test; [eexists; split; [done|apply numeral_fmt_d]|].
  { destruct Hx. lia. }
  destruct (IH (x / 1000)) as (out & -> & Hr); [by apply covers_div|].
  eexists. split; [done|]. by apply reads_group.
Qed.

Lemma print_signed_negative fuel x sep : x < 0 → x ≠ INT128_MIN →
  Signed.print128 (S fuel) x sep =
  match Signed.print128 fuel (- x) sep with inl out => inl (45 :: out) | inr e => inr e end.
Proof.
  intros Hn E. cbn [Signed.print128].
  by rewrite (proj2 (Z.ltb_lt _ _) Hn), (proj2 (Z.eqb_neq _ _) E).
Qed.

(** On numbers that are not negative the two functions agree. *)
Lemma print_signed_unsigned sep fuel x : 0 ≤ x →
  Signed.print128 fuel x sep = Unsigned.print128 fuel x sep.
Proof.
  revert x. induction fuel as [|fuel IH]; intros x Hx; [done|]. cbn [Signed.print128 Unsigned.print128].
  rewrite (proj2 (Z.ltb_ge _ _) Hx). case_test; [done|].
  rewrite Z.quot_div_nonneg, Z.rem_mod_nonneg by lia. rewrite IH; [done|].
  apply Z.div_pos; lia.
Qed.

Lemma Mk128_reads x out : reads x out → Mk128 out = (1, u128 x).
Proof.
  intros (<- & Hn & Hd). unfold Mk128. destruct out as [|c out]; [done|].
  destruct (c =? 45) eqn:E; zbool; [by subst c|].
  change 0 with (u128 0) at 1. rewrite (collect_numeric _ 0) by done.
  change (u128 1) with 1. rewrite Z.mul_1_r. unfold u128. by rewrite Zmod_mod.
Qed.

Lemma Mk128_minus x out : reads x out → Mk128 (45 :: out) = (1, u128 (- x)).
Proof.
  intros (<- & Hn & _). unfold Mk128. simpl.
  change 0 with (u128 0) at 1. rewrite (collect_numeric _ 0) by done.
  unfold u128. rewrite <-Zmult_mod. do 2 f_equal. lia.
Qed.

(** ** The decimal numeral as reference *)

Lemma dec_enough f g n : covers 10 f n → covers 10 g n → dec f n = dec g n.
Proof.
  revert g n. induction f as [|f IH]; intros [|g] n Hf Hg; [by destruct Hf, Hg..|].
  cbn [dec]. case_test; [done|]. rewrite (IH g); [done|apply covers_div; [lia|done]..].
Qed.

Lemma dec_group f n : 1000 ≤ n → dec (S (S (S f))) n = dec f (n / 1000) ++ fmt_03d (n mod 1000).
Proof.
  intros Hn. rewrite fmt_03d_digits by (apply Z.mod_pos_bound; lia).
  cbn [dec]. rewrite !(proj2 (Z.ltb_ge _ _)) by (Z.div_mod_to_equations; lia).
  rewrite <-!app_assoc, !Z.div_div by done. simpl. f_equal. change (10 * 10 * 10) with 1000.
  f_equal; [|f_equal; [|f_equal]]; f_equal; Z.div_mod_to_equations; lia.
Qed.

Lemma print_unsigned_dec fuel x : covers 1000 fuel x →
  Unsigned.print128 fuel x [] = inl (dec (3 * fuel) x).
Proof.
  revert x. induction fuel as [|fuel IH]; intros x Hx; [by destruct Hx|].
  replace (3 * S fuel)%nat with (S (S (S (3 * fuel)))) by lia.
  cbn [Unsigned.print128]. case_test.
  - destruct Hx as [Hx _]. f_equal. apply dec_enough; (split; [|done]).
    + change (10 ^ Z.of_nat 10) with 10000000000. lia.
    + assert (10 ^ 3 ≤ 10 ^ Z.of_nat (S (S (S (3 * fuel))))); [apply Z.pow_le_mono_r; lia|lia].
  - rewrite IH by (by apply covers_div). unfold then_print. by rewrite dec_group.
Qed.
