(* ===== verification/Bomb.v ===== *)
(** * Bomb: assembly/bomb-assessment/bomb.c

    The stages are declared in a header that is not in the repository: they are
    parameters, which may return any number, change the whole state, or not return
    (they end the program, crash or run for ever: [None]).  The state is the
    buffer [input], what is left of the standard input, and what has been printed. *)

From stdpp Require Import base list strings.
From S2P Require Import Prelude.

Open Scope Z_scope.

Definition BUF_SZ : nat := 128.

Record bst := Bst { input : list Z; stdin : list Z; stdout : list Z }.

Inductive bomb_error :=
  | NullWrite          (* [*newline] with [newline] NULL *)
  | ReadPastBuffer     (* [strchr] on a buffer without terminator *)
  | StageKept.         (* a stage has not returned *)

Definition set_input b s := Bst b (stdin s) (stdout s).
Definition put (out : list Z) s := Bst (input s) (stdin s) (stdout s ++ out).

(** ** The C library functions of the code *)

(** At most [n] characters, up to the first newline, and the rest. *)
Fixpoint read_line (n : nat) (l : list Z) : list Z * list Z :=
  match n, l with
  | S n, c :: l => if c =? 10 then ([c], l) else let '(a, b) := read_line n l in (c :: a, b)
  | _, _ => ([], l)
  end.

Definition overwrite (new buf : list Z) : list Z := new ++ drop (length new) buf.

(** [fgets(input, BUF_SZ, stdin)] leaves the buffer as it is at the end of the input. *)
Definition fgets (s : bst) : bst :=
  match stdin s with
  | [] => s
  | _ => let '(line, rest) := read_line (BUF_SZ - 1) (stdin s) in
         Bst (overwrite (line ++ [0]) (input s)) rest (stdout s)
  end.

(** The index of the first [c], [Some None] when the string does not contain it. *)
Fixpoint strchr (c : Z) (buf : list Z) : option (option nat) :=
  match buf with
  | [] => None
  | x :: buf => if x =? c then Some (Some O) else if x =? 0 then Some None
                else option_map (option_map S) (strchr c buf)
  end.

(** The string in a buffer. *)
Fixpoint c_string (buf : list Z) : list Z :=
  match buf with [] => [] | x :: buf => if x =? 0 then [] else x :: c_string buf end.

(** ** The program *)

Section bomb.
Context (stage : nat → bst → option (Z * bst)) (stage_secret : bst → option (Z * bst)).

Definition returned (r : option (Z * bst)) : (Z * bst) + bomb_error :=
  match r with Some rs => inl rs | None => inr StageKept end.

(** The block of one stage up to its test. *)
Definition play (k : nat) (s : bst) : (Z * bst) + bomb_error :=
  let s := put (codes "Stage " ++ fmt_d (Z.of_nat k) ++ codes ": ") s in
  let s := fgets s in
  match strchr 10 (input s) with
  | None => inr ReadPastBuffer
  | Some None => inr NullWrite
  | Some (Some newline) => returned (stage k (set_input (<[newline := 0]> (input s)) s))
  end.

(** After the nine stages. *)
Definition secret_part (secret : list Z) (curr_stage : Z) (s : bst) : (Z * bst) + bomb_error :=
  if negb (hd 0 secret =? 0) then
    let s := fgets (put (codes "Stage ?: ") s) in
    match returned (stage_secret s) with
    | inr e => inr e
    | inl (r, s) => if r =? 0 then inl (curr_stage - 1, s) else inl (curr_stage + 1, s)
    end
  else inl (curr_stage, s).

Fixpoint play_all (secret : list Z) (ks : list nat) (curr_stage : Z) (s : bst)
    : (Z * bst) + bomb_error :=
  match ks with
  | [] => secret_part secret curr_stage s
  | k :: ks =>
    match play k s with
    | inr e => inr e
    | inl (r, s) => if r =? 0 then inl (curr_stage - 1, s)
                    else play_all secret ks (curr_stage + 1) s
    end
  end.

Definition stage_defused (s : bst) : (Z * bst) + bomb_error :=
  let secret := replicate BUF_SZ 0 in
  play_all secret (seq 1 9) 1 s.

Definition boom (progress : Z) : list Z :=
  codes newline ++ codes "BOOM" ++ codes newline ++
  codes "You have died" ++ codes newline ++
  codes "You were able to defuse " ++ fmt_d progress ++ codes " stage" ++
  [if progress =? 1 then 0 else 115] ++ codes " before exploding." ++ codes newline ++
  codes "Have a nice day." ++ codes newline.

Definition disarmed : list Z :=
  codes "Bomb disarmed!" ++ codes newline ++ codes "You live!" ++ codes newline.

(** [main]: what has been printed at the end. *)
Definition bomb_main (s : bst) : list Z + bomb_error :=
  match stage_defused s with
  | inr e => inr e
  | inl (progress, s) =>
      inl (stdout (put (if progress <? 9 then boom progress else disarmed) s))
  end.
End bomb.

(** ** Facts *)

(** A line without newline and terminator that fits in the buffer. *)
Definition good_line (l : list Z) : bool :=
  forallb (λ c, negb (c =? 10) && negb (c =? 0)) l && (length l + 2 <=? BUF_SZ)%nat.

Definition no_newline (l : list Z) : bool := forallb (λ c, negb (c =? 10)) l.

Lemma read_line_good n l rest : no_newline l = true → (length l < n)%nat →
  read_line n (l ++ 10 :: rest) = (l ++ [10], rest).
Proof.
  revert n. induction l as [|c l IH]; intros [|n] H Hn; simpl in *; try lia; [done|].
  zbool. rewrite (proj2 (Z.eqb_neq _ _)), IH by (done || lia). done.
Qed.

Lemma read_line_split n l : (read_line n l).1 ++ (read_line n l).2 = l.
Proof.
  revert n. induction l as [|c l IH]; intros [|n]; simpl; [done..|].
  destruct (c =? 10); [done|]. specialize (IH n). destruct (read_line n l). simpl in *. by f_equal.
Qed.

Lemma read_line_progress n c l :
  (length (read_line (S n) (c :: l)).2 < length (c :: l))%nat.
Proof.
  simpl. destruct (c =? 10); [simpl; lia|]. pose proof (read_line_split n l) as H.
  destruct (read_line n l) as [a b]. simpl in *. apply (f_equal length) in H.
  rewrite length_app in H. lia.
Qed.

Lemma c_string_app l : forallb (λ c, negb (c =? 0)) l = true → c_string (l ++ [0]) = l.
Proof.
  induction l as [|c l IH]; simpl; intros H; [done|]. zbool.
  by rewrite (proj2 (Z.eqb_neq _ _)), IH by done.
Qed.

Lemma read_line_bad n l : no_newline (take n l) = true → read_line n l = (take n l, drop n l).
Proof.
  revert n. induction l as [|c l IH]; intros [|n] H; simpl in *; [done..|].
  zbool. rewrite (proj2 (Z.eqb_neq _ _)), IH by done. done.
Qed.

Lemma fgets_reads s : stdin s ≠ [] →
  fgets s = let '(line, rest) := read_line (BUF_SZ - 1) (stdin s) in
            Bst (overwrite (line ++ [0]) (input s)) rest (stdout s).
Proof. unfold fgets. by destruct (stdin s). Qed.

Lemma strchr_found l rest : forallb (λ c, negb (c =? 10) && negb (c =? 0)) l = true →
  strchr 10 (l ++ 10 :: rest) = Some (Some (length l)).
Proof.
  induction l as [|c l IH]; simpl; intros H; [done|]. zbool.
  rewrite !(proj2 (Z.eqb_neq _ _)), IH by done. done.
Qed.

Lemma strchr_null l rest : no_newline l = true → strchr 10 (l ++ 0 :: rest) = Some None.
Proof.
  induction l as [|c l IH]; simpl; intros H; [done|]. zbool.
  rewrite (proj2 (Z.eqb_neq _ 10)), IH by done. by destruct (c =? 0).
Qed.

Lemma c_string_line l rest : forallb (λ c, negb (c =? 10) && negb (c =? 0)) l = true →
  c_string (l ++ 0 :: rest) = l.
Proof.
  induction l as [|c l IH]; simpl; intros H; [done|]. zbool.
  rewrite (proj2 (Z.eqb_neq _ _)), IH by done. done.
Qed.
