(* ===== verification/BombProps.v ===== *)
(** * BombProps: what the bomb's driver does with the player's lines *)

From stdpp Require Import base list strings.
From S2P Require Import Prelude Bomb.

Open Scope Z_scope.

Section defuse.
Context (stage : nat → bst → option (Z * bst)) (stage_secret : bst → option (Z * bst)).
Context (judge : nat → list Z → option Z) (says : nat → list Z → list Z).

(** The stages judge the line that they are given: what they return and print depends on
    it only, they read nothing from the standard input and leave no newline in the
    buffer. *)
Definition stages_judge : Prop := ∀ k s, strchr 10 (input s) = Some None →
  let l := c_string (input s) in
  match judge k l with
  | Some r => ∃ buf, strchr 10 buf = Some None ∧
                stage k s = Some (r, Bst buf (stdin s) (stdout s ++ says k l))
  | None => stage k s = None
  end.
Hypothesis stage_judges : stages_judge.

Definition prompt (k : nat) : list Z := codes "Stage " ++ fmt_d (Z.of_nat k) ++ codes ": ".

(** The reference: the result and the output, for the stages [ks] after [done] ones. *)
Fixpoint defuse (ks : list nat) (done : Z) (lines : list (list Z)) : (Z * list Z) + bomb_error :=
  match ks, lines with
  | [], _ => inl (done + 1, [])
  | _ :: _, [] => inr NullWrite
  | k :: ks, l :: lines =>
    match judge k l with
    | None => inr StageKept
    | Some v =>
      if v =? 0 then inl (done, prompt k ++ says k l) else
      match defuse ks (done + 1) lines with
      | inl (r, out) => inl (r, prompt k ++ says k l ++ out)
      | inr e => inr e
      end
    end
  end.

Definition typed (lines : list (list Z)) : list Z := mjoin ((λ l, l ++ [10]) <$> lines).

Lemma play_good k l rest s : good_line l = true → stdin s = l ++ 10 :: rest →
  match judge k l with
  | Some r => ∃ buf, strchr 10 buf = Some None ∧
      play stage k s = inl (r, Bst buf rest (stdout s ++ prompt k ++ says k l))
  | None => play stage k s = inr StageKept
  end.
Proof.
  unfold good_line, BUF_SZ. intros [Hl Hlen%Nat.leb_le]%andb_true_iff Hs.
  assert (no_newline l = true) as Hn.
  { clear -Hl. induction l as [|c l IH]; simpl in *; [done|]. zbool. rewrite IH by done.
    by rewrite (proj2 (Z.eqb_neq _ _)). }
  pose (buf := l ++ 0 :: 0 :: drop (length (l ++ [10] ++ [0])) (input s)).
  assert (strchr 10 buf = Some None) as Hbuf by by apply strchr_null.
  assert (play stage k s = returned (stage k (Bst buf rest (stdout s ++ prompt k)))) as ->.
  { unfold play, buf.
    rewrite fgets_reads by (simpl; rewrite Hs; by destruct l). simpl stdin. rewrite Hs.
    rewrite read_line_good by (done || (unfold BUF_SZ; lia)).
    simpl. unfold overwrite. rewrite <-!app_assoc. simpl. rewrite strchr_found by done.
    by rewrite insert_app_r_alt, Nat.sub_diag by done. }
  pose proof (stage_judges k (Bst buf rest (stdout s ++ prompt k)) Hbuf) as H.
  simpl input in H. simpl stdin in H. simpl stdout in H. cbv zeta in H.
  assert (c_string buf = l) as Hc by by apply c_string_line. rewrite Hc in H.
  destruct (judge k l); [|by rewrite H].
  destruct H as (buf' & Hbuf' & ->). exists buf'. split; [done|]. by rewrite <-app_assoc.
Qed.

Lemma play_bad k s : no_newline (take 127 (stdin s)) = true →
  stdin s ≠ [] ∨ strchr 10 (input s) = Some None → play stage k s = inr NullWrite.
Proof.
  intros Hn H. unfold play. destruct (decide (stdin s = [])) as [E|E].
  { destruct H as [H|H]; [done|]. unfold fgets. simpl. rewrite E. simpl. by rewrite H. }
  rewrite fgets_reads by done. simpl stdin. rewrite read_line_bad by done.
  simpl. unfold overwrite. rewrite <-app_assoc. simpl. by rewrite strchr_null.
Qed.

(** What a result and its state show. *)
Definition shown (r : (Z * bst) + bomb_error) : (Z * list Z) + bomb_error :=
  match r with inl (n, s) => inl (n, stdout s) | inr e => inr e end.

Lemma play_all_defuse rest ks : ∀ n lines s,
  forallb good_line lines = true → no_newline (take 127 rest) = true →
  stdin s = typed lines ++ rest →
  lines ≠ [] ∨ rest ≠ [] ∨ strchr 10 (input s) = Some None →
  shown (play_all stage stage_secret (replicate BUF_SZ 0) ks (n + 1) s) =
  match defuse ks n lines with
  | inl (r, out) => inl (r, stdout s ++ out)
  | inr e => inr e
  end.
Proof.
  induction ks as [|k ks IH]; intros n lines s Hl Hr Hs Hne; cbn [play_all defuse].
  { simpl. by rewrite app_nil_r. }
  destruct lines as [|l lines]; simpl in Hs.
  { rewrite play_bad; [done|by rewrite Hs|rewrite Hs]. destruct Hne as [?|[?|?]]; auto. }
  simpl in Hl. zbool. unfold typed in Hs. cbn in Hs. rewrite <-!app_assoc in Hs. simpl in Hs.
  pose proof (play_good k l _ s ltac:(done) Hs) as Hp.
  destruct (judge k l) as [v|]; [|unfold shown; by rewrite Hp].
  destruct Hp as (buf & Hbuf & ->).
  destruct (v =? 0); [unfold shown; replace (n + 1 - 1) with n by lia; done|].
  rewrite (IH (n + 1) lines); [|by auto..]. destruct (defuse ks (n + 1) lines) as [[r out]|e]; [|done].
  cbn [stdout]. by rewrite <-!app_assoc.
Qed.

(** Every stage has a line, and accepts it. *)
Definition accepts (k : nat) (l : list Z) : bool :=
  match judge k l with Some v => negb (v =? 0) | None => false end.
Definition all_accepted (ks : list nat) (lines : list (list Z)) : bool :=
  (length ks <=? length lines)%nat && forallb (λ '(k, l), accepts k l) (zip ks lines).

Lemma defuse_accepted ks : ∀ n lines,
  match defuse ks n lines with
  | inl (r, _) => if all_accepted ks lines then r = n + Z.of_nat (length ks) + 1
                  else r < n + Z.of_nat (length ks)
  | inr _ => all_accepted ks lines = false
  end.
Proof.
  unfold all_accepted, accepts. induction ks as [|k ks IH]; intros n [|l lines]; cbn [defuse];
    try (simpl; done || lia).
  cbn [length Nat.leb zip zip_with forallb]. destruct (judge k l) as [v|]; [|simpl; by rewrite andb_false_r].
  destruct (v =? 0) eqn:Hv; simpl; [rewrite andb_false_r; lia|].
  - specialize (IH (n + 1) lines). destruct (defuse ks (n + 1) lines) as [[r out]|e]; [|done].
    case_match; lia.
Qed.
End defuse.

Lemma bomb_main_lines stage stage_secret judge says lines rest s :
  stages_judge stage judge says →
  forallb good_line lines = true → no_newline (take 127 rest) = true →
  stdin s = typed lines ++ rest →
  lines ≠ [] ∨ rest ≠ [] ∨ strchr 10 (input s) = Some None →
  bomb_main stage stage_secret s =
  match defuse judge says (seq 1 9) 0 lines with
  | inl (r, out) =>
      inl (stdout s ++ out ++ if all_accepted judge (seq 1 9) lines then disarmed else boom r)
  | inr e => inr e
  end.
Proof.
  intros Hst Hl Hr Hs Hne.
  pose proof (play_all_defuse stage stage_secret judge says Hst rest (seq 1 9) 0 lines s Hl Hr Hs Hne) as H.
  pose proof (defuse_accepted judge says (seq 1 9) 0 lines) as Ha.
  unfold bomb_main, stage_defused. change (0 + 1) with 1 in H.
  destruct (play_all _ _ _ _ _ _) as [[r s']|e], (defuse _ _ _ _ _) as [[r' out]|e']; simplify_eq/=; [|done].
  f_equal. rewrite H0, <-app_assoc. do 2 f_equal.
  destruct (all_accepted _ _ _).
  - by rewrite (proj2 (Z.ltb_ge _ _)) by (simpl; lia).
  - by rewrite (proj2 (Z.ltb_lt _ _)) by lia.
Qed.

Lemma play_all_results stage stage_secret secret ks : ∀ n s,
  hd 0 secret = 0 →
  match play_all stage stage_secret secret ks n s with
  | inl (r, _) => n - 1 ≤ r < n - 1 + Z.of_nat (length ks) ∨ r = n + Z.of_nat (length ks)
  | inr _ => True
  end.
Proof.
  induction ks as [|k ks IH]; intros n s' H; cbn [play_all].
  { unfold secret_part. rewrite H. simpl. lia. }
  destruct (play stage k s') as [[r s'']|e]; [|done]. case_test; [simpl; lia|].
  specialize (IH (n + 1) s'' H). destruct (play_all _ _ _ _ _ _) as [[r' ?]|]; [|done].
  simpl. lia.
Qed.

Lemma play_all_secret stage ss ss' secret ks : ∀ n s,
  hd 0 secret = 0 → play_all stage ss secret ks n s = play_all stage ss' secret ks n s.
Proof.
  induction ks as [|k ks IH]; intros n s H; cbn [play_all].
  { unfold secret_part. by rewrite H. }
  destruct (play stage k s) as [[r s']|e]; [|done]. case_test; [done|]. by apply IH.
Qed.

(** Whatever the stages do, [stage_defused] returns 0 to 8, the number of the stages
    passed, or 10 after all nine, never 9; and the secret stage is never
    reached, since nothing writes the buffer that opens it. *)
Theorem stage_defused_results stage stage_secret stage_secret' s :
  match stage_defused stage stage_secret s with
  | inl (r, _) => 0 ≤ r ≤ 8 ∨ r = 10
  | inr _ => True
  end ∧
  stage_defused stage stage_secret s = stage_defused stage stage_secret' s.
Proof.
  unfold stage_defused. split; [|by apply play_all_secret].
  pose proof (play_all_results stage stage_secret (replicate BUF_SZ 0) (seq 1 9) 1 s eq_refl) as H.
  destruct (play_all _ _ _ _ _ _) as [[r ?]|]; [|done]. simpl in H. lia.
Qed.


(** A player who passes two stages of a bomb that wants a line of the stage's length, and
    counts the characters. *)
Definition judge_ex (k : nat) (l : list Z) : option Z :=
  Some (if (length l =? k)%nat then Z.of_nat (length l) else 0).
Definition says_ex (k : nat) (l : list Z) : list Z := [].
Definition stage_ex (k : nat) (s : bst) : option (Z * bst) :=
  Some (if (length (c_string (input s)) =? k)%nat then Z.of_nat (length (c_string (input s))) else 0, s).
Definition lines_ex : list (list Z) := [[65]; [65; 66]; [65]; [65]].
Definition game_ex : bst := Bst (replicate BUF_SZ 0) (typed lines_ex) [].

Lemma stage_ex_judges : stages_judge stage_ex judge_ex says_ex.
Proof.
  intros k [buf inp out] H. exists buf. split; [done|]. unfold stage_ex, says_ex. simpl.
  by rewrite app_nil_r.
Qed.

