(* ===== verification/Print128Props.v ===== *)
(** * Print128Props: what the 128-bit reader and printers guarantee *)

From stdpp Require Import base list strings.
From S2P Require Import Prelude Print128.

Open Scope Z_scope.

Lemma covers_u128 fuel x : (13 ≤ fuel)%nat → 0 ≤ x < 2 ^ 128 → covers 1000 fuel x.
Proof.
  intros Hf Hx. split; [|lia]. split; [lia|].
  assert (1000 ^ 13 ≤ 1000 ^ Z.of_nat fuel); [apply Z.pow_le_mono_r; lia|].
  assert (2 ^ 128 ≤ 1000 ^ 13) by (vm_compute; discriminate). lia.
Qed.

(** C32: what [print128] prints for a signed number, with any grouping of commas, spaces
    and dots, [Mk128] reads back modulo 2^128; the smallest number makes
    [print128] negate it, which overflows. *)
Theorem print128_round_trip x sep :
  INT128_MIN ≤ x < 2 ^ 127 → forallb is_grouping sep = true →
  if x =? INT128_MIN then Signed.print128 print_fuel x sep = inr SignedOverflow
  else ∃ out, Signed.print128 print_fuel x sep = inl out ∧ Mk128 out = (1, u128 x).
Proof.
  intros Hx Hsep. destruct (x =? INT128_MIN) eqn:E; zbool; [by subst x|].
  assert (2 ^ 127 ≤ 2 ^ 128) as H by (vm_compute; discriminate).
  unfold INT128_MIN in *. destruct (Z.lt_ge_cases x 0) as [Hn|Hn].
  - unfold print_fuel. rewrite print_signed_negative, print_signed_unsigned by (done || lia).
    destruct (print_unsigned_reads sep Hsep 13 (- x)) as (out & -> & Hr).
    { apply covers_u128; lia. }
    eexists. split; [done|]. by rewrite (Mk128_minus _ _ Hr), Z.opp_involutive.
  - rewrite print_signed_unsigned by done.
    destruct (print_unsigned_reads sep Hsep print_fuel x) as (out & -> & Hr).
    { apply covers_u128; [unfold print_fuel; lia|lia]. }
    eexists. split; [done|]. by apply Mk128_reads.
Qed.

Lemma print128_round_trip_witness :
  Signed.print128 print_fuel (-1234567) [44] = inl (codes "-1,234,567") ∧
  Mk128 (codes "-1,234,567") = (1, 2 ^ 128 - 1234567).
Proof.
  pose proof (print128_round_trip (-1234567) [44]) as H.
  destruct H as (out & H1 & H2); [split; [discriminate|reflexivity]|reflexivity|].
  assert (inl (codes "-1,234,567") = (inl out : printed)) as [= <-]
    by (rewrite <-H1; vm_compute; reflexivity).
  split; [exact H1|rewrite H2; vm_compute; reflexivity].
Defined.

(** C33: [print128] of an unsigned number without grouping prints its decimal
    numeral, as [printf] would print a smaller number; with grouping it prints
    what [Mk128] of the same file reads back as exactly this number. *)
Theorem print128_unsigned_decimal x :
  0 ≤ x < 2 ^ 128 →
  Unsigned.print128 print_fuel x [] = inl (dec 42 x) ∧
  (∀ sep, forallb is_grouping sep = true →
   ∃ out, Unsigned.print128 print_fuel x sep = inl out ∧ Unsigned.Mk128 out = (1, x)).
Proof.
  intros Hx. assert (covers 1000 print_fuel x) as Hc by (apply covers_u128; [unfold print_fuel; lia|lia]).
  split; [by apply print_unsigned_dec|]. intros sep Hsep.
  destruct (print_unsigned_reads sep Hsep print_fuel x Hc) as (out & -> & Hr).
  eexists. split; [done|]. unfold Unsigned.Mk128. rewrite (Mk128_reads _ _ Hr). unfold u128. by rewrite Z.mod_small.
Qed.

Lemma print128_unsigned_decimal_witness :
  Unsigned.print128 print_fuel (2 ^ 128 - 1) []
  = inl (codes "340282366920938463463374607431768211455").
Proof.
  destruct (print128_unsigned_decimal (2 ^ 128 - 1)) as [H _].
  - split; [discriminate|reflexivity].
  - rewrite H. vm_compute. reflexivity.
Defined.

(** C34: [Mk128] accepts exactly an optional minus sign followed by digits and
    grouping characters, and stores the number modulo 2^128, whatever its length;
    at any other character it returns 0 and leaves in the caller's variable what
    the characters before it denote, without the sign. *)
Theorem Mk128_correct a c b :
  forallb numeric a = true → numeric c = false →
  Mk128 a = (1, u128 (numeral 0 a)) ∧
  Mk128 (45 :: a) = (1, u128 (- numeral 0 a)) ∧
  Mk128 (45 :: a ++ c :: b) = (0, u128 (numeral 0 a)) ∧
  (a ≠ [] ∨ c ≠ 45 → Mk128 (a ++ c :: b) = (0, u128 (numeral 0 a))).
Proof.
  intros Ha Hc. unfold Mk128.
  pose proof (collect_numeric a 0 Ha) as H1. pose proof (collect_other a c b 0 Ha Hc) as H2.
  change (u128 0) with 0 in H1, H2.
  change (45 =? 45) with true. cbv iota beta. rewrite H1, H2. split_and!.
  - destruct a as [|x a]; [reflexivity|]. destruct (x =? 45) eqn:E; zbool; [by subst x|].
    rewrite H1. change (u128 1) with 1. rewrite Z.mul_1_r. unfold u128. by rewrite Zmod_mod.
  - unfold u128. rewrite <-Zmult_mod. do 2 f_equal. lia.
  - done.
  - intros Hne. destruct a as [|x a]; cbn [app] in *; cbv iota beta.
    + destruct (c =? 45) eqn:E; zbool; [by destruct Hne|]. cbv iota beta. by rewrite H2.
    + destruct (x =? 45) eqn:E; zbool; [by subst x|]. cbv iota beta. by rewrite H2.
Qed.

Lemma Mk128_correct_witness :
  Mk128 (codes "12,5" ++ 120 :: [57]) = (0, u128 (numeral 0 (codes "12,5"))) ∧
  u128 (numeral 0 (codes "12,5")) = 125.
Proof.
  split; [|vm_compute; reflexivity].
  apply (Mk128_correct (codes "12,5") 120 [57]); [reflexivity|reflexivity|left; discriminate].
Defined.

(** ** The Fibonacci numbers of fibo128.c *)

Lemma fib_186 : fib 186 < 2 ^ 128 ≤ fib 187.
Proof. vm_compute. split; [reflexivity|discriminate]. Qed.

(** The line that [main] prints for [n]. *)
Definition fibo_line (n : nat) : list Z :=
  codes "Fib(" ++ dec 20 (Z.of_nat n) ++ codes ") is " ++ dec 42 (fib (n + 2)) ++ codes newline.

Lemma fibo_loop_lines k n num1 : (n + k = 185)%nat → ∀ fuel, (k < fuel)%nat →
  fibo_loop fuel (Z.of_nat n) num1 (u128 (fib (S n))) (u128 (fib (S (S n))))
  = inl (mjoin (fibo_line <$> seq n k)).
Proof.
  revert n num1. induction k as [|k IH]; intros n num1 Hn [|fuel] Hf; [lia| |lia|].
  { cbn [fibo_loop]. by rewrite (proj2 (Z.leb_gt _ _)) by lia. }
  cbn [fibo_loop]. rewrite (proj2 (Z.leb_le _ _)) by lia.
  assert (0 ≤ fib (S (S n)) < 2 ^ 128) as Hb.
  { pose proof (fib_mono (S (S n)) 186 ltac:(lia)). pose proof fib_186. pose proof (fib_nonneg (S n)). lia. }
  rewrite u128_small, print_unsigned_dec by (try (apply covers_u128; [unfold print_fuel; lia|]); done).
  replace (Z.of_nat n + 1) with (Z.of_nat (S n)) by lia.
  replace (u128 (u128 (fib (S n)) + fib (S (S n)))) with (u128 (fib (S (S (S n))))).
  2: { rewrite (fib_SS (S n)). unfold u128. rewrite Z.add_mod_idemp_l by done. f_equal. lia. }
  rewrite <-(u128_small (fib (S (S n)))) at 1 by done.
  rewrite IH by lia. cbn [seq fmap list_fmap mjoin list_join]. unfold fibo_line at 2.
  replace (n + 2)%nat with (S (S n)) by lia. rewrite <-!app_assoc. reflexivity.
Qed.

(** C35: [main] of fibo128.c prints 185 lines and the exact Fibonacci number on every
    one of them: the line for [n] shows the number F(n+2), and F(186), on the last
    line, is the largest that 128 bits can hold (the sum computed after it wraps
    and is not printed). *)
Theorem fibo_main_correct :
  fibo_main = inl (mjoin (fibo_line <$> seq 0 185)) ∧ fib 186 < 2 ^ 128 ≤ fib 187.
Proof. split; [|exact fib_186]. apply (fibo_loop_lines 185 0); lia. Qed.

(** The line of int128printf.c for [n], if its [fib] returned the Fibonacci number. *)
Definition p_line (n : nat) : list Z :=
  codes "P(" ++ dec 20 (Z.of_nat n) ++ codes ") is " ++ dec 42 (fib n) ++ codes newline.

(** int128printf.c is undefined at its first line, since its [fib] returns a variable without
    a value.  With a [fib] that returns the Fibonacci numbers, it prints the exact numbers
    up to F(184); F(185) does not fit in the signed parameter of [print128] and is printed as a
    negative number. *)
Lemma int128printf_main :
  Int128printf.main = inr Uninitialised ∧
  Int128printf.loop (λ n, inl (fib (Z.to_nat n))) 187 0 =
  inl (mjoin (p_line <$> seq 0 185) ++
       codes "P(185) is -" ++ dec 42 (2 ^ 128 - fib 185) ++ codes newline).
Proof. split; [done|]. vm_compute. reflexivity. Qed.
