(* ===== verification/Process.v ===== *)
(** * Process: POSIX processes

    The programs of assembly/170d that fork, execute other programs, wait and sleep
    are trees of system calls ([proc]).  A [machine] is a table of processes with the
    time in milliseconds; a move runs one process up to its next system call, or lets a
    millisecond pass.  A process may be slow, but no process spends a second ([PROMPT])
    outside of [sleep] and [waitpid].  Process numbers are not used twice.  The standard
    output is a terminal, so that each line is shown when it is printed.

    What other programs do (the commands given to [system] and [popen], the files that
    [execve] starts) is a parameter, the record [env]. *)

From stdpp Require Import base gmap list strings relations.
From S2P Require Import Prelude.

Open Scope Z_scope.

(** ** Programs *)

Record ids := Ids { uid : Z; euid : Z; gid : Z; egid : Z }.

(** The rest of a program, from its next system call on. *)
Inductive proc :=
  | Exit (code : Z)                              (* exit, or return from main *)
  | Write (s : list Z) (k : proc)                (* printf, puts on the standard output *)
  | Perror (msg : list Z) (k : proc)
  | Getpid (k : Z → proc)
  | Getppid (k : Z → proc)
  | Getids (k : ids → proc)                      (* getuid, geteuid, getgid, getegid *)
  | Fork (k : Z → proc)
  | Execve (path : list Z) (argv envp : list (list Z)) (k : proc)   (* k: after a failure *)
  | Waitpid (pid status : Z) (k : Z → proc)      (* status: the variable before the call *)
  | Sleep (sec : Z) (k : proc)                   (* sec: an unsigned int *)
  | System (cmd : list Z) (k : Z → proc)
  | Popen (cmd : list Z) (k : option (list Z) → proc)  (* all that the pipe will deliver *)
  | Undefined.                                   (* undefined behaviour *)

Definition u32 (z : Z) : Z := z mod 2 ^ 32.

(** [int] arithmetic, and the call of [sleep] with an [int]. *)
Definition checked (z : Z) (k : Z → proc) : proc := if int_range z then k z else Undefined.
Definition sleep_int (z : Z) (k : proc) : proc := checked z (λ z, Sleep (u32 z) k).

(** ** Machines *)

Inductive pstate :=
  | Ready (p : proc)
  | Asleep (until : Z) (p : proc)
  | Dead (status : Z).          (* a zombie *)

(** [spent]: milliseconds outside of [sleep] and [waitpid]. *)
Record process := Process { ppid : Z; creds : ids; spent : Z; state : pstate }.

Inductive event := Stdout (s : list Z) | Stderr (s : list Z) | Exited (status : Z).

Record machine := Machine {
  now : Z;
  table : gmap Z process;
  used : list Z;                (* the process numbers given so far *)
  shown : list (Z * event)      (* which process, what; oldest first *)
}.

(** [file]: the program that [execve] starts; [command]: what a command of [system] prints
    and its status; [pipe]: the same for [popen], [None] when it fails. *)
Record env := Env {
  file : list Z → option (list (list Z) → list (list Z) → proc);
  command : list Z → list Z * Z;
  pipe : list Z → option (list Z)
}.

Definition PROMPT : Z := 1000.

Definition become (pr : process) (st : pstate) : process :=
  Process (ppid pr) (creds pr) (spent pr) st.
Definition adopt (new : Z) (pr : process) : process :=
  Process new (creds pr) (spent pr) (state pr).
Definition is_dead (pr : process) : bool := match state pr with Dead _ => true | _ => false end.

Definition set_table (t : gmap Z process) (m : machine) : machine :=
  Machine (now m) t (used m) (shown m).
Definition show (pid : Z) (e : event) (m : machine) : machine :=
  Machine (now m) (table m) (used m) (shown m ++ [(pid, e)]).

(** Process [pid] goes on with [p]. *)
Definition goes_on (pid : Z) (pr : process) (p : proc) (m : machine) : machine :=
  set_table (<[pid := become pr (Ready p)]> (table m)) m.

(** ** Moves *)

(** What is left of the process [qr] when process [pid] ends: process 1 adopts the children
    of [pid] and waits for those that are zombies. *)
Definition after_exit (pid : Z) (qr : process) : option process :=
  if ppid qr =? pid then (if is_dead qr then None else Some (adopt 1 qr)) else Some qr.

Definition bury (pid : Z) (t : gmap Z process) : gmap Z process :=
  omap (after_exit pid) (delete pid t).

(** The process becomes a zombie if its parent is in the machine; otherwise the parent (the
    shell or process 1) waits for it at once. *)
Definition exit_process (pid : Z) (pr : process) (code : Z) (m : machine) : machine :=
  let status := (code mod 256) * 256 in
  let t := bury pid (table m) in
  let parent_lives := match t !! ppid pr with Some q => negb (is_dead q) | None => false end in
  show pid (Exited status)
    (set_table (if parent_lives then <[pid := become pr (Dead status)]> t else t) m).

Section env.
Context (E : env).

(** One system call; [new] is the process number that [fork] gives, [None] if it fails. *)
Definition syscall (pid : Z) (pr : process) (new : option Z) (p : proc) (m : machine)
    : option machine :=
  match p with
  | Exit code => Some (exit_process pid pr code m)
  | Write s k => Some (show pid (Stdout s) (goes_on pid pr k m))
  | Perror msg k => Some (show pid (Stderr msg) (goes_on pid pr k m))
  | Getpid k => Some (goes_on pid pr (k pid) m)
  | Getppid k => Some (goes_on pid pr (k (ppid pr)) m)
  | Getids k => Some (goes_on pid pr (k (creds pr)) m)
  | Fork k =>
      match new with
      | None => Some (goes_on pid pr (k (-1)) m)
      | Some c =>
          if (1 <? c) && negb (bool_decide (c ∈ used m)) then
            let child := Process pid (creds pr) 0 (Ready (k 0)) in
            Some (Machine (now m) (<[c := child]> (<[pid := become pr (Ready (k c))]> (table m)))
                    (c :: used m) (shown m))
          else None
      end
  | Execve path argv envp k =>
      match file E path with
      | Some main => Some (goes_on pid pr (main argv envp) m)
      | None => Some (goes_on pid pr k m)
      end
  | Waitpid c status k =>
      match table m !! c with
      | Some ch =>
          if ppid ch =? pid then
            match state ch with
            | Dead st => Some (goes_on pid pr (k st) (set_table (delete c (table m)) m))
            | _ => None
            end
          else Some (goes_on pid pr (k status) m)
      | None => Some (goes_on pid pr (k status) m)
      end
  | Sleep sec k =>
      Some (set_table (<[pid := become pr (Asleep (now m + 1000 * sec) k)]> (table m)) m)
  | System cmd k =>
      let '(output, status) := command E cmd in
      Some (show pid (Stdout output) (goes_on pid pr (k status) m))
  | Popen cmd k => Some (goes_on pid pr (k (pipe E cmd)) m)
  | Undefined => None
  end.

Inductive move := Run (pid : Z) (new : option Z) | Tick.

Definition run (pid : Z) (pr : process) (new : option Z) (m : machine) : option machine :=
  match state pr with
  | Ready p => syscall pid pr new p m
  | Asleep until p => if until <=? now m then Some (goes_on pid pr p m) else None
  | Dead _ => None
  end.

(** The process could make a move (or is stopped by undefined behaviour). *)
Definition active (m : machine) (pid : Z) (pr : process) : bool :=
  match run pid pr None m with Some _ => true | None => false end.

(** The process after another millisecond. *)
Definition older (m : machine) (pid : Z) (pr : process) : process :=
  if active m pid pr then Process (ppid pr) (creds pr) (spent pr + 1) (state pr) else pr.

Definition tick (m : machine) : option machine :=
  if forallb (λ '(pid, pr), negb (active m pid pr) || (spent pr + 1 <? PROMPT))
       (map_to_list (table m))
  then Some (Machine (now m + 1) (map_imap (λ pid pr, Some (older m pid pr)) (table m))
               (used m) (shown m))
  else None.

Definition exec_move (mv : move) (m : machine) : option machine :=
  match mv with
  | Run pid new => pr ← table m !! pid; run pid pr new m
  | Tick => tick m
  end.

Fixpoint exec_moves (mvs : list move) (m : machine) : option machine :=
  match mvs with [] => Some m | mv :: mvs => m ← exec_move mv m; exec_moves mvs m end.

Inductive mstep (m m' : machine) : Prop := MStep mv : exec_move mv m = Some m' → mstep m m'.

Definition reaches : machine → machine → Prop := rtc mstep.
End env.

(** A machine with one process, started by the process [shell]. *)
Definition boot (pid shell : Z) (who : ids) (p : proc) : machine :=
  Machine 0 {[pid := Process shell who 0 (Ready p)]} [pid; shell] [].
