(* ===== verification/ProcessFacts.v ===== *)
(** * ProcessFacts: how long a process that makes no branch takes

    A straight program (no fork, wait or exec) is described by what it has shown and how
    many seconds it has slept when a given part of it is left ([after]).  In every run
    the clock agrees with this up to the time that the process spends outside of
    [sleep] ([timed]), whatever the other processes do. *)

From stdpp Require Import base gmap list strings relations.
From S2P Require Import Prelude History Process.

Open Scope Z_scope.

(** Rewriting with a record that has been taken apart. *)
Arguments calls_of : simpl never.

(** ** What a move does to the machine *)

Section effect.
Context (E : env) (q : Z) (pr : process) (m : machine).

Inductive effect (m' : machine) : Prop :=
  | effect_goes_on st es :
      (∀ code, st ≠ Dead code) → (∀ code, Exited code ∉ es) →
      table m' = <[q := become pr st]> (table m) → used m' = used m →
      shown m' = shown m ++ map (pair q) es → effect m'
  | effect_forks c p p' :
      c ∉ used m →
      table m' = <[c := Process q (creds pr) 0 (Ready p')]> (<[q := become pr (Ready p)]> (table m)) →
      used m' = c :: used m → shown m' = shown m → effect m'
  | effect_waits c ch st p :
      table m !! c = Some ch → ppid ch = q → state ch = Dead st →
      table m' = <[q := become pr (Ready p)]> (delete c (table m)) → used m' = used m →
      shown m' = shown m → effect m'
  | effect_exits code : m' = exit_process q pr code m → effect m'.

Lemma one_not_exited (e : event) :
  match e with Exited _ => false | _ => true end = true → ∀ code, Exited code ∉ [e].
Proof. intros H code [= <-]%list_elem_of_singleton. done. Qed.

Lemma effect_quiet m' st :
  (∀ code, st ≠ Dead code) → table m' = <[q := become pr st]> (table m) → used m' = used m →
  shown m' = shown m → effect m'.
Proof.
  intros Hst Ht Hu Hs. apply (effect_goes_on m' st []); [done| |done..|by rewrite app_nil_r].
  intros code. apply not_elem_of_nil.
Qed.

Ltac quiet := eapply effect_quiet; [|reflexivity..].

Lemma run_effect new m' : run E q pr new m = Some m' → effect m'.
Proof.
  unfold run. destruct (state pr) as [p|u p|st]; [|case_match; [|done]|done].
  2: { intros [= <-]. by apply (effect_quiet _ (Ready p)). }
  destruct p; simpl; intros H.
  - injection H as <-. by eapply effect_exits.
  - injection H as <-. eapply (effect_goes_on _ (Ready _) [Stdout _]); [|by apply one_not_exited|reflexivity..]; done.
  - injection H as <-. eapply (effect_goes_on _ (Ready _) [Stderr _]); [|by apply one_not_exited|reflexivity..]; done.
  - injection H as <-. by quiet.
  - injection H as <-. by quiet.
  - injection H as <-. by quiet.
  - destruct new as [c|]; [|injection H as <-; by quiet].
    case_match eqn:Hc; [|done]. injection H as <-.
    apply andb_true_iff in Hc as [_ Hc]. apply negb_true_iff, bool_decide_eq_false in Hc.
    by eapply effect_forks.
  - destruct (file E path); injection H as <-; by quiet.
  - destruct (table m !! pid) as [ch|] eqn:Hch; [|injection H as <-; by quiet].
    case_match eqn:Hpp; [|injection H as <-; by quiet].
    apply Z.eqb_eq in Hpp. destruct (state ch) eqn:Hst; [done..|]. injection H as <-.
    by eapply effect_waits.
  - injection H as <-. by quiet.
  - destruct (command E cmd) as [output st]. injection H as <-.
    eapply (effect_goes_on _ (Ready _) [Stdout _]); [|by apply one_not_exited|reflexivity..]; done.
  - injection H as <-. by quiet.
  - done.
Qed.
End effect.

Section straight.
Context (E : env).

(** What process [me] has done when [p] is left: it has slept [s] seconds and shown
    [es].  [R s v]: after [s] seconds [getppid] may answer [v]. *)
Inductive after (R : Z → Z → Prop) (me : Z) (p0 : proc) : Z → list event → proc → Prop :=
  | after_start : after R me p0 0 [] p0
  | after_write s es x k : after R me p0 s es (Write x k) → after R me p0 s (es ++ [Stdout x]) k
  | after_perror s es x k : after R me p0 s es (Perror x k) → after R me p0 s (es ++ [Stderr x]) k
  | after_getpid s es k : after R me p0 s es (Getpid k) → after R me p0 s es (k me)
  | after_getppid s es k v : after R me p0 s es (Getppid k) → R s v → after R me p0 s es (k v)
  | after_system s es cmd k : after R me p0 s es (System cmd k) →
      after R me p0 s (es ++ [Stdout (command E cmd).1]) (k (command E cmd).2)
  | after_sleep s es n k : after R me p0 s es (Sleep n k) → after R me p0 (s + n) es k.

Definition straight (p : proc) : bool :=
  match p with
  | Exit _ | Write _ _ | Perror _ _ | Getpid _ | Getppid _ | System _ _ => true
  | Sleep n _ => 0 <=? n
  | _ => false
  end.

Section process.
Context (R : Z → Z → Prop) (me : Z) (p0 : proc) (birth : Z).

(** The process has ended with [st]. *)
Definition ended (m : machine) (st : Z) : Prop :=
  ∃ s es code, after R me p0 s es (Exit code) ∧ st = (code mod 256) * 256 ∧
    calls_of me (shown m) = es ++ [Exited st] ∧ birth + 1000 * s ≤ now m.

Definition timed (m : machine) (pr : process) : Prop :=
  0 ≤ spent pr < PROMPT ∧
  match state pr with
  | Ready p => ∃ s, after R me p0 s (calls_of me (shown m)) p ∧ now m = birth + spent pr + 1000 * s
  | Asleep u p => ∃ s, after R me p0 s (calls_of me (shown m)) p ∧
                       Z.max (now m) u = birth + spent pr + 1000 * s
  | Dead st => ended m st
  end.

(** Moves of other processes do not matter. *)
Lemma timed_frame m m' pr pr' :
  now m' = now m → calls_of me (shown m') = calls_of me (shown m) →
  state pr' = state pr → spent pr' = spent pr →
  timed m pr → timed m' pr'.
Proof. unfold timed, ended. by intros -> -> -> ->. Qed.

Lemma ended_frame m m' st :
  now m ≤ now m' → calls_of me (shown m') = calls_of me (shown m) → ended m st → ended m' st.
Proof.
  intros Hn Hc (s & es & code & Ha & Hst & Hsh & Ht). exists s, es, code. rewrite Hc.
  split_and!; [done..|lia].
Qed.

Context (Hstraight : ∀ s es p, after R me p0 s es p → straight p = true).

(** The process's own move: it goes on, or ends. *)
Inductive own_move (m : machine) (pr : process) : machine → Prop :=
  | own_goes_on pr' es :
      let m' := Machine (now m) (<[me := pr']> (table m)) (used m) (shown m ++ map (pair me) es) in
      timed m' pr' → ppid pr' = ppid pr → spent pr' = spent pr → is_dead pr' = false →
      own_move m pr m'
  | own_ends code : state pr = Ready (Exit code) → own_move m pr (exit_process me pr code m).

Lemma calls_of_own m es : calls_of me (shown m ++ map (pair me) es) = calls_of me (shown m) ++ es.
Proof.
  rewrite calls_of_app. f_equal. induction es as [|e es IH]; [done|]. simpl.
  unfold calls_of. fold (calls_of me (map (pair me) es)). by rewrite bool_decide_eq_true_2, IH.
Qed.

(** It goes on with [p] after showing [es]. *)
Lemma go_on m pr p es s :
  0 ≤ spent pr < PROMPT → now m = birth + spent pr + 1000 * s →
  after R me p0 s (calls_of me (shown m) ++ es) p →
  own_move m pr (Machine (now m) (<[me := become pr (Ready p)]> (table m)) (used m)
                   (shown m ++ map (pair me) es)).
Proof.
  intros Hs Hn Ha. apply own_goes_on; [|done..]. split; [done|]. exists s. simpl.
  by rewrite calls_of_own.
Qed.

Lemma go_on_quietly m pr p s :
  0 ≤ spent pr < PROMPT → now m = birth + spent pr + 1000 * s →
  after R me p0 s (calls_of me (shown m)) p → own_move m pr (goes_on me pr p m).
Proof.
  intros Hs Hn Ha. unfold goes_on, set_table.
  replace (shown m) with (shown m ++ map (pair me) []) by apply app_nil_r.
  eapply go_on; [done..|]. by rewrite app_nil_r.
Qed.

Lemma run_straight pr new m m' :
  timed m pr → (∀ s, now m = birth + spent pr + 1000 * s → R s (ppid pr)) →
  run E me pr new m = Some m' → own_move m pr m'.
Proof.
  intros [Hsp Ht] HR. unfold run. destruct (state pr) as [p|u p|st] eqn:Est; [| |done].
  - destruct Ht as (s & Ha & Hn). pose proof (Hstraight _ _ _ Ha) as Hp.
    destruct p; simpl in Hp; try done; simpl; intros H.
    + injection H as <-. by apply own_ends.
    + injection H as <-. apply (go_on m pr p [Stdout s0] s); [done..|]. by apply after_write.
    + injection H as <-. apply (go_on m pr p [Stderr msg] s); [done..|]. by apply after_perror.
    + injection H as <-. eapply go_on_quietly; [done..|]. by apply after_getpid.
    + injection H as <-. eapply go_on_quietly; [done..|]. apply after_getppid; [done|]. by apply HR.
    + injection H as <-. zbool. unfold set_table.
      replace (shown m) with (shown m ++ map (pair me) []) by apply app_nil_r.
      apply own_goes_on; [|done..]. split; [done|]. simpl. rewrite app_nil_r.
      eexists. split; [by apply after_sleep|]. lia.
    + destruct (command E cmd) as [output st] eqn:Ec. injection H as <-.
      apply (go_on m pr (k st) [Stdout output] s); [done..|].
      pose proof (after_system R me p0 s _ cmd k Ha) as Has. by rewrite Ec in Has.
  - destruct Ht as (s & Ha & Hn). case_match; [|done]. zbool. intros [= <-].
    eapply go_on_quietly; [done| |done]. lia.
Qed.

(** A straight process is never blocked. *)
Lemma straight_active m pr :
  timed m pr → active E m me pr =
  match state pr with Ready _ => true | Asleep u _ => u <=? now m | Dead _ => false end.
Proof.
  intros [_ Ht]. unfold active, run. destruct (state pr) as [p|u p|st]; [|by destruct (u <=? now m)|done].
  destruct Ht as (s & Ha & _). apply Hstraight in Ha.
  destruct p; simpl in Ha; try done; simpl. by destruct (command E cmd).
Qed.

Lemma tick_timed m m' pr :
  tick E m = Some m' → table m !! me = Some pr → timed m pr → timed m' (older E m me pr).
Proof.
  unfold tick. case_match eqn:Hok; [|done]. intros [= <-] Hpr Ht.
  pose proof (straight_active m pr Ht) as Hact.
  rewrite forallb_forall in Hok. specialize (Hok (me, pr)).
  rewrite <-list_elem_of_In, elem_of_map_to_list in Hok. specialize (Hok Hpr). simpl in Hok.
  unfold older. destruct Ht as [Hsp Ht]. rewrite Hact in *.
  destruct (state pr) as [p|u p|st] eqn:Est; simpl in *.
  - zbool. split; [simpl; lia|]. destruct Ht as (s & Ha & Hn). exists s.
    split; [done|]. simpl. lia.
  - destruct Ht as (s & Ha & Hn). destruct (u <=? now m) eqn:Eu; simpl in Hok; zbool.
    + split; [simpl; lia|]. exists s. split; [done|]. simpl. lia.
    + split; [done|]. rewrite Est. exists s. split; [done|]. simpl. lia.
  - split; [done|]. rewrite Est. apply (ended_frame m); [|done|exact Ht]. simpl. lia.
Qed.
End process.

(** What a program shows in all: every part of it is reached after at most [T] seconds of
    sleep, with a prefix of one of the outputs [Φ] shown. *)
Definition behaves (R : Z → Z → Prop) (me : Z) (p0 : proc) (T : Z) (Φ : list event → Prop) : Prop :=
  ∀ s es p, after R me p0 s es p → straight p = true ∧ s ≤ T ∧
    ∃ full, Φ full ∧ es `prefix_of` full ∧
      ∀ code, p = Exit code → full = es ++ [Exited (code mod 256 * 256)].

Section behaves.
Context (R : Z → Z → Prop) (me : Z) (p0 : proc) (birth T : Z) (Φ : list event → Prop).
Context (HB : behaves R me p0 T Φ).

Lemma alive_bound m pr :
  timed R me p0 birth m pr → is_dead pr = false → now m < birth + PROMPT + 1000 * T.
Proof.
  intros [Hsp Ht] Hd. unfold is_dead in Hd.
  destruct (state pr) as [p|u p|st]; [| |done]; destruct Ht as (s & Ha & Hn);
    destruct (HB _ _ _ Ha) as (_ & HT & _); lia.
Qed.

Lemma ended_shows m st : ended R me p0 birth m st → Φ (calls_of me (shown m)).
Proof.
  intros (s & es & code & Ha & -> & -> & _).
  destruct (HB _ _ _ Ha) as (_ & _ & full & HΦ & _ & Hfull). by rewrite (Hfull code eq_refl) in HΦ.
Qed.

Lemma timed_shows m pr :
  timed R me p0 birth m pr → ∃ full, Φ full ∧ calls_of me (shown m) `prefix_of` full.
Proof.
  intros [_ Ht]. destruct (state pr) as [p|u p|st].
  1,2: destruct Ht as (s & Ha & _); destruct (HB _ _ _ Ha) as (_ & _ & full & HΦ & Hpre & _); eauto.
  apply ended_shows in Ht. eauto.
Qed.
End behaves.
End straight.
