(* ===== verification/ProcessPair.v ===== *)
(** * ProcessPair: a parent that forks once, and its child

    Both run straight programs from the fork on.  In every reachable machine the two are
    where the clock says, or have ended; the child's parent is the first process, or
    process 1 once that has ended; a child that ends first stays as a zombie. *)

From stdpp Require Import base gmap list strings relations.
From S2P Require Import Prelude History Process ProcessFacts.

Open Scope Z_scope.

Lemma calls_of_others (me q : Z) (h : list (Z * event)) es :
  me ≠ q → calls_of me (h ++ map (pair q) es) = calls_of me h.
Proof.
  intros Hne. rewrite calls_of_app. replace (calls_of me (map (pair q) es)) with (@nil event).
  { apply app_nil_r. }
  induction es as [|e es IH]; [done|]. simpl. unfold calls_of. fold (calls_of me (map (pair q) es)).
  by rewrite bool_decide_eq_false_2.
Qed.

Lemma lookup_bury (t : gmap Z process) pid r :
  bury pid t !! r = if decide (r = pid) then None else t !! r ≫= after_exit pid.
Proof.
  unfold bury. rewrite lookup_omap. case_decide as E.
  - subst. by rewrite lookup_delete_eq.
  - by rewrite lookup_delete_ne.
Qed.

Lemma older_ppid E m pid pr : ppid (older E m pid pr) = ppid pr.
Proof. unfold older. by destruct (active E m pid pr). Qed.
Lemma older_state E m pid pr : state (older E m pid pr) = state pr.
Proof. unfold older. by destruct (active E m pid pr). Qed.
Lemma older_spent E m pid pr : spent pr ≤ spent (older E m pid pr).
Proof. unfold older. destruct (active E m pid pr); simpl; lia. Qed.
Lemma older_dead E m pid pr : is_dead (older E m pid pr) = is_dead pr.
Proof. unfold is_dead. by rewrite older_state. Qed.

Lemma tick_shape E m m' : tick E m = Some m' →
  now m' = now m + 1 ∧ used m' = used m ∧ shown m' = shown m ∧
  ∀ r, table m' !! r = older E m r <$> table m !! r.
Proof.
  unfold tick. case_match; [|done]. intros [= <-]. split_and!; [done..|]. intros r. simpl.
  rewrite map_lookup_imap. by destruct (table m !! r).
Qed.

Lemma exec_moves_reaches E mvs m m' : exec_moves E mvs m = Some m' → reaches E m m'.
Proof.
  revert m. induction mvs as [|mv mvs IH]; intros m; simpl; [intros [= ->]; constructor|].
  destruct (exec_move E mv m) as [m1|] eqn:Hm; simpl; [|done].
  intros H. eapply rtc_l; [by exists mv|by apply IH].
Qed.

Section pair.
Context (E : env) (P C sh : Z) (pP pC : proc) (RP RC : Z → Z → Prop) (b0 : Z).
Context (HPC : P ≠ C) (HP1 : P ≠ 1) (HC1 : C ≠ 1) (HsP : sh ≠ P) (HsC : sh ≠ C).
Context (HP : ∀ s es p, after E RP P pP s es p → straight p = true).
Context (HC : ∀ s es p, after E RC C pC s es p → straight p = true).

Definition child_parent (m : machine) : Z :=
  match table m !! P with Some _ => P | None => 1 end.

Definition parent_ok (m : machine) : Prop :=
  match table m !! P with
  | Some pr => timed E RP P pP 0 m pr ∧ ppid pr = sh ∧ is_dead pr = false ∧ b0 ≤ spent pr
  | None => ∃ st, ended E RP P pP b0 m st
  end.

Definition child_ok (m : machine) : Prop :=
  match table m !! C with
  | Some ch => timed E RC C pC b0 m ch ∧ ppid ch = child_parent m ∧
               (is_dead ch = true → is_Some (table m !! P))
  | None => table m !! P = None ∧ ∃ st, ended E RC C pC b0 m st
  end.

Record pair_inv (m : machine) : Prop := {
  pair_used : used m = [C; P; sh];
  pair_others : ∀ r, r ≠ P → r ≠ C → table m !! r = None;
  pair_parent : parent_ok m;
  pair_child : child_ok m
}.

Context (HRP : ∀ s, RP s sh).
Context (HRC : ∀ m ch s, pair_inv m → table m !! C = Some ch → 0 ≤ spent ch < PROMPT →
  now m = b0 + spent ch + 1000 * s → RC s (child_parent m)).

Lemma pair_tick m m' : pair_inv m → tick E m = Some m' → pair_inv m'.
Proof.
  intros [Hu Ho Hp Hc] Ht. destruct (tick_shape E m m' Ht) as (Hn & Hu' & Hsh & Htab). split.
  - by rewrite Hu'.
  - intros r H1 H2. by rewrite Htab, Ho.
  - unfold parent_ok in *. rewrite Htab. destruct (table m !! P) as [pr|] eqn:EP; simpl.
    + destruct Hp as (Htm & Hpp & Hd & Hb). rewrite older_ppid, older_dead.
      pose proof (older_spent E m P pr). split_and!; [|done..|lia].
      by apply (tick_timed E RP P pP 0 HP m m').
    + destruct Hp as [st Hend]. exists st. apply (ended_frame E RP P pP b0 m m'); [lia|by rewrite Hsh|done].
  - unfold child_ok, child_parent in *. rewrite !Htab.
    destruct (table m !! C) as [ch|] eqn:EC; simpl.
    + destruct Hc as (Htm & Hpp & Hd). rewrite older_ppid, older_dead, fmap_is_Some. split_and!; [|by destruct (table m !! P)|done].
      by apply (tick_timed E RC C pC b0 HC m m').
    + destruct Hc as [-> [st Hend]]. split; [done|]. exists st.
      apply (ended_frame E RC C pC b0 m m'); [lia|by rewrite Hsh|done].
Qed.

(** The end of a process, from its last state. *)
Lemma exit_ended R me p0 b b' m m' pr code :
  timed E R me p0 b m pr → b' ≤ b + spent pr → state pr = Ready (Exit code) → now m' = now m →
  shown m' = shown m ++ [(me, Exited (code mod 256 * 256))] →
  ended E R me p0 b' m' (code mod 256 * 256).
Proof.
  intros [Hsp Ht] Hb Est Hn Hsh. rewrite Est in Ht. destruct Ht as (s & Ha & Hnow).
  exists s, (calls_of me (shown m)), code. rewrite Hsh, Hn.
  split_and!; [done|done| |lia].
  rewrite calls_of_app. f_equal. apply calls_of_one.
Qed.

Lemma parent_frame m m1 :
  now m1 = now m → calls_of P (shown m1) = calls_of P (shown m) → table m1 !! P = table m !! P →
  parent_ok m → parent_ok m1.
Proof.
  unfold parent_ok. intros Hn Hs -> Hp. destruct (table m !! P) as [pr|].
  - destruct Hp as (Hp1 & Hp2 & Hp3 & Hp4). split_and!; [|done..].
    by apply (timed_frame E RP P pP 0 m m1 pr pr).
  - destruct Hp as [st Hend]. exists st. apply (ended_frame E RP P pP b0 m m1); [lia|done..].
Qed.

Lemma child_frame m m1 :
  now m1 = now m → calls_of C (shown m1) = calls_of C (shown m) → table m1 !! C = table m !! C →
  is_Some (table m1 !! P) → is_Some (table m !! P) → child_ok m → child_ok m1.
Proof.
  unfold child_ok, child_parent. intros Hn Hs -> [pr1 ->] [pr ->] Hc.
  destruct (table m !! C) as [ch|].
  - destruct Hc as (Hc1 & Hc2 & _). split_and!; [|done|done].
    by apply (timed_frame E RC C pC b0 m m1 ch ch).
  - by destruct Hc.
Qed.

Lemma pair_run_parent m m' pr new :
  pair_inv m → table m !! P = Some pr → run E P pr new m = Some m' → pair_inv m'.
Proof.
  intros [Hu Ho Hp Hc] EP Hrun. unfold parent_ok in Hp. rewrite EP in Hp.
  destruct Hp as (Htm & Hpp & Hd & Hb).
  destruct (run_straight E RP P pP 0 HP pr new m m' Htm) as [pr' es m1 Htm' Hpp' Hsp' Hd'|code Est]; [|done|..].
  { intros s _. by rewrite Hpp. }
  - split; [done|..].
    + intros r H1 H2. simpl. rewrite lookup_insert_ne by done. by apply Ho.
    + unfold parent_ok. simpl. rewrite lookup_insert_eq. rewrite Hpp', Hsp'. done.
    + apply (child_frame m); simpl; try done.
      * by apply calls_of_others.
      * by rewrite lookup_insert_ne.
      * by rewrite lookup_insert_eq.
  - assert (bury P (table m) !! sh = None) as Hsh.
    { rewrite lookup_bury, decide_False, Ho by done. done. }
    unfold exit_process. rewrite Hpp, Hsh. simpl.
    set (m1 := show P (Exited (code mod 256 * 256)) (set_table (bury P (table m)) m)).
    assert (table m1 = bury P (table m)) as Ht1 by done.
    assert (calls_of C (shown m1) = calls_of C (shown m)) as Hcalls.
    { apply (calls_of_others C P _ [_]). done. }
    split; [done|..].
    + intros r H1 H2. rewrite Ht1, lookup_bury, decide_False, Ho by done. done.
    + unfold parent_ok. rewrite Ht1, lookup_bury, decide_True by done.
      eexists. apply (exit_ended RP P pP 0 b0 m m1 pr code); [done|lia|done..].
    + unfold child_ok, child_parent in *.
      rewrite Ht1, !lookup_bury, decide_False, decide_True by done. rewrite EP in Hc.
      destruct (table m !! C) as [ch|]; simpl.
      * destruct Hc as (Hc1 & Hc2 & _). unfold after_exit. rewrite Hc2, Z.eqb_refl.
        destruct (is_dead ch) eqn:Edead.
        -- destruct Hc1 as [_ Hc1]. unfold is_dead in Edead. destruct (state ch) as [| |st]; try done.
           split; [done|]. exists st. by apply (ended_frame E RC C pC b0 m m1).
        -- split_and!; [by apply (timed_frame E RC C pC b0 m m1 ch (adopt 1 ch))|done|].
           unfold is_dead in *. simpl. by rewrite Edead.
      * by destruct Hc.
Qed.

Lemma pair_run_child m m' ch new :
  pair_inv m → table m !! C = Some ch → run E C ch new m = Some m' → pair_inv m'.
Proof.
  intros I EC Hrun. pose proof I as [Hu Ho Hp Hc]. unfold child_ok in Hc. rewrite EC in Hc.
  destruct Hc as (Htm & Hpp & Hd).
  destruct (run_straight E RC C pC b0 HC ch new m m' Htm) as [ch' es m1 Htm' Hpp' Hsp' Hd'|code Est]; [|done|..].
  { intros s Hs. rewrite Hpp. apply (HRC m ch s I EC); [|done]. by destruct Htm. }
  - split; [done|..].
    + intros r H1 H2. simpl. rewrite lookup_insert_ne by done. by apply Ho.
    + apply (parent_frame m); simpl; try done.
      * by apply calls_of_others.
      * by rewrite lookup_insert_ne.
    + unfold child_ok, child_parent in *. simpl. rewrite lookup_insert_eq, lookup_insert_ne by done.
      rewrite Hpp', Hd'. done.
  - assert (∀ t, calls_of P (shown (show C (Exited (code mod 256 * 256)) (set_table t m)))
                 = calls_of P (shown m)) as Hcalls.
    { intros t. apply (calls_of_others P C _ [_]). done. }
    assert (bury C (table m) !! P = table m !! P) as HbP.
    { rewrite lookup_bury, decide_False by done. unfold parent_ok in Hp.
      destruct (table m !! P) as [pr|]; [|done]. destruct Hp as (_ & Hp2 & _). simpl.
      unfold after_exit. by rewrite Hp2, (proj2 (Z.eqb_neq _ _)). }
    assert (match bury C (table m) !! ppid ch with Some q => negb (is_dead q) | None => false end
            = bool_decide (is_Some (table m !! P))) as Hlives.
    { rewrite Hpp. unfold child_parent. unfold parent_ok in Hp. destruct (table m !! P) as [pr|] eqn:EP.
      - rewrite HbP. destruct Hp as (_ & _ & -> & _). symmetry. by apply bool_decide_eq_true_2.
      - rewrite lookup_bury, decide_False, Ho by done. symmetry. apply bool_decide_eq_false_2. by intros []. }
    unfold exit_process. rewrite Hlives.
    set (t := if bool_decide _ then _ else _).
    set (m1 := show C _ (set_table t m)).
    assert (∀ r, r ≠ C → t !! r = bury C (table m) !! r) as Ht.
    { intros r Hr. subst t. case_bool_decide; [|done]. by rewrite lookup_insert_ne. }
    split; [done|..].
    + intros r H1 H2. change (table m1) with t. rewrite Ht, lookup_bury, decide_False, Ho by done. done.
    + apply (parent_frame m); [done|apply Hcalls| |done]. change (table m1) with t. by rewrite Ht.
    + pose proof (exit_ended RC C pC b0 b0 m m1 ch code Htm) as Hend.
      specialize (Hend ltac:(destruct Htm; lia) Est eq_refl eq_refl).
      unfold child_ok, child_parent in *. change (table m1) with t. rewrite (Ht P), HbP by done. subst t.
      case_bool_decide as HP'.
      * rewrite lookup_insert_eq. destruct Htm as [Hsp _]. split_and!; [by split| |done].
        simpl. by rewrite Hpp.
      * rewrite lookup_bury, decide_True by done. split; [by apply eq_None_not_Some|]. eauto.
Qed.

Lemma pair_step mv m m' : pair_inv m → exec_move E mv m = Some m' → pair_inv m'.
Proof.
  intros I. destruct mv as [q new|]; simpl; [|by apply pair_tick].
  destruct (table m !! q) as [pr|] eqn:Eq; simpl; [|done].
  destruct (decide (q = P)) as [->|HqP]; [by apply pair_run_parent|].
  destruct (decide (q = C)) as [->|HqC]; [by apply pair_run_child|].
  pose proof (pair_others m I q HqP HqC). congruence.
Qed.

Lemma pair_reaches m m' : pair_inv m → reaches E m m' → pair_inv m'.
Proof. intros I H. induction H as [|m m1 m2 [mv Hmv] _ IH]; [done|]. by eapply IH, pair_step. Qed.

(** The parent is gone after its last second. *)
Lemma parent_gone m TP ΦP :
  pair_inv m → behaves E RP P pP TP ΦP → PROMPT + 1000 * TP ≤ now m → table m !! P = None.
Proof.
  intros [_ _ Hp _] BP Hn. unfold parent_ok in Hp. destruct (table m !! P) as [pr|]; [|done].
  destruct Hp as (Htm & _ & Hd & _). pose proof (alive_bound E RP P pP 0 TP ΦP BP m pr Htm Hd). lia.
Qed.

(** Before its last second of sleep it is there, and so is the child. *)
Lemma parent_there m T0 :
  pair_inv m → (∀ s es code, after E RP P pP s es (Exit code) → T0 ≤ s) →
  now m < b0 + 1000 * T0 → is_Some (table m !! P).
Proof.
  clear HPC HP1 HC1 HsP HsC HP HC.
  intros [_ _ Hp _] HT Hn. unfold parent_ok in Hp. destruct (table m !! P) as [pr|]; [done|].
  destruct Hp as (st & s & es & code & Ha & _ & _ & Hle). apply HT in Ha. lia.
Qed.

Lemma child_there m T0 :
  pair_inv m → (∀ s es code, after E RC C pC s es (Exit code) → T0 ≤ s) →
  now m < b0 + 1000 * T0 → ∃ ch, table m !! C = Some ch ∧ is_dead ch = false.
Proof.
  clear HPC HP1 HC1 HsP HsC HP HC.
  intros [_ _ _ Hc] HT Hn. unfold child_ok in Hc. destruct (table m !! C) as [ch|].
  - destruct Hc as ([_ Htm] & _). exists ch. split; [done|]. unfold is_dead.
    destruct (state ch); [done..|]. destruct Htm as (s & es & code & Ha & _ & _ & Hle).
    apply HT in Ha. lia.
  - destruct Hc as (_ & st & s & es & code & Ha & _ & _ & Hle). apply HT in Ha. lia.
Qed.

(** While the parent is there after the child's last second, the child is a zombie. *)
Lemma child_zombie m TC ΦC :
  pair_inv m → behaves E RC C pC TC ΦC → b0 + PROMPT + 1000 * TC ≤ now m →
  is_Some (table m !! P) →
  ∃ ch st, table m !! C = Some ch ∧ ppid ch = P ∧ state ch = Dead st.
Proof.
  intros [_ _ _ Hc] BC Hn [pr EP]. unfold child_ok, child_parent in Hc. rewrite EP in Hc.
  destruct (table m !! C) as [ch|]; [|by destruct Hc]. destruct Hc as (Htm & Hpp & _).
  destruct (is_dead ch) eqn:Ed.
  - unfold is_dead in Ed. destruct (state ch) as [| |st] eqn:Est; try done. by exists ch, st.
  - pose proof (alive_bound E RC C pC b0 TC ΦC BC m ch Htm Ed). lia.
Qed.

(** What the two show, and when they are over. *)
Lemma pair_shows m TP TC ΦP ΦC :
  pair_inv m → behaves E RP P pP TP ΦP → behaves E RC C pC TC ΦC →
  (∃ full, ΦP full ∧ calls_of P (shown m) `prefix_of` full) ∧
  (∃ full, ΦC full ∧ calls_of C (shown m) `prefix_of` full) ∧
  (PROMPT + 1000 * TP ≤ now m → b0 + PROMPT + 1000 * TC ≤ now m →
   table m = ∅ ∧ ΦP (calls_of P (shown m)) ∧ ΦC (calls_of C (shown m))).
Proof.
  intros [Hu Ho Hp Hc] BP BC. unfold parent_ok, child_ok in *. split_and!.
  - destruct (table m !! P) as [pr|]; [|destruct Hp as [st Hend]].
    + destruct Hp as [Hp _]. by apply (timed_shows E RP P pP 0 TP ΦP BP m pr).
    + eexists. split; [by apply (ended_shows E RP P pP b0 TP ΦP BP m st)|done].
  - destruct (table m !! C) as [ch|]; [|destruct Hc as [_ [st Hend]]].
    + destruct Hc as [Hc _]. by apply (timed_shows E RC C pC b0 TC ΦC BC m ch).
    + eexists. split; [by apply (ended_shows E RC C pC b0 TC ΦC BC m st)|done].
  - intros H1 H2. destruct (table m !! P) as [pr|] eqn:EP.
    { destruct Hp as (Htm & _ & Hd & _). pose proof (alive_bound E RP P pP 0 TP ΦP BP m pr Htm Hd). lia. }
    destruct (table m !! C) as [ch|] eqn:EC.
    { destruct Hc as (Htm & _ & Hd). destruct (is_dead ch) eqn:Ed; [by destruct Hd|].
      pose proof (alive_bound E RC C pC b0 TC ΦC BC m ch Htm Ed). lia. }
    destruct Hp as [st Hend], Hc as [_ [st' Hend']]. split_and!.
    + apply map_eq. intros r. rewrite lookup_empty.
      destruct (decide (r = P)) as [->|]; [done|]. destruct (decide (r = C)) as [->|]; [done|]. by apply Ho.
    + by apply (ended_shows E RP P pP b0 TP ΦP BP m st).
    + by apply (ended_shows E RC C pC b0 TC ΦC BC m st').
Qed.

End pair.

(** ** The fork *)

(** The machine after a first process, which called [fork] at [z], has become [pP], and its
    child [pC]. *)
Definition forked (P C sh : Z) (who : ids) (pP pC : proc) (z : Z) : machine :=
  Machine z (<[C := Process P who 0 (Ready pC)]> {[P := Process sh who z (Ready pP)]}) [C; P; sh] [].

Lemma forked_inv E P C sh who pP pC RP RC z :
  P ≠ C → 0 ≤ z < PROMPT → pair_inv E P C sh pP pC RP RC z (forked P C sh who pP pC z).
Proof.
  intros Hne Hz. split; [done|..]; simpl.
  - intros r H1 H2. by rewrite lookup_insert_ne, lookup_singleton_ne.
  - unfold parent_ok. simpl. rewrite lookup_insert_ne, lookup_singleton_eq by done.
    split_and!; [|done..]. split; [done|]. exists 0. simpl. split; [constructor|lia].
  - unfold child_ok, child_parent. simpl.
    rewrite lookup_insert_eq, lookup_insert_ne, lookup_singleton_eq by done.
    split_and!; [|done|done]. split; [simpl; unfold PROMPT; lia|]. exists 0. simpl. split; [constructor|lia].
Qed.

Definition booted (P sh : Z) (who : ids) (p : proc) (z : Z) : machine :=
  Machine z {[P := Process sh who z (Ready p)]} [P; sh] [].

Lemma booted_tick E P sh who k z m :
  tick E (booted P sh who (Fork k) z) = Some m →
  m = booted P sh who (Fork k) (z + 1) ∧ z + 1 < PROMPT.
Proof.
  unfold tick. case_match eqn:Hok; [|done]. intros [= <-]. simpl in *.
  rewrite map_to_list_singleton in Hok. simpl in Hok. zbool. split; [|done].
  unfold booted. f_equal. apply map_eq. intros r. rewrite map_lookup_imap.
  destruct (decide (r = P)) as [->|]; [by rewrite !lookup_singleton_eq|].
  by rewrite !lookup_singleton_ne.
Qed.

(** The first process takes [n] milliseconds to fork. *)
Lemma fork_after E P C sh who k n z m :
  0 ≤ z < PROMPT →
  exec_moves E (replicate n Tick ++ [Run P (Some C)]) (booted P sh who (Fork k) z) = Some m →
  1 < C ∧ C ≠ P ∧ C ≠ sh ∧ ∃ z', 0 ≤ z' < PROMPT ∧ m = forked P C sh who (k C) (k 0) z'.
Proof.
  revert z. induction n as [|n IH]; intros z Hz; simpl.
  - rewrite lookup_singleton_eq. simpl.
    unfold run, syscall. simpl. destruct (1 <? C) eqn:E1; simpl; [|done].
    destruct (bool_decide (C ∈ [P; sh])) eqn:Hin; simpl; [done|]. intros [= <-]. zbool. split_and!; [done|set_solver|set_solver|]. exists z. split; [done|].
    unfold forked, become. simpl. by rewrite insert_singleton_eq.
  - destruct (tick E _) as [m'|] eqn:Et; simpl; [|done].
    apply booted_tick in Et as [-> Hz']. apply IH. lia.
Qed.

(** The first process forks after [n] milliseconds, and the machine goes on to [m]. *)
Definition forks_then (E : env) (P C sh : Z) (who : ids) (main : proc) (m : machine) : Prop :=
  ∃ n m1, exec_moves E (replicate n Tick ++ [Run P (Some C)]) (boot P sh who main) = Some m1 ∧
          reaches E m1 m.

Lemma forks_then_forked E P C sh who k m :
  forks_then E P C sh who (Fork k) m →
  1 < C ∧ C ≠ P ∧ C ≠ sh ∧ ∃ z, 0 ≤ z < PROMPT ∧ reaches E (forked P C sh who (k C) (k 0) z) m.
Proof.
  intros (n & m1 & Hx & Hr). apply (fork_after E P C sh who k n 0) in Hx; [|by unfold PROMPT].
  destruct Hx as (H1 & H2 & H3 & z & Hz & ->). eauto 10.
Qed.

(** ** Runs given as lists of moves *)

Definition who_ex : ids := Ids 1000 1000 1000 1000.
Definition runs_of (pid : Z) (n : nat) : list move := replicate n (Run pid None).

Section moves.
Context (E : env) (P C sh : Z) (who : ids) (main : proc).

(** The fork that gives process [C], then [mvs]. *)
Definition then_moves_option (mvs : list move) : option machine :=
  exec_moves E ([Run P (Some C)] ++ mvs) (boot P sh who main).
Definition then_moves (mvs : list move) : machine :=
  default (boot P sh who main) (then_moves_option mvs).

Lemma then_moves_forks mvs :
  match then_moves_option mvs with Some _ => true | None => false end = true →
  forks_then E P C sh who main (then_moves mvs).
Proof.
  unfold then_moves. destruct (then_moves_option mvs) as [m|] eqn:Hm; [|done]. intros _.
  unfold then_moves_option in Hm. cbn [exec_moves app] in Hm.
  destruct (exec_move E (Run P (Some C)) (boot P sh who main)) as [m1|] eqn:H1; [|done].
  exists O, m1. split; [|by eapply exec_moves_reaches]. cbn [replicate app exec_moves]. by rewrite H1.
Qed.
End moves.
