(* ===== verification/Programs.v ===== *)
(** * Programs: the programs of assembly/170d that use processes

    forkcmd.c (and forkpid.c, the same text), OrphanZombie.c, OrphanZombie2.c, execve.c,
    myprog.c, getpid.c, getuid.c and system.c, as programs of the file Process.  Each [main]
    takes its argument and environment vectors. *)

From stdpp Require Import base gmap list strings.
From S2P Require Import Prelude Bomb Process.

Open Scope Z_scope.

Definition line (s : list Z) : list Z := s ++ codes newline.

(** [printf("... %d ...")] with numbers that may be negative. *)
Definition fmt_int (z : Z) : list Z := if z <? 0 then 45 :: fmt_d (- z) else fmt_d z.

(** ** atoi *)

Definition is_space (c : Z) : bool := (c =? 32) || ((9 <=? c) && (c <=? 13)).

Fixpoint skip_space (s : list Z) : list Z :=
  match s with c :: s' => if is_space c then skip_space s' else s | [] => [] end.

Fixpoint digits_value (acc : Z) (s : list Z) : Z :=
  match s with
  | c :: s => if (48 <=? c) && (c <=? 57) then digits_value (10 * acc + (c - 48)) s else acc
  | [] => acc
  end.

(** The behaviour is undefined when the number is not an [int]. *)
Definition atoi (s : list Z) : Z :=
  match skip_space s with
  | 45 :: s => - digits_value 0 s
  | 43 :: s => digits_value 0 s
  | s => digits_value 0 s
  end.
Definition with_atoi (s : list Z) (k : Z → proc) : proc := checked (atoi s) k.

(** ** Running a command: forkcmd.c and forkpid.c *)

Module Forkcmd.

Definition parent_line (pid : Z) : list Z :=
  line (codes "I am the parent process wtih PID of " ++ fmt_int pid ++
        codes ", waiting for child command to complete.").
Definition child_line (pid ppid : Z) : list Z :=
  line (codes "I am the child process and my PID is " ++ fmt_int pid ++
        codes ", and my PPID is " ++ fmt_int ppid).
Definition normally : list Z := line (codes "The child process terminated normally.").
Definition with_error : list Z := line (codes "The child process terminated with an error!.").
Definition report (status : Z) : list Z := if 0 =? status then normally else with_error.

Definition parent (child_pid : Z) : proc :=
  Getpid (λ pid,
  Write (parent_line pid) (
  Waitpid child_pid 0 (λ status,
  Write (report status) (Exit 0)))).

Definition child (argv envp : list (list Z)) (argv1 : list Z) : proc :=
  Getpid (λ pid, Getppid (λ ppid,
  Write (child_line pid ppid) (
  Write (line (codes "Executing command: " ++ argv1)) (
  Execve argv1 argv envp (
  Perror (codes "Could not execve") (Exit 0)))))).

Definition main (argv envp : list (list Z)) : proc :=
  match argv with
  | [_; argv1] =>
      Fork (λ child_pid, if 0 <? child_pid then parent child_pid else child argv envp argv1)
  | _ => Write (line (codes "Usage " ++ nth 0 argv [] ++ codes " <command>")) (Exit 1)
  end.

End Forkcmd.

(** forkpid.c has the same text. *)
Definition forkpid_main (argv envp : list (list Z)) : proc := Forkcmd.main argv envp.

(** ** Orphans and zombies *)

(** OrphanZombie.c *)
Module Orphan1.

Definition parent_line (pid : Z) : list Z :=
  line (codes "I am the parent process and my PID is " ++ fmt_int pid).
Definition child_line (pid ppid : Z) : list Z :=
  line (codes "I am the child process and my PID is " ++ fmt_int pid ++
        codes ", and my PPID is " ++ fmt_int ppid).
Definition orphan_line (pid ppid : Z) : list Z :=
  line (codes "I am the orphan child process and my PID is " ++ fmt_int pid ++
        codes ", and my PPID is " ++ fmt_int ppid).
Definition ps (child_pid : Z) : list Z :=
  take 99 (codes "ps -p " ++ fmt_int child_pid ++ codes " -o command,state,pid,ppid").

Definition parent (parenttime childtime child_pid : Z) : proc :=
  Getpid (λ pid,
  Write (parent_line pid) (
  if parenttime <? childtime then
    sleep_int parenttime (
    Write (line (codes "Terminating parent process now, child process becoming an orphan..."))
      (Exit 0))
  else
    checked (childtime + 1) (λ t, sleep_int t (System (ps child_pid) (λ _, Exit 0))))).

Definition child (parenttime childtime : Z) : proc :=
  Getpid (λ pid, Getppid (λ ppid,
  Write (child_line pid ppid) (
  if childtime <? parenttime then
    sleep_int childtime (
    Write (line (codes "Terminating child process now, becoming an zombie...")) (Exit 0))
  else
    checked (parenttime + 1) (λ t, sleep_int t (
    Getpid (λ pid, Getppid (λ ppid, Write (orphan_line pid ppid) (Exit 0)))))))).

Definition main (argv : list (list Z)) : proc :=
  match argv with
  | [_; argv1; argv2] =>
      with_atoi argv1 (λ parenttime, with_atoi argv2 (λ childtime,
      Fork (λ child_pid,
        if 0 <? child_pid then parent parenttime childtime child_pid
        else child parenttime childtime)))
  | _ => Write (line (codes "Usage " ++ nth 0 argv [] ++ codes " parenttime childtime")) (Exit 1)
  end.

End Orphan1.

(** OrphanZombie2.c *)
Module Orphan2.

Definition parent_line (pid : Z) : list Z := line (codes "I am the parent my PID " ++ fmt_int pid).
Definition child_line (pid : Z) : list Z := line (codes "I am the child my PID is " ++ fmt_int pid).
Definition parent_last : list Z :=
  line (codes "Terminating parent now, child becoming an orphan...").
Definition child_last : list Z := line (codes "Terminating child now, becoming an zombie...").

Definition parent (parenttime childtime : Z) : proc :=
  Getpid (λ pid,
  Write (parent_line pid) (
  sleep_int parenttime (
  if parenttime <? childtime then Write parent_last (Exit 0) else Exit 0))).

Definition child (parenttime childtime : Z) : proc :=
  Getpid (λ pid,
  Write (child_line pid) (
  sleep_int childtime (
  if childtime <? parenttime then Write child_last (Exit 0) else Exit 0))).

Definition main (argv : list (list Z)) : proc :=
  match argv with
  | [_; argv1; argv2] =>
      with_atoi argv1 (λ parenttime, with_atoi argv2 (λ childtime,
      Fork (λ child_pid,
        if 0 <? child_pid then parent parenttime childtime else child parenttime childtime)))
  | _ => Write (line (codes "Usage " ++ nth 0 argv [] ++ codes " parenttime childtime")) (Exit 1)
  end.

End Orphan2.

(** ** Single programs *)

(** myprog.c: the loops over the argument and environment vectors, from index [count] on *)
Fixpoint print_args (what : list Z) (count : Z) (vec : list (list Z)) (k : proc) : proc :=
  match vec with
  | [] => k
  | s :: vec => Write (line (what ++ codes " " ++ fmt_int count ++ codes " is " ++ s))
                  (print_args what (count + 1) vec k)
  end.

Definition myprog_main (argv envp : list (list Z)) : proc :=
  print_args (codes "arg") 0 argv (print_args (codes "env") 0 envp (Exit 0)).

(** execve.c *)
Definition execve_argv : list (list Z) := [codes "First arg"; codes "Second arg"].
Definition execve_envp : list (list Z) := [codes "MYVAR=1"; codes "MYVAR2=2"].

Definition execve_main : proc :=
  Write (line (codes "Main program started")) (
  Execve (codes "./myprog") execve_argv execve_envp (
  Perror (codes "Could not execve") (
  Sleep 20 (Exit 1)))).

(** getpid.c *)
Definition getpid_main : proc :=
  Getpid (λ mypid,
  Write (line (codes "I am in the getpid command and my PID is " ++ fmt_int mypid ++ codes "."))
    (Exit 0)).

(** getuid.c *)
Definition getuid_main : proc :=
  Getids (λ i,
  Write (line (codes "REAL UID: " ++ fmt_int (uid i))) (
  Write (line (codes "EFFECTIVE UID: " ++ fmt_int (euid i))) (
  Write (line (codes "REAL GID: " ++ fmt_int (gid i))) (
  Write (line (codes "EFFECTIVE GID: " ++ fmt_int (egid i))) (Exit 0))))).

(** ** system.c *)

Definition PATH_SZ : nat := 1035.

(** The loop: each line that [fgets] reads from the command is printed. *)
Fixpoint copy_loop (fuel : nat) (fp : list Z) (k : proc) : proc :=
  match fuel with
  | O => Undefined
  | S fuel =>
    match fp with
    | [] => k
    | _ => let '(path, rest) := read_line (PATH_SZ - 1) fp in
           Write (c_string (path ++ [0])) (copy_loop fuel rest k)
    end
  end.

Definition failed : list Z := line (codes "Failed to run command" ++ codes newline).

Definition system_main : proc :=
  System (codes "ls /etc") (λ status,
  if negb (status =? 0) then Write failed (Exit 1) else
  Popen (codes "ls /etc/") (λ fp,
  match fp with
  | None => Write failed (Exit 1)
  | Some text => copy_loop (S (length text)) text (Exit 0)
  end)).
