(* ===== verification/OrphanProps.v ===== *)
(** * OrphanProps: OrphanZombie.c and OrphanZombie2.c make orphans and zombies *)

From stdpp Require Import base gmap list strings relations.
From S2P Require Import Prelude History Process ProcessFacts ProcessPair Programs.

Open Scope Z_scope.

(** The parts of a straight program, listed. *)
Ltac parts :=
  let H := fresh in
  intros H; induction H; simpl;
  repeat match goal with IH : ?P ∨ ?Q |- _ => destruct IH end;
  destruct_and?; simplify_eq; simpl; naive_solver.

Ltac parts_value :=
  let H := fresh in
  intros H; induction H; simpl; [repeat exists 0; left; naive_solver|..];
  repeat match goal with
  | IH : ∃ _, _ |- _ => destruct IH
  | IH : ?P ∨ ?Q |- _ => destruct IH
  | IH : ?P ∧ ?Q |- _ => destruct IH
  end;
  simplify_eq; simpl;
  first [repeat exists 0; naive_solver | eexists _, 0; naive_solver | naive_solver].

Lemma u32_small z : 0 ≤ z ≤ INT_MAX → u32 z = z.
Proof. unfold INT_MAX, u32. intros H. apply Z.mod_small. lia. Qed.

Lemma sleep_int_ok z k : 0 ≤ z ≤ INT_MAX → sleep_int z k = Sleep z k.
Proof.
  intros H. unfold sleep_int, checked. rewrite int_range_true by (unfold INT_MIN; lia).
  by rewrite u32_small.
Qed.

(** ** The straight programs that the two processes are, for given times *)

(** Say something, sleep, say something else. *)
Definition say_twice (hello last : Z → list Z) (t : Z) : proc :=
  Getpid (λ pid, Write (hello pid) (Sleep t (Write (last pid) (Exit 0)))).
(** Say something, sleep. *)
Definition say_once (hello : Z → list Z) (t : Z) : proc :=
  Getpid (λ pid, Write (hello pid) (Sleep t (Exit 0))).
(** Say something, sleep, run a command. *)
Definition say_and_run (hello : Z → list Z) (t : Z) (cmd : list Z) : proc :=
  Getpid (λ pid, Write (hello pid) (Sleep t (System cmd (λ _, Exit 0)))).
(** Name the parent, sleep, say something else. *)
Definition name_and_say (hello : Z → Z → list Z) (t : Z) (last : list Z) : proc :=
  Getpid (λ pid, Getppid (λ ppid, Write (hello pid ppid) (Sleep t (Write last (Exit 0))))).
(** Name the parent, sleep, name the parent again. *)
Definition name_twice (hello again : Z → Z → list Z) (t : Z) : proc :=
  Getpid (λ pid, Getppid (λ ppid, Write (hello pid ppid) (Sleep t (
  Getpid (λ pid, Getppid (λ ppid, Write (again pid ppid) (Exit 0))))))).

Section parts.
Context (E : env) (R : Z → Z → Prop) (me : Z).

Lemma say_twice_parts hello last t s es p :
  after E R me (say_twice hello last t) s es p →
  (s = 0 ∧ es = [] ∧ p = say_twice hello last t) ∨
  (s = 0 ∧ es = [] ∧ p = Write (hello me) (Sleep t (Write (last me) (Exit 0)))) ∨
  (s = 0 ∧ es = [Stdout (hello me)] ∧ p = Sleep t (Write (last me) (Exit 0))) ∨
  (s = t ∧ es = [Stdout (hello me)] ∧ p = Write (last me) (Exit 0)) ∨
  (s = t ∧ es = [Stdout (hello me); Stdout (last me)] ∧ p = Exit 0).
Proof. unfold say_twice. parts. Qed.

Lemma say_once_parts hello t s es p :
  after E R me (say_once hello t) s es p →
  (s = 0 ∧ es = [] ∧ p = say_once hello t) ∨
  (s = 0 ∧ es = [] ∧ p = Write (hello me) (Sleep t (Exit 0))) ∨
  (s = 0 ∧ es = [Stdout (hello me)] ∧ p = Sleep t (Exit 0)) ∨
  (s = t ∧ es = [Stdout (hello me)] ∧ p = Exit 0).
Proof. unfold say_once. parts. Qed.

Lemma say_and_run_parts hello t cmd s es p :
  after E R me (say_and_run hello t cmd) s es p →
  (s = 0 ∧ es = [] ∧ p = say_and_run hello t cmd) ∨
  (s = 0 ∧ es = [] ∧ p = Write (hello me) (Sleep t (System cmd (λ _, Exit 0)))) ∨
  (s = 0 ∧ es = [Stdout (hello me)] ∧ p = Sleep t (System cmd (λ _, Exit 0))) ∨
  (s = t ∧ es = [Stdout (hello me)] ∧ p = System cmd (λ _, Exit 0)) ∨
  (s = t ∧ es = [Stdout (hello me); Stdout (command E cmd).1] ∧ p = Exit 0).
Proof. unfold say_and_run. parts. Qed.

Lemma name_and_say_parts hello t last s es p :
  after E R me (name_and_say hello t last) s es p →
  ∃ v,
  (s = 0 ∧ es = [] ∧ (p = name_and_say hello t last ∨
     p = Getppid (λ ppid, Write (hello me ppid) (Sleep t (Write last (Exit 0)))))) ∨
  (s = 0 ∧ R 0 v ∧ es = [] ∧ p = Write (hello me v) (Sleep t (Write last (Exit 0)))) ∨
  (s = 0 ∧ R 0 v ∧ es = [Stdout (hello me v)] ∧ p = Sleep t (Write last (Exit 0))) ∨
  (s = t ∧ R 0 v ∧ es = [Stdout (hello me v)] ∧ p = Write last (Exit 0)) ∨
  (s = t ∧ R 0 v ∧ es = [Stdout (hello me v); Stdout last] ∧ p = Exit 0).
Proof. unfold name_and_say. parts_value. Qed.

Lemma name_twice_parts hello again t s es p :
  after E R me (name_twice hello again t) s es p →
  let rest := Getpid (λ pid, Getppid (λ ppid, Write (again pid ppid) (Exit 0))) in
  ∃ v v',
  (s = 0 ∧ es = [] ∧ (p = name_twice hello again t ∨
     p = Getppid (λ ppid, Write (hello me ppid) (Sleep t rest)))) ∨
  (s = 0 ∧ R 0 v ∧ es = [] ∧ p = Write (hello me v) (Sleep t rest)) ∨
  (s = 0 ∧ R 0 v ∧ es = [Stdout (hello me v)] ∧ p = Sleep t rest) ∨
  (s = t ∧ R 0 v ∧ es = [Stdout (hello me v)] ∧
     (p = rest ∨ p = Getppid (λ ppid, Write (again me ppid) (Exit 0)))) ∨
  (s = t ∧ R 0 v ∧ R t v' ∧ es = [Stdout (hello me v)] ∧ p = Write (again me v') (Exit 0)) ∨
  (s = t ∧ R 0 v ∧ R t v' ∧ es = [Stdout (hello me v); Stdout (again me v')] ∧ p = Exit 0).
Proof. unfold name_twice. parts_value. Qed.

(** When they end. *)
Ltac ends L :=
  let Ha := fresh in
  intros Ha; apply L in Ha; simpl in Ha;
  repeat match goal with
  | H : ∃ _, _ |- _ => destruct H
  | H : _ ∨ _ |- _ => destruct H
  | H : _ ∧ _ |- _ => destruct H
  end; subst; first [discriminate | reflexivity].

Lemma say_twice_ends hello last t s es code :
  after E R me (say_twice hello last t) s es (Exit code) → s = t.
Proof. ends say_twice_parts. Qed.
Lemma say_once_ends hello t s es code :
  after E R me (say_once hello t) s es (Exit code) → s = t.
Proof. ends say_once_parts. Qed.
Lemma say_and_run_ends hello t cmd s es code :
  after E R me (say_and_run hello t cmd) s es (Exit code) → s = t.
Proof. ends say_and_run_parts. Qed.
Lemma say_and_run_command hello t cmd s es cmd' k :
  after E R me (say_and_run hello t cmd) s es (System cmd' k) → s = t ∧ cmd' = cmd.
Proof.
  intros Ha. apply say_and_run_parts in Ha.
  repeat match goal with H : _ ∨ _ |- _ => destruct H | H : _ ∧ _ |- _ => destruct H end;
    subst; by simplify_eq.
Qed.

(** What they show. *)
Ltac behaved L :=
  let Ha := fresh in
  intros s es p Ha; apply L in Ha; simpl in Ha; destruct_and?;
  repeat match goal with
  | H : ∃ _, _ |- _ => destruct H
  | H : _ ∨ _ |- _ => destruct H
  | H : _ ∧ _ |- _ => destruct H
  end; subst;
  (split; [simpl; try done; lia|split; [lia|]]).

Ltac whole :=
  try (eexists; split; [done|]); split; [by eexists|intros code Hc; by simplify_eq].

Lemma say_twice_behaves hello last t : 0 ≤ t →
  behaves E R me (say_twice hello last t) t
    (eq [Stdout (hello me); Stdout (last me); Exited 0]).
Proof.
  intros Ht. behaved say_twice_parts; whole.
Qed.

Lemma say_once_behaves hello t : 0 ≤ t →
  behaves E R me (say_once hello t) t (eq [Stdout (hello me); Exited 0]).
Proof.
  intros Ht. behaved say_once_parts; whole.
Qed.

Lemma say_and_run_behaves hello t cmd : 0 ≤ t →
  behaves E R me (say_and_run hello t cmd) t
    (eq [Stdout (hello me); Stdout (command E cmd).1; Exited 0]).
Proof.
  intros Ht. behaved say_and_run_parts; whole.
Qed.

Lemma name_and_say_behaves hello t last v0 : 0 ≤ t → R 0 v0 →
  behaves E R me (name_and_say hello t last) t
    (λ es, ∃ v, R 0 v ∧ es = [Stdout (hello me v); Stdout last; Exited 0]).
Proof.
  intros Ht HR. set (full := λ v, [Stdout (hello me v); Stdout last; Exited 0]).
  behaved name_and_say_parts; first
    [ exists (full x); split; [by eauto|]; whole | exists (full v0); split; [by eauto|]; whole ].
Qed.

Lemma name_twice_behaves hello again t v0 v1 : 0 ≤ t → R 0 v0 → R t v1 →
  behaves E R me (name_twice hello again t) t
    (λ es, ∃ v v', R 0 v ∧ R t v' ∧ es = [Stdout (hello me v); Stdout (again me v'); Exited 0]).
Proof.
  intros Ht H0 H1. set (full := λ v v', [Stdout (hello me v); Stdout (again me v'); Exited 0]).
  behaved name_twice_parts; first
    [ exists (full x x0); split; [by eauto 10|]; whole
    | exists (full x v1); split; [by eauto 10|]; whole
    | exists (full v0 v1); split; [by eauto 10|]; whole ].
Qed.
End parts.

(** ** OrphanZombie.c *)

Import Orphan1.

Definition parent_last : Z → list Z :=
  λ _, line (codes "Terminating parent process now, child process becoming an orphan...").
Definition child_last : list Z :=
  line (codes "Terminating child process now, becoming an zombie...").

Lemma checked_int z k : INT_MIN ≤ z ≤ INT_MAX → checked z k = k z.
Proof. intros H. unfold checked. by rewrite int_range_true. Qed.

Lemma parent_shorter t c C : 0 ≤ t → t < c ≤ INT_MAX →
  Orphan1.parent t c C = say_twice parent_line parent_last t.
Proof.
  intros Ht Hc. unfold Orphan1.parent. rewrite (proj2 (Z.ltb_lt _ _)) by lia.
  by rewrite sleep_int_ok by lia.
Qed.

Lemma parent_longer t c C : 0 ≤ c ≤ t → c < INT_MAX →
  Orphan1.parent t c C = say_and_run parent_line (c + 1) (ps C).
Proof.
  intros Ht Hc. unfold Orphan1.parent. rewrite (proj2 (Z.ltb_ge _ _)) by lia.
  rewrite checked_int by (unfold INT_MIN; lia). by rewrite sleep_int_ok by lia.
Qed.

Lemma child_shorter t c : 0 ≤ c → c < t ≤ INT_MAX →
  Orphan1.child t c = name_and_say child_line c child_last.
Proof.
  intros Ht Hc. unfold Orphan1.child. rewrite (proj2 (Z.ltb_lt _ _)) by lia.
  by rewrite sleep_int_ok by lia.
Qed.

Lemma child_longer t c : 0 ≤ t ≤ c → t < INT_MAX →
  Orphan1.child t c = name_twice child_line orphan_line (t + 1).
Proof.
  intros Ht Hc. unfold Orphan1.child. rewrite (proj2 (Z.ltb_ge _ _)) by lia.
  rewrite checked_int by (unfold INT_MIN; lia). by rewrite sleep_int_ok by lia.
Qed.

Lemma parent2_loud t c : 0 ≤ t → t < c ≤ INT_MAX →
  Orphan2.parent t c = say_twice Orphan2.parent_line (λ _, Orphan2.parent_last) t.
Proof.
  intros Ht Hc. unfold Orphan2.parent. rewrite (proj2 (Z.ltb_lt _ _)) by lia.
  by rewrite sleep_int_ok by lia.
Qed.
Lemma parent2_quiet t c : 0 ≤ c ≤ t → t ≤ INT_MAX →
  Orphan2.parent t c = say_once Orphan2.parent_line t.
Proof.
  intros Ht Hc. unfold Orphan2.parent. rewrite (proj2 (Z.ltb_ge _ _)) by lia.
  by rewrite sleep_int_ok by lia.
Qed.
Lemma child2_loud t c : 0 ≤ c → c < t ≤ INT_MAX →
  Orphan2.child t c = say_twice Orphan2.child_line (λ _, Orphan2.child_last) c.
Proof.
  intros Ht Hc. unfold Orphan2.child. rewrite (proj2 (Z.ltb_lt _ _)) by lia.
  by rewrite sleep_int_ok by lia.
Qed.
Lemma child2_quiet t c : 0 ≤ t ≤ c → c ≤ INT_MAX →
  Orphan2.child t c = say_once Orphan2.child_line c.
Proof.
  intros Ht Hc. unfold Orphan2.child. rewrite (proj2 (Z.ltb_ge _ _)) by lia.
  by rewrite sleep_int_ok by lia.
Qed.

(** What the parent and the child show, and that both are over in time. *)
Definition both_show (m : machine) (P C T : Z) (ΦP ΦC : list event → Prop) : Prop :=
  (∃ full, ΦP full ∧ calls_of P (shown m) `prefix_of` full) ∧
  (∃ full, ΦC full ∧ calls_of C (shown m) `prefix_of` full) ∧
  (2 * PROMPT + 1000 * T ≤ now m →
   table m = ∅ ∧ ΦP (calls_of P (shown m)) ∧ ΦC (calls_of C (shown m))).

Definition anything (_ _ : Z) : Prop := True.

Section runs.
Context (E : env) (P C sh z : Z) (who : ids) (m : machine).
Context (HPC : P ≠ C) (HP1 : 1 < P) (HC1 : 1 < C) (HsP : sh ≠ P) (HsC : sh ≠ C).
Context (Hz : 0 ≤ z < PROMPT).

Lemma behaves_straight R me p0 T Φ :
  behaves E R me p0 T Φ → ∀ s es p, after E R me p0 s es p → straight p = true.
Proof. intros HB s es p Ha. by destruct (HB s es p Ha). Qed.

(** Two straight programs run side by side; [RC] must hold of the child's parent. *)
Lemma forked_runs pP pC RC TP TC ΦP ΦC :
  behaves E anything P pP TP ΦP → behaves E RC C pC TC ΦC →
  (∀ m ch s, pair_inv E P C sh pP pC anything RC z m → table m !! C = Some ch →
     0 ≤ spent ch < PROMPT → now m = z + spent ch + 1000 * s → RC s (child_parent P m)) →
  reaches E (forked P C sh who pP pC z) m → pair_inv E P C sh pP pC anything RC z m.
Proof.
  intros BP BC HRC. apply pair_reaches; try done; try lia.
  - by eapply behaves_straight.
  - by eapply behaves_straight.
  - apply forked_inv; [done|done].
Qed.

Lemma both_show_intro pP pC RC TP TC T ΦP ΦC :
  behaves E anything P pP TP ΦP → behaves E RC C pC TC ΦC → TP ≤ T → TC ≤ T →
  pair_inv E P C sh pP pC anything RC z m → both_show m P C T ΦP ΦC.
Proof.
  intros BP BC HTP HTC I.
  destruct (pair_shows E P C sh pP pC anything RC z m TP TC ΦP ΦC I BP BC) as (H1 & H2 & H3).
  split_and!; [done..|]. intros Hn. apply H3; lia.
Qed.

Lemma both_show_weaken T ΦP ΦC ΦC' :
  (∀ es, ΦC es → ΦC' es) → both_show m P C T ΦP ΦC → both_show m P C T ΦP ΦC'.
Proof.
  intros HΦ (H1 & (full & H2 & Hpre) & H3). split_and!; [done|by eauto|].
  intros Hn. destruct (H3 Hn) as (? & ? & ?). auto.
Qed.

Context (t c : Z) (Ht : 0 ≤ t < INT_MAX) (Hc : 0 ≤ c < INT_MAX).
Context (Hm : reaches E (forked P C sh who (Orphan1.parent t c C) (Orphan1.child t c) z) m).

Lemma orphan1_shorter : t < c →
  both_show m P C (Z.max t c + 1)
    (eq [Stdout (parent_line P); Stdout (parent_last P); Exited 0])
    (λ es, ∃ v, (0 < t → v = P) ∧
       es = [Stdout (child_line C v); Stdout (orphan_line C 1); Exited 0]).
Proof.
  intros Htc. rewrite parent_shorter, child_longer in Hm by lia.
  set (RC := λ s v, (s = 0 → 0 < t → v = P) ∧ (t + 1 ≤ s → v = 1)).
  pose proof (say_twice_behaves E anything P parent_line parent_last t ltac:(lia)) as BP.
  pose proof (name_twice_behaves E RC C child_line orphan_line (t + 1) P 1 ltac:(lia)
                ltac:(split; [done|lia]) ltac:(split; [lia|done])) as BC.
  eapply both_show_weaken; [|eapply both_show_intro; [exact BP|exact BC|lia|lia|]].
  - intros es (v & v' & [HR _] & [_ HR'] & ->). rewrite HR' by lia. eauto.
  - eapply forked_runs; [exact BP|exact BC| |exact Hm].
    intros m' ch s I _ Hs Hn. unfold child_parent. split.
    + intros -> Hpos. destruct (parent_there E P C sh _ _ anything RC z m' t I) as [pr ->];
        [|unfold PROMPT in *; lia|done].
      intros s es code Ha. by rewrite (say_twice_ends _ _ _ _ _ _ _ _ _ Ha).
    + intros Hle. rewrite (parent_gone E P C sh _ _ anything RC z m' t _ I BP);
        [done|unfold PROMPT in *; lia].
Qed.

(** The child's first question finds its parent when that sleeps. *)
Lemma first_parent hello t' cmd pC (RC : Z → Z → Prop) m' ch s :
  pair_inv E P C sh (say_and_run hello t' cmd) pC anything RC z m' →
  1 ≤ t' → 0 ≤ spent ch < PROMPT → now m' = z + spent ch + 1000 * s → s = 0 → child_parent P m' = P.
Proof.
  intros I Hpos Hs Hn ->. unfold child_parent, PROMPT in *.
  destruct (parent_there E P C sh _ _ anything RC z m' t' I) as [pr ->]; [|lia|done].
  intros s es code Ha. by rewrite (say_and_run_ends _ _ _ _ _ _ _ _ _ Ha).
Qed.

Lemma orphan1_longer : c < t →
  both_show m P C (Z.max t c + 1)
    (eq [Stdout (parent_line P); Stdout (command E (ps C)).1; Exited 0])
    (eq [Stdout (child_line C P); Stdout child_last; Exited 0]) ∧
  (∀ pr cmd k, table m !! P = Some pr → state pr = Ready (System cmd k) →
     cmd = ps C ∧ ∃ ch st, table m !! C = Some ch ∧ ppid ch = P ∧ state ch = Dead st).
Proof.
  intros Htc. rewrite parent_longer, child_shorter in Hm by lia.
  set (RC := λ s v, s = 0 → v = P).
  pose proof (say_and_run_behaves E anything P parent_line (c + 1) (ps C) ltac:(lia)) as BP.
  pose proof (name_and_say_behaves E RC C child_line c child_last P ltac:(lia) (λ _, eq_refl)) as BC.
  assert (∀ m' ch s, pair_inv E P C sh (say_and_run parent_line (c + 1) (ps C))
     (name_and_say child_line c child_last) anything RC z m' → table m' !! C = Some ch →
     0 ≤ spent ch < PROMPT → now m' = z + spent ch + 1000 * s → RC s (child_parent P m')) as HRC.
  { intros m' ch s I _ Hs Hn H0. by eapply first_parent; [exact I|lia|..]. }
  pose proof (forked_runs _ _ RC _ _ _ _ BP BC HRC Hm) as Hinv. split.
  - eapply both_show_weaken; [|by eapply both_show_intro; [exact BP|exact BC|lia|lia|]].
    intros es (v & HR & ->). by rewrite HR.
  - intros pr cmd k EP Est. pose proof (pair_parent _ _ _ _ _ _ _ _ _ _ Hinv) as Hp.
    unfold parent_ok in Hp. rewrite EP in Hp. destruct Hp as ([Hsp Htm] & _ & _ & Hb).
    rewrite Est in Htm. destruct Htm as (s & Ha & Hn). apply say_and_run_command in Ha as [-> ->]. split; [done|].
    apply (child_zombie E P C sh _ _ anything RC z m c _ Hinv BC); [unfold PROMPT in *; lia|by eexists].
Qed.

Lemma orphan1_equal : t = c →
  both_show m P C (Z.max t c + 1)
    (eq [Stdout (parent_line P); Stdout (command E (ps C)).1; Exited 0])
    (λ es, ∃ v, (v = P ∨ v = 1) ∧
       es = [Stdout (child_line C P); Stdout (orphan_line C v); Exited 0]).
Proof.
  intros Htc. rewrite parent_longer, child_longer in Hm by lia.
  set (RC := λ s v, (s = 0 → v = P) ∧ (v = P ∨ v = 1)).
  pose proof (say_and_run_behaves E anything P parent_line (c + 1) (ps C) ltac:(lia)) as BP.
  pose proof (name_twice_behaves E RC C child_line orphan_line (t + 1) P 1 ltac:(lia)
                ltac:(by split; auto) ltac:(split; [lia|by right])) as BC.
  eapply both_show_weaken; [|eapply both_show_intro; [exact BP|exact BC|lia|lia|]].
  - intros es (v & v' & [HR _] & [_ HR'] & ->). rewrite HR by done. eauto.
  - eapply forked_runs; [exact BP|exact BC| |exact Hm].
    intros m' ch s I _ Hs Hn. split; [intros H0; by eapply first_parent; [exact I|lia|..]|].
    unfold child_parent. case_match; auto.
Qed.
(** ** OrphanZombie2.c *)

Section second.
Context (Hm2 : reaches E (forked P C sh who (Orphan2.parent t c) (Orphan2.child t c) z) m).

Definition quiet_parent : list event := [Stdout (Orphan2.parent_line P); Exited 0].
Definition quiet_child : list event := [Stdout (Orphan2.child_line C); Exited 0].
Definition loud_parent : list event :=
  [Stdout (Orphan2.parent_line P); Stdout Orphan2.parent_last; Exited 0].
Definition loud_child : list event :=
  [Stdout (Orphan2.child_line C); Stdout Orphan2.child_last; Exited 0].

Lemma orphan2_shorter : t < c →
  both_show m P C (Z.max t c) (eq loud_parent) (eq quiet_child) ∧
  (∀ pr code, table m !! P = Some pr → state pr = Ready (Exit code) →
     ∃ ch, table m !! C = Some ch ∧ is_dead ch = false).
Proof.
  intros Htc. rewrite parent2_loud, child2_quiet in Hm2 by lia.
  pose proof (say_twice_behaves E anything P Orphan2.parent_line (λ _, Orphan2.parent_last) t ltac:(lia)) as BP.
  pose proof (say_once_behaves E anything C Orphan2.child_line c ltac:(lia)) as BC.
  pose proof (forked_runs _ _ anything _ _ _ _ BP BC (λ _ _ _ _ _ _ _, I) Hm2) as Hinv.
  split; [by eapply both_show_intro; [exact BP|exact BC|lia|lia|]|].
  intros pr code EP Est. pose proof (pair_parent _ _ _ _ _ _ _ _ _ _ Hinv) as Hp.
  unfold parent_ok in Hp. rewrite EP in Hp. destruct Hp as ([Hsp Htm] & _ & _ & Hb).
  rewrite Est in Htm. destruct Htm as (s & Ha & Hn). apply say_twice_ends in Ha as ->.
  apply (child_there E P C sh _ _ anything anything z m c Hinv); [|unfold PROMPT in *; lia].
  intros s es code' Ha. by rewrite (say_once_ends _ _ _ _ _ _ _ _ Ha).
Qed.

Lemma orphan2_longer : c < t →
  both_show m P C (Z.max t c) (eq quiet_parent) (eq loud_child) ∧
  (∀ ch code, table m !! C = Some ch → state ch = Ready (Exit code) → is_Some (table m !! P)).
Proof.
  intros Htc. rewrite parent2_quiet, child2_loud in Hm2 by lia.
  pose proof (say_once_behaves E anything P Orphan2.parent_line t ltac:(lia)) as BP.
  pose proof (say_twice_behaves E anything C Orphan2.child_line (λ _, Orphan2.child_last) c ltac:(lia)) as BC.
  pose proof (forked_runs _ _ anything _ _ _ _ BP BC (λ _ _ _ _ _ _ _, I) Hm2) as Hinv.
  split; [by eapply both_show_intro; [exact BP|exact BC|lia|lia|]|].
  intros ch code EC Est. pose proof (pair_child _ _ _ _ _ _ _ _ _ _ Hinv) as Hch.
  unfold child_ok in Hch. rewrite EC in Hch. destruct Hch as ([Hsp Htm] & _).
  rewrite Est in Htm. destruct Htm as (s & Ha & Hn). apply say_twice_ends in Ha as ->.
  apply (parent_there E P C sh _ _ anything anything z m t Hinv); [|unfold PROMPT in *; lia].
  intros s es code' Ha. by rewrite (say_once_ends _ _ _ _ _ _ _ _ Ha).
Qed.

Lemma orphan2_equal : t = c → both_show m P C (Z.max t c) (eq quiet_parent) (eq quiet_child).
Proof.
  intros Htc. rewrite parent2_quiet, child2_quiet in Hm2 by lia.
  pose proof (say_once_behaves E anything P Orphan2.parent_line t ltac:(lia)) as BP.
  pose proof (say_once_behaves E anything C Orphan2.child_line c ltac:(lia)) as BC.
  eapply both_show_intro; [exact BP|exact BC|lia|lia|].
  eapply forked_runs; [exact BP|exact BC|done|exact Hm2].
Qed.
End second.
End runs.

Lemma with_atoi_ok a k : INT_MIN ≤ atoi a ≤ INT_MAX → with_atoi a k = k (atoi a).
Proof. apply checked_int. Qed.

(** C38: OrphanZombie.c, in every run in which [fork] gives process [C].  If the parent's time
    is smaller, it ends while the child sleeps, and the child, asking again, finds
    process 1 as its parent.  If the child's time is smaller, the child is a zombie of the
    parent whenever the parent runs ps.  If the times are equal, the child asks again when
    its parent may or may not have ended.  Within two seconds of the longer sleep both
    have ended and shown their two lines. *)
Theorem orphan_zombie_times E P C sh who a0 a1 a2 m :
  let t := atoi a1 in let c := atoi a2 in
  1 < P → sh ≠ P → 0 ≤ t < INT_MAX → 0 ≤ c < INT_MAX →
  forks_then E P C sh who (Orphan1.main [a0; a1; a2]) m →
  let T := Z.max t c + 1 in
  let ps_shown := [Stdout (parent_line P); Stdout (command E (ps C)).1; Exited 0] in
  (t < c →
     both_show m P C T (eq [Stdout (parent_line P); Stdout (parent_last P); Exited 0])
       (λ es, ∃ v, (0 < t → v = P) ∧
          es = [Stdout (child_line C v); Stdout (orphan_line C 1); Exited 0])) ∧
  (c < t →
     both_show m P C T (eq ps_shown)
       (eq [Stdout (child_line C P); Stdout child_last; Exited 0]) ∧
     (∀ pr cmd k, table m !! P = Some pr → state pr = Ready (System cmd k) →
        cmd = ps C ∧ ∃ ch st, table m !! C = Some ch ∧ ppid ch = P ∧ state ch = Dead st)) ∧
  (t = c →
     both_show m P C T (eq ps_shown)
       (λ es, ∃ v, (v = P ∨ v = 1) ∧
          es = [Stdout (child_line C P); Stdout (orphan_line C v); Exited 0])).
Proof.
  intros t c HP Hsh Ht Hc Hf T ps_shown. unfold Orphan1.main in Hf. fold t c in Hf.
  rewrite !with_atoi_ok in Hf by (fold t c; unfold INT_MIN; lia). fold t c in Hf.
  apply forks_then_forked in Hf as (HC1 & HCP & HCs & z & Hz & Hr).
  rewrite (proj2 (Z.ltb_lt 0 C)) in Hr by lia. change (0 <? 0) with false in Hr. cbv iota in Hr.
  split_and!.
  - by apply (orphan1_shorter E P C sh z who m).
  - by apply (orphan1_longer E P C sh z who m).
  - by apply (orphan1_equal E P C sh z who m).
Qed.

(** OrphanZombie2.c: the process with the smaller time announces, before it ends, that
    the child becomes an orphan (the child is then alive) or a zombie (its parent is then
    there); the other one shows only its first line, and with equal times neither shows
    another line. *)
Theorem orphan_zombie2_times E P C sh who a0 a1 a2 m :
  let t := atoi a1 in let c := atoi a2 in
  1 < P → sh ≠ P → 0 ≤ t < INT_MAX → 0 ≤ c < INT_MAX →
  forks_then E P C sh who (Orphan2.main [a0; a1; a2]) m →
  let show := both_show m P C (Z.max t c) in
  (t < c → show (eq (loud_parent P)) (eq (quiet_child C)) ∧
     (∀ pr code, table m !! P = Some pr → state pr = Ready (Exit code) →
        ∃ ch, table m !! C = Some ch ∧ is_dead ch = false)) ∧
  (c < t → show (eq (quiet_parent P)) (eq (loud_child C)) ∧
     (∀ ch code, table m !! C = Some ch → state ch = Ready (Exit code) → is_Some (table m !! P))) ∧
  (t = c → show (eq (quiet_parent P)) (eq (quiet_child C))).
Proof.
  intros t c HP Hsh Ht Hc Hf show. unfold Orphan2.main in Hf. fold t c in Hf.
  rewrite !with_atoi_ok in Hf by (fold t c; unfold INT_MIN; lia). fold t c in Hf.
  apply forks_then_forked in Hf as (HC1 & HCP & HCs & z & Hz & Hr).
  rewrite (proj2 (Z.ltb_lt 0 C)) in Hr by lia. change (0 <? 0) with false in Hr. cbv iota in Hr.
  split_and!.
  - by apply (orphan2_shorter E P C sh z who m).
  - by apply (orphan2_longer E P C sh z who m).
  - by apply (orphan2_equal E P C sh z who m).
Qed.

(** ** Runs *)

Definition env_ex : env := Env (λ _, None) (λ _, ([], 0)) (λ _, None).
Definition args_ex (t c : string) : list (list Z) := [codes "OrphanZombie"; codes t; codes c].
Definition then_ex (main : proc) (mvs : list move) : machine := then_moves env_ex 100 101 50 who_ex main mvs.

(** With equal times, the child's second question finds its parent or not. *)
Theorem orphan_zombie_race v :
  v = 100 ∨ v = 1 →
  ∃ m, forks_then env_ex 100 101 50 who_ex (Orphan1.main (args_ex "1" "1")) m ∧
    calls_of 101 (shown m) = [Stdout (child_line 101 100); Stdout (orphan_line 101 v)].
Proof.
  set (sleeping := runs_of 100 3 ++ runs_of 101 4 ++ replicate 2000 Tick).
  intros [-> | ->].
  - exists (then_ex (Orphan1.main (args_ex "1" "1")) (sleeping ++ runs_of 101 4)).
    split; [apply then_moves_forks|]; vm_compute; reflexivity.
  - exists (then_ex (Orphan1.main (args_ex "1" "1")) (sleeping ++ runs_of 100 3 ++ runs_of 101 4)).
    split; [apply then_moves_forks|]; vm_compute; reflexivity.
Qed.

(** The parent sleeps no second, the child two; then more time passes. *)
Definition orphan_end_ex : machine :=
  then_ex (Orphan1.main (args_ex "0" "1"))
    (runs_of 100 3 ++ runs_of 101 4 ++ runs_of 100 3 ++ replicate 1000 Tick ++ runs_of 101 5 ++
     replicate 3000 Tick).

Lemma orphan_zombie_times_witness :
  ∃ v, calls_of 101 (shown orphan_end_ex) =
    [Stdout (child_line 101 v); Stdout (orphan_line 101 1); Exited 0].
Proof.
  destruct (orphan_zombie_times env_ex 100 101 50 who_ex (codes "OrphanZombie") (codes "0")
    (codes "1") orphan_end_ex) as [H _].
  - reflexivity.
  - discriminate.
  - split; [discriminate|reflexivity].
  - split; [discriminate|reflexivity].
  - apply then_moves_forks. vm_compute. reflexivity.
  - destruct H as (_ & _ & H); [reflexivity|].
    destruct H as (_ & _ & v & _ & Hv); [vm_compute; discriminate|]. exists v. exact Hv.
Defined.

Definition orphan2_end_ex : machine :=
  then_ex (Orphan2.main (args_ex "1" "0"))
    (runs_of 100 3 ++ runs_of 101 6 ++ replicate 1000 Tick ++ runs_of 100 2 ++ replicate 2000 Tick).

Lemma orphan_zombie2_times_witness :
  loud_child 101 = calls_of 101 (shown orphan2_end_ex).
Proof.
  destruct (orphan_zombie2_times env_ex 100 101 50 who_ex (codes "OrphanZombie2") (codes "1")
    (codes "0") orphan2_end_ex) as (_ & H & _).
  - reflexivity.
  - discriminate.
  - split; [discriminate|reflexivity].
  - split; [discriminate|reflexivity].
  - apply then_moves_forks. vm_compute. reflexivity.
  - destruct H as [(_ & _ & H) _]; [reflexivity|]. apply H. vm_compute. discriminate.
Defined.
