(* ===== verification/ForkcmdProps.v ===== *)
(** * ForkcmdProps: forkcmd.c reports how its command ended

    The command may be any program, with children of its own: the invariant ([fork_inv])
    follows the two processes of forkcmd.c and leaves all others free, except that none of
    them has the first process as its parent. *)

From stdpp Require Import base gmap list strings relations.
From S2P Require Import Prelude History Process ProcessFacts ProcessPair Programs.

Open Scope Z_scope.

Import Forkcmd.

#[local] Arguments codes : simpl never.
#[local] Arguments Z.ltb : simpl never.

Section forkcmd.
Context (E : env) (P C sh : Z) (argv envp : list (list Z)) (argv1 : list Z).
Context (HP1 : 1 < P) (HPC : P ≠ C) (HsP : sh ≠ P) (HsC : sh ≠ C).

(** ** The parts of the two processes, with what they have shown *)

Definition said (me ppid : Z) : list event :=
  [Stdout (child_line me ppid); Stdout (line (codes "Executing command: " ++ argv1))].
Definition failed_to_run : list event := [Stderr (codes "Could not execve"); Exited 0].

Inductive child_at : list event → pstate → Prop :=
  | at_start : child_at [] (Ready (child argv envp argv1))
  | at_getppid : child_at [] (Ready (Getppid (λ ppid,
      Write (child_line C ppid) (Write (line (codes "Executing command: " ++ argv1)) (
      Execve argv1 argv envp (Perror (codes "Could not execve") (Exit 0)))))))
  | at_line : child_at [] (Ready (Write (child_line C P) (
      Write (line (codes "Executing command: " ++ argv1)) (
      Execve argv1 argv envp (Perror (codes "Could not execve") (Exit 0))))))
  | at_command : child_at [Stdout (child_line C P)] (Ready (
      Write (line (codes "Executing command: " ++ argv1)) (
      Execve argv1 argv envp (Perror (codes "Could not execve") (Exit 0)))))
  | at_execve : child_at (said C P) (Ready (
      Execve argv1 argv envp (Perror (codes "Could not execve") (Exit 0))))
  | at_perror : file E argv1 = None →
      child_at (said C P) (Ready (Perror (codes "Could not execve") (Exit 0)))
  | at_exit : file E argv1 = None →
      child_at (said C P ++ [Stderr (codes "Could not execve")]) (Ready (Exit 0))
  | at_exited : file E argv1 = None → child_at (said C P ++ failed_to_run) (Dead 0)
  | at_became main es st : file E argv1 = Some main → (∀ code, st ≠ Dead code) →
      (∀ code, Exited code ∉ es) → child_at (said C P ++ es) st
  | at_ended main es code : file E argv1 = Some main → (∀ code, Exited code ∉ es) →
      child_at (said C P ++ es ++ [Exited code]) (Dead code).

Inductive parent_at : list event → pstate → Prop :=
  | at_first : parent_at [] (Ready (parent C))
  | at_parent_line : parent_at [] (Ready (Write (parent_line P) (
      Waitpid C 0 (λ status, Write (report status) (Exit 0)))))
  | at_waitpid : parent_at [Stdout (parent_line P)] (Ready (
      Waitpid C 0 (λ status, Write (report status) (Exit 0)))).

Inductive reporting_at (st : Z) : list event → pstate → Prop :=
  | at_report : reporting_at st [Stdout (parent_line P)] (Ready (Write (report st) (Exit 0)))
  | at_return : reporting_at st [Stdout (parent_line P); Stdout (report st)] (Ready (Exit 0)).

Definition reported (st : Z) : list event :=
  [Stdout (parent_line P); Stdout (report st); Exited 0].

(** ** The invariant *)

Inductive pair_at (m : machine) : Prop :=
  | pair_waits pr ch :
      table m !! P = Some pr → ppid pr = sh → parent_at (calls_of P (shown m)) (state pr) →
      table m !! C = Some ch → ppid ch = P → child_at (calls_of C (shown m)) (state ch) → pair_at m
  | pair_reports pr st :
      table m !! P = Some pr → ppid pr = sh → reporting_at st (calls_of P (shown m)) (state pr) →
      table m !! C = None → child_at (calls_of C (shown m)) (Dead st) → pair_at m
  | pair_over st :
      table m !! P = None → calls_of P (shown m) = reported st →
      table m !! C = None → child_at (calls_of C (shown m)) (Dead st) → pair_at m.

Record fork_inv (m : machine) : Prop := {
  inv_used : P ∈ used m ∧ C ∈ used m ∧ sh ∈ used m;
  inv_shell : table m !! sh = None;
  inv_kin : ∀ r pr, table m !! r = Some pr → r ≠ C → ppid pr ≠ P;
  inv_pair : pair_at m
}.

(** *** Moves that change neither of the two *)

(** The process entries agree, up to the time spent. *)
Definition same (o o' : option process) : Prop :=
  match o, o' with
  | Some pr, Some pr' => ppid pr' = ppid pr ∧ state pr' = state pr
  | None, None => True
  | _, _ => False
  end.

Lemma same_refl o : same o o.
Proof. by destruct o. Qed.

Lemma pair_at_frame m m' :
  same (table m !! P) (table m' !! P) → same (table m !! C) (table m' !! C) →
  calls_of P (shown m') = calls_of P (shown m) → calls_of C (shown m') = calls_of C (shown m) →
  pair_at m → pair_at m'.
Proof.
  intros HtP HtC HcP HcC H.
  destruct H as [pr ch H1 H2 H3 H4 H5 H6|pr st H1 H2 H3 H4 H5|st H1 H2 H3 H4];
    repeat match goal with H : table m !! _ = _ |- _ => rewrite H in *; clear H end;
    unfold same in *; destruct (table m' !! P) as [pr'|] eqn:?, (table m' !! C) as [ch'|] eqn:?;
    try done; destruct_and?;
    rewrite <-?HcP, <-?HcC in *;
    repeat match goal with H : state ?x = state ?y |- _ => rewrite <-H in *; clear H end.
  - eapply pair_waits; [done| |done|done| |done]; congruence.
  - eapply pair_reports; [done| |done|done|done]; congruence.
  - by eapply pair_over.
Qed.

Lemma inv_tick m m' : fork_inv m → tick E m = Some m' → fork_inv m'.
Proof.
  intros [Hu Hs Hk Hp] Ht. destruct (tick_shape E m m' Ht) as (_ & Hu' & Hsh & Htab). split.
  - by rewrite Hu'.
  - by rewrite Htab, Hs.
  - intros r pr. rewrite Htab. destruct (table m !! r) as [qr|] eqn:Hr; simpl; [|done].
    intros [= <-] HrC. rewrite older_ppid. by eapply Hk.
  - assert (∀ r, same (table m !! r) (table m' !! r)).
    { intros r. rewrite Htab. unfold same. destruct (table m !! r); simpl; [|done].
      by rewrite older_ppid, older_state. }
    apply (pair_at_frame m); by rewrite ?Hsh.
Qed.

(** A process has the shell or the first process as its parent: neither ends or waits before. *)
Lemma pair_parents m r pr :
  pair_at m → r = P ∨ r = C → table m !! r = Some pr → ppid pr = if decide (r = P) then sh else P.
Proof.
  intros Hp Hr Hpr. destruct Hr as [-> | ->]; case_decide; try done; destruct Hp; congruence.
Qed.

Lemma bury_same m q r :
  fork_inv m → is_Some (table m !! q) → q ≠ P → r = P ∨ r = C → r ≠ q →
  bury q (table m) !! r = table m !! r.
Proof.
  intros I [qr Hq] HqP Hr Hrq. rewrite lookup_bury, decide_False by done.
  destruct (table m !! r) as [pr|] eqn:Hpr; [|done]. simpl. unfold after_exit.
  rewrite (pair_parents m r pr (inv_pair m I) Hr Hpr).
  pose proof (inv_shell m I) as Hs. case_decide; case_match; try done; zbool; congruence.
Qed.

(** The first process is not a zombie. *)
Lemma first_lives m pr : pair_at m → table m !! P = Some pr → is_dead pr = false.
Proof.
  intros Hp Hpr. unfold is_dead. destruct Hp as [pr' ch H1 H2 H3|pr' st H1 H2 H3|]; simplify_map_eq.
  - by inversion H3.
  - by inversion H3.
Qed.

Lemma kin_exit m q qr code :
  fork_inv m → table m !! q = Some qr → q ≠ P →
  ∀ r pr, table (exit_process q qr code m) !! r = Some pr → r ≠ C → ppid pr ≠ P.
Proof.
  intros I Hq HqP r pr Hr HrC.
  assert (bury q (table m) !! r = Some pr ∨ r = q ∧ ppid pr = ppid qr) as [Hb|[-> ->]].
  { unfold exit_process in Hr. simpl in Hr. destruct (bury q (table m) !! ppid qr) as [d|]; simpl in Hr; [|by left].
    destruct (is_dead d); simpl in Hr; [by left|].
    destruct (decide (r = q)) as [->|]; [right|left; by rewrite lookup_insert_ne in Hr].
    rewrite lookup_insert_eq in Hr. by injection Hr as <-. }
  - rewrite lookup_bury in Hb. case_decide; [done|].
    destruct (table m !! r) as [rr|] eqn:Hrr; [|done]. simpl in Hb. unfold after_exit in Hb.
    repeat case_match; simplify_eq; [simpl; lia|]. by eapply (inv_kin m I).
  - by eapply (inv_kin m I).
Qed.

(** Only the first process waits for its child. *)
Lemma kin_waits m q c ch :
  fork_inv m → is_Some (table m !! q) → q ≠ P → table m !! c = Some ch → ppid ch = q → c ≠ P ∧ c ≠ C.
Proof.
  intros I [qr Hq] HqP Hc Hpp. pose proof (inv_shell m I) as Hs.
  split; intros ->.
  - pose proof (pair_parents m P ch (inv_pair m I) (or_introl eq_refl) Hc) as H.
    rewrite decide_True in H by done. congruence.
  - pose proof (pair_parents m C ch (inv_pair m I) (or_intror eq_refl) Hc) as H.
    rewrite decide_False in H by done. congruence.
Qed.

(** The frame of a move of any process but the first. *)
Record framed (q : Z) (m m' : machine) : Prop := {
  framed_used : P ∈ used m' ∧ C ∈ used m' ∧ sh ∈ used m';
  framed_shell : table m' !! sh = None;
  framed_kin : ∀ r pr, table m' !! r = Some pr → r ≠ C → ppid pr ≠ P;
  framed_table : ∀ r, r = P ∨ r = C → r ≠ q → table m' !! r = table m !! r;
  framed_shown : ∀ r, r ≠ q → calls_of r (shown m') = calls_of r (shown m)
}.

Lemma exit_table q qr code m r :
  r ≠ q → table (exit_process q qr code m) !! r = bury q (table m) !! r.
Proof.
  intros Hr. unfold exit_process. simpl. destruct (bury q (table m) !! ppid qr) as [d|]; simpl; [|done].
  destruct (is_dead d); simpl; [done|]. by rewrite lookup_insert_ne.
Qed.

Lemma run_framed m m' q qr new :
  fork_inv m → table m !! q = Some qr → q ≠ P → run E q qr new m = Some m' → framed q m m'.
Proof.
  intros I Hq HqP Hrun. pose proof I as [(Hu1 & Hu2 & Hu3) Hs Hk _].
  assert (q ≠ sh) as Hqs by congruence.
  destruct (run_effect E q qr m new m' Hrun) as
    [st es _ _ Ht Hu Hsh|c p p' Hc Ht Hu Hsh|c ch st p Hc Hpp _ Ht Hu Hsh|code ->].
  - split; rewrite ?Ht, ?Hu, ?Hsh; [done|by rewrite lookup_insert_ne| | |].
    + intros r pr [[<- <-]|[_ Hr]]%lookup_insert_Some Hne; [exact (Hk _ _ Hq Hne)|by eapply Hk].
    + intros r _ Hr. by rewrite lookup_insert_ne.
    + intros r Hr. by rewrite calls_of_others.
  - split; rewrite ?Ht, ?Hu, ?Hsh; [set_solver| | | |done].
    + by rewrite !lookup_insert_ne by (done || intros ->; done).
    + intros r pr [[<- <-]|[_ [[<- <-]|[_ Hr]]%lookup_insert_Some]]%lookup_insert_Some Hne;
        [done|exact (Hk _ _ Hq Hne)|by eapply Hk].
    + intros r Hor Hr. rewrite !lookup_insert_ne; [done..|]. intros ->. destruct Hor; by subst.
  - destruct (kin_waits m q c ch I ltac:(by eexists) HqP Hc Hpp) as [HcP HcC].
    split; rewrite ?Ht, ?Hu, ?Hsh; [done| | | |done].
    + rewrite lookup_insert_ne by done. apply lookup_delete_None. by right.
    + intros r pr [[<- <-]|[_ [_ Hr]%lookup_delete_Some]]%lookup_insert_Some Hne; [exact (Hk _ _ Hq Hne)|by eapply Hk].
    + intros r Hor Hr. rewrite lookup_insert_ne by done. apply lookup_delete_ne.
      destruct Hor; congruence.
  - split; [done| | | |].
    + rewrite exit_table by done. rewrite lookup_bury, decide_False, Hs by done. done.
    + by apply kin_exit.
    + intros r Hor Hr. rewrite exit_table by done. by apply bury_same; [|eexists|..].
    + intros r Hr. by apply (calls_of_others r q _ [_]).
Qed.

Lemma inv_other m m' q qr new :
  fork_inv m → table m !! q = Some qr → q ≠ P → q ≠ C → run E q qr new m = Some m' → fork_inv m'.
Proof.
  intros I Hq HqP HqC Hrun. destruct (run_framed m m' q qr new I Hq HqP Hrun) as [F1 F2 F3 F4 F5].
  split; [done..|]. apply (pair_at_frame m); [| |by apply F5..|apply I].
  - rewrite F4 by auto. apply same_refl.
  - rewrite F4 by auto. apply same_refl.
Qed.

(** *** The moves of the child *)

Lemma child_intro m m' pr ch' :
  framed C m m' → table m !! P = Some pr → ppid pr = sh →
  parent_at (calls_of P (shown m)) (state pr) →
  table m' !! C = Some ch' → ppid ch' = P → child_at (calls_of C (shown m')) (state ch') →
  fork_inv m'.
Proof.
  intros [F1 F2 F3 F4 F5] H1 H2 H3 H4 H5 H6. split; [done..|].
  eapply pair_waits; [by rewrite F4 by auto|done|by rewrite F5 by done|done..].
Qed.

Lemma child_exits m pr ch code :
  fork_inv m → table m !! P = Some pr → table m !! C = Some ch → ppid ch = P →
  table (exit_process C ch code m) !! C = Some (become ch (Dead (code mod 256 * 256))).
Proof.
  intros I HP HC Hpp. unfold exit_process. simpl. rewrite Hpp.
  rewrite (bury_same m C P I) by (done || by auto || by eexists).
  rewrite HP, (first_lives m pr (inv_pair m I) HP). simpl. apply lookup_insert_eq.
Qed.

(** The child has become the command. *)
Lemma became_runs m m' pr ch new main es :
  fork_inv m → table m !! P = Some pr → table m !! C = Some ch → ppid ch = P →
  file E argv1 = Some main → (∀ code, Exited code ∉ es) →
  calls_of C (shown m) = said C P ++ es →
  run E C ch new m = Some m' →
  ∃ ch', table m' !! C = Some ch' ∧ ppid ch' = P ∧ child_at (calls_of C (shown m')) (state ch').
Proof.
  intros I HP HC Hpp Hf Hno Hes Hrun. pose proof I as [(_ & HuC & _) _ _ _].
  destruct (run_effect E C ch m new m' Hrun) as
    [st es' Hst Hno' Ht Hu Hsh|c p p' Hc Ht Hu Hsh|c ch2 st p Hc Hpp2 _ Ht Hu Hsh|code ->].
  - exists (become ch st). rewrite Ht, Hsh, lookup_insert_eq. split_and!; [done..|].
    rewrite (calls_of_own C), Hes, <-app_assoc. eapply at_became; [done..|].
    intros code. rewrite elem_of_app. by intros [?%Hno|?%Hno'].
  - exists (become ch (Ready p)). rewrite Ht, Hsh, lookup_insert_ne by (intros ->; done).
    rewrite lookup_insert_eq, Hes. split_and!; [done..|]. by eapply at_became.
  - exists (become ch (Ready p)). rewrite Ht, Hsh, lookup_insert_eq, Hes. split_and!; [done..|].
    by eapply at_became.
  - eexists. split; [by eapply child_exits|]. split; [done|]. simpl.
    rewrite calls_of_app, calls_of_one, Hes, <-app_assoc. by eapply at_ended.
Qed.

Lemma inv_child m m' ch new :
  fork_inv m → table m !! C = Some ch → run E C ch new m = Some m' → fork_inv m'.
Proof.
  intros I HC Hrun. pose proof (run_framed m m' C ch new I HC (not_eq_sym HPC) Hrun) as F.
  destruct (inv_pair m I) as [pr ch0 H1 H2 H3 H4 H5 H6| |]; [|congruence..].
  rewrite HC in H4. injection H4 as <-.
  assert (∃ ch', table m' !! C = Some ch' ∧ ppid ch' = P ∧
    child_at (calls_of C (shown m')) (state ch')) as (ch' & ? & ? & ?); [|by eapply child_intro].
  remember (calls_of C (shown m)) as es0 eqn:He. remember (state ch) as st0 eqn:Hs.
  destruct H6 as [| | | | |Hf|Hf|Hf|main es st Hf Hst Hes|main es code Hf Hes].
  9: { by eapply became_runs. }
  7: { unfold run in Hrun. rewrite <-Hs in Hrun. simpl in Hrun. injection Hrun as <-.
       eexists. split; [by eapply child_exits|]. split; [done|]. simpl.
       rewrite calls_of_app, calls_of_one, <-He. by apply at_exited. }
  all: unfold run in Hrun; rewrite <-Hs in Hrun; simpl in Hrun; try done.
  5: destruct (file E argv1) as [main|] eqn:Hf.
  all: injection Hrun as <-; eexists; simpl.
  all: rewrite lookup_insert_eq; split; [done|]; split; [done|]; simpl.
  all: rewrite ?calls_of_app, ?calls_of_one, <-?He, ?H5.
  all: try by constructor.
  eapply (at_became main []); [done|done|]. intros code. apply not_elem_of_nil.
Qed.

(** *** The moves of the first process *)

(** It goes on, perhaps after removing its child. *)
Lemma first_goes_on m m' pr p (t : gmap Z process) :
  fork_inv m → table m !! P = Some pr → (t = table m ∨ t = delete C (table m)) →
  table m' = <[P := become pr (Ready p)]> t → used m' = used m → pair_at m' → fork_inv m'.
Proof.
  intros [(Hu1 & Hu2 & Hu3) Hs Hk _] HP Ht Ht' Hu Hp. split; [by rewrite Hu| | |done]; rewrite Ht'.
  - rewrite lookup_insert_ne by done. destruct Ht as [->| ->]; [done|].
    apply lookup_delete_None. by right.
  - intros r qr [[<- <-]|[_ Hr]]%lookup_insert_Some HrC; [exact (Hk _ _ HP HrC)|].
    destruct Ht as [->| ->]; [by eapply Hk|]. apply lookup_delete_Some in Hr as [_ Hr]. by eapply Hk.
Qed.

Lemma first_exits m pr code :
  fork_inv m → table m !! P = Some pr → ppid pr = sh →
  table (exit_process P pr code m) = bury P (table m).
Proof.
  intros [_ Hs _ _] HP Hpp. unfold exit_process. simpl.
  by rewrite Hpp, lookup_bury, decide_False, Hs by done.
Qed.

(** One more line of the first process. *)
Lemma first_shows (h : list (Z * event)) e :
  calls_of P (h ++ [(P, e)]) = calls_of P h ++ [e] ∧ calls_of C (h ++ [(P, e)]) = calls_of C h.
Proof. by rewrite !calls_of_app, calls_of_one, calls_of_other, app_nil_r by done. Qed.

Lemma inv_first_waits m m' pr ch new :
  fork_inv m → table m !! P = Some pr → ppid pr = sh →
  parent_at (calls_of P (shown m)) (state pr) → table m !! C = Some ch → ppid ch = P →
  child_at (calls_of C (shown m)) (state ch) →
  run E P pr new m = Some m' → fork_inv m'.
Proof.
  intros I HP Hpp Hpar HC HppC Hch Hrun. unfold run in Hrun.
  remember (calls_of P (shown m)) as es eqn:He. remember (state pr) as st eqn:Hs.
  destruct Hpar; simpl in Hrun.
  - injection Hrun as <-. eapply first_goes_on; [done..|by left|done|done|].
    eapply pair_waits; simpl; [apply lookup_insert_eq|done| |by rewrite lookup_insert_ne|done|done].
    rewrite <-He. apply at_parent_line.
  - injection Hrun as <-. eapply first_goes_on; [done..|by left|done|done|].
    eapply pair_waits; simpl; [apply lookup_insert_eq|done| |by rewrite lookup_insert_ne|done|].
    + rewrite (proj1 (first_shows _ _)), <-He. apply at_waitpid.
    + by rewrite (proj2 (first_shows _ _)).
  - rewrite HC, HppC, Z.eqb_refl in Hrun. destruct (state ch) as [| |code] eqn:Hst; [done..|].
    injection Hrun as <-. eapply first_goes_on; [done..|by right|done|done|].
    eapply pair_reports; simpl; [apply lookup_insert_eq|done| | |done].
    + rewrite <-He. apply at_report.
    + rewrite lookup_insert_ne by done. apply lookup_delete_eq.
Qed.

Lemma inv_first_reports m m' pr st new :
  fork_inv m → table m !! P = Some pr → ppid pr = sh →
  reporting_at st (calls_of P (shown m)) (state pr) → table m !! C = None →
  child_at (calls_of C (shown m)) (Dead st) →
  run E P pr new m = Some m' → fork_inv m'.
Proof.
  intros I HP Hpp Hrep HC Hch Hrun. unfold run in Hrun.
  remember (calls_of P (shown m)) as es eqn:He. remember (state pr) as ps eqn:Hs.
  destruct Hrep; simpl in Hrun; injection Hrun as <-.
  - eapply first_goes_on; [done..|by left|done|done|].
    eapply pair_reports; simpl; [apply lookup_insert_eq|done| |by rewrite lookup_insert_ne|].
    + rewrite (proj1 (first_shows _ _)), <-He. apply at_return.
    + by rewrite (proj2 (first_shows _ _)).
  - pose proof (first_exits m pr 0 I HP Hpp) as Ht. pose proof I as [Hu Hsh Hk _].
    split; rewrite ?Ht; [done| | |].
    + by rewrite lookup_bury, decide_False, Hsh by done.
    + intros r qr. rewrite lookup_bury. case_decide; [done|].
      destruct (table m !! r) as [rr|] eqn:Hr; [|done]. simpl. unfold after_exit.
      repeat case_match; [done|intros [= <-] _; simpl; lia|intros [= <-]; by eapply Hk].
    + eapply (pair_over _ st); rewrite ?Ht, ?lookup_bury.
      * by rewrite decide_True.
      * simpl. by rewrite (proj1 (first_shows _ _)), <-He.
      * by rewrite decide_False, HC.
      * simpl. by rewrite (proj2 (first_shows _ _)).
Qed.

Lemma fork_inv_step mv m m' : fork_inv m → exec_move E mv m = Some m' → fork_inv m'.
Proof.
  intros I. destruct mv as [q new|]; simpl; [|by apply inv_tick].
  destruct (table m !! q) as [qr|] eqn:Hq; simpl; [|done]. intros Hrun.
  destruct (decide (q = P)) as [->|HqP].
  - destruct (inv_pair m I) as [pr ch H1|pr st H1|]; [..|congruence]; rewrite Hq in H1; injection H1 as <-.
    + by eapply inv_first_waits.
    + by eapply inv_first_reports.
  - destruct (decide (q = C)) as [->|HqC]; [by eapply inv_child|by eapply inv_other].
Qed.

Lemma fork_inv_reaches m m' : fork_inv m → reaches E m m' → fork_inv m'.
Proof. intros I H. induction H as [|m m1 m2 [mv Hmv] _ IH]; [done|]. by eapply IH, fork_inv_step. Qed.

Lemma forked_fork_inv who z : fork_inv (forked P C sh who (parent C) (child argv envp argv1) z).
Proof.
  assert (sh ≠ C ∧ sh ≠ P) as [H1 H2] by done. split; simpl.
  - set_solver.
  - by rewrite lookup_insert_ne, lookup_singleton_ne.
  - intros r pr [[<- _]|[_ [<- <-]%lookup_singleton_Some]]%lookup_insert_Some HrC.
    + congruence.
    + exact H2.
  - eapply pair_waits; simpl;
      [by rewrite lookup_insert_ne, lookup_singleton_eq by done|done|apply at_first
      |apply lookup_insert_eq|done|apply at_start].
Qed.

(** ** What the invariant says of the output *)

Lemma child_ended es st code :
  child_at es st → Exited code ∈ es → st = Dead code ∧ (file E argv1 = None → es = said C P ++ failed_to_run).
Proof.
  intros H Hin. unfold said, failed_to_run in *.
  destruct H as [| | | | |Hf|Hf|Hf|main es st Hf Hst Hes|main es code' Hf Hes];
    unfold said, failed_to_run in Hin;
    rewrite ?elem_of_app, ?elem_of_cons, ?elem_of_nil in Hin;
    destruct_or?; try done; simplify_eq; try (by exfalso; eapply Hes).
  - done.
  - split; [done|]. intros Hn. congruence.
Qed.

Lemma child_output es st :
  child_at es st → file E argv1 = None → es `prefix_of` said C P ++ failed_to_run.
Proof.
  intros H Hn. destruct H; try congruence; by eexists.
Qed.

Lemma parent_output m :
  pair_at m →
  calls_of P (shown m) `prefix_of` [Stdout (parent_line P)] ∨
  ∃ st, Exited st ∈ calls_of C (shown m) ∧ calls_of P (shown m) `prefix_of` reported st.
Proof.
  assert (∀ es st, child_at es (Dead st) → Exited st ∈ es) as Hdead.
  { intros es st H. remember (Dead st) as d eqn:Hd. destruct H; simplify_eq.
    - unfold failed_to_run. set_solver.
    - naive_solver.
    - set_solver. }
  intros [pr ch _ _ Hp _ _ _|pr st _ _ Hp _ Hc|st _ Hp _ Hc].
  - left. destruct Hp; by eexists.
  - right. exists st. split; [by apply Hdead|]. destruct Hp; by eexists.
  - right. exists st. split; [by apply Hdead|]. by rewrite Hp.
Qed.

(** ** Once the child has ended, the first process reports it *)

Definition steps_left (st : pstate) : nat :=
  match st with
  | Ready (Getpid _) => 5
  | Ready (Write _ (Waitpid _ _ _)) => 4
  | Ready (Waitpid _ _ _) => 3
  | Ready (Write _ (Exit _)) => 2
  | Ready (Exit _) => 1
  | _ => 0
  end.

Lemma run_shown q qr new m m' : run E q qr new m = Some m' → ∃ l, shown m' = shown m ++ l.
Proof.
  intros Hrun. destruct (run_effect E q qr m new m' Hrun) as
    [st es _ _ _ _ ->|c p p' _ _ _ ->|c ch st p _ _ _ _ _ ->|code ->]; [by eexists|..].
  - exists []. by rewrite app_nil_r.
  - exists []. by rewrite app_nil_r.
  - by eexists.
Qed.

Lemma reports_next m pr st :
  fork_inv m → Exited st ∈ calls_of C (shown m) → table m !! P = Some pr →
  ∃ m1, exec_move E (Run P None) m = Some m1 ∧
    match table m1 !! P with
    | Some pr1 => S (steps_left (state pr1)) = steps_left (state pr)
    | None => steps_left (state pr) = 1%nat
    end.
Proof.
  intros I Hin HP. cbn [exec_move]. rewrite HP. cbn [mbind option_bind]. unfold run.
  destruct (inv_pair m I) as [pr' ch H1 H2 H3 H4 H5 H6|pr' st' H1 H2 H3 H4 H5|]; [..|congruence];
    rewrite HP in H1; injection H1 as <-.
  - destruct (child_ended _ _ _ H6 Hin) as [Hdead _].
    remember (calls_of P (shown m)) as es. remember (state pr) as ps. destruct H3; simpl.
    + eexists. split; [done|]. simpl. by rewrite lookup_insert_eq.
    + eexists. split; [done|]. simpl. by rewrite lookup_insert_eq.
    + rewrite H4, H5, Z.eqb_refl, Hdead. eexists. split; [done|]. simpl. by rewrite lookup_insert_eq.
  - remember (calls_of P (shown m)) as es. remember (state pr) as ps. destruct H3; simpl.
    + eexists. split; [done|]. simpl. by rewrite lookup_insert_eq.
    + eexists. split; [done|]. by rewrite (first_exits m pr 0 I HP H2), lookup_bury, decide_True.
Qed.

Lemma reports_soon n m st :
  fork_inv m → Exited st ∈ calls_of C (shown m) →
  match table m !! P with Some pr => steps_left (state pr) = n | None => n = O end →
  ∃ m', exec_moves E (runs_of P n) m = Some m' ∧ table m' !! P = None ∧
        calls_of P (shown m') = reported st.
Proof.
  revert m. induction n as [|n IH]; intros m I Hin Hn; destruct (table m !! P) as [pr|] eqn:HP;
    [..|done].
  - destruct (reports_next m pr st I Hin HP) as (m1 & _ & H1). destruct (table m1 !! P); lia.
  - exists m. split; [done|]. split; [done|].
    destruct (inv_pair m I) as [pr ch H1|pr st' H1|st' _ H2 _ H3]; [congruence..|].
    destruct (child_ended _ _ _ H3 Hin) as [[= <-] _]. done.
  - destruct (reports_next m pr st I Hin HP) as (m1 & Hm1 & H1).
    simpl in Hm1 |- *. rewrite HP in Hm1 |- *. simpl in Hm1 |- *. rewrite Hm1. simpl.
    destruct (run_shown _ _ _ _ _ Hm1) as [l Hl]. apply IH.
    + apply (fork_inv_step (Run P None) m); [done|]. simpl. by rewrite HP.
    + rewrite Hl, calls_of_app. apply elem_of_app. by left.
    + destruct (table m1 !! P); lia.
Qed.

Lemma steps_left_bound st : (steps_left st <= 5)%nat.
Proof. unfold steps_left. repeat case_match; lia. Qed.
End forkcmd.

(** C37: forkcmd.c when [fork] gives process [C], which may become any program.  The first
    process reports nothing before the child has ended, and reports the status that the
    child ended with; once the child has ended, it needs at most five moves of its own to
    report.  A command that cannot be executed makes the child show the error and return 0:
    the first process then reports that it terminated normally. *)
Theorem forkcmd_reports E P C sh who argv0 argv1 envp m :
  1 < P → sh ≠ P →
  forks_then E P C sh who (main [argv0; argv1] envp) m →
  let hello := [Stdout (parent_line P)] in
  let ends st := hello ++ [Stdout (if st =? 0 then normally else with_error); Exited 0] in
  let fails := said argv1 C P ++ [Stderr (codes "Could not execve"); Exited 0] in
  (calls_of P (shown m) `prefix_of` hello ∨
   ∃ st, Exited st ∈ calls_of C (shown m) ∧ calls_of P (shown m) `prefix_of` ends st) ∧
  (∀ st, Exited st ∈ calls_of C (shown m) →
     ∃ n m', (n <= 5)%nat ∧ exec_moves E (runs_of P n) m = Some m' ∧
       table m' !! P = None ∧ calls_of P (shown m') = ends st) ∧
  (file E argv1 = None → calls_of C (shown m) `prefix_of` fails ∧
     ∀ st, Exited st ∈ calls_of C (shown m) → st = 0).
Proof.
  intros HP1 HsP Hf hello ends fails.
  assert (∀ st, reported P st = ends st) as Hends.
  { intros st. unfold reported, ends, report. by rewrite Z.eqb_sym. }
  unfold main in Hf. apply forks_then_forked in Hf as (HC1 & HCP & HsC & z & Hz & Hr).
  rewrite (proj2 (Z.ltb_lt 0 C)) in Hr by lia. change (0 <? 0) with false in Hr. cbv iota in Hr.
  set (argv := [argv0; argv1]) in *.
  assert (fork_inv E P C sh argv envp argv1 m) as I.
  { eapply fork_inv_reaches; [..|exact Hr]; try done. by apply forked_fork_inv. }
  pose proof (inv_pair _ _ _ _ _ _ _ _ I) as Hpair. split_and!.
  - destruct (parent_output E P C sh argv envp argv1 HP1 (not_eq_sym HCP) HsP (not_eq_sym HsC) m Hpair) as [H|(st & H1 & H2)]; [by left|right].
    exists st. by rewrite <-Hends.
  - intros st Hin.
    set (n := match table m !! P with Some pr => steps_left (state pr) | None => O end).
    destruct (reports_soon E P C sh argv envp argv1 HP1 (not_eq_sym HCP) HsP (not_eq_sym HsC) n m st I Hin)
      as (m' & H1 & H2 & H3); [by subst n; destruct (table m !! P)|].
    exists n, m'. rewrite H3, Hends. split_and!; [|done..]. subst n.
    destruct (table m !! P); [apply steps_left_bound|lia].
  - intros Hn. assert (∃ st, child_at E P C argv envp argv1 (calls_of C (shown m)) st) as [st Hst].
    { destruct Hpair; eauto. }
    split; [by eapply child_output|]. intros st' Hin.
    destruct (child_ended _ _ _ _ _ _ _ _ _ Hst Hin) as [_ He]. rewrite (He Hn) in Hin.
    unfold said, failed_to_run in Hin. rewrite !elem_of_app, !elem_of_cons, !elem_of_nil in Hin.
    destruct_or?; by simplify_eq.
Qed.

(** A run of the command [true], whose end the first process reports, and of a name that
    is not a program. *)
Definition cmd_env : env :=
  Env (λ path, if bool_decide (path = codes "./true") then Some (λ _ _, Exit 0) else
               if bool_decide (path = codes "./false") then Some (λ _ _, Exit 1) else None)
      (λ _, ([], 0)) (λ _, None).
Definition run_ex (cmd : string) : machine :=
  then_moves cmd_env 100 101 50 who_ex (main [codes "forkcmd"; codes cmd] [])
    (runs_of 100 2 ++ runs_of 101 6).
Definition run_missing_ex : machine :=
  then_moves cmd_env 100 101 50 who_ex (main [codes "forkcmd"; codes "./none"] [])
    (runs_of 101 7 ++ runs_of 100 5).

Lemma forkcmd_reports_witness :
  (∃ n m', (n <= 5)%nat ∧ exec_moves cmd_env (runs_of 100 n) (run_ex "./false") = Some m' ∧
     table m' !! 100 = None ∧
     calls_of 100 (shown m') = [Stdout (parent_line 100); Stdout with_error; Exited 0]) ∧
  calls_of 100 (shown run_missing_ex) = [Stdout (parent_line 100); Stdout normally; Exited 0].
Proof.
  split; [|vm_compute; reflexivity].
  destruct (forkcmd_reports cmd_env 100 101 50 who_ex (codes "forkcmd") (codes "./false") []
    (run_ex "./false")) as (_ & H & _).
  - reflexivity.
  - discriminate.
  - apply then_moves_forks. vm_compute. reflexivity.
  - apply (H 256). vm_compute. right. right. left.
Defined.

(** The process that becomes the command is the child, or, when [fork] fails, the first
    process itself: it gets the arguments and the environment of forkcmd. *)
Theorem forkcmd_becomes E P C sh who argv0 argv1 envp new prog :
  P ≠ C → file E argv1 = Some prog → 1 < C → C ≠ sh → new = None ∨ new = Some C →
  let me := if new is Some _ then C else P in
  ∃ m, exec_moves E ([Run P new] ++ runs_of me 5) (boot P sh who (main [argv0; argv1] envp)) = Some m ∧
    shown m = map (pair me) (said argv1 me (if new is Some _ then P else sh)) ∧
    state <$> table m !! me = Some (Ready (prog [argv0; argv1] envp)).
Proof.
  intros HPC Hf HC HCs [-> | ->] me; subst me.
  - unfold boot, runs_of. simpl. repeat (rewrite ?lookup_insert_eq, ?lookup_singleton_eq; simpl).
    unfold run. simpl. rewrite Hf. eexists. split; [done|]. simpl. by rewrite lookup_insert_eq.
  - unfold boot, runs_of. simpl. rewrite lookup_singleton_eq. unfold run. simpl.
    rewrite (proj2 (Z.ltb_lt _ _) HC), bool_decide_eq_false_2 by set_solver. simpl.
    repeat (rewrite ?lookup_insert_eq; simpl).
    unfold run. simpl. rewrite Hf. eexists. split; [done|]. simpl. by rewrite lookup_insert_eq.
Qed.
