(* ===== verification/ProcessSolo.v ===== *)
(** * ProcessSolo: a process that makes no other

    A program without fork and wait that runs alone shows a fixed sequence of lines
    ([solo]); every run of the machine shows a prefix of it, and can be continued to
    its end ([solo_output]). *)

From stdpp Require Import base gmap list strings relations.
From S2P Require Import Prelude History Process ProcessFacts ProcessPair.

Open Scope Z_scope.

Section solo.
Context (E : env) (P sh : Z) (who : ids).

(** A system call: what is shown, and how the process goes on. *)
Definition next (p : proc) : option (list event * proc) :=
  match p with
  | Write s k => Some ([Stdout s], k)
  | Perror msg k => Some ([Stderr msg], k)
  | Getpid k => Some ([], k P)
  | Getppid k => Some ([], k sh)
  | Getids k => Some ([], k who)
  | Execve path argv envp k =>
      Some ([], match file E path with Some main => main argv envp | None => k end)
  | Sleep _ k => Some ([], k)
  | System cmd k => Some ([Stdout (command E cmd).1], k (command E cmd).2)
  | Popen cmd k => Some ([], k (pipe E cmd))
  | _ => None
  end.

(** All that the program shows. *)
Inductive solo : proc → list event → Prop :=
  | solo_exit code : solo (Exit code) [Exited (code mod 256 * 256)]
  | solo_next p es p' rest : next p = Some (es, p') → solo p' rest → solo p (es ++ rest).

Lemma solo_step p es p' rest all :
  next p = Some (es, p') → solo p' rest → all = es ++ rest → solo p all.
Proof. intros H1 H2 ->. by eapply solo_next. Qed.

(** The machine is at a place of the program after [shown m]; it has [rest] to show. *)
Inductive solo_at (m : machine) (rest : list event) : Prop :=
  | solo_ready sp p : table m = {[P := Process sh who sp (Ready p)]} → solo p rest → solo_at m rest
  | solo_asleep sp u p :
      table m = {[P := Process sh who sp (Asleep u p)]} → solo p rest → solo_at m rest
  | solo_gone : table m = ∅ → rest = [] → solo_at m rest.

Definition solo_inv (full : list event) (m : machine) : Prop :=
  ∃ l rest, shown m = map (pair P) l ∧ full = l ++ rest ∧ solo_at m rest.

Lemma exec_exit m sp p code :
  table m = {[P := Process sh who sp p]} →
  table (exit_process P (Process sh who sp p) code m) = ∅.
Proof.
  intros Ht. unfold exit_process. simpl. rewrite Ht.
  assert (bury P ({[P := Process sh who sp p]} : gmap Z process) = ∅) as ->.
  { apply map_eq. intros r. rewrite lookup_bury, lookup_empty. case_decide; [done|].
    by rewrite lookup_singleton_ne. }
  by rewrite lookup_empty.
Qed.

Lemma exec_next m sp p new es p' :
  table m = {[P := Process sh who sp (Ready p)]} → next p = Some (es, p') →
  ∃ m' st, run E P (Process sh who sp (Ready p)) new m = Some m' ∧
    shown m' = shown m ++ map (pair P) es ∧ table m' = {[P := Process sh who sp st]} ∧
    (st = Ready p' ∨ ∃ u, st = Asleep u p').
Proof.
  intros Ht Hn. unfold run. simpl.
  destruct p; simpl in Hn |- *; try done; simplify_eq.
  all: try (destruct (file E path)); try (destruct (command E cmd) as [output st]).
  8: eexists _, (Asleep _ _). all: try eexists _, (Ready _).
  all: split; [done|]; split; [simpl; by rewrite ?app_nil_r|].
  all: split; [simpl; by rewrite Ht, insert_singleton_eq|]; eauto.
Qed.

Lemma solo_exec m sp p rest new m' :
  table m = {[P := Process sh who sp (Ready p)]} → solo p rest →
  run E P (Process sh who sp (Ready p)) new m = Some m' →
  ∃ es rest', rest = es ++ rest' ∧ shown m' = shown m ++ map (pair P) es ∧ solo_at m' rest'.
Proof.
  intros Ht Hs Hrun. destruct Hs as [code|p es p' rest Hn Hs].
  - injection Hrun as <-. exists [Exited (code mod 256 * 256)], []. split_and!; [done|done|].
    apply solo_gone; [|done]. by apply exec_exit.
  - exists es, rest. split; [done|].
    destruct (exec_next m sp p new es p' Ht Hn) as (m1 & st & Hrun1 & Hsh & Ht1 & Hst).
    rewrite Hrun in Hrun1. injection Hrun1 as <-. split; [done|].
    destruct Hst as [-> |[u ->]]; [by eapply solo_ready|by eapply solo_asleep].
Qed.

Lemma solo_move full mv m m' : solo_inv full m → exec_move E mv m = Some m' → solo_inv full m'.
Proof.
  intros (l & rest & Hsh & Hfull & Hat) Hmv.
  destruct mv as [q new|]; simpl in Hmv.
  - assert (∃ es rest', rest = es ++ rest' ∧ shown m' = shown m ++ map (pair P) es ∧
      solo_at m' rest') as (es & rest' & -> & Hsh' & Hat').
    { destruct Hat as [sp p Ht Hs|sp u p Ht Hs|Ht _]; rewrite Ht in Hmv; [..|by rewrite lookup_empty in Hmv];
        (destruct (decide (q = P)) as [->|]; [|by rewrite lookup_singleton_ne in Hmv]);
        rewrite lookup_singleton_eq in Hmv; simpl in Hmv.
      - by eapply solo_exec.
      - unfold run in Hmv. simpl in Hmv. case_match; [|done]. injection Hmv as <-.
        exists [], rest. split_and!; [done|simpl; by rewrite app_nil_r|].
        eapply solo_ready; [|done]. simpl. by rewrite Ht, insert_singleton_eq. }
    exists (l ++ es), rest'. rewrite Hsh', Hsh, map_app, Hfull, app_assoc. done.
  - destruct (tick_shape E m m' Hmv) as (_ & _ & Hsh' & Htab).
    exists l, rest. rewrite Hsh'. split_and!; [done..|].
    assert (∀ pr, table m = {[P := pr]} → table m' = {[P := older E m P pr]}) as Hone.
    { intros pr Ht. apply map_eq. intros r. rewrite Htab, Ht.
      destruct (decide (r = P)) as [->|]; [by rewrite !lookup_singleton_eq|].
      by rewrite !lookup_singleton_ne. }
    destruct Hat as [sp p Ht Hs|sp u p Ht Hs|Ht Hr].
    + apply Hone in Ht. unfold older in Ht. destruct (active _ _ _ _); by eapply solo_ready.
    + apply Hone in Ht. unfold older in Ht. destruct (active _ _ _ _); by eapply solo_asleep.
    + apply solo_gone; [|done]. apply map_eq. intros r. by rewrite Htab, Ht, lookup_empty.
Qed.

Lemma solo_reaches full m m' : solo_inv full m → reaches E m m' → solo_inv full m'.
Proof. intros I H. induction H as [|m m1 m2 [mv Hmv] _ IH]; [done|]. by eapply IH, solo_move. Qed.

(** *** The run can be continued to its end *)

(** A process that sleeps wakes up. *)
Lemma wakes sp u p n : ∀ m,
  table m = {[P := Process sh who sp (Asleep u p)]} → u ≤ now m + Z.of_nat n →
  ∃ m', reaches E m m' ∧ table m' = {[P := Process sh who sp (Ready p)]} ∧ shown m' = shown m.
Proof.
  induction n as [|n IH]; intros m Ht Hu; destruct (Z.le_gt_cases u (now m)) as [Hle|Hgt]; [|lia|..].
  3: assert (active E m P (Process sh who sp (Asleep u p)) = false) as Ha
    by (unfold active, run; simpl; by rewrite (proj2 (Z.leb_gt _ _)) by lia).
  1,2: eexists; split; [apply rtc_once; exists (Run P None); simpl|];
    [rewrite Ht, lookup_singleton_eq; simpl; unfold run; simpl; by rewrite (proj2 (Z.leb_le _ _)) by lia
    |simpl; by rewrite Ht, insert_singleton_eq].
  destruct (tick E m) as [m1|] eqn:Htick.
  - destruct (tick_shape E m m1 Htick) as (Hn & _ & Hsh & Htab).
    destruct (IH m1) as (m' & Hr & Ht' & Hsh').
    { apply map_eq. intros r. rewrite Htab, Ht.
      destruct (decide (r = P)) as [->|]; [|by rewrite !lookup_singleton_ne].
      rewrite !lookup_singleton_eq. simpl. unfold older. by rewrite Ha. }
    { lia. }
    exists m'. split_and!; [|done|by rewrite Hsh']. eapply rtc_l; [|done]. by exists Tick.
  - unfold tick in Htick. rewrite Ht, map_to_list_singleton in Htick. simpl in Htick.
    by rewrite Ha in Htick.
Qed.

Lemma solo_finishes p rest : solo p rest → ∀ m sp,
  table m = {[P := Process sh who sp (Ready p)]} →
  ∃ m', reaches E m m' ∧ table m' = ∅ ∧ shown m' = shown m ++ map (pair P) rest.
Proof.
  intros Hs. induction Hs as [code|p es p' rest Hn Hs IH]; intros m sp Ht.
  - eexists. split_and!; [apply rtc_once; exists (Run P None)|by eapply exec_exit|done].
    simpl. rewrite Ht, lookup_singleton_eq. done.
  - destruct (exec_next m sp p None es p' Ht Hn) as (m1 & st & Hrun & Hsh1 & Ht1 & Hst).
    assert (mstep E m m1) as Hstep.
    { exists (Run P None). simpl. rewrite Ht, lookup_singleton_eq. done. }
    assert (∃ m2, reaches E m1 m2 ∧ table m2 = {[P := Process sh who sp (Ready p')]} ∧
      shown m2 = shown m1) as (m2 & Hr & Ht2 & Hsh2).
    { destruct Hst as [-> |[u ->]]; [by exists m1|].
      apply (wakes sp u p' (Z.to_nat (u - now m1))); [done|lia]. }
    destruct (IH m2 sp Ht2) as (m' & Hr' & Ht' & Hsh').
    exists m'. split_and!; [|done|by rewrite Hsh', Hsh2, Hsh1, map_app, app_assoc].
    eapply rtc_l; [done|]. by etrans.
Qed.

Lemma solo_inv_finishes full m :
  solo_inv full m → ∃ m', reaches E m m' ∧ table m' = ∅ ∧ shown m' = map (pair P) full.
Proof.
  intros (l & rest & Hsh & -> & Hat). rewrite map_app, <-Hsh.
  destruct Hat as [sp p Ht Hs|sp u p Ht Hs|Ht ->].
  - by eapply solo_finishes.
  - destruct (wakes sp u p (Z.to_nat (u - now m)) m Ht) as (m1 & Hr & Ht1 & Hsh1); [lia|].
    destruct (solo_finishes p rest Hs m1 sp Ht1) as (m' & Hr' & Ht' & Hsh').
    exists m'. rewrite Hsh', Hsh1. split_and!; [by etrans|done..].
  - exists m. split_and!; [done..|]. simpl. by rewrite app_nil_r.
Qed.
End solo.

(** Whatever the machine does, it has shown a part of [full], and can go on to show
    all of it and end. *)
Definition outputs (E : env) (P sh : Z) (who : ids) (p : proc) (full : list event) : Prop :=
  ∀ m, reaches E (boot P sh who p) m →
    (∃ l rest, shown m = map (pair P) l ∧ full = l ++ rest ∧ (table m = ∅ → rest = [])) ∧
    ∃ m', reaches E m m' ∧ table m' = ∅ ∧ shown m' = map (pair P) full.

Lemma solo_output E P sh who p full :
  solo E P sh who p full → outputs E P sh who p full.
Proof.
  intros Hs m Hr. assert (solo_inv E P sh who full m) as I.
  { apply (solo_reaches E P sh who full (boot P sh who p) m); [|done]. exists [], full. split_and!; [done..|].
    by eapply solo_ready. }
  split; [|by apply (solo_inv_finishes E P sh who)].
  destruct I as (l & rest & Hsh & Hfull & Hat). exists l, rest. split_and!; [done..|].
  intros Ht. destruct Hat as [? ? H|? ? ? H|]; [..|done]; rewrite Ht in H;
    apply (f_equal (.!! P)) in H; by rewrite lookup_singleton_eq in H.
Qed.
