(* ===== verification/SingleProps.v ===== *)
(** * SingleProps: the programs that make no process

    execve.c with myprog.c, getpid.c, getuid.c and system.c. *)

From stdpp Require Import base gmap list strings relations.
From S2P Require Import Prelude Bomb Process ProcessPair ProcessSolo Programs.

Open Scope Z_scope.

#[local] Arguments codes : simpl never.

Section single.
Context (E : env) (P sh : Z) (who : ids).

Ltac call := eapply solo_step; [reflexivity| |].

(** ** myprog.c *)

(** The line of each string, numbered. *)
Definition arg_lines (what : list Z) (count : Z) (vec : list (list Z)) : list event :=
  imap (λ i s, Stdout (line (what ++ codes " " ++ fmt_int (count + Z.of_nat i) ++ codes " is " ++ s))) vec.

Lemma arg_lines_cons what count s vec :
  arg_lines what count (s :: vec) =
  Stdout (line (what ++ codes " " ++ fmt_int count ++ codes " is " ++ s)) ::
  arg_lines what (count + 1) vec.
Proof.
  unfold arg_lines. simpl. rewrite Z.add_0_r. f_equal. apply imap_ext. intros i x _. simpl.
  do 6 f_equal. lia.
Qed.

Lemma print_args_solo what vec k rest : ∀ count,
  solo E P sh who k rest →
  solo E P sh who (print_args what count vec k) (arg_lines what count vec ++ rest).
Proof.
  induction vec as [|s vec IH]; intros count Hk; [done|]. rewrite arg_lines_cons. simpl.
  call; [by apply IH|done].
Qed.

Lemma myprog_solo argv envp :
  solo E P sh who (myprog_main argv envp)
    (arg_lines (codes "arg") 0 argv ++ arg_lines (codes "env") 0 envp ++ [Exited 0]).
Proof. apply print_args_solo, print_args_solo, (solo_exit E P sh who 0). Qed.

(** ** system.c *)

Definition written (e : event) : list Z := match e with Stdout s => s | _ => [] end.

(** The loop prints the text in pieces. *)
Lemma copy_loop_solo k rest : solo E P sh who k rest → ∀ fuel fp,
  forallb (λ c, negb (c =? 0)) fp = true → (length fp < fuel)%nat →
  ∃ pieces, solo E P sh who (copy_loop fuel fp k) (map Stdout pieces ++ rest) ∧ mjoin pieces = fp.
Proof.
  intros Hk fuel. induction fuel as [|fuel IH]; intros fp Hz Hf; [lia|]. cbn [copy_loop].
  destruct fp as [|c fp]; [by exists []|].
  pose proof (read_line_split (PATH_SZ - 1) (c :: fp)) as Hs.
  pose proof (read_line_progress (PATH_SZ - 2) c fp) as Hp.
  change (S (PATH_SZ - 2)) with (PATH_SZ - 1)%nat in Hp.
  destruct (read_line (PATH_SZ - 1) (c :: fp)) as [path text]. simpl in Hs, Hp.
  rewrite <-Hs in Hz |- *. rewrite forallb_app in Hz. apply andb_true_iff in Hz as [Hz1 Hz2].
  destruct (IH text Hz2) as (pieces & Hsolo & Hj); [simpl in Hf; lia|].
  exists (path :: pieces). rewrite c_string_app by done. split; [|simpl; by rewrite Hj].
  call; [done|done].
Qed.

End single.

(** ** What the programs show *)

(** system.c shows what [ls /etc] prints and then, in pieces, what the pipe delivers of
    the second command; when either cannot be run, it says so and returns 1. *)
Lemma system_output E P sh who :
  let '(first, status) := command E (codes "ls /etc") in
  let fails := [Stdout first; Stdout failed; Exited 256] in
  (status ≠ 0 → outputs E P sh who system_main fails) ∧
  (status = 0 → pipe E (codes "ls /etc/") = None → outputs E P sh who system_main fails) ∧
  (∀ text, status = 0 → pipe E (codes "ls /etc/") = Some text →
     forallb (λ c, negb (c =? 0)) text = true →
     ∃ pieces, mjoin pieces = text ∧
       outputs E P sh who system_main (Stdout first :: map Stdout pieces ++ [Exited 0])).
Proof.
  destruct (command E (codes "ls /etc")) as [first status] eqn:Hc. intros fails.
  assert (∀ k rest, solo E P sh who (k status) rest →
    solo E P sh who (System (codes "ls /etc") k) (Stdout first :: rest)) as Hsys.
  { intros k rest Hk. eapply solo_step; [reflexivity|rewrite Hc; exact Hk|by rewrite Hc]. }
  split_and!.
  - intros Hst. apply solo_output, Hsys. rewrite (proj2 (Z.eqb_neq _ _) Hst).
    eapply solo_step; [reflexivity| |reflexivity]. apply (solo_exit E P sh who 1).
  - intros -> Hp. apply solo_output, Hsys. simpl.
    eapply solo_step; [unfold next; rewrite Hp; reflexivity| |reflexivity].
    eapply solo_step; [reflexivity| |reflexivity]. apply (solo_exit E P sh who 1).
  - intros text -> Hp Hz.
    destruct (copy_loop_solo E P sh who (Exit 0) [Exited 0] (solo_exit E P sh who 0) (S (length text)) text Hz)
      as (pieces & Hsolo & Hj); [lia|]. exists pieces. split; [done|].
    apply solo_output, Hsys. simpl.
    eapply solo_step; [unfold next; rewrite Hp; reflexivity|exact Hsolo|reflexivity].
Qed.

(** C39: execve.c becomes myprog.c, which shows the arguments and the environment that
    execve.c gives it; without myprog.c the error is shown, and after 20 seconds the status
    is 1.  getpid.c and getuid.c show their numbers.  system.c shows what [ls /etc] prints and
    then, in pieces, all that the pipe delivers of the second command; when either cannot
    be run, it says so and returns 1. *)
Theorem single_programs_output E P sh who :
  let says s := Stdout (line (codes s)) in
  (file E (codes "./myprog") = Some myprog_main →
     outputs E P sh who execve_main
       [says "Main program started"; says "arg 0 is First arg"; says "arg 1 is Second arg";
        says "env 0 is MYVAR=1"; says "env 1 is MYVAR2=2"; Exited 0]) ∧
  (file E (codes "./myprog") = None →
     outputs E P sh who execve_main
       [says "Main program started"; Stderr (codes "Could not execve"); Exited 256]) ∧
  (∀ argv envp, outputs E P sh who (myprog_main argv envp)
     (arg_lines (codes "arg") 0 argv ++ arg_lines (codes "env") 0 envp ++ [Exited 0])) ∧
  outputs E P sh who getpid_main
    [Stdout (line (codes "I am in the getpid command and my PID is " ++ fmt_int P ++ codes "."));
     Exited 0] ∧
  outputs E P sh who getuid_main
    [Stdout (line (codes "REAL UID: " ++ fmt_int (uid who)));
     Stdout (line (codes "EFFECTIVE UID: " ++ fmt_int (euid who)));
     Stdout (line (codes "REAL GID: " ++ fmt_int (gid who)));
     Stdout (line (codes "EFFECTIVE GID: " ++ fmt_int (egid who))); Exited 0] ∧
  (let '(first, status) := command E (codes "ls /etc") in
   match (if status =? 0 then pipe E (codes "ls /etc/") else None) with
   | None => outputs E P sh who system_main [Stdout first; Stdout failed; Exited 256]
   | Some text => forallb (λ c, negb (c =? 0)) text = true →
       ∃ pieces, mjoin pieces = text ∧
         outputs E P sh who system_main (Stdout first :: map Stdout pieces ++ [Exited 0])
   end).
Proof.
  intros says. split_and!.
  - intros Hf. apply solo_output. eapply solo_step; [reflexivity| |reflexivity].
    eapply solo_step; [unfold next; rewrite Hf; reflexivity| |reflexivity].
    apply (myprog_solo E P sh who execve_argv execve_envp).
  - intros Hf. apply solo_output. eapply solo_step; [reflexivity| |reflexivity].
    eapply solo_step; [unfold next; rewrite Hf; reflexivity| |reflexivity].
    repeat (eapply solo_step; [reflexivity| |reflexivity]). apply (solo_exit E P sh who 1).
  - intros argv envp. apply solo_output, myprog_solo.
  - apply solo_output. repeat (eapply solo_step; [reflexivity| |reflexivity]).
    apply (solo_exit E P sh who 0).
  - apply solo_output. repeat (eapply solo_step; [reflexivity| |reflexivity]).
    apply (solo_exit E P sh who 0).
  - pose proof (system_output E P sh who) as H. destruct (command E (codes "ls /etc")) as [first status].
    destruct H as (H1 & H2 & H3). destruct (Z.eqb_spec status 0) as [Hs|Hs]; [|by apply H1].
    destruct (pipe E (codes "ls /etc/")) as [text|]; [by apply H3|by apply H2].
Qed.

(** A machine on which the command fails, and myprog.c is not there. *)
Definition failing_env : env := Env (λ _, None) (λ _, (codes "ls: error", 512)) (λ _, None).

Lemma single_programs_output_witness :
  outputs failing_env 100 50 who_ex system_main
    [Stdout (codes "ls: error"); Stdout failed; Exited 256] ∧
  outputs failing_env 100 50 who_ex execve_main
    [Stdout (line (codes "Main program started")); Stderr (codes "Could not execve"); Exited 256].
Proof.
  destruct (single_programs_output failing_env 100 50 who_ex) as (_ & H1 & _ & _ & _ & H2).
  split; [exact H2|apply H1; reflexivity].
Defined.

