(* ===== verification/Demos.v ===== *)
(** * Demos: input and control flow demonstrations of assembly/170d and assembly/4loop

    cibo.c (the buffer that [fgets] fills), nonlocaljmp.c and forloop.c. *)

From stdpp Require Import base list strings.
From S2P Require Import Prelude Bomb.

Open Scope Z_scope.

(** ** Input: cibo.c *)

Definition CIBO_BUFFER : nat := 50.

(** [getinput] of cibo.c: what it prints, and the buffer after [fgets], which is [None] when
    characters were written past its end; at the end of the input nothing is written. *)
Definition getinput (stdin : list Z) : list Z * option (list Z) :=
  (codes "Enter stuff: ",
   match stdin with
   | [] => Some []
   | _ => let written := (read_line (150 - 1) stdin).1 ++ [0] in
          if (length written <=? CIBO_BUFFER)%nat then Some written else None
   end).

Definition cibo_main (stdin : list Z) : list Z * option (list Z) := getinput stdin.

(** ** Control flow: nonlocaljmp.c and forloop.c *)

(** A function returns, or jumps to the place of [setjmp] with a value. *)
Inductive flow := Returned (out : list Z) | Jumped (out : list Z) (val : Z).

Definition func : flow :=
  let out := codes "In func()" ++ codes newline in
  Jumped out (if 4 =? 0 then 1 else 4).

(** [place]: what [setjmp] returns. *)
Fixpoint nonlocaljmp_main (fuel : nat) (place : Z) : option (list Z * Z) :=
  match fuel with
  | O => None
  | S fuel =>
    if negb (place =? 0) then Some (codes "Returned using longjmp" ++ codes newline, 0) else
    match func with
    | Returned out => Some (out ++ codes "What! func returned!" ++ codes newline, 0)
    | Jumped out val =>
        '(rest, code) ← nonlocaljmp_main fuel val; Some (out ++ rest, code)
    end
  end.

Fixpoint forloop (fuel : nat) (i count : Z) : option (list Z) :=
  match fuel with
  | O => None
  | S fuel =>
    if i <? count then
      out ← forloop fuel (i + 1) count;
      Some (codes "count = " ++ fmt_d i ++ codes newline ++ out)
    else Some []
  end.

(** [main] of forloop.c *)
Definition forloop_main (fuel : nat) : option (list Z) :=
  let count := 10 in forloop fuel 0 count.
