(* ===== verification/DemoProps.v ===== *)
(** * DemoProps: what the input and control flow demonstrations do *)

From stdpp Require Import base list strings.
From S2P Require Import Prelude Bomb Demos.

Open Scope Z_scope.

(** The first line, with its newline, has more than [k] characters exactly when there are
    more than [k] characters and no newline among the first [k]. *)
Lemma read_line_longer n l k : (k < n)%nat →
  (k < length (read_line n l).1)%nat ↔ (k < length l)%nat ∧ no_newline (take k l) = true.
Proof.
  revert l k. induction n as [|n IH]; intros [|c l] k Hk; [lia|lia|simpl; split; [|intros [? _]]; lia|].
  destruct k as [|k]; simpl.
  - destruct (c =? 10); [simpl; split; [split; [lia|done]|lia]|].
    destruct (read_line n l). simpl. split; [intros _; split; [lia|done]|lia].
  - destruct (c =? 10) eqn:E; simpl.
    + split; [lia|by intros [_ H]].
    + specialize (IH l k ltac:(lia)). destruct (read_line n l) as [a b]. simpl in *.
      rewrite <-Nat.succ_lt_mono, IH, <-Nat.succ_lt_mono. done.
Qed.

Lemma getinput_reads c stdin :
  (getinput (c :: stdin)).2 =
  let line := (read_line 149 (c :: stdin)).1 in
  if (length line <=? 49)%nat then Some (line ++ [0]) else None.
Proof.
  unfold getinput. change (150 - 1)%nat with 149%nat. cbn [snd]. generalize (read_line 149 (c :: stdin)).
  intros [line rest]. cbn [fst]. rewrite length_app. change (length [0]) with 1%nat. unfold CIBO_BUFFER.
  destruct (Nat.leb_spec (length line + 1) 50), (Nat.leb_spec (length line) 49); (done || lia).
Qed.

(** C40: cibo.c writes past the end of its buffer of 50 exactly when at least 50 characters
    come without a newline among the first 49; otherwise the buffer holds the line and
    its terminator.  The prompt comes first. *)
Theorem getinput_overrun stdin :
  (cibo_main stdin).1 = codes "Enter stuff: " ∧
  ((cibo_main stdin).2 = None ↔ (50 <= length stdin)%nat ∧ no_newline (take 49 stdin) = true) ∧
  (∀ l rest, stdin = l ++ 10 :: rest → no_newline l = true → (length l <= 48)%nat →
     (cibo_main stdin).2 = Some (l ++ [10; 0])).
Proof.
  unfold cibo_main. split; [done|]. split.
  - destruct stdin as [|c stdin]; [simpl; split; [done|lia]|]. rewrite getinput_reads.
    pose proof (read_line_longer 149 (c :: stdin) 49 ltac:(lia)) as <-. cbv zeta.
    destruct (Nat.leb_spec (length (read_line 149 (c :: stdin)).1) 49); split; (done || lia).
  - intros l rest -> Hn Hl. destruct (l ++ 10 :: rest) as [|c s] eqn:E; [by destruct l|].
    rewrite getinput_reads, <-E, read_line_good by (done || lia). cbv zeta. cbn [fst].
    rewrite length_app, (proj2 (Nat.leb_le _ _)) by (simpl; lia). by rewrite <-app_assoc.
Qed.

Lemma getinput_overrun_witness :
  (cibo_main (replicate 60 65)).2 = None ∧ (cibo_main (codes "abc" ++ [10])).2 = Some (codes "abc" ++ [10; 0]).
Proof.
  split.
  - apply (getinput_overrun (replicate 60 65)). split; [apply Nat.leb_le; reflexivity|reflexivity].
  - apply (getinput_overrun (codes "abc" ++ [10])) with (rest := []);
      [reflexivity|reflexivity|apply Nat.leb_le; reflexivity].
Defined.

(** The jump returns to [setjmp], which then returns 4: neither unreachable line is
    printed, and the program ends with 0. *)
Lemma nonlocaljmp_jumps fuel :
  nonlocaljmp_main (2 + fuel) 0 =
  Some (codes "In func()" ++ codes newline ++ codes "Returned using longjmp" ++ codes newline, 0).
Proof. reflexivity. Qed.

(** The loop counts up to [count], for any number. *)
Lemma forloop_counts n : ∀ i fuel, (n < fuel)%nat →
  forloop fuel i (i + Z.of_nat n) =
  Some (mjoin ((λ i, codes "count = " ++ fmt_d i ++ codes newline) <$> seqZ i (Z.of_nat n))).
Proof.
  induction n as [|n IH]; intros i [|fuel] Hf; [lia| |lia|].
  - simpl. by rewrite Z.add_0_r, Z.ltb_irrefl.
  - cbn [forloop]. rewrite (proj2 (Z.ltb_lt _ _)) by lia.
    replace (i + Z.of_nat (S n)) with (i + 1 + Z.of_nat n) by lia. rewrite IH by lia.
    rewrite (seqZ_cons i (Z.of_nat (S n))) by lia. unfold Z.succ.
    replace (Z.pred (Z.of_nat (S n))) with (Z.of_nat n) by lia. simpl.
    by rewrite <-!app_assoc.
Qed.

(** forloop.c prints ten lines. *)
Lemma forloop_main_counts fuel : (10 < fuel)%nat →
  forloop_main fuel =
  Some (mjoin ((λ i, codes "count = " ++ fmt_d i ++ codes newline) <$> seqZ 0 10)).
Proof. apply (forloop_counts 10 0). Qed.
