(* ===== verification/Stage5.v ===== *)
(** * Stage5: the tester of the bomb's fifth stage, bomb-assessment/tester/test.c

    A decompiled function: [sscanf] reads five numbers, and a loop compares them through a
    pointer into the array [the_one_that_matters].  Memory accesses and pointer
    arithmetic outside of the array are undefined behaviour. *)

From stdpp Require Import base list strings.
From S2P Require Import Prelude Process Print128 Programs.

Open Scope Z_scope.

(** ** sscanf with the format "%u %u %u %u %u" *)

Inductive scanned := Scanned (v : Z) (rest : list Z) | Mismatch | AtEnd | TooLarge.

Fixpoint scan_digits (acc : Z) (s : list Z) : Z * list Z :=
  match s with
  | c :: s' => if is_digit c then scan_digits (acc * 10 + (c - 48)) s' else (acc, s)
  | [] => (acc, [])
  end.

(** [%u]: white space, a sign, digits. *)
Definition scan_u (s : list Z) : scanned :=
  match skip_space s with
  | [] => AtEnd
  | c :: s' =>
    let '(sign, digits) := if c =? 45 then (-1, s') else if c =? 43 then (1, s') else (1, c :: s') in
    match digits with
    | d :: _ =>
      if is_digit d then
        let '(v, rest) := scan_digits 0 digits in
        if v <? 2 ^ 32 then Scanned (u32 (sign * v)) rest else TooLarge
      else Mismatch
    | [] => Mismatch
    end
  end.

(** [n] conversions: the number of successful ones (-1 at the end of the input) and the
    numbers; undefined when a number is not an [unsigned int]. *)
Fixpoint sscanf_u (n : nat) (s : list Z) (read : list Z) : option (Z * list Z) :=
  match n with
  | O => Some (Z.of_nat (length read), read)
  | S n =>
    match scan_u s with
    | Scanned v rest => sscanf_u n rest (read ++ [v])
    | Mismatch => Some (Z.of_nat (length read), read)
    | AtEnd => Some (if bool_decide (read = []) then -1 else Z.of_nat (length read), read)
    | TooLarge => None
    end
  end.

(** ** stage_5 *)

Definition DAT_00105068 : list Z := codes "107".
Definition user_input : list Z := codes "10 20 30 40 50".

(** [*(uint * )(the_one_that_matters + counter * 4 + -4)]: both sums must point into the array of
    four elements or one past it, and the element must have been written. *)
Definition element (the_one_that_matters : list (option Z)) (counter : Z) : option Z :=
  let len := Z.of_nat (length the_one_that_matters) in
  let first := counter * 4 in
  let second := first + -4 in
  if (0 <=? first) && (first <=? len) && (0 <=? second) && (second <? len)
  then mjoin (the_one_that_matters !! Z.to_nat second) else None.

Inductive stage_result := Result (z : Z) | UndefinedBehaviour.

Definition remainder (var_val_107 : Z) : Z :=
  let r := var_val_107 mod Z.of_nat (length DAT_00105068) in
  Z.lor (Z.land r 0xffffffffffffff00) (if r =? 0 then 1 else 0).

(** The loop over [counter], for [n] more iterations. *)
Fixpoint check_values (a : list (option Z)) (n : nat) (counter var_val_107 : Z) : stage_result :=
  match n with
  | O => Result (remainder var_val_107)
  | S n =>
    match element a counter with
    | None => UndefinedBehaviour
    | Some x =>
      if x <=? var_val_107 then Result 0
      else check_values a n (counter + 1) (u32 (var_val_107 + x))
    end
  end.

Definition stage_5 (input : list Z) : stage_result :=
  let var_val_107 := nth 0 DAT_00105068 0 in
  match sscanf_u 5 input [] with
  | None => UndefinedBehaviour
  | Some (var_1_val_5, read) =>
    if var_1_val_5 =? 5 then check_values [read !! 1%nat; None; None; None] 5 0 var_val_107
    else Result 0
  end.

(** [main] of test.c: the output. *)
Definition test_main : option (list Z) :=
  match stage_5 user_input with
  | Result z => Some (codes "Result: " ++ dec 20 z ++ codes newline)
  | UndefinedBehaviour => None
  end.

(** ** Lemmas *)

Lemma scan_digits_app a rest v :
  forallb is_digit a = true → match rest with c :: _ => is_digit c = false | [] => True end →
  scan_digits v (a ++ rest) = (numeral v a, rest).
Proof.
  revert v. induction a as [|c a IH]; intros v Ha Hr; simpl.
  - destruct rest as [|c rest]; simpl; [done|]. by rewrite Hr.
  - simpl in Ha. zbool. by rewrite H, IH.
Qed.

Lemma dec_scans f n : covers 10 f n →
  forallb is_digit (dec f n) = true ∧ numeral 0 (dec f n) = n ∧ dec f n ≠ [].
Proof.
  revert n. induction f as [|f IH]; intros n Hn; [by destruct Hn|]. cbn [dec].
  assert (∀ d, 0 ≤ d < 10 → is_digit (48 + d) = true) as Hd.
  { intros d Hd. unfold is_digit. apply andb_true_iff. rewrite !Z.leb_le. lia. }
  destruct Hn as [Hn Hf]. case_test.
  - simpl. rewrite !Hd by lia. split_and!; [done|lia|done].
  - destruct (IH (n / 10)) as (H1 & H2 & H3); [apply covers_div; [lia|by split]|].
    pose proof (Z.mod_pos_bound n 10 eq_refl). rewrite forallb_app, numeral_app, H1, H2. simpl.
    rewrite !Hd by lia. split_and!; [done| |by destruct (dec f (n / 10))].
    rewrite (Z.div_mod n 10) at 3 by lia. lia.
Qed.

(** A numeral, perhaps after a space, is read whole. *)
Lemma scan_u_numeral v rest : 0 ≤ v < 2 ^ 32 → match rest with c :: _ => is_digit c = false | [] => True end →
  scan_u (dec 10 v ++ rest) = Scanned v rest ∧ scan_u (32 :: dec 10 v ++ rest) = Scanned v rest.
Proof.
  intros Hv Hr. assert (scan_u (dec 10 v ++ rest) = Scanned v rest) as H; [|split; [exact H|exact H]].
  destruct (dec_scans 10 v) as (Hd & Hn & Hne).
  { split; [|done]. change (10 ^ Z.of_nat 10) with 10000000000. lia. }
  pose proof (scan_digits_app (dec 10 v) rest 0 Hd Hr) as Hs. rewrite Hn in Hs.
  destruct (dec 10 v) as [|c a]; [done|]. simpl in Hd. apply andb_true_iff in Hd as [Hc _].
  unfold scan_u. change ((c :: a) ++ rest) with (c :: a ++ rest) in *. cbn [skip_space].
  assert (48 ≤ c ≤ 57) as Hc' by (unfold is_digit in Hc; zbool; lia).
  assert (is_space c = false) as ->.
  { unfold is_space. apply orb_false_iff. rewrite andb_false_iff, Z.eqb_neq, !Z.leb_gt. lia. }
  rewrite (proj2 (Z.eqb_neq c 45)), (proj2 (Z.eqb_neq c 43)) by lia. rewrite Hc, Hs.
  rewrite (proj2 (Z.ltb_lt _ _)) by lia. unfold u32. by rewrite Z.mul_1_l, Z.mod_small.
Qed.

Definition five (a b c d e : Z) : list Z :=
  dec 10 a ++ 32 :: dec 10 b ++ 32 :: dec 10 c ++ 32 :: dec 10 d ++ 32 :: dec 10 e.

Lemma sscanf_five a b c d e :
  Forall (λ v, 0 ≤ v < 2 ^ 32) [a; b; c; d; e] → sscanf_u 5 (five a b c d e) [] = Some (5, [a; b; c; d; e]).
Proof.
  intros H. rewrite !Forall_cons in H. destruct H as (Ha & Hb & Hc & Hd & He & _). unfold five.
  cbn [sscanf_u]. rewrite (proj1 (scan_u_numeral a (32 :: _) Ha eq_refl)).
  rewrite (proj2 (scan_u_numeral b (32 :: _) Hb eq_refl)), (proj2 (scan_u_numeral c (32 :: _) Hc eq_refl)).
  rewrite (proj2 (scan_u_numeral d (32 :: _) Hd eq_refl)), <-(app_nil_r (dec 10 e)).
  by rewrite (proj2 (scan_u_numeral e [] He I)).
Qed.

(** The function returns 0 unless the five numbers are read; then its first
    iteration reads the array four elements before its start, whatever the numbers are.  Any
    five numerals separated by spaces are read, among them those of [main], which
    therefore never prints a result. *)
Theorem stage_5_undefined input :
  (∀ n read, sscanf_u 5 input [] = Some (n, read) →
     stage_5 input = if n =? 5 then UndefinedBehaviour else Result 0) ∧
  (∀ a b c d e, Forall (λ v, 0 ≤ v < 2 ^ 32) [a; b; c; d; e] → input = five a b c d e →
     stage_5 input = UndefinedBehaviour) ∧
  user_input = five 10 20 30 40 50 ∧ test_main = None.
Proof.
  assert (∀ n read, sscanf_u 5 input [] = Some (n, read) →
     stage_5 input = if n =? 5 then UndefinedBehaviour else Result 0) as H.
  { intros n read Hs. unfold stage_5. rewrite Hs. by destruct (n =? 5). }
  split_and!; [done| |reflexivity|reflexivity].
  intros a b c d e Hf ->. by rewrite (H 5 [a; b; c; d; e] (sscanf_five a b c d e Hf)).
Qed.

Lemma stage_5_undefined_witness :
  stage_5 (five 1 2 3 4 5) = UndefinedBehaviour ∧ stage_5 (codes "1 2 x") = Result 0.
Proof.
  split.
  - apply (proj1 (proj2 (stage_5_undefined (five 1 2 3 4 5))) 1 2 3 4 5); [|reflexivity].
    repeat (constructor; [split; [discriminate|reflexivity]|]). constructor.
  - apply (proj1 (stage_5_undefined (codes "1 2 x")) 2 [1; 2]). vm_compute. reflexivity.
Defined.
